(* ===== verification/_CoqProject ===== *)
-Q . S2P
Prelude.v
Prost.v
Regexp.v
Names.v
NamesSpec.v
Concurrent.v
Files.v
FilesSpec.v
State.v
StateSpec.v
StateInvariant.v
StateCalls.v
StateProgress.v
Cri.v
CriSpec.v
CriInvariant.v
CriRuns.v
Containers.v
ContainersSpec.v
ContainersRuns.v
Images.v
ImagesSpec.v
Wire.v
Typing.v
DecodeLib.v
DecodeScalar.v
DecodeCompound.v
DecodeSpec.v
EncodeLib.v
EncodeScalar.v
EncodeCompound.v
EncodeSpec.v
Codec.v
CodecSpec.v
Roundtrip.v
Ordering.v
Descriptors.v
DescriptorsSpec.v
Wit.v
WitSpec.v
WitTotal.v
WitRuns.v
WitCodec.v
IpText.v
Ipam.v
IpamSpec.v
Pods.v
PodsSpec.v
PodsRuns.v
PodsWit.v
Daemon.v
