(* ===== verification/Prelude.v ===== *)
(** * Vimana: a verification development

    Vimana serves gRPC from WebAssembly components on a Kubernetes node.  Its daemon (the Rust
    code under [src/runtime/]) implements the Container Runtime Interface: a pod is one
    component, its container starts and stops a gRPC server on the pod's IP address.  A request
    is decoded from Protobuf to component values, the component is invoked, and its result is
    encoded.  Its compiler ([src/compiler/]), a plugin of [protoc], writes the interface (WIT)
    that a component for a Protobuf service has to implement.

    ** Parts of the program, and where they are modelled

    << file of src/runtime/        model                           theorems
       names.rs                    Names (on Regexp)               NamesSpec
       state.rs                    State (on Concurrent, Names)    StateSpec, StateInvariant,
                                                                   StateCalls, StateProgress
       cri/mod.rs, cri/runtime.rs  Cri (on State)                  CriSpec, CriInvariant, CriRuns
       containers.rs               Containers (on Files)           FilesSpec, ContainersSpec,
                                                                   ContainersRuns
       cri/image.rs                Images (on Containers)          ImagesSpec
       metadata.proto              Wire, Pods                      Typing (specification)
       decode/lib.rs               DecodeLib, DecodeCompound       DecodeSpec
       decode/scalar.rs            DecodeScalar                    DecodeScalar
       decode/compound.rs          DecodeCompound                  DecodeSpec
       encode/lib.rs               EncodeLib, EncodeCompound       EncodeSpec
       encode/scalar.rs            EncodeScalar                    EncodeScalar
       encode/compound.rs          EncodeCompound                  EncodeSpec
         decode and encode together                                Codec, CodecSpec, Roundtrip
       pods.rs, host.rs            Pods (on the codec, Containers) PodsSpec, PodsRuns
       ipam.rs                     Ipam (on IpText)                IpamSpec
       main.rs                     Daemon (on all of the above)    Daemon
       file of src/compiler/
       main.rs                     Descriptors, Wit                DescriptorsSpec, WitSpec,
       wit.rs, metadata.rs         Wit (on Ordering)                 WitTotal, WitRuns
         compiler and codec together                               WitCodec, PodsWit >>

    A definition has the name of the function or type it models; a method is named after its
    type where the name alone would be ambiguous ([Encoder_drop]).

    - Names.  [Name_parse] and its [Debug] form, [DomainUuid], [ServerName],
      [ComponentName], [PodName] with their [parse], validation and display, and the
      hexadecimal codec, vector by vector as the source has it (a SIMD vector is its list of
      lanes, a lane a [u8]).
    - Operations with effects are resumptions ([Concurrent.prog]): one atomic step for each
      thing that others can observe or that may fail, such as an operation on a concurrent map,
      a file or a socket, or an await.  A step takes what the environment answers.  An operation of one component runs
      inside the world of another by [Concurrent.lift]; [same_steps] is their equality.  One
      operation runs by itself under a list of answers ([run_alone]) or under one answer
      ([run_with]); [Concurrent.exec] interleaves any number of them with the events that
      happen without a call (a server that ends, an initialisation that completes, the signal
      to shut down).
    - State.  [WorkRuntime]'s calls from [init_pod] to [delete_pod].  [Cri] has the handlers of
      the CRI service over it, and the downstream runtime that gets all that is not Vimana's.
    - Containers.  The store's disk is a tree of directories and files ([Files]), its counters
      are guarded by a mutex that a panic poisons; any I/O operation may fail half-way.
    - Codec.  The metadata of a method ([Field]) is compiled to a tree of [Merger]s or
      [Encoder]s, whose function pointers are the constructors of [MergeFn], [EncodeFn] and
      [LengthFn].  A decoder is a state and error monad ([Rd]) over the remaining limit and
      the buffer; an encoder is two passes over one stack of lengths.
    - Pods.  The routes of a pod from the metadata of its image, and what is posted to one of
      them.  Ipam.  Allocating, activating and releasing addresses.  The world of both is the
      log of what was asked outside.
    - Compiler.  The map of all descriptors, the depth-first compilation of the messages that a
      service needs, and the packages that are printed.  Hash maps and sets are iterated in an
      order that is a parameter ([Ordering.HashOrder]).

    ** What the theorems show

    - Names: a component name has exactly one spelling; a pod name displays to one that parses
      back, but has others; what the validating regular expressions accept, without
      expressions; the vectorised hexadecimal codec is a bijection of the UTF-8 strings and
      their encodings.
    - State, for all interleavings: pods only move along the lifecycle ([lifecycle_respected],
      [killed_is_final]), no server is lost ([no_server_lost]), two servers never share an
      address, and which of the errors called impossible are so ([impossible_errors]).
      The proofs are by an invariant with tokens ([StateInvariant.Good]): a call owns tokens
      for what it is about to store in the map or must still shut down.
    - State, a call at a time: what is refused, what starting, stopping and killing do, what
      the queries return, that every call returns ([every_call_returns]); and runs on concrete
      maps of the behaviour that surprises.
    - CRI: a handler runs the call of [State] its request names and nothing else
      ([request_runs_call]), what belongs to Vimana is never forwarded ([pods_never_proxied]),
      the invariants of [State] hold for the service, and what listings contain.
    - Container store: what is pulled can be read and removed, images are isolated, the
      counters are what is stored (up to what a second pull overwrites), no interleaving
      deadlocks; and two ways in which it goes wrong.
    - Decoder: [decode_typed] (every request that decodes is a value of the declared type,
      for any bytes), [decode_no_undefined_behaviour] (termination; unions), unknown fields,
      [Drop].
    - Encoder: a refinement between the two passes and a one-pass reference
      ([encode_refines_reference]), and which values never encode.
    - Both: [codec_roundtrip], from the one for the reference encoder and those for scalars,
      with the values that do not survive as theorems of their own.
    - Pods: an image that is pulled makes a pod that serves exactly its methods
      ([pulled_pod_serves]); a request, from its bytes to those of the response
      ([request_served]).
    - IPAM: what is allocated and active after each operation ([address_accounts],
      [release_undoes]), that a pod's container ID is its own, and that the steps [State] takes
      for IPAM abstract the client ([ipam_refines]).
    - Daemon: how the options are chosen, and what a run leaves behind ([socket_left_behind]).
    - Compiler: what it defines is defined once and closed under use ([types_defined_once]), it
      returns ([compile_returns]), its output does not depend on the order of hash maps
      ([output_deterministic]), paths find the types they name ([paths_resolve]).
    - Compiler and codec: what the decoder makes of a request inhabits the WIT type of the
      message ([requests_inhabit_wit]), except for singular messages of proto3.

    ** Bounds and fuel

    - Integers are [Z]; each operation writes its wrapping, saturation or overflow out.
      Lengths and limits are [u32] (saturating additions in the encoder); the counters of the
      container store are [u64], and theorems on them assume that they do not overflow.
    - [merge_with], [encode_with], [length_with] take the nesting of the mergers or encoders
      as fuel ([merger_depth], [encoder_depth]): a call goes to a strictly smaller tree, and
      [decode_no_undefined_behaviour] and [encode_refines_reference] show it is enough.
      The decoder's [while] loops take the limit, which every turn decreases.
    - [Wit.compile_message] takes the number of messages that could still be compiled
      ([depth]); [compile_returns] shows that it is enough, since each call compiles one.
    - [chunks_exact] has the length of the slice as fuel ([chunks_exact_spec]);
      [format_hex] has 15, one less than the digits of a [u64].
    - The theorems on [State] and [Cri] hold for runs of fewer than [2 ^ 64] events, because
      pod IDs are counted in 64 bits.  A call of [State] takes at most 13 steps, and one of the
      store at most 24.

    ** Code that is not in the repository

    Parameters, each a class with the laws its documentation gives and an instance that
    satisfies them:

    - [prost::encoding] and [bytes]: [Prost.WireOps], [WireLaws]; LEB128;
    - [regex]: [Regexp.RegexCrate], [RegexLaws]; derivatives; captures: [Regexp.RegexCaptures];
    - [papaya]: [Concurrent.PapayaMap], [Cri.PapayaSet] and their laws; [gmap], [gset];
    - [wasmtime], [prost] and [serde_json] as formats of images: [Containers.ContainerCodec];
    - [wasmtime], [axum], [tonic] and [http] for pods: [Pods.Wasmtime], [Axum], [Tonic];
    - [sha2] and [serde_json] for IPAM: [Ipam.IpamLibs];
    - [heck] and [wit_encoder]: [Wit.Heck], [Wit.WitEncoder];
    - the order of iteration of a hash map: [Ordering.HashOrder].

    The sockets, timers, files, the network, the CNI plugin, netlink, the downstream runtime and
    the component itself are the environment: a step asks, and any answer may come.  Memory is
    not modelled beyond the [union] fields, which the drops and the reads of the codec must
    get right.

    ** Not modelled

    - logging ([logging.rs], and the calls of it everywhere);
    - the code of [compiler/metadata.rs] that is commented out;
    - that the two layers of an image are fetched in parallel (the model takes the component
      first), and failures to allocate memory;
    - unit tests.

    The operator, the cluster scripts and the development tools are not Rust. *)

From stdpp Require Export base gmap strings list.
From Stdlib Require Export ZArith Lia.
From Stdlib Require Export Strings.Byte.
From Stdlib Require Strings.String.

#[global] Open Scope Z_scope.

(** ** Outcomes

    A Rust function that returns [Result<A, E>] either returns ([Done]), returns an
    error ([Failed]), or does not return a value at all ([Crash]): it panics, it performs
    an operation Rust calls undefined behaviour (a read of the wrong field of a [union]),
    or, in the model only, the fuel given to a loop was too small.  The theorems of the
    development rule the last two out wherever the code can run. *)
Inductive crash :=
| Panicked
| UndefinedBehaviour
| FuelExhausted.

Inductive outcome (E A : Type) :=
| Done (a : A)
| Failed (e : E)
| Crash (c : crash).
Arguments Done {E A} a.
Arguments Failed {E A} e.
Arguments Crash {E A} c.

#[export] Instance outcome_eq_dec {E A} `{EqDecision E, EqDecision A} : EqDecision (outcome E A).
Proof.
  intros x y. unfold Decision. decide equality;
    [apply EqDecision1 | apply EqDecision0 | decide equality].
Defined.

Definition obind {E A B} (m : outcome E A) (k : A -> outcome E B) : outcome E B :=
  match m with
  | Done a => k a
  | Failed e => Failed e
  | Crash c => Crash c
  end.

(** [Result::map_err]. *)
Definition map_err {E F A} (f : E -> F) (m : outcome E A) : outcome F A :=
  match m with
  | Done a => Done a
  | Failed e => Failed (f e)
  | Crash c => Crash c
  end.

(** [Option::ok_or]. *)
Definition ok_or {E A} (o : option A) (e : E) : outcome E A :=
  match o with Some a => Done a | None => Failed e end.

Declare Scope vimana_scope.
Delimit Scope vimana_scope with vimana.
#[global] Open Scope vimana_scope.

(** The [?] operator of Rust. *)
Notation "'let?' p ':=' m 'in' k" := (obind m (fun x => match x with p => k end))
  (at level 10, p pattern, m at level 100, k at level 200,
   format "'[v' 'let?'  p  ':='  m  'in' '/' k ']'") : vimana_scope.

Lemma obind_done {E A B} (m : outcome E A) (k : A -> outcome E B) b :
  obind m k = Done b <-> exists a, m = Done a /\ k a = Done b.
Proof.
  destruct m as [x| |]; simpl; split; try (intros ?; discriminate).
  - intros ?. by exists x.
  - by intros (? & [= ->] & ?).
  - by intros (? & ? & _).
  - by intros (? & ? & _).
Qed.

Lemma map_err_done {E F A} (f : E -> F) (m : outcome E A) a :
  map_err f m = Done a <-> m = Done a.
Proof. destruct m; simpl; split; congruence. Qed.

Lemma obind_crash {E A B} (m : outcome E A) (k : A -> outcome E B) c :
  obind m k = Crash c <-> m = Crash c \/ exists a, m = Done a /\ k a = Crash c.
Proof.
  destruct m as [x| |]; simpl; split.
  - intros H. right. by exists x.
  - intros [H|(a & H & H')]; [discriminate | congruence].
  - intros H. discriminate.
  - intros [H|(a & H & H')]; discriminate.
  - intros H. left. congruence.
  - intros [H|(a & H & H')]; congruence.
Qed.

Lemma map_err_crash {E F A} (f : E -> F) (m : outcome E A) c :
  map_err f m = Crash c <-> m = Crash c.
Proof. destruct m; simpl; split; congruence. Qed.

Create HintDb vimana.

(** Break hypotheses of the shape [obind m k = Done _] and [... = Crash _] down to the
    steps that produced them. *)
Ltac outcome_inv :=
  repeat match goal with
  | H : obind _ _ = Done _ |- _ => apply obind_done in H; destruct H as (? & ? & H)
  | H : map_err _ _ = Done _ |- _ => apply map_err_done in H
  | H : map_err _ _ = Crash _ |- _ => apply map_err_crash in H
  | H : obind _ _ = Crash _ |- _ =>
      apply obind_crash in H; destruct H as [H | (? & ? & H)]
  | H : Done _ = Done _ |- _ => injection H as H; subst
  | H : (_, _) = (_, _) |- _ => injection H as H; subst
  | H : Crash _ = Done _ |- _ => discriminate H
  | H : Failed _ = Done _ |- _ => discriminate H
  | H : Failed _ = Crash _ |- _ => discriminate H
  | H : Done _ = Crash _ |- _ => discriminate H
  | p : prod _ _ |- _ => destruct p
  end.

(** ** Loops that may return early *)
(** A loop whose body may return early. *)
Fixpoint try_fold {E S A} (body : S -> A -> outcome E S) (s : S) (l : list A) : outcome E S :=
  match l with
  | [] => Done s
  | a :: l' => let? s := body s a in try_fold body s l'
  end.

Section TryFold.
Context {E S A : Type} (body : S -> A -> outcome E S).

Lemma try_fold_done (I : S -> Prop) l s s' :
  I s -> (forall s a s', a ∈ l -> I s -> body s a = Done s' -> I s') -> try_fold body s l = Done s' -> I s'.
Proof.
  revert s. induction l as [|a l IH]; simpl; intros s Hs Hb Hr; [by outcome_inv |].
  apply obind_done in Hr as (s1 & H1 & Hr). eapply IH; [| |exact Hr].
  - eapply Hb; [|exact Hs|exact H1]. by left.
  - intros t b t' Hin. apply Hb. by right.
Qed.

Lemma try_fold_no_crash (I : S -> Prop) l s c :
  I s -> (forall s a, a ∈ l -> I s -> body s a <> Crash c /\ forall s', body s a = Done s' -> I s') ->
  try_fold body s l <> Crash c.
Proof.
  revert s. induction l as [|a l IH]; simpl; intros s Hs Hb Hr; [done |].
  destruct (Hb s a ltac:(by left) Hs) as [Hnc HI].
  apply obind_crash in Hr as [Hr|(s1 & H1 & Hr)]; [done |].
  eapply IH; [exact (HI _ H1)| |exact Hr]. intros t b Hin. apply Hb. by right.
Qed.

(** What one turn does is still done at the end. *)
Lemma try_fold_turn (I P : S -> Prop) l s s' a :
  I s -> (forall s b s', b ∈ l -> I s -> body s b = Done s' -> I s' /\ (P s -> P s')) ->
  (forall s s', I s -> body s a = Done s' -> P s') -> a ∈ l -> try_fold body s l = Done s' -> P s'.
Proof.
  intros Hs Hkeep Hturn. revert s Hs. induction l as [|b l IH]; intros s Hs Hin; [by apply not_elem_of_nil in Hin |].
  simpl. intros Hr. apply obind_done in Hr as (s1 & H1 & Hr).
  pose proof (proj1 (Hkeep s b s1 (list_elem_of_here _ _) Hs H1)) as HI.
  assert (Hk : forall s b s', b ∈ l -> I s -> body s b = Done s' -> I s' /\ (P s -> P s')).
  { intros t c t' Hc. apply Hkeep, elem_of_cons. auto. }
  apply elem_of_cons in Hin as [->|Hin]; [|by eapply IH].
  apply (try_fold_done (fun s => I s /\ P s)) in Hr as [_ Hr]; [done | |].
  - split; [done | exact (Hturn _ _ Hs H1)].
  - intros t c t' Hc [Ht HP] Hb. destruct (Hk _ _ _ Hc Ht Hb) as [Ht' HP']. auto.
Qed.
End TryFold.

(** ** Machine integers

    A [w]-bit Rust integer is a [Z]; [u8], [u32], [u64] and [usize] (64 bits) lie in
    [0, 2^w), [i32] and [i64] in [-2^(w-1), 2^(w-1)). *)
Definition u_range (w z : Z) : Prop := 0 <= z < 2 ^ w.
Definition i_range (w z : Z) : Prop := - 2 ^ (w - 1) <= z < 2 ^ (w - 1).

#[export] Instance u_range_dec w z : Decision (u_range w z).
Proof. unfold u_range. apply _. Defined.
#[export] Instance i_range_dec w z : Decision (i_range w z).
Proof. unfold i_range. apply _. Defined.

(** [z as uN], the bits of [z] at width [w]. *)
Definition as_u (w z : Z) : Z := z mod 2 ^ w.

(** [z as iN], the bits of [z] at width [w] read as two's complement. *)
Definition as_i (w z : Z) : Z := (z + 2 ^ (w - 1)) mod 2 ^ w - 2 ^ (w - 1).

Definition u32_max : Z := 2 ^ 32 - 1.

(** [u32::saturating_add]. *)
Definition u32_saturating_add (a b : Z) : Z := Z.min (a + b) u32_max.

(** [u32::try_from(z).unwrap_or(u32::MAX)], for a non-negative [z]. *)
Definition u32_try_or_max (z : Z) : Z := Z.min z u32_max.

Lemma as_u_id w z : u_range w z -> as_u w z = z.
Proof. apply Z.mod_small. Qed.

Lemma as_u_range w z : 0 <= w -> u_range w (as_u w z).
Proof. intros. apply Z.mod_pos_bound. lia. Qed.

Lemma as_i_range w z : 0 < w -> i_range w (as_i w z).
Proof.
  intros. unfold i_range, as_i.
  pose proof (Z.mod_pos_bound (z + 2 ^ (w - 1)) (2 ^ w)).
  replace (2 ^ w) with (2 * 2 ^ (w - 1)) in *; [lia |].
  rewrite <- Z.pow_succ_r by lia. f_equal. lia.
Qed.

(** Casting to unsigned and back is the identity: the encodings of [i32] and [i64]. *)
Lemma as_i_as_u w z : 0 < w -> i_range w z -> as_i w (as_u w z) = z.
Proof.
  unfold i_range, as_i, as_u. intros Hw Hz.
  rewrite Z.add_mod_idemp_l by lia.
  replace (2 ^ w) with (2 * 2 ^ (w - 1)).
  - rewrite Z.mod_small; lia.
  - rewrite <- Z.pow_succ_r by lia. f_equal. lia.
Qed.

#[export] Hint Resolve as_u_range as_i_range : vimana.

(** ** Bytes *)
Definition byte_of_Z (z : Z) : byte :=
  match Byte.of_N (Z.to_N (z mod 256)) with Some b => b | None => x00 end.
Definition Z_of_byte (b : byte) : Z := Z.of_N (Byte.to_N b).

Lemma Z_of_byte_range b : 0 <= Z_of_byte b < 256.
Proof. unfold Z_of_byte. pose proof (Byte.to_N_bounded b). lia. Qed.

Lemma Z_of_byte_of_Z z : Z_of_byte (byte_of_Z z) = z mod 256.
Proof.
  unfold Z_of_byte, byte_of_Z.
  pose proof (Z.mod_pos_bound z 256).
  destruct (Byte.of_N _) eqn:E.
  - apply Byte.to_of_N in E. rewrite E. lia.
  - apply Byte.of_N_None_iff in E. lia.
Qed.

Lemma byte_of_Z_of_byte b : byte_of_Z (Z_of_byte b) = b.
Proof.
  unfold Z_of_byte, byte_of_Z. pose proof (Byte.to_N_bounded b).
  rewrite Z.mod_small by lia. rewrite N2Z.id, Byte.of_to_N. done.
Qed.

Lemma Z_of_byte_inj a b : Z_of_byte a = Z_of_byte b -> a = b.
Proof. intros H. by rewrite <- (byte_of_Z_of_byte a), H, byte_of_Z_of_byte. Qed.

#[export] Hint Resolve Z_of_byte_range : vimana.

#[export] Instance byte_eq_dec : EqDecision byte := Byte.byte_eq_dec.
#[export] Instance byte_countable : Countable byte.
Proof. apply (inj_countable Byte.to_N Byte.of_N). intros b. apply Byte.of_to_N. Defined.

(** Little-endian integers of [n] bytes, as [to_le_bytes] and [from_le_bytes]. *)
Fixpoint to_le (n : nat) (z : Z) : list byte :=
  match n with
  | O => []
  | S n' => byte_of_Z z :: to_le n' (z / 256)
  end.

Fixpoint of_le (bs : list byte) : Z :=
  match bs with
  | [] => 0
  | b :: bs' => Z_of_byte b + 256 * of_le bs'
  end.

Lemma length_to_le n z : length (to_le n z) = n.
Proof. revert z. induction n as [|n IH]; intros z; simpl; [done | by rewrite IH]. Qed.

Lemma of_le_range bs : u_range (8 * Z.of_nat (length bs)) (of_le bs).
Proof.
  unfold u_range. induction bs as [|b bs IH]; simpl; [lia |].
  pose proof (Z_of_byte_range b).
  replace (8 * Z.of_nat (S (length bs))) with (8 + 8 * Z.of_nat (length bs)) by lia.
  rewrite Z.pow_add_r by lia. change (2 ^ 8) with 256. lia.
Qed.

Lemma of_le_to_le n z : u_range (8 * Z.of_nat n) z -> of_le (to_le n z) = z.
Proof.
  unfold u_range. revert z. induction n as [|n IH]; intros z Hz; simpl.
  - change (2 ^ (8 * Z.of_nat 0)) with 1 in Hz. lia.
  - replace (8 * Z.of_nat (S n)) with (8 + 8 * Z.of_nat n) in Hz by lia.
    rewrite Z.pow_add_r in Hz by lia. change (2 ^ 8) with 256 in Hz.
    rewrite IH.
    + rewrite Z_of_byte_of_Z. pose proof (Z.div_mod z 256). lia.
    + split; [apply Z.div_pos; lia | apply Z.div_lt_upper_bound; lia].
Qed.

Lemma to_le_of_le bs : to_le (length bs) (of_le bs) = bs.
Proof.
  induction bs as [|b bs IH]; simpl; [done |].
  pose proof (Z_of_byte_range b).
  replace ((Z_of_byte b + 256 * of_le bs) / 256) with (of_le bs) by
    (rewrite Z.mul_comm, Z.div_add, Z.div_small by lia; lia).
  rewrite IH. f_equal.
  rewrite <- (byte_of_Z_of_byte b) at 2. unfold byte_of_Z.
  rewrite (Z.mul_comm 256), Z.mod_add by lia. done.
Qed.

(** The bytes of a Rust string; a [string] is any byte sequence, [utf8_valid] below tells
    the ones that are legal in a [String]. *)
Abbreviation string_bytes := String.list_byte_of_string.
Abbreviation bytes_string := String.string_of_list_byte.

(** A [str] whose bytes the code looks at, and the bytes of an ASCII literal. *)
Abbreviation str := (list byte).
Abbreviation lit := string_bytes.

Lemma string_bytes_string bs : string_bytes (bytes_string bs) = bs.
Proof. apply String.list_byte_of_string_of_list_byte. Qed.
Lemma bytes_string_bytes s : bytes_string (string_bytes s) = s.
Proof. apply String.string_of_list_byte_of_string. Qed.

(** [String::from_utf8] accepts exactly the well-formed byte sequences of the Unicode
    standard (table 3-7): no overlong forms, no surrogates, nothing above U+10FFFF. *)
Definition in_range (lo hi : Z) (b : byte) : bool :=
  (lo <=? Z_of_byte b) && (Z_of_byte b <=? hi).

Fixpoint utf8_valid (bs : list byte) : bool :=
  match bs with
  | [] => true
  | b0 :: r0 =>
      if in_range 0x00 0x7f b0 then utf8_valid r0 else
      match r0 with
      | [] => false
      | b1 :: r1 =>
          if in_range 0xc2 0xdf b0 then in_range 0x80 0xbf b1 && utf8_valid r1 else
          match r1 with
          | [] => false
          | b2 :: r2 =>
              if in_range 0xe0 0xef b0 then
                in_range (if Z_of_byte b0 =? 0xe0 then 0xa0 else 0x80)
                         (if Z_of_byte b0 =? 0xed then 0x9f else 0xbf) b1
                && in_range 0x80 0xbf b2 && utf8_valid r2
              else
              match r2 with
              | [] => false
              | b3 :: r3 =>
                  in_range 0xf0 0xf4 b0
                  && in_range (if Z_of_byte b0 =? 0xf0 then 0x90 else 0x80)
                              (if Z_of_byte b0 =? 0xf4 then 0x8f else 0xbf) b1
                  && in_range 0x80 0xbf b2 && in_range 0x80 0xbf b3 && utf8_valid r3
              end
          end
      end
  end.

(** ASCII bytes form valid UTF-8. *)
Lemma utf8_valid_ascii bs : Forall (fun b => Z_of_byte b < 128) bs -> utf8_valid bs = true.
Proof.
  induction 1 as [|b bs Hb _ IH]; [done |]. simpl. unfold in_range.
  pose proof (Z_of_byte_range b).
  rewrite (proj2 (Z.leb_le 0 _)), (proj2 (Z.leb_le _ 127)) by lia. done.
Qed.

(** ** Splitting and joining strings *)
(** [str::split] at a byte: never empty. *)
Fixpoint split (sep : byte) (s : str) : list str :=
  match s with
  | [] => [[]]
  | b :: s' =>
      if decide (b = sep) then [] :: split sep s'
      else match split sep s' with p :: ps => (b :: p) :: ps | [] => [[b]] end
  end.

(** [join] of a slice of strings. *)
Fixpoint join (sep : str) (parts : list str) : str :=
  match parts with
  | [] => []
  | [p] => p
  | p :: parts' => p ++ sep ++ join sep parts'
  end.

Lemma split_free sep s : sep ∉ s -> split sep s = [s].
Proof.
  induction s as [|b s IH]; [done |]. intros [Hb Hs]%not_elem_of_cons. simpl.
  rewrite decide_False by congruence. by rewrite IH.
Qed.

Lemma split_app sep s t : sep ∉ s -> split sep (s ++ sep :: t) = s :: split sep t.
Proof.
  induction s as [|b s IH]; simpl; [by rewrite decide_True |]. intros [Hb Hs]%not_elem_of_cons.
  rewrite decide_False by congruence. by rewrite IH.
Qed.

(** ** Lists *)
Lemma take_drop_app_exact {A} (l k : list A) n :
  n = length l -> take n (l ++ k) = l /\ drop n (l ++ k) = k.
Proof. intros ->. by rewrite take_app_length, drop_app_length. Qed.

Lemma forallb_iff {A} (p : A -> bool) l : forallb p l = true <-> forall x, x ∈ l -> p x = true.
Proof. rewrite forallb_forall. by setoid_rewrite <- list_elem_of_In. Qed.

Lemma forallb_elem_of {A} (p : A -> bool) l x : forallb p l = true -> x ∈ l -> p x = true.
Proof. rewrite forallb_iff. auto. Qed.
