(* ===== verification/Prost.v ===== *)
(** * The wire-level operations of third-party crates

    The codec calls [prost::encoding] for varints and [bytes::{Buf, BufMut}] for
    fixed-width integers.  Their code is not part of the repository, so the operations are
    parameters ([WireOps]) and what the crates document about them is a class of laws
    ([WireLaws]).  A buffer is the list of the bytes it holds; a read returns the value and
    the bytes left, a write is the list of bytes it appends.

    [leb128_ops] instantiates the interface with the LEB128 format the crates document, and
    [leb128_laws] discharges the laws; the concrete runs of the development use it. *)

From S2P Require Import Prelude.

Class WireOps := {
  (** [prost::encoding::decode_varint]: [None] is its [DecodeError]. *)
  decode_varint : list byte -> option (Z * list byte);
  (** [prost::encoding::encode_varint]. *)
  encode_varint : Z -> list byte;
  (** [prost::encoding::encoded_len_varint]. *)
  encoded_len_varint : Z -> Z;
  (** [Buf::get_u8], [get_u32_le], [get_u64_le] and their signed and floating-point
      variants, by width in bytes; [None] is the documented panic. *)
  get_le : nat -> list byte -> option (Z * list byte);
  (** [BufMut::put_u8], [put_u32_le], [put_u64_le] and variants, by width in bytes. *)
  put_le : nat -> Z -> list byte;
  (** [Buf::advance]; [None] is the documented panic. *)
  advance : nat -> list byte -> option (list byte);
  (** [src.take(n).reader()] read to its end: the bytes read and the bytes left. *)
  take_reader : nat -> list byte -> list byte * list byte;
}.

Class WireLaws (W : WireOps) : Prop := {
  (** A varint written by [encode_varint] is read back, whatever follows it. *)
  decode_encode_varint v rest :
    u_range 64 v -> decode_varint (encode_varint v ++ rest) = Some (v, rest);
  (** [encoded_len_varint] is the number of bytes [encode_varint] writes. *)
  length_encode_varint v :
    u_range 64 v -> Z.of_nat (length (encode_varint v)) = encoded_len_varint v;
  (** "The returned value will be between 1 and 10, inclusive." *)
  encoded_len_varint_range v : u_range 64 v -> 1 <= encoded_len_varint v <= 10;
  (** A decoded varint is a [u64], and the bytes left are a suffix of the input. *)
  decode_varint_range src v rest : decode_varint src = Some (v, rest) -> u_range 64 v;
  decode_varint_suffix src v rest :
    decode_varint src = Some (v, rest) -> exists used, src = used ++ rest;
  (** Fixed-width reads consume exactly their width and panic on a short buffer. *)
  get_le_enough n src :
    (n <= length src)%nat -> get_le n src = Some (of_le (take n src), drop n src);
  get_le_short n src : (length src < n)%nat -> get_le n src = None;
  put_le_spec n z : u_range (8 * Z.of_nat n) z -> put_le n z = to_le n z;
  advance_enough n src : (n <= length src)%nat -> advance n src = Some (drop n src);
  advance_short n src : (length src < n)%nat -> advance n src = None;
  take_reader_spec n src : take_reader n src = (take n src, drop n src);
}.

(** ** LEB128 *)
Module Leb128.

(** At most [n + 1] bytes are written: [n = 9] suits every [u64]. *)
Fixpoint encode (n : nat) (v : Z) : list byte :=
  match n with
  | O => [byte_of_Z v]
  | S n' => if v <? 128 then [byte_of_Z v]
            else byte_of_Z (v mod 128 + 128) :: encode n' (v / 128)
  end.

(** At most [n + 1] bytes are read; the last possible one is at most [last]. *)
Fixpoint decode (n : nat) (last : Z) (src : list byte) : option (Z * list byte) :=
  match src with
  | [] => None
  | b :: src' =>
      match n with
      | O => if Z_of_byte b <=? last then Some (Z_of_byte b, src') else None
      | S n' =>
          if Z_of_byte b <? 128 then Some (Z_of_byte b, src')
          else match decode n' last src' with
               | Some (v, rest) => Some (Z_of_byte b - 128 + 128 * v, rest)
               | None => None
               end
      end
  end.

Lemma decode_encode n last v rest :
  0 <= last < 128 -> 0 <= v < (last + 1) * 128 ^ Z.of_nat n ->
  decode n last (encode n v ++ rest) = Some (v, rest).
Proof.
  intros Hl. revert v. induction n as [|n IH]; intros v Hv; simpl.
  - change (128 ^ Z.of_nat 0) with 1 in Hv.
    rewrite Z_of_byte_of_Z, Z.mod_small by lia.
    rewrite (proj2 (Z.leb_le _ _)) by lia. done.
  - rewrite Nat2Z.inj_succ, Z.pow_succ_r in Hv by lia.
    destruct (Z.ltb_spec v 128) as [Hs|Hs]; simpl; rewrite Z_of_byte_of_Z.
    + rewrite Z.mod_small by lia. rewrite (proj2 (Z.ltb_lt _ _)) by lia. done.
    + pose proof (Z.mod_pos_bound v 128). pose proof (Z.div_mod v 128).
      rewrite (Z.mod_small (_ + 128)) by lia. rewrite (proj2 (Z.ltb_ge _ _)) by lia.
      rewrite IH; [repeat f_equal; lia |].
      split; [apply Z.div_pos; lia | apply Z.div_lt_upper_bound; lia].
Qed.

Lemma length_encode n v : (1 <= length (encode n v) <= S n)%nat.
Proof.
  revert v. induction n as [|n IH]; intros v; simpl; [lia |].
  case_match; simpl; [lia |]. specialize (IH (v / 128)). lia.
Qed.

Lemma decode_range n last src v rest :
  0 <= last < 128 -> decode n last src = Some (v, rest) ->
  0 <= v < (last + 1) * 128 ^ Z.of_nat n.
Proof.
  intros Hl. revert src v. induction n as [|n IH]; intros [|b src] v Hd;
    try discriminate Hd; simpl in Hd; pose proof (Z_of_byte_range b).
  - change (128 ^ Z.of_nat 0) with 1. case_match eqn:E; simplify_eq. lia.
  - rewrite Nat2Z.inj_succ, Z.pow_succ_r by lia.
    pose proof (Z.pow_pos_nonneg 128 (Z.of_nat n)).
    destruct (Z.ltb_spec (Z_of_byte b) 128); [simplify_eq; nia |].
    case_match eqn:E; simplify_eq. case_match. simplify_eq.
    apply IH in E. lia.
Qed.

Lemma decode_suffix n last src v rest :
  decode n last src = Some (v, rest) -> exists used, src = used ++ rest.
Proof.
  revert src v. induction n as [|n IH]; intros [|b src] v Hd;
    try discriminate Hd; simpl in Hd.
  - case_match; simplify_eq. by exists [b].
  - case_match; simplify_eq; [by exists [b] |].
    case_match eqn:E; simplify_eq. case_match. simplify_eq.
    apply IH in E as [used ->]. by exists (b :: used).
Qed.

End Leb128.

#[export] Instance leb128_ops : WireOps := {|
  decode_varint := Leb128.decode 9 1;
  encode_varint := Leb128.encode 9;
  encoded_len_varint v := Z.of_nat (length (Leb128.encode 9 v));
  get_le n src :=
    if decide (n <= length src)%nat then Some (of_le (take n src), drop n src) else None;
  put_le := to_le;
  advance n src := if decide (n <= length src)%nat then Some (drop n src) else None;
  take_reader n src := (take n src, drop n src);
|}.

#[export] Instance leb128_laws : WireLaws leb128_ops.
Proof.
  split; cbn [decode_varint encode_varint encoded_len_varint get_le put_le advance take_reader leb128_ops].
  - intros v rest Hv. apply Leb128.decode_encode; [lia |].
    change ((1 + 1) * 128 ^ Z.of_nat 9) with (2 ^ 64). done.
  - done.
  - intros v _. pose proof (Leb128.length_encode 9 v). lia.
  - intros src v rest Hd. apply Leb128.decode_range in Hd; [|lia].
    change ((1 + 1) * 128 ^ Z.of_nat 9) with (2 ^ 64) in Hd. done.
  - intros src v rest Hd. by eapply Leb128.decode_suffix.
  - intros n src Hn. by rewrite decide_True.
  - intros n src Hn. rewrite decide_False; [done | lia].
  - done.
  - intros n src Hn. by rewrite decide_True.
  - intros n src Hn. rewrite decide_False; [done | lia].
  - done.
Qed.

(** The laws in the shape the codec's proofs use. *)
Section Derived.
Context `{WL : WireLaws}.

Lemma get_le_app n bs rest :
  length bs = n -> get_le n (bs ++ rest) = Some (of_le bs, rest).
Proof.
  intros <-. rewrite get_le_enough by (rewrite length_app; lia).
  by rewrite take_app_length, drop_app_length.
Qed.

Lemma get_le_put_le n z rest :
  u_range (8 * Z.of_nat n) z -> get_le n (put_le n z ++ rest) = Some (z, rest).
Proof.
  intros Hz. rewrite put_le_spec by done.
  rewrite get_le_app by apply length_to_le. by rewrite of_le_to_le.
Qed.

Lemma length_put_le n z : u_range (8 * Z.of_nat n) z -> length (put_le n z) = n.
Proof. intros. rewrite put_le_spec by done. apply length_to_le. Qed.

Lemma advance_app bs rest : advance (length bs) (bs ++ rest) = Some rest.
Proof.
  rewrite advance_enough by (rewrite length_app; lia). by rewrite drop_app_length.
Qed.

Lemma take_reader_app n bs rest :
  length bs = n -> take_reader n (bs ++ rest) = (bs, rest).
Proof. intros <-. by rewrite take_reader_spec, take_app_length, drop_app_length. Qed.

End Derived.
