(* ===== verification/Regexp.v ===== *)
(** * Regular expressions

    [names.rs] validates names with the [regex] crate.  The crate is a parameter
    ([RegexCrate]): [is_match] of an anchored expression tells membership in the language
    the expression denotes, which is what the crate documents.  Expressions are syntax trees
    with a denotation; [derivative_crate] instantiates the interface with Brzozowski's
    derivatives.  A [str] is the list of its UTF-8 bytes; all the classes are ASCII. *)

From S2P Require Import Prelude.

#[local] Open Scope Z_scope.

Inductive re :=
| Eps
| Void
| Cls (c : byte -> bool)
| Cat (r1 r2 : re)
| Alt (r1 r2 : re)
| Star (r : re).

(** The language of an expression. *)
Inductive matches : re -> str -> Prop :=
| matches_eps : matches Eps []
| matches_cls c b : c b = true -> matches (Cls c) [b]
| matches_cat r1 r2 s1 s2 : matches r1 s1 -> matches r2 s2 -> matches (Cat r1 r2) (s1 ++ s2)
| matches_alt_l r1 r2 s : matches r1 s -> matches (Alt r1 r2) s
| matches_alt_r r1 r2 s : matches r2 s -> matches (Alt r1 r2) s
| matches_star_nil r : matches (Star r) []
| matches_star_cons r s1 s2 : matches r s1 -> matches (Star r) s2 -> matches (Star r) (s1 ++ s2).

(** [r{0,n}] and [r?]. *)
Fixpoint up_to (n : nat) (r : re) : re :=
  match n with
  | O => Eps
  | S n' => Alt Eps (Cat r (up_to n' r))
  end.
Definition opt (r : re) : re := Alt Eps r.

(** [[c1c2...]], from ranges of characters. *)
Definition ranges (l : list (string * string)) (b : byte) : bool :=
  existsb (fun '(lo, hi) =>
    match string_bytes lo, string_bytes hi with
    | [l], [h] => in_range (Z_of_byte l) (Z_of_byte h) b
    | _, _ => false
    end) l.

(** A literal character. *)
Definition chr (c : string) : re := Cls (ranges [(c, c)]).

Class RegexCrate := {
  (** [Regex::new(r"^r$").unwrap().is_match(s)]. *)
  is_match : re -> str -> bool;
}.

Class RegexLaws (R : RegexCrate) : Prop := {
  is_match_spec r s : is_match r s = true <-> matches r s;
}.

(** ** Inversion *)
Lemma matches_eps_inv s : matches Eps s <-> s = [].
Proof. split; [by inversion 1 | intros ->; constructor]. Qed.

Lemma matches_cls_inv c s : matches (Cls c) s <-> exists b, s = [b] /\ c b = true.
Proof. split; [inversion 1; eauto | intros (b & -> & H); by constructor]. Qed.

Lemma matches_cat_inv r1 r2 s :
  matches (Cat r1 r2) s <-> exists s1 s2, s = s1 ++ s2 /\ matches r1 s1 /\ matches r2 s2.
Proof. split; [inversion 1; subst; eauto 6 | intros (s1 & s2 & -> & ? & ?); by constructor]. Qed.

Lemma matches_alt_inv r1 r2 s : matches (Alt r1 r2) s <-> matches r1 s \/ matches r2 s.
Proof.
  split; [by inversion 1; subst; auto |].
  intros [H|H]; [by apply matches_alt_l | by apply matches_alt_r].
Qed.

Lemma matches_opt_inv r s : matches (opt r) s <-> s = [] \/ matches r s.
Proof. unfold opt. by rewrite matches_alt_inv, matches_eps_inv. Qed.

(** A repeated class: every character is in it. *)
Lemma matches_star_cls c s : matches (Star (Cls c)) s <-> Forall (fun b => c b = true) s.
Proof.
  split.
  - remember (Star (Cls c)) as r eqn:E. induction 1 as [| | | | | | r' s1 s2 H1 _ H2 IH];
      try discriminate; [constructor |].
    injection E as ->. apply matches_cls_inv in H1 as (b & -> & Hb). constructor; [done | by apply IH].
  - induction 1 as [|b s Hb _ IH]; [constructor |].
    change (b :: s) with ([b] ++ s). constructor; [by constructor | done].
Qed.

Lemma matches_up_to_cls n c s :
  matches (up_to n (Cls c)) s <-> (length s <= n)%nat /\ Forall (fun b => c b = true) s.
Proof.
  revert s. induction n as [|n IH]; intros s; cbn [up_to].
  - rewrite matches_eps_inv. destruct s; simpl; [split; [done | by intros _] |].
    split; [done | intros [? _]; lia].
  - rewrite matches_alt_inv, matches_eps_inv, matches_cat_inv. split.
    + intros [->|(s1 & s2 & -> & H1 & H2)]; [split; [simpl; lia | constructor] |].
      apply matches_cls_inv in H1 as (b & -> & Hb). apply IH in H2 as [Hl HF].
      split; [simpl; lia | by constructor].
    + intros [Hl HF]. destruct HF as [|b s Hb HF]; [by left |]. right. simpl in Hl.
      exists [b], s. split_and!; [done | by constructor | apply IH; split; [lia | done]].
Qed.

(** ** Derivatives *)
Fixpoint nullable (r : re) : bool :=
  match r with
  | Eps | Star _ => true
  | Void | Cls _ => false
  | Cat r1 r2 => nullable r1 && nullable r2
  | Alt r1 r2 => nullable r1 || nullable r2
  end.

Fixpoint derive (b : byte) (r : re) : re :=
  match r with
  | Eps | Void => Void
  | Cls c => if c b then Eps else Void
  | Cat r1 r2 =>
      if nullable r1 then Alt (Cat (derive b r1) r2) (derive b r2) else Cat (derive b r1) r2
  | Alt r1 r2 => Alt (derive b r1) (derive b r2)
  | Star r' => Cat (derive b r') (Star r')
  end.

Fixpoint run (r : re) (s : str) : bool :=
  match s with
  | [] => nullable r
  | b :: s' => run (derive b r) s'
  end.

Lemma nullable_spec r : nullable r = true <-> matches r [].
Proof.
  induction r as [| |c|r1 IH1 r2 IH2|r1 IH1 r2 IH2|r IH]; simpl.
  - split; [constructor | done].
  - split; [done | inversion 1].
  - split; [done | intros H; apply matches_cls_inv in H as (b & H & _); discriminate].
  - rewrite andb_true_iff, IH1, IH2, matches_cat_inv. split.
    + intros [? ?]. by exists [], [].
    + intros (s1 & s2 & E & ? & ?). symmetry in E. by apply app_eq_nil in E as [-> ->].
  - by rewrite orb_true_iff, IH1, IH2, matches_alt_inv.
  - split; [constructor | done].
Qed.

(** A non-empty string of a starred expression starts with a non-empty part. *)
Lemma matches_star_head r b s :
  matches (Star r) (b :: s) ->
  exists s1 s2, s = s1 ++ s2 /\ matches r (b :: s1) /\ matches (Star r) s2.
Proof.
  remember (Star r) as q eqn:Eq. remember (b :: s) as w eqn:Ew. intros H. revert s Ew.
  induction H as [| | | | | | r' s1 s2 H1 _ H2 IH]; intros w' Ew; try discriminate.
  injection Eq as ->. destruct s1 as [|b' s1]; simpl in Ew; [by apply IH |].
  injection Ew as -> <-. by exists s1, s2.
Qed.

Lemma derive_spec b r s : matches (derive b r) s <-> matches r (b :: s).
Proof.
  revert s. induction r as [| |c|r1 IH1 r2 IH2|r1 IH1 r2 IH2|r IH]; intros s; simpl.
  - split; inversion 1.
  - split; inversion 1.
  - rewrite matches_cls_inv. destruct (c b) eqn:E.
    + rewrite matches_eps_inv. split; [intros ->; eauto | by intros (b' & [= -> ->] & _)].
    + split; [inversion 1 | intros (b' & [= <- ->] & H); congruence].
  - assert (Hcat : matches (Cat (derive b r1) r2) s <->
      exists s1 s2, s = s1 ++ s2 /\ matches r1 (b :: s1) /\ matches r2 s2).
    { rewrite matches_cat_inv. by setoid_rewrite IH1. }
    assert (Hb : matches (Cat r1 r2) (b :: s) <->
      (matches r1 [] /\ matches r2 (b :: s)) \/ matches (Cat (derive b r1) r2) s).
    { rewrite Hcat, matches_cat_inv. split.
      - intros ([|b' s1] & s2 & E & H1 & H2); simpl in E; [subst; by left |].
        injection E as <- ->. right. by exists s1, s2.
      - intros [[H1 H2]|(s1 & s2 & -> & H1 & H2)]; [by exists [], (b :: s) |].
        by exists (b :: s1), s2. }
    rewrite Hb. destruct (nullable r1) eqn:En.
    + apply nullable_spec in En. rewrite matches_alt_inv, IH2. tauto.
    + split; [by right |]. intros [[H _]|H]; [|done]. apply nullable_spec in H. congruence.
  - by rewrite !matches_alt_inv, IH1, IH2.
  - rewrite matches_cat_inv. setoid_rewrite IH. split.
    + intros (s1 & s2 & -> & H1 & H2). by apply (matches_star_cons r (b :: s1) s2).
    + apply matches_star_head.
Qed.

Lemma run_spec r s : run r s = true <-> matches r s.
Proof.
  revert r. induction s as [|b s IH]; intros r; simpl; [apply nullable_spec |].
  by rewrite IH, derive_spec.
Qed.

#[export] Instance derivative_crate : RegexCrate := {| is_match := run |}.
#[export] Instance derivative_laws : RegexLaws derivative_crate.
Proof. constructor. apply run_spec. Qed.

(** ** Groups *)
(** An anchored expression as a sequence of parts, some of them captured. *)
Inductive part := Plain (r : re) | Group (r : re).
Definition part_re (p : part) : re := match p with Plain r | Group r => r end.

Definition groups (ps : list part) (segments : list str) : list str :=
  concat (zip_with (fun p s => match p with Group _ => [s] | Plain _ => [] end) ps segments).

(** The segments of a string that a sequence of parts matches. *)
Definition splits (ps : list part) (segments : list str) (s : str) : Prop :=
  Forall2 (fun p => matches (part_re p)) ps segments /\ s = concat segments.

Class RegexCaptures := {
  (** [Regex::captures], of the groups by their number. *)
  captures : list part -> str -> option (list str);
}.

Class RegexCapturesLaws (R : RegexCaptures) : Prop := {
  captures_sound ps s gs : captures ps s = Some gs -> exists segments, splits ps segments s /\ gs = groups ps segments;
  captures_complete ps segments s : splits ps segments s -> is_Some (captures ps s);
}.

(** An instance: the longest segments first. *)
Fixpoint split_at (f : str -> str -> option (list str)) (n : nat) (s : str) : option (list str) :=
  match f (take n s) (drop n s) with
  | Some gs => Some gs
  | None => match n with O => None | S n' => split_at f n' s end
  end.

Fixpoint backtrack (ps : list part) (s : str) : option (list str) :=
  match ps with
  | [] => match s with [] => Some [] | _ => None end
  | p :: ps' =>
      split_at (fun s1 s2 =>
        if run (part_re p) s1 then
          gs ← backtrack ps' s2; Some (match p with Group _ => s1 :: gs | Plain _ => gs end)
        else None) (length s) s
  end.

Lemma split_at_sound f n s gs : split_at f n s = Some gs -> exists s1 s2, s = s1 ++ s2 /\ f s1 s2 = Some gs.
Proof.
  induction n as [|n IH]; simpl; destruct (f _ _) as [gs'|] eqn:E; intros H; simplify_eq; eauto;
    eexists _, _; (split; [symmetry; apply take_drop | exact E]).
Qed.

Lemma split_at_complete f n s s1 s2 : s = s1 ++ s2 -> (length s1 <= n)%nat -> is_Some (f s1 s2) -> is_Some (split_at f n s).
Proof.
  intros -> Hl Hf. induction n as [|n IH]; cbn [split_at].
  - destruct s1; [|simpl in Hl; lia]. destruct Hf as [gs Hf]. change ([] ++ s2) with s2. rewrite take_0, drop_0, Hf. eauto.
  - destruct (f (take (S n) _) _) eqn:E; [eauto |]. destruct (decide (length s1 = S n)) as [Hn|Hn]; [|apply IH; lia].
    rewrite (take_app_length' s1 s2 (S n)), (drop_app_length' s1 s2 (S n)) in E by done. rewrite E in Hf. by destruct Hf.
Qed.

#[export] Instance backtracking_captures : RegexCaptures := {| captures := backtrack |}.
#[export] Instance backtracking_laws : RegexCapturesLaws backtracking_captures.
Proof.
  constructor; simpl.
  - intros ps. induction ps as [|p ps IH]; intros s gs H; simpl in H.
    + destruct s; [|done]. injection H as <-. exists []. by repeat split.
    + apply split_at_sound in H as (s1 & s2 & -> & H). destruct (run (part_re p) s1) eqn:Er; [|done].
      apply run_spec in Er. destruct (backtrack ps s2) as [gs'|] eqn:E; simplify_eq/=.
      destruct (IH _ _ E) as (segments & [HF ->] & ->). exists (s1 :: segments).
      split; [split; [by constructor | done] |]. unfold groups. by destruct p.
  - intros ps. induction ps as [|p ps IH]; intros segments s [HF ->]; inversion HF as [|? s1 ? segs H1 H2]; subst; simpl; [eauto |].
    apply split_at_complete with s1 (concat segs); [done | rewrite length_app; lia |].
    rewrite (proj2 (run_spec _ _) H1). destruct (IH segs (concat segs)) as [gs ->]; [done |]. simpl. eauto.
Qed.
