(* ===== verification/Names.v ===== *)
(** * Component and pod names

    Models [src/runtime/names.rs]: the permissive parser, the name types with their
    validation and display, and hexadecimal encoding.  A [str] is the list of its bytes; all
    separators are ASCII, so an index of a character is an index of a byte.  A SIMD vector
    is the list of its lanes, each a [u8] with wrapping arithmetic. *)

From S2P Require Import Prelude Regexp.

#[local] Open Scope Z_scope.

Definition DOMAIN_SEPARATOR : byte := ":"%byte.
Definition VERSION_SEPARATOR : byte := "@"%byte.
Definition POD_ID_SEPARATOR : byte := "#"%byte.

(** The errors, by the message they are made of. *)
Inductive NameError :=
| InvalidComponentName (name : str)
| InvalidPodName (name : str)
| IncorrectDomainLength (length : nat)
| InvalidHexCharacters (hex_bytes : list Z)
| InvalidServerId (server : str)
| InvalidVersion (version : str)
| InvalidPodId
| OddLengthHexString
| InvalidHexCharacter (hex_nibble : Z)
| HexInvalidUtf8.

#[export] Instance NameError_eq_dec : EqDecision NameError.
Proof. solve_decision. Defined.

(** ** [Name] *)
Record Name := mkName {
  domain : option str;
  server : str;
  version : option str;
  pod : option str;
}.

(** [str::find]. *)
Fixpoint find (p : byte -> bool) (s : str) : option nat :=
  match s with
  | [] => None
  | b :: s' => if p b then Some 0%nat else S <$> find p s'
  end.

Definition is_char (c b : byte) : bool := bool_decide (b = c).

Definition parse_version (version : str) : option str * option str :=
  match find (is_char POD_ID_SEPARATOR) version with
  | Some index => (Some (take index version), Some (drop (index + 1) version))
  | None => (Some version, None)
  end.

Definition Name_parse (full : str) : Name :=
  let '(domain, version, pod, start, finish) :=
    match find (fun b => is_char DOMAIN_SEPARATOR b || is_char VERSION_SEPARATOR b) full with
    | Some index =>
        if (match drop index full with b :: _ => is_char DOMAIN_SEPARATOR b | [] => false end) then
          let domain := Some (take index full) in
          let start := (index + 1)%nat in
          match find (is_char VERSION_SEPARATOR) (drop start full) with
          | Some v_index =>
              let finish := (start + v_index)%nat in
              let (version, pod) := parse_version (drop (finish + 1) full) in
              (domain, version, pod, start, finish)
          | None => (domain, None, None, start, length full)
          end
        else
          let finish := index in
          let (version, pod) := parse_version (drop (finish + 1) full) in
          (None, version, pod, 0%nat, finish)
    | None => (None, None, None, 0%nat, length full)
    end in
  mkName domain (drop start (take finish full)) version pod.

(** [Debug for Name], without the quotes. *)
Definition Name_debug (n : Name) : str :=
  (match domain n with Some d => d ++ [DOMAIN_SEPARATOR] | None => [] end) ++
  server n ++
  (match version n with
   | Some v => VERSION_SEPARATOR :: v ++
       (match pod n with Some p => POD_ID_SEPARATOR :: p | None => [] end)
   | None => []
   end).

(** ** Hexadecimal *)
Definition splat_map (f : Z -> Z) (v : list Z) : list Z := map (fun x => as_u 8 (f x)) v.
Definition simd_swizzle (v : list Z) (indices : list nat) : list Z :=
  map (fun i => nth i v 0) indices.
Definition any (p : Z -> bool) (v : list Z) : bool := existsb p v.

Definition interleave : list nat :=
  [0; 16; 1; 17; 2; 18; 3; 19; 4; 20; 5; 21; 6; 22; 7; 23; 8; 24; 9; 25; 10; 26; 11; 27;
   12; 28; 13; 29; 14; 30; 15; 31]%nat.
Definition evens : list nat := [0; 2; 4; 6; 8; 10; 12; 14; 16; 18; 20; 22; 24; 26; 28; 30]%nat.
Definition odds : list nat := [1; 3; 5; 7; 9; 11; 13; 15; 17; 19; 21; 23; 25; 27; 29; 31]%nat.

Definition hexify (bytes : list Z) : list Z :=
  let lower_nibbles := splat_map (fun b => b mod 16) bytes in
  let upper_nibbles := splat_map (fun b => b / 16) bytes in
  let nibbles := simd_swizzle (lower_nibbles ++ upper_nibbles) interleave in
  splat_map (fun n => n + (if 9 <? n then 97 - 10 else 48)) nibbles.

Definition unhexify (hex_bytes : list Z) : outcome NameError (list Z) :=
  if any (fun b => b <? 48) hex_bytes
     || any (fun b => 102 <? b) hex_bytes
     || any (fun b => (57 <? b) && (b <? 97)) hex_bytes
  then Failed (InvalidHexCharacters hex_bytes)
  else
    let nibbles := splat_map (fun b => b - (if 57 <? b then 97 - 10 else 48)) hex_bytes in
    let lower_nibbles := simd_swizzle nibbles evens in
    let upper_nibbles := simd_swizzle nibbles odds in
    Done (zip_with (fun l u => as_u 8 (l + as_u 8 (u * 16))) lower_nibbles upper_nibbles).

(** [chunks_exact]: the chunks and the remainder. *)
Fixpoint chunks_exact (fuel n : nat) {A} (l : list A) : list (list A) * list A :=
  match fuel with
  | O => ([], l)
  | S fuel' =>
      if (n <=? length l)%nat then
        let (chunks, remainder) := chunks_exact fuel' n (drop n l) in
        (take n l :: chunks, remainder)
      else ([], l)
  end.

Definition HEX_CHARS : list byte := lit "0123456789abcdef".
Definition hex_char (n : Z) : byte := nth (Z.to_nat n) HEX_CHARS x00.

Definition hexify_string (string : str) : str :=
  let (chunks, remainder) := chunks_exact (length string) 16 string in
  concat (map (fun chunk => map byte_of_Z (hexify (map Z_of_byte chunk))) chunks) ++
  concat (map (fun b => [hex_char (Z.land (Z_of_byte b) 0xf); hex_char (Z.shiftr (Z_of_byte b) 4)])
            remainder).

Definition unhexify_nibble (hex_nibble : Z) : outcome NameError Z :=
  if (48 <=? hex_nibble) && (hex_nibble <=? 57) then Done (hex_nibble - 48)
  else if (97 <=? hex_nibble) && (hex_nibble <=? 102) then Done (hex_nibble - (97 - 10))
  else Failed (InvalidHexCharacter hex_nibble).

Fixpoint unhexify_chunks (chunks : list str) : outcome NameError str :=
  match chunks with
  | [] => Done []
  | chunk :: chunks' =>
      let? bytes := unhexify (map Z_of_byte chunk) in
      let? rest := unhexify_chunks chunks' in
      Done (map byte_of_Z bytes ++ rest)
  end.

(** The remainder, two characters at a time ([chunks_exact(2)] on an even length). *)
Fixpoint unhexify_pairs (pairs : str) : outcome NameError str :=
  match pairs with
  | lower :: upper :: pairs' =>
      let? l := unhexify_nibble (Z_of_byte lower) in
      let? u := unhexify_nibble (Z_of_byte upper) in
      let? rest := unhexify_pairs pairs' in
      Done (byte_of_Z (l + as_u 8 (Z.shiftl u 4)) :: rest)
  | _ => Done []
  end.

Definition unhexify_string (hex_string : str) : outcome NameError str :=
  let hex_length := length hex_string in
  if negb (Nat.even hex_length) then Failed OddLengthHexString else
  let (chunks, remainder) := chunks_exact hex_length 32 hex_string in
  let? output1 := unhexify_chunks chunks in
  let? output2 := unhexify_pairs remainder in
  let output := output1 ++ output2 in
  if utf8_valid output then Done output else Failed HexInvalidUtf8.

(** ** Domains *)
Record DomainUuid := mkDomainUuid { uuid : list Z }.

Definition DomainUuid_parse (uuid : str) : outcome NameError DomainUuid :=
  if (length uuid =? 32)%nat then
    let? u := unhexify (map Z_of_byte uuid) in Done (mkDomainUuid u)
  else Failed (IncorrectDomainLength (length uuid)).

Definition DomainUuid_new (bytes : list byte) : DomainUuid := mkDomainUuid (map Z_of_byte bytes).

Definition DomainUuid_display (d : DomainUuid) : str := map byte_of_Z (hexify (uuid d)).

(** ** Validation *)
Definition lower_or_digit := ranges [("0", "9"); ("a", "z")].
Definition name_middle := ranges [("0", "9"); ("a", "z"); ("-", "-")].

(** [[a-z](?:[0-9a-z-]{0,61}[0-9a-z])?] *)
Definition PATH_RE : re :=
  Cat (Cls (ranges [("a", "z")])) (opt (Cat (up_to 61 (Cls name_middle)) (Cls lower_or_digit))).

Definition digit := ranges [("0", "9")].
Definition letter := ranges [("A", "Z"); ("a", "z")].
Definition letter_or_dash := ranges [("A", "Z"); ("a", "z"); ("-", "-")].
Definition alphanumeric := ranges [("0", "9"); ("A", "Z"); ("a", "z")].
Definition alphanumeric_or_dash := ranges [("0", "9"); ("A", "Z"); ("a", "z"); ("-", "-")].

(** [0|[1-9][0-9]*] *)
Definition NUMERIC_RE : re := Alt (chr "0") (Cat (Cls (ranges [("1", "9")])) (Star (Cls digit))).

(** [[0-9A-Za-z-]*(?:[A-Za-z]|[A-Za-z-][0-9A-Za-z-]*[0-9A-Za-z])] *)
Definition ALPHANUMERIC_RE : re :=
  Cat (Star (Cls alphanumeric_or_dash))
    (Alt (Cls letter)
       (Cat (Cls letter_or_dash) (Cat (Star (Cls alphanumeric_or_dash)) (Cls alphanumeric)))).

Definition VERSION_RE : re :=
  Cat NUMERIC_RE (Cat (chr ".") (Cat NUMERIC_RE (Cat (chr ".") (Cat NUMERIC_RE
    (opt (Cat (chr "-") (Alt NUMERIC_RE ALPHANUMERIC_RE))))))).

Definition K8S_LABEL_VALUE_MAX_LENGTH : nat := 63.

Section Names.
Context {R : RegexCrate}.

Definition is_valid_server_name (name : str) : bool := is_match PATH_RE name.

Definition is_valid_version (version : str) : bool :=
  (length version <=? K8S_LABEL_VALUE_MAX_LENGTH)%nat && is_match VERSION_RE version.

(** ** The name types *)
Record ServerName := mkServerName { s_domain : DomainUuid; s_server : str }.
Record ComponentName := mkComponentName { c_server : ServerName; c_version : str }.
Record PodName := mkPodName { p_component : ComponentName; p_pod : Z }.

#[export] Instance DomainUuid_eq_dec : EqDecision DomainUuid.
Proof. solve_decision. Defined.
#[export] Instance ServerName_eq_dec : EqDecision ServerName.
Proof. solve_decision. Defined.
#[export] Instance ComponentName_eq_dec : EqDecision ComponentName.
Proof. solve_decision. Defined.
#[export] Instance PodName_eq_dec : EqDecision PodName.
Proof. solve_decision. Defined.

Definition ServerName_new (domain : DomainUuid) (server : str) : outcome NameError ServerName :=
  if is_valid_server_name server then Done (mkServerName domain server)
  else Failed (InvalidServerId server).

Definition ServerName_display (n : ServerName) : str :=
  DomainUuid_display (s_domain n) ++ DOMAIN_SEPARATOR :: s_server n.

Definition ComponentName_new (domain : DomainUuid) (server version : str)
    : outcome NameError ComponentName :=
  if is_valid_version version then
    let? s := ServerName_new domain server in Done (mkComponentName s version)
  else Failed (InvalidVersion version).

Definition ComponentName_display (n : ComponentName) : str :=
  ServerName_display (c_server n) ++ VERSION_SEPARATOR :: c_version n.

(** [{:x}] of a [usize]: sixteen digits at most. *)
Fixpoint format_hex (fuel : nat) (z : Z) : str :=
  match fuel with
  | O => [hex_char (z mod 16)]
  | S fuel' => if z <? 16 then [hex_char z] else format_hex fuel' (z / 16) ++ [hex_char (z mod 16)]
  end.

Definition PodName_display (n : PodName) : str :=
  ComponentName_display (p_component n) ++ POD_ID_SEPARATOR :: format_hex 15 (p_pod n).

(** [char::to_digit(16)] *)
Definition to_digit (b : byte) : option Z :=
  let z := Z_of_byte b in
  if (48 <=? z) && (z <=? 57) then Some (z - 48)
  else if (97 <=? z) && (z <=? 102) then Some (z - 87)
  else if (65 <=? z) && (z <=? 70) then Some (z - 55)
  else None.

(** [usize::from_str_radix(s, 16)]: an optional [+], then at least one digit. *)
Fixpoint from_hex_digits (acc : Z) (s : str) : option Z :=
  match s with
  | [] => Some acc
  | b :: s' =>
      match to_digit b with
      | Some d => if acc * 16 + d <? 2 ^ 64 then from_hex_digits (acc * 16 + d) s' else None
      | None => None
      end
  end.

Definition from_str_radix_16 (s : str) : option Z :=
  match s with
  | [] => None
  | b :: s' =>
      if is_char "+"%byte b then match s' with [] => None | _ => from_hex_digits 0 s' end
      else from_hex_digits 0 s
  end.

(** [Name::component] and [Name::pod]. *)
Definition component (n : Name) : outcome NameError ComponentName :=
  match domain n, version n, pod n with
  | Some domain, Some version, None =>
      let? d := DomainUuid_parse domain in ComponentName_new d (server n) version
  | _, _, _ => Failed (InvalidComponentName (Name_debug n))
  end.

Definition to_pod (n : Name) : outcome NameError PodName :=
  match domain n, version n, pod n with
  | Some domain, Some version, Some pod =>
      let? d := DomainUuid_parse domain in
      let? c := ComponentName_new d (server n) version in
      let? id := ok_or (from_str_radix_16 pod) InvalidPodId in
      Done (mkPodName c id)
  | _, _, _ => Failed (InvalidPodName (Name_debug n))
  end.

End Names.

(** ** Runs of the source's tests *)
Section Tests.
Let GOOD_COMPONENT := lit "1234567890abcdef0f9ed8c7654b32a1:some-server-id@10.0.456-pre-release5".
Let parse_component s := component (Name_parse s).

Example parse_component_test :
  (let? c := parse_component GOOD_COMPONENT in
   Done (ComponentName_display c, uuid (s_domain (c_server c))))
  = Done (GOOD_COMPONENT,
      [0x21; 0x43; 0x65; 0x87; 0x09; 0xBA; 0xDC; 0xFE; 0xF0; 0xE9; 0x8D; 0x7C; 0x56; 0xB4; 0x23; 0x1a]).
Proof. vm_compute. reflexivity. Qed.

Example hexify_string_test :
  hexify_string (lit "this long string is more than sixteen characters!")
  = lit "4786963702c6f6e6760237472796e67602963702d6f6275602478616e602379687475656e6023686162716364756273712".
Proof. vm_compute. reflexivity. Qed.

Example versions_test :
  map is_valid_version [lit "1.0.0"; lit "1.2.3-pre-release"; lit "1.2.3-0"; lit "1.2.3-00a";
    lit "1.0.00"; lit "1.2.3+build"; lit "1.2.3-ends-dash-"; lit "1.2.3-00"]
  = [true; true; true; true; false; false; false; false].
Proof. vm_compute. reflexivity. Qed.
End Tests.

(** ** Facts about [find] *)
Lemma find_app p (a : str) b c :
  Forall (fun x => p x = false) a -> p b = true -> find p (a ++ b :: c) = Some (length a).
Proof.
  intros Ha Hb. induction Ha as [|x a Hx Ha IH]; simpl; [by rewrite Hb |].
  by rewrite Hx, IH.
Qed.

Lemma find_none p (s : str) : Forall (fun x => p x = false) s -> find p s = None.
Proof. induction 1 as [|x s Hx Hs IH]; simpl; [done |]. by rewrite Hx, IH. Qed.

Lemma find_some p (s : str) i :
  find p s = Some i -> exists b, s = take i s ++ b :: drop (i + 1) s /\ p b = true
    /\ drop i s = b :: drop (i + 1) s /\ (i < length s)%nat.
Proof.
  revert i. induction s as [|x s IH]; intros i H; simpl in H; [discriminate |].
  destruct (p x) eqn:E.
  - injection H as <-. exists x. simpl. rewrite drop_0. split_and!; [done..| lia].
  - destruct (find p s) as [j|]; [|discriminate]. injection H as <-.
    destruct (IH j eq_refl) as (b & Hs & Hb & Hd & Hl). exists b.
    replace (S j + 1)%nat with (S (j + 1)) by lia. simpl.
    split_and!; [by rewrite <- Hs | done | done | lia].
Qed.

Lemma is_char_true c b : is_char c b = true <-> b = c.
Proof. apply bool_decide_eq_true. Qed.

(** ** Facts about hexadecimal *)
Definition all_u8 : list Z := map Z.of_nat (seq 0 256).

Lemma u8_forall (P : Z -> bool) : forallb P all_u8 = true -> forall z, u_range 8 z -> P z = true.
Proof.
  intros H z Hz. rewrite forallb_forall in H. apply H. unfold all_u8. apply in_map_iff.
  exists (Z.to_nat z). unfold u_range in Hz. change (2 ^ 8) with 256 in Hz.
  split; [lia |]. apply in_seq. lia.
Qed.

Lemma byte_u8 b : u_range 8 (Z_of_byte b).
Proof. apply Z_of_byte_range. Qed.

(** The two characters of a byte, lower nibble first. *)
Definition hex_pair (z : Z) : str := [hex_char (Z.land z 0xf); hex_char (Z.shiftr z 4)].
Definition hex_of (s : str) : str := concat (map (fun b => hex_pair (Z_of_byte b)) s).

(** What the vector code computes in a lane. *)
Definition hex_lane (n : Z) : Z := as_u 8 (n + (if 9 <? n then 97 - 10 else 48)).
Definition unhex_lane (b : Z) : Z := as_u 8 (b - (if 57 <? b then 97 - 10 else 48)).

Lemma lane_lower z : u_range 8 z ->
  byte_of_Z (hex_lane (as_u 8 (z mod 16))) = hex_char (Z.land z 0xf).
Proof.
  intros Hz. apply (bool_decide_eq_true _).
  revert z Hz. apply u8_forall. vm_compute. reflexivity.
Qed.

Lemma lane_upper z : u_range 8 z ->
  byte_of_Z (hex_lane (as_u 8 (z / 16))) = hex_char (Z.shiftr z 4).
Proof.
  intros Hz. apply (bool_decide_eq_true _).
  revert z Hz. apply u8_forall. vm_compute. reflexivity.
Qed.

(** Give a list of known length its elements. *)
Ltac explode l :=
  repeat match goal with
  | H : length l = O |- _ => apply length_zero_iff_nil in H; subst l
  | H : length l = S _ |- _ =>
      let x := fresh "x" in let l' := fresh "l" in
      destruct l as [|x l']; [discriminate H |]; simpl in H; apply Nat.succ_inj in H;
      first [explode l' | idtac]
  end.

Lemma hexify_scalar bs :
  length bs = 16%nat -> Forall (u_range 8) bs ->
  map byte_of_Z (hexify bs) = concat (map hex_pair bs).
Proof.
  intros Hl HF. explode bs. repeat (apply Forall_cons in HF as [? HF]).
  unfold hexify. change (splat_map (fun n => n + (if 9 <? n then 97 - 10 else 48))) with (map hex_lane).
  unfold splat_map, simd_swizzle. cbn [map app interleave nth concat hex_pair].
  repeat (rewrite lane_lower by done). repeat (rewrite lane_upper by done). done.
Qed.

Definition is_hex (b : Z) : bool := ((48 <=? b) && (b <=? 57)) || ((97 <=? b) && (b <=? 102)).

Lemma unhexify_check bs :
  any (fun b => b <? 48) bs || any (fun b => 102 <? b) bs
    || any (fun b => (57 <? b) && (b <? 97)) bs = negb (forallb is_hex bs).
Proof.
  unfold any, is_hex. induction bs as [|b bs IH]; simpl; [done |].
  rewrite negb_andb, <- IH.
  destruct (existsb (fun b => b <? 48) bs), (existsb (fun b => 102 <? b) bs),
    (existsb (fun b => (57 <? b) && (b <? 97)) bs); rewrite ?orb_true_r, ?orb_false_r; try done.
  apply eq_true_iff_eq. rewrite !orb_true_iff, negb_true_iff, orb_false_iff, !andb_false_iff,
    andb_true_iff, !Z.ltb_lt, !Z.leb_gt. lia.
Qed.

(** A nibble in either code. *)
Lemma unhexify_nibble_lane b :
  u_range 8 b -> unhexify_nibble b =
    (if is_hex b then Done (unhex_lane b) else Failed (InvalidHexCharacter b)).
Proof.
  intros Hb. unfold unhexify_nibble, is_hex, unhex_lane. unfold u_range in Hb.
  destruct (Z.leb_spec 48 b), (Z.leb_spec b 57), (Z.leb_spec 97 b), (Z.leb_spec b 102); simpl;
    try lia; try done; f_equal; symmetry; (rewrite (proj2 (Z.ltb_ge 57 b)) by lia) ||
    (rewrite (proj2 (Z.ltb_lt 57 b)) by lia); apply as_u_id; unfold u_range; lia.
Qed.

(** The vector decoder does what the scalar one does two characters at a time. *)
Lemma unhexify_scalar h :
  length h = 32%nat ->
  match unhexify_pairs h with
  | Done s => unhexify (map Z_of_byte h) = Done (map Z_of_byte s)
  | Failed _ => unhexify (map Z_of_byte h) = Failed (InvalidHexCharacters (map Z_of_byte h))
  | Crash _ => False
  end.
Proof.
  intros Hl. unfold unhexify. rewrite unhexify_check.
  assert (Hp : forall n t, length t = (2 * n)%nat ->
    unhexify_pairs t = (if forallb is_hex (map Z_of_byte t) then
      Done (map (fun i => byte_of_Z (unhex_lane (nth (2 * i) (map Z_of_byte t) 0)
        + as_u 8 (Z.shiftl (unhex_lane (nth (2 * i + 1) (map Z_of_byte t) 0)) 4))) (seq 0 n))
      else match unhexify_pairs t with Failed e => Failed e | _ => Failed OddLengthHexString end)
    /\ (forallb is_hex (map Z_of_byte t) = false -> exists e, unhexify_pairs t = Failed e)).
  { induction n as [|n IH]; intros [|l [|u t]] Ht; simpl in Ht; try lia; [done |].
    destruct (IH t ltac:(lia)) as [IH1 IH2]. cbn [unhexify_pairs map forallb].
    rewrite !unhexify_nibble_lane by apply byte_u8.
    destruct (is_hex (Z_of_byte l)) eqn:El, (is_hex (Z_of_byte u)) eqn:Eu; simpl; eauto.
    destruct (forallb is_hex (map Z_of_byte t)) eqn:Et; simpl.
    - rewrite IH1. simpl. split; [|done]. do 2 f_equal.
      rewrite <- seq_shift, map_map. apply map_ext. intros i.
      replace (S i + (S i + 0))%nat with (S (S (2 * i))) by lia. simpl.
      replace (i + (i + 0) + 1)%nat with (S (i + (i + 0))) by lia. done.
    - destruct (IH2 eq_refl) as [e ->]. simpl. eauto. }
  destruct (Hp 16%nat h Hl) as [H1 H2]. clear Hp.
  destruct (forallb is_hex (map Z_of_byte h)) eqn:E; simpl.
  - rewrite H1. f_equal. clear H1 H2 E. explode h. cbn -[as_u unhex_lane Z.mul Z.shiftl byte_of_Z Z_of_byte].
    assert (Hb : forall l u, Z_of_byte (byte_of_Z (unhex_lane l + as_u 8 (Z.shiftl (unhex_lane u) 4)))
      = as_u 8 (unhex_lane l + as_u 8 (unhex_lane u * 16))).
    { intros l u. rewrite Z_of_byte_of_Z, Z.shiftl_mul_pow2 by lia. done. }
    by rewrite !Hb.
  - destruct (H2 eq_refl) as [e ->]. done.
Qed.

(** A byte and its two characters. *)
Lemma unhexify_hex_pair z rest :
  u_range 8 z ->
  unhexify_pairs (hex_pair z ++ rest) =
    (let? r := unhexify_pairs rest in Done (byte_of_Z z :: r)).
Proof.
  intros Hz. cbn [hex_pair app unhexify_pairs].
  assert (H : bool_decide (unhexify_nibble (Z_of_byte (hex_char (Z.land z 0xf))) = Done (Z.land z 0xf))
           && bool_decide (unhexify_nibble (Z_of_byte (hex_char (Z.shiftr z 4))) = Done (Z.shiftr z 4))
           && bool_decide (Z.land z 0xf + as_u 8 (Z.shiftl (Z.shiftr z 4) 4) = z) = true).
  { revert z Hz. apply u8_forall. vm_compute. reflexivity. }
  rewrite !andb_true_iff, !bool_decide_eq_true in H. destruct H as [[-> ->] Hz'].
  simpl. by rewrite Hz'.
Qed.

Lemma unhexify_nibble_inv b n :
  unhexify_nibble b = Done n -> 0 <= n < 16 /\ b = Z_of_byte (hex_char n).
Proof.
  unfold unhexify_nibble. intros H.
  assert (Hn : 0 <= n < 16 /\ b = n + (if 9 <? n then 87 else 48)).
  { destruct (Z.leb_spec 48 b), (Z.leb_spec b 57); simpl in H;
      try (injection H as <-; split; [lia |]; rewrite (proj2 (Z.ltb_ge _ _)) by lia; lia);
      destruct (Z.leb_spec 97 b), (Z.leb_spec b 102); simpl in H; try discriminate H;
      injection H as <-; (split; [lia |]); rewrite (proj2 (Z.ltb_lt _ _)) by lia; lia. }
  destruct Hn as [Hn ->]. split; [done |].
  assert (Hc : forall m, In m (map Z.of_nat (seq 0 16)) ->
    m + (if 9 <? m then 87 else 48) = Z_of_byte (hex_char m))
    by (intros m Hm; repeat (destruct Hm as [<-|Hm]; [reflexivity |]); destruct Hm).
  apply Hc, in_map_iff. exists (Z.to_nat n). split; [lia |]. apply in_seq. lia.
Qed.

(** Decoding pairs inverts encoding, exactly. *)
Lemma unhexify_pairs_spec h s :
  Nat.even (length h) = true -> unhexify_pairs h = Done s <-> h = hex_of s.
Proof.
  intros He. split.
  - remember (length h) as n eqn:En. revert h s En.
    induction n as [n IH] using lt_wf_ind. intros [|l [|u h]] s En H.
    + by injection H as <-.
    + simpl in En. subst n. discriminate He.
    + cbn [unhexify_pairs] in H. apply obind_done in H as (nl & Hl & H).
      apply obind_done in H as (nu & Hu & H). apply obind_done in H as (rest & Hr & [= <-]).
      apply unhexify_nibble_inv in Hl as [Hnl Hl]. apply unhexify_nibble_inv in Hu as [Hnu Hu].
      apply Z_of_byte_inj in Hl as ->. apply Z_of_byte_inj in Hu as ->.
      assert (Hz : as_u 8 (Z.shiftl nu 4) = nu * 16)
        by (rewrite Z.shiftl_mul_pow2 by lia; apply as_u_id; unfold u_range; lia).
      rewrite Hz. simpl in En. subst n. simpl in He.
      rewrite (IH (length h) ltac:(lia) He h rest eq_refl Hr).
      unfold hex_of. cbn [map concat hex_pair app].
      rewrite Z_of_byte_of_Z, Z.mod_small by lia.
      rewrite (Z.land_ones _ 4 ltac:(lia) : Z.land (nl + nu * 16) 15 = (nl + nu * 16) mod 2 ^ 4).
      rewrite Z.shiftr_div_pow2 by lia. change (2 ^ 4) with 16.
      rewrite Z.mod_add, Z.div_add, Z.mod_small, Z.div_small by lia. done.
  - intros ->. clear He. induction s as [|b s IH]; [done |].
    unfold hex_of in *. cbn [map concat]. rewrite unhexify_hex_pair by apply byte_u8.
    rewrite IH. simpl. by rewrite byte_of_Z_of_byte.
Qed.

Lemma length_hex_of s : length (hex_of s) = (2 * length s)%nat.
Proof. unfold hex_of. induction s as [|b s IH]; simpl in *; [done | rewrite IH; lia]. Qed.

Lemma hex_of_app s t : hex_of (s ++ t) = hex_of s ++ hex_of t.
Proof. unfold hex_of. by rewrite map_app, concat_app. Qed.

Lemma even_length_hex_of s : Nat.even (length (hex_of s)) = true.
Proof. rewrite length_hex_of. apply Nat.even_mul. Qed.

Lemma hex_of_inj s t : hex_of s = hex_of t -> s = t.
Proof.
  intros H. assert (Done s = Done (E := NameError) t) as [= ->]; [|done].
  rewrite <- (proj2 (unhexify_pairs_spec (hex_of s) s (even_length_hex_of s)) eq_refl).
  apply unhexify_pairs_spec; [apply even_length_hex_of | done].
Qed.

(** ** Chunks *)
Lemma chunks_exact_spec fuel n {A} (l : list A) cs r :
  (0 < n)%nat -> (length l <= fuel)%nat -> chunks_exact fuel n l = (cs, r) ->
  l = concat cs ++ r /\ Forall (fun c => length c = n) cs /\ (length r < n)%nat.
Proof.
  intros Hn. revert l cs r. induction fuel as [|fuel IH]; intros l cs r Hf H; simpl in H.
  - injection H as <- <-. destruct l; [|simpl in Hf; lia]. auto.
  - destruct (Nat.leb_spec n (length l)) as [Hle|Hlt].
    + destruct (chunks_exact fuel n (drop n l)) as [cs' r'] eqn:E. injection H as <- <-.
      apply IH in E as (E & HF & Hr); [|rewrite length_drop; lia].
      split_and!; [| constructor; [rewrite length_take; lia | done] | done].
      simpl. by rewrite <- app_assoc, <- E, take_drop.
    + injection H as <- <-. auto.
Qed.

Lemma map_Z_of_byte_range (s : str) : Forall (u_range 8) (map Z_of_byte s).
Proof. induction s; simpl; constructor; auto using byte_u8. Qed.

(** The vector encoder, the loop over chunks and the scalar remainder all write two
    characters a byte. *)
Lemma hexify_string_hex_of s : hexify_string s = hex_of s.
Proof.
  unfold hexify_string. destruct (chunks_exact (length s) 16 s) as [cs r] eqn:E.
  apply chunks_exact_spec in E as (E & HF & Hr); [|lia|lia]. rewrite E. clear E Hr.
  rewrite hex_of_app. f_equal.
  induction HF as [|c cs Hc HF IH]; [done |]. cbn [map concat].
  rewrite hex_of_app, IH, hexify_scalar; [| by rewrite length_map | apply map_Z_of_byte_range].
  by rewrite map_map.
Qed.

Lemma unhexify_nibble_no_crash b c : unhexify_nibble b <> Crash c.
Proof. unfold unhexify_nibble. by repeat case_match. Qed.

Lemma unhexify_pairs_no_crash r c : unhexify_pairs r <> Crash c.
Proof.
  remember (length r) as n eqn:En. revert r En.
  induction n as [n IH] using lt_wf_ind. intros [|l [|u r]] En E; try discriminate.
  cbn [unhexify_pairs] in E. simpl in En.
  apply obind_crash in E as [E|(? & _ & E)]; [by apply unhexify_nibble_no_crash in E |].
  apply obind_crash in E as [E|(? & _ & E)]; [by apply unhexify_nibble_no_crash in E |].
  apply obind_crash in E as [E|(? & _ & E)]; [|discriminate].
  by apply (IH (length r) ltac:(lia) r eq_refl).
Qed.

Lemma unhexify_chunks_pairs cs r :
  Forall (fun c => length c = 32%nat) cs ->
  match unhexify_pairs (concat cs ++ r) with
  | Done s => exists s1 s2, s = s1 ++ s2 /\ unhexify_chunks cs = Done s1 /\ unhexify_pairs r = Done s2
  | Failed _ => forall s1 s2, ~ (unhexify_chunks cs = Done s1 /\ unhexify_pairs r = Done s2)
  | Crash _ => False
  end.
Proof.
  assert (Happ : forall n c t, length c = (2 * n)%nat -> unhexify_pairs (c ++ t) =
    (let? s1 := unhexify_pairs c in let? s2 := unhexify_pairs t in Done (s1 ++ s2))).
  { induction n as [|n IH]; intros [|l [|u c]] t Hc; simpl in Hc; try lia.
    - simpl. by destruct (unhexify_pairs t).
    - cbn [unhexify_pairs app]. rewrite (IH c t ltac:(lia)).
      destruct (unhexify_nibble (Z_of_byte l)), (unhexify_nibble (Z_of_byte u)); try done. simpl.
      destruct (unhexify_pairs c); simpl; [|done|done]. by destruct (unhexify_pairs t). }
  induction 1 as [|c cs Hc HF IH]; simpl.
  - destruct (unhexify_pairs r) as [s| |c] eqn:E; [by exists [], s | by intros ? ? [_ [=]] |].
    by apply unhexify_pairs_no_crash in E.
  - rewrite <- app_assoc, (Happ 16%nat c) by done. pose proof (unhexify_scalar c Hc) as Hs.
    destruct (unhexify_pairs c) as [s1| |]; [|rewrite Hs; by intros ? ? [[=] _] | done].
    rewrite Hs. simpl. assert (Hm : map byte_of_Z (map Z_of_byte s1) = s1).
    { rewrite map_map. rewrite (map_ext _ id); [apply map_id | apply byte_of_Z_of_byte]. }
    destruct (unhexify_pairs (concat cs ++ r)) as [s2| |]; simpl.
    + destruct IH as (t1 & t2 & -> & -> & Hr). exists (s1 ++ t1), t2. simpl.
      rewrite Hm. by rewrite app_assoc.
    + intros t1 t2 [H1 H2]. apply obind_done in H1 as (t1' & H1 & _). by eapply IH.
    + done.
Qed.

Lemma unhexify_string_spec h s :
  unhexify_string h = Done s <-> h = hex_of s /\ utf8_valid s = true.
Proof.
  unfold unhexify_string. destruct (Nat.even (length h)) eqn:Ev; simpl.
  2: { split; [discriminate |]. intros [-> _]. by rewrite even_length_hex_of in Ev. }
  destruct (chunks_exact (length h) 32 h) as [cs r] eqn:E.
  apply chunks_exact_spec in E as (E & HF & _); [|lia|lia].
  pose proof (unhexify_chunks_pairs cs r HF) as Hp. rewrite <- E in Hp.
  split.
  - intros H. apply obind_done in H as (s1 & H1 & H). apply obind_done in H as (s2 & H2 & H).
    destruct (utf8_valid (s1 ++ s2)) eqn:Eu; [|discriminate]. injection H as <-. split; [|done].
    apply unhexify_pairs_spec; [done |].
    destruct (unhexify_pairs h) as [s| |]; [| exfalso; by eapply Hp | done].
    destruct Hp as (t1 & t2 & -> & H1' & H2'). congruence.
  - intros [Hh Hu]. apply (unhexify_pairs_spec h s Ev) in Hh. rewrite Hh in Hp.
    destruct Hp as (t1 & t2 & -> & -> & ->). simpl. by rewrite Hu.
Qed.
