(* ===== verification/NamesSpec.v ===== *)
(** * What the name parser guarantees

    Component names have one spelling: a string parses to a component exactly if it is the
    display of a valid one.  Pod names have many, because the pod ID goes through a lenient
    integer parser.  The validation predicates are characterised without regular
    expressions, and the vectorised hexadecimal codec without vectors. *)

From S2P Require Import Prelude Regexp Names.

#[local] Open Scope Z_scope.

(** ** The permissive parser *)
Lemma parse_version_debug v :
  let (version, pod) := parse_version v in
  (match version with
   | Some v => VERSION_SEPARATOR :: v ++ (match pod with Some p => POD_ID_SEPARATOR :: p | None => [] end)
   | None => []
   end) = VERSION_SEPARATOR :: v.
Proof.
  unfold parse_version. destruct (find _ v) as [i|] eqn:E.
  - apply find_some in E as (b & E & Hb & _ & _). apply is_char_true in Hb as ->.
    f_equal. by rewrite <- E.
  - by rewrite app_nil_r.
Qed.

(** Parsing loses nothing: the [Debug] form of the parsed name is the string that was
    parsed, for every string. *)
Lemma parse_debug full : Name_debug (Name_parse full) = full.
Proof.
  unfold Name_parse. destruct (find _ full) as [i|] eqn:E.
  2: { unfold Name_debug. cbn [domain server version pod]. by rewrite firstn_all, drop_0, app_nil_r. }
  apply find_some in E as (b & E & Hb & Hd & Hi). rewrite Hd. destruct (is_char DOMAIN_SEPARATOR b) eqn:Eb.
  - apply is_char_true in Eb as ->.
    destruct (find _ (drop (i + 1) full)) as [j|] eqn:Ej.
    + apply find_some in Ej as (b & Ej & Hb' & _ & Hj). apply is_char_true in Hb' as ->.
      pose proof (parse_version_debug (drop (i + 1 + j + 1) full)) as Hv.
      destruct (parse_version _) as [v p]. unfold Name_debug. cbn [domain server version pod].
      rewrite Hv. rewrite <- app_assoc. simpl.
      rewrite skipn_firstn_comm. replace (i + 1 + j - (i + 1))%nat with j by lia.
      etransitivity; [|symmetry; exact E]. do 2 f_equal.
      etransitivity; [|symmetry; exact Ej]. do 2 f_equal. rewrite drop_drop. f_equal. lia.
    + unfold Name_debug. cbn [domain server version pod].
      rewrite firstn_all, app_nil_r, <- app_assoc. simpl. by rewrite <- E.
  - rewrite orb_false_l in Hb. apply is_char_true in Hb as ->.
    pose proof (parse_version_debug (drop (i + 1) full)) as Hv.
    destruct (parse_version _) as [v p]. unfold Name_debug. cbn [domain server version pod].
    by rewrite Hv, drop_0, <- E.
Qed.

(** What comes apart where the separators are. *)
Definition free (c : byte) (s : str) : Prop := Forall (fun b => is_char c b = false) s.

Lemma Name_parse_parts d s v p :
  free DOMAIN_SEPARATOR d -> free VERSION_SEPARATOR d -> free VERSION_SEPARATOR s ->
  free POD_ID_SEPARATOR v ->
  Name_parse (d ++ DOMAIN_SEPARATOR :: s ++ VERSION_SEPARATOR :: v
              ++ (match p with Some p => POD_ID_SEPARATOR :: p | None => [] end))
  = mkName (Some d) s (Some v) p.
Proof.
  intros Hd1 Hd2 Hs Hv.
  set (tl := match p with Some p => POD_ID_SEPARATOR :: p | None => [] end).
  assert (Hpv : parse_version (v ++ tl) = (Some v, p)).
  { unfold parse_version, tl. destruct p as [p|].
    - rewrite find_app by done. rewrite take_app_length.
      replace (length v + 1)%nat with (S (length v)) by lia.
      by rewrite (cons_middle POD_ID_SEPARATOR v p), app_assoc, drop_app_length'
        by (rewrite length_app; simpl; lia).
    - by rewrite app_nil_r, find_none. }
  unfold Name_parse.
  rewrite (find_app (fun b => is_char DOMAIN_SEPARATOR b || is_char VERSION_SEPARATOR b) d);
    [| | done].
  2: { unfold free in *. rewrite Forall_forall in *. intros b Hb. by rewrite (Hd1 b Hb), (Hd2 b Hb). }
  rewrite drop_app_length. cbn iota beta.
  rewrite take_app_length.
  assert (Hdrop : drop (length d + 1) (d ++ DOMAIN_SEPARATOR :: s ++ VERSION_SEPARATOR :: v ++ tl)
    = s ++ VERSION_SEPARATOR :: v ++ tl).
  { rewrite (cons_middle DOMAIN_SEPARATOR d), app_assoc, drop_app_length'; [done |].
    rewrite length_app. simpl. lia. }
  rewrite Hdrop. change (is_char DOMAIN_SEPARATOR DOMAIN_SEPARATOR) with true. cbn iota.
  rewrite (find_app (is_char VERSION_SEPARATOR) s) by done.
  assert (Hdrop2 : drop (length d + 1 + length s + 1)
      (d ++ DOMAIN_SEPARATOR :: s ++ VERSION_SEPARATOR :: v ++ tl) = v ++ tl).
  { rewrite <- drop_drop, <- drop_drop, Hdrop, drop_drop.
    rewrite (cons_middle VERSION_SEPARATOR s), app_assoc, drop_app_length'; [done |].
    rewrite length_app. simpl. lia. }
  rewrite Hdrop2, Hpv. f_equal.
  rewrite skipn_firstn_comm, Hdrop.
  replace (length d + 1 + length s - (length d + 1))%nat with (length s) by lia.
  apply take_app_length.
Qed.

(** ** The character classes *)
Definition is_lower (b : byte) : bool := in_range 97 122 b.
Definition is_upper (b : byte) : bool := in_range 65 90 b.
Definition is_digit (b : byte) : bool := in_range 48 57 b.
Definition is_dash (b : byte) : bool := in_range 45 45 b.

Lemma classes b :
  ranges [("a", "z")] b = is_lower b /\ lower_or_digit b = (is_digit b || is_lower b)
  /\ name_middle b = (is_digit b || is_lower b || is_dash b)
  /\ digit b = is_digit b /\ ranges [("1", "9")] b = (is_digit b && negb (in_range 48 48 b))
  /\ letter b = (is_upper b || is_lower b)
  /\ letter_or_dash b = (is_upper b || is_lower b || is_dash b)
  /\ alphanumeric b = (is_digit b || is_upper b || is_lower b)
  /\ alphanumeric_or_dash b = (is_digit b || is_upper b || is_lower b || is_dash b).
Proof. destruct b; vm_compute; repeat split. Qed.

(** ** Validation *)
Section Validation.
Context {R : RegexCrate} {RL : RegexLaws R}.

Lemma server_grammar name :
  is_valid_server_name name = true <->
  (length name <= 63)%nat
  /\ Forall (fun b => is_digit b || is_lower b || is_dash b = true) name
  /\ (exists first rest, name = first :: rest /\ is_lower first = true)
  /\ (exists before final, name = before ++ [final] /\ is_dash final = false).
Proof.
  unfold is_valid_server_name. rewrite is_match_spec. unfold PATH_RE.
  rewrite matches_cat_inv. split.
  - intros (s1 & s2 & -> & H1 & H2). apply matches_cls_inv in H1 as (b & -> & Hb).
    rewrite (proj1 (classes b)) in Hb. apply matches_opt_inv in H2 as [->|H2].
    + simpl. split_and!; [lia | | by exists b, [] |].
      * constructor; [|constructor]. by rewrite Hb, orb_true_r.
      * exists [], b. split; [done |]. by destruct b; vm_compute in Hb |- *.
    + apply matches_cat_inv in H2 as (m & l & -> & Hm & Hl).
      apply matches_up_to_cls in Hm as [Hlm Hm]. apply matches_cls_inv in Hl as (f & -> & Hf).
      destruct (classes f) as (_ & Hf' & _). rewrite Hf' in Hf. simpl. rewrite length_app. simpl.
      split_and!; [lia | | by exists b, (m ++ [f]) |].
      * constructor; [by rewrite Hb, orb_true_r |]. apply Forall_app_2; [|constructor; [|constructor]].
        -- eapply Forall_impl; [exact Hm |]. intros x Hx.
           destruct (classes x) as (_ & _ & Hx' & _). by rewrite <- Hx'.
        -- by rewrite Hf.
      * exists (b :: m), f. split; [done |]. by destruct f; vm_compute in Hf |- *.
  - intros (Hl & HF & (b & rest & -> & Hb) & (before & f & E & Hf)).
    exists [b], rest. split; [done |]. split; [constructor; by rewrite (proj1 (classes b)) |].
    apply matches_opt_inv. destruct before as [|b' m]; simpl in E; injection E as -> ->; [by left |].
    right. constructor.
    + apply matches_up_to_cls. simpl in Hl. rewrite length_app in Hl. simpl in Hl. split; [lia |].
      apply Forall_cons in HF as [_ HF]. apply Forall_app in HF as [HF _].
      eapply Forall_impl; [exact HF |]. intros x Hx.
      destruct (classes x) as (_ & _ & Hx' & _). by rewrite Hx'.
    + constructor. destruct (classes f) as (_ & Hf' & _). rewrite Hf'.
      apply Forall_cons in HF as [_ HF]. apply Forall_app in HF as [_ HF].
      apply Forall_cons in HF as [HF _]. by rewrite Hf, orb_false_r in HF.
Qed.

(** A numeric identifier: digits with no leading zero. *)
Definition numeric (s : str) : Prop :=
  s <> [] /\ Forall (fun b => is_digit b = true) s
  /\ (forall rest, s = "0"%byte :: rest -> rest = []).

Lemma matches_chr c b s : string_bytes c = [b] -> matches (chr c) s <-> s = [b].
Proof.
  intros Hc. unfold chr. rewrite matches_cls_inv. unfold ranges. cbn [existsb]. rewrite Hc.
  assert (Hb : forall x, in_range (Z_of_byte b) (Z_of_byte b) x || false = true <-> x = b).
  { intros x. unfold in_range. rewrite orb_false_r, andb_true_iff, !Z.leb_le. split.
    - intros H. apply Z_of_byte_inj. lia.
    - intros ->. lia. }
  setoid_rewrite Hb. split; [by intros (x & -> & ->) | intros ->; eauto].
Qed.

Lemma matches_numeric s : matches NUMERIC_RE s <-> numeric s.
Proof.
  unfold NUMERIC_RE, numeric. rewrite matches_alt_inv, (matches_chr "0" "0"%byte) by done.
  rewrite matches_cat_inv. split.
  - intros [->|(s1 & s2 & -> & H1 & H2)].
    + split_and!; [done | by repeat constructor | by intros rest [= <-]].
    + apply matches_cls_inv in H1 as (b & -> & Hb). apply matches_star_cls in H2.
      destruct (classes b) as (_ & _ & _ & _ & Hb' & _). rewrite Hb' in Hb.
      apply andb_true_iff in Hb as [Hb Hb0]. simpl. split_and!; [done | |].
      * constructor; [done |]. eapply Forall_impl; [exact H2 |]. intros x Hx.
        destruct (classes x) as (_ & _ & _ & Hx' & _). by rewrite <- Hx'.
      * intros rest [= -> ->]. discriminate Hb0.
  - intros (Hne & HF & H0). destruct s as [|b s]; [done |].
    destruct (decide (b = "0"%byte)) as [->|Hb]; [left; by rewrite (H0 s eq_refl) |].
    right. exists [b], s. apply Forall_cons in HF as [Hd HF]. split_and!; [done | |].
    + constructor. destruct (classes b) as (_ & _ & _ & _ & -> & _). rewrite Hd.
      by destruct b; vm_compute in Hd |- *.
    + apply matches_star_cls. eapply Forall_impl; [exact HF |]. intros x Hx.
      destruct (classes x) as (_ & _ & _ & Hx' & _). by rewrite Hx'.
Qed.

(** An alphanumeric identifier: letters, digits and dashes, not all digits, with no dash at
    the end. *)
Definition alphanumeric_id (s : str) : Prop :=
  Forall (fun b => is_digit b || is_upper b || is_lower b || is_dash b = true) s
  /\ Exists (fun b => is_digit b = false) s
  /\ (exists before final, s = before ++ [final] /\ is_dash final = false).

Lemma star_alphanumeric s :
  matches (Star (Cls alphanumeric_or_dash)) s
  <-> Forall (fun b => is_digit b || is_upper b || is_lower b || is_dash b = true) s.
Proof.
  rewrite matches_star_cls. apply Forall_iff. intros x.
  destruct (classes x) as (_ & _ & _ & _ & _ & _ & _ & _ & Hx'). by rewrite Hx'.
Qed.

Lemma matches_alphanumeric s : matches ALPHANUMERIC_RE s <-> alphanumeric_id s.
Proof.
  unfold ALPHANUMERIC_RE, alphanumeric_id.
  assert (Hcls : forall b, letter b = (is_upper b || is_lower b)
    /\ letter_or_dash b = (is_upper b || is_lower b || is_dash b)
    /\ alphanumeric b = (is_digit b || is_upper b || is_lower b)).
  { intros b. destruct (classes b) as (_ & _ & _ & _ & _ & ? & ? & ? & _). auto. }
  assert (Hnd : forall b, is_upper b || is_lower b || is_dash b = true -> is_digit b = false)
    by (intros b; destruct b; vm_compute; congruence).
  assert (Hndash : forall b, is_digit b || is_upper b || is_lower b = true -> is_dash b = false)
    by (intros b; destruct b; vm_compute; congruence).
  rewrite matches_cat_inv. split.
  - intros (s1 & s2 & -> & H1 & H2). apply star_alphanumeric in H1.
    apply matches_alt_inv in H2 as [H2|H2].
    + apply matches_cls_inv in H2 as (b & -> & Hb). destruct (Hcls b) as (Hl & _). rewrite Hl in Hb.
      split_and!.
      * apply Forall_app_2; [done |]. constructor; [|constructor].
        rewrite <- (orb_assoc (is_digit b)), Hb. by rewrite orb_true_r.
      * apply Exists_app. right. constructor. apply Hnd. by rewrite Hb.
      * exists s1, b. split; [done |]. apply Hndash. by rewrite <- orb_assoc, Hb, orb_true_r.
    + apply matches_cat_inv in H2 as (t1 & t2 & -> & Ht1 & H2).
      apply matches_cls_inv in Ht1 as (b & -> & Hb). destruct (Hcls b) as (_ & Hl & _).
      rewrite Hl in Hb.
      apply matches_cat_inv in H2 as (t3 & t4 & -> & Ht3 & Ht4). apply star_alphanumeric in Ht3.
      apply matches_cls_inv in Ht4 as (f & -> & Hf). destruct (Hcls f) as (_ & _ & Hl').
      rewrite Hl' in Hf. split_and!.
      * apply Forall_app_2; [done |]. simpl. constructor.
        -- destruct (is_digit b); [done |]. by rewrite orb_false_l.
        -- apply Forall_app_2; [done |]. constructor; [|constructor]. by rewrite Hf.
      * apply Exists_app. right. simpl. constructor. by apply Hnd.
      * exists (s1 ++ b :: t3), f. split; [by rewrite <- app_assoc | by apply Hndash].
  - intros (HF & Hex & (before & f & -> & Hf)).
    apply Forall_app in HF as [HFb HFf]. apply Forall_cons in HFf as [HFf _].
    rewrite Hf, orb_false_r in HFf.
    apply Exists_app in Hex as [Hex|Hex].
    + apply Exists_exists in Hex as (b & Hb & Hd).
      apply list_elem_of_split in Hb as (l1 & l2 & ->).
      apply Forall_app in HFb as [HF1 HF2]. apply Forall_cons in HF2 as [Hbb HF2].
      exists l1, (b :: l2 ++ [f]). split; [by rewrite <- app_assoc |].
      split; [by apply star_alphanumeric |]. apply matches_alt_r.
      change (b :: l2 ++ [f]) with ([b] ++ l2 ++ [f]). constructor.
      * constructor. destruct (Hcls b) as (_ & -> & _). by rewrite Hd in Hbb.
      * constructor; [by apply star_alphanumeric |]. constructor.
        destruct (Hcls f) as (_ & _ & ->). done.
    + apply Exists_cons in Hex as [Hd|Hex]; [|by apply Exists_nil in Hex].
      exists before, [f]. split; [done |]. split; [by apply star_alphanumeric |].
      apply matches_alt_l. constructor. destruct (Hcls f) as (-> & _). by rewrite Hd in HFf.
Qed.

Lemma version_grammar version :
  is_valid_version version = true <->
  (length version <= 63)%nat /\
  exists major minor patch pre,
    version = major ++ "."%byte :: minor ++ "."%byte :: patch ++ pre
    /\ numeric major /\ numeric minor /\ numeric patch
    /\ (pre = [] \/ exists id, pre = "-"%byte :: id /\ (numeric id \/ alphanumeric_id id)).
Proof.
  unfold is_valid_version. rewrite andb_true_iff, Nat.leb_le, is_match_spec.
  change K8S_LABEL_VALUE_MAX_LENGTH with 63%nat.
  assert (H : matches VERSION_RE version <-> exists major minor patch pre,
    version = major ++ "."%byte :: minor ++ "."%byte :: patch ++ pre
    /\ numeric major /\ numeric minor /\ numeric patch
    /\ (pre = [] \/ exists id, pre = "-"%byte :: id /\ (numeric id \/ alphanumeric_id id)));
    [|by rewrite H].
  assert (Hopt : forall pre, matches (opt (Cat (chr "-") (Alt NUMERIC_RE ALPHANUMERIC_RE))) pre <->
    (pre = [] \/ exists id, pre = "-"%byte :: id /\ (numeric id \/ alphanumeric_id id))).
  { intros pre. rewrite matches_opt_inv, matches_cat_inv.
    setoid_rewrite (matches_chr "-" "-"%byte); [|done].
    setoid_rewrite matches_alt_inv. setoid_rewrite matches_numeric.
    setoid_rewrite matches_alphanumeric. split; (intros [->|Hx]; [by left | right]).
    - destruct Hx as (s1 & s2 & -> & -> & Hx). by exists s2.
    - destruct Hx as (id & -> & Hx). by exists ["-"%byte], id. }
  unfold VERSION_RE. split.
  - intros Hm. apply matches_cat_inv in Hm as (major & t1 & -> & H1 & Hm).
    apply matches_cat_inv in Hm as (d1 & t2 & -> & Hd1 & Hm).
    apply matches_cat_inv in Hm as (minor & t3 & -> & H2 & Hm).
    apply matches_cat_inv in Hm as (d2 & t4 & -> & Hd2 & Hm).
    apply matches_cat_inv in Hm as (patch & pre & -> & H3 & Hm).
    apply (matches_chr "." "."%byte) in Hd1 as ->; [|done].
    apply (matches_chr "." "."%byte) in Hd2 as ->; [|done].
    apply matches_numeric in H1, H2, H3. apply Hopt in Hm.
    exists major, minor, patch, pre. done.
  - intros (major & minor & patch & pre & -> & H1 & H2 & H3 & Hp).
    apply matches_numeric in H1, H2, H3. apply Hopt in Hp.
    constructor; [done |].
    apply (matches_cat (chr ".") _ ["."%byte]); [by apply (matches_chr "." "."%byte) |].
    constructor; [done |].
    apply (matches_cat (chr ".") _ ["."%byte]); [by apply (matches_chr "." "."%byte) |].
    by constructor.
Qed.


End Validation.

#[local] Arguments DomainUuid_display : simpl never.

(** ** Domains *)
Definition domain_wf (d : DomainUuid) : Prop := length (uuid d) = 16%nat /\ Forall (u_range 8) (uuid d).

Lemma map_byte_of_Z_inv bs : Forall (u_range 8) bs -> map Z_of_byte (map byte_of_Z bs) = bs.
Proof.
  induction 1 as [|b bs Hb _ IH]; simpl; [done |]. rewrite IH, Z_of_byte_of_Z. f_equal.
  apply Z.mod_small. exact Hb.
Qed.

Lemma DomainUuid_display_hex_of d :
  domain_wf d -> DomainUuid_display d = hex_of (map byte_of_Z (uuid d)).
Proof.
  intros [Hl HF]. unfold DomainUuid_display, hex_of. rewrite hexify_scalar by done.
  rewrite <- (map_byte_of_Z_inv _ HF) at 1. by rewrite !map_map.
Qed.

Lemma domain_parses s d :
  DomainUuid_parse s = Done d <-> domain_wf d /\ s = DomainUuid_display d.
Proof.
  unfold DomainUuid_parse. split.
  - destruct (Nat.eqb_spec (length s) 32) as [Hl|]; [|discriminate]. intros H.
    apply obind_done in H as (u & Hu & [= <-]).
    pose proof (unhexify_scalar s Hl) as Hs.
    destruct (unhexify_pairs s) as [t| |] eqn:E; [| congruence | done].
    rewrite Hs in Hu. injection Hu as <-.
    apply unhexify_pairs_spec in E as ->; [|by rewrite Hl].
    rewrite length_hex_of in Hl.
    assert (Hwf : domain_wf (mkDomainUuid (map Z_of_byte t)))
      by (split; simpl; [rewrite length_map; lia | apply map_Z_of_byte_range]).
    split; [done |]. rewrite DomainUuid_display_hex_of by done. simpl. rewrite map_map.
    by rewrite (map_ext _ id byte_of_Z_of_byte), map_id.
  - intros [Hwf ->]. rewrite DomainUuid_display_hex_of by done. destruct Hwf as [Hl HF].
    rewrite length_hex_of, length_map, Hl. cbn [Nat.mul Nat.add Nat.eqb].
    pose proof (unhexify_scalar (hex_of (map byte_of_Z (uuid d)))) as Hs.
    rewrite (proj2 (unhexify_pairs_spec _ _ (even_length_hex_of _)) eq_refl) in Hs.
    rewrite Hs by (rewrite length_hex_of, length_map, Hl; done). simpl.
    rewrite map_byte_of_Z_inv by done. by destruct d.
Qed.

Lemma DomainUuid_parse_returns s c : DomainUuid_parse s <> Crash c.
Proof.
  unfold DomainUuid_parse, unhexify. destruct (_ =? _)%nat; [|done]. intros H.
  apply obind_crash in H as [H|(u & _ & H)]; [by repeat case_match | done].
Qed.

(** C32. The hexadecimal codecs are bijections.  A string parses to a domain exactly if it is the
    display of that domain: the vector decoder inverts the vector encoder, and accepts
    nothing else.  And [unhexify_string] accepts exactly the encodings of the valid UTF-8
    strings, and returns the string that was encoded: the vector loop over the chunks and the
    scalar loop over the remainder agree. *)
Theorem hex_roundtrips s d h t :
  (DomainUuid_parse s = Done d <-> domain_wf d /\ s = DomainUuid_display d)
  /\ (unhexify_string h = Done t <-> h = hexify_string t /\ utf8_valid t = true).
Proof. split; [exact (domain_parses s d) | rewrite hexify_string_hex_of; apply unhexify_string_spec]. Qed.

(** ** Component names *)
Section Canonical.
Context {R : RegexCrate} {RL : RegexLaws R}.

Definition component_valid (c : ComponentName) : Prop :=
  domain_wf (s_domain (c_server c)) /\ is_valid_server_name (s_server (c_server c)) = true
  /\ is_valid_version (c_version c) = true.

Lemma hex_of_free c s : is_hex (Z_of_byte c) = false -> free c (hex_of s).
Proof.
  intros Hc. unfold free, hex_of. induction s as [|b s IH]; [constructor |].
  cbn [map concat hex_pair app].
  assert (H : forall z, u_range 8 z ->
    is_hex (Z_of_byte (hex_char (Z.land z 0xf))) && is_hex (Z_of_byte (hex_char (Z.shiftr z 4))) = true)
    by (apply u8_forall; vm_compute; reflexivity).
  specialize (H _ (byte_u8 b)). apply andb_true_iff in H as [H1 H2].
  constructor; [|constructor; [|done]]; apply bool_decide_eq_false; intros E; congruence.
Qed.

Lemma domain_free c d : domain_wf d -> is_hex (Z_of_byte c) = false -> free c (DomainUuid_display d).
Proof. intros Hwf Hc. rewrite DomainUuid_display_hex_of by done. by apply hex_of_free. Qed.

Lemma free_of_class c (p : byte -> bool) s :
  p c = false -> Forall (fun b => p b = true) s -> free c s.
Proof.
  intros Hc HF. unfold free. eapply Forall_impl; [exact HF |]. intros b Hb.
  apply bool_decide_eq_false. intros ->. congruence.
Qed.

(** The characters a server's name or a version may have. *)
Definition name_char (b : byte) : bool := is_digit b || is_lower b || is_dash b.
Definition version_char (b : byte) : bool := is_digit b || is_upper b || is_lower b || is_dash b || is_char "."%byte b.

Lemma server_free c s : is_valid_server_name s = true -> name_char c = false -> free c s.
Proof. intros H Hc. apply server_grammar in H as (_ & HF & _). by eapply free_of_class. Qed.

Lemma version_free c s : is_valid_version s = true -> version_char c = false -> free c s.
Proof.
  intros H Hc. apply version_grammar in H as (_ & mj & mn & pt & pre & -> & H1 & H2 & H3 & Hp).
  apply (free_of_class c version_char); [done |].
  assert (Hnum : forall n, numeric n -> Forall (fun b => version_char b = true) n).
  { intros n (_ & HF & _). eapply Forall_impl; [exact HF |]. intros b Hb. unfold version_char. by rewrite Hb. }
  repeat (apply Forall_app_2; [by apply Hnum |]; apply Forall_cons; split; [done |]).
  apply Forall_app_2; [by apply Hnum |]. destruct Hp as [->|(id & -> & Hid)]; [constructor |].
  apply Forall_cons. split; [done |]. destruct Hid as [Hid|(HF & _)]; [by apply Hnum |].
  eapply Forall_impl; [exact HF |]. intros b Hb. unfold version_char. by rewrite Hb.
Qed.

Lemma ComponentName_display_app c :
  ComponentName_display c = DomainUuid_display (s_domain (c_server c)) ++ DOMAIN_SEPARATOR ::
    s_server (c_server c) ++ VERSION_SEPARATOR :: c_version c.
Proof. unfold ComponentName_display, ServerName_display. by rewrite <- app_assoc. Qed.

Lemma Name_parse_display c p :
  component_valid c ->
  Name_parse (ComponentName_display c ++ match p with Some p => POD_ID_SEPARATOR :: p | None => [] end)
  = mkName (Some (DomainUuid_display (s_domain (c_server c)))) (s_server (c_server c))
      (Some (c_version c)) p.
Proof.
  intros (Hd & Hs & Hv). rewrite ComponentName_display_app.
  repeat (rewrite <- app_assoc || rewrite <- app_comm_cons). apply Name_parse_parts.
  - by apply domain_free.
  - by apply domain_free.
  - by apply server_free.
  - by apply version_free.
Qed.

Lemma ComponentName_new_done d s v c :
  ComponentName_new d s v = Done c <->
  is_valid_version v = true /\ is_valid_server_name s = true /\ c = mkComponentName (mkServerName d s) v.
Proof.
  unfold ComponentName_new, ServerName_new. destruct (is_valid_version v); [|split; [done | by intros [? _]]].
  destruct (is_valid_server_name s); simpl; [|split; [done | by intros (_ & ? & _)]].
  split; [by intros [= <-] | by intros (_ & _ & ->)].
Qed.

Lemma debug_inj s n : Name_parse s = n -> s = Name_debug n.
Proof. intros <-. symmetry. apply parse_debug. Qed.

(** C22. Component names are canonical: a string parses to a component exactly if it is the
    display of that component and the component is valid. *)
Theorem component_roundtrip s c :
  component (Name_parse s) = Done c <-> component_valid c /\ s = ComponentName_display c.
Proof.
  split.
  - unfold component. destruct (Name_parse s) as [d sv v p] eqn:E. apply debug_inj in E. simpl.
    destruct d as [d|]; [|done]. destruct v as [v|]; [|done]. destruct p; [done |]. intros H.
    apply obind_done in H as (u & Hu & H). apply domain_parses in Hu as [Hu ->].
    apply ComponentName_new_done in H as (Hv & Hs & ->). split; [done |].
    rewrite ComponentName_display_app. subst s. unfold Name_debug. simpl.
    by rewrite app_nil_r.
  - intros [Hc ->]. pose proof (Name_parse_display c None Hc) as Hp. rewrite app_nil_r in Hp.
    rewrite Hp. unfold component. simpl.
    rewrite (proj2 (domain_parses _ _) (conj (proj1 Hc) eq_refl)). simpl.
    destruct Hc as (_ & Hs & Hv). apply ComponentName_new_done. split_and!; [done..|].
    by destruct c as [[]].
Qed.

(** ** Pod names *)
Lemma to_pod_spec s c id :
  to_pod (Name_parse s) = Done (mkPodName c id) <->
  component_valid c /\ exists digits, s = ComponentName_display c ++ POD_ID_SEPARATOR :: digits
    /\ from_str_radix_16 digits = Some id.
Proof.
  split.
  - unfold to_pod. destruct (Name_parse s) as [d sv v p] eqn:E. apply debug_inj in E.
    cbn [domain server version pod].
    destruct d as [d|]; [|done]. destruct v as [v|]; [|done]. destruct p as [p|]; [|done]. intros H.
    apply obind_done in H as (u & Hu & H). apply domain_parses in Hu as [Hu ->].
    apply obind_done in H as (c' & Hc & H). apply ComponentName_new_done in Hc as (Hv & Hs & ->).
    apply obind_done in H as (i & Hi & [= <- <-]). split; [done |]. exists p.
    rewrite ComponentName_display_app. subst s. unfold Name_debug.
    cbn [domain server version pod s_domain c_server s_server c_version].
    repeat (rewrite <- app_assoc || rewrite <- app_comm_cons). split; [done |].
    by destruct (from_str_radix_16 p); simplify_eq/=.
  - intros (Hc & digits & -> & Hd). rewrite (Name_parse_display c (Some digits) Hc). unfold to_pod. simpl.
    rewrite (proj2 (domain_parses _ _) (conj (proj1 Hc) eq_refl)). simpl.
    destruct Hc as (_ & Hs & Hv). rewrite (proj2 (ComponentName_new_done _ _ _ c)).
    + simpl. by rewrite Hd.
    + split_and!; [done..|]. by destruct c as [[]].
Qed.

Lemma to_digit_range b d : to_digit b = Some d -> 0 <= d < 16.
Proof. destruct b; vm_compute; intros [= <-]; split; congruence. Qed.

Lemma from_hex_digits_range acc s id :
  u_range 64 acc -> from_hex_digits acc s = Some id -> u_range 64 id.
Proof.
  revert acc. induction s as [|b s IH]; intros acc Ha H; simpl in H; [by injection H as <- |].
  destruct (to_digit b) as [d|] eqn:Ed; [|done]. apply to_digit_range in Ed.
  destruct (Z.ltb_spec (acc * 16 + d) (2 ^ 64)); [|done].
  apply (IH (acc * 16 + d)); [unfold u_range in *; lia | exact H].
Qed.

Lemma from_str_radix_range s id : from_str_radix_16 s = Some id -> u_range 64 id.
Proof.
  unfold from_str_radix_16. intros H. destruct s as [|b s]; [done |].
  destruct (is_char _ b); [destruct s as [|b' s]; [done |] |];
    (eapply from_hex_digits_range; [|exact H]; unfold u_range; lia).
Qed.

Lemma to_digit_hex_char z : 0 <= z < 16 -> to_digit (hex_char z) = Some z.
Proof.
  intros Hz. apply (bool_decide_eq_true _).
  assert (H : forallb (fun z => bool_decide (to_digit (hex_char z) = Some z)) (map Z.of_nat (seq 0 16)) = true)
    by (vm_compute; reflexivity).
  rewrite forallb_forall in H. apply H, in_map_iff. exists (Z.to_nat z). split; [lia |].
  apply in_seq. lia.
Qed.

Lemma from_hex_digits_format fuel z t :
  0 <= z < 16 ^ Z.of_nat (S fuel) -> z < 2 ^ 64 ->
  from_hex_digits 0 (format_hex fuel z ++ t) = from_hex_digits z t.
Proof.
  revert z t. induction fuel as [|fuel IH]; intros z t Hz Hm.
  - change (16 ^ Z.of_nat 1) with 16 in Hz. change (format_hex 0 z) with [hex_char (z mod 16)].
    cbn [app from_hex_digits]. rewrite Z.mod_small, to_digit_hex_char, (proj2 (Z.ltb_lt _ _)) by lia. f_equal; lia.
  - change (format_hex (S fuel) z) with
      (if z <? 16 then [hex_char z] else format_hex fuel (z / 16) ++ [hex_char (z mod 16)]).
    destruct (Z.ltb_spec z 16).
    + cbn [app from_hex_digits].
      rewrite to_digit_hex_char, (proj2 (Z.ltb_lt _ _)) by lia. f_equal; lia.
    + pose proof (Z.div_mod z 16 ltac:(lia)). pose proof (Z.mod_pos_bound z 16 ltac:(lia)).
      rewrite Nat2Z.inj_succ, Z.pow_succ_r in Hz by lia.
      rewrite <- app_assoc, IH; [| |lia].
      * cbn [app from_hex_digits]. rewrite to_digit_hex_char by lia.
        rewrite (proj2 (Z.ltb_lt _ _)) by lia. f_equal; lia.
      * split; [apply Z.div_pos; lia | apply Z.div_lt_upper_bound; lia].
Qed.

Lemma format_hex_head fuel z : 0 <= z < 16 ^ Z.of_nat (S fuel) ->
  exists b s, format_hex fuel z = b :: s /\ is_char "+"%byte b = false.
Proof.
  assert (H : forall z, 0 <= z < 16 -> is_char "+"%byte (hex_char z) = false).
  { intros y Hy. apply bool_decide_eq_false. intros E.
    pose proof (to_digit_hex_char y Hy) as Hd. rewrite E in Hd. discriminate Hd. }
  revert z. induction fuel as [|fuel IH]; intros z Hz.
  - change (16 ^ Z.of_nat 1) with 16 in Hz. exists (hex_char (z mod 16)), []. split; [done |].
    apply H. rewrite Z.mod_small; lia.
  - change (format_hex (S fuel) z) with
      (if z <? 16 then [hex_char z] else format_hex fuel (z / 16) ++ [hex_char (z mod 16)]).
    destruct (Z.ltb_spec z 16).
    + exists (hex_char z), []. split; [done | apply H; lia].
    + rewrite Nat2Z.inj_succ, Z.pow_succ_r in Hz by lia.
      destruct (IH (z / 16)) as (b & s & -> & Hb);
        [split; [apply Z.div_pos; lia | apply Z.div_lt_upper_bound; lia] |].
      simpl. eauto.
Qed.

Lemma pod_display_parses c id (Hc : component_valid c) (Hid : u_range 64 id) :
  to_pod (Name_parse (PodName_display (mkPodName c id))) = Done (mkPodName c id).
Proof.
  apply to_pod_spec. split; [done |]. exists (format_hex 15 id). split; [done |].
  unfold u_range in Hid.
  assert (Hz : 0 <= id < 16 ^ Z.of_nat 16) by (change (16 ^ Z.of_nat 16) with (2 ^ 64); lia).
  unfold from_str_radix_16. destruct (format_hex_head 15 id Hz) as (b & s & E & Hb).
  rewrite E, Hb, <- E, <- (app_nil_r (format_hex 15 id)).
  by rewrite from_hex_digits_format by (done || lia).
Qed.

(** What parses as a pod name, and when it is spelled as the display spells it. *)
Lemma pod_parses s p (Hp : to_pod (Name_parse s) = Done p) :
  component_valid (p_component p) /\ u_range 64 (p_pod p)
  /\ exists digits, s = ComponentName_display (p_component p) ++ POD_ID_SEPARATOR :: digits
     /\ from_str_radix_16 digits = Some (p_pod p)
     /\ (s = PodName_display p <-> digits = format_hex 15 (p_pod p)).
Proof.
  destruct p as [c id]. apply to_pod_spec in Hp as (Hc & digits & -> & Hd). cbn [p_component p_pod].
  split_and!; [done | by eapply from_str_radix_range |]. exists digits. split_and!; [done..|].
  unfold PodName_display. cbn [p_component p_pod]. split; [|by intros ->].
  intros H. apply app_inv_head in H. by injection H.
Qed.

(** Pod names: the display of a pod parses back to it; and what parses as a pod name is a
    valid component, a [#] and a number of 64 bits, spelled as the display spells it exactly
    if the digits are the ones [{:x}] prints, which the parser does not ask for: it takes a
    plus sign, capitals and leading zeros. *)
Theorem pod_names s p :
  (component_valid (p_component p) -> u_range 64 (p_pod p) ->
   to_pod (Name_parse (PodName_display p)) = Done p)
  /\ (to_pod (Name_parse s) = Done p ->
      component_valid (p_component p) /\ u_range 64 (p_pod p)
      /\ exists digits, s = ComponentName_display (p_component p) ++ POD_ID_SEPARATOR :: digits
         /\ from_str_radix_16 digits = Some (p_pod p)
         /\ (s = PodName_display p <-> digits = format_hex 15 (p_pod p))).
Proof. destruct p. split; [apply pod_display_parses | apply pod_parses]. Qed.

End Canonical.

(** ** Witnesses *)
Section Witnesses.
#[local] Existing Instance derivative_crate.
#[local] Existing Instance derivative_laws.

Definition some_component : ComponentName :=
  mkComponentName (mkServerName (DomainUuid_new (lit "0123456789abcdef")) (lit "some-server-id"))
    (lit "10.0.456-pre-release5").

Lemma some_component_valid : component_valid some_component.
Proof.
  split_and!; [split; [done |]; apply map_Z_of_byte_range | vm_compute; reflexivity..].
Qed.


Lemma component_roundtrip_witness :
  component (Name_parse (lit "03132333435363738393162636465666:some-server-id@10.0.456-pre-release5"))
  = Done some_component.
Proof.
  apply (component_roundtrip (lit "03132333435363738393162636465666:some-server-id@10.0.456-pre-release5")
    some_component).
  split; [apply some_component_valid | vm_compute; reflexivity].
Defined.

(** The parser takes ["+00A1"] for pod [0xa1]. *)
Lemma pod_names_witness :
  let p := mkPodName some_component 0xa1 in
  let s := ComponentName_display some_component ++ lit "#+00A1" in
  to_pod (Name_parse (PodName_display p)) = Done p
  /\ to_pod (Name_parse s) = Done p /\ s <> PodName_display p /\ component_valid some_component.
Proof.
  set (s := ComponentName_display some_component ++ lit "#+00A1").
  assert (Hs : to_pod (Name_parse s) = Done (mkPodName some_component 0xa1))
    by (vm_compute; reflexivity).
  destruct (pod_names s (mkPodName some_component 0xa1)) as [H1 H2].
  split; [apply H1; [apply some_component_valid | unfold u_range; simpl; lia] |].
  split; [exact Hs |]. split; [vm_compute; discriminate |]. exact (proj1 (H2 Hs)).
Defined.
End Witnesses.
