(* ===== verification/Concurrent.v ===== *)
(** * Concurrent operations

    What [state.rs] and the other effectful parts build on.

    - [PapayaMap]: the lock-free hash map of the [papaya] crate, as a class with the laws its
      documentation gives; [gmap_papaya] instantiates it.
    - [prog]: an operation as a sequence of atomic steps on a shared world, each answered by
      the environment (time, network, timers); a [match] on a result is ordinary Rocq.
    - [Conf], [exec]: operations running side by side, interleaved at every step.
    - [wp]: what a step may assume and must establish while others run.  An operation owns
      tokens; the invariant ties the world to the tokens of all the operations.
    - [ensures]: what an operation by itself leaves; [consult], [yields]: operations whose world
      is the log of what they asked.
    - [same_steps], [lift]: when two operations are the same, and an operation of a component
      as an operation of a program that has the component as a part. *)

From S2P Require Import Prelude.

(** ** [papaya::HashMap] *)
Inductive Operation (V A : Type) :=
| Insert (v : V)
| Remove
| Abort (a : A).
Arguments Insert {V A} v.
Arguments Remove {V A}.
Arguments Abort {V A} a.

Inductive Compute (V A : Type) :=
| Inserted (v : V)
| Updated (old new : V)
| Removed (old : V)
| Aborted (a : A).
Arguments Inserted {V A} v.
Arguments Updated {V A} old new.
Arguments Removed {V A} old.
Arguments Aborted {V A} a.

Class PapayaMap (M : Type -> Type) := {
  pm_new {V} : M V;
  pm_get {V} : M V -> Z -> option V;
  pm_try_insert {V} : M V -> Z -> V -> bool * M V;
  (** The closure returns, beside its operation, what its last invocation wrote to the
      variables it captures.  [None]: the call panics. *)
  pm_compute {V A B} : M V -> Z -> (option V -> Operation V A * B) ->
    option (Compute V A * B * M V);
  pm_iter {V} : M V -> list (Z * V);
}.

(** What [compute] tells its caller; removing an entry that is not there panics. *)
Definition computed {V A} (entry : option V) (op : Operation V A) : option (Compute V A) :=
  match op, entry with
  | Insert v, Some old => Some (Updated old v)
  | Insert v, None => Some (Inserted v)
  | Remove, Some old => Some (Removed old)
  | Remove, None => None
  | Abort a, _ => Some (Aborted a)
  end.

(** The entry afterwards. *)
Definition entry_after {V A} (entry : option V) (op : Operation V A) : option V :=
  match op with
  | Insert v => Some v
  | Remove => None
  | Abort _ => entry
  end.

Class PapayaLaws (M : Type -> Type) {P : PapayaMap M} : Prop := {
  pm_get_new {V} k : pm_get (V := V) pm_new k = None;
  pm_try_insert_spec {V} (m : M V) k v ok m' :
    pm_try_insert m k v = (ok, m') ->
    ok = (match pm_get m k with Some _ => false | None => true end) /\
    forall k', pm_get m' k' = (if decide (k' = k) then if ok then Some v else pm_get m k else pm_get m k');
  (** The closure is applied to the entry and its operation takes effect, atomically. *)
  pm_compute_spec {V A B} (m : M V) k (f : option V -> Operation V A * B) c b m' :
    pm_compute m k f = Some (c, b, m') ->
    b = snd (f (pm_get m k)) /\ computed (pm_get m k) (fst (f (pm_get m k))) = Some c /\
    forall k', pm_get m' k' =
      (if decide (k' = k) then entry_after (pm_get m k) (fst (f (pm_get m k))) else pm_get m k');
  pm_compute_returns {V A B} (m : M V) k (f : option V -> Operation V A * B) :
    is_Some (computed (pm_get m k) (fst (f (pm_get m k)))) -> is_Some (pm_compute m k f);
  pm_iter_spec {V} (m : M V) k v : (k, v) ∈ pm_iter m <-> pm_get m k = Some v;
  pm_iter_nodup {V} (m : M V) : NoDup (pm_iter m).*1;
}.

(** An instance: finite maps, each operation at once. *)
#[export] Instance gmap_papaya : PapayaMap (gmap Z) := {|
  pm_new V := ∅;
  pm_get V m k := m !! k;
  pm_try_insert V m k v := match m !! k with Some _ => (false, m) | None => (true, <[k := v]> m) end;
  pm_compute V A B m k f :=
    let '(op, b) := f (m !! k) in
    c ← computed (m !! k) op;
    Some (c, b, partial_alter (fun entry => entry_after entry op) k m);
  pm_iter V m := map_to_list m;
|}.

#[export] Instance gmap_papaya_laws : PapayaLaws (gmap Z).
Proof.
  constructor; simpl.
  - intros V k. apply lookup_empty.
  - intros V m k v ok m' H. destruct (m !! k) as [old|] eqn:E; injection H as <- <-.
    + split; [done |]. intros k'. case_decide; subst; congruence.
    + split; [done |]. intros k'. case_decide; subst; by simplify_map_eq.
  - intros V A B m k f c b m' H. destruct (f (m !! k)) as [op b'].
    destruct (computed (m !! k) op) as [c'|] eqn:E; simplify_eq/=. split_and!; [done | done |].
    intros k'. case_decide; subst; [by rewrite lookup_partial_alter_eq | by apply lookup_partial_alter_ne].
  - intros V A B m k f [c Hc]. destruct (f (m !! k)) as [op b]. simpl in Hc. rewrite Hc. eauto.
  - intros V m k v. apply elem_of_map_to_list.
  - intros V m. apply NoDup_fst_map_to_list.
Qed.

(** ** Operations as steps *)
Section Prog.
Context (World Answer : Type).

(** [Step f k]: when the environment answers [a], [f a] changes the world at once and returns
    a result ([None]: it cannot happen now), and the operation goes on with [k]. *)
Inductive prog (R : Type) : Type :=
| Ret (r : R)
| Step {B : Type} (f : Answer -> World -> option (B * World)) (k : B -> prog R).

End Prog.
Arguments Ret {World Answer R} r.
Arguments Step {World Answer R B} f k.

Fixpoint pbind {W A R S} (p : prog W A R) (k : R -> prog W A S) : prog W A S :=
  match p with
  | Ret r => k r
  | Step f k' => Step f (fun b => pbind (k' b) k)
  end.

Declare Scope prog_scope.
Delimit Scope prog_scope with prog.
Notation "'do!' x <- p ; q" := (pbind p (fun x => q))
  (at level 10, x pattern, p at level 100, q at level 200) : prog_scope.

(** The [?] operator, in an operation. *)
Definition and_then {W A E R S} (p : prog W A (outcome E R)) (k : R -> prog W A (outcome E S)) : prog W A (outcome E S) :=
  pbind p (fun r => match r with
                    | Done a => k a
                    | Failed e => Ret (Failed e)
                    | Crash c => Ret (Crash c)
                    end).
Notation "'ok!' x <- p ; q" := (and_then p (fun x => q))
  (at level 10, x pattern, p at level 100, q at level 200) : prog_scope.

(** One atomic step. *)
Definition atomic {W A B} (f : A -> W -> option (B * W)) : prog W A B := Step f Ret.

(** An operation with nothing else running, under a list of answers. *)
Fixpoint run_alone {W A R} (p : prog W A R) (answers : list A) (w : W) : option (R * W) :=
  match p, answers with
  | Ret r, _ => Some (r, w)
  | Step f k, a :: answers' => '(b, w') ← f a w; run_alone (k b) answers' w'
  | Step _ _, [] => None
  end.

(** The same under one answer for every step, for as long as it takes. *)
Fixpoint run_with {W A R} (a : A) (p : prog W A R) (w : W) : option (R * W) :=
  match p with
  | Ret r => Some (r, w)
  | Step f k => '(b, w') ← f a w; run_with a (k b) w'
  end.

Lemma run_with_pbind {W A R S} (a : A) (p : prog W A R) (k : R -> prog W A S) w :
  run_with a (pbind p k) w = '(r, w') ← run_with a p w; run_with a (k r) w'.
Proof.
  revert w. induction p as [r|B f j IH]; intros w; simpl; [done |].
  destruct (f a w) as [[b w']|]; simpl; auto.
Qed.

Lemma run_with_alone {W A R} (a : A) (p : prog W A R) w r w' :
  run_with a p w = Some (r, w') -> exists n, run_alone p (replicate n a) w = Some (r, w').
Proof.
  revert w. induction p as [r0|B f k IH]; intros w H; simpl in H; [by exists O |].
  destruct (f a w) as [[b w1]|] eqn:E; [|done]. destruct (IH _ _ H) as [n Hn].
  exists (Datatypes.S n). simpl. by rewrite E.
Qed.

(** Two operations with the same steps and results: equality, but for the functions that go
    on after a step. *)
Fixpoint same_steps {W A R} (p q : prog W A R) : Prop :=
  match p with
  | Ret r => q = Ret r
  | Step f k => exists k', q = Step f k' /\ forall b, same_steps (k b) (k' b)
  end.
Infix "≅" := same_steps (at level 70) : prog_scope.

#[export] Instance same_steps_equivalence {W A R} : Equivalence (@same_steps W A R).
Proof.
  split.
  - intros p. induction p as [r|B f k IH]; simpl; eauto.
  - intros p. induction p as [r|B f k IH]; simpl; intros q H; [by subst |].
    destruct H as (k' & -> & H). simpl. eauto.
  - intros p. induction p as [r|B f k IH]; simpl; intros q s H H'; [by subst |].
    destruct H as (k' & -> & H). simpl in H'. destruct H' as (k'' & -> & H'). eauto.
Qed.

#[export] Instance pbind_proper {W A R S} :
  Proper (same_steps ==> pointwise_relation R same_steps ==> same_steps) (@pbind W A R S).
Proof.
  intros p. induction p as [r|B f j IH]; intros q Hp k k' Hk; simpl in Hp; [subst; apply Hk |].
  destruct Hp as (j' & -> & Hj). simpl. eexists. split; [done |]. intros b. by apply IH.
Qed.

Lemma pbind_pbind {W A R S T} (p : prog W A R) (k : R -> prog W A S) (h : S -> prog W A T) :
  same_steps (pbind (pbind p k) h) (pbind p (fun r => pbind (k r) h)).
Proof. induction p as [r|B f j IH]; simpl; [reflexivity | eauto]. Qed.

Lemma pbind_ret {W A R} (p : prog W A R) : same_steps (pbind p Ret) p.
Proof. induction p as [r|B f j IH]; simpl; eauto. Qed.

Lemma run_alone_same {W A R} (p q : prog W A R) answers w :
  same_steps p q -> run_alone p answers w = run_alone q answers w.
Proof.
  revert q answers w. induction p as [r|B f k IH]; intros q answers w H; simpl in H; [by subst |].
  destruct H as (k' & -> & H). destruct answers as [|a answers]; [done |]. simpl.
  destruct (f a w) as [[b w']|]; simpl; auto.
Qed.

(** ** Operations of a component inside a larger world *)
Section Lift.
Context {W A W' A' : Type} (get : W' -> W) (put : W -> W' -> W') (answer : A' -> A).

Fixpoint lift {R} (p : prog W A R) : prog W' A' R :=
  match p with
  | Ret r => Ret r
  | Step f k =>
      Step (fun a w => '(b, w1) ← f (answer a) (get w); Some (b, put w1 w)) (fun b => lift (k b))
  end.

Lemma lift_pbind {R S} (p : prog W A R) (k : R -> prog W A S) :
  same_steps (lift (pbind p k)) (pbind (lift p) (fun r => lift (k r))).
Proof. induction p as [r|B f j IH]; simpl; [reflexivity | eauto]. Qed.

(** A lifted operation runs as it does by itself, and leaves the rest of the world alone. *)
Lemma run_alone_lift {R} (p : prog W A R) answers w :
  (forall w1 w, get (put w1 w) = w1) -> (forall w, put (get w) w = w) ->
  (forall w1 w2 w, put w2 (put w1 w) = put w2 w) ->
  run_alone (lift p) answers w = '(r, w1) ← run_alone p (answer <$> answers) (get w); Some (r, put w1 w).
Proof.
  intros Hgp Hpg Hpp. revert answers w.
  induction p as [r|B f k IH]; intros answers w; [simpl; by rewrite Hpg |].
  destruct answers as [|a answers]; [done |]. simpl.
  destruct (f (answer a) (get w)) as [[b w1]|]; simpl; [|done]. rewrite IH, Hgp.
  destruct (run_alone (k b) _ w1) as [[r w2]|]; simpl; [by rewrite Hpp | done].
Qed.

Lemma run_with_lift {R} (p : prog W A R) a w :
  (forall w1 w, get (put w1 w) = w1) -> (forall w, put (get w) w = w) ->
  (forall w1 w2 w, put w2 (put w1 w) = put w2 w) ->
  run_with a (lift p) w = '(r, w1) ← run_with (answer a) p (get w); Some (r, put w1 w).
Proof.
  intros Hgp Hpg Hpp. revert w. induction p as [r|B f k IH]; intros w; simpl; [by rewrite Hpg |].
  destruct (f (answer a) (get w)) as [[b w1]|]; simpl; [|done]. rewrite IH, Hgp.
  destruct (run_with _ (k b) w1) as [[r w2]|]; simpl; [by rewrite Hpp | done].
Qed.

End Lift.

(** ** What an operation ensures *)
(** Whatever the environment answers, an operation that returns leaves a result and a world in
    [Q]. *)
Section Ensures.
Context {W A : Type}.

Fixpoint ensures {R} (p : prog W A R) (w : W) (Q : R -> W -> Prop) : Prop :=
  match p with
  | Ret r => Q r w
  | Step f k => forall a b w', f a w = Some (b, w') -> ensures (k b) w' Q
  end.

Lemma ensures_run {R} (p : prog W A R) w Q answers r w' :
  ensures p w Q -> run_alone p answers w = Some (r, w') -> Q r w'.
Proof.
  revert w answers. induction p as [r0|B f k IH]; intros w answers Hp Hr; simpl in *.
  - by injection Hr as <- <-.
  - destruct answers as [|a answers]; [done |]. destruct (f a w) as [[b w1]|] eqn:Ef; [|done]. eapply IH; eauto.
Qed.

Lemma ensures_mono {R} (p : prog W A R) w (Q Q' : R -> W -> Prop) :
  ensures p w Q -> (forall r w', Q r w' -> Q' r w') -> ensures p w Q'.
Proof. revert w. induction p as [r|B f k IH]; simpl; eauto. Qed.

Lemma ensures_pbind {R S} (p : prog W A R) (k : R -> prog W A S) w Q :
  ensures p w (fun r w' => ensures (k r) w' Q) -> ensures (pbind p k) w Q.
Proof. revert w. induction p as [r|B f j IH]; simpl; eauto. Qed.

Lemma ensures_and_then {E R S} (p : prog W A (outcome E R)) (k : R -> prog W A (outcome E S)) w Q :
  ensures p w (fun r w' => match r with
                           | Done a => ensures (k a) w' Q
                           | Failed e => Q (Failed e) w'
                           | Crash c => Q (Crash c) w'
                           end) -> ensures (and_then p k) w Q.
Proof. intros Hp. apply ensures_pbind. eapply ensures_mono; [exact Hp|]. by intros [a|e|c] w' H. Qed.

Lemma ensures_atomic {B} (f : A -> W -> option (B * W)) w (Q : B -> W -> Prop) :
  (forall a b w', f a w = Some (b, w') -> Q b w') -> ensures (atomic f) w Q.
Proof. done. Qed.
End Ensures.

(** ** Operations that only ask
    The world of an operation on something outside is the log of what it asked. *)
Section Logs.
Context {Event Answer : Type}.

(** A step that records what was asked. *)
Definition consult {A} (event : Answer -> Event) (result : Answer -> A) : prog (list Event) Answer A :=
  atomic (fun a log => Some (result a, log ++ [event a])).

(** Whatever the environment answers, the result of the operation and what it has added to the
    log are in [Q]. *)
Fixpoint yields {R} (p : prog (list Event) Answer R) (Q : R -> list Event -> Prop) : Prop :=
  match p with
  | Ret r => Q r []
  | Step f k => forall a log b log', f a log = Some (b, log') ->
      exists es, log' = log ++ es /\ yields (k b) (fun r es' => Q r (es ++ es'))
  end.

Lemma yields_run {R} (p : prog (list Event) Answer R) Q answers log r log' :
  yields p Q -> run_alone p answers log = Some (r, log') -> exists es, log' = log ++ es /\ Q r es.
Proof.
  revert Q answers log. induction p as [r0|B f k IH]; intros Q answers log Hp Hr; simpl in *.
  - injection Hr as <- <-. exists []. by rewrite app_nil_r.
  - destruct answers as [|a answers]; [done |]. destruct (f a log) as [[b log1]|] eqn:Ef; [|done]. simpl in Hr.
    destruct (Hp _ _ _ _ Ef) as (es & -> & Hk). destruct (IH _ _ _ _ Hk Hr) as (es' & -> & HQ).
    exists (es ++ es'). by rewrite app_assoc.
Qed.

Lemma yields_mono {R} (p : prog (list Event) Answer R) (Q Q' : R -> list Event -> Prop) :
  yields p Q -> (forall r es, Q r es -> Q' r es) -> yields p Q'.
Proof.
  revert Q Q'. induction p as [r|B f k IH]; simpl; intros Q Q' Hp HQ; [auto |].
  intros a log b log' Hf. destruct (Hp _ _ _ _ Hf) as (es & -> & Hk). exists es. split; [done |].
  eapply IH; [exact Hk|]. auto.
Qed.

Lemma yields_pbind {R S} (p : prog (list Event) Answer R) (k : R -> prog (list Event) Answer S) Q :
  yields p (fun r es => yields (k r) (fun r' es' => Q r' (es ++ es'))) -> yields (pbind p k) Q.
Proof.
  revert Q. induction p as [r|B f j IH]; simpl; intros Q Hp; [exact Hp |].
  intros a log b log' Hf. destruct (Hp _ _ _ _ Hf) as (es & -> & Hk). exists es. split; [done |].
  apply IH. eapply yields_mono; [exact Hk|]. intros r es' Hr. eapply yields_mono; [exact Hr|].
  intros r' es''. by rewrite app_assoc.
Qed.

Lemma yields_and_then {E A B} (p : prog (list Event) Answer (outcome E A))
    (k : A -> prog (list Event) Answer (outcome E B)) Q :
  yields p (fun r es => match r with
                        | Done a => yields (k a) (fun r' es' => Q r' (es ++ es'))
                        | Failed e => Q (Failed e) es
                        | Crash c => Q (Crash c) es
                        end) -> yields (and_then p k) Q.
Proof.
  intros Hp. apply yields_pbind. eapply yields_mono; [exact Hp|]. intros [a|e|c] es H; simpl; [done | by rewrite app_nil_r..].
Qed.

Lemma yields_consult {A} (event : Answer -> Event) (result : Answer -> A) Q :
  (forall a, Q (result a) [event a]) -> yields (consult event result) Q.
Proof. intros H a log b log' [= <- <-]. exists [event a]. split; [done | apply H]. Qed.
End Logs.

(** ** Interleaving *)
Section Interleaving.
Context {World Answer R Call Happening : Type}
  (program : Call -> prog World Answer R) (happen : Happening -> World -> option World).

Record Conf := mkConf { world : World; threads : list (prog World Answer R) }.

Inductive Event :=
| Invoke (c : Call)
| Schedule (thread : nat) (answer : Answer)
| Happen (h : Happening).

Definition exec_event (e : Event) (c : Conf) : option Conf :=
  match e with
  | Invoke call => Some (mkConf (world c) (threads c ++ [program call]))
  | Schedule i a =>
      match threads c !! i with
      | Some (Step f k) => '(b, w') ← f a (world c); Some (mkConf w' (<[i := k b]> (threads c)))
      | _ => None
      end
  | Happen h => w' ← happen h (world c); Some (mkConf w' (threads c))
  end.

Fixpoint exec (es : list Event) (c : Conf) : option Conf :=
  match es with
  | [] => Some c
  | e :: es' => c' ← exec_event e c; exec es' c'
  end.

(** ** What every step does *)
Fixpoint always (P : World -> World -> Prop) {S} (p : prog World Answer S) : Prop :=
  match p with
  | Ret _ => True
  | Step f k => forall a w b w', f a w = Some (b, w') -> P w w' /\ always P (k b)
  end.

Lemma always_pbind (P : World -> World -> Prop) {S T} (p : prog World Answer S) (k : S -> prog World Answer T) :
  always P p -> (forall r, always P (k r)) -> always P (pbind p k).
Proof.
  intros Hp Hk. induction p as [r|B f k' IH]; simpl in *; [apply Hk |].
  intros a w b w' H. destruct (Hp a w b w' H). auto.
Qed.

Lemma exec_event_always (P : World -> World -> Prop) e c c' :
  (forall w, P w w) -> (forall call, always P (program call)) ->
  (forall h w w', happen h w = Some w' -> P w w') ->
  Forall (always P) (threads c) -> exec_event e c = Some c' ->
  P (world c) (world c') /\ Forall (always P) (threads c').
Proof.
  intros Hr Hc Hh HF H. destruct e as [call|i a|h]; simpl in H.
  - injection H as <-. simpl. split; [done |]. apply Forall_app. auto.
  - destruct (threads c !! i) as [[r|B f k]|] eqn:E; [done | | done].
    destruct (f a (world c)) as [[b w']|] eqn:Ef; simplify_eq/=.
    pose proof (proj1 (Forall_lookup _ _) HF _ _ E) as Hp. simpl in Hp.
    destruct (Hp _ _ _ _ Ef). split; [done |]. by apply Forall_insert.
  - destruct (happen h (world c)) eqn:E; simplify_eq/=. eauto.
Qed.

(** ** How many steps an operation takes *)
Fixpoint steps_within (n : nat) {X} (p : prog World Answer X) {struct p} : Prop :=
  match p with
  | Ret _ => True
  | Step _ k => match n with O => False | S n' => forall b, steps_within n' (k b) end
  end.

Lemma steps_within_le {X} n m (p : prog World Answer X) : steps_within n p -> (n <= m)%nat -> steps_within m p.
Proof.
  revert n m. induction p as [r|B f k IH]; intros n m Hp Hle; simpl in *; [done |].
  destruct n as [|n]; [done |]. destruct m as [|m]; [lia |]. intros b. eapply IH; [apply Hp | lia].
Qed.

Lemma steps_within_pbind {X Y} n m (p : prog World Answer X) (k : X -> prog World Answer Y) :
  steps_within n p -> (forall r, steps_within m (k r)) -> steps_within (n + m) (pbind p k).
Proof.
  revert n. induction p as [r|B f k' IH]; intros n Hp Hk; simpl in *; [eapply steps_within_le; [apply Hk | lia] |].
  destruct n as [|n]; [done |]. intros b. by apply IH.
Qed.

Definition schedules (es : list Event) : nat :=
  length (List.filter (fun e => match e with Schedule _ _ => true | _ => false end) es).
Definition invokes (es : list Event) : nat :=
  length (List.filter (fun e => match e with Invoke _ => true | _ => false end) es).

Lemma sum_list_insert ns i n m : ns !! i = Some n -> (sum_list (<[i := m]> ns) + n = sum_list ns + m)%nat.
Proof.
  revert i. induction ns as [|n' ns IH]; intros [|i] H; simplify_eq/=; [lia |]. specialize (IH _ H). lia.
Qed.

(** Every call takes its steps and no more. *)
Lemma exec_steps N es c c' ns :
  (forall call, steps_within N (program call)) ->
  Forall2 (fun n p => steps_within n p) ns (threads c) -> exec es c = Some c' ->
  exists ns', Forall2 (fun n p => steps_within n p) ns' (threads c') /\ (schedules es + sum_list ns' <= N * invokes es + sum_list ns)%nat.
Proof.
  intros HN. revert c ns. induction es as [|e es IH]; intros c ns HF H; simpl in H.
  { injection H as <-. exists ns. split; [done |]. unfold schedules, invokes. simpl. lia. }
  destruct (exec_event e c) as [c1|] eqn:E; [|done]. simpl in H. destruct e as [call|i a|h]; simpl in E.
  - injection E as <-. destruct (IH (mkConf (world c) (threads c ++ [program call])) (ns ++ [N])%list)
      as (ns' & HF' & Hle); [|exact H|].
    + simpl. apply Forall2_app; [done |]. by constructor.
    + exists ns'. split; [done |]. rewrite sum_list_with_app in Hle. unfold schedules, invokes in *. simpl in *. lia.
  - destruct (threads c !! i) as [[r|B f k]|] eqn:Et; [done | | done].
    destruct (f a (world c)) as [[b w']|]; simplify_eq/=.
    destruct (Forall2_lookup_r _ _ _ _ _ HF Et) as (n & En & Hp). destruct n as [|n]; [done |].
    destruct (IH (mkConf w' (<[i := k b]> (threads c))) (<[i := n]> ns)) as (ns' & HF' & Hle); [|exact H|].
    + simpl. apply Forall2_insert; [done | apply Hp].
    + exists ns'. split; [done |]. pose proof (sum_list_insert ns i (S n) n En).
      unfold schedules, invokes in *. simpl in *. lia.
  - destruct (happen h (world c)); simplify_eq/=. eapply IH in H as (ns' & HF' & Hle); [|exact HF].
    exists ns'. split; [done |]. unfold schedules, invokes in *. simpl in *. lia.
Qed.

(** ** What a step may assume *)
(** A result, with nothing left to own. *)
Definition returns_good {Tok} (Good : R -> Prop) (r : R) (own : list Tok) : Prop := own = [] /\ Good r.

Section Logic.
Context {Tok : Type} (Inv : nat -> World -> list Tok -> Prop)
  (bound : nat -> Prop) (Stuck : World -> list Tok -> Prop)
  (bound_pred : forall n, bound (S n) -> bound n).

(** [Inv n w toks]: the invariant [n] events after the start, with the tokens of all the
    operations; it is kept up to a [bound] of events.  [wp p own Q]: from an operation that
    holds [own], every step keeps the invariant whatever the others hold, is blocked only
    where it may be [Stuck], and [Q] holds of the result. *)
Fixpoint wp {X} (p : prog World Answer X) (own : list Tok) (Q : X -> list Tok -> Prop) : Prop :=
  match p with
  | Ret r => Q r own
  | Step f k => forall n a w rest,
      bound (S n) -> Inv n w (own ++ rest) ->
      match f a w with
      | None => Stuck w own
      | Some (b, w') => exists own', Inv (S n) w' (own' ++ rest) /\ wp (k b) own' Q
      end
  end.

Lemma wp_pbind {X Y} (p : prog World Answer X) (k : X -> prog World Answer Y) own Q Q' :
  wp p own Q' -> (forall r own', Q' r own' -> wp (k r) own' Q) -> wp (pbind p k) own Q.
Proof.
  intros Hp Hk. revert own Hp. induction p as [r|B f k' IH]; intros own Hp; simpl in *; [auto |].
  intros n a w rest Hn HI. specialize (Hp n a w rest Hn HI). destruct (f a w) as [[b w']|]; [|done].
  destruct Hp as (own' & HI' & Hw). eauto.
Qed.

Lemma wp_atomic {B} (f : Answer -> World -> option (B * World)) own Q :
  (forall w, Stuck w own) ->
  (forall n a w rest b w', bound (S n) -> Inv n w (own ++ rest) -> f a w = Some (b, w') ->
    exists own', Inv (S n) w' (own' ++ rest) /\ Q b own') -> wp (atomic f) own Q.
Proof. intros Hs H n a w rest Hn HI. destruct (f a w) as [[b w']|] eqn:E; [by eapply H | done]. Qed.

(** A step that is never blocked. *)
Lemma wp_step {B} (f : Answer -> World -> option (B * World)) own Q :
  (forall n a w rest, bound (S n) -> Inv n w (own ++ rest) ->
    exists b w' own', f a w = Some (b, w') /\ Inv (S n) w' (own' ++ rest) /\ Q b own') -> wp (atomic f) own Q.
Proof. intros H n a w rest Hn HI. destruct (H n a w rest Hn HI) as (b & w' & own' & -> & ? & ?). by exists own'. Qed.

Lemma wp_mono {X} (p : prog World Answer X) own Q Q' :
  wp p own Q -> (forall r own', Q r own' -> Q' r own') -> wp p own Q'.
Proof.
  intros Hp HQ. revert own Hp. induction p as [r|B f k IH]; intros own Hp; simpl in *; [auto |].
  intros n a w rest Hn HI. specialize (Hp n a w rest Hn HI). destruct (f a w) as [[b w']|]; [|done].
  destruct Hp as (own' & ? & ?). eauto.
Qed.

(** All the operations of a configuration, and what they return. *)
Context (Good : R -> list Tok -> Prop).

Definition conf_ok (n : nat) (c : Conf) : Prop :=
  exists owns, Forall2 (fun p own => wp p own Good) (threads c) owns
    /\ Inv n (world c) (concat owns).

Context (Inv_perm : forall n w t t', t ≡ₚ t' -> Inv n w t -> Inv n w t')
  (Inv_tick : forall n w t, Inv n w t -> Inv (S n) w t)
  (Inv_happen : forall n h w w' t, Inv n w t -> happen h w = Some w' -> Inv (S n) w' t)
  (program_wp : forall call, wp (program call) [] Good).

Lemma exec_event_ok n e c c' :
  bound (S n) -> conf_ok n c -> exec_event e c = Some c' -> conf_ok (S n) c'.
Proof.
  intros Hn (owns & HF & HI) H. destruct e as [call|i a|h]; simpl in H.
  - injection H as <-. exists (owns ++ [[]]). simpl. split.
    + apply Forall2_app; [done |]. constructor; [apply program_wp | constructor].
    + rewrite concat_app. simpl. rewrite app_nil_r. auto.
  - destruct (threads c !! i) as [[r|B f k]|] eqn:E; [done | | done].
    destruct (f a (world c)) as [[b w']|] eqn:Ef; simplify_eq/=.
    destruct (Forall2_lookup_l _ _ _ _ _ HF E) as (own & Eo & Hp). simpl in Hp.
    assert (Hsplit : forall o, concat (<[i := o]> owns) ≡ₚ
        o ++ concat (take i owns) ++ concat (drop (S i) owns)).
    { intros o. rewrite insert_take_drop by (by eapply lookup_lt_Some).
      rewrite concat_app. simpl. by rewrite app_assoc, (Permutation_app_comm _ o), <- app_assoc. }
    specialize (Hp n a (world c) (concat (take i owns) ++ concat (drop (S i) owns)) Hn).
    rewrite Ef in Hp. destruct Hp as (own' & HI' & Hw).
    { eapply Inv_perm; [|exact HI]. by rewrite <- (Hsplit own), list_insert_id. }
    exists (<[i := own']> owns). simpl. split; [by apply Forall2_insert |].
    eapply Inv_perm; [symmetry; apply Hsplit | exact HI'].
  - destruct (happen h (world c)) as [w'|] eqn:E; simplify_eq/=. exists owns. eauto.
Qed.

(** A thread that has not returned takes its step, or may be stuck. *)
Lemma owner_step n c owns i own a B f (k : B -> prog World Answer R) :
  bound (S n) -> Forall2 (fun p own => wp p own Good) (threads c) owns -> Inv n (world c) (concat owns) ->
  threads c !! i = Some (Step f k) -> owns !! i = Some own ->
  is_Some (exec_event (Schedule i a) c) \/ Stuck (world c) own.
Proof.
  intros Hn HF HI E Eo. simpl. rewrite E.
  pose proof (Forall2_lookup_lr _ _ _ _ _ _ HF E Eo) as Hp. simpl in Hp.
  specialize (Hp n a (world c) (concat (take i owns) ++ concat (drop (S i) owns)) Hn).
  destruct (f a (world c)) as [[b w']|]; [left; simpl; eauto | right].
  apply Hp. eapply Inv_perm; [|exact HI]. rewrite <- (list_insert_id owns i own Eo) at 1.
  rewrite insert_take_drop by (by eapply lookup_lt_Some).
  rewrite concat_app. simpl. by rewrite app_assoc, (Permutation_app_comm _ own), <- app_assoc.
Qed.

Lemma exec_ok es n c c' :
  bound (n + length es) -> conf_ok n c -> exec es c = Some c' -> conf_ok (n + length es) c'.
Proof.
  revert n c. induction es as [|e es IH]; intros n c Hn Hc H; simpl in H.
  - injection H as <-. by rewrite Nat.add_0_r.
  - destruct (exec_event e c) as [c1|] eqn:E; simplify_eq/=.
    rewrite <- Nat.add_succ_comm in *. eapply IH; [exact Hn | | exact H].
    eapply exec_event_ok; [|done..]. clear -Hn bound_pred.
    induction (length es) as [|m IH]; [by rewrite Nat.add_0_r in Hn |].
    apply IH, bound_pred. by rewrite Nat.add_succ_r in Hn.
Qed.

End Logic.
End Interleaving.

(** Threads that have all returned, or one that has not. *)
Lemma all_returned {W A R} (ts : list (prog W A R)) :
  (forall p, p ∈ ts -> exists r, p = Ret r) \/ exists i B f (k : B -> prog W A R), ts !! i = Some (Step f k).
Proof.
  induction ts as [|p ts IH]; [by left; intros p ?%elem_of_nil |].
  destruct IH as [IH|(i & B & f & k & E)]; [|right; by exists (S i), B, f, k].
  destruct p as [r|B f k]; [left | right; by exists 0%nat, B, f, k].
  intros q [->|Hq]%elem_of_cons; [by exists r | by apply IH].
Qed.

(** Only the calls that are made matter. *)
Lemma exec_same_program {W A R Call H} (program program' : Call -> prog W A R) (happen : H -> W -> option W) es c :
  (forall call, Invoke call ∈ es -> program call = program' call) ->
  exec program happen es c = exec program' happen es c.
Proof.
  revert c. induction es as [|e es IH]; intros c He; simpl; [done |].
  assert (E : exec_event program happen e c = exec_event program' happen e c).
  { destruct e as [call|i a|h]; simpl; [|done|done]. by rewrite He by left. }
  rewrite E. destruct (exec_event program' happen e c); simpl; [|done]. apply IH. intros call Hc. apply He. by right.
Qed.
