(* ===== verification/Files.v ===== *)
(** * Files and directories

    What [containers.rs] uses of [std::fs]: a tree of directories and files below one root,
    which exists; a path is the list of its components below it.  A file has an identity (its
    inode): truncating it keeps it, and a file that is removed while it is open stays
    readable.  Each operation is one step and may fail as the environment pleases. *)

From S2P Require Import Prelude Regexp.

#[local] Open Scope Z_scope.

Abbreviation path := (list str) (only parsing).

Inductive Node := Dir | File (inode : nat) (content : list byte).

Record Disk := mkDisk {
  tree : gmap path Node;
  unlinked : gmap nat (list byte);
  next_inode : nat;
}.

(** [std::io::ErrorKind] *)
Inductive ErrorKind := NotFound | UnexpectedEof | OtherKind.
#[export] Instance ErrorKind_eq_dec : EqDecision ErrorKind.
Proof. solve_decision. Defined.

(** An open file: its path when it was opened, and its identity. *)
Record Handle := mkHandle { h_path : list str; h_inode : nat }.

Definition empty_disk : Disk := mkDisk ∅ ∅ 0.

Definition set_node (p : path) (n : Node) (d : Disk) : Disk :=
  mkDisk (<[p := n]> (tree d)) (unlinked d) (next_inode d).

(** ** Paths *)
(** [Path::parent], below the root. *)
Definition parent (p : path) : path := take (length p - 1) p.

(** [Path::ancestors], the path itself first, the root left out. *)
Fixpoint ancestors_from (n : nat) (p : path) : list path :=
  match n with
  | O => []
  | S n' => p :: ancestors_from n' (parent p)
  end.
Definition ancestors (p : path) : list path := ancestors_from (length p) p.

(** ** Operations *)
Definition IoResult (A : Type) : Type := outcome ErrorKind A * Disk.

(** [Path::exists] *)
Definition path_exists (p : path) (d : Disk) : bool :=
  match p with [] => true | _ => bool_decide (is_Some (tree d !! p)) end.

(** [create_dir_all]: the missing directories, from the top. *)
Fixpoint make_dirs (ps : list path) (d : Disk) : IoResult unit :=
  match ps with
  | [] => (Done tt, d)
  | p :: ps' =>
      match tree d !! p with
      | Some (File _ _) => (Failed OtherKind, d)
      | Some Dir => make_dirs ps' d
      | None => make_dirs ps' (set_node p Dir d)
      end
  end.
Definition create_dir_all (p : path) (d : Disk) : IoResult unit := make_dirs (rev (ancestors p)) d.

Definition is_dir (p : path) (d : Disk) : bool :=
  match p, tree d !! p with [], _ => true | _, Some Dir => true | _, _ => false end.

(** [File::create] *)
Definition file_create (p : path) (d : Disk) : IoResult Handle :=
  match tree d !! p with
  | Some (File i _) => (Done (mkHandle p i), set_node p (File i []) d)
  | Some Dir => (Failed OtherKind, d)
  | None =>
      if is_dir (parent p) d then
        (Done (mkHandle p (next_inode d)),
         mkDisk (<[p := File (next_inode d) []]> (tree d)) (unlinked d) (S (next_inode d)))
      else (Failed NotFound, d)
  end.

(** [File::open] *)
Definition file_open (p : path) (d : Disk) : IoResult Handle :=
  match tree d !! p with
  | Some (File i _) => (Done (mkHandle p i), d)
  | Some Dir => (Failed OtherKind, d)
  | None => (Failed NotFound, d)
  end.

(** The bytes an open file has now. *)
Definition content_of (h : Handle) (d : Disk) : list byte :=
  match tree d !! h_path h with
  | Some (File i c) => if decide (i = h_inode h) then c else default [] (unlinked d !! h_inode h)
  | _ => default [] (unlinked d !! h_inode h)
  end.

(** [write_all], by the only writer of the file: at its end. *)
Definition append (h : Handle) (bs : list byte) (d : Disk) : Disk :=
  match tree d !! h_path h with
  | Some (File i c) => if decide (i = h_inode h) then set_node (h_path h) (File i (c ++ bs)) d else d
  | _ => d
  end.

(** [read_exact] of [n] bytes, and [read_to_end], from an offset. *)
Definition read_exact (h : Handle) (offset n : nat) (d : Disk) : IoResult (list byte) :=
  let bs := take n (drop offset (content_of h d)) in
  if (length bs =? n)%nat then (Done bs, d) else (Failed UnexpectedEof, d).
Definition read_to_end (h : Handle) (offset : nat) (d : Disk) : IoResult (list byte) :=
  (Done (drop offset (content_of h d)), d).

(** [metadata(path)?.len()]; the size of a directory is up to the environment. *)
Definition file_len (dir_size : Z) (p : path) (d : Disk) : IoResult Z :=
  match tree d !! p with
  | Some (File _ c) => (Done (Z.of_nat (length c)), d)
  | Some Dir => (Done dir_size, d)
  | None => (Failed NotFound, d)
  end.

(** [remove_file] *)
Definition remove_file (p : path) (d : Disk) : IoResult unit :=
  match tree d !! p with
  | Some (File i c) => (Done tt, mkDisk (delete p (tree d)) (<[i := c]> (unlinked d)) (next_inode d))
  | Some Dir => (Failed OtherKind, d)
  | None => (Failed NotFound, d)
  end.

Definition has_children (p : path) (d : Disk) : bool :=
  existsb (fun '(q, _) => bool_decide (q <> [] /\ parent q = p)) (map_to_list (tree d)).

(** [remove_dir] *)
Definition remove_dir (p : path) (d : Disk) : IoResult unit :=
  match tree d !! p with
  | Some Dir => if has_children p d then (Failed OtherKind, d)
                else (Done tt, mkDisk (delete p (tree d)) (unlinked d) (next_inode d))
  | Some (File _ _) => (Failed OtherKind, d)
  | None => (Failed NotFound, d)
  end.

(** ** How much is stored *)
Definition node_bytes (n : Node) : Z := match n with Dir => 0 | File _ c => Z.of_nat (length c) end.
Definition stored_bytes (d : Disk) : Z := map_fold (fun _ n acc => node_bytes n + acc) 0 (tree d).
Definition stored_inodes (d : Disk) : Z := Z.of_nat (size (tree d)).
