(* ===== verification/FilesSpec.v ===== *)
(** * Facts about disks

    What each operation of [Files] does to the tree, to how much is stored, and to
    well-formedness. *)

From S2P Require Import Prelude Regexp Files.

#[local] Open Scope Z_scope.

(** ** Paths *)
Lemma parent_snoc p x : parent (p ++ [x]) = p.
Proof. unfold parent. rewrite length_app. simpl. by rewrite Nat.add_sub, take_app_length. Qed.

Lemma parent_inv p q : q <> [] -> parent q = p -> exists x, q = p ++ [x].
Proof.
  destruct q as [|x q _] using rev_ind; [done |]. intros _ <-. rewrite parent_snoc. eauto.
Qed.

(** ** Sizes *)
Definition total (m : gmap (list str) Node) : Z := map_fold (fun _ n acc => node_bytes n + acc) 0 m.

Lemma total_insert_new m p n : m !! p = None -> total (<[p := n]> m) = node_bytes n + total m.
Proof. intros H. unfold total.
  rewrite (map_fold_insert_L (fun _ n acc => node_bytes n + acc)); [done | intros; lia | done]. Qed.

Lemma total_delete m p : total (delete p m) = total m - match m !! p with Some n => node_bytes n | None => 0 end.
Proof.
  destruct (m !! p) as [n|] eqn:E; [|rewrite delete_id by done; lia].
  rewrite <- (insert_id m p n E) at 2. rewrite <- insert_delete_eq.
  rewrite total_insert_new by apply lookup_delete_eq. lia.
Qed.

Lemma total_insert m p n :
  total (<[p := n]> m) = total m + node_bytes n - match m !! p with Some n => node_bytes n | None => 0 end.
Proof.
  rewrite <- insert_delete_eq, total_insert_new by apply lookup_delete_eq. rewrite total_delete. lia.
Qed.

Lemma total_nonneg m : 0 <= total m.
Proof.
  unfold total. apply (map_fold_weak_ind (fun r _ => 0 <= r)); [lia |].
  intros p n m' r _ IH. destruct n; simpl; lia.
Qed.

Lemma count_insert {A} (m : gmap (list str) A) p n :
  Z.of_nat (size (<[p := n]> m)) = Z.of_nat (size m) + 1 - match m !! p with Some _ => 1 | None => 0 end.
Proof. rewrite map_size_insert. destruct (m !! p); unfold id; lia. Qed.

Lemma count_delete {A} (m : gmap (list str) A) p :
  Z.of_nat (size (delete p m)) = Z.of_nat (size m) - match m !! p with Some _ => 1 | None => 0 end.
Proof.
  rewrite map_size_delete. destruct (m !! p) eqn:E; unfold id; [|lia].
  enough (size m <> 0)%nat by lia. intros H%map_size_empty_inv. subst. by rewrite lookup_empty in E.
Qed.

(** ** Children *)
Lemma has_children_spec p d :
  has_children p d = true <-> exists q n, tree d !! q = Some n /\ q <> [] /\ parent q = p.
Proof.
  unfold has_children. rewrite existsb_exists. split.
  - intros ([q n] & Hin & [Hne Hq]%bool_decide_eq_true). exists q, n. split; [|done].
    by apply elem_of_map_to_list, list_elem_of_In.
  - intros (q & n & Hq & Hne & Hp). exists (q, n). split; [by apply list_elem_of_In, elem_of_map_to_list |].
    by apply bool_decide_eq_true.
Qed.

Lemma remove_dir_empty p d :
  tree d !! p = Some Dir -> has_children p d = false ->
  remove_dir p d = (Done tt, mkDisk (delete p (tree d)) (unlinked d) (next_inode d)).
Proof. intros H Hc. unfold remove_dir. by rewrite H, Hc. Qed.

(** ** Making directories *)
Definition add_dir (m : gmap (list str) Node) (p : list str) : gmap (list str) Node :=
  match m !! p with None => <[p := Dir]> m | Some _ => m end.

Lemma add_dir_lookup m p q :
  add_dir m p !! q = match m !! q with Some n => Some n | None => if decide (q = p) then Some Dir else None end.
Proof.
  unfold add_dir. destruct (m !! p) eqn:E.
  - destruct (m !! q) eqn:Eq; [done |]. case_decide; [congruence | done].
  - destruct (decide (q = p)) as [->|Hne]; [by rewrite lookup_insert_eq, E |].
    rewrite lookup_insert_ne by done. by destruct (m !! q).
Qed.

Lemma add_dir_total m p : total (add_dir m p) = total m.
Proof. unfold add_dir. destruct (m !! p) eqn:E; [done |]. by rewrite total_insert_new. Qed.

Lemma add_dir_count m p :
  Z.of_nat (size (add_dir m p)) = Z.of_nat (size m) + match m !! p with Some _ => 0 | None => 1 end.
Proof. unfold add_dir. destruct (m !! p) eqn:E; [lia |]. rewrite count_insert, E. lia. Qed.

Definition all_dirs (ps : list (list str)) (m : gmap (list str) Node) : Prop :=
  forall p, p ∈ ps -> m !! p = None \/ m !! p = Some Dir.

Lemma make_dirs_done ps d :
  all_dirs ps (tree d) ->
  make_dirs ps d = (Done tt, mkDisk (fold_left add_dir ps (tree d)) (unlinked d) (next_inode d)).
Proof.
  revert d. induction ps as [|p ps IH]; intros d Hd; simpl; [by destruct d |].
  destruct (Hd p ltac:(by left)) as [E|E]; unfold add_dir; rewrite E.
  - rewrite IH; [done |]. intros q Hq. simpl. destruct (decide (q = p)) as [->|Hne].
    + right. apply lookup_insert_eq.
    + rewrite lookup_insert_ne by done. apply Hd. by right.
  - rewrite IH; [done |]. intros q Hq. apply Hd. by right.
Qed.

(** ** The layout of an image store

    Directories at depths one to three, files at depth four with names from a list; the
    parent of everything is there, no directory is empty (but for some), and a directory that
    holds one of the files holds them all. *)
Section Layout.
Context (file_names : list str).

Record sound_but (holes : list (list str)) (m : gmap (list str) Node) : Prop := mkSound {
  s_dir p : m !! p = Some Dir -> (1 <= length p <= 3)%nat;
  s_file p i c : m !! p = Some (File i c) -> length p = 4%nat /\ exists f, f ∈ file_names /\ p = parent p ++ [f];
  s_parent p n : m !! p = Some n -> parent p = [] \/ m !! parent p = Some Dir;
  s_tidy p : p ∉ holes -> m !! p = Some Dir -> exists q n, m !! q = Some n /\ q <> [] /\ parent q = p;
  s_all p i c f : m !! p = Some (File i c) -> f ∈ file_names -> is_Some (m !! (parent p ++ [f]));
}.
Abbreviation sound := (sound_but []).

Lemma length_parent p : length (parent p) = (length p - 1)%nat.
Proof. unfold parent. rewrite length_take. lia. Qed.

(** A sound tree is determined by its files. *)
Lemma sound_unique m m' :
  sound m -> sound m' -> (forall p i c, m !! p = Some (File i c) <-> m' !! p = Some (File i c)) -> m = m'.
Proof.
  assert (Hsub : forall m m', sound m -> sound m' ->
    (forall p i c, m !! p = Some (File i c) -> m' !! p = Some (File i c)) ->
    forall k p, (4 - length p <= k)%nat -> m !! p = Some Dir -> m' !! p = Some Dir).
  { clear. intros m m' Hm Hm' Hf k. induction k as [|k IH]; intros p Hk Hp.
    - apply (s_dir _ _ Hm) in Hp. lia.
    - pose proof (s_dir _ _ Hm _ Hp) as Hl. destruct (s_tidy _ _ Hm _ (not_elem_of_nil _) Hp) as (q & n & Hq & Hne & Hpq).
      assert (Hq' : exists n, m' !! q = Some n).
      { destruct n as [|i c]; [|eauto]. exists Dir. apply IH; [|done].
        pose proof (length_parent q). rewrite Hpq in *. lia. }
      destruct Hq' as [n' Hq']. destruct (s_parent _ _ Hm' _ _ Hq') as [H|H]; rewrite Hpq in H; [|done].
      subst p. rewrite H in Hl. simpl in Hl. lia. }
  intros Hm Hm' Hf. apply map_eq. intros p.
  destruct (m !! p) as [[|i c]|] eqn:E.
  - symmetry. eapply (Hsub m m' Hm Hm'); [by intros; apply Hf | done | done].
  - symmetry. by apply Hf.
  - destruct (m' !! p) as [[|i c]|] eqn:E'; [| |done].
    + rewrite (Hsub m' m Hm' Hm ltac:(by intros; apply Hf) _ p (le_n _) E') in E. done.
    + apply Hf in E'. congruence.
Qed.

Lemma sound_empty : sound ∅.
Proof. constructor; intros *; by rewrite lookup_empty. Qed.

Lemma sound_filled p m :
  sound_but [p] m -> (m !! p = Some Dir -> exists q n, m !! q = Some n /\ q <> [] /\ parent q = p) -> sound m.
Proof.
  intros Hm Hp. constructor; try apply Hm. intros q _ Hq. destruct (decide (q = p)) as [->|Hne]; [auto |].
  apply (s_tidy _ _ Hm); [by rewrite list_elem_of_singleton | done].
Qed.

Lemma sound_delete_dir p m :
  sound_but [p] m -> m !! p = Some Dir -> (forall q n, m !! q = Some n -> q <> [] -> parent q <> p) ->
  sound_but [parent p] (delete p m).
Proof.
  intros Hm Hp Hc. constructor.
  - intros q [_ Hq]%lookup_delete_Some. by apply (s_dir _ _ Hm).
  - intros q i c [_ Hq]%lookup_delete_Some. by apply (s_file _ _ Hm _ i c).
  - intros q n [Hne Hq]%lookup_delete_Some. destruct (s_parent _ _ Hm _ _ Hq) as [|H]; [by left |].
    destruct (decide (q = [])) as [->|Hq0]; [by left |].
    right. rewrite lookup_delete_ne; [done |]. intros ->. by apply (Hc q n).
  - intros q Hq%not_elem_of_cons [Hne Hd]%lookup_delete_Some.
    destruct (s_tidy _ _ Hm q) as (r & n & Hr & Hr0 & Hpr); [rewrite list_elem_of_singleton; congruence | done |].
    exists r, n. split; [|done]. rewrite lookup_delete_ne; [done |]. intros <-. by destruct Hq.
  - intros q i c f [_ Hq]%lookup_delete_Some Hf. destruct (s_all _ _ Hm _ _ _ _ Hq Hf) as [n Hn].
    exists n. rewrite lookup_delete_ne; [done |]. intros E. apply (Hc (parent q ++ [f]) n Hn); [by destruct (parent q) |].
    exfalso. apply (s_dir _ _ Hm) in Hp. apply (s_file _ _ Hm) in Hq as [Hl _].
    rewrite E, length_app, length_parent in Hp. simpl in Hp. lia.
Qed.

(** Without the files of a directory, only that directory may be empty. *)
Lemma sound_delete_files v m m' :
  sound m ->
  (forall p, m' !! p = if decide (parent p = v /\ length p = 4%nat) then None else m !! p) -> length v = 3%nat ->
  sound_but [v] m'.
Proof.
  intros Hm H Hv. assert (Hin : forall p n, m' !! p = Some n -> m !! p = Some n).
  { intros p n. rewrite H. by case_decide. }
  constructor.
  - intros p Hp%Hin. by apply (s_dir _ _ Hm).
  - intros p i c Hp%Hin. by apply (s_file _ _ Hm _ i c).
  - intros p n Hp%Hin. destruct (s_parent _ _ Hm _ _ Hp) as [|Hd]; [by left |]. right.
    rewrite H, decide_False; [done |]. intros [_ Hl]. apply (s_dir _ _ Hm) in Hd. lia.
  - intros p Hp%not_elem_of_cons Hd%Hin. destruct (s_tidy _ _ Hm p) as (q & n & Hq & Hq0 & Hpq);
      [apply not_elem_of_nil | done |]. exists q, n. split; [|done]. rewrite H, decide_False; [done |].
    intros [Hqv _]. rewrite Hpq in Hqv. by destruct Hp.
  - intros p i c f Hp Hf. rewrite H in Hp. case_decide as Hd; [done |].
    destruct (s_all _ _ Hm _ _ _ _ Hp Hf) as [n Hn]. exists n. rewrite H, decide_False; [done |].
    intros [Hpv _]. rewrite parent_snoc in Hpv. apply Hd. split; [done |]. by apply (s_file _ _ Hm) in Hp as [? _].
Qed.

End Layout.
