(* ===== verification/State.v ===== *)
(** * The pod state machine

    Models [src/runtime/state.rs]: the pod map, the lifecycle of a pod and its container, and
    the calls that drive it, each as a [prog]: a sequence of atomic steps (a [compute] on the
    map, a socket bind, an await) between which other calls run.

    Shared objects have identities in the [World]: a routes future (shared by clones of a
    pod), a single-use killer cell, a server task.  Time, the outcome of initialising a pod,
    of binding, of a timeout and of the IPAM plugin come from the environment's [Answer].
    Logging is not modelled. *)

From S2P Require Import Prelude Regexp Names Concurrent.

#[local] Open Scope Z_scope.

(** ** Data *)
Module PodState.
Inductive t := Initiated | Created | Starting | Running | Stopped | Removed | Killed.
End PodState.

#[export] Instance PodState_eq_dec : EqDecision PodState.t.
Proof. solve_decision. Defined.

(** The messages of [api.proto] the runtime stores. *)
Record PodSandboxMetadata := mkPodSandboxMetadata {
  psm_name : string; psm_uid : string; psm_namespace : string; psm_attempt : Z }.
Record ContainerMetadata := mkContainerMetadata { cm_name : string; attempt : Z }.
Record ImageSpec := mkImageSpec {
  image : string; image_annotations : gmap string string;
  user_specified_image : string; runtime_handler : string }.

#[export] Instance PodSandboxMetadata_eq_dec : EqDecision PodSandboxMetadata.
Proof. solve_decision. Defined.
#[export] Instance ContainerMetadata_eq_dec : EqDecision ContainerMetadata.
Proof. solve_decision. Defined.
#[export] Instance ImageSpec_eq_dec : EqDecision ImageSpec.
Proof. solve_decision. Defined.

(** [std::net::IpAddr] *)
Inductive IpAddr := V4 (bits : Z) | V6 (bits : Z).
#[export] Instance IpAddr_eq_dec : EqDecision IpAddr.
Proof. solve_decision. Defined.

Record IpAddress := mkIpAddress { address : IpAddr; prefix_length : Z; ip_pod_name : PodName }.

(** A routes future, a killer cell, a server: by identity. *)
Abbreviation future_id := nat (only parsing).
Abbreviation cell_id := nat (only parsing).
Abbreviation server_id := nat (only parsing).

Record Pod := mkPod {
  state : PodState.t;
  ip_address : IpAddress;
  component_name : ComponentName;
  pod_sandbox_metadata : PodSandboxMetadata;
  pod_labels : gmap string string;
  pod_annotations : gmap string string;
  pod_created_at : Z;
  routes : option future_id;
  container_created_at : Z;
  container_metadata : option ContainerMetadata;
  container_labels : gmap string string;
  container_annotations : gmap string string;
  environment : gmap string string;
  image_spec : option ImageSpec;
  container_started_at : Z;
  killer : cell_id;
  container_finished_at : Z;
}.

(** [pod.state = s] on a clone, and so on. *)
Definition with_state (s : PodState.t) (p : Pod) : Pod :=
  mkPod s (ip_address p) (component_name p) (pod_sandbox_metadata p) (pod_labels p)
    (pod_annotations p) (pod_created_at p) (routes p) (container_created_at p)
    (container_metadata p) (container_labels p) (container_annotations p) (environment p)
    (image_spec p) (container_started_at p) (killer p) (container_finished_at p).

Definition with_container (r : option future_id) (created_at : Z) (m : option ContainerMetadata)
    (labels annotations env : gmap string string) (image : option ImageSpec) (p : Pod) : Pod :=
  mkPod (state p) (ip_address p) (component_name p) (pod_sandbox_metadata p) (pod_labels p)
    (pod_annotations p) (pod_created_at p) r created_at m labels annotations env image
    (container_started_at p) (killer p) (container_finished_at p).

Definition with_server (started_at : Z) (k : cell_id) (p : Pod) : Pod :=
  mkPod (state p) (ip_address p) (component_name p) (pod_sandbox_metadata p) (pod_labels p)
    (pod_annotations p) (pod_created_at p) (routes p) (container_created_at p)
    (container_metadata p) (container_labels p) (container_annotations p) (environment p)
    (image_spec p) started_at k (container_finished_at p).

(** An error from initialising a pod or from the IPAM plugin, by its message. *)
Abbreviation message := string (only parsing).

Inductive StateError :=
| PodIdCollision (id : Z)
| DifferentParameters
| BadPriorState (s : PodState.t)
| PodNotFound
| ContainerNotFound
| RoutesMissing            (** "routes future should exist after container creation" *)
| RoutesAbsent             (** "routes absent after checking" *)
| JugglingRoutes           (** "juggling routes future" *)
| StateMachineImpossible   (** "State machine logical impossibility" *)
| FailedStarting (cause : message)
| FailedStartingLogged
| RestartNotImplemented
| FailedBinding
| StateChangedWhileStarting (s : PodState.t)
| DisappearedWhileStarting
| Unkillable
| IpamFailed (cause : message)
| VimanaLabels.

#[export] Instance StateError_eq_dec : EqDecision StateError.
Proof. solve_decision. Defined.

(** The result of a routes future; the error is [SingleUse]. *)
Inductive InitResult := InitOk | InitErr (cell : option message).
Inductive RoutesFuture := Pending | Resolved (r : InitResult).

Definition is_err (r : InitResult) : bool := match r with InitErr _ => true | InitOk => false end.

Inductive ServerStatus := Serving | Draining | Ended.
#[export] Instance ServerStatus_eq_dec : EqDecision ServerStatus.
Proof. solve_decision. Defined.

Record Server := mkServer { bound_to : IpAddr; status : ServerStatus }.

Inductive IpamCall :=
| IpamAddress (name : PodName) (result : option IpAddress)
| IpamDeactivate (ip : IpAddress) (ok : bool)
| IpamDeallocate (ip : IpAddress) (ok : bool).

(** What the environment decides in a step. *)
Record Answer := mkAnswer {
  a_nanos : Z;                      (** nanoseconds since 1970 *)
  a_init : option message;          (** the error of initialising a pod, if any *)
  a_bind : bool;                    (** whether the port can be bound, if it is free *)
  a_join : bool;                    (** whether the task ends before the timeout *)
  a_address : option (IpAddr * Z);  (** the address the IPAM plugin allocates *)
  a_ok : bool;                      (** whether the IPAM call succeeds *)
  a_error : message;
}.

(** ** Comparisons *)
Definition VIMANA_LABEL_PREFIX : string := "vimana.host/".
Definition K8S_CONTAINER_RESTART_COUNT_ANNOTATION : string := "io.kubernetes.container.restartCount".

Definition container_metadata_equal (left right : option ContainerMetadata) : bool :=
  match left with
  | Some l =>
      match right with
      | Some r => bool_decide (mkContainerMetadata (cm_name l) 0 = mkContainerMetadata (cm_name r) 0)
      | None => false
      end
  | None => match right with None => true | Some _ => false end
  end.

Definition container_annotations_equal (left right : gmap string string) : bool :=
  bool_decide (delete K8S_CONTAINER_RESTART_COUNT_ANNOTATION left
             = delete K8S_CONTAINER_RESTART_COUNT_ANNOTATION right).

Definition match_labels (actual : gmap string string) (expected : list (string * string)) : bool :=
  forallb (fun '(key, value) =>
    match actual !! key with Some actual => bool_decide (actual = value) | None => false end) expected.

Definition check_vimana_labels (left right : gmap string string) : outcome StateError unit :=
  let unmatched := filter (fun '(key, value) =>
    String.prefix VIMANA_LABEL_PREFIX key && negb (bool_decide (right !! key = Some value)) = true)
    (map_to_list left) in
  match unmatched with [] => Done tt | _ => Failed VimanaLabels end.

(** [now()] *)
Definition now (a : Answer) : Z := as_u 64 (a_nanos a) mod (2 ^ 63 - 1).

(** ** The world *)
Section State.
Context {M : Type -> Type} {P : PapayaMap M}.

Record World := mkWorld {
  pods : M Pod;
  next_pod_id : Z;
  shutdown : bool;                       (** the global shutdown signal was sent *)
  futures : gmap nat RoutesFuture;
  killers : gmap nat (option server_id); (** [SingleUse<ContainerKiller>] *)
  servers : gmap nat Server;
  fresh : nat;                           (** the next identity *)
  ipam_calls : list IpamCall;
}.

Definition WorkRuntime_new : World := mkWorld pm_new 0 false ∅ ∅ ∅ 0 [].

Definition set_pods (m : M Pod) (w : World) : World :=
  mkWorld m (next_pod_id w) (shutdown w) (futures w) (killers w) (servers w) (fresh w) (ipam_calls w).
Definition set_next_pod_id (n : Z) (w : World) : World :=
  mkWorld (pods w) n (shutdown w) (futures w) (killers w) (servers w) (fresh w) (ipam_calls w).
Definition set_future (i : future_id) (f : RoutesFuture) (w : World) : World :=
  mkWorld (pods w) (next_pod_id w) (shutdown w) (<[i := f]> (futures w)) (killers w) (servers w)
    (fresh w) (ipam_calls w).
Definition set_cell (i : cell_id) (c : option server_id) (w : World) : World :=
  mkWorld (pods w) (next_pod_id w) (shutdown w) (futures w) (<[i := c]> (killers w)) (servers w)
    (fresh w) (ipam_calls w).
Definition set_server (i : server_id) (s : Server) (w : World) : World :=
  mkWorld (pods w) (next_pod_id w) (shutdown w) (futures w) (killers w) (<[i := s]> (servers w))
    (fresh w) (ipam_calls w).
Definition allocate (w : World) : World :=
  mkWorld (pods w) (next_pod_id w) (shutdown w) (futures w) (killers w) (servers w)
    (S (fresh w)) (ipam_calls w).
Definition call_ipam (c : IpamCall) (w : World) : World :=
  mkWorld (pods w) (next_pod_id w) (shutdown w) (futures w) (killers w) (servers w) (fresh w)
    (ipam_calls w ++ [c]).

Abbreviation op := (prog World Answer).

(** [pods.compute(id, closure)]: the closure may read the world; what it writes to captured
    variables and shared cells ([B]) takes effect with it. *)
Definition compute {A B} (id : Z) (closure : World -> Answer -> option Pod -> Operation Pod A * B)
    (effect : B -> World -> World) : op (Compute Pod A * B) :=
  atomic (fun a w =>
    '(c, b, m) ← pm_compute (pods w) id (closure w a);
    Some ((c, b), effect b (set_pods m w))).

Definition no_effect (_ : unit) (w : World) : World := w.

(** [routes.peek()] *)
Definition peek (w : World) (f : future_id) : option InitResult :=
  match futures w !! f with Some (Resolved r) => Some r | _ => None end.

(** [SingleUse::take] *)
Definition take_killer (c : cell_id) : op (option server_id) :=
  atomic (fun _ w =>
    match killers w !! c with
    | Some s => Some (s, set_cell c None w)
    | None => Some (None, w)
    end).

(** ** [init_pod] *)
Definition fetch_add : op Z :=
  atomic (fun _ w => Some (next_pod_id w, set_next_pod_id (as_u 64 (next_pod_id w + 1)) w)).

(** [Ipam::address] *)
Definition ipam_address (name : PodName) : op (outcome StateError IpAddress) :=
  atomic (fun a w =>
    match a_address a with
    | Some (addr, len) =>
        let ip := mkIpAddress addr len name in
        Some (Done ip, call_ipam (IpamAddress name (Some ip)) w)
    | None => Some (Failed (IpamFailed (a_error a)), call_ipam (IpamAddress name None) w)
    end).

Definition initiated_pod (a : Answer) (cell : cell_id) (ip : IpAddress) (component_name : ComponentName)
    (metadata : PodSandboxMetadata) (labels annotations : gmap string string) : Pod :=
  mkPod PodState.Initiated ip component_name metadata labels annotations (now a)
    None 0 None ∅ ∅ ∅ None 0 cell 0.

Definition init_pod (component_name : ComponentName) (metadata : PodSandboxMetadata)
    (labels annotations : gmap string string) : op (outcome StateError PodName) :=
  (do! pod_id <- fetch_add;
   let pod_name := mkPodName component_name pod_id in
   do! ip <- ipam_address pod_name;
   match ip with
   | Done ip =>
       atomic (fun a w =>
         let cell := fresh w in
         let pod := initiated_pod a cell ip component_name metadata labels annotations in
         let (ok, m) := pm_try_insert (pods w) pod_id pod in
         Some (if ok then Done pod_name else Failed (PodIdCollision pod_id),
               allocate (set_cell cell None (set_pods m w))))
   | Failed e => Ret (Failed e)
   | Crash c => Ret (Crash c)
   end)%prog.

(** ** [create_container] *)
Inductive CreateContainerCircumstance := Initial | Reattempt | Idempotent.

(** Whether the routes of a pod are missing, still pending, or failed. *)
Definition pod_initialization_failed (w : World) (pod : Pod) : bool :=
  match routes pod with
  | None => true
  | Some f => match peek w f with None => true | Some r => is_err r end
  end.

Definition subsequent_attempt (pod : Pod) (metadata : option ContainerMetadata) : bool :=
  match metadata with
  | None => false
  | Some new => match container_metadata pod with None => false | Some old => attempt old <? attempt new end
  end.

(** The closure; it also writes the circumstance, and whether it spawned [initialize_grpc]
    (the future is then the next identity). *)
Definition create_entry (metadata : option ContainerMetadata)
    (labels annotations env : gmap string string) (image : option ImageSpec)
    (w : World) (a : Answer) (entry : option Pod)
    : Operation Pod (option StateError) * (CreateContainerCircumstance * bool) :=
  match entry with
  | Some pod =>
      match state pod with
      | PodState.Initiated | PodState.Removed =>
          (Insert (with_state PodState.Created
             (with_container (Some (fresh w)) (now a) metadata labels annotations env image pod)),
           (Initial, true))
      | PodState.Created | PodState.Starting | PodState.Running =>
          if container_metadata_equal (container_metadata pod) metadata
             && bool_decide (container_labels pod = labels)
             && container_annotations_equal (container_annotations pod) annotations
             && bool_decide (environment pod = env)
             && bool_decide (image_spec pod = image)
          then
            let retry := pod_initialization_failed w pod && subsequent_attempt pod metadata in
            (Insert (with_state PodState.Created
               (with_container (if retry then Some (fresh w) else routes pod) (now a) metadata
                  (container_labels pod) annotations (environment pod) (image_spec pod) pod)),
             (if retry then Reattempt else Idempotent, retry))
          else (Abort (Some DifferentParameters), (Initial, false))
      | PodState.Stopped | PodState.Killed => (Abort (Some (BadPriorState (state pod))), (Initial, false))
      end
  | None => (Abort (Some PodNotFound), (Initial, false))
  end.

(** [PodInitializer::grpc] *)
Definition spawn_grpc (w : World) : World := allocate (set_future (fresh w) Pending w).

Definition create_container (name : PodName) (metadata : option ContainerMetadata)
    (labels annotations env : gmap string string) (image : option ImageSpec)
    : op (outcome StateError unit) :=
  (do! (c, _) <- compute (p_pod name) (create_entry metadata labels annotations env image)
     (fun '(_, spawned) w => if spawned then spawn_grpc w else w);
   Ret (match c with
        | Updated _ _ => Done tt
        | Aborted None => Done tt
        | Aborted (Some error) => Failed error
        | _ => Failed StateMachineImpossible
        end))%prog.

(** ** [start_container] *)
Inductive StartContainerAbort := Waiting (f : future_id) | AbortError (e : StateError) | AbortDone.

(** What the first closure writes: the routes that are ready, and the future whose error it
    took. *)
Record StartWrites := mkStartWrites { ready_routes : option future_id; took_error : option future_id }.
Definition nothing_written := mkStartWrites None None.

Definition start_entry (w : World) (_ : Answer) (entry : option Pod)
    : Operation Pod StartContainerAbort * StartWrites :=
  match entry with
  | Some pod =>
      match state pod with
      | PodState.Created =>
          match routes pod with
          | None => (Abort (AbortError RoutesMissing), nothing_written)
          | Some f =>
              match peek w f with
              | Some InitOk => (Insert (with_state PodState.Starting pod), mkStartWrites (Some f) None)
              | Some (InitErr cell) =>
                  (Abort (AbortError (match cell with
                                      | Some error => FailedStarting error
                                      | None => FailedStartingLogged
                                      end)), mkStartWrites None (Some f))
              | None => (Abort (Waiting f), nothing_written)
              end
          end
      | PodState.Stopped => (Abort (AbortError RestartNotImplemented), nothing_written)
      | PodState.Starting | PodState.Running => (Abort AbortDone, nothing_written)
      | PodState.Initiated | PodState.Removed | PodState.Killed =>
          (Abort (AbortError (BadPriorState (state pod))), nothing_written)
      end
  | None => (Abort (AbortError ContainerNotFound), nothing_written)
  end.

Definition start_effect (b : StartWrites) (w : World) : World :=
  match took_error b with Some f => set_future f (Resolved (InitErr None)) w | None => w end.

(** [TcpIncoming::new]: [std] binds the socket, which fails while another one listens on the
    address and port, and may fail for other reasons; the port is always [GRPC_PORT]. *)
Definition listening (w : World) (ip : IpAddr) : bool :=
  existsb (fun '(_, s) => bool_decide (bound_to s = ip) && bool_decide (status s = Serving))
    (map_to_list (servers w)).

Definition tcp_bind (ip : IpAddr) : op (option server_id) :=
  atomic (fun a w =>
    if a_bind a && negb (listening w ip)
    then Some (Some (fresh w), allocate (set_server (fresh w) (mkServer ip Serving) w))
    else Some (None, w)).

(** After a bind error: [Starting] goes back to [Created], anything else stays. *)
Definition unlock_entry (_ : World) (_ : Answer) (entry : option Pod) : Operation Pod unit * unit :=
  (match entry with
   | Some existing_pod =>
       match state existing_pod with
       | PodState.Starting => Insert (with_state PodState.Created existing_pod)
       | _ => Abort tt
       end
   | None => Abort tt
   end, tt).

(** [SingleUse::of] for the new server, and [now()]. *)
Definition single_use_of (s : server_id) : op (cell_id * Z) :=
  atomic (fun a w => Some ((fresh w, now a), allocate (set_cell (fresh w) (Some s) w))).

Definition publish_entry (pod : Pod) (_ : World) (_ : Answer) (entry : option Pod)
    : Operation Pod StateError * unit :=
  (match entry with
   | Some existing_pod =>
       match state existing_pod with
       | PodState.Starting => Insert pod
       | s => Abort (StateChangedWhileStarting s)
       end
   | None => Abort DisappearedWhileStarting
   end, tt).

(** [JoinHandle::abort] *)
Definition end_server (s : server_id) (w : World) : World :=
  match servers w !! s with Some srv => set_server s (mkServer (bound_to srv) Ended) w | None => w end.
Definition abort_task (s : server_id) : op unit := atomic (fun _ w => Some (tt, end_server s w)).

(** [pod.killer.take().map(ContainerKiller::forcefully_abort)] *)
Definition take_and_abort (cell : cell_id) : op unit :=
  (do! k <- take_killer cell; match k with Some s => abort_task s | None => Ret tt end)%prog.

Definition start_container_without_wait (name : PodName) : op (outcome StateError (option future_id)) :=
  (do! (c, written) <- compute (p_pod name) start_entry start_effect;
   match c with
   | Updated _ pod =>
       match ready_routes written with
       | None => Ret (Failed RoutesAbsent)
       | Some _routes =>
           do! incoming <- tcp_bind (address (ip_address pod));
           match incoming with
           | None =>
               do! _ <- compute (p_pod name) unlock_entry no_effect;
               Ret (Failed FailedBinding)
           | Some task =>
               do! (cell, started_at) <- single_use_of task;
               let pod := with_server started_at cell (with_state PodState.Running pod) in
               do! (c', _) <- compute (p_pod name) (publish_entry pod) no_effect;
               match c' with
               | Updated _ _ => Ret (Done None)
               | Aborted error => do! _ <- take_and_abort (killer pod); Ret (Failed error)
               | _ => do! _ <- take_and_abort (killer pod); Ret (Failed StateMachineImpossible)
               end
           end
       end
   | Aborted AbortDone => Ret (Done None)
   | Aborted (Waiting future) => Ret (Done (Some future))
   | Aborted (AbortError error) => Ret (Failed error)
   | _ => Ret (Failed StateMachineImpossible)
   end)%prog.

(** Awaiting a shared future resolves it. *)
Definition await_future (f : future_id) : op unit :=
  atomic (fun a w =>
    match futures w !! f with
    | Some Pending =>
        Some (tt, set_future f (Resolved (match a_init a with Some e => InitErr (Some e) | None => InitOk end)) w)
    | Some (Resolved _) => Some (tt, w)
    | None => None
    end).

Definition start_container (name : PodName) : op (outcome StateError unit) :=
  (do! r <- start_container_without_wait name;
   match r with
   | Done (Some future) =>
       do! _ <- await_future future;
       do! r' <- start_container_without_wait name;
       Ret (match r' with
            | Done (Some _) => Failed JugglingRoutes
            | Done None => Done tt
            | Failed e => Failed e
            | Crash c => Crash c
            end)
   | Done None => Ret (Done tt)
   | Failed e => Ret (Failed e)
   | Crash c => Ret (Crash c)
   end)%prog.

(** ** [stop_container] *)
(** [shutdown.send(())]: fails when the server no longer waits for the signal. *)
Definition send_shutdown (s : server_id) : op bool :=
  atomic (fun _ w =>
    match servers w !! s with
    | Some srv =>
        if decide (status srv = Serving) then Some (true, set_server s (mkServer (bound_to srv) Draining) w)
        else Some (false, w)
    | None => Some (false, w)
    end).

(** [timeout(duration, join)] *)
Definition join_timeout (s : server_id) : op bool :=
  atomic (fun a w => if a_join a then Some (true, end_server s w) else Some (false, w)).

(** [ContainerKiller::kill_with_timeout] *)
Definition kill_with_timeout (s : server_id) (duration : Z) : op bool :=
  (do! sent <- send_shutdown s;
   do! joined <- (if sent then join_timeout s else Ret false);
   if joined then Ret true else do! _ <- abort_task s; Ret false)%prog.

(** The closure also writes the state it found. *)
Definition stop_entry (_ : World) (_ : Answer) (entry : option Pod)
    : Operation Pod (option StateError) * PodState.t :=
  match entry with
  | Some pod =>
      match state pod with
      | PodState.Starting | PodState.Running => (Insert (with_state PodState.Stopped pod), state pod)
      | PodState.Stopped => (Abort None, PodState.Running)
      | PodState.Initiated | PodState.Created | PodState.Removed | PodState.Killed =>
          (Abort (Some (BadPriorState (state pod))), PodState.Running)
      end
  | None => (Abort (Some ContainerNotFound), PodState.Running)
  end.

Definition ignore {A} (_ : A) (w : World) : World := w.

Definition stop_container_without_wait (name : PodName) : op (outcome StateError (option server_id)) :=
  (do! (c, prior_state) <- compute (p_pod name) stop_entry ignore;
   match c with
   | Updated _ pod =>
       if decide (prior_state = PodState.Running) then
         do! k <- take_killer (killer pod);
         Ret (match k with Some s => Done (Some s) | None => Failed Unkillable end)
       else Ret (Done None)
   | Aborted None => Ret (Done None)
   | Aborted (Some error) => Ret (Failed error)
   | _ => Ret (Failed StateMachineImpossible)
   end)%prog.

Definition stop_container (name : PodName) (timeout : Z) : op (outcome StateError unit) :=
  (do! r <- stop_container_without_wait name;
   match r with
   | Done (Some s) => do! _ <- kill_with_timeout s timeout; Ret (Done tt)
   | Done None => Ret (Done tt)
   | Failed e => Ret (Failed e)
   | Crash c => Ret (Crash c)
   end)%prog.

(** ** [remove_container] *)
Definition remove_entry (_ : World) (_ : Answer) (entry : option Pod)
    : Operation Pod (option StateError) * unit :=
  (match entry with
   | Some pod =>
       match state pod with
       | PodState.Stopped => Insert (with_state PodState.Removed pod)
       | PodState.Removed => Abort None
       | s => Abort (Some (BadPriorState s))
       end
   | None => Abort (Some ContainerNotFound)
   end, tt).

Definition remove_container (name : PodName) : op (outcome StateError unit) :=
  (do! (c, _) <- compute (p_pod name) remove_entry no_effect;
   Ret (match c with
        | Updated _ _ => Done tt
        | Aborted None => Done tt
        | Aborted (Some error) => Failed error
        | _ => Failed StateMachineImpossible
        end))%prog.

(** ** [kill_pod] *)
Definition kill_entry (_ : World) (_ : Answer) (entry : option Pod)
    : Operation Pod (option StateError) * unit :=
  (match entry with
   | Some pod =>
       match state pod with
       | PodState.Killed => Abort None
       | _ => Insert (with_state PodState.Killed pod)
       end
   | None => Abort (Some PodNotFound)
   end, tt).

Definition kill_pod_without_wait (name : PodName) : op (outcome StateError (option (cell_id * IpAddress))) :=
  (do! (c, _) <- compute (p_pod name) kill_entry no_effect;
   Ret (match c with
        | Updated _ pod => Done (Some (killer pod, ip_address pod))
        | Aborted None => Done None
        | Aborted (Some error) => Failed error
        | _ => Failed StateMachineImpossible
        end))%prog.

(** [IpAddress::deactivate] and [IpAddress::deallocate] *)
Definition ipam_call (call : bool -> IpamCall) : op (outcome StateError unit) :=
  atomic (fun a w =>
    Some (if a_ok a then Done tt else Failed (IpamFailed (a_error a)), call_ipam (call (a_ok a)) w)).
Definition deactivate (ip : IpAddress) := ipam_call (IpamDeactivate ip).
Definition deallocate (ip : IpAddress) := ipam_call (IpamDeallocate ip).

Definition kill_pod (name : PodName) : op (outcome StateError unit) :=
  (do! r <- kill_pod_without_wait name;
   match r with
   | Done (Some (cell, ip)) =>
       do! k <- take_killer cell;
       do! _ <- (match k with Some s => kill_with_timeout s 1 | None => Ret true end);
       do! d <- deactivate ip;
       match d with
       | Done _ => deallocate ip
       | e => Ret e
       end
   | Done None => Ret (Done tt)
   | Failed e => Ret (Failed e)
   | Crash c => Ret (Crash c)
   end)%prog.

(** ** [delete_pod] *)
Definition delete_entry (_ : World) (_ : Answer) (entry : option Pod) : Operation Pod StateError * unit :=
  (match entry with
   | Some pod =>
       match state pod with
       | PodState.Killed => Remove
       | s => Abort (BadPriorState s)
       end
   | None => Abort PodNotFound
   end, tt).

Definition delete_pod (name : PodName) : op (outcome StateError unit) :=
  (do! (c, _) <- compute (p_pod name) delete_entry no_effect;
   Ret (match c with
        | Removed _ => Done tt
        | Aborted error => Failed error
        | _ => Failed StateMachineImpossible
        end))%prog.

(** ** Queries *)
Section Queries.
Context {T : Type} (transform : PodName -> Pod -> T).

Definition match_pod (pod_id : Z) (pod : Pod) (labels : list (string * string))
    (readiness : option bool) (results : list T) : list T :=
  if (match readiness with
      | None => true
      | Some ready => xorb ready (bool_decide (state pod = PodState.Killed))
      end) && match_labels (pod_labels pod) labels
  then results ++ [transform (mkPodName (component_name pod) pod_id) pod]
  else results.

Definition list_pods (w : World) (labels : list (string * string)) (readiness : option bool)
    (results : list T) : list T :=
  fold_left (fun results '(id, pod) => match_pod id pod labels readiness results) (pm_iter (pods w)) results.

Definition get_pod (w : World) (name : PodName) (labels : list (string * string))
    (readiness : option bool) (results : list T) : list T :=
  match pm_get (pods w) (p_pod name) with
  | Some pod => match_pod (p_pod name) pod labels readiness results
  | None => results
  end.

Definition match_container (pod_id : Z) (pod : Pod) (labels : list (string * string))
    (states : list PodState.t) (results : list T) : list T :=
  if bool_decide (state pod ∈ states) && match_labels (container_labels pod) labels
  then results ++ [transform (mkPodName (component_name pod) pod_id) pod]
  else results.

Definition list_containers (w : World) (labels : list (string * string)) (states : list PodState.t)
    (results : list T) : list T :=
  fold_left (fun results '(id, pod) => match_container id pod labels states results)
    (pm_iter (pods w)) results.

Definition get_container (w : World) (name : PodName) (labels : list (string * string))
    (states : list PodState.t) (results : list T) : list T :=
  match pm_get (pods w) (p_pod name) with
  | Some pod => match_container (p_pod name) pod labels states results
  | None => results
  end.
End Queries.

(** ** Calls side by side *)
Inductive Call :=
| CallInitPod (component_name : ComponentName) (metadata : PodSandboxMetadata)
    (labels annotations : gmap string string)
| CallCreateContainer (name : PodName) (metadata : option ContainerMetadata)
    (labels annotations env : gmap string string) (image : option ImageSpec)
| CallStartContainer (name : PodName)
| CallStopContainer (name : PodName) (timeout : Z)
| CallRemoveContainer (name : PodName)
| CallKillPod (name : PodName)
| CallDeletePod (name : PodName).

(** The pod name a call returns, if it is [init_pod]. *)
Definition named (p : op (outcome StateError PodName)) : op (outcome StateError (option PodName)) :=
  pbind p (fun r => Ret (let? name := r in Done (Some name))).
Definition unnamed (p : op (outcome StateError unit)) : op (outcome StateError (option PodName)) :=
  pbind p (fun r => Ret (let? _ := r in Done None)).

Definition program (c : Call) : op (outcome StateError (option PodName)) :=
  match c with
  | CallInitPod n m l a => named (init_pod n m l a)
  | CallCreateContainer n m l a e i => unnamed (create_container n m l a e i)
  | CallStartContainer n => unnamed (start_container n)
  | CallStopContainer n t => unnamed (stop_container n t)
  | CallRemoveContainer n => unnamed (remove_container n)
  | CallKillPod n => unnamed (kill_pod n)
  | CallDeletePod n => unnamed (delete_pod n)
  end.

(** What happens without a call: the global shutdown, upon which every server stops
    accepting, and the end of a server that drains. *)
Inductive Happening := Shutdown | ServerDrains (s : server_id) | ServerEnds (s : server_id).

Definition happen (h : Happening) (w : World) : option World :=
  match h with
  | Shutdown =>
      Some (mkWorld (pods w) (next_pod_id w) true (futures w) (killers w) (servers w) (fresh w) (ipam_calls w))
  | ServerDrains s =>
      srv ← servers w !! s;
      if shutdown w && bool_decide (status srv = Serving)
      then Some (set_server s (mkServer (bound_to srv) Draining) w) else None
  | ServerEnds s =>
      srv ← servers w !! s;
      if bool_decide (status srv = Draining) then Some (end_server s w) else None
  end.

End State.
