(* ===== verification/StateSpec.v ===== *)
(** * The lifecycle of a pod

    Whatever calls run side by side, every step moves every pod along the lifecycle of
    [README.md] (with two more transitions the code makes and without one it lacks), and
    [Killed] is final. *)

From S2P Require Import Prelude Regexp Names Concurrent State.

#[local] Open Scope Z_scope.

Section StateSpec.
Context {M : Type -> Type} {P : PapayaMap M} {PL : PapayaLaws M}.

Abbreviation World := (@World M).
Abbreviation get w id := (pm_get (pods w) id).
Definition state_of (w : World) (id : Z) : option PodState.t := state <$> get w id.

(** ** [compute] *)
Lemma compute_inv {A B} id (closure : World -> Answer -> option Pod -> Operation Pod A * B) effect a w
    (r : Compute Pod A * B) w' (k : Compute Pod A * B -> World -> Prop) :
  ('(c, b, m) ← pm_compute (pods w) id (closure w a); Some ((c, b), effect b (set_pods m w))) = Some (r, w') ->
  (forall c m, computed (get w id) (fst (closure w a (get w id))) = Some c ->
     (forall id', pm_get m id' =
       (if decide (id' = id) then entry_after (get w id) (fst (closure w a (get w id))) else get w id')) ->
     k (c, snd (closure w a (get w id))) (effect (snd (closure w a (get w id))) (set_pods m w))) ->
  k r w'.
Proof.
  intros H Hk. destruct (pm_compute (pods w) id (closure w a)) as [[[c b] m]|] eqn:E; simplify_eq/=.
  apply pm_compute_spec in E as (-> & Hc & Hm). by apply Hk.
Qed.

(** ** The lifecycle *)
Definition transition : Type := option PodState.t * option PodState.t.

(** The check marks of the table in [README.md]. *)
Definition readme_transitions : list transition :=
  [(None, Some PodState.Initiated);
   (Some PodState.Initiated, Some PodState.Created); (Some PodState.Initiated, Some PodState.Killed);
   (Some PodState.Created, Some PodState.Starting); (Some PodState.Created, Some PodState.Killed);
   (Some PodState.Starting, Some PodState.Running); (Some PodState.Starting, Some PodState.Stopped);
   (Some PodState.Starting, Some PodState.Killed);
   (Some PodState.Running, Some PodState.Stopped); (Some PodState.Running, Some PodState.Killed);
   (Some PodState.Stopped, Some PodState.Starting); (Some PodState.Stopped, Some PodState.Removed);
   (Some PodState.Stopped, Some PodState.Killed);
   (Some PodState.Removed, Some PodState.Created); (Some PodState.Removed, Some PodState.Killed);
   (Some PodState.Killed, None)].

(** What the code adds: a bind error, or creating the container again, leads back to
    [Created].  What it lacks: restarting a stopped container. *)
Definition added_transitions : list transition :=
  [(Some PodState.Starting, Some PodState.Created); (Some PodState.Running, Some PodState.Created)].
Definition missing_transition : transition := (Some PodState.Stopped, Some PodState.Starting).

Definition lifecycle (t : transition) : Prop :=
  fst t = snd t \/ (t <> missing_transition /\ t ∈ readme_transitions ++ added_transitions).

#[local] Instance lifecycle_dec t : Decision (lifecycle t).
Proof. unfold lifecycle. apply _. Defined.

Ltac lifecycle := apply (bool_decide_unpack _); vm_compute; exact I.

Definition moves (w w' : World) : Prop := forall id, lifecycle (state_of w id, state_of w' id).

Lemma lifecycle_refl s : lifecycle (s, s).
Proof. by left. Qed.

Lemma moves_refl w : moves w w.
Proof. intros id. apply lifecycle_refl. Qed.

Lemma moves_same_pods w w' : pods w' = pods w -> moves w w'.
Proof. intros H id. unfold state_of. rewrite H. apply lifecycle_refl. Qed.

Abbreviation op := (prog World Answer).

Lemma moves_atomic {B} (f : Answer -> World -> option (B * World)) :
  (forall a w b w', f a w = Some (b, w') -> pods w' = pods w) -> always moves (atomic f).
Proof. intros Hf a w b w' H. split; [apply moves_same_pods; eauto | done]. Qed.

(** A closure moves the pod along the lifecycle. *)
Lemma moves_compute {A B} id (closure : World -> Answer -> option Pod -> Operation Pod A * B) effect :
  (forall w a entry, lifecycle (state <$> entry, state <$> entry_after entry (fst (closure w a entry)))) ->
  (forall b w, pods (effect b w) = pods w) ->
  always moves (compute id closure effect).
Proof.
  intros Hc He a w r w' H. split; [|done]. revert H.
  intros H. apply (compute_inv _ _ _ _ _ _ _ (fun _ w' => moves w w') H).
  intros c m _ Hm id'. unfold state_of. rewrite He. simpl. rewrite Hm.
  case_decide as E; [subst; apply Hc | apply lifecycle_refl].
Qed.

Lemma end_server_pods s (w : World) : pods (end_server s w) = pods w.
Proof. unfold end_server. by case_match. Qed.

(** Split a program at its steps. *)
Create HintDb moves.
Ltac moves :=
  repeat first
    [ exact I
    | solve [eauto with moves]
    | match goal with
      | |- always _ (pbind _ _) => apply always_pbind; [|intros ?]
      | |- always _ (match ?x with _ => _ end) => destruct x
      | |- always _ (if ?x then _ else _) => destruct x
      | |- always _ (atomic _) => 
          solve [apply moves_atomic; intros; repeat case_match; simplify_eq/=; auto using end_server_pods]
      end ].

(** Close a goal about a closure: every state of the entry. *)
Ltac by_state :=
  let pod := fresh "pod" in let E := fresh "E" in
  intros ? ? [pod|]; simpl; [destruct (state pod) eqn:E; simpl; rewrite ?E|];
  repeat (case_match; simpl; rewrite ?E); try lifecycle.

Lemma moves_abort_task s : always moves (abort_task s).
Proof. apply moves_atomic. intros a w b w' [= <- <-]. apply end_server_pods. Qed.

Lemma moves_take_killer c : always moves (take_killer c).
Proof. unfold take_killer. moves. Qed.
#[local] Hint Resolve moves_abort_task moves_take_killer : moves.

Lemma moves_take_and_abort c : always moves (take_and_abort c).
Proof. unfold take_and_abort. moves. Qed.

Lemma moves_kill_with_timeout s t : always moves (kill_with_timeout s t).
Proof.
  unfold kill_with_timeout, send_shutdown, join_timeout. moves.
Qed.
#[local] Hint Resolve moves_take_and_abort moves_kill_with_timeout : moves.

Lemma moves_init n m l a : always moves (init_pod n m l a).
Proof.
  unfold init_pod, fetch_add, ipam_address. moves.
  intros a' w b w' H. split; [|done]. destruct (pm_try_insert _ _ _) as [ok m'] eqn:E.
  injection H as <- <-. apply pm_try_insert_spec in E as [-> Hm].
  intros id. unfold state_of. simpl. rewrite Hm. case_decide as Ei; [|apply lifecycle_refl]. subst.
  destruct (get w r) as [pod|]; [apply lifecycle_refl | lifecycle].
Qed.

Lemma moves_create n m l a e i : always moves (create_container n m l a e i).
Proof.
  unfold create_container. moves. apply moves_compute; [by_state |]. by intros [? []] w.
Qed.

Lemma moves_start_without_wait n : always moves (start_container_without_wait n).
Proof.
  unfold start_container_without_wait, tcp_bind, single_use_of. moves.
  all: apply moves_compute; [by_state | done || by intros [? []] w].
Qed.
#[local] Hint Resolve moves_start_without_wait : moves.

Lemma moves_start n : always moves (start_container n).
Proof. unfold start_container, await_future. moves. Qed.

Lemma moves_stop n t : always moves (stop_container n t).
Proof.
  unfold stop_container, stop_container_without_wait. moves. apply moves_compute; [by_state | done].
Qed.

Lemma moves_remove n : always moves (remove_container n).
Proof. unfold remove_container. moves. apply moves_compute; [by_state | done]. Qed.

Lemma moves_kill n : always moves (kill_pod n).
Proof.
  unfold kill_pod, kill_pod_without_wait, deactivate, deallocate, ipam_call. moves.
  apply moves_compute; [by_state | done].
Qed.

Lemma moves_delete n : always moves (delete_pod n).
Proof. unfold delete_pod. moves. apply moves_compute; [by_state | done]. Qed.
#[local] Hint Resolve moves_init moves_create moves_start moves_stop moves_remove moves_kill
  moves_delete : moves.

Lemma moves_program c : always moves (program c).
Proof. destruct c; unfold program, named, unnamed; moves. Qed.

Lemma moves_happen h (w w' : World) : happen h w = Some w' -> moves w w'.
Proof.
  intros H. apply moves_same_pods. destruct h as [|s|s]; simpl in H; [by injection H as <- | |];
    destruct (servers w !! s); simplify_eq/=; case_match; simplify_eq/=; try done.
  apply end_server_pods.
Qed.

(** ** Runs *)
Abbreviation Conf := (@Conf World Answer (outcome StateError (option PodName))).
Definition start_of_day : Conf := mkConf WorkRuntime_new [].
Definition runs (es : list (Event (Answer := Answer) (Call := Call) (Happening := Happening))) (c c' : Conf) :=
  exec program happen es c = Some c'.

Lemma runs_app es es' c c' : runs (es ++ es') c c' <-> exists c1, runs es c c1 /\ runs es' c1 c'.
Proof.
  unfold runs. revert c. induction es as [|e es IH]; intros c; simpl.
  - split; [eauto | by intros (c1 & [= ->] & H)].
  - destruct (exec_event program happen e c) as [c1|]; simpl; [apply IH |].
    split; [done | by intros (? & ? & _)].
Qed.

Lemma runs_always es c :
  runs es start_of_day c -> Forall (always moves) (threads c).
Proof.
  assert (H : forall c0, Forall (always moves) (threads c0) -> runs es c0 c -> Forall (always moves) (threads c)).
  { unfold runs. induction es as [|e es IH]; intros c0 H0 H; simpl in H; [by injection H as <- |].
    destruct (exec_event program happen e c0) as [c1|] eqn:E; simplify_eq/=.
    eapply IH; [|exact H].
    eapply exec_event_always; eauto using moves_refl, moves_program, moves_happen. }
  apply H. constructor.
Qed.

Lemma event_moves es e c c'
    (Hrun : runs es start_of_day c) (Hstep : exec_event program happen e c = Some c') :
  forall id, lifecycle (state_of (world c) id, state_of (world c') id).
Proof.
  apply runs_always in Hrun.
  eapply (exec_event_always program happen moves);
    eauto using moves_refl, moves_program, moves_happen.
Qed.

(** C6. Whatever calls run and however their steps interleave, every step and everything that
    happens without a call moves every pod along an arrow of the state machine in README.md,
    except that the code also goes back from [Starting] and [Running] to [Created], and never
    restarts a stopped container. *)
Theorem lifecycle_respected es e c c'
    (Hrun : runs es start_of_day c) (Hstep : exec_event program happen e c = Some c') :
  forall id, lifecycle (state_of (world c) id, state_of (world c') id).
Proof. exact (event_moves es e c c' Hrun Hstep). Qed.

(** [Killed] is final: a killed pod stays killed until it is deleted. *)
Lemma killed_is_final es es' c c' id
    (Hrun : runs es start_of_day c) (Hrun' : runs es' c c')
    (Hkilled : state_of (world c) id = Some PodState.Killed)
    (Hthere : forall es1 c1, runs es1 c c1 -> es1 `prefix_of` es' -> state_of (world c1) id <> None) :
  state_of (world c') id = Some PodState.Killed.
Proof.
  revert es c Hrun Hrun' Hkilled Hthere. induction es' as [|e es' IH]; intros es c Hrun Hrun' Hk Hthere.
  - by injection Hrun' as <-.
  - unfold runs in Hrun'. simpl in Hrun'.
    destruct (exec_event program happen e c) as [c1|] eqn:E; simplify_eq/=.
    assert (H1 : runs [e] c c1) by (unfold runs; simpl; by rewrite E).
    apply (IH (es ++ [e]) c1).
    + apply runs_app. eauto.
    + exact Hrun'.
    + pose proof (event_moves es e c c1 Hrun E id) as Hl. rewrite Hk in Hl.
      assert (Hn : state_of (world c1) id <> None)
        by (apply (Hthere [e]); [exact H1 | by apply prefix_cons, prefix_nil]).
      destruct (state_of (world c1) id) as [[]|]; try done;
        apply (bool_decide_pack _) in Hl; by vm_compute in Hl.
    + intros es1 c2 Hr Hp. apply (Hthere (e :: es1)); [|by apply prefix_cons].
      unfold runs. simpl. by rewrite E.
Qed.

End StateSpec.
