(* ===== verification/StateInvariant.v ===== *)
(** * The invariant of the running pods

    However the calls of [State.v] interleave, every server that still accepts connections
    is accounted for: a pod that is not killed holds its killer, or a call in flight does.
    Along the way: pod IDs never collide, two servers never listen on one address, and the
    errors the code calls logically impossible are so, except two, for which there are runs.

    A call owns tokens ([Tok]) for what it will put into the map or must still shut down;
    [Good] ties the world to the tokens of all the calls. *)

From S2P Require Import Prelude Regexp Names Concurrent State StateSpec.

#[local] Open Scope Z_scope.

Section Invariant.
Context {M : Type -> Type} {P : PapayaMap M} {PL : PapayaLaws M}.

Abbreviation World := (@World M).
Abbreviation get w id := (pm_get (pods w) id).
Abbreviation op := (prog World Answer).

Definition serving (w : World) (s : nat) (a : IpAddr) : Prop := servers w !! s = Some (mkServer a Serving).

(** What a call in flight owns. *)
Inductive Tok :=
| TNew (id : Z)                            (** an ID it will insert *)
| TPod (id : Z) (ip : IpAddress)           (** knowledge: the address of the pod *)
| TCell (c : nat)                          (** a killer cell it will empty *)
| TServer (s : nat)                        (** a server it must shut down *)
| TDead (s : nat)                          (** knowledge: the server accepts no more *)
| TBound (s : nat) (a : IpAddr)            (** a server it has just bound *)
| TFresh (c s : nat) (a : IpAddr).         (** and its killer cell *)

Definition new_id (t : Tok) : option Z := match t with TNew id => Some id | _ => None end.
Definition owned (t : Tok) : option nat :=
  match t with TServer s | TBound s _ | TFresh _ s _ => Some s | _ => None end.

Definition held (w : World) (s : nat) : Prop :=
  exists id p, get w id = Some p /\ state p <> PodState.Killed /\ killers w !! killer p = Some (Some s).

Definition accounted (w : World) (toks : list Tok) (s : nat) : Prop :=
  held w s \/ (exists c, TCell c ∈ toks /\ killers w !! c = Some (Some s)) \/ s ∈ omap owned toks.

Definition has_routes (p : Pod) : Prop :=
  match state p with
  | PodState.Created | PodState.Starting | PodState.Running => routes p <> None
  | _ => True
  end.

Record Good (n : nat) (w : World) (toks : list Tok) : Prop := mkGood {
  g_next : 0 <= next_pod_id w <= Z.of_nat n;
  g_ids id p : get w id = Some p -> 0 <= id < next_pod_id w;
  g_new id : TNew id ∈ toks -> 0 <= id < next_pod_id w /\ get w id = None;
  g_new_once : NoDup (omap new_id toks);
  g_pod id ip : TPod id ip ∈ toks ->
    0 <= id < next_pod_id w /\ TNew id ∉ toks /\ forall p, get w id = Some p -> ip_address p = ip;
  g_cells c x : killers w !! c = Some x -> (c < fresh w)%nat;
  g_servers s x : servers w !! s = Some x -> (s < fresh w)%nat;
  g_killer id p : get w id = Some p -> (killer p < fresh w)%nat;
  g_tcell c : TCell c ∈ toks -> (c < fresh w)%nat;
  g_routes id p : get w id = Some p -> has_routes p;
  g_addr s1 s2 a : serving w s1 a -> serving w s2 a -> s1 = s2;
  g_cell_addr id p s x : get w id = Some p -> killers w !! killer p = Some (Some s) ->
    servers w !! s = Some x -> bound_to x = address (ip_address p);
  g_one_cell c c' s : killers w !! c = Some (Some s) -> killers w !! c' = Some (Some s) -> c = c';
  g_cell_server c s : killers w !! c = Some (Some s) -> is_Some (servers w !! s);
  g_owned_once : NoDup (omap owned toks);
  g_account s a : shutdown w = false -> serving w s a -> accounted w toks s;
  g_server s : TServer s ∈ toks -> (s < fresh w)%nat /\ forall c, killers w !! c <> Some (Some s);
  g_dead s : TDead s ∈ toks -> (s < fresh w)%nat /\ forall a, ~ serving w s a;
  g_bound s a : TBound s a ∈ toks ->
    (forall c, killers w !! c <> Some (Some s)) /\
    exists st, servers w !! s = Some (mkServer a st) /\ (shutdown w = false -> st = Serving);
  g_fresh c s a : TFresh c s a ∈ toks ->
    killers w !! c = Some (Some s) /\ TCell c ∉ toks /\
    (forall id p, get w id = Some p -> killer p <> c) /\
    exists st, servers w !! s = Some (mkServer a st) /\ (shutdown w = false -> st = Serving);
}.

(** ** The tokens *)
Lemma Good_perm n w t t' : t ≡ₚ t' -> Good n w t -> Good n w t'.
Proof.
  intros Hp [].
  assert (Hin : forall x, x ∈ t' <-> x ∈ t) by (intros x; by rewrite Hp).
  assert (Hacc : forall s, accounted w t s -> accounted w t' s).
  { intros s [?|[(c & ? & ?)|?]]; [by left | right; left; exists c; by rewrite Hin |].
    right. right. by rewrite <- Hp. }
  constructor; eauto; try by rewrite <- Hp.
  all: intros *; rewrite ?Hin; try (by intros; eauto).
Qed.

Lemma Good_tick n w t : Good n w t -> Good (S n) w t.
Proof. intros []. constructor; eauto. lia. Qed.

Lemma NoDup_omap_tail {A} (f : Tok -> option A) t rest : NoDup (omap f (t :: rest)) -> NoDup (omap f rest).
Proof. simpl. destruct (f t); [by intros [_ ?]%NoDup_cons | done]. Qed.

(** Tokens that hold nothing can be dropped. *)
Definition droppable (w : World) (t : Tok) : Prop :=
  match t with
  | TNew _ | TPod _ _ | TDead _ => True
  | TCell c => forall s a, killers w !! c = Some (Some s) -> ~ serving w s a
  | TServer s => forall a, ~ serving w s a
  | TBound _ _ | TFresh _ _ _ => False
  end.

Lemma Good_drop n w t rest : droppable w t -> Good n w (t :: rest) -> Good n w rest.
Proof.
  intros Hd []. constructor; eauto using list_elem_of_further.
  - by eapply NoDup_omap_tail.
  - intros id ip Hi. destruct (g_pod0 id ip (list_elem_of_further _ _ _ Hi)) as (? & Hn & ?).
    split; [done |]. split; [|done]. intros ?. by apply Hn, list_elem_of_further.
  - by eapply NoDup_omap_tail.
  - intros s a Hi Hs. destruct (g_account0 s a Hi Hs) as [?|[(c & Hc & Hk)|Ho]]; [by left | |].
    + apply elem_of_cons in Hc as [<-|Hc]; [|by right; left; exists c].
      exfalso. by eapply Hd.
    + right. right. revert Ho. simpl. destruct (owned t) as [s'|] eqn:E; [|done]. intros Ho.
      apply elem_of_cons in Ho as [->|Ho]; [|done]. destruct t; simplify_eq/=; [|done..]. by apply Hd in Hs.
  - intros c s a Hi. destruct (g_fresh0 c s a (list_elem_of_further _ _ _ Hi)) as (? & Hn & ?).
    split; [done |]. split; [|done]. intros ?. by apply Hn, list_elem_of_further.
Qed.

(** ** Updates of the world *)
Definition same_processes (w w' : World) : Prop :=
  next_pod_id w' = next_pod_id w /\ shutdown w' = shutdown w /\ killers w' = killers w
  /\ servers w' = servers w /\ fresh w' = fresh w.

Lemma elem_of_tail {t t' : Tok} {l} : t ∈ t' :: l -> t <> t' -> t ∈ l.
Proof. intros [->|?]%elem_of_cons; done. Qed.

Lemma Good_add_cell n w toks id p :
  get w id = Some p -> Good n w toks -> Good n w (TCell (killer p) :: toks).
Proof.
  intros Hp []. constructor; eauto; try (intros *; intros Hi%elem_of_tail; eauto; done).
  - intros i ip Hi%elem_of_tail; [|done]. destruct (g_pod0 i ip Hi) as (? & Hn & ?).
    split; [done |]. split; [|done]. by intros ?%elem_of_tail.
  - intros c [[= ->]|Hc]%elem_of_cons; eauto.
  - intros s a Hs Ha. destruct (g_account0 s a Hs Ha) as [?|[(c & ? & ?)|?]]; [by left | |by right; right].
    right. left. exists c. split; [by apply list_elem_of_further | done].
  - intros c s a Hi%elem_of_tail; [|done]. destruct (g_fresh0 c s a Hi) as (? & Hn & Hk & ?).
    split; [done |]. split; [|done]. intros [[= ->]|?]%elem_of_cons; [by eapply Hk | done].
Qed.

Lemma Good_add_pod n w toks id p :
  get w id = Some p -> Good n w toks -> Good n w (TPod id (ip_address p) :: toks).
Proof.
  intros Hp HG. pose proof HG as []. constructor; eauto; try (intros *; intros Hi%elem_of_tail; eauto; done).
  - intros i ip [[= -> ->]|Hi]%elem_of_cons.
    + split; [eauto |]. split; [|congruence]. intros Hn%elem_of_tail; [|done].
      apply g_new0 in Hn as [_ ?]. congruence.
    + destruct (g_pod0 i ip Hi) as (? & Hn & ?). split; [done |]. split; [|done].
      by intros ?%elem_of_tail.
  - intros s a Hs Ha. destruct (g_account0 s a Hs Ha) as [?|[(c & ? & ?)|?]]; [by left | |by right; right].
    right. left. exists c. split; [by apply list_elem_of_further | done].
  - intros c s a Hi%elem_of_tail; [|done]. destruct (g_fresh0 c s a Hi) as (? & Hn & Hk & ?).
    split; [done |]. split; [|done]. by intros ?%elem_of_tail.
Qed.

(** A step that changes nothing the invariant looks at. *)
Lemma Good_same n w w' toks :
  same_processes w w' -> (forall id, get w' id = get w id) -> Good n w toks -> Good n w' toks.
Proof.
  intros (E1 & E2 & E3 & E4 & E5) Hg [].
  assert (Hh : forall s, held w s -> held w' s)
    by (intros s (id & p & ?); exists id, p; by rewrite Hg, E3).
  constructor; unfold serving, accounted in *; rewrite ?E1, ?E2, ?E3, ?E4, ?E5; auto;
    try (intros *; rewrite ?Hg; eauto; done).
  - intros s a Hs Ha. destruct (g_account0 s a Hs Ha) as [?|?]; [left; auto | by right].
  - intros c s a Hi. destruct (g_fresh0 c s a Hi) as (? & ? & Hk & ?). split_and!; try done.
    intros id p. rewrite Hg. eauto.
Qed.

(** A pod of the map replaced by one with the same address and killer. *)
Lemma Good_update n w w' toks id p p' :
  same_processes w w' -> get w id = Some p ->
  (forall id', get w' id' = if decide (id' = id) then Some p' else get w id') ->
  killer p' = killer p -> ip_address p' = ip_address p -> has_routes p' ->
  (state p' = PodState.Killed -> state p = PodState.Killed \/ TCell (killer p) ∈ toks) ->
  Good n w toks -> Good n w' toks.
Proof.
  intros (E1 & E2 & E3 & E4 & E5) Hp Hg Hk Hip Hr Hst [].
  assert (Hback : forall id' q, get w' id' = Some q -> exists q', get w id' = Some q'
      /\ killer q = killer q' /\ ip_address q = ip_address q').
  { intros id' q. rewrite Hg. case_decide; [intros [= <-]; subst; eauto | eauto]. }
  constructor; unfold serving in *; rewrite ?E1, ?E2, ?E3, ?E4, ?E5; auto.
  - intros i q Hq. apply Hback in Hq as (q' & Hq & _). eauto.
  - intros i Hi. destruct (g_new0 i Hi) as [? Hn]. split; [done |]. rewrite Hg.
    case_decide; [congruence | done].
  - intros i ip Hi. destruct (g_pod0 i ip Hi) as (? & ? & Hq'). split; [done |]. split; [done |].
    intros q Hq. apply Hback in Hq as (q' & Hq & _ & ->). eauto.
  - intros i q Hq. apply Hback in Hq as (q' & Hq & -> & _). eauto.
  - intros i q. rewrite Hg. case_decide; [by intros [= <-] | eauto].
  - intros i q s x Hq. apply Hback in Hq as (q' & Hq & -> & ->). eauto.
  - intros s a Hs Ha. unfold accounted, held. rewrite E3.
    destruct (g_account0 s a Hs Ha) as [(i & q & Hq & Hnk & Hc)|?]; [|by right].
    destruct (decide (i = id)) as [->|Hi].
    + simplify_eq. destruct (decide (state p' = PodState.Killed)) as [Hkl|Hkl].
      * destruct (Hst Hkl) as [?|?]; [done |]. right. left. eauto.
      * left. exists id, p'. rewrite Hg, decide_True by done. by rewrite Hk.
    + left. exists i, q. by rewrite Hg, decide_False.
  - intros c s a Hi. destruct (g_fresh0 c s a Hi) as (? & ? & Hf & ?). split; [done |].
    split; [done |]. split; [|done]. intros i q Hq. apply Hback in Hq as (q' & Hq & -> & _). eauto.
Qed.

(** A pod deleted after it was killed. *)
Lemma Good_delete n w w' toks id p :
  same_processes w w' -> get w id = Some p -> state p = PodState.Killed ->
  (forall id', get w' id' = if decide (id' = id) then None else get w id') ->
  Good n w toks -> Good n w' toks.
Proof.
  intros (E1 & E2 & E3 & E4 & E5) Hp Hkl Hg [].
  assert (Hback : forall id' q, get w' id' = Some q -> get w id' = Some q)
    by (intros id' q; rewrite Hg; by case_decide).
  constructor; unfold serving in *; rewrite ?E1, ?E2, ?E3, ?E4, ?E5; eauto.
  - intros i Hi. destruct (g_new0 i Hi) as [? Hn]. split; [done |]. rewrite Hg. by case_decide.
  - intros i ip Hi. destruct (g_pod0 i ip Hi) as (? & ? & ?). eauto.
  - intros s a Hs Ha. unfold accounted, held. rewrite E3.
    destruct (g_account0 s a Hs Ha) as [(i & q & Hq & Hnk & Hc)|?]; [|by right].
    left. exists i, q. rewrite Hg, decide_False; [done |]. intros ->. congruence.
  - intros c s a Hi. destruct (g_fresh0 c s a Hi) as (? & ? & Hf & ?). eauto 6.
Qed.

(** A fresh pod ID. *)
Lemma Good_next n w toks :
  Z.of_nat (S n) < 2 ^ 64 -> Good n w toks ->
  Good (S n) (set_next_pod_id (as_u 64 (next_pod_id w + 1)) w) (TNew (next_pod_id w) :: toks).
Proof.
  intros Hn [].
  assert (En : as_u 64 (next_pod_id w + 1) = next_pod_id w + 1) by (apply as_u_id; unfold u_range; lia).
  constructor; simpl; rewrite ?En; eauto; try (intros *; intros Hi%elem_of_tail; eauto; done).
  - lia.
  - intros id p Hp. apply g_ids0 in Hp. lia.
  - intros id [[= ->]|Hi]%elem_of_cons.
    + split; [lia |]. destruct (get w (next_pod_id w)) eqn:E; [|done]. apply g_ids0 in E. lia.
    + apply g_new0 in Hi as [? ?]. split; [lia | done].
  - apply NoDup_cons. split; [|done]. intros (t & Ht & Et)%list_elem_of_omap.
    destruct t; simplify_eq/=. apply g_new0 in Ht. lia.
  - intros id ip Hi%elem_of_tail; [|done]. destruct (g_pod0 id ip Hi) as (? & ? & ?).
    split; [lia |]. split; [|done]. intros [[= ->]|?]%elem_of_cons; [lia | done].
  - intros s a Hs Ha. destruct (g_account0 s a Hs Ha) as [?|[(c & ? & ?)|?]]; [by left | |by right; right].
    right. left. exists c. split; [by apply list_elem_of_further | done].
  - intros c s a Hi%elem_of_tail; [|done]. destruct (g_fresh0 c s a Hi) as (? & Hc & ?).
    split; [done |]. split; [|done]. by intros ?%elem_of_tail.
Qed.

(** The identities move on. *)
Lemma Good_fresh n w w' toks :
  next_pod_id w' = next_pod_id w -> shutdown w' = shutdown w -> killers w' = killers w ->
  servers w' = servers w -> (fresh w <= fresh w')%nat -> (forall id, get w' id = get w id) ->
  Good n w toks -> Good n w' toks.
Proof.
  intros E1 E2 E3 E4 E5 Hg HG.
  assert (HG' : Good n (mkWorld (pods w) (next_pod_id w) (shutdown w) (futures w) (killers w)
    (servers w) (fresh w') (ipam_calls w)) toks).
  { destruct HG. constructor; simpl; eauto; intros; (eapply Nat.lt_le_trans; [|exact E5]) || idtac; eauto.
    - destruct (g_server0 s ltac:(done)). split; [lia | done].
    - destruct (g_dead0 s ltac:(done)). split; [lia | done]. }
  eapply Good_same; [| |exact HG']; [|done]. by split_and!.
Qed.

(** An initiated pod enters the map. *)
Lemma Good_insert n w m toks id p :
  (forall id', pm_get m id' = if decide (id' = id) then Some p else get w id') ->
  state p = PodState.Initiated -> killer p = fresh w ->
  Good n w (TNew id :: toks) ->
  Good n (allocate (set_cell (fresh w) None (set_pods m w))) toks.
Proof.
  intros Hg Hst Hk HG. pose proof HG as [].
  destruct (g_new0 id ltac:(by left)) as [Hid Hnone].
  assert (Hk' : forall c s, <[fresh w := None]> (killers w) !! c = Some (Some s) ->
    killers w !! c = Some (Some s) /\ c <> fresh w)
    by (intros c s [[_ ?]|[? ?]]%lookup_insert_Some; [done | auto]).
  assert (Hk2 : forall c s, killers w !! c = Some (Some s) ->
    <[fresh w := None]> (killers w) !! c = Some (Some s)).
  { intros c s Hc. rewrite lookup_insert_ne; [done |]. intros <-. apply g_cells0 in Hc. lia. }
  assert (Hback : forall i q, pm_get m i = Some q -> (i = id /\ q = p) \/ get w i = Some q)
    by (intros i q; rewrite Hg; case_decide; [intros [= <-]; auto | auto]).
  apply Good_drop in HG; [|done]. destruct HG.
  constructor; simpl; eauto.
  - intros i q [[-> ->]|Hq]%Hback; eauto.
  - intros i Hi. destruct (g_new1 i Hi) as [? Hn]. split; [done |]. rewrite Hg.
    case_decide; [|done]. subst. simpl in g_new_once0. apply NoDup_cons in g_new_once0 as [Hin _].
    exfalso. apply Hin, list_elem_of_omap. by exists (TNew id).
  - intros i ip Hi. destruct (g_pod1 i ip Hi) as (? & ? & Hq). split; [done |]. split; [done |].
    intros q [[-> ->]|?]%Hback; [|auto].
    destruct (g_pod0 id ip (list_elem_of_further _ _ _ Hi)) as (_ & Hx & _). exfalso. apply Hx. by left.
  - intros c x [[<- _]|[_ ?]]%lookup_insert_Some; [lia |]. apply g_cells1 in H. lia.
  - intros s x Hs. apply g_servers1 in Hs. lia.
  - intros i q [[-> ->]|Hq]%Hback; [lia |]. apply g_killer1 in Hq. lia.
  - intros c Hc. apply g_tcell1 in Hc. lia.
  - intros i q [[-> ->]|Hq]%Hback; [|eauto]. unfold has_routes. by rewrite Hst.
  - intros i q s x [[-> ->]|Hq]%Hback [? ?]%Hk'; [by rewrite Hk in * | eauto].
  - intros c c' s [? _]%Hk' [? _]%Hk'. eauto.
  - intros c s [? _]%Hk'. eauto.
  - intros s a Hs Ha. destruct (g_account1 s a Hs Ha) as [(i & q & Hq & ? & ?)|[(c & ? & ?)|?]].
    + left. exists i, q. simpl. rewrite Hg. split_and!; [|done|auto].
      case_decide; [congruence | done].
    + right. left. eauto.
    + by right; right.
  - intros s Hs. destruct (g_server1 s Hs) as [? Hc]. split; [lia |]. intros c [? _]%Hk'. by eapply Hc.
  - intros s Hs. destruct (g_dead1 s Hs). split; [lia | done].
  - intros s a Hs. destruct (g_bound1 s a Hs) as [Hc ?]. split; [|done].
    intros c [? _]%Hk'. by eapply Hc.
  - intros c s a Hi. destruct (g_fresh1 c s a Hi) as (? & ? & Hf & ?). split; [auto |].
    split; [done |]. split; [|done]. intros i q [[-> ->]|Hq]%Hback; [|eauto].
    rewrite Hk. intros <-. apply g_cells1 in H. lia.
Qed.

(** A server that has just been bound, while nothing serves the address. *)
Lemma Good_bind n w toks a :
  (forall s, ~ serving w s a) -> Good n w toks ->
  Good n (allocate (set_server (fresh w) (mkServer a Serving) w)) (TBound (fresh w) a :: toks).
Proof.
  intros Hfree [].
  assert (Hold : forall s x, servers w !! s = Some x ->
    <[fresh w := mkServer a Serving]> (servers w) !! s = Some x).
  { intros s x Hs. rewrite lookup_insert_ne; [done |]. intros <-. apply g_servers0 in Hs. lia. }
  assert (Hback : forall s x, <[fresh w := mkServer a Serving]> (servers w) !! s = Some x ->
    (s = fresh w /\ x = mkServer a Serving) \/ servers w !! s = Some x)
    by (intros s x [[<- <-]|[? ?]]%lookup_insert_Some; auto).
  assert (Hcell : forall c, killers w !! c <> Some (Some (fresh w))).
  { intros c Hc. apply g_cell_server0 in Hc as [x Hx]. apply g_servers0 in Hx. lia. }
  assert (Howned : fresh w ∉ omap owned toks).
  { intros (t & Ht & Et)%list_elem_of_omap. destruct t; simplify_eq/=.
    - apply g_server0 in Ht as [? _]. lia.
    - apply g_bound0 in Ht as (_ & st & Hs & _). apply g_servers0 in Hs. lia.
    - apply g_fresh0 in Ht as (_ & _ & _ & st & Hs & _). apply g_servers0 in Hs. lia. }
  constructor; unfold serving in *; simpl; eauto; try (intros *; intros Hi%elem_of_tail; eauto; done).
  - intros id ip Hi%elem_of_tail; [|done]. destruct (g_pod0 id ip Hi) as (? & ? & ?).
    split; [done |]. split; [|done]. by intros ?%elem_of_tail.
  - intros c x Hc. apply g_cells0 in Hc. lia.
  - intros s x [[-> _]|Hs]%Hback; [lia |]. apply g_servers0 in Hs. lia.
  - intros id p Hp. apply g_killer0 in Hp. lia.
  - intros c Hc%elem_of_tail; [|done]. apply g_tcell0 in Hc. lia.
  - intros s1 s2 b [[-> [= ->]]|H1]%Hback [[-> ?]|H2]%Hback; simplify_eq; [done | | | eauto];
      exfalso; by eapply Hfree.
  - intros id p s x Hp Hc [[-> _]|Hs]%Hback; [by apply Hcell in Hc | eauto].
  - intros c s Hc. destruct (g_cell_server0 c s Hc) as [x Hx]. eauto.
  - by apply NoDup_cons.
  - intros s b Hs [[-> _]|Ha]%Hback; [right; right; by left |].
    destruct (g_account0 s b Hs Ha) as [?|[(c & ? & ?)|?]]; [by left | |].
    + right. left. exists c. split; [by apply list_elem_of_further | done].
    + right. right. simpl. by apply list_elem_of_further.
  - intros s Hs%elem_of_tail; [|done]. destruct (g_server0 s Hs). split; [lia | done].
  - intros s Hs%elem_of_tail; [|done]. destruct (g_dead0 s Hs) as [? Hd]. split; [lia |].
    intros b [[-> _]|?]%Hback; [lia | by eapply Hd].
  - intros s b [[= -> ->]|Hi]%elem_of_cons.
    + split; [done |]. exists Serving. by rewrite lookup_insert_eq.
    + destruct (g_bound0 s b Hi) as (? & st & ? & ?). split; [done |]. exists st. auto.
  - intros c s b Hi%elem_of_tail; [|done]. destruct (g_fresh0 c s b Hi) as (? & ? & ? & st & ? & ?).
    split; [done |]. split; [by intros ?%elem_of_tail |]. split; [done |]. exists st. auto.
Qed.

(** Its killer cell. *)
Lemma Good_cell n w toks s a :
  Good n w (TBound s a :: toks) ->
  Good n (allocate (set_cell (fresh w) (Some s) w)) (TFresh (fresh w) s a :: toks).
Proof.
  intros [].
  destruct (g_bound0 s a ltac:(by left)) as (Hnc & st & Hst & Hserv).
  assert (Hback : forall c x, <[fresh w := Some s]> (killers w) !! c = Some x ->
    (c = fresh w /\ x = Some s) \/ killers w !! c = Some x)
    by (intros c x [[<- <-]|[? ?]]%lookup_insert_Some; auto).
  assert (Hfwd : forall c x, killers w !! c = Some x ->
    <[fresh w := Some s]> (killers w) !! c = Some x).
  { intros c x Hc. rewrite lookup_insert_ne; [done |]. intros <-. apply g_cells0 in Hc. lia. }
  assert (Hin : forall t, t ∈ TFresh (fresh w) s a :: toks -> t <> TFresh (fresh w) s a ->
    t ∈ TBound s a :: toks) by (intros t Ht Hne; apply list_elem_of_further; by eapply elem_of_tail).
  simpl in g_owned_once0. apply NoDup_cons in g_owned_once0 as [Hs_own Hnd].
  assert (Hother : forall t, t ∈ toks -> owned t <> Some s)
    by (intros t Ht Ho; apply Hs_own, list_elem_of_omap; eauto).
  constructor; unfold serving in *; simpl; eauto;
    try (intros *; intros Hi%Hin; eauto; done).
  - intros id ip Hi%Hin; [|done]. destruct (g_pod0 id ip Hi) as (? & Hn & ?).
    split; [done |]. split; [|done]. intros ?%elem_of_tail; [|done]. by apply Hn, list_elem_of_further.
  - intros c x [[-> _]|Hc]%Hback; [lia |]. apply g_cells0 in Hc. lia.
  - intros s' x Hs. apply g_servers0 in Hs. lia.
  - intros id p Hp. apply g_killer0 in Hp. lia.
  - intros c Hc%Hin; [|done]. apply g_tcell0 in Hc. lia.
  - intros id p s' x Hp [[Hk _]|Hc]%Hback Hx; [|eauto]. apply g_killer0 in Hp. lia.
  - intros c c' s' [[-> ?]|Hc]%Hback [[-> ?]|Hc']%Hback; simplify_eq; [done | | | eauto]; naive_solver.
  - intros c s' [[-> [= ->]]|Hc]%Hback; eauto.
  - by apply NoDup_cons.
  - intros s' b Hs Ha. destruct (g_account0 s' b Hs Ha) as [(id & p & ? & ? & ?)|[(c & Hc & ?)|Ho]].
    + left. exists id, p. auto.
    + right. left. exists c. split; [|auto].
      apply list_elem_of_further. by eapply elem_of_tail.
    + right. right. exact Ho.
  - intros s' Hi%elem_of_tail; [|done].
    destruct (g_server0 s' (list_elem_of_further _ _ _ Hi)) as [? Hc]. split; [lia |].
    intros c [[_ [= ->]]|?]%Hback; [|by eapply Hc]. by apply (Hother _ Hi).
  - intros s' Hi%Hin; [|done]. destruct (g_dead0 s' Hi). split; [lia | done].
  - intros s' b Hi%elem_of_tail; [|done].
    destruct (g_bound0 s' b (list_elem_of_further _ _ _ Hi)) as [Hc ?]. split; [|done].
    intros c [[_ [= ->]]|?]%Hback; [|by eapply Hc]. by apply (Hother _ Hi).
  - intros c s' b [[= -> -> ->]|Hi]%elem_of_cons.
    + split; [by rewrite lookup_insert_eq |]. split.
      { intros Hc%elem_of_tail; [|done]. pose proof (g_tcell0 _ (list_elem_of_further _ _ _ Hc)). lia. }
      split; [|eauto]. intros id p Hp Hk. apply g_killer0 in Hp. lia.
    + destruct (g_fresh0 c s' b (list_elem_of_further _ _ _ Hi)) as (? & Hn & ? & ?).
      split; [auto |]. split; [|done]. intros Hc%elem_of_tail; [|done].
      by apply Hn, list_elem_of_further.
Qed.

(** A killer taken out of its cell, by a call that holds the cell. *)
Lemma Good_take n w toks t c s :
  (t = TCell c \/ exists a, t = TFresh c s a) -> killers w !! c = Some (Some s) ->
  Good n w (t :: toks) -> Good n (set_cell c None w) (TServer s :: toks).
Proof.
  intros Ht Hc [].
  assert (Hback : forall c' s', <[c := None]> (killers w) !! c' = Some (Some s') ->
    killers w !! c' = Some (Some s') /\ c' <> c)
    by (intros c' s' [[_ ?]|[? ?]]%lookup_insert_Some; [done | auto]).
  assert (Hfwd : forall c' s', killers w !! c' = Some (Some s') -> c' <> c ->
    <[c := None]> (killers w) !! c' = Some (Some s')) by (intros; by rewrite lookup_insert_ne).
  assert (Hin : forall x, x ∈ TServer s :: toks -> x <> TServer s -> x ∈ t :: toks)
    by (intros x Hx Hne; apply list_elem_of_further; by eapply elem_of_tail).
  assert (Hs : forall x, x ∈ toks -> owned x <> Some s).
  { intros x Hx Hs. destruct Ht as [->|[a ->]].
    - assert (Hx' : x ∈ TCell c :: toks) by (by apply list_elem_of_further). destruct x; simplify_eq/=.
      + apply g_server0 in Hx' as [_ H]. by eapply H.
      + apply g_bound0 in Hx' as [H _]. by eapply H.
      + apply g_fresh0 in Hx' as (H & Hn & _). rewrite (g_one_cell0 _ _ _ H Hc) in Hn.
        apply Hn. by left.
    - simpl in g_owned_once0. apply NoDup_cons in g_owned_once0 as [H _].
      apply H, list_elem_of_omap. eauto. }
  assert (Hcne : forall c' s' a, TFresh c' s' a ∈ toks -> c' <> c).
  { intros c' s' a Hi ->. apply (Hs _ Hi). simpl.
    destruct (g_fresh0 _ _ _ (list_elem_of_further _ _ _ Hi)) as (H & _). congruence. }
  constructor; unfold serving in *; simpl; eauto;
    try (intros *; intros Hi%Hin; eauto; done).
  - by eapply NoDup_omap_tail.
  - intros id ip Hi%Hin; [|done]. destruct (g_pod0 id ip Hi) as (? & Hn & ?).
    split; [done |]. split; [|done]. intros ?%Hin; done.
  - intros c' x [[<- _]|[_ ?]]%lookup_insert_Some; eauto.
  - intros id p s' x Hp [? _]%Hback. eauto.
  - intros c1 c2 s' [? _]%Hback [? _]%Hback. eauto.
  - intros c' s' [? _]%Hback. eauto.
  - apply NoDup_cons. split; [|by eapply NoDup_omap_tail].
    intros (x & Hx & E)%list_elem_of_omap. by eapply Hs.
  - intros s' a Hsh Ha. unfold accounted, held. simpl.
    destruct (decide (s' = s)) as [->|Hne]; [right; right; by left |].
    destruct (g_account0 s' a Hsh Ha) as [(id & p & ? & ? & Hk)|[(c' & Hi & Hk)|Ho]].
    + left. exists id, p. split_and!; [done..|]. apply Hfwd; [done |]. congruence.
    + right. left. exists c'. assert (c' <> c) by congruence. split; [|auto].
      apply elem_of_cons in Hi as [<-|?]; [|by apply list_elem_of_further].
      destruct Ht as [[= ->]|[? ?]]; done.
    + right. right. apply list_elem_of_further. revert Ho. destruct Ht as [->|[b ->]]; simpl; [done |].
      intros [?|?]%elem_of_cons; done.
  - intros s' [[= ->]|Hi]%elem_of_cons.
    + split; [apply g_cell_server0 in Hc as [x Hx]; eauto |].
      intros c' [Hk ?]%Hback. eauto.
    + destruct (g_server0 s' (list_elem_of_further _ _ _ Hi)) as [? Hn]. split; [done |].
      intros c' [? _]%Hback. by eapply Hn.
  - intros s' a Hi%Hin; [|done]. destruct (g_bound0 s' a Hi) as [Hn ?]. split; [|done].
    intros c' [? _]%Hback. by eapply Hn.
  - intros c' s' a Hi%elem_of_tail; [|done].
    destruct (g_fresh0 c' s' a (list_elem_of_further _ _ _ Hi)) as (? & Hn & ? & ?).
    split; [apply Hfwd; eauto |]. split; [|done]. intros ?%elem_of_tail; [|done].
    by apply Hn, list_elem_of_further.
Qed.

(** A server that no longer serves. *)
Lemma Good_status n w toks s x st :
  servers w !! s = Some x -> st <> Serving ->
  (shutdown w = false -> forall a c, TBound s a ∉ toks /\ TFresh c s a ∉ toks) ->
  Good n w toks -> Good n (set_server s (mkServer (bound_to x) st) w) toks.
Proof.
  intros Hx Hst Hex [].
  set (srvs := <[s := mkServer (bound_to x) st]> (servers w)).
  assert (Hserv : forall s' a, srvs !! s' = Some (mkServer a Serving) -> serving w s' a)
    by (intros s' a [[_ ?]|[_ ?]]%lookup_insert_Some; simplify_eq; done).
  assert (Hdom : forall s' y, srvs !! s' = Some y -> exists y', servers w !! s' = Some y'
      /\ bound_to y = bound_to y')
    by (intros s' y [[<- <-]|[_ ?]]%lookup_insert_Some; eauto).
  assert (Hstat : forall s' a st', servers w !! s' = Some (mkServer a st') ->
    (shutdown w = false -> st' = Serving) -> (shutdown w = false -> s' <> s) ->
    exists st'', srvs !! s' = Some (mkServer a st'') /\ (shutdown w = false -> st'' = Serving)).
  { intros s' a st' Hs' Hsv Hne. unfold srvs. destruct (decide (s' = s)) as [->|Hd].
    - rewrite lookup_insert_eq. exists st. simplify_eq/=. split; [done |]. intros Hsh. by destruct (Hne Hsh).
    - rewrite lookup_insert_ne by done. eauto. }
  constructor; unfold serving in *; simpl; fold srvs; eauto.
  - intros s' y (y' & ? & _)%Hdom. eauto.
  - intros id p s' y Hp Hc (y' & ? & ->)%Hdom. eauto.
  - intros c s' Hc. destruct (decide (s' = s)) as [->|Hne]; unfold srvs.
    + rewrite lookup_insert_eq. eauto.
    + rewrite lookup_insert_ne by done. eauto.
  - intros s' Hi. destruct (g_dead0 s' Hi) as [? Hn]. split; [done |]. intros a Ha%Hserv. by eapply Hn.
  - intros s' a Hi. destruct (g_bound0 s' a Hi) as (? & st' & Hs' & Hsv). split; [done |].
    apply (Hstat _ _ _ Hs' Hsv). intros Hsh ->.
    by destruct (Hex Hsh a 0%nat) as [Hb _].
  - intros c s' a Hi. destruct (g_fresh0 c s' a Hi) as (? & ? & ? & st' & Hs' & Hsv).
    split_and!; [done..|]. apply (Hstat _ _ _ Hs' Hsv). intros Hsh ->.
    by destruct (Hex Hsh a c) as [_ Hf].
Qed.

Lemma Good_dead n w toks s :
  (forall a, ~ serving w s a) -> Good n w (TServer s :: toks) -> Good n w (TDead s :: toks).
Proof.
  intros Hns [].
  assert (Hin : forall x, x ∈ TDead s :: toks -> x <> TDead s -> x ∈ TServer s :: toks)
    by (intros x Hx Hne; apply list_elem_of_further; by eapply elem_of_tail).
  destruct (g_server0 s ltac:(by left)) as [Hs _].
  constructor; eauto; try (intros *; intros Hi%Hin; eauto; done).
  - intros id ip Hi%Hin; [|done]. destruct (g_pod0 id ip Hi) as (? & Hn & ?).
    split; [done |]. split; [|done]. intros ?%Hin; done.
  - simpl in *. by apply NoDup_cons in g_owned_once0 as [_ ?].
  - intros s' a Hsh Ha. destruct (g_account0 s' a Hsh Ha) as [?|[(c & Hc & ?)|Ho]]; [by left | |].
    + right. left. exists c. split; [|done]. apply list_elem_of_further. by eapply elem_of_tail.
    + right. right. simpl in *. apply elem_of_cons in Ho as [->|?]; [|done]. by apply Hns in Ha.
  - intros s' [[= ->]|Hi]%elem_of_cons; [done | eauto using list_elem_of_further].
  - intros c s' a Hi%Hin; [|done]. destruct (g_fresh0 c s' a Hi) as (? & Hn & ?).
    split; [done |]. split; [|done]. intros ?%Hin; done.
Qed.

(** The pod of a started container replaces the one that was [Starting]: the killer it
    overwrites holds no server, for it would serve the address the new one does. *)
Lemma Good_publish n w w' toks id existing p c s ip :
  same_processes w w' -> get w id = Some existing -> state existing <> PodState.Killed ->
  (forall id', get w' id' = if decide (id' = id) then Some p else get w id') ->
  state p <> PodState.Killed -> killer p = c -> ip_address p = ip -> has_routes p ->
  Good n w (TFresh c s (address ip) :: TPod id ip :: toks) -> Good n w' toks.
Proof.
  intros (E1 & E2 & E3 & E4 & E5) He Hek Hg Hpk Hk Hip Hr HG. pose proof HG as [].
  destruct (g_fresh0 c s (address ip) ltac:(by left)) as (Hc & Hnc & Hnk & st & Hst & Hserv).
  destruct (g_pod0 id ip ltac:(right; by left)) as (Hid & _ & Hpip).
  assert (Hback : forall i q, get w' i = Some q -> (i = id /\ q = p) \/ get w i = Some q)
    by (intros i q; rewrite Hg; case_decide; [intros [= <-]; auto | auto]).
  simpl in g_owned_once0. apply NoDup_cons in g_owned_once0 as [Hs_own Hnd].
  assert (Hin : forall x, x ∈ toks -> x ∈ TFresh c s (address ip) :: TPod id ip :: toks)
    by (intros; by do 2 apply list_elem_of_further).
  constructor; unfold serving in *; rewrite ?E1, ?E2, ?E3, ?E4, ?E5; eauto.
  - intros i q [[-> ->]|Hq]%Hback; eauto.
  - intros i Hi. destruct (g_new0 i (Hin _ Hi)) as [? Hn]. split; [done |]. rewrite Hg.
    case_decide; [congruence | done].
  - intros i ip' Hi. destruct (g_pod0 i ip' (Hin _ Hi)) as (? & Hn & Hq). split; [done |].
    split; [intros Hx; by apply Hn, Hin |]. intros q [[-> ->]|?]%Hback; [|auto].
    rewrite Hip, <- (Hq _ He). symmetry. by apply Hpip.
  - intros i q [[-> ->]|Hq]%Hback; [rewrite Hk |]; eauto.
  - intros i q [[-> ->]|Hq]%Hback; eauto.
  - intros i q s' x [[-> ->]|Hq]%Hback Hc' Hx; [|eauto]. rewrite Hk in Hc'. simplify_eq. done.
  - intros s' a Hsh Ha. unfold accounted, held. rewrite E3.
    assert (Hp : s' = s -> exists i q, get w' i = Some q /\ state q <> PodState.Killed
      /\ killers w !! killer q = Some (Some s')).
    { intros ->. exists id, p. by rewrite Hg, decide_True, Hk. }
    destruct (g_account0 s' a Hsh Ha) as [(i & q & Hq & Hqs & Hqc)|[(c' & Hc' & ?)|Ho]].
    + left. destruct (decide (i = id)) as [->|Hne].
      * apply Hp. simplify_eq.
        pose proof (g_cell_addr0 _ _ _ _ He Hqc Ha) as Hb. simpl in Hb.
        rewrite (Hpip _ He) in Hb. subst a. rewrite (Hserv Hsh) in Hst. eauto.
      * exists i, q. by rewrite Hg, decide_False.
    + right. left. exists c'. split; [|done]. apply elem_of_tail in Hc'; [|done].
      by apply elem_of_tail in Hc'.
    + simpl in Ho. apply elem_of_cons in Ho as [->|Ho]; [left; auto | by right; right].
  - intros c' s' a Hi. destruct (g_fresh0 c' s' a (Hin _ Hi)) as (Hc' & Hn & Hnk' & Hst').
    split; [done |]. split; [intros Hx; by apply Hn, Hin |]. split; [|done].
    intros i q [[-> ->]|Hq]%Hback; [|eauto]. rewrite Hk. intros <-.
    assert (s' = s) as -> by congruence.
    apply Hs_own, list_elem_of_omap. exists (TFresh c s a). done.
Qed.

(** ** The calls *)
Definition in_bound (n : nat) : Prop := Z.of_nat n < 2 ^ 64.
Abbreviation wp := (wp Good in_bound (fun _ _ => True)).

(** What a closure that neither removes nor adds an entry must respect. *)
Definition mild {A} (toks : list Tok) (entry : option Pod) (op : Operation Pod A) : Prop :=
  match op, entry with
  | Insert p', Some p =>
      killer p' = killer p /\ ip_address p' = ip_address p /\ (has_routes p -> has_routes p')
      /\ (state p' = PodState.Killed -> TCell (killer p) ∈ toks)
  | Abort _, _ => True
  | _, _ => False
  end.

Lemma Good_compute {A} n w m toks id (op : Operation Pod A) :
  (forall id', pm_get m id' = if decide (id' = id) then entry_after (get w id) op else get w id') ->
  mild toks (get w id) op -> Good n w toks -> Good n (set_pods m w) toks.
Proof.
  intros Hm Hop HG. destruct op as [p'| |a]; simpl in Hop; [| by destruct (get w id) |].
  - destruct (get w id) as [p|] eqn:E; [|done]. destruct Hop as (? & ? & Hr & ?).
    eapply (Good_update n w _ _ id p p'); eauto; [by split_and! |]. apply Hr. by eapply g_routes.
  - apply (Good_same n w); [by split_and! | | exact HG]. intros i. simpl. rewrite Hm. by case_decide; subst.
Qed.

(** A [compute] whose closure is mild, and what its effect on the rest of the world keeps. *)
Lemma wp_compute {A B} own own' id (closure : World -> Answer -> option Pod -> Operation Pod A * B)
    effect (Q : Compute Pod A * B -> list Tok -> Prop) :
  (forall n a w rest, Good n w (own ++ rest) -> exists mid,
     Good n w (mid ++ rest) /\ mild (mid ++ rest) (get w id) (fst (closure w a (get w id))) /\
     forall c w', computed (get w id) (fst (closure w a (get w id))) = Some c ->
       Good n w' (mid ++ rest) -> same_processes w w' ->
       (forall i, get w' i = if decide (i = id) then entry_after (get w id) (fst (closure w a (get w id))) else get w i) ->
       Good n (effect (snd (closure w a (get w id))) w') (own' c (snd (closure w a (get w id))) ++ rest)
       /\ Q (c, snd (closure w a (get w id))) (own' c (snd (closure w a (get w id))))) ->
  wp (compute id closure effect) own Q.
Proof.
  intros H. apply wp_atomic; [done |]. intros n a w rest r w' Hn HG Hf.
  destruct (H n a w rest HG) as (mid & HG' & Hmild & Hk). revert Hf. intros Hf.
  apply (compute_inv _ _ _ _ _ _ _ (fun r w' => exists own', Good (S n) w' (own' ++ rest) /\ Q r own') Hf).
  intros c m Hc Hm.
  destruct (Hk c (set_pods m w) Hc) as [HG2 HQ];
    [by eapply Good_compute | by split_and! | exact Hm |].
  eauto using Good_tick.
Qed.

Lemma Good_set_future n w toks f r : Good n w toks -> Good n (set_future f r w) toks.
Proof. by apply Good_same; [split_and!|]. Qed.

Lemma Good_call_ipam n w toks c : Good n w toks -> Good n (call_ipam c w) toks.
Proof. by apply Good_same; [split_and!|]. Qed.

Lemma Good_spawn_grpc n w toks : Good n w toks -> Good n (spawn_grpc w) toks.
Proof. apply Good_fresh; try done. simpl. lia. Qed.

(** What a call may return: none of the errors the code calls logically impossible, except
    the two of [juggling_routes] and [unkillable]. *)
Definition possible {A} (r : outcome StateError A) : Prop :=
  match r with
  | Failed (PodIdCollision _) | Failed RoutesMissing | Failed RoutesAbsent
  | Failed StateMachineImpossible | Crash _ => False
  | _ => True
  end.

Definition returns {A} (r : outcome StateError A) (own : list Tok) : Prop := own = [] /\ possible r.

Lemma wp_init n m l a : wp (init_pod n m l a) [] returns.
Proof.
  unfold init_pod. eapply wp_pbind with (Q' := fun id own => own = [TNew id]).
  { apply wp_atomic; [done |]. intros k a' w rest id w' Hk HG [= <- <-].
    exists [TNew (next_pod_id w)]. split; [by apply Good_next | done]. }
  intros id own ->. eapply wp_pbind with (Q' := fun r own =>
    match r with Done _ => own = [TNew id] | Failed e => own = [] /\ possible r | Crash _ => False end).
  { apply wp_atomic; [done |]. intros k a' w rest r w' Hk HG Hf. apply Good_tick in HG.
    destruct (a_address a') as [[addr len]|]; simplify_eq/=.
    - exists [TNew id]. split; [by apply Good_call_ipam | done].
    - exists []. split; [|done]. apply Good_call_ipam. by apply Good_drop in HG. }
  intros [ip|e|c] own; [intros -> | intros [-> ?]; done | done].
  apply wp_atomic; [done |]. intros k a' w rest r w' Hk HG Hf.
  destruct (pm_try_insert _ _ _) as [ok m'] eqn:E. simplify_eq/=.
  apply pm_try_insert_spec in E as [-> Hm].
  destruct (g_new _ _ _ HG id ltac:(by left)) as [_ Hnone]. rewrite Hnone in *.
  exists []. split; [|done]. apply Good_tick.
  by eapply (Good_insert k w m' rest id).
Qed.

Lemma wp_create n m l a e i : wp (create_container n m l a e i) [] returns.
Proof.
  unfold create_container. eapply wp_pbind with (Q' := fun r own => own = [] /\
    match fst r with Inserted _ | Removed _ => False | Aborted (Some e) => possible (Failed (A := unit) e) | _ => True end).
  2: { intros [c ?] own [-> Hc]. split; [done |]. destruct c as [| | |[]]; done. }
  apply (wp_compute [] (fun _ _ => [])). intros k a' w rest HG. exists []. split; [done |].
  assert (Hsp : forall w', Good k w' rest -> forall b : bool,
    Good k (if b then spawn_grpc w' else w') rest)
    by (intros w' ? []; [by apply Good_spawn_grpc | done]).
  destruct (get w (p_pod n)) as [pod|]; [|by split; [done|]; intros c w' [= <-]].
  unfold create_entry. destruct (state pod) eqn:Es; simpl; try (case_match; simpl);
    (split; [done || (split_and!; try done; unfold has_routes; simpl; rewrite Es; by try case_match) |]).
  all: intros c w' [= <-] HG' _ _; split; [first [by apply Good_spawn_grpc | by apply Hsp | done] | done].
Qed.

Lemma listening_spec w a : listening w a = false -> forall s, ~ serving w s a.
Proof.
  intros H s Hs. apply not_true_iff_false in H. apply H. unfold listening.
  apply existsb_exists. exists (s, mkServer a Serving).
  split; [by apply list_elem_of_In, elem_of_map_to_list |]. by rewrite !bool_decide_eq_true_2.
Qed.

Lemma wp_tcp_bind id ip : wp (tcp_bind (address ip)) [TPod id ip]
  (fun r own => match r with Some s => own = [TBound s (address ip); TPod id ip] | None => own = [] end).
Proof.
  apply wp_atomic; [done |]. intros n a w rest r w' _ HG Hf. apply Good_tick in HG.
  destruct (a_bind a && negb (listening w (address ip))) eqn:E; simplify_eq/=.
  - exists [TBound (fresh w) (address ip); TPod id ip]. split; [|done].
    apply andb_true_iff in E as [_ E%negb_true_iff]. apply Good_bind; [by apply listening_spec | done].
  - exists []. split; [by apply Good_drop in HG | done].
Qed.

Lemma wp_take_killer t c : (t = TCell c \/ exists s a, t = TFresh c s a) ->
  wp (take_killer c) [t] (fun r own => match r with Some s => own = [TServer s] | None => own = [] end).
Proof.
  intros Ht. apply wp_atomic; [done |]. intros n a w rest r w' _ HG Hf. apply Good_tick in HG. simpl in HG.
  assert (Hnone : (forall s, killers w !! c <> Some (Some s)) -> Good (S n) w rest).
  { intros Hn. eapply Good_drop; [|exact HG]. destruct Ht as [->|(s & b & ->)]; simpl.
    - intros s b Hs. by apply Hn in Hs.
    - destruct (g_fresh _ _ _ HG c s b ltac:(by left)) as [Hs _]. by apply (Hn s). }
  destruct (killers w !! c) as [[s|]|] eqn:E; simplify_eq/=.
  - exists [TServer s]. split; [|done]. eapply Good_take; [|exact E|exact HG].
    destruct Ht as [->|(s' & b & ->)]; [by left |].
    destruct (g_fresh _ _ _ HG c s' b ltac:(by left)) as [Hs _]. simplify_eq. eauto.
  - exists []. split; [|done]. unfold set_cell. rewrite insert_id by done.
    eapply Good_same; [| |by apply Hnone]; [by split_and! | done].
  - exists []. split; [by apply Hnone | done].
Qed.

Lemma owned_elsewhere n w t s toks :
  owned t = Some s -> Good n w (t :: toks) -> forall t', t' ∈ toks -> owned t' <> Some s.
Proof.
  intros Ht HG t' Hi Ho. pose proof (g_owned_once _ _ _ HG) as Hnd. simpl in Hnd. rewrite Ht in Hnd.
  apply NoDup_cons in Hnd as [Hn _]. apply Hn, list_elem_of_omap. eauto.
Qed.

(** Ending a server that no one else owns. *)
Lemma Good_end n w t s toks :
  (t = TServer s \/ t = TDead s) -> Good n w (t :: toks) ->
  Good n (end_server s w) (TDead s :: toks) .
Proof.
  intros Ht HG.
  assert (Hns : forall a, ~ serving (end_server s w) s a).
  { intros a. unfold serving, end_server. destruct (servers w !! s) as [x|] eqn:E; simpl; [|congruence].
    rewrite lookup_insert_eq. congruence. }
  assert (HG' : Good n (end_server s w) (t :: toks)).
  { unfold end_server. destruct (servers w !! s) as [x|] eqn:E; [|done].
    apply Good_status; [done | done | | done]. intros Hsh a c. split; intros Hi.
    - destruct Ht as [->| ->].
      + apply elem_of_tail in Hi; [|done]. by eapply (owned_elsewhere n w (TServer s)).
      + destruct (g_bound _ _ _ HG s a Hi) as (_ & st & Hs & Hsv). rewrite (Hsv Hsh) in Hs.
        destruct (g_dead _ _ _ HG s ltac:(by left)) as [_ Hd]. by eapply Hd.
    - destruct Ht as [->| ->].
      + apply elem_of_tail in Hi; [|done]. by eapply (owned_elsewhere n w (TServer s)).
      + destruct (g_fresh _ _ _ HG c s a Hi) as (_ & _ & _ & st & Hs & Hsv). rewrite (Hsv Hsh) in Hs.
        destruct (g_dead _ _ _ HG s ltac:(by left)) as [_ Hd]. by eapply Hd. }
  destruct Ht as [->| ->]; [by apply Good_dead | done].
Qed.

Lemma wp_abort_task t s : (t = TServer s \/ t = TDead s) -> wp (abort_task s) [t] (fun _ own => own = []).
Proof.
  intros Ht. apply wp_atomic; [done |]. intros n a w rest [] w' _ HG [= <-]. apply Good_tick in HG.
  exists []. split; [|done]. eapply Good_drop; [|by eapply Good_end]. done.
Qed.

Lemma wp_take_and_abort c s a : wp (take_and_abort c) [TFresh c s a] (fun _ own => own = []).
Proof.
  unfold take_and_abort. eapply wp_pbind; [apply wp_take_killer; eauto |].
  intros [s'|] own ->; [apply wp_abort_task; by left | done].
Qed.

Lemma wp_kill_with_timeout s d : wp (kill_with_timeout s d) [TServer s] (fun _ own => own = []).
Proof.
  unfold kill_with_timeout. eapply wp_pbind with (Q' := fun _ own => own = [TDead s]).
  { apply wp_atomic; [done |]. intros n a w rest r w' _ HG Hf. apply Good_tick in HG. simpl in HG.
    exists [TDead s]. split; [|destruct r; done].
    destruct (servers w !! s) as [x|] eqn:E; [|simplify_eq; apply Good_dead; [|done]].
    - destruct (decide (status x = Serving)); simplify_eq.
      + apply Good_dead; [intros a'; unfold serving; simpl; rewrite lookup_insert_eq; congruence |].
        apply Good_status; [done | done | | done]. intros _ a' c.
        split; intros Hi%elem_of_tail; try done; by eapply (owned_elsewhere (S n) w (TServer s)).
      + apply Good_dead; [|done]. intros a' Hs. unfold serving in Hs. by simplify_eq.
    - intros a' Hs. unfold serving in Hs. by simplify_eq. }
  intros sent own ->.
  eapply wp_pbind with (Q' := fun (joined : bool) own => own = if joined then [] else [TDead s]).
  { destruct sent; [|done]. apply wp_atomic; [done |]. intros n a w rest r w' _ HG Hf. apply Good_tick in HG.
    destruct (a_join a); simplify_eq; [|by exists [TDead s]].
    exists []. split; [|done]. eapply Good_drop; [|eapply Good_end; [by right | done]]. done. }
  intros [] own ->; [done |].
  eapply wp_pbind; [by apply wp_abort_task; right | done].
Qed.

Definition start_token (id : Z) {A} (c : Compute Pod A) : list Tok :=
  match c with Updated _ pod => [TPod id (ip_address pod)] | _ => [] end.

(** After the first [compute] of [start_container]. *)
Definition started (id : Z) (r : Compute Pod StartContainerAbort * StartWrites) (own : list Tok) : Prop :=
  own = start_token id (fst r) /\
  match fst r with
  | Updated _ pod => routes pod <> None /\ ready_routes (snd r) <> None
  | Aborted (AbortError e) => possible (A := unit) (Failed e)
  | Aborted _ => True
  | _ => False
  end.

Lemma wp_start_compute name :
  wp (compute (p_pod name) start_entry start_effect) [] (started (p_pod name)).
Proof.
  apply (wp_compute [] (fun c _ => start_token (p_pod name) c)). intros k a w rest HG. exists []. split; [done |].
  destruct (get w (p_pod name)) as [pod|] eqn:Ep; [|by split; [done |]; intros c w' [= <-]].
  unfold start_entry.
  destruct (state pod) eqn:Es; simpl; try (by split; [done |]; intros c w' [= <-]).
  destruct (routes pod) as [f|] eqn:Er.
  2: { pose proof (g_routes _ _ _ HG _ _ Ep) as Hr. unfold has_routes in Hr. by rewrite Es in Hr. }
  destruct (peek w f) as [[|cell]|]; simpl.
  - split; [split_and!; [done | done | unfold has_routes; simpl; congruence | done] |].
    intros c w' [= <-] HG' Hw Hg. split; [|split; [done |]; simpl; by rewrite Er].
    apply (Good_add_pod k w' rest (p_pod name) (with_state PodState.Starting pod)); [|done].
    by rewrite Hg, decide_True.
  - split; [done |]. intros c w' [= <-] HG' _ _. split; [by apply Good_set_future |].
    split; [done |]. by destruct cell.
  - by split; [done |]; intros c w' [= <-].
Qed.

Lemma wp_unlock name own : wp (compute (p_pod name) unlock_entry no_effect) own (fun _ own' => own' = own).
Proof.
  apply (wp_compute own (fun _ _ => own)). intros k a w rest HG. exists own. split; [done |].
  destruct (get w (p_pod name)) as [pod|] eqn:Ep; simpl; [|by split; [done |]; intros c w' [= <-]].
  destruct (state pod) eqn:Es; simpl; (split; [|by intros c w' [= <-]]); try done.
  split_and!; [done | done | unfold has_routes; by rewrite Es | done].
Qed.

Lemma wp_publish name pod s :
  state pod = PodState.Running -> routes pod <> None ->
  wp (compute (p_pod name) (publish_entry pod) no_effect)
    [TFresh (killer pod) s (address (ip_address pod)); TPod (p_pod name) (ip_address pod)]
    (fun r own => match fst r with
                  | Updated _ _ => own = []
                  | Aborted e => own = [TFresh (killer pod) s (address (ip_address pod))]
                                 /\ possible (A := unit) (Failed e)
                  | _ => False
                  end).
Proof.
  intros Hst Hr. apply wp_atomic; [done |]. intros n a w rest r w' _ HG Hf. apply Good_tick in HG.
  apply (compute_inv _ _ _ _ _ _ _ (fun r w' => exists own', Good (S n) w' (own' ++ rest) /\
    match fst r with Updated _ _ => own' = [] | Aborted e => own' = _ /\ _ | _ => False end) Hf).
  intros c m Hc Hm. unfold no_effect. simpl.
  assert (Habort : (forall i, pm_get m i = get w i) -> Good (S n) (set_pods m w)
    ([TFresh (killer pod) s (address (ip_address pod))] ++ rest)).
  { intros Hsame. apply (Good_same (S n) w); [by split_and! | done |]. simpl.
    eapply (Good_drop _ _ (TPod _ _)); [done |]. eapply Good_perm; [|exact HG]. constructor. }
  destruct (get w (p_pod name)) as [existing|] eqn:Ep; simpl in Hc, Hm.
  2: { injection Hc as <-. eexists. split; [|done]. apply Habort. intros i. rewrite Hm. by case_decide; subst. }
  destruct (decide (state existing = PodState.Starting)) as [Es|Es].
  - rewrite Es in Hc, Hm. injection Hc as <-. exists []. split; [|done].
    apply (Good_publish (S n) w (set_pods m w) rest (p_pod name) existing pod (killer pod) s
      (ip_address pod)); try congruence; [by split_and! | exact Hm | unfold has_routes; by rewrite Hst | exact HG].
  - assert (Hab : c = Aborted (StateChangedWhileStarting (state existing))
      /\ forall i, pm_get m i = get w i) by
      (destruct (state existing); simpl in Hc, Hm; simplify_eq; (split; [done |]);
       intros i; rewrite Hm; case_decide; by subst).
    destruct Hab as [-> Hsame]. eexists. split; [by apply Habort | done].
Qed.

Lemma wp_start_without_wait name : wp (start_container_without_wait name) [] returns.
Proof.
  unfold start_container_without_wait. eapply wp_pbind; [apply wp_start_compute |].
  intros [c written] own [-> Hc]. simpl in Hc. destruct c as [|old pod| |[]]; try done; cbn [fst snd start_token].
  destruct Hc as [Hr Hrd]. destruct (ready_routes written) as [f|]; [|done].
  eapply wp_pbind; [apply wp_tcp_bind |]. intros [task|] own ->.
  2: { eapply wp_pbind; [apply wp_unlock | by intros r own ->]. }
  eapply wp_pbind with (Q' := fun '(cell, started_at) own =>
    own = [TFresh cell task (address (ip_address pod)); TPod (p_pod name) (ip_address pod)]).
  { apply wp_atomic; [done |]. intros n a w rest [cell t] w' _ HG [= <- <- <-]. apply Good_tick in HG.
    eexists. split; [|done]. by apply Good_cell. }
  intros [cell started_at] own ->.
  eapply wp_pbind; [by apply (wp_publish name (with_server started_at cell (with_state PodState.Running pod)) task) |].
  intros [c' []] own Hc'. simpl in Hc'. destruct c' as [|old' pod'| |e]; try done.
  destruct Hc' as [-> He]. eapply wp_pbind; [apply wp_take_and_abort | by intros [] own ->].
Qed.

Lemma wp_start name : wp (start_container name) [] returns.
Proof.
  unfold start_container. eapply wp_pbind; [apply wp_start_without_wait |].
  intros [[f|]|e|c] own [-> Hp]; try done.
  eapply wp_pbind with (Q' := fun _ own => own = []).
  { apply wp_atomic; [done |]. intros n a w rest [] w' _ HG Hf. apply Good_tick in HG. exists []. split; [|done].
    destruct (futures w !! f) as [[|]|]; simplify_eq; [by apply Good_set_future | done]. }
  intros [] own ->. eapply wp_pbind; [apply wp_start_without_wait |].
  intros [[f'|]|e|c] own [-> Hp']; done.
Qed.

Definition stop_token {A} (c : Compute Pod A) (prior : PodState.t) : list Tok :=
  match c with
  | Updated _ pod => if decide (prior = PodState.Running) then [TCell (killer pod)] else []
  | _ => []
  end.

Lemma wp_stop_compute name :
  wp (compute (p_pod name) stop_entry ignore) [] (fun r own => own = stop_token (fst r) (snd r) /\
    match fst r with
    | Updated _ _ | Aborted None => True
    | Aborted (Some e) => possible (A := unit) (Failed e)
    | _ => False
    end).
Proof.
  apply (wp_compute [] stop_token). intros k a w rest HG. exists []. split; [done |].
  destruct (get w (p_pod name)) as [pod|] eqn:Ep; simpl; [|by split; [done |]; intros c w' [= <-]].
  unfold stop_entry. destruct (state pod) eqn:Es; simpl; try (by split; [done |]; intros c w' [= <-]).
  split; [done |]. intros c w' [= <-] HG' _ Hg. split; [|done].
  apply (Good_add_cell k w' rest (p_pod name) (with_state PodState.Stopped pod)); [|done].
  by rewrite Hg, decide_True.
Qed.

Lemma wp_stop name t : wp (stop_container name t) [] returns.
Proof.
  unfold stop_container. eapply wp_pbind with (Q' := fun r own =>
    match r with Done (Some s) => own = [TServer s] | r => returns r own end).
  - unfold stop_container_without_wait. eapply wp_pbind; [apply wp_stop_compute |].
    intros [c prior] own [-> Hc]. simpl in Hc. destruct c as [|old pod| |[e|]]; try done.
    cbn [fst snd stop_token]. destruct (decide (prior = PodState.Running)); [|done].
    eapply wp_pbind; [apply wp_take_killer; by left |]. by intros [s|] own ->.
  - intros [[s|]|e|c] own Hr; try done. subst own.
    eapply wp_pbind; [apply wp_kill_with_timeout | by intros r own ->].
Qed.

Lemma wp_remove name : wp (remove_container name) [] returns.
Proof.
  unfold remove_container. eapply wp_pbind with (Q' := fun r own => own = [] /\
    match fst r with
    | Updated _ _ | Aborted None => True
    | Aborted (Some e) => possible (A := unit) (Failed e)
    | _ => False
    end).
  2: { intros [c ?] own [-> Hc]. destruct c as [| | |[e|]]; done. }
  apply (wp_compute [] (fun _ _ => [])). intros k a w rest HG. exists []. split; [done |].
  destruct (get w (p_pod name)) as [pod|]; simpl; [|by split; [done |]; intros c w' [= <-]].
  destruct (state pod) eqn:Es; simpl; (split; [done || by split_and! | by intros c w' [= <-]]).
Qed.

Definition kill_token {A} (c : Compute Pod A) (_ : unit) : list Tok :=
  match c with Updated _ pod => [TCell (killer pod)] | _ => [] end.

Lemma wp_kill_without_wait name : wp (kill_pod_without_wait name) [] (fun r own =>
  match r with Done (Some (cell, _)) => own = [TCell cell] | r => returns r own end).
Proof.
  unfold kill_pod_without_wait. eapply wp_pbind with (Q' := fun r own => own = kill_token (fst r) tt /\
    match fst r with
    | Updated _ _ | Aborted None => True
    | Aborted (Some e) => possible (A := unit) (Failed e)
    | _ => False
    end).
  2: { intros [c ?] own [-> Hc]. destruct c as [| | |[e|]]; done. }
  apply (wp_compute [] kill_token). intros k a w rest HG.
  destruct (get w (p_pod name)) as [pod|] eqn:Ep; simpl;
    [|exists []; by split; [done |]; split; [done |]; intros c w' [= <-]].
  destruct (decide (state pod = PodState.Killed)) as [Ek|Ek].
  - rewrite Ek. simpl. exists []. by split; [done |]; split; [done |]; intros c w' [= <-].
  - assert (E : forall A (x y : A), match state pod with PodState.Killed => x | _ => y end = y)
      by (intros; by destruct (state pod)).
    rewrite E. exists [TCell (killer pod)]. split; [by eapply Good_add_cell |]. split.
    + split_and!; [done | done | done |]. intros _. by left.
    + intros c w' [= <-] HG' _ _. done.
Qed.

Lemma wp_ipam_call call : wp (ipam_call call) [] returns.
Proof.
  apply wp_atomic; [done |]. intros n a w rest r w' _ HG [= <- <-]. exists [].
  split; [by apply Good_tick, Good_call_ipam |]. by destruct (a_ok a).
Qed.

Lemma wp_kill name : wp (kill_pod name) [] returns.
Proof.
  unfold kill_pod. eapply wp_pbind; [apply wp_kill_without_wait |].
  intros [[[cell ip]|]|e|c] own Hr; try by destruct Hr. subst own.
  eapply wp_pbind; [apply wp_take_killer; by left |]. intros k own Hk.
  eapply wp_pbind with (Q' := fun _ own => own = []).
  { destruct k as [s|]; subst own; [apply wp_kill_with_timeout | done]. }
  intros _ own' ->. eapply wp_pbind; [apply wp_ipam_call |].
  intros [[]|e|c] own' [-> Hp]; [apply wp_ipam_call | done | done].
Qed.

Lemma wp_delete name : wp (delete_pod name) [] returns.
Proof.
  unfold delete_pod. eapply wp_pbind with (Q' := fun r own => own = [] /\
    match fst r with
    | Removed _ => True
    | Aborted e => possible (A := unit) (Failed e)
    | _ => False
    end).
  2: { intros [c ?] own [-> Hc]. by destruct c. }
  apply wp_atomic; [done |]. intros n a w rest r w' _ HG Hf. apply Good_tick in HG.
  apply (compute_inv _ _ _ _ _ _ _ (fun r w' => exists own', Good (S n) w' (own' ++ rest) /\
    own' = [] /\ match fst r with Removed _ => True | Aborted e => possible (A := unit) (Failed e) | _ => False end) Hf).
  intros c m Hc Hm. exists []. unfold no_effect. simpl in HG |- *.
  assert (Habort : (forall i, pm_get m i = get w i) -> Good (S n) (set_pods m w) rest)
    by (intros Hs; by apply (Good_same (S n) w); [split_and! | |]).
  destruct (get w (p_pod name)) as [pod|] eqn:Ep; simpl in Hc, Hm.
  2: { injection Hc as <-. split; [|done]. apply Habort. intros i. rewrite Hm. by case_decide; subst. }
  destruct (state pod) eqn:Es; simpl in Hc, Hm; injection Hc as <-;
    try (split; [apply Habort; intros i; rewrite Hm; by case_decide; subst | done]).
  split; [|done]. eapply (Good_delete (S n) w); [by split_and! | exact Ep | done | exact Hm | done].
Qed.

Lemma program_wp c : wp (program c) [] (returns_good possible).
Proof.
  assert (Hn : forall p, wp p [] returns -> wp (named p) [] (returns_good possible)).
  { intros p Hp. unfold named. eapply wp_pbind; [exact Hp |]. by intros [|[]|] own [-> Hr]. }
  assert (Hu : forall p, wp p [] returns -> wp (unnamed p) [] (returns_good possible)).
  { intros p Hp. unfold unnamed. eapply wp_pbind; [exact Hp |]. by intros [|[]|] own [-> Hr]. }
  destruct c; unfold program.
  - apply Hn, wp_init.
  - apply Hu, wp_create.
  - apply Hu, wp_start.
  - apply Hu, wp_stop.
  - apply Hu, wp_remove.
  - apply Hu, wp_kill.
  - apply Hu, wp_delete.
Qed.

(** ** Runs *)
Abbreviation Conf := (@Conf World Answer (outcome StateError (option PodName))).

Lemma Good_start : Good 0 WorkRuntime_new [].
Proof.
  assert (Hg : forall id, get WorkRuntime_new id = None) by apply pm_get_new.
  assert (Hk : forall c, killers (M := M) WorkRuntime_new !! c = None) by (intros; apply lookup_empty).
  assert (Hs : forall s, servers (M := M) WorkRuntime_new !! s = None) by (intros; apply lookup_empty).
  constructor; unfold serving; intros *; rewrite ?Hg, ?Hk, ?Hs; try done;
    try (by intros ?%elem_of_nil); try constructor; done.
Qed.

Lemma Good_happen n h w w' toks : Good n w toks -> happen h w = Some w' -> Good (S n) w' toks.
Proof.
  intros HG%Good_tick H. destruct h as [|s|s]; simpl in H.
  - injection H as <-. destruct HG. constructor; simpl; eauto; try done.
    + intros s a Hb. destruct (g_bound0 s a Hb) as (? & st & ? & _). split; [done |]. by exists st.
    + intros c s a Hb. destruct (g_fresh0 c s a Hb) as (? & ? & ? & st & ? & _).
      split_and!; [done..|]. by exists st.
  - destruct (servers w !! s) as [x|] eqn:E; simplify_eq/=. case_match eqn:Ec; simplify_eq.
    apply andb_true_iff in Ec as [Hsh _]. apply Good_status; [done | done | congruence | done].
  - destruct (servers w !! s) as [x|] eqn:E; simplify_eq/=. case_match eqn:Ec; simplify_eq.
    apply bool_decide_eq_true in Ec. unfold end_server. rewrite E.
    apply Good_status; [done | done | | done]. intros Hsh a c. split; intros Hi.
    + destruct (g_bound _ _ _ HG s a Hi) as (_ & st & Hs & Hsv). rewrite (Hsv Hsh) in Hs. simplify_eq.
    + destruct (g_fresh _ _ _ HG c s a Hi) as (_ & _ & _ & st & Hs & Hsv). rewrite (Hsv Hsh) in Hs.
      simplify_eq.
Qed.

Lemma runs_ok es (c : Conf) :
  runs es start_of_day c -> Z.of_nat (length es) < 2 ^ 64 ->
  conf_ok Good in_bound (fun _ _ => True) (returns_good possible) (length es) c.
Proof.
  intros H Hlen. change (length es) with (0 + length es)%nat.
  eapply (exec_ok program happen Good in_bound (fun _ _ => True)); try exact H; try done.
  - unfold in_bound. lia.
  - intros n w t t' Hp HG. by eapply Good_perm.
  - apply Good_tick.
  - intros n h w w' t. apply Good_happen.
  - apply program_wp.
  - exists []. split; [constructor | apply Good_start].
Qed.

Definition in_flight (p : prog World Answer (outcome StateError (option PodName))) : Prop :=
  match p with Ret _ => False | Step _ _ => True end.

(** C3. No server is lost: while the node is not shutting down, every server that accepts
    connections belongs to a pod of the map, one that is not killed, through the killer the
    pod holds and on the pod's address; or a call is still in flight.  This holds after any
    interleaving of fewer than 2^64 steps of any calls. *)
Theorem no_server_lost es (c : Conf) s a
    (Hrun : runs es start_of_day c) (Hlen : Z.of_nat (length es) < 2 ^ 64)
    (Hup : shutdown (world c) = false) (Hserving : serving (world c) s a) :
  (exists id pod, get (world c) id = Some pod /\ state pod <> PodState.Killed
     /\ killers (world c) !! killer pod = Some (Some s) /\ address (ip_address pod) = a)
  \/ Exists in_flight (threads c).
Proof.
  destruct (runs_ok es c Hrun Hlen) as (owns & HF & HG).
  destruct (g_account _ _ _ HG s a Hup Hserving) as [(id & p & Hp & Hk & Hc)|Hother].
  { left. exists id, p. split_and!; [done..|].
    symmetry. apply (g_cell_addr _ _ _ HG id p s (mkServer a Serving) Hp Hc Hserving). }
  right. assert (Ht : exists t, t ∈ concat owns).
  { destruct Hother as [(cell & Hin & _)|(t & Hin & _)%list_elem_of_omap]; eauto. }
  destruct Ht as (t & (own & Hown & Ht)%list_elem_of_In%in_concat).
  apply list_elem_of_In, list_elem_of_lookup in Hown as [i Hi].
  destruct (Forall2_lookup_r _ _ _ _ _ HF Hi) as (p & Hp & Hw).
  apply Exists_exists. exists p. split; [by eapply list_elem_of_lookup_2 |].
  destruct p; [|done]. by destruct Hw as [-> _].
Qed.

(** Two servers never accept connections on the same address. *)
Lemma addresses_exclusive es (c : Conf) s1 s2 a
    (Hrun : runs es start_of_day c) (Hlen : Z.of_nat (length es) < 2 ^ 64)
    (H1 : serving (world c) s1 a) (H2 : serving (world c) s2 a) : s1 = s2.
Proof.
  destruct (runs_ok es c Hrun Hlen) as (owns & _ & HG). by eapply g_addr.
Qed.


End Invariant.
