(* ===== verification/StateCalls.v ===== *)
(** * The calls of the pod state machine, one by one

    - Which calls each state refuses ([rejected_calls], the crosses of the table in
      [README.md]).
    - Starting, stopping and killing with nothing else running.
    - Runs on concrete maps: the races behind the two errors the code calls impossible, the
      running container that is created again, and the address that is never freed. *)

From S2P Require Import Prelude Regexp Names Concurrent State StateSpec StateInvariant.

#[local] Open Scope Z_scope.

Section Calls.
Context {M : Type -> Type} {P : PapayaMap M} {PL : PapayaLaws M}.

Abbreviation World := (@World M).
Abbreviation get w id := (pm_get (pods w) id).
Abbreviation op := (prog World Answer).

Lemma run_pbind_assoc {A B R} (p : op A) (k : A -> op B) (k' : B -> op R) answers w :
  run_alone (pbind (pbind p k) k') answers w = run_alone (pbind p (fun x => pbind (k x) k')) answers w.
Proof.
  revert answers w. induction p as [x|X f k0 IH]; intros answers w; [done |]. simpl.
  destruct answers as [|a answers]; [done |]. destruct (f a w) as [[b w']|]; [apply IH | done].
Qed.

(** A [compute] that returns, with nothing else running. *)
Lemma run_compute {A B R} id (closure : World -> Answer -> option Pod -> Operation Pod A * B) effect
    (k : Compute Pod A * B -> op R) a answers w entry oper b c :
  get w id = entry -> closure w a entry = (oper, b) -> computed entry oper = Some c ->
  exists m, (forall id', pm_get m id' = if decide (id' = id) then entry_after entry oper else get w id')
    /\ run_alone (pbind (compute id closure effect) k) (a :: answers) w
       = run_alone (k (c, b)) answers (effect b (set_pods m w)).
Proof.
  intros <- Hcl Hc. destruct (pm_compute_returns (pods w) id (closure w a)) as [[[c' b'] m] Hm];
    [rewrite Hcl; simpl; by rewrite Hc |].
  pose proof (pm_compute_spec _ _ _ _ _ _ Hm) as (-> & Hc' & Hg). rewrite Hcl in *. simpl in *.
  rewrite Hc in Hc'. injection Hc' as <-.
  exists m. split; [exact Hg |]. simpl. by rewrite Hm.
Qed.

Lemma run_atomic {B R} (f : Answer -> World -> option (B * World)) (k : B -> op R) a answers w b w' :
  f a w = Some (b, w') -> run_alone (pbind (atomic f) k) (a :: answers) w = run_alone (k b) answers w'.
Proof. intros H. simpl. by rewrite H. Qed.

(** The next step of a run is a [compute], given the entry it finds and what its closure does. *)
Ltac compute_step Hpod Hentry m Hm :=
  rewrite ?run_pbind_assoc;
  match goal with
  | |- context [run_alone (pbind (compute ?id ?closure ?effect) ?k) (?a :: ?answers) ?w] =>
      destruct (run_compute id closure effect k a answers w _ _ _ _ Hpod Hentry eq_refl) as (m & Hm & ->)
  end; cbn [fst snd ready_routes pbind]; rewrite ?run_pbind_assoc.

(** The next step is another one. *)
Tactic Notation "atomic_step" tactic3(tac) :=
  erewrite run_atomic; [| solve [tac]]; cbn [pbind]; rewrite ?run_pbind_assoc.

(** ** Refused calls *)
Inductive Method := CreateContainer | StartContainer | StopContainer | RemoveContainer | StopPodSandbox
  | RemovePodSandbox.

(** The crosses of the table. *)
Definition refused (s : PodState.t) (m : Method) : bool :=
  match s, m with
  | PodState.Initiated, (StartContainer | StopContainer | RemoveContainer | RemovePodSandbox) => true
  | PodState.Created, (StopContainer | RemoveContainer | RemovePodSandbox) => true
  | (PodState.Starting | PodState.Running), (RemoveContainer | RemovePodSandbox) => true
  | PodState.Stopped, (CreateContainer | RemovePodSandbox) => true
  | PodState.Removed, (StartContainer | StopContainer | RemovePodSandbox) => true
  | PodState.Killed, (CreateContainer | StartContainer | StopContainer | RemoveContainer) => true
  | _, _ => false
  end.

Definition method_of (c : Call) : option (Method * PodName) :=
  match c with
  | CallInitPod _ _ _ _ => None
  | CallCreateContainer n _ _ _ _ _ => Some (CreateContainer, n)
  | CallStartContainer n => Some (StartContainer, n)
  | CallStopContainer n _ => Some (StopContainer, n)
  | CallRemoveContainer n => Some (RemoveContainer, n)
  | CallKillPod n => Some (StopPodSandbox, n)
  | CallDeletePod n => Some (RemovePodSandbox, n)
  end.


(** ** Starting, stopping, killing *)
Lemma decide_same {A} `{EqDecision A} (x : A) {B} (y z : B) : (if decide (x = x) then y else z) = y.
Proof. by rewrite decide_True. Qed.

(** C31. Starting a created pod whose routes are ready and whose address is free makes it
    [Running], with a server that accepts connections on its address and a killer for it. *)
Theorem start_runs w name pod f a1 a2 a3 a4
    (Hpod : get w (p_pod name) = Some pod) (Hst : state pod = PodState.Created)
    (Hr : routes pod = Some f) (Hready : futures w !! f = Some (Resolved InitOk))
    (Hfree : listening w (address (ip_address pod)) = false) (Hbind : a_bind a2 = true) :
  exists w', run_alone (start_container name) [a1; a2; a3; a4] w = Some (Done tt, w')
    /\ (forall id, get w' id = if decide (id = p_pod name)
          then Some (with_server (now a3) (S (fresh w)) (with_state PodState.Running pod)) else get w id)
    /\ killers w' = <[S (fresh w) := Some (fresh w)]> (killers w)
    /\ servers w' = <[fresh w := mkServer (address (ip_address pod)) Serving]> (servers w).
Proof.
  assert (Hentry : start_entry w a1 (Some pod)
    = (Insert (with_state PodState.Starting pod), mkStartWrites (Some f) None))
    by (unfold start_entry, peek; by rewrite Hst, Hr, Hready).
  unfold start_container, start_container_without_wait, tcp_bind, single_use_of.
  compute_step Hpod Hentry m Hm.
  atomic_step (simpl; unfold listening in *; simpl; rewrite Hbind, Hfree; reflexivity).
  atomic_step reflexivity.
  set (w3 := allocate _).
  assert (Hpod3 : get w3 (p_pod name) = Some (with_state PodState.Starting pod))
    by (simpl; by rewrite Hm, decide_same).
  match goal with |- context [publish_entry ?p] =>
    assert (Hpub : publish_entry p w3 a4 (Some (with_state PodState.Starting pod)) = (Insert p, tt)) by done
  end.
  compute_step Hpod3 Hpub m' Hm'.
  eexists. split; [reflexivity |]. split_and!; [| done | done].
  intros id. simpl. rewrite Hm'. case_decide; [done |]. simpl. rewrite Hm. by rewrite decide_False.
Qed.

(** Stopping a running container ends its server, whether it shuts down before the timeout
    or is aborted, and empties the killer. *)
Theorem stop_ends w name timeout pod s a a1 a2 a3 a4 a5
    (Hpod : get w (p_pod name) = Some pod) (Hst : state pod = PodState.Running)
    (Hk : killers w !! killer pod = Some (Some s)) (Hs : servers w !! s = Some (mkServer a Serving)) :
  exists w', run_alone (stop_container name timeout) [a1; a2; a3; a4; a5] w = Some (Done tt, w')
    /\ (forall id, get w' id = if decide (id = p_pod name)
          then Some (with_state PodState.Stopped pod) else get w id)
    /\ killers w' = <[killer pod := None]> (killers w)
    /\ servers w' = <[s := mkServer a Ended]> (servers w).
Proof.
  assert (Hentry : stop_entry w a1 (Some pod) = (Insert (with_state PodState.Stopped pod), PodState.Running))
    by (unfold stop_entry; by rewrite Hst).
  unfold stop_container, stop_container_without_wait, kill_with_timeout, take_killer, send_shutdown,
    join_timeout, abort_task.
  compute_step Hpod Hentry m Hm. rewrite decide_same, ?run_pbind_assoc.
  atomic_step (simpl; rewrite Hk; reflexivity).
  atomic_step (simpl; rewrite Hs; simpl; reflexivity).
  destruct (a_join a4) eqn:Ej.
  - atomic_step (simpl; rewrite Ej; reflexivity).
    eexists. split; [reflexivity |]. unfold end_server. simpl. rewrite lookup_insert_eq. simpl.
    split_and!; [exact Hm | done | by rewrite insert_insert_eq].
  - atomic_step (simpl; rewrite Ej; reflexivity).
    atomic_step reflexivity.
    eexists. split; [reflexivity |]. unfold end_server. simpl. rewrite lookup_insert_eq. simpl.
    split_and!; [exact Hm | done | by rewrite insert_insert_eq].
Qed.

Lemma kill_entry_live (w : World) a pod :
  state pod <> PodState.Killed ->
  kill_entry w a (Some pod) = (Insert (with_state PodState.Killed pod), tt).
Proof. intros H. unfold kill_entry. by destruct (state pod). Qed.

Lemma kill_entry_killed (w : World) a pod :
  state pod = PodState.Killed -> kill_entry w a (Some pod) = (Abort None, tt).
Proof. intros H. unfold kill_entry. by rewrite H. Qed.


(** If deactivating the address fails, [kill_pod] returns the error with the address still
    allocated, and killing the pod again succeeds without touching it: the address is never
    deallocated. *)
Theorem kill_retry_leaks_address w name pod a1 a2 a3 a4
    (Hpod : get w (p_pod name) = Some pod) (Hst : state pod <> PodState.Killed)
    (Hk : killers w !! killer pod = Some None) (Hfail : a_ok a3 = false) :
  exists w1, run_alone (kill_pod name) [a1; a2; a3] w = Some (Failed (IpamFailed (a_error a3)), w1)
    /\ exists w2, run_alone (kill_pod name) [a4] w1 = Some (Done tt, w2)
    /\ ipam_calls w2 = ipam_calls w ++ [IpamDeactivate (ip_address pod) false].
Proof.
  pose proof (kill_entry_live w a1 pod Hst) as Hentry.
  unfold kill_pod, kill_pod_without_wait, take_killer, deactivate, deallocate, ipam_call.
  compute_step Hpod Hentry m Hm.
  atomic_step (simpl; rewrite Hk; reflexivity).
  atomic_step (rewrite Hfail; reflexivity).
  eexists. split; [reflexivity |]. set (w1 := call_ipam _ _).
  assert (Hpod1 : get w1 (p_pod name) = Some (with_state PodState.Killed pod))
    by (simpl; by rewrite Hm, decide_same).
  pose proof (kill_entry_killed w1 a4 (with_state PodState.Killed pod) eq_refl) as Hentry1.
  compute_step Hpod1 Hentry1 m' Hm'.
  eexists. split; [reflexivity |]. done.
Qed.

(** Creating a running container again with the same parameters, which README.md says
    changes nothing, makes the pod [Created] while its server goes on serving; the container
    can then no longer be stopped. *)
Theorem recreated_container_cannot_be_stopped w name pod timeout a1 a2
    (Hpod : get w (p_pod name) = Some pod) (Hst : state pod = PodState.Running) :
  exists w1, run_alone (create_container name (container_metadata pod) (container_labels pod)
        (container_annotations pod) (environment pod) (image_spec pod)) [a1] w = Some (Done tt, w1)
    /\ state_of w1 (p_pod name) = Some PodState.Created
    /\ exists w2, run_alone (stop_container name timeout) [a2] w1 = Some (Failed (BadPriorState PodState.Created), w2)
    /\ killers w2 = killers w /\ servers w2 = servers w
    /\ state_of w2 (p_pod name) = Some PodState.Created.
Proof.
  assert (Heq : forall m, container_metadata_equal m m = true).
  { intros [m|]; [|done]. unfold container_metadata_equal. by rewrite bool_decide_true. }
  assert (Hsame : subsequent_attempt pod (container_metadata pod) = false).
  { unfold subsequent_attempt. destruct (container_metadata pod); [apply Z.ltb_irrefl | done]. }
  assert (Hentry : exists pod', state pod' = PodState.Created
    /\ create_entry (container_metadata pod) (container_labels pod) (container_annotations pod)
      (environment pod) (image_spec pod) w a1 (Some pod) = (Insert pod', (Idempotent, false))).
  { unfold create_entry. rewrite Hst, Heq. unfold container_annotations_equal.
    rewrite !bool_decide_true by done. rewrite Hsame, andb_false_r. cbn [andb].
    eexists. split; [|reflexivity]. reflexivity. }
  destruct Hentry as (pod' & Hst' & Hentry).
  unfold create_container, stop_container, stop_container_without_wait.
  compute_step Hpod Hentry m Hm.
  eexists. split; [reflexivity |]. set (w1 := set_pods m w).
  assert (Hpod1 : get w1 (p_pod name) = Some pod') by (simpl; by rewrite Hm, decide_same).
  assert (Hentry1 : stop_entry w1 a2 (Some pod')
    = (Abort (Some (BadPriorState PodState.Created)), PodState.Running))
    by (unfold stop_entry; by rewrite Hst').
  split; [unfold state_of; rewrite Hpod1; simpl; by rewrite Hst' |].
  compute_step Hpod1 Hentry1 m' Hm'.
  eexists. split; [reflexivity |]. split; [done |]. split; [done |].
  unfold state_of. simpl. rewrite Hm', decide_same. simpl. by rewrite Hst'.
Qed.

(** ** Queries *)
Section Queries.
Context {T : Type} (transform : PodName -> Pod -> T).

Definition pod_matches (labels : list (string * string)) (readiness : option bool) (pod : Pod) : Prop :=
  (forall key value, (key, value) ∈ labels -> pod_labels pod !! key = Some value)
  /\ match readiness with
     | None => True
     | Some true => state pod <> PodState.Killed
     | Some false => state pod = PodState.Killed
     end.

Definition container_matches (labels : list (string * string)) (states : list PodState.t) (pod : Pod) : Prop :=
  (forall key value, (key, value) ∈ labels -> container_labels pod !! key = Some value)
  /\ state pod ∈ states.

Lemma match_labels_spec actual expected :
  match_labels actual expected = true <->
  forall key value, (key, value) ∈ expected -> actual !! key = Some value.
Proof.
  unfold match_labels. rewrite forallb_forall. split.
  - intros H key value Hin%list_elem_of_In. apply H in Hin.
    destruct (actual !! key); [|done]. by apply bool_decide_eq_true in Hin as ->.
  - intros H [key value] Hin%list_elem_of_In. rewrite (H _ _ Hin). by apply bool_decide_eq_true.
Qed.

Definition described '((id, pod) : Z * Pod) : T := transform (mkPodName (component_name pod) id) pod.

(** Folding a conditional push over a list filters it. *)
Lemma fold_push {A} (p : A -> bool) (f : A -> T) l results :
  fold_left (fun results x => if p x then results ++ [f x] else results) l results
  = results ++ map f (filter (fun x => p x = true) l).
Proof.
  revert results. induction l as [|x l IH]; intros results; simpl; [by rewrite app_nil_r |].
  rewrite IH. destruct (p x) eqn:E.
  - rewrite filter_cons_True by done. by rewrite <- app_assoc.
  - by rewrite filter_cons_False by congruence.
Qed.

Lemma fold_left_push_ext {A B} (f g : B -> A -> B) l b :
  (forall x b, f b x = g b x) -> fold_left f l b = fold_left g l b.
Proof. intros H. revert b. induction l as [|x l IH]; intros b; simpl; [done | by rewrite H]. Qed.

Definition ready_for (readiness : option bool) (pod : Pod) : bool :=
  match readiness with
  | None => true
  | Some ready => xorb ready (bool_decide (state pod = PodState.Killed))
  end.

Lemma pod_matches_spec labels readiness pod :
  ready_for readiness pod && match_labels (pod_labels pod) labels = true <-> pod_matches labels readiness pod.
Proof.
  unfold pod_matches, ready_for. rewrite andb_true_iff, match_labels_spec.
  destruct readiness as [[]|]; simpl; [case_bool_decide..|]; naive_solver.
Qed.

Lemma container_matches_spec labels states pod :
  bool_decide (state pod ∈ states) && match_labels (container_labels pod) labels = true
  <-> container_matches labels states pod.
Proof.
  unfold container_matches. rewrite andb_true_iff, match_labels_spec, bool_decide_eq_true. tauto.
Qed.

(** The pods of the map that satisfy a condition, each once. *)
Definition selects (w : World) (c : Pod -> Prop) (selected : list (Z * Pod)) : Prop :=
  NoDup selected.*1 /\ forall id pod, (id, pod) ∈ selected <-> get w id = Some pod /\ c pod.

Lemma selects_filter w (p : Pod -> bool) (c : Pod -> Prop) :
  (forall pod, p pod = true <-> c pod) ->
  selects w c (filter (fun x => p x.2 = true) (pm_iter (pods w))).
Proof.
  intros Hp. split.
  - eapply sublist_NoDup; [apply (pm_iter_nodup (pods w)) |].
    apply fmap_sublist, sublist_filter.
  - intros id pod. rewrite list_elem_of_filter, pm_iter_spec, Hp. tauto.
Qed.

Lemma filter_key (l : list (Z * Pod)) k :
  NoDup l.*1 ->
  (forall v, (k, v) ∈ l -> filter (fun x => x.1 = k) l = [(k, v)])
  /\ ((forall v, (k, v) ∉ l) -> filter (fun x => x.1 = k) l = []).
Proof.
  induction l as [|[k' v'] l IH]; [intros _; split; [by intros v ?%elem_of_nil | done] |]. simpl. intros [Hk Hnd]%NoDup_cons.
  destruct (IH Hnd) as [IH1 IH2].
  assert (Hnone : k' = k -> forall v, (k, v) ∉ l).
  { intros E v Hin. apply Hk. rewrite E. apply list_elem_of_fmap. exists (k, v). split; [done | exact Hin]. }
  split.
  - intros v [[= -> ->]|Hin]%elem_of_cons.
    + rewrite filter_cons_True by done. by rewrite IH2 by auto.
    + destruct (decide (k' = k)) as [E|E]; [by apply (Hnone E) in Hin |].
      rewrite filter_cons_False by done. auto.
  - intros Hn. destruct (decide (k' = k)) as [->|E]; [exfalso; apply (Hn v'); by left |].
    rewrite filter_cons_False by done. apply IH2. intros v Hin. apply (Hn v). by right.
Qed.

(** A lookup by name returns what the listing returns for that name. *)
Lemma get_one w (p : Pod -> bool) c name results :
  (forall pod, p pod = true <-> c pod) ->
  match get w (p_pod name) with
  | Some pod => if p pod then results ++ [described (p_pod name, pod)] else results
  | None => results
  end = results ++ map described (filter (fun x => x.1 = p_pod name)
                    (filter (fun x => p x.2 = true) (pm_iter (pods w)))).
Proof.
  intros Hp. destruct (selects_filter w p c Hp) as [Hnd Hsel].
  destruct (filter_key _ (p_pod name) Hnd) as [H1 H2].
  destruct (get w (p_pod name)) as [pod|] eqn:E; [destruct (p pod) eqn:Epod|].
  - rewrite (H1 pod); [done |]. apply Hsel. by rewrite <- Hp.
  - rewrite H2, app_nil_r; [done |]. intros v [Hv Hc]%Hsel. apply Hp in Hc. congruence.
  - rewrite H2, app_nil_r; [done |]. intros v [Hv _]%Hsel. congruence.
Qed.

(** [list_pods] appends the description of exactly the pods of the map that carry every
    label asked for and are ready or killed as asked, each once; [get_pod] does so for the
    one pod named. *)
Lemma list_pods_spec w labels readiness results :
  exists selected, selects w (pod_matches labels readiness) selected
    /\ list_pods transform w labels readiness results = results ++ map described selected
    /\ forall name, get_pod transform w name labels readiness results =
         results ++ map described (filter (fun x => x.1 = p_pod name) selected).
Proof.
  set (p := fun pod => ready_for readiness pod && match_labels (pod_labels pod) labels).
  pose proof (pod_matches_spec labels readiness) as Hp.
  exists (filter (fun x => p x.2 = true) (pm_iter (pods w))). split; [by apply selects_filter |].
  split; [|intros name; by eapply (get_one w p)].
  rewrite <- (fold_push (fun x => p x.2) described). unfold list_pods. apply fold_left_push_ext.
  by intros [id pod].
Qed.

(** [list_containers] does so for the containers in the states asked for, by the labels
    of the container; [get_container] for the one named. *)
Lemma list_containers_spec w labels states results :
  exists selected, selects w (container_matches labels states) selected
    /\ list_containers transform w labels states results = results ++ map described selected
    /\ forall name, get_container transform w name labels states results =
         results ++ map described (filter (fun x => x.1 = p_pod name) selected).
Proof.
  set (p := fun pod => bool_decide (state pod ∈ states) && match_labels (container_labels pod) labels).
  pose proof (container_matches_spec labels states) as Hp.
  exists (filter (fun x => p x.2 = true) (pm_iter (pods w))). split; [by apply selects_filter |].
  split; [|intros name; by eapply (get_one w p)].
  rewrite <- (fold_push (fun x => p x.2) described). unfold list_containers. apply fold_left_push_ext.
  by intros [id pod].
Qed.

End Queries.

End Calls.

(** ** Runs on finite maps *)
Section Runs.

Abbreviation Conf := (@Conf (@World (gmap Z)) Answer (outcome StateError (option PodName))).
Abbreviation start := (start_of_day (M := gmap Z)).

Definition demo_component : ComponentName :=
  mkComponentName (mkServerName (DomainUuid_new (lit "0123456789abcdef")) (lit "server")) (lit "1.0.0").
Definition demo : PodName := mkPodName demo_component 0.
Definition demo_address : IpAddr := V4 167837697.

(** The environment obliges, except as said. *)
Definition yes : Answer := mkAnswer 1 None true true (Some (demo_address, 24)) true "".
Definition init_fails : Answer := mkAnswer 1 (Some "no such image"%string) true true None true "".

Abbreviation Event := (Concurrent.Event (Answer := Answer) (Call := Call) (Happening := Happening)).
Definition steps (thread n : nat) : list Event := replicate n (Schedule thread yes).

Definition create_demo (attempt : Z) : Call :=
  CallCreateContainer demo (Some (mkContainerMetadata "container" attempt)) ∅ ∅ ∅ None.

(** A pod, initiated and its container created (threads 0 and 1). *)
Definition created : list Event :=
  Invoke (CallInitPod demo_component (mkPodSandboxMetadata "pod" "uid" "default" 0) ∅ ∅) :: steps 0 3
  ++ Invoke (create_demo 0) :: steps 1 1.

(** And started (thread 2). *)
Definition running : list Event := created ++ Invoke (CallStartContainer demo) :: steps 2 6.

Lemma run_exists (es : list Event) (Q : Conf -> Prop) :
  match exec program happen es start with Some c => Q c | None => False end ->
  exists c, runs es start c /\ Q c.
Proof. unfold runs. destruct (exec _ _ es start) as [c|]; [eauto | done]. Qed.

(** What the witnesses need of a world: the pod, its killer and the servers. *)
Definition demo_world (c : Conf) (st : PodState.t) (server : option nat) (routes_ready : bool) : Prop :=
  exists pod, pm_get (pods (world c)) 0 = Some pod /\ state pod = st
    /\ killers (world c) !! killer pod = Some server
    /\ (forall s, server = Some s -> servers (world c) !! s = Some (mkServer demo_address Serving))
    /\ (routes_ready = true -> routes pod = Some 1%nat /\ futures (world c) !! 1%nat = Some (Resolved InitOk))
    /\ (server = None -> listening (world c) (address (ip_address pod)) = false)
    /\ shutdown (world c) = false.

Ltac demo_world :=
  apply run_exists; vm_compute; eexists; split; [reflexivity |];
  split_and!; try done; try (by intros ? [= <-]).

Lemma created_demo : exists c, runs created start c /\ demo_world c PodState.Created None false.
Proof. demo_world. Qed.

Lemma ready_demo : exists c, runs (created ++ Invoke (CallStartContainer demo) :: steps 2 2) start c
  /\ demo_world c PodState.Created None true.
Proof. demo_world. Qed.

Lemma running_demo : exists c, runs running start c /\ demo_world c PodState.Running (Some 2%nat) true.
Proof. demo_world. Qed.

(** Two errors whose comments say they never happen do: [start_container] returns
    "juggling routes future" when initialising fails while the call waits, and a new attempt
    to create the container replaces the routes before the call looks again; and
    [stop_container] returns "Running container is unkillable" when a concurrent [kill_pod]
    takes the killer first. *)
Theorem races_happen :
  (exists es c, runs es start c /\ threads c !! 2%nat = Some (Ret (Failed JugglingRoutes)))
  /\ exists es c, runs es start c /\ threads c !! 3%nat = Some (Ret (Failed Unkillable)).
Proof.
  split.
  - exists (created ++ Invoke (CallStartContainer demo) :: steps 2 1
      ++ Schedule 2 init_fails :: Invoke (create_demo 1) :: steps 3 1 ++ steps 2 1).
    apply run_exists. vm_compute. reflexivity.
  - exists (running ++ Invoke (CallStopContainer demo 10) :: Invoke (CallKillPod demo)
      :: steps 3 1 ++ steps 4 2 ++ steps 3 1).
    apply run_exists. vm_compute. reflexivity.
Qed.

(** A container can be stopped and removed, both calls succeeding, while its server goes
    on accepting connections: it was running, was created again and was being started, so
    [stop_container] found it [Starting] and left its killer alone. *)
Theorem stopped_container_still_serves :
  exists es c, runs es start c
    /\ (threads c !! 5%nat = Some (Ret (Done None)) /\ threads c !! 6%nat = Some (Ret (Done None))
    /\ state_of (world c) 0 = Some PodState.Removed
    /\ serving (world c) 2 demo_address).
Proof.
  exists (running ++ Invoke (create_demo 0) :: steps 3 1 ++ Invoke (CallStartContainer demo) :: steps 4 1
    ++ Invoke (CallStopContainer demo 10) :: steps 5 1 ++ steps 4 2
    ++ Invoke (CallRemoveContainer demo) :: steps 6 1).
  apply run_exists. vm_compute. done.
Qed.

(** ** Witnesses *)
Lemma lifecycle_respected_witness :
  exists c c', runs running start c
    /\ exec_event program happen (Invoke (CallKillPod demo)) c = Some c'
    /\ lifecycle (state_of (world c) 0, state_of (world c') 0).
Proof.
  destruct running_demo as (c & Hrun & _). exists c. eexists. split; [exact Hrun |].
  split; [reflexivity |].
  eapply (lifecycle_respected running (Invoke (CallKillPod demo)) c _ Hrun). reflexivity.
Defined.

Definition killed : list Event := running ++ Invoke (CallKillPod demo) :: steps 3 6.

Lemma no_server_lost_witness :
  exists c, runs running start c
    /\ ((exists id pod, pm_get (pods (world c)) id = Some pod /\ state pod <> PodState.Killed
          /\ killers (world c) !! killer pod = Some (Some 2%nat) /\ address (ip_address pod) = demo_address)
        \/ Exists in_flight (threads c)).
Proof.
  destruct running_demo as (c & Hrun & pod & _ & _ & _ & Hs & _ & _ & Hup). exists c. split; [exact Hrun |].
  apply (no_server_lost running c 2 demo_address Hrun); [vm_compute; reflexivity | exact Hup | by apply Hs].
Defined.



Lemma start_runs_witness :
  exists c, runs (created ++ Invoke (CallStartContainer demo) :: steps 2 2) start c /\ exists w',
    run_alone (start_container demo) [yes; yes; yes; yes] (world c) = Some (Done tt, w').
Proof.
  destruct ready_demo as (c & Hrun & pod & Hpod & Hst & _ & _ & Hr & Hl & _). exists c. split; [exact Hrun |].
  destruct (Hr eq_refl) as [Hr1 Hr2].
  destruct (start_runs (world c) demo pod 1 yes yes yes yes Hpod Hst Hr1 Hr2 (Hl eq_refl) eq_refl)
    as (w' & H & _). eauto.
Defined.

Lemma stop_ends_witness :
  exists c, runs running start c /\ exists w',
    run_alone (stop_container demo 10) [yes; yes; yes; yes; yes] (world c) = Some (Done tt, w').
Proof.
  destruct running_demo as (c & Hrun & pod & Hpod & Hst & Hk & Hs & _). exists c. split; [exact Hrun |].
  destruct (stop_ends (world c) demo 10 pod 2 demo_address yes yes yes yes yes Hpod Hst Hk (Hs _ eq_refl))
    as (w' & H & _). eauto.
Defined.


Definition no : Answer := mkAnswer 1 None true true None false "netlink".

Lemma kill_retry_leaks_address_witness :
  exists c, runs created start c /\ exists w1,
    run_alone (kill_pod demo) [yes; yes; no] (world c) = Some (Failed (IpamFailed "netlink"), w1).
Proof.
  destruct created_demo as (c & Hrun & pod & Hpod & Hst & Hk & _). exists c. split; [exact Hrun |].
  destruct (kill_retry_leaks_address (world c) demo pod yes yes no yes Hpod) as (w1 & H & _);
    [by rewrite Hst | exact Hk | done |]. eauto.
Defined.

Lemma recreated_container_cannot_be_stopped_witness :
  exists c, runs running start c /\ exists pod w1,
    run_alone (create_container demo (container_metadata pod) (container_labels pod)
      (container_annotations pod) (environment pod) (image_spec pod)) [yes] (world c) = Some (Done tt, w1).
Proof.
  destruct running_demo as (c & Hrun & pod & Hpod & Hst & _). exists c. split; [exact Hrun |].
  destruct (recreated_container_cannot_be_stopped (world c) demo pod 10 yes yes Hpod Hst) as (w1 & H & _). eauto.
Defined.

End Runs.
