(* ===== verification/StateProgress.v ===== *)
(** * Every call of the pod state machine returns

    A call takes a bounded number of steps, and no step is ever blocked: no closure removes
    an entry that is not there, and every future that is awaited exists.  The logic of
    [Concurrent] is used with the futures an operation knows of as its tokens. *)

From S2P Require Import Prelude Regexp Names Concurrent State StateSpec StateCalls.

#[local] Open Scope Z_scope.

Section Progress.
Context {M : Type -> Type} {P : PapayaMap M} {PL : PapayaLaws M}.

Abbreviation World := (@World M).
Abbreviation get w id := (pm_get (pods w) id).
Abbreviation op := (prog World Answer).
Abbreviation Conf := (@Conf World Answer (outcome StateError (option PodName))).

(** ** The futures that exist *)
Definition known (w : World) (f : future_id) : Prop := is_Some (futures w !! f).

Definition all_known (w : World) (fs : list future_id) : Prop := forall f, f ∈ fs -> known w f.

Lemma nothing_known w : all_known w [].
Proof. by intros f ?%elem_of_nil. Qed.

(** The routes of every pod, and what the operations know of, exist. *)
Definition Known (_ : nat) (w : World) (toks : list future_id) : Prop :=
  (forall id pod f, get w id = Some pod -> routes pod = Some f -> known w f) /\ all_known w toks.

Definition never (_ : World) (_ : list future_id) : Prop := False.
Abbreviation live := (wp Known (fun _ => True) never).

(** Futures stay. *)
Definition futures_stay (w w' : World) : Prop := forall f, known w f -> known w' f.

Lemma known_set_future f r w : futures_stay w (set_future f r w).
Proof.
  intros f' [x Hx]. unfold known. simpl. destruct (decide (f = f')) as [->|Hne];
    [rewrite lookup_insert_eq; eauto | rewrite lookup_insert_ne; eauto].
Qed.

Lemma live_step {B} (f : Answer -> World -> option (B * World)) own (Q : B -> list future_id -> Prop) :
  (forall a w, exists b w', f a w = Some (b, w') /\ pods w' = pods w /\ futures_stay w w' /\ Q b own) ->
  live (atomic f) own Q.
Proof.
  intros H. apply wp_step. intros n a w rest _ [Hp Ht]. destruct (H a w) as (b & w' & Hf & Hpods & Hs & HQ).
  exists b, w', own. split_and!; [done | | done]. split.
  - intros id pod g Hg Hr. apply Hs. rewrite Hpods in Hg. eauto.
  - intros g Hg. apply Hs. eauto.
Qed.

(** A [compute]: the operation suits the entry, what it inserts has known routes, and so has
    what the call goes on with. *)
Definition suits {A} (w : World) (entry : option Pod) (op : Operation Pod A) : Prop :=
  match op, entry with
  | Insert p, _ => forall f, routes p = Some f -> known w f
  | Remove, None => False
  | _, _ => True
  end.

Lemma live_compute {A B} id (closure : World -> Answer -> option Pod -> Operation Pod A * B) effect own
    (Q : Compute Pod A * B -> list future_id -> Prop) :
  (forall b w m, pods (effect b (set_pods m w)) = m /\ futures (effect b (set_pods m w)) = futures (effect b w)
     /\ futures_stay w (effect b w)) ->
  (forall a w, (forall pod f, get w id = Some pod -> routes pod = Some f -> known w f) -> all_known w own ->
     let '(oper, b) := closure w a (get w id) in
     suits (effect b w) (get w id) oper /\
     forall c, computed (get w id) oper = Some c -> exists own', all_known (effect b w) own' /\ Q (c, b) own') ->
  live (compute id closure effect) own Q.
Proof.
  intros He H. apply wp_step. intros n a w rest _ [Hp Ht].
  specialize (H a w (fun pod f => Hp id pod f) ltac:(intros f Hf; apply Ht, elem_of_app; by left)).
  destruct (closure w a (get w id)) as [oper b] eqn:Ec. destruct H as [Hs HQ].
  destruct (pm_compute_returns (pods w) id (closure w a)) as [[[c b'] m] Hm].
  { rewrite Ec. simpl. unfold suits in Hs. destruct oper, (get w id); simpl; done || by eexists. }
  pose proof (pm_compute_spec _ _ _ _ _ _ Hm) as (-> & Hc & Hg). rewrite Ec in *. simpl in *.
  destruct (HQ c Hc) as (own' & Hown & HQ'). destruct (He b w m) as (Epods & Efut & Hstay).
  assert (Hk : forall f, known (effect b w) f -> known (effect b (set_pods m w)) f) by (unfold known; by rewrite Efut).
  eexists (c, b), _, own'. rewrite Hm. split_and!; [done | | done]. split.
  - intros id' pod f. rewrite Epods, Hg. intros Hpod Hr. apply Hk. case_decide as Hid.
    + subst. destruct oper as [p| |x]; simpl in Hpod; [|done|]; [injection Hpod as ->; by apply Hs |].
      apply Hstay. eauto.
    + apply Hstay. eauto.
  - intros f [Hf|Hf]%elem_of_app; apply Hk; [by apply Hown | apply Hstay, Ht, elem_of_app; by right].
Qed.

Lemma no_effect_stays (b : unit) (w : World) m :
  pods (no_effect b (set_pods m w)) = m /\ futures (no_effect b (set_pods m w)) = futures (no_effect b w)
    /\ futures_stay w (no_effect b w).
Proof. split_and!; [done | done | by intros f]. Qed.

Definition trivially {X} (_ : X) (_ : list future_id) : Prop := True.

(** ** The calls *)
Lemma live_quiet {B} (f : Answer -> World -> option (B * World)) own :
  (forall a w, exists b w', f a w = Some (b, w') /\ pods w' = pods w /\ futures w' = futures w) ->
  live (atomic f) own (fun _ own' => own' = own).
Proof.
  intros H. apply live_step. intros a w. destruct (H a w) as (b & w' & Hf & Hp & Hfut).
  exists b, w'. split_and!; [done | done | | done]. intros g. unfold known. by rewrite Hfut.
Qed.

Lemma end_server_same s (w : World) : pods (end_server s w) = pods w /\ futures (end_server s w) = futures w.
Proof. unfold end_server. by case_match. Qed.

Lemma live_abort_task s own : live (abort_task s) own (fun _ own' => own' = own).
Proof. apply live_quiet. intros a w. eexists _, _. split; [done | apply end_server_same]. Qed.

Lemma live_take_killer c own : live (take_killer c) own (fun _ own' => own' = own).
Proof. apply live_quiet. intros a w. destruct (killers w !! c); eauto. Qed.

Lemma live_kill_with_timeout s d own : live (kill_with_timeout s d) own (fun _ own' => own' = own).
Proof.
  unfold kill_with_timeout. eapply wp_pbind.
  { apply live_quiet. intros a w. destruct (servers w !! s); [case_decide |]; eauto. }
  intros sent own' ->. eapply wp_pbind with (Q' := fun _ own' => own' = own).
  { destruct sent; [|done]. apply live_quiet. intros a w. destruct (a_join a); [|eauto].
    eexists _, _. split; [done | apply end_server_same]. }
  intros joined own' ->. destruct joined; [done |]. eapply wp_pbind; [apply live_abort_task | by intros _ own' ->].
Qed.

Lemma live_ipam_call call own : live (ipam_call call) own (fun _ own' => own' = own).
Proof. apply live_quiet. intros a w. eauto. Qed.

Lemma live_init n m l an : live (init_pod n m l an) [] trivially.
Proof.
  unfold init_pod. eapply wp_pbind; [apply live_quiet; eauto |]. intros id own ->.
  eapply wp_pbind; [apply live_quiet; intros a w; destruct (a_address a) as [[]|]; eauto |].
  intros [ip|e|c] own ->; [|done|done]. apply wp_step. intros k a w rest _ [Hp Ht].
  destruct (pm_try_insert (pods w) id _) as [ok pods'] eqn:E. apply pm_try_insert_spec in E as [_ Hg].
  eexists _, _, []. split_and!; [done | | done]. split; [|exact Ht]. simpl. intros id' pod f.
  rewrite Hg. case_decide; [|by apply Hp]. destruct ok; [intros [= <-]; done | by apply Hp].
Qed.

(** A closure that leaves the routes of the entry alone. *)
Lemma live_compute_mild {A B} id (closure : World -> Answer -> option Pod -> Operation Pod A * B) own :
  (forall w a entry, match fst (closure w a entry), entry with
                     | Insert p', Some p => routes p' = routes p
                     | Insert _, None => False
                     | Remove, None => False
                     | _, _ => True
                     end) ->
  live (compute id closure (fun _ w => w)) own (fun _ own' => own' = own).
Proof.
  intros H. apply live_compute; [by intros; split_and!; [..|intros f] |]. intros a w Hk Hown.
  specialize (H w a (get w id)). destruct (closure w a (get w id)) as [oper b]. simpl in H. split.
  - unfold suits. destruct oper as [p'| |x], (get w id) as [p|]; try done. intros f Hf. rewrite H in Hf. eauto.
  - intros c _. by exists own.
Qed.

Lemma live_create n m l an e i : live (create_container n m l an e i) [] trivially.
Proof.
  unfold create_container. eapply wp_pbind with (Q' := trivially); [|by intros []].
  apply live_compute.
  - intros [? []] w m'; simpl; split_and!; try done; [unfold spawn_grpc; intros f; apply known_set_future | by intros f].
  - intros a w Hk _. destruct (create_entry m l an e i w a (get w (p_pod n))) as [oper [c spawned]] eqn:E.
    split; [|intros; exists []; split; [apply nothing_known | done]]. unfold create_entry in E. unfold suits.
    destruct (get w (p_pod n)) as [pod|]; [|by simplify_eq].
    assert (Hnew : known (spawn_grpc w) (fresh w)).
    { unfold known, spawn_grpc. simpl. rewrite lookup_insert_eq. eauto. }
    repeat case_match; simplify_eq/=; try done; intros f Hf; simplify_eq/=; try done; eauto.
Qed.

(** What [start_entry] found is known. *)
Definition found_routes (r : Compute Pod StartContainerAbort * StartWrites) (own : list future_id) : Prop :=
  match fst r with
  | Updated _ pod => forall f, routes pod = Some f -> f ∈ own
  | Aborted (Waiting f) => f ∈ own
  | _ => True
  end.

Lemma live_start_compute name : live (compute (p_pod name) start_entry start_effect) [] found_routes.
Proof.
  apply live_compute.
  - intros [? [f|]] w m; simpl; split_and!; try done; [apply known_set_future | by intros g].
  - intros a w Hk _. destruct (start_entry w a (get w (p_pod name))) as [oper b] eqn:E.
    assert (Hstay : futures_stay w (start_effect b w)).
    { unfold start_effect. destruct (took_error b); [apply known_set_future | by intros f]. }
    split.
    + unfold start_entry in E. unfold suits. destruct (get w (p_pod name)) as [pod|]; [|by simplify_eq].
      repeat case_match; simplify_eq/=; try done; intros f Hf; simplify_eq/=; apply Hstay; eauto.
    + intros c Hc. destruct (get w (p_pod name)) as [pod|] eqn:Ep.
      * exists (option_list (routes pod)). split.
        -- intros f Hf. apply Hstay. apply (Hk pod); [done |]. 
           destruct (routes pod) as [g|]; [by apply list_elem_of_singleton in Hf as -> | by apply elem_of_nil in Hf].
        -- unfold start_entry in E. unfold found_routes. simpl.
           repeat case_match; simplify_eq/=; try done; try (intros f' Hf'; simplify_eq/=); set_solver.
      * exists []. split; [apply nothing_known |]. unfold start_entry in E. by simplify_eq/=.
Qed.

Lemma live_start_without_wait name :
  live (start_container_without_wait name) [] (fun r own => match r with Done (Some f) => f ∈ own | _ => True end).
Proof.
  unfold start_container_without_wait. eapply wp_pbind; [apply live_start_compute |].
  intros [c written] own Hc. unfold found_routes in Hc. simpl in Hc.
  destruct c as [?|old pod|?|[f|e|]]; try done. destruct (ready_routes written) as [f|]; [|done].
  eapply wp_pbind.
  { apply live_quiet. intros a w. destruct (a_bind a && negb (listening w (address (ip_address pod)))); eauto. }
  intros [task|] own' ->.
  2: { eapply wp_pbind with (Q' := fun _ own' => own' = own); [|by intros r own' ->].
       apply live_compute_mild. intros w a [p|]; simpl; [|done]. by destruct (state p). }
  eapply wp_pbind; [apply live_quiet; eauto |]. intros [cell t] own' ->.
  eapply wp_pbind with (Q' := trivially).
  { apply live_compute; [apply no_effect_stays |]. intros a w Hk Hown. simpl. split.
    - unfold suits. destruct (get w (p_pod name)) as [p|]; [|done]. destruct (state p); try done.
      intros g Hg. simpl in Hg. unfold no_effect. apply Hown. eauto.
    - intros c' _. exists []. split; [apply nothing_known | done]. }
  assert (Htake : forall own, live (take_and_abort cell) own trivially).
  { intros o. unfold take_and_abort. eapply wp_pbind; [apply live_take_killer |]. intros [s|] o' ->; [|done].
    eapply wp_mono; [apply live_abort_task | done]. }
  intros [c' []] own' _. destruct c'; try done; (eapply wp_pbind; [apply Htake | done]).
Qed.

Lemma live_start name : live (start_container name) [] trivially.
Proof.
  unfold start_container. eapply wp_pbind; [apply live_start_without_wait |].
  intros [[f|]|e|c] own Hf; try done. eapply wp_pbind with (Q' := fun _ own => own = []).
  - apply wp_step. intros n a w rest _ [Hp Ht]. assert (Hk : known w f) by (apply Ht, elem_of_app; by left).
    unfold known in Hk. destruct (futures w !! f) as [x|] eqn:E; [|by destruct Hk]. 
    assert (Hs : futures_stay w (set_future f (Resolved (match a_init a with Some e => InitErr (Some e) | None => InitOk end)) w)).
    { apply known_set_future. }
    destruct x as [|r]; eexists _, _, []; (split_and!; [done | | done]); (split; [intros id pod g Hg Hr | intros g Hg]).
    + apply Hs. eauto.
    + apply Hs, Ht, elem_of_app. by right.
    + eauto.
    + apply Ht, elem_of_app. by right.
  - intros [] own' ->. eapply wp_pbind; [apply live_start_without_wait | by intros [[|]| |]].
Qed.

Lemma live_stop name t : live (stop_container name t) [] trivially.
Proof.
  unfold stop_container, stop_container_without_wait. eapply wp_pbind with (Q' := trivially).
  - eapply wp_pbind with (Q' := fun _ own => own = []).
    { apply live_compute_mild. intros w a [p|]; simpl; [|done]. by destruct (state p). }
    intros [c prior] own ->. destruct c as [| | |[]]; try done. case_decide; [|done].
    eapply wp_pbind; [apply live_take_killer | done].
  - intros [[s|]|e|c] own _; try done.
    eapply wp_pbind; [eapply wp_mono; [apply live_kill_with_timeout |] |]; done.
Qed.

Lemma live_remove name : live (remove_container name) [] trivially.
Proof.
  unfold remove_container. eapply wp_pbind with (Q' := fun _ own => own = []); [|by intros []].
  apply live_compute_mild. intros w a [p|]; simpl; [|done]. by destruct (state p).
Qed.

Lemma live_kill name : live (kill_pod name) [] trivially.
Proof.
  unfold kill_pod, kill_pod_without_wait. eapply wp_pbind with (Q' := trivially).
  - eapply wp_pbind with (Q' := fun _ own => own = []); [|by intros []].
    apply live_compute_mild. intros w a [p|]; simpl; [|done]. by destruct (state p).
  - intros [[[cell ip]|]|e|c] own _; try done. eapply wp_pbind; [apply live_take_killer |]. intros k own' ->.
    eapply wp_pbind with (Q' := fun _ own' => own' = own); [destruct k; [apply live_kill_with_timeout | done] |].
    intros _ own' ->. eapply wp_pbind; [apply live_ipam_call |]. intros [[]|e|c] own' ->; try done.
    eapply wp_mono; [apply live_ipam_call | done].
Qed.

Lemma live_delete name : live (delete_pod name) [] trivially.
Proof.
  unfold delete_pod. eapply wp_pbind with (Q' := trivially); [|by intros []].
  apply live_compute; [apply no_effect_stays |]. intros a w Hk _. simpl. split.
  - unfold suits. destruct (get w (p_pod name)) as [p|]; [|done]. by destruct (state p).
  - intros c _. exists []. split; [apply nothing_known | done].
Qed.

Lemma program_live c : live (program c) [] trivially.
Proof.
  destruct c; unfold program, named, unnamed; (eapply wp_pbind with (Q' := trivially); [|done]);
    eauto using live_init, live_create, live_start, live_stop, live_remove, live_kill, live_delete.
Qed.

Lemma program_steps c : steps_within 13 (program (M := M) c).
Proof.
  destruct c; simpl; repeat (exact I || intros ? || (progress simpl) || case_match).
Qed.

Lemma Known_perm n w t t' : t ≡ₚ t' -> Known n w t -> Known n w t'.
Proof. intros Ht [Hp Hk]. split; [done |]. intros f Hf. apply Hk. by rewrite Ht. Qed.


End Progress.

Section Runs.
Abbreviation Conf := (@Conf (@World (gmap Z)) Answer (outcome StateError (option PodName))).
Abbreviation start := (start_of_day (M := gmap Z)).
Abbreviation Event := (Concurrent.Event (Answer := Answer) (Call := Call) (Happening := Happening)).

(** In the middle of a start, all steps of the other calls done. *)
Definition starting : list Event := created ++ Invoke (CallStartContainer demo) :: steps 2 3.


End Runs.
