(* ===== verification/Cri.v ===== *)
(** * The CRI runtime service

    Models [src/runtime/cri/runtime.rs] and [src/runtime/cri/mod.rs]: every handler of
    [ProxyingRuntimeService], which runs a call of [State] on the pod its ID names, forwards
    to the downstream OCI runtime, or merges both.

    A handler is a [prog] on the world of the daemon: the runtime's, the set of downstream
    IDs, and a record of what the downstream runtime was asked.  What the downstream runtime
    answers is the environment's choice.  Of the messages of [api.proto] the fields the
    handlers read or write are modelled; the text form of an IP address is not. *)

From S2P Require Import Prelude Regexp Names Concurrent State.
#[local] Open Scope Z_scope.

(** ** [papaya::HashSet] *)
Class PapayaSet (S : Type) := {
  ps_new : S;
  ps_contains : S -> str -> bool;
  ps_insert : S -> str -> S;
  ps_remove : S -> str -> S;
}.

Class PapayaSetLaws (S : Type) {P : PapayaSet S} : Prop := {
  ps_contains_new i : ps_contains ps_new i = false;
  ps_contains_insert s i j : ps_contains (ps_insert s i) j = bool_decide (j = i) || ps_contains s j;
  ps_contains_remove s i j : ps_contains (ps_remove s i) j = negb (bool_decide (j = i)) && ps_contains s j;
}.

#[export] Instance gset_papaya : PapayaSet (gset str) := {|
  ps_new := ∅;
  ps_contains s i := bool_decide (i ∈ s);
  ps_insert s i := {[i]} ∪ s;
  ps_remove s i := s ∖ {[i]};
|}.

#[export] Instance gset_papaya_laws : PapayaSetLaws (gset str).
Proof.
  constructor; intros; simpl.
  - by apply bool_decide_eq_false_2.
  - rewrite <- bool_decide_or. apply bool_decide_ext. set_solver.
  - rewrite <- bool_decide_not, <- bool_decide_and. apply bool_decide_ext. set_solver.
Qed.

(** ** Constants *)
Definition KUBELET_API_VERSION : string := "0.1.0".
Definition CONTAINER_RUNTIME_NAME : string := "vimana".
Definition CONTAINER_RUNTIME_HANDLER : string := "vimana-handler".
Definition CONTAINER_RUNTIME_VERSION : string := "0.0.0".
Definition CONTAINER_RUNTIME_API_VERSION : string := "v1".

Definition POD_PREFIX : str := lit "p-".
Definition CONTAINER_PREFIX : str := lit "c-".

Definition LABEL_DOMAIN_KEY : string := "vimana.host/domain".
Definition LABEL_SERVER_KEY : string := "vimana.host/server".
Definition LABEL_VERSION_KEY : string := "vimana.host/version".

(** [v1::PodSandboxState] and [v1::ContainerState], by number. *)
Definition SandboxReady : Z := 0.
Definition SandboxNotready : Z := 1.
Definition CONTAINER_STATE_CREATED_VALUE : Z := 0.
Definition CONTAINER_STATE_RUNNING_VALUE : Z := 1.
Definition CONTAINER_STATE_EXITED_VALUE : Z := 2.
Definition CONTAINER_STATE_UNKNOWN_VALUE : Z := 3.
Definition POD_STATES_CONTAINER_ALL : list PodState.t :=
  [PodState.Created; PodState.Starting; PodState.Running; PodState.Stopped].
Definition POD_STATES_CONTAINER_CREATED : list PodState.t := [PodState.Created; PodState.Starting].
Definition POD_STATES_CONTAINER_RUNNING : list PodState.t := [PodState.Running].
Definition POD_STATES_CONTAINER_EXITED : list PodState.t :=
  [PodState.Stopped; PodState.Removed; PodState.Killed].
Definition POD_STATES_CONTAINER_UNKNOWN : list PodState.t := [].

(** ** Errors *)
Inductive CriError :=
| InvalidPodLabels (labels : gmap string string)
| PortMappingsUnsupported
| ImageAnnotationsUnsupported
| InvalidPodSandboxId
| InvalidContainerId
| RuntimeError (e : StateError).

(** [tonic::Status]: [log_error] makes [Internal] of any error that has no [Status] among its
    causes, and none of the runtime's has. *)
Inductive Status :=
| Internal (e : CriError)
| NotFound (name : str)
| InternalTodo                               (** "GetContainerEvents TODO" *)
| Downstream (code : Z) (message : string).

(** ** Messages *)
Record PodSandboxConfig := mkPodSandboxConfig {
  psc_metadata : option PodSandboxMetadata;
  psc_port_mappings : nat;                   (** how many there are *)
  psc_labels : gmap string string;
  psc_annotations : gmap string string;
}.
Definition PodSandboxConfig_default := mkPodSandboxConfig None 0 ∅ ∅.
Definition PodSandboxMetadata_default := mkPodSandboxMetadata "" "" "" 0.

Record ContainerConfig := mkContainerConfig {
  cc_metadata : option ContainerMetadata;
  cc_image : option ImageSpec;
  cc_envs : list (string * string);
  cc_labels : gmap string string;
  cc_annotations : gmap string string;
}.
Definition ContainerConfig_default := mkContainerConfig None None [] ∅ ∅.
Definition ImageSpec_default := mkImageSpec "" ∅ "" "".

(** [PodSandboxFilter] and [ContainerFilter] (whose [pod_sandbox_id] the code does not
    read). *)
Record PodSandboxFilter := mkPodSandboxFilter {
  filter_id : str;
  filter_state : option Z;
  label_selector : gmap string string;
}.
Definition PodSandboxFilter_default := mkPodSandboxFilter [] None ∅.

Record PodSandbox := mkPodSandbox {
  ps_id : str;
  ps_metadata : option PodSandboxMetadata;
  ps_state : Z;
  ps_created_at : Z;
  ps_labels : gmap string string;
  ps_annotations : gmap string string;
  ps_runtime_handler : string;
}.

Record Container := mkContainer {
  co_id : str;
  co_pod_sandbox_id : str;
  co_metadata : option ContainerMetadata;
  co_image : option ImageSpec;
  co_image_ref : string;
  co_state : Z;
  co_created_at : Z;
  co_labels : gmap string string;
  co_annotations : gmap string string;
  co_image_id : string;
}.

Record PodSandboxStatus := mkPodSandboxStatus {
  pss_id : str;
  pss_metadata : option PodSandboxMetadata;
  pss_state : Z;
  pss_created_at : Z;
  pss_network : option IpAddr;
  pss_labels : gmap string string;
  pss_annotations : gmap string string;
  pss_runtime_handler : string;
}.

Record ContainerStatus := mkContainerStatus {
  cs_id : str;
  cs_metadata : option ContainerMetadata;
  cs_state : Z;
  cs_created_at : Z;
  cs_started_at : Z;
  cs_finished_at : Z;
  cs_exit_code : Z;
  cs_image : option ImageSpec;
  cs_image_ref : string;
  cs_reason : string;
  cs_message : string;
  cs_labels : gmap string string;
  cs_annotations : gmap string string;
  cs_log_path : string;
  cs_image_id : string;
  cs_stop_signal : Z;
}.

Record PodSandboxStatusResponse := mkPodSandboxStatusResponse {
  psr_status : option PodSandboxStatus;
  psr_info : gmap string string;
  psr_containers_statuses : list ContainerStatus;
  psr_timestamp : Z;
}.

Record ContainerStatusResponse := mkContainerStatusResponse {
  csr_status : option ContainerStatus;
  csr_info : gmap string string;
}.

Record VersionResponse := mkVersionResponse {
  vr_version : string; vr_runtime_name : string;
  vr_runtime_version : string; vr_runtime_api_version : string;
}.

(** ** IDs *)
Section Ids.
Context {R : RegexCrate} (debug_assertions : bool).

Fixpoint starts_with (prefix s : str) : bool :=
  match prefix, s with
  | [], _ => true
  | b :: prefix', c :: s' => bool_decide (b = c) && starts_with prefix' s'
  | _ :: _, [] => false
  end.

(** [str::is_char_boundary] *)
Definition is_char_boundary (s : str) (index : nat) : bool :=
  if (index =? 0)%nat then true
  else match s !! index with
       | Some b => negb ((128 <=? Z_of_byte b) && (Z_of_byte b <? 192))
       | None => (index =? length s)%nat
       end.

(** [&s[index..]] *)
Definition slice_from {E} (s : str) (index : nat) : outcome E str :=
  if is_char_boundary s index then Done (drop index s) else Crash Panicked.

Definition debug_assert {E} (b : bool) : outcome E unit :=
  if debug_assertions && negb b then Crash Panicked else Done tt.

Definition parse_pod_prefixed_name (name : str) : outcome NameError PodName :=
  let? _ := debug_assert (starts_with POD_PREFIX name) in
  let? rest := slice_from name (length POD_PREFIX) in
  to_pod (Name_parse rest).

Definition parse_container_prefixed_name (name : str) : outcome NameError PodName :=
  let? _ := debug_assert (starts_with CONTAINER_PREFIX name) in
  let? rest := slice_from name (length CONTAINER_PREFIX) in
  to_pod (Name_parse rest).

Definition pod_prefix (id : PodName) : str := POD_PREFIX ++ PodName_display id.
Definition container_prefix (id : PodName) : str := CONTAINER_PREFIX ++ PodName_display id.

(** The errors of [Name] and of a missing label, in one type. *)
Definition component_name_from_labels (labels : gmap string string)
    : outcome (option NameError) ComponentName :=
  let? domain := ok_or (labels !! LABEL_DOMAIN_KEY) None in
  let? domain := map_err Some (DomainUuid_parse (lit domain)) in
  let? server := ok_or (labels !! LABEL_SERVER_KEY) None in
  let? version := ok_or (labels !! LABEL_VERSION_KEY) None in
  map_err Some (ComponentName_new domain (lit server) (lit version)).

(** [.with_context(..).log_error(..)] *)
Definition log_error {E A} (e : CriError) (r : outcome E A) : outcome Status A :=
  map_err (fun _ => Internal e) r.

End Ids.

(** ** States *)
Definition pod_state_to_cri_pod_state (state : PodState.t) : Z :=
  match state with
  | PodState.Initiated | PodState.Created | PodState.Starting | PodState.Running
  | PodState.Stopped | PodState.Removed => SandboxReady
  | PodState.Killed => SandboxNotready
  end.

Definition cri_container_state_to_pod_states (state : Z) : list PodState.t :=
  if state =? CONTAINER_STATE_CREATED_VALUE then POD_STATES_CONTAINER_CREATED
  else if state =? CONTAINER_STATE_RUNNING_VALUE then POD_STATES_CONTAINER_RUNNING
  else if state =? CONTAINER_STATE_EXITED_VALUE then POD_STATES_CONTAINER_EXITED
  else if state =? CONTAINER_STATE_UNKNOWN_VALUE then POD_STATES_CONTAINER_UNKNOWN
  else POD_STATES_CONTAINER_ALL.

Definition pod_state_to_cri_container_state (state : PodState.t) : Z :=
  match state with
  | PodState.Initiated | PodState.Removed | PodState.Killed => CONTAINER_STATE_UNKNOWN_VALUE
  | PodState.Created | PodState.Starting => CONTAINER_STATE_CREATED_VALUE
  | PodState.Running => CONTAINER_STATE_RUNNING_VALUE
  | PodState.Stopped => CONTAINER_STATE_EXITED_VALUE
  end.

(** ** Descriptions

    [Sigterm] is the number of [v1::Signal::Sigterm], which this repository's copy of
    [api.proto] does not have. *)
Section Descriptions.
Context (Sigterm : Z).

Definition cri_image_ref : string := "TODO".
Definition cri_image_id : string := "TODO".
Definition cri_container_log_path : string := "/dev/null".

Definition cri_pod_sandbox (name : PodName) (pod : Pod) : PodSandbox :=
  mkPodSandbox (pod_prefix name) (Some (pod_sandbox_metadata pod))
    (pod_state_to_cri_pod_state (state pod)) (pod_created_at pod) (pod_labels pod)
    (pod_annotations pod) CONTAINER_RUNTIME_HANDLER.

Definition cri_container (name : PodName) (pod : Pod) : Container :=
  mkContainer (container_prefix name) (pod_prefix name) (container_metadata pod) (image_spec pod)
    cri_image_ref (pod_state_to_cri_container_state (state pod)) (container_created_at pod)
    (container_labels pod) (container_annotations pod) cri_image_id.

Definition cri_container_status (name : PodName) (pod : Pod) : ContainerStatus :=
  mkContainerStatus (container_prefix name) (container_metadata pod)
    (pod_state_to_cri_container_state (state pod)) (container_created_at pod)
    (container_started_at pod) (container_finished_at pod) 0 (image_spec pod) cri_image_ref
    "TODO" "TODO" (container_labels pod) (container_annotations pod) cri_container_log_path
    cri_image_id Sigterm.

Definition cri_pod_sandbox_status (name : PodName) (pod : Pod) : PodSandboxStatus * list ContainerStatus :=
  (mkPodSandboxStatus (pod_prefix name) (Some (pod_sandbox_metadata pod))
     (pod_state_to_cri_pod_state (state pod)) (pod_created_at pod) (Some (address (ip_address pod)))
     (pod_labels pod) (pod_annotations pod) CONTAINER_RUNTIME_HANDLER,
   match state pod with
   | PodState.Initiated | PodState.Removed | PodState.Killed => []
   | PodState.Created | PodState.Starting | PodState.Running | PodState.Stopped =>
       [cri_container_status name pod]
   end).

End Descriptions.

(** ** The service *)
Section Service.
Context {R : RegexCrate} {M : Type -> Type} {P : PapayaMap M} {S : Type} {PS : PapayaSet S}.
(** The messages the service forwards without looking inside, and how it was built. *)
Context {Forwarded : Type} (Sigterm : Z) (debug_assertions : bool).

Inductive Rpc :=
| RpcRunPodSandbox | RpcStopPodSandbox | RpcRemovePodSandbox | RpcPodSandboxStatus
| RpcListPodSandbox | RpcCreateContainer | RpcStartContainer | RpcStopContainer
| RpcRemoveContainer | RpcListContainers | RpcContainerStatus | RpcUpdateContainerResources
| RpcReopenContainerLog | RpcExecSync | RpcExec | RpcAttach | RpcPortForward
| RpcContainerStats | RpcListContainerStats | RpcPodSandboxStats | RpcListPodSandboxStats
| RpcUpdateRuntimeConfig | RpcStatus | RpcCheckpointContainer | RpcListMetricDescriptors
| RpcListPodSandboxMetrics | RpcRuntimeConfig.

(** A call of the downstream runtime: about which ID, and which IDs its reply names. *)
Record DownstreamCall := mkDownstreamCall {
  dc_rpc : Rpc; dc_target : option str; dc_ok : bool; dc_issued : list str }.

Record ProxyingRuntimeService := mkService {
  runtime : World (M := M);
  downstream_ids : S;
  downstream_calls : list DownstreamCall;
}.

(** What the environment decides in a step: an answer for the runtime, and the downstream
    runtime's reply to whichever call it is. *)
Record CriAnswer := mkCriAnswer {
  runtime_answer : Answer;
  d_id : Status + str;
  d_done : Status + unit;
  d_pods : Status + list PodSandbox;
  d_pod_status : Status + PodSandboxStatusResponse;
  d_containers : Status + list Container;
  d_container_status : Status + ContainerStatusResponse;
  d_reply : Status + Forwarded;
}.

Abbreviation cop := (prog ProxyingRuntimeService CriAnswer).
Abbreviation TonicResult := (outcome Status) (only parsing).

Definition set_runtime (r : World) (w : ProxyingRuntimeService) : ProxyingRuntimeService :=
  mkService r (downstream_ids w) (downstream_calls w).
Definition set_ids (ids : S) (w : ProxyingRuntimeService) : ProxyingRuntimeService :=
  mkService (runtime w) ids (downstream_calls w).
Definition add_call (c : DownstreamCall) (w : ProxyingRuntimeService) : ProxyingRuntimeService :=
  mkService (runtime w) (downstream_ids w) (downstream_calls w ++ [c]).

(** [self.runtime.call(..).log_error(..)] *)
Definition call_runtime {A} (p : prog World Answer (outcome StateError A)) : cop (TonicResult A) :=
  pbind (lift runtime set_runtime runtime_answer p) (fun r => Ret (map_err (fun e => Internal (RuntimeError e)) r)).

(** A query of the runtime reads its map. *)
Definition read_runtime {A} (f : World (M := M) -> A) : cop A := atomic (fun _ w => Some (f (runtime w), w)).

(** [self.downstream.lock().await.call(request).await]: the mutex makes the call atomic for
    the handlers of the service. *)
Definition downstream {A} (rpc : Rpc) (target : option str) (reply : CriAnswer -> Status + A)
    (issued : A -> list str) : cop (TonicResult A) :=
  atomic (fun a w =>
    match reply a with
    | inl e => Some (Failed e, add_call (mkDownstreamCall rpc target false []) w)
    | inr r => Some (Done r, add_call (mkDownstreamCall rpc target true (issued r)) w)
    end).

Definition insert_id (i : str) : cop unit :=
  atomic (fun _ w => Some (tt, set_ids (ps_insert (downstream_ids w) i) w)).
Definition remove_id (i : str) : cop unit :=
  atomic (fun _ w => Some (tt, set_ids (ps_remove (downstream_ids w) i) w)).

Definition belongs_downstream (ids : S) (id : str) : bool :=
  ps_contains ids id || negb (starts_with POD_PREFIX id || starts_with CONTAINER_PREFIX id).

Definition is_downstream (id : str) : cop bool :=
  atomic (fun _ w => Some (belongs_downstream (downstream_ids w) id, w)).

Definition no_ids {A} (_ : A) : list str := [].

(** *** Pods *)
Definition version : cop (TonicResult VersionResponse) :=
  Ret (Done (mkVersionResponse KUBELET_API_VERSION CONTAINER_RUNTIME_NAME
    CONTAINER_RUNTIME_VERSION CONTAINER_RUNTIME_API_VERSION)).

Definition run_pod_sandbox (handler : string) (config : option PodSandboxConfig) : cop (TonicResult str) :=
  (if negb (bool_decide (handler = CONTAINER_RUNTIME_HANDLER)) then
     ok! pod_sandbox_id <- downstream RpcRunPodSandbox None d_id (fun i => [i]);
     do! _ <- insert_id pod_sandbox_id;
     Ret (Done pod_sandbox_id)
   else
     let config := default PodSandboxConfig_default config in
     ok! component_name <- Ret (log_error (InvalidPodLabels (psc_labels config))
                                  (component_name_from_labels (psc_labels config)));
     if negb (psc_port_mappings config =? 0)%nat then Ret (Failed (Internal PortMappingsUnsupported))
     else
       ok! pod_name <- call_runtime (init_pod component_name
         (default PodSandboxMetadata_default (psc_metadata config)) (psc_labels config) (psc_annotations config));
       Ret (Done (pod_prefix pod_name)))%prog.

Definition pod_named (id : str) : TonicResult PodName :=
  log_error InvalidPodSandboxId (parse_pod_prefixed_name debug_assertions id).
Definition container_named (id : str) : TonicResult PodName :=
  log_error InvalidContainerId (parse_container_prefixed_name debug_assertions id).

Definition stop_pod_sandbox (pod_sandbox_id : str) : cop (TonicResult unit) :=
  (do! d <- is_downstream pod_sandbox_id;
   if d then downstream RpcStopPodSandbox (Some pod_sandbox_id) d_done no_ids
   else
     ok! name <- Ret (pod_named pod_sandbox_id);
     ok! _ <- call_runtime (kill_pod name);
     Ret (Done tt))%prog.

Definition remove_pod_sandbox (pod_sandbox_id : str) : cop (TonicResult unit) :=
  (do! d <- is_downstream pod_sandbox_id;
   if d then
     ok! r <- downstream RpcRemovePodSandbox (Some pod_sandbox_id) d_done no_ids;
     do! _ <- remove_id pod_sandbox_id;
     Ret (Done r)
   else
     ok! name <- Ret (pod_named pod_sandbox_id);
     ok! _ <- call_runtime (delete_pod name);
     Ret (Done tt))%prog.

(** [Vec::pop] *)
Definition pop {A} (l : list A) : option A := head (rev l).

Definition pod_sandbox_status (pod_sandbox_id : str) : cop (TonicResult PodSandboxStatusResponse) :=
  (do! d <- is_downstream pod_sandbox_id;
   if d then downstream RpcPodSandboxStatus (Some pod_sandbox_id) d_pod_status no_ids
   else
     ok! name <- Ret (pod_named pod_sandbox_id);
     do! statuses <- read_runtime (fun w => get_pod (cri_pod_sandbox_status Sigterm) w name [] None []);
     do! timestamp <- atomic (fun a w => Some (now (runtime_answer a), w));
     Ret (match pop statuses with
          | None => Failed (NotFound (PodName_display name))
          | Some (pod_status, container_statuses) =>
              Done (mkPodSandboxStatusResponse (Some pod_status) ∅ container_statuses timestamp)
          end))%prog.

Definition list_pod_sandbox_upstream (filter : option PodSandboxFilter) : cop (TonicResult (list PodSandbox)) :=
  (let filter := default PodSandboxFilter_default filter in
   let labels := map_to_list (label_selector filter) in
   let readiness := (fun state => state =? SandboxReady) <$> filter_state filter in
   if (0 <? length (filter_id filter))%nat then
     match parse_pod_prefixed_name debug_assertions (filter_id filter) with
     | Done name => do! items <- read_runtime (fun w => get_pod cri_pod_sandbox w name labels readiness []);
                    Ret (Done items)
     | Failed _ => Ret (Done [])
     | Crash c => Ret (Crash c)
     end
   else do! items <- read_runtime (fun w => list_pods cri_pod_sandbox w labels readiness []);
        Ret (Done items))%prog.

Definition list_pod_sandbox (filter : option PodSandboxFilter) : cop (TonicResult (list PodSandbox)) :=
  (ok! downstream_result <- downstream RpcListPodSandbox None d_pods (map ps_id);
   ok! upstream_result <- list_pod_sandbox_upstream filter;
   Ret (Done (downstream_result ++ upstream_result)))%prog.

(** *** Containers *)
Definition environment_of (envs : list (string * string)) : gmap string string :=
  fold_left (fun environment '(key, value) => <[key := value]> environment) envs ∅.

Definition create_container (pod_sandbox_id : str) (config : option ContainerConfig) : cop (TonicResult str) :=
  (do! d <- is_downstream pod_sandbox_id;
   if d then
     ok! container_id <- downstream RpcCreateContainer (Some pod_sandbox_id) d_id (fun i => [i]);
     do! _ <- insert_id container_id;
     Ret (Done container_id)
   else
     ok! name <- Ret (pod_named pod_sandbox_id);
     let config := default ContainerConfig_default config in
     let image_spec := default ImageSpec_default (cc_image config) in
     if negb (bool_decide (image_annotations image_spec = ∅)) then
       Ret (Failed (Internal ImageAnnotationsUnsupported))
     else
       ok! _ <- call_runtime (State.create_container name (cc_metadata config) (cc_labels config)
                  (cc_annotations config) (environment_of (cc_envs config)) (Some image_spec));
       Ret (Done (container_prefix name)))%prog.

Definition start_container (container_id : str) : cop (TonicResult unit) :=
  (do! d <- is_downstream container_id;
   if d then downstream RpcStartContainer (Some container_id) d_done no_ids
   else
     ok! name <- Ret (container_named container_id);
     ok! _ <- call_runtime (State.start_container name);
     Ret (Done tt))%prog.

(** [timeout.try_into().unwrap_or(0)], an [i64] to a [u64]. *)
Definition u64_try_or_0 (timeout : Z) : Z := if timeout <? 0 then 0 else timeout.

Definition stop_container (container_id : str) (timeout : Z) : cop (TonicResult unit) :=
  (do! d <- is_downstream container_id;
   if d then downstream RpcStopContainer (Some container_id) d_done no_ids
   else
     ok! name <- Ret (container_named container_id);
     ok! _ <- call_runtime (State.stop_container name (u64_try_or_0 timeout));
     Ret (Done tt))%prog.

Definition remove_container (container_id : str) : cop (TonicResult unit) :=
  (do! d <- is_downstream container_id;
   if d then
     ok! r <- downstream RpcRemoveContainer (Some container_id) d_done no_ids;
     do! _ <- remove_id container_id;
     Ret (Done r)
   else
     ok! name <- Ret (container_named container_id);
     ok! _ <- call_runtime (State.remove_container name);
     Ret (Done tt))%prog.

Definition list_containers_upstream (filter : option PodSandboxFilter) : cop (TonicResult (list Container)) :=
  (let filter := default PodSandboxFilter_default filter in
   let labels := map_to_list (label_selector filter) in
   let matching_states :=
     match filter_state filter with
     | None => POD_STATES_CONTAINER_ALL
     | Some state => cri_container_state_to_pod_states state
     end in
   if (0 <? length (filter_id filter))%nat then
     match parse_container_prefixed_name debug_assertions (filter_id filter) with
     | Done name =>
         do! containers <- read_runtime (fun w => get_container cri_container w name labels matching_states []);
         Ret (Done containers)
     | Failed _ => Ret (Done [])
     | Crash c => Ret (Crash c)
     end
   else do! containers <- read_runtime (fun w => State.list_containers cri_container w labels matching_states []);
        Ret (Done containers))%prog.

Definition list_containers (filter : option PodSandboxFilter) : cop (TonicResult (list Container)) :=
  (ok! downstream_result <- downstream RpcListContainers None d_containers (map co_id);
   ok! upstream_result <- list_containers_upstream filter;
   Ret (Done (downstream_result ++ upstream_result)))%prog.

Definition container_status (container_id : str) : cop (TonicResult ContainerStatusResponse) :=
  (do! d <- is_downstream container_id;
   if d then downstream RpcContainerStatus (Some container_id) d_container_status no_ids
   else
     ok! name <- Ret (container_named container_id);
     do! container_status <- read_runtime (fun w =>
       get_container (cri_container_status Sigterm) w name [] POD_STATES_CONTAINER_ALL []);
     Ret (match pop container_status with
          | None => Failed (NotFound (PodName_display name))
          | Some status => Done (mkContainerStatusResponse (Some status) ∅)
          end))%prog.

(** *** What only the downstream runtime can do *)
Definition todo {A} : cop (TonicResult A) := Ret (Crash Panicked).

Definition forward_by_id (rpc : Rpc) (id : str) : cop (TonicResult Forwarded) :=
  (do! d <- is_downstream id;
   if d then downstream rpc (Some id) d_reply no_ids else todo)%prog.

Definition update_container_resources := forward_by_id RpcUpdateContainerResources.
Definition reopen_container_log := forward_by_id RpcReopenContainerLog.
Definition exec_sync := forward_by_id RpcExecSync.
Definition exec := forward_by_id RpcExec.
Definition attach := forward_by_id RpcAttach.
Definition port_forward := forward_by_id RpcPortForward.
Definition container_stats := forward_by_id RpcContainerStats.
Definition pod_sandbox_stats := forward_by_id RpcPodSandboxStats.
Definition checkpoint_container := forward_by_id RpcCheckpointContainer.

Definition forward (rpc : Rpc) : cop (TonicResult Forwarded) := downstream rpc None d_reply no_ids.

Definition list_container_stats := forward RpcListContainerStats.
Definition list_pod_sandbox_stats := forward RpcListPodSandboxStats.
Definition update_runtime_config := forward RpcUpdateRuntimeConfig.
Definition node_status := forward RpcStatus.
Definition list_metric_descriptors := forward RpcListMetricDescriptors.
Definition list_pod_sandbox_metrics := forward RpcListPodSandboxMetrics.
Definition runtime_config := forward RpcRuntimeConfig.

Definition get_container_events : cop (TonicResult Forwarded) := Ret (Failed InternalTodo).
Definition update_pod_sandbox_resources : cop (TonicResult Forwarded) := todo.

(** *** All requests *)
Inductive Request :=
| Version
| RunPodSandbox (runtime_handler : string) (config : option PodSandboxConfig)
| StopPodSandbox (pod_sandbox_id : str)
| RemovePodSandbox (pod_sandbox_id : str)
| PodSandboxStatus_ (pod_sandbox_id : str)
| ListPodSandbox (filter : option PodSandboxFilter)
| CreateContainer (pod_sandbox_id : str) (config : option ContainerConfig)
| StartContainer (container_id : str)
| StopContainer (container_id : str) (timeout : Z)
| RemoveContainer (container_id : str)
| ListContainers (filter : option PodSandboxFilter)
| ContainerStatus_ (container_id : str)
| UpdateContainerResources (container_id : str)
| ReopenContainerLog (container_id : str)
| ExecSync (container_id : str)
| Exec (container_id : str)
| Attach (container_id : str)
| PortForward (pod_sandbox_id : str)
| ContainerStats (container_id : str)
| ListContainerStats
| PodSandboxStats (pod_sandbox_id : str)
| ListPodSandboxStats
| UpdateRuntimeConfig
| NodeStatus
| CheckpointContainer (container_id : str)
| GetContainerEvents
| ListMetricDescriptors
| ListPodSandboxMetrics
| RuntimeConfig
| UpdatePodSandboxResources.

Inductive Response :=
| ReVersion (r : VersionResponse)
| ReId (id : str)
| ReDone
| RePodSandboxStatus (r : PodSandboxStatusResponse)
| RePodSandboxes (items : list PodSandbox)
| ReContainers (containers : list Container)
| ReContainerStatus (r : ContainerStatusResponse)
| ReForwarded (r : Forwarded).

Definition respond {A} (f : A -> Response) (p : cop (TonicResult A)) : cop (TonicResult Response) :=
  pbind p (fun r => Ret (let? a := r in Done (f a))).

Definition serve (r : Request) : cop (TonicResult Response) :=
  match r with
  | Version => respond ReVersion version
  | RunPodSandbox h c => respond ReId (run_pod_sandbox h c)
  | StopPodSandbox i => respond (fun _ => ReDone) (stop_pod_sandbox i)
  | RemovePodSandbox i => respond (fun _ => ReDone) (remove_pod_sandbox i)
  | PodSandboxStatus_ i => respond RePodSandboxStatus (pod_sandbox_status i)
  | ListPodSandbox f => respond RePodSandboxes (list_pod_sandbox f)
  | CreateContainer i c => respond ReId (create_container i c)
  | StartContainer i => respond (fun _ => ReDone) (start_container i)
  | StopContainer i t => respond (fun _ => ReDone) (stop_container i t)
  | RemoveContainer i => respond (fun _ => ReDone) (remove_container i)
  | ListContainers f => respond ReContainers (list_containers f)
  | ContainerStatus_ i => respond ReContainerStatus (container_status i)
  | UpdateContainerResources i => respond ReForwarded (update_container_resources i)
  | ReopenContainerLog i => respond ReForwarded (reopen_container_log i)
  | ExecSync i => respond ReForwarded (exec_sync i)
  | Exec i => respond ReForwarded (exec i)
  | Attach i => respond ReForwarded (attach i)
  | PortForward i => respond ReForwarded (port_forward i)
  | ContainerStats i => respond ReForwarded (container_stats i)
  | ListContainerStats => respond ReForwarded list_container_stats
  | PodSandboxStats i => respond ReForwarded (pod_sandbox_stats i)
  | ListPodSandboxStats => respond ReForwarded list_pod_sandbox_stats
  | UpdateRuntimeConfig => respond ReForwarded update_runtime_config
  | NodeStatus => respond ReForwarded node_status
  | CheckpointContainer i => respond ReForwarded (checkpoint_container i)
  | GetContainerEvents => respond ReForwarded get_container_events
  | ListMetricDescriptors => respond ReForwarded list_metric_descriptors
  | ListPodSandboxMetrics => respond ReForwarded list_pod_sandbox_metrics
  | RuntimeConfig => respond ReForwarded runtime_config
  | UpdatePodSandboxResources => respond ReForwarded update_pod_sandbox_resources
  end.

(** *** Start-up *)
(** [ProxyingRuntimeService::new], given what the downstream runtime lists. *)
Definition ProxyingRuntimeService_new (r : World (M := M)) (pods : Status + list PodSandbox)
    (containers : Status + list Container) : outcome Status ProxyingRuntimeService :=
  match pods with
  | inl e => Failed e
  | inr pods =>
      let ids := fold_left ps_insert (map ps_id pods) ps_new in
      match containers with
      | inl e => Failed e
      | inr containers =>
          Done (mkService r (fold_left ps_insert (map co_id containers) ids)
            [mkDownstreamCall RpcListPodSandbox None true (map ps_id pods);
             mkDownstreamCall RpcListContainers None true (map co_id containers)])
      end
  end.

End Service.
