(* ===== verification/CriSpec.v ===== *)
(** * What the CRI handlers do

    - An ID the service gives out names its pod, and a request about it runs exactly one call
      of the state machine, unless the downstream runtime claims the ID.
    - What listing and status requests answer, and which requests panic.
    - What an ID does not have to match: the component, and which of the two prefixes. *)

From S2P Require Import Prelude Regexp Names NamesSpec Concurrent State StateSpec StateCalls Cri.
From Stdlib Require Import ZifyBool.

#[local] Open Scope Z_scope.

Section Spec.
Context {R : RegexCrate} {RL : RegexLaws R} {M : Type -> Type} {P : PapayaMap M} {PL : PapayaLaws M}.
Context {S : Type} {PS : PapayaSet S} {Forwarded : Type} (Sigterm : Z) (debug_assertions : bool).

Abbreviation World := (@World M).
Abbreviation Service := (@ProxyingRuntimeService M S).
Abbreviation cop := (prog Service (CriAnswer (Forwarded := Forwarded))).
Abbreviation serve := (serve (M := M) (S := S) (Forwarded := Forwarded) Sigterm debug_assertions).
Abbreviation get w id := (pm_get (pods w) id).

(** ** IDs *)
Definition pod_name_valid (n : PodName) : Prop := component_valid (p_component n) /\ u_range 64 (p_pod n).

Lemma starts_with_app p s : starts_with p (p ++ s) = true.
Proof. induction p as [|b p IH]; simpl; [done |]. by rewrite bool_decide_eq_true_2, IH. Qed.

Lemma PodName_display_app n : PodName_display n =
  DomainUuid_display (s_domain (c_server (p_component n))) ++ DOMAIN_SEPARATOR ::
    s_server (c_server (p_component n)) ++ VERSION_SEPARATOR :: c_version (p_component n) ++
    POD_ID_SEPARATOR :: format_hex 15 (p_pod n).
Proof.
  unfold PodName_display. rewrite ComponentName_display_app.
  by repeat (rewrite <- app_assoc || rewrite <- app_comm_cons).
Qed.

(** A display starts with a hexadecimal digit, so it can be cut off any two bytes. *)
Lemma slice_display {E} (p : str) n : length p = 2%nat -> component_valid (p_component n) ->
  slice_from (E := E) (p ++ PodName_display n) 2 = Done (PodName_display n).
Proof.
  intros Hp [Hd _]. pose proof (fun b => domain_free b _ Hd) as Hf.
  unfold slice_from, is_char_boundary. rewrite PodName_display_app. revert Hf.
  generalize (DomainUuid_display (s_domain (c_server (p_component n)))). intros d Hf.
  simpl Nat.eqb. rewrite lookup_app_r, Hp by lia. rewrite <- Hp, drop_app_length, Hp.
  destruct d as [|b s]; [done |]. cbn [app lookup list_lookup Nat.sub].
  case_match eqn:E2; [done |]. apply negb_false_iff in E2.
  destruct (is_hex (Z_of_byte b)) eqn:Eh; [unfold is_hex in Eh; lia |].
  specialize (Hf b Eh). apply Forall_cons in Hf as [Hf _].
  unfold is_char in Hf. by apply bool_decide_eq_false in Hf.
Qed.

Lemma pod_roundtrips n : pod_name_valid n -> to_pod (Name_parse (PodName_display n)) = Done n.
Proof. destruct n as [c id]. intros [Hc Hid]. by apply pod_display_parses. Qed.

Lemma parse_pod_prefix n : pod_name_valid n ->
  parse_pod_prefixed_name debug_assertions (pod_prefix n) = Done n.
Proof.
  intros Hn. unfold parse_pod_prefixed_name, debug_assert, pod_prefix.
  rewrite starts_with_app, andb_false_r. cbn [obind].
  rewrite slice_display by (done || apply Hn). by apply pod_roundtrips.
Qed.

Lemma parse_container_prefix n : pod_name_valid n ->
  parse_container_prefixed_name debug_assertions (container_prefix n) = Done n.
Proof.
  intros Hn. unfold parse_container_prefixed_name, debug_assert, container_prefix.
  rewrite starts_with_app, andb_false_r. cbn [obind].
  rewrite slice_display by (done || apply Hn). by apply pod_roundtrips.
Qed.

(** ** A request runs a call *)
Definition reply (f : option PodName -> Response) (r : outcome StateError (option PodName))
    : outcome Status (Response (Forwarded := Forwarded)) :=
  let? n := map_err (fun e => Internal (RuntimeError e)) r in Done (f n).

Abbreviation in_runtime := (lift (runtime (M := M) (S := S)) set_runtime (runtime_answer (Forwarded := Forwarded))).

Definition done (_ : option PodName) : Response (Forwarded := Forwarded) := ReDone.

(** The requests with an ID the service gave out for a pod, and the calls they ask for. *)
Inductive asks (n : PodName) : Request -> str -> Call -> (option PodName -> Response) -> Prop :=
| asks_stop_pod :
    asks n (StopPodSandbox (pod_prefix n)) (pod_prefix n) (CallKillPod n) done
| asks_remove_pod :
    asks n (RemovePodSandbox (pod_prefix n)) (pod_prefix n) (CallDeletePod n) done
| asks_create config image :
    image = default ImageSpec_default (cc_image (default ContainerConfig_default config)) ->
    image_annotations image = ∅ ->
    asks n (CreateContainer (pod_prefix n) config) (pod_prefix n)
      (let config := default ContainerConfig_default config in
       CallCreateContainer n (cc_metadata config) (cc_labels config) (cc_annotations config)
         (environment_of (cc_envs config)) (Some image))
      (fun _ => ReId (container_prefix n))
| asks_start :
    asks n (StartContainer (container_prefix n)) (container_prefix n) (CallStartContainer n) done
| asks_stop timeout :
    asks n (StopContainer (container_prefix n) timeout) (container_prefix n)
      (CallStopContainer n (Z.max timeout 0)) done
| asks_remove :
    asks n (RemoveContainer (container_prefix n)) (container_prefix n) (CallRemoveContainer n) done.

Lemma call_runtime_unnamed {A} (p : prog World Answer (outcome StateError unit)) (x : A) g :
  same_steps (respond g (and_then (call_runtime p) (fun _ => Ret (Done x))))
    (pbind (in_runtime (unnamed p)) (fun r => Ret (reply (fun _ => g x) r))).
Proof.
  induction p as [r|B f k IH]; [by destruct r |].
  simpl. eexists. split; [reflexivity |]. exact IH.
Qed.

Lemma run_alone_map {W A X Y} (p : prog W A X) (g : X -> Y) answers w :
  run_alone (pbind p (fun x => Ret (g x))) answers w
  = '(x, w') ← run_alone p answers w; Some (g x, w').
Proof.
  revert answers w. induction p as [r|B f k IH]; intros answers w; [done |].
  destruct answers as [|a answers]; simpl; [done |]. destruct (f a w) as [[b w1]|]; simpl; [apply IH | done].
Qed.

Lemma asks_steps n r i c f : pod_name_valid n -> asks n r i c f ->
  exists forwarded,
    same_steps (serve r)
      (pbind (is_downstream i) (fun d =>
         if d then forwarded else pbind (in_runtime (program c)) (fun x => Ret (reply f x)))).
Proof.
  intros Hn Ha.
  pose proof (parse_pod_prefix n Hn) as Hp. pose proof (parse_container_prefix n Hn) as Hc.
  destruct Ha; eexists; cbn [Cri.serve program];
    unfold respond, stop_pod_sandbox, remove_pod_sandbox, create_container, start_container,
      stop_container, remove_container, pod_named, container_named; rewrite ?Hp, ?Hc;
    (eexists; split; [reflexivity |]); (intros []; [reflexivity |]); cbn [log_error map_err and_then pbind].
  - apply (call_runtime_unnamed _ () (fun _ => ReDone)).
  - apply (call_runtime_unnamed _ () (fun _ => ReDone)).
  - rewrite bool_decide_eq_true_2 by congruence. cbn [negb]. subst image.
    apply (call_runtime_unnamed _ (container_prefix n) ReId).
  - apply (call_runtime_unnamed _ () (fun _ => ReDone)).
  - replace (Z.max timeout 0) with (u64_try_or_0 timeout) by (unfold u64_try_or_0; case_match; lia).
    apply (call_runtime_unnamed _ () (fun _ => ReDone)).
  - apply (call_runtime_unnamed _ () (fun _ => ReDone)).
Qed.

(** C19. A request with an ID the service gave out for a pod runs exactly the call of the state
    machine it asks for, on that pod, and answers with its result: step by step, whatever
    runs beside it; and with nothing beside it, the rest of the service is left alone.  Only
    if the downstream runtime has claimed the ID is the request forwarded. *)
Theorem request_runs_call n r i c f (Hn : pod_name_valid n) (Ha : asks n r i c f) :
  (exists forwarded,
     same_steps (serve r)
       (pbind (is_downstream i) (fun d =>
          if d then forwarded else pbind (in_runtime (program c)) (fun x => Ret (reply f x)))))
  /\ forall a answers w, belongs_downstream (downstream_ids w) i = false ->
       run_alone (serve r) (a :: answers) w
       = '(x, r') ← run_alone (program c) (runtime_answer <$> answers) (runtime w);
         Some (reply f x, set_runtime r' w).
Proof.
  destruct (asks_steps n r i c f Hn Ha) as [forwarded Hs]. split; [eauto |].
  intros a answers w Hi. rewrite (run_alone_same _ _ _ _ Hs). simpl. rewrite Hi, run_alone_map.
  rewrite run_alone_lift by (intros; by destruct w0). by destruct (run_alone (program c) _ _) as [[]|].
Qed.

(** ** Listing *)
(** The pods of the map with an ID and a condition, each once. *)
Definition picked (w : World) (named : Z -> Prop) (c : Pod -> Prop) (selected : list (Z * Pod)) : Prop :=
  NoDup selected.*1 /\ forall id pod, (id, pod) ∈ selected <-> get w id = Some pod /\ named id /\ c pod.

Lemma picked_all w (named : Z -> Prop) c selected :
  (forall id, named id) -> selects w c selected -> picked w named c selected.
Proof. intros Hn [Hnd H]. split; [done |]. intros id pod. rewrite H. naive_solver. Qed.

Lemma picked_one w (named : Z -> Prop) c selected k :
  (forall id, named id <-> id = k) -> selects w c selected ->
  picked w named c (filter (fun x => x.1 = k) selected).
Proof.
  intros Hn [Hnd H]. split.
  - eapply sublist_NoDup; [exact Hnd |]. apply fmap_sublist, sublist_filter.
  - intros id pod. rewrite list_elem_of_filter, H, Hn. simpl. tauto.
Qed.

Lemma picked_none w (named : Z -> Prop) c : (forall id, ~ named id) -> picked w named c [].
Proof.
  intros Hn. split; [constructor |]. intros id pod. split; [by intros ?%elem_of_nil |].
  intros (_ & H & _). by destruct (Hn id).
Qed.

(** Which pods a filter's ID lets through: all, or the one with the number it names. *)
Definition id_allows (parse : str -> outcome NameError PodName) (filter : PodSandboxFilter) (id : Z) : Prop :=
  filter_id filter = [] \/ exists n, parse (filter_id filter) = Done n /\ p_pod n = id.

Definition labels_match (filter : PodSandboxFilter) (labels : gmap string string) : Prop :=
  forall key value, label_selector filter !! key = Some value -> labels !! key = Some value.

Definition readiness_matches (filter : PodSandboxFilter) (s : PodState.t) : Prop :=
  match filter_state filter with
  | None => True
  | Some x => if x =? SandboxReady then s <> PodState.Killed else s = PodState.Killed
  end.

(** The states of a pod whose container exists. *)
Definition container_exists (s : PodState.t) : Prop := s ∈ POD_STATES_CONTAINER_ALL.

(** What a state filter asks for: the containers that report the state; for
    [CONTAINER_EXITED] also the removed and the killed, which report
    [CONTAINER_UNKNOWN]. *)
Definition container_wanted (filter : PodSandboxFilter) (s : PodState.t) : Prop :=
  match filter_state filter with
  | None => container_exists s
  | Some x =>
      if (0 <=? x) && (x <=? 3) then
        (container_exists s /\ pod_state_to_cri_container_state s = x)
        \/ (x = CONTAINER_STATE_EXITED_VALUE /\ (s = PodState.Removed \/ s = PodState.Killed)
            /\ pod_state_to_cri_container_state s = CONTAINER_STATE_UNKNOWN_VALUE)
      else container_exists s
  end.

Lemma container_wanted_spec filter s :
  s ∈ (match filter_state filter with
       | None => POD_STATES_CONTAINER_ALL
       | Some x => cri_container_state_to_pod_states x
       end) <-> container_wanted filter s.
Proof.
  unfold container_wanted, container_exists. destruct (filter_state filter) as [x|]; [|done].
  destruct ((0 <=? x) && (x <=? 3)) eqn:Hx.
  - assert (Hc : x = 0 \/ x = 1 \/ x = 2 \/ x = 3) by lia.
    destruct Hc as [-> | [-> | [-> | ->]]]; cbn -[elem_of];
      unfold POD_STATES_CONTAINER_ALL, POD_STATES_CONTAINER_CREATED, POD_STATES_CONTAINER_RUNNING,
        POD_STATES_CONTAINER_EXITED, POD_STATES_CONTAINER_UNKNOWN;
      rewrite ?elem_of_cons, ?elem_of_nil; destruct s; naive_solver.
  - unfold cri_container_state_to_pod_states, CONTAINER_STATE_CREATED_VALUE,
      CONTAINER_STATE_RUNNING_VALUE, CONTAINER_STATE_EXITED_VALUE, CONTAINER_STATE_UNKNOWN_VALUE.
    by rewrite !(proj2 (Z.eqb_neq _ _)) by lia.
Qed.

Lemma selector_labels filter labels :
  (forall key value, (key, value) ∈ map_to_list (label_selector filter) -> labels !! key = Some value)
  <-> labels_match filter labels.
Proof. unfold labels_match. by setoid_rewrite elem_of_map_to_list. Qed.

Lemma to_pod_returns s c : to_pod (Name_parse s) <> Crash c.
Proof.
  unfold to_pod. destruct (Name_parse s) as [d sv v p]. cbn [domain server version pod].
  destruct d as [d|]; [|done]. destruct v as [v|]; [|done]. destruct p as [p|]; [|done].
  intros H. apply obind_crash in H as [H|(u & _ & H)]; [by apply DomainUuid_parse_returns in H |].
  apply obind_crash in H as [H|(c' & _ & H)].
  - unfold ComponentName_new, ServerName_new in H. by repeat case_match.
  - by destruct (from_str_radix_16 p).
Qed.

(** When the parser of an ID panics: in a debug build on any ID without the prefix, in a
    release build where byte 2 is not the start of a character. *)
Definition id_panics (prefix s : str) : bool :=
  (debug_assertions && negb (starts_with prefix s)) || negb (is_char_boundary s 2).

Lemma parse_pod_panics s c :
  parse_pod_prefixed_name debug_assertions s = Crash c <-> id_panics POD_PREFIX s = true /\ c = Panicked.
Proof.
  unfold parse_pod_prefixed_name, id_panics, debug_assert, slice_from.
  destruct (debug_assertions && _); simpl; [naive_solver |].
  destruct (is_char_boundary s 2); simpl; [|naive_solver].
  split; [by intros ?%to_pod_returns | naive_solver].
Qed.

Lemma parse_container_panics s c :
  parse_container_prefixed_name debug_assertions s = Crash c
  <-> id_panics CONTAINER_PREFIX s = true /\ c = Panicked.
Proof.
  unfold parse_container_prefixed_name, id_panics, debug_assert, slice_from.
  destruct (debug_assertions && _); simpl; [naive_solver |].
  destruct (is_char_boundary s 2); simpl; [|naive_solver].
  split; [by intros ?%to_pod_returns | naive_solver].
Qed.

(** What an upstream listing returns, for pods and containers alike. *)
Lemma listing {T} (w : World) (transform : PodName -> Pod -> T) flt parse (c : Pod -> Prop) selected
    (all : list T) (one : PodName -> list T) :
  (filter_id flt <> [] -> forall c, parse (filter_id flt) <> Crash c) ->
  selects w c selected -> all = map (described transform) selected ->
  (forall n, one n = map (described transform) (filter (fun x => x.1 = p_pod n) selected)) ->
  exists picked_pods, picked w (id_allows parse flt) c picked_pods
    /\ map (described transform) picked_pods =
       (if (0 <? length (filter_id flt))%nat then
          match parse (filter_id flt) with Done n => one n | _ => [] end
        else all).
Proof.
  intros Hc Hs Hall Hone. unfold id_allows. destruct (filter_id flt) as [|b s] eqn:Ef; simpl.
  - exists selected. split; [apply picked_all; auto | done].
  - destruct (parse (b :: s)) as [n|e|c'] eqn:Ep; [..|].
    + exists (filter (fun x => x.1 = p_pod n) selected). split; [|by rewrite Hone].
      apply picked_one; [|done]. intros id. naive_solver.
    + exists []. split; [apply picked_none | done]. intros id [H|(n & ? & _)]; congruence.
    + by destruct (Hc ltac:(done) c').
Qed.

(** C28. Listing pods returns what the downstream runtime lists, then a description of exactly
    the pods of the map that the filter's ID, labels and state let through, each once; the
    service itself is only read. *)
Theorem pods_listed filter a a' answers w items
    (Hdown : d_pods a = inr items)
    (Hid : filter_id filter = [] \/ id_panics POD_PREFIX (filter_id filter) = false) :
  exists selected,
    picked (runtime w) (id_allows (parse_pod_prefixed_name debug_assertions) filter)
      (fun pod => labels_match filter (pod_labels pod) /\ readiness_matches filter (state pod)) selected
    /\ run_alone (serve (ListPodSandbox (Some filter))) (a :: a' :: answers) w
       = Some (Done (RePodSandboxes (items ++ map (described cri_pod_sandbox) selected)),
               add_call (mkDownstreamCall RpcListPodSandbox None true (map ps_id items)) w).
Proof.
  set (labels := map_to_list (label_selector filter)).
  set (readiness := (fun s => s =? SandboxReady) <$> filter_state filter).
  destruct (list_pods_spec cri_pod_sandbox (runtime w) labels readiness []) as (sel & Hsel & Hall & Hone).
  destruct (listing (runtime w) cri_pod_sandbox filter (parse_pod_prefixed_name debug_assertions)
    (pod_matches labels readiness) sel (list_pods cri_pod_sandbox (runtime w) labels readiness [])
    (fun n => get_pod cri_pod_sandbox (runtime w) n labels readiness [])) as (selected & [Hnd Hp] & Hm);
    [ | exact Hsel | exact Hall | exact Hone | ].
  { intros Hne c [Hc _]%parse_pod_panics. destruct Hid; congruence. }
  exists selected. split.
  - split; [exact Hnd |]. intros id pod. rewrite Hp. unfold pod_matches, labels, readiness, readiness_matches.
    rewrite selector_labels. destruct (filter_state filter) as [s|]; simpl; [by destruct (s =? SandboxReady) | done].
  - rewrite Hm. cbn [Cri.serve]. unfold list_pod_sandbox, list_pod_sandbox_upstream, respond, downstream.
    cbn [default]. fold labels readiness.
    simpl. rewrite Hdown. simpl.
    destruct (0 <? length (filter_id filter))%nat eqn:E; [|reflexivity].
    destruct (parse_pod_prefixed_name debug_assertions (filter_id filter)) eqn:Ep; [reflexivity..|].
    apply parse_pod_panics in Ep as [Ep _]. destruct Hid as [Hid|Hid]; [by rewrite Hid in E | congruence].
Qed.

(** Listing containers does so for the containers of the map, with two turns: without a
    state it lists those that exist, and with one those that report it, except that
    [CONTAINER_EXITED] also finds the removed and killed containers, which no other listing
    has and which report [CONTAINER_UNKNOWN]. *)
Theorem containers_listed filter a a' answers w items
    (Hdown : d_containers a = inr items)
    (Hid : filter_id filter = [] \/ id_panics CONTAINER_PREFIX (filter_id filter) = false) :
  exists selected,
    picked (runtime w) (id_allows (parse_container_prefixed_name debug_assertions) filter)
      (fun pod => labels_match filter (container_labels pod) /\ container_wanted filter (state pod)) selected
    /\ run_alone (serve (ListContainers (Some filter))) (a :: a' :: answers) w
       = Some (Done (ReContainers (items ++ map (described cri_container) selected)),
               add_call (mkDownstreamCall RpcListContainers None true (map co_id items)) w).
Proof.
  set (labels := map_to_list (label_selector filter)).
  set (states := match filter_state filter with
                 | None => POD_STATES_CONTAINER_ALL
                 | Some s => cri_container_state_to_pod_states s
                 end).
  destruct (list_containers_spec cri_container (runtime w) labels states []) as (sel & Hsel & Hall & Hone).
  destruct (listing (runtime w) cri_container filter (parse_container_prefixed_name debug_assertions)
    (container_matches labels states) sel (State.list_containers cri_container (runtime w) labels states [])
    (fun n => get_container cri_container (runtime w) n labels states [])) as (selected & [Hnd Hp] & Hm);
    [ | exact Hsel | exact Hall | exact Hone | ].
  { intros Hne c [Hc _]%parse_container_panics. destruct Hid; congruence. }
  exists selected. split.
  - split; [exact Hnd |]. intros id pod. rewrite Hp. unfold container_matches, labels, states.
    by rewrite selector_labels, container_wanted_spec.
  - rewrite Hm. cbn [Cri.serve]. unfold list_containers, list_containers_upstream, respond, downstream.
    cbn [default]. fold labels states.
    simpl. rewrite Hdown. simpl.
    destruct (0 <? length (filter_id filter))%nat eqn:E; [|reflexivity].
    destruct (parse_container_prefixed_name debug_assertions (filter_id filter)) eqn:Ep; [reflexivity..|].
    apply parse_container_panics in Ep as [Ep _]. destruct Hid as [Hid|Hid]; [by rewrite Hid in E | congruence].
Qed.

(** A listing with an ID in its filter panics exactly if the ID has no second character
    boundary (so for any one-byte ID), or, in a debug build, lacks the prefix: no check
    precedes the slice. *)
Lemma listings_panic filter a a' answers w pods containers
    (Hpods : d_pods a = inr pods) (Hcontainers : d_containers a = inr containers)
    (Hne : filter_id filter <> []) :
  (fst <$> run_alone (serve (ListPodSandbox (Some filter))) (a :: a' :: answers) w = Some (Crash Panicked)
   <-> id_panics POD_PREFIX (filter_id filter) = true)
  /\ (fst <$> run_alone (serve (ListContainers (Some filter))) (a :: a' :: answers) w = Some (Crash Panicked)
      <-> id_panics CONTAINER_PREFIX (filter_id filter) = true).
Proof.
  assert (E : (0 <? length (filter_id filter))%nat = true) by (by destruct (filter_id filter)).
  cbn [Cri.serve]. unfold list_pod_sandbox, list_containers, list_pod_sandbox_upstream,
    list_containers_upstream, respond, downstream.
  cbn [default]. simpl. rewrite Hpods, Hcontainers. simpl. rewrite E.
  pose proof (parse_pod_panics (filter_id filter)) as Hp.
  pose proof (parse_container_panics (filter_id filter)) as Hc.
  split.
  - destruct (parse_pod_prefixed_name debug_assertions (filter_id filter)) as [n|e|c]; simpl;
      [naive_solver..|]. destruct (Hp c) as [Hp' _]. naive_solver.
  - destruct (parse_container_prefixed_name debug_assertions (filter_id filter)) as [n|e|c]; simpl;
      [naive_solver..|]. destruct (Hc c) as [Hc' _]. naive_solver.
Qed.

(** ** Status *)
#[local] Instance container_exists_dec s : Decision (container_exists s).
Proof. unfold container_exists. apply _. Defined.

(** The status of a pod is that of the pod in the map with its number, with the status of
    its container if there is one; the status of a container is that, if it exists; else the
    answer is [NOT_FOUND].  (The component of the ID is not compared: the reply names the
    pod's own.) *)
Theorem statuses_answered n a a' a'' answers w (Hn : pod_name_valid n)
    (Hp : belongs_downstream (downstream_ids w) (pod_prefix n) = false)
    (Hc : belongs_downstream (downstream_ids w) (container_prefix n) = false) :
  let pod := get (runtime w) (p_pod n) in
  let own p := mkPodName (component_name p) (p_pod n) in
  run_alone (serve (PodSandboxStatus_ (pod_prefix n))) (a :: a' :: a'' :: answers) w
  = Some (match pod with
          | Some p => Done (RePodSandboxStatus (mkPodSandboxStatusResponse
              (Some (fst (cri_pod_sandbox_status Sigterm (own p) p))) ∅
              (if decide (container_exists (state p)) then [cri_container_status Sigterm (own p) p] else [])
              (now (runtime_answer a''))))
          | None => Failed (NotFound (PodName_display n))
          end, w)
  /\ run_alone (serve (ContainerStatus_ (container_prefix n))) (a :: a' :: answers) w
     = Some (match pod with
             | Some p => if decide (container_exists (state p)) then
                           Done (ReContainerStatus (mkContainerStatusResponse
                             (Some (cri_container_status Sigterm (own p) p)) ∅))
                         else Failed (NotFound (PodName_display n))
             | None => Failed (NotFound (PodName_display n))
             end, w).
Proof.
  intros pod own. cbn [Cri.serve]. unfold pod_sandbox_status, container_status, respond, pod_named, container_named.
  simpl. rewrite Hp, Hc, parse_pod_prefix, parse_container_prefix by done. simpl.
  unfold get_pod, get_container, match_pod, match_container.
  change (pm_get (pods (runtime w)) (p_pod n)) with pod.
  destruct pod as [p|]; [|done]. unfold cri_pod_sandbox_status.
  cbn [match_labels forallb andb]. rewrite andb_true_r.
  by destruct (state p) eqn:Es; simpl; rewrite ?Es.
Qed.

(** ** What an ID need not match *)
(** IDs are checked too loosely.  A request about a pod does to the map what it would with
    any other component in its ID: only the number is looked up.  In a release build the two
    prefixes are interchangeable: a container's ID stops the pod.  And no check precedes the
    slice that takes the prefix off: a listing with an ID in its filter panics exactly if the
    ID has no second character boundary (so for any one-byte ID), or, in a debug build, lacks
    the prefix. *)
Theorem ids_loosely_checked n n' filter a a' answers w pods containers
    (Hid : p_pod n = p_pod n') (Hn : pod_name_valid n)
    (Hpods : d_pods a = inr pods) (Hcontainers : d_containers a = inr containers)
    (Hne : filter_id filter <> []) :
  (forall r i c f, asks n r i c f -> exists r' i' c' f', asks n' r' i' c' f' /\ program c' = program c)
  /\ (debug_assertions = false ->
      parse_pod_prefixed_name debug_assertions (container_prefix n) = Done n
      /\ parse_container_prefixed_name debug_assertions (pod_prefix n) = Done n)
  /\ (fst <$> run_alone (serve (ListPodSandbox (Some filter))) (a :: a' :: answers) w = Some (Crash Panicked)
      <-> id_panics POD_PREFIX (filter_id filter) = true)
  /\ (fst <$> run_alone (serve (ListContainers (Some filter))) (a :: a' :: answers) w = Some (Crash Panicked)
      <-> id_panics CONTAINER_PREFIX (filter_id filter) = true).
Proof.
  split_and!; [| | by apply (listings_panic filter a a' answers w pods containers)..].
  - intros r i c f []; do 4 eexists; (split; [by econstructor |]); simpl;
      unfold kill_pod, kill_pod_without_wait, delete_pod, State.create_container, State.start_container,
        start_container_without_wait, State.stop_container, stop_container_without_wait,
        State.remove_container; by rewrite Hid.
  - intros Hd. unfold parse_pod_prefixed_name, parse_container_prefixed_name, debug_assert. rewrite Hd.
    unfold pod_prefix, container_prefix. cbn [andb obind].
    rewrite !slice_display by (done || apply Hn). cbn [obind]. by rewrite pod_roundtrips.
Qed.

End Spec.
