(* ===== verification/CriInvariant.v ===== *)
(** * The invariant of the running service

    However CRI requests interleave, on top of the pod state machine and a downstream runtime
    that answers as it likes: the invariant of [StateInvariant] holds of the runtime inside
    the service, and no request is forwarded with an ID the downstream runtime has no claim
    to.  The tokens of a request are those of the call it runs, and its claims on IDs. *)

From S2P Require Import Prelude Regexp Names Concurrent State StateSpec StateInvariant Cri.

#[local] Open Scope Z_scope.

Section Invariant.
Context {R : RegexCrate} {M : Type -> Type} {P : PapayaMap M} {PL : PapayaLaws M}.
Context {S : Type} {PS : PapayaSet S} {PSL : PapayaSetLaws S}.
Context {Forwarded : Type} (Sigterm : Z) (debug_assertions : bool).

Abbreviation World := (@World M).
Abbreviation Service := (@ProxyingRuntimeService M S).
Abbreviation CriAnswer := (CriAnswer (Forwarded := Forwarded)).
Abbreviation serve := (serve (M := M) (S := S) (Forwarded := Forwarded) Sigterm debug_assertions).
Abbreviation get w id := (pm_get (pods w) id).

(** ** Claims *)
Definition issued (calls : list DownstreamCall) (i : str) : Prop :=
  exists call, call ∈ calls /\ i ∈ dc_issued call.

Definition unprefixed (i : str) : Prop :=
  starts_with POD_PREFIX i = false /\ starts_with CONTAINER_PREFIX i = false.

(** The downstream runtime has a claim to an ID without a Vimana prefix, and to one it has
    named in a reply. *)
Definition claimed (calls : list DownstreamCall) (i : str) : Prop := unprefixed i \/ issued calls i.

Lemma issued_app calls calls' i : issued calls i -> issued (calls ++ calls') i.
Proof. intros (call & H & Hi). exists call. split; [|done]. apply elem_of_app. by left. Qed.

Lemma claimed_app calls calls' i : claimed calls i -> claimed (calls ++ calls') i.
Proof. intros [H|H]; [by left | right; by apply issued_app]. Qed.

(** ** The invariant *)
Inductive CriTok :=
| TRuntime (t : Tok)    (** held by the call of the state machine *)
| TClaimed (i : str)    (** found to belong downstream *)
| TIssued (i : str).    (** returned by the downstream runtime, to be remembered *)

Definition runtime_token (t : CriTok) : option Tok := match t with TRuntime t => Some t | _ => None end.

Record Sound (n : nat) (w : Service) (toks : list CriTok) : Prop := mkSound {
  s_good : Good n (runtime w) (omap runtime_token toks);
  s_claimed i : TClaimed i ∈ toks -> claimed (downstream_calls w) i;
  s_issued i : TIssued i ∈ toks -> issued (downstream_calls w) i;
  s_ids i : ps_contains (downstream_ids w) i = true -> issued (downstream_calls w) i;
  s_calls pre call post i : downstream_calls w = pre ++ call :: post ->
    dc_target call = Some i -> claimed pre i;
}.

Abbreviation swp := (wp Sound in_bound (fun _ _ => True)).

Lemma runtime_tokens own rest :
  omap runtime_token ((TRuntime <$> own) ++ rest) = own ++ omap runtime_token rest.
Proof. induction own as [|t own IH]; [done |]. simpl. by f_equal. Qed.

Lemma issued_tokens l : omap runtime_token (TIssued <$> l) = [].
Proof. by induction l. Qed.

Lemma other_tokens t own rest : runtime_token t = None ->
  t ∈ (TRuntime <$> own) ++ rest <-> t ∈ rest.
Proof.
  intros Ht. rewrite elem_of_app. split; [|by right]. intros [(x & -> & _)%list_elem_of_fmap|H]; done.
Qed.

(** A call of the state machine inside the service keeps the invariant, if it does so by
    itself. *)
Lemma swp_in_runtime {X} (p : prog World Answer X) own Q :
  wp Good in_bound (fun _ _ => True) p own Q ->
  swp (lift runtime set_runtime (runtime_answer (Forwarded := Forwarded)) p) (TRuntime <$> own)
    (fun r own' => exists o, own' = TRuntime <$> o /\ Q r o).
Proof.
  revert own. induction p as [r|B f k IH]; intros own Hp; simpl in *; [eauto |].
  intros n a w rest Hn [HG HC HI Hids Hcalls]. rewrite runtime_tokens in HG.
  specialize (Hp n (runtime_answer a) _ _ Hn HG).
  destruct (f (runtime_answer a) (runtime w)) as [[b w1]|]; [|done]. simpl.
  destruct Hp as (own' & HG' & Hw). exists (TRuntime <$> own').
  split; [|by apply IH]. constructor; simpl; [by rewrite runtime_tokens | | |done..].
  - intros i. rewrite other_tokens by done. intros Hi. apply HC. by rewrite other_tokens.
  - intros i. rewrite other_tokens by done. intros Hi. apply HI. by rewrite other_tokens.
Qed.

(** What a handler returns: nothing held. *)
Definition nothing {X} (_ : X) (own : list CriTok) : Prop := own = [].

Lemma swp_call {A} (p : prog World Answer (outcome StateError A)) :
  wp Good in_bound (fun _ _ => True) p [] returns -> swp (call_runtime (Forwarded := Forwarded) (S := S) p) [] nothing.
Proof.
  intros Hp. unfold call_runtime. eapply wp_pbind; [by apply (swp_in_runtime p [] returns) |].
  intros r own (o & -> & -> & _). done.
Qed.

Lemma app_cons_cases {A} (l : list A) x pre y post :
  l ++ [x] = pre ++ y :: post ->
  (pre = l /\ y = x /\ post = []) \/ exists post', post = post' ++ [x] /\ l = pre ++ y :: post'.
Proof.
  destruct post as [|z post _] using rev_ind; intros E.
  - apply app_inj_tail in E as [-> ->]. by left.
  - right. exists post. rewrite app_comm_cons, app_assoc in E. by apply app_inj_tail in E as [-> ->].
Qed.

(** A step that leaves the service as it is. *)
Lemma swp_read {B} (f : CriAnswer -> Service -> B) own (Q : B -> list CriTok -> Prop) :
  (forall n a w rest, Sound n w (own ++ rest) ->
     exists own', Sound n w (own' ++ rest) /\ Q (f a w) own') ->
  swp (atomic (fun a w => Some (f a w, w))) own Q.
Proof.
  intros H. apply wp_atomic; [done |]. intros n a w rest b w' _ HS [= <- <-].
  destruct (H n a w rest HS) as (own' & [HG ? ? ? ?] & HQ).
  exists own'. split; [|done]. constructor; [by apply Good_tick | done..].
Qed.

Lemma swp_is_downstream i :
  swp (is_downstream (Forwarded := Forwarded) i) []
    (fun d own => own = if (d : bool) then [TClaimed i] else []).
Proof.
  apply swp_read. intros n a w rest [HG HC HI Hids Hcalls].
  destruct (belongs_downstream (downstream_ids w) i) eqn:E; [|by exists []].
  exists [TClaimed i]. split; [|done]. constructor; simpl; [done | | |done..].
  - intros j [[= ->]|Hj]%elem_of_cons; [|by apply HC]. unfold belongs_downstream in E.
    apply orb_true_iff in E as [E|E]; [right; by apply Hids | left].
    by apply negb_true_iff, orb_false_iff in E.
  - intros j [|Hj]%elem_of_cons; [done | by apply HI].
Qed.

(** A call of the downstream runtime, about an ID it has a claim to or about none; the IDs of
    the reply are kept as tokens or not. *)
Lemma swp_downstream {A} keep rpc target (reply : CriAnswer -> Status + A) (ids : A -> list str) own :
  own = match target with Some i => [TClaimed i] | None => [] end ->
  swp (downstream rpc target reply ids) own
    (fun r own' => own' = match r with Done a => if (keep : bool) then TIssued <$> ids a else [] | _ => [] end).
Proof.
  intros ->. apply wp_atomic; [done |]. intros n a w rest b w' _ HS H.
  assert (Hk : forall ok new kept, kept = TIssued <$> new \/ kept = [] ->
      Sound (Datatypes.S n) (add_call (mkDownstreamCall rpc target ok new) w) (kept ++ rest)).
  { intros ok new kept Hkept. destruct HS as [HG HC HI Hids Hcalls].
    assert (Ht : forall t, t ∈ rest -> t ∈ match target with Some i => [TClaimed i] | None => [] end ++ rest)
      by (intros t Ht; apply elem_of_app; by right).
    assert (Hnew : forall t, t ∈ kept -> exists i, t = TIssued i /\ i ∈ new).
    { intros t Hin. destruct Hkept as [-> | ->]; [|by apply elem_of_nil in Hin].
      apply list_elem_of_fmap in Hin as (i & -> & Hi). eauto. }
    constructor; simpl.
    - apply Good_tick. rewrite omap_app.
      assert (omap runtime_token kept = []) as ->
        by (destruct Hkept as [-> | ->]; [apply issued_tokens | done]). by destruct target.
    - intros i [(? & ? & _)%Hnew|Hi]%elem_of_app; [done |]. apply claimed_app, HC. auto.
    - intros i [(j & [= <-] & Hj)%Hnew|Hi]%elem_of_app; [|apply issued_app, HI; auto].
      eexists. split; [apply elem_of_app; right; by left | done].
    - intros i Hi. by apply issued_app, Hids.
    - intros pre call post i E Hi. destruct (app_cons_cases _ _ _ _ _ E) as [(-> & -> & ->)|(post' & -> & E')].
      + simpl in Hi. subst target. apply HC. by left.
      + by eapply Hcalls. }
  destruct (reply a) as [e|x]; injection H as <- <-; eexists; (split; [apply Hk | done]); [by left |].
  destruct keep; auto.
Qed.

Lemma sound_ids n w toks toks' ids :
  Sound n w toks -> omap runtime_token toks' = omap runtime_token toks ->
  (forall t, t ∈ toks' -> t ∈ toks) ->
  (forall i, ps_contains ids i = true -> ps_contains (downstream_ids w) i = true \/ TIssued i ∈ toks) ->
  Sound (Datatypes.S n) (set_ids ids w) toks'.
Proof.
  intros [HG HC HI Hids Hcalls] Ho Hsub Hids'. constructor; simpl; [| by eauto.. | | done].
  - rewrite Ho. by apply Good_tick.
  - intros i Hi. destruct (Hids' i Hi); auto.
Qed.

Lemma swp_insert_id i : swp (insert_id (Forwarded := Forwarded) i) [TIssued i] nothing.
Proof.
  apply wp_atomic; [done |]. intros n a w rest b w' _ HS [= <- <-]. exists []. split; [|done].
  eapply sound_ids; [exact HS | done | by right |]. intros j. rewrite ps_contains_insert.
  destruct (bool_decide_reflect (j = i)) as [->|]; simpl; [right; by left | auto].
Qed.

Lemma swp_remove_id i : swp (remove_id (Forwarded := Forwarded) i) [] nothing.
Proof.
  apply wp_atomic; [done |]. intros n a w rest b w' _ HS [= <- <-]. exists []. split; [|done].
  eapply sound_ids; [exact HS | done | done |]. intros j. rewrite ps_contains_remove.
  intros [_ ?]%andb_true_iff. by left.
Qed.

(** ** The handlers *)
Lemma swp_and_then {A B} (p : prog Service CriAnswer (outcome Status A))
    (k : A -> prog Service CriAnswer (outcome Status B)) own (Q : A -> list CriTok -> Prop) :
  swp p own (fun r own' => match r with Done a => Q a own' | _ => own' = [] end) ->
  (forall a own', Q a own' -> swp (k a) own' nothing) ->
  swp (and_then p k) own nothing.
Proof.
  intros Hp Hk. unfold and_then. eapply wp_pbind; [exact Hp |]. intros [a|e|c] own' H; [by apply Hk | done..].
Qed.

Lemma swp_respond {A} (f : A -> Response) (p : prog Service CriAnswer (outcome Status A)) :
  swp p [] nothing -> swp (respond f p) [] nothing.
Proof. intros Hp. unfold respond. eapply wp_pbind; [exact Hp |]. by intros r own ->. Qed.

(** The shape of most handlers: forward if the ID belongs downstream. *)
Lemma swp_route {A} i (p q : prog Service CriAnswer (outcome Status A)) :
  swp p [TClaimed i] nothing -> swp q [] nothing ->
  swp (pbind (is_downstream i) (fun d => if d then p else q)) [] nothing.
Proof.
  intros Hp Hq. eapply wp_pbind; [apply swp_is_downstream |]. by intros [] own ->.
Qed.

Lemma swp_forward_to {A} rpc i (reply : CriAnswer -> Status + A) :
  swp (downstream rpc (Some i) reply no_ids) [TClaimed i] nothing.
Proof. eapply wp_mono; [by apply (swp_downstream false) |]. by intros [] own ->. Qed.

(** A call of the state machine, after a check that needs no step. *)
Lemma swp_checked {A B C} (check : outcome Status A) (p : A -> prog World Answer (outcome StateError B))
    (k : A -> B -> C) :
  (forall a, wp Good in_bound (fun _ _ => True) (p a) [] returns) ->
  swp (and_then (Ret check) (fun a =>
         and_then (call_runtime (S := S) (Forwarded := Forwarded) (p a)) (fun b => Ret (Done (k a b))))) [] nothing.
Proof.
  intros Hp. eapply swp_and_then with (Q := fun _ => nothing tt); [by destruct check |].
  intros a own ->. eapply swp_and_then with (Q := fun _ => nothing tt);
    [| by intros b own ->]. eapply wp_mono; [by apply swp_call |]. by intros [] own ->.
Qed.

(** [nothing] as what an [and_then] hands on. *)
Lemma swp_then_nothing {A B} (p : prog Service CriAnswer (outcome Status A))
    (k : A -> prog Service CriAnswer (outcome Status B)) own :
  swp p own nothing -> (forall a, swp (k a) [] nothing) -> swp (and_then p k) own nothing.
Proof.
  intros Hp Hk. eapply swp_and_then with (Q := fun _ => nothing tt); [|by intros a own' ->].
  eapply wp_mono; [exact Hp |]. by intros [] own' ->.
Qed.

Lemma swp_remember rpc target own :
  own = match target with Some i => [TClaimed i] | None => [] end ->
  swp (and_then (downstream rpc target d_id (fun i => [i])) (fun i =>
         pbind (insert_id (Forwarded := Forwarded) i) (fun _ => Ret (Done i)))) own nothing.
Proof.
  intros ->. eapply swp_and_then with (Q := fun i own' => own' = [TIssued i]).
  { eapply wp_mono; [by apply (swp_downstream true) |]. by intros []. }
  intros i own ->.
  eapply wp_pbind; [apply swp_insert_id |]. by intros ? own ->.
Qed.

Lemma swp_forget {A} rpc i (reply : CriAnswer -> Status + A) :
  swp (and_then (downstream rpc (Some i) reply no_ids) (fun r =>
         pbind (remove_id (Forwarded := Forwarded) i) (fun _ => Ret (Done r)))) [TClaimed i] nothing.
Proof.
  apply swp_then_nothing; [apply swp_forward_to |]. intros r.
  eapply wp_pbind; [apply swp_remove_id |]. by intros ? own ->.
Qed.

Lemma swp_query {A B} (f : World -> A) (k : A -> prog Service CriAnswer (outcome Status B)) :
  (forall x, swp (k x) [] nothing) -> swp (pbind (read_runtime f) k) [] nothing.
Proof.
  intros Hk. eapply wp_pbind with (Q' := nothing); [|by intros x own ->].
  apply swp_read. intros n a w rest HS. by exists [].
Qed.

(** A listing: the IDs the downstream runtime lists are not remembered. *)
Lemma swp_listing {A} rpc (reply : CriAnswer -> Status + list A) ids (p : prog Service CriAnswer (outcome Status (list A))) :
  swp p [] nothing ->
  swp (and_then (downstream rpc None reply ids) (fun ds => and_then p (fun us => Ret (Done (ds ++ us)))))
    [] nothing.
Proof.
  intros Hp. apply swp_then_nothing; [|intros ds; by apply swp_then_nothing].
  eapply wp_mono; [by apply (swp_downstream false) |]. by intros [].
Qed.

Lemma serve_swp r : swp (serve r) [] nothing.
Proof.
  assert (Hforward : forall rpc i, swp (forward_by_id rpc i) [] nothing)
    by (intros; apply swp_route; [apply swp_forward_to | done]).
  assert (Hnode : forall rpc, swp (forward rpc) [] nothing)
    by (intros; eapply wp_mono; [by apply (swp_downstream false) | by intros [] own ->]).
  destruct r; cbn [Cri.serve]; apply swp_respond; try (apply Hforward || apply Hnode || done).
  - unfold run_pod_sandbox. case_match; [by apply swp_remember |].
    apply swp_then_nothing; [by destruct (log_error _ _) |]. intros c. case_match; [done |].
    apply swp_then_nothing; [apply swp_call, wp_init | done].
  - apply swp_route; [apply swp_forward_to | apply swp_checked; intros; apply wp_kill].
  - apply swp_route; [apply swp_forget | apply swp_checked; intros; apply wp_delete].
  - apply swp_route; [apply swp_forward_to |].
    apply swp_then_nothing; [by destruct (pod_named _ _) |]. intros n. apply swp_query. intros statuses.
    eapply wp_pbind with (Q' := nothing); [|by intros x own ->].
    apply swp_read. intros k a w rest HS. by exists [].
  - apply swp_listing. unfold list_pod_sandbox_upstream. repeat case_match; try done; by apply swp_query.
  - apply swp_route; [by apply swp_remember |].
    apply swp_then_nothing; [by destruct (pod_named _ _) |]. intros n. cbv zeta. case_match; [done |].
    apply swp_then_nothing; [apply swp_call, wp_create | done].
  - apply swp_route; [apply swp_forward_to | apply swp_checked; intros; apply wp_start].
  - apply swp_route; [apply swp_forward_to | apply swp_checked; intros; apply wp_stop].
  - apply swp_route; [apply swp_forget | apply swp_checked; intros; apply wp_remove].
  - apply swp_listing. unfold list_containers_upstream. repeat case_match; try done; by apply swp_query.
  - apply swp_route; [apply swp_forward_to |].
    apply swp_then_nothing; [by destruct (container_named _ _) |]. intros n. by apply swp_query.
Qed.

(** ** Runs *)
Abbreviation Conf := (@Conf Service CriAnswer (outcome Status (Response (Forwarded := Forwarded)))).

Definition service_happens (h : Happening) (w : Service) : option Service :=
  r ← happen h (runtime w); Some (set_runtime r w).

Definition service_runs (es : list (Event (Answer := CriAnswer) (Call := Request) (Happening := Happening)))
    (c c' : Conf) : Prop := Concurrent.exec serve service_happens es c = Some c'.

(** The service starts with an empty runtime and what the downstream runtime lists. *)
Definition starts pods containers (c : Conf) : Prop :=
  exists w, ProxyingRuntimeService_new WorkRuntime_new pods containers = Done w /\ c = mkConf w [].

Lemma contains_fold ids l i :
  ps_contains (fold_left ps_insert l ids) i = true -> ps_contains ids i = true \/ i ∈ l.
Proof.
  revert ids. induction l as [|j l IH]; intros ids H; [by left |].
  destruct (IH _ H) as [H'|]; [|right; by right].
  rewrite ps_contains_insert in H'.
  destruct (bool_decide_reflect (i = j)) as [->|]; [right; by left | by left].
Qed.

Lemma sound_start pods containers (c : Conf) : starts pods containers c -> Sound 0 (world c) [].
Proof.
  intros (w & Hw & ->). unfold ProxyingRuntimeService_new in Hw.
  destruct pods as [|ps]; [done |]. destruct containers as [|cs]; [done |]. injection Hw as <-.
  constructor; cbn [world runtime downstream_calls downstream_ids].
  - apply Good_start.
  - by intros i ?%elem_of_nil.
  - by intros i ?%elem_of_nil.
  - intros i [[Hi|Hi]%contains_fold|Hi]%contains_fold; [by rewrite ps_contains_new in Hi | |].
    + eexists. split; [by left | exact Hi].
    + eexists. split; [right; by left | exact Hi].
  - intros pre call post i E Hi.
    assert (Hin : call ∈ pre ++ call :: post) by (apply elem_of_app; right; by left).
    rewrite <- E in Hin. rewrite !elem_of_cons in Hin.
    destruct Hin as [->|[->|Hin%elem_of_nil]]; done.
Qed.

Lemma service_ok pods containers es (c0 c : Conf) :
  starts pods containers c0 -> service_runs es c0 c -> Z.of_nat (length es) < 2 ^ 64 ->
  conf_ok Sound in_bound (fun _ _ => True) (returns_good (fun _ => True)) (length es) c.
Proof.
  intros Hc H Hlen. change (length es) with (0 + length es)%nat.
  eapply (exec_ok serve service_happens Sound in_bound (fun _ _ => True)); try exact H; try done.
  - intros n. unfold in_bound. lia.
  - intros n w t t' Hp [HG ? ? ? ?]. constructor; try (intros *; rewrite <- Hp); eauto.
    eapply Good_perm; [|exact HG]. by rewrite Hp.
  - intros n w t [HG ? ? ? ?]. constructor; eauto using Good_tick.
  - intros n h w w' t [HG ? ? ? ?] Hh. unfold service_happens in Hh.
    destruct (happen h (runtime w)) as [r|] eqn:E; simplify_eq/=. constructor; eauto using Good_happen.
  - intros r. eapply wp_mono; [apply serve_swp |]. by intros x own ->.
  - exists []. destruct (sound_start _ _ _ Hc) as [HG ? ? ? ?]. destruct Hc as (w & _ & ->).
    split; [constructor | by constructor].
Qed.

Definition request_in_flight {X} (p : prog Service CriAnswer X) : Prop :=
  match p with Ret _ => False | Step _ _ => True end.

(** C20. Whatever requests arrive and however they interleave, no request is forwarded to the
    downstream runtime with an ID it has no claim to: it has a Vimana prefix, and the
    downstream runtime never named it, at start-up or in a reply before. *)
Theorem pods_never_proxied pods containers es (c0 c : Conf) pre call post i
    (Hstart : starts pods containers c0) (Hrun : service_runs es c0 c)
    (Hlen : Z.of_nat (length es) < 2 ^ 64)
    (Hcalls : downstream_calls (world c) = pre ++ call :: post) (Hi : dc_target call = Some i) :
  unprefixed i \/ issued pre i.
Proof.
  destruct (service_ok _ _ _ _ _ Hstart Hrun Hlen) as (owns & _ & HS). by eapply s_calls.
Qed.


End Invariant.
