(* ===== verification/CriRuns.v ===== *)
(** * Runs of the CRI runtime service

    A service on finite maps and sets, whose downstream runtime lists one pod at start-up, and
    the theorems of [CriSpec] and [CriInvariant] at its runs. *)

From S2P Require Import Prelude Regexp Names NamesSpec Concurrent State StateSpec.
From S2P Require Import StateInvariant StateCalls Cri CriSpec CriInvariant.

#[local] Open Scope Z_scope.
#[local] Existing Instance derivative_crate.
#[local] Existing Instance derivative_laws.

Abbreviation Service := (@ProxyingRuntimeService (gmap Z) (gset str)).
Abbreviation Answers := (CriAnswer (Forwarded := unit)).
Abbreviation Conf := (@Conf Service Answers (outcome Cri.Status (Response (Forwarded := unit)))).
Abbreviation Event := (Concurrent.Event (Answer := Answers) (Call := Request) (Happening := Happening)).

(** The downstream runtime obliges. *)
Definition obliges : Answers :=
  mkCriAnswer yes (inr (lit "oci2")) (inr tt) (inr []) (inr (mkPodSandboxStatusResponse None ∅ [] 0))
    (inr []) (inr (mkContainerStatusResponse None ∅)) (inr tt).

Definition oci_pod : PodSandbox := mkPodSandbox (lit "oci1") None 0 0 ∅ ∅ "runc".

Definition at_startup : Service :=
  mkService WorkRuntime_new {[lit "oci1"]}
    [mkDownstreamCall RpcListPodSandbox None true [lit "oci1"]; mkDownstreamCall RpcListContainers None true []].
Definition startup : Conf := mkConf at_startup [].

Lemma startup_starts : starts (inr [oci_pod]) (inr []) startup.
Proof. exists at_startup. split; [|done]. vm_compute. reflexivity. Qed.

Lemma demo_valid : pod_name_valid demo.
Proof. split; [split_and!; [split; [done | apply (bool_decide_unpack _); vm_compute; exact I] | done..] | done]. Qed.

Definition demo_labels : gmap string string :=
  list_to_map [(LABEL_DOMAIN_KEY, "03132333435363738393162636465666"); (LABEL_SERVER_KEY, "server");
               (LABEL_VERSION_KEY, "1.0.0")]%string.

Definition run_demo : Request :=
  RunPodSandbox CONTAINER_RUNTIME_HANDLER (Some (mkPodSandboxConfig None 0 demo_labels ∅)).

Definition requests (thread n : nat) (r : Request) : list Event :=
  Invoke r :: replicate n (Schedule thread obliges).

(** A pod runs, and the downstream runtime is asked to stop its own. *)
Definition serving_demo : list Event :=
  requests 0 3 run_demo
  ++ requests 1 2 (CreateContainer (pod_prefix demo) None)
  ++ requests 2 7 (StartContainer (container_prefix demo))
  ++ requests 3 2 (StopPodSandbox (lit "oci1")).

Lemma service_run_exists (es : list Event) (Q : Conf -> Prop) :
  match Concurrent.exec (serve 15 false) service_happens es startup with Some c => Q c | None => False end ->
  exists c, service_runs 15 false es startup c /\ Q c.
Proof. unfold service_runs. destruct (Concurrent.exec _ _ es startup) as [c|]; [eauto | done]. Qed.

Lemma serving_demo_runs : exists c, service_runs 15 false serving_demo startup c
  /\ threads c !! 0%nat = Some (Ret (Done (ReId (pod_prefix demo))))
  /\ threads c !! 2%nat = Some (Ret (Done ReDone))
  /\ threads c !! 3%nat = Some (Ret (Done ReDone))
  /\ shutdown (runtime (world c)) = false
  /\ serving (runtime (world c)) 2 demo_address
  /\ downstream_calls (world c) =
       downstream_calls at_startup ++ [mkDownstreamCall RpcStopPodSandbox (Some (lit "oci1")) true []].
Proof. apply service_run_exists. vm_compute. done. Qed.

Lemma pods_never_proxied_witness : unprefixed (lit "oci1") \/ issued (downstream_calls at_startup) (lit "oci1").
Proof.
  destruct serving_demo_runs as (c & Hrun & _ & _ & _ & _ & _ & Hcalls).
  exact (pods_never_proxied 15 false _ _ serving_demo startup c _ _ [] (lit "oci1") startup_starts Hrun
    ltac:(vm_compute; reflexivity) Hcalls eq_refl).
Defined.


Lemma request_runs_call_witness :
  run_alone (serve 15 true (StopPodSandbox (pod_prefix demo))) [obliges; obliges] at_startup
  = Some (Failed (Internal (RuntimeError PodNotFound)), at_startup).
Proof.
  rewrite (proj2 (request_runs_call (P := gmap_papaya) (PS := gset_papaya) 15 true demo _ _ _ _ demo_valid
    (asks_stop_pod demo)) obliges [obliges] at_startup ltac:(vm_compute; reflexivity)).
  vm_compute. reflexivity.
Defined.

(** The filter of no condition. *)
Definition everything : PodSandboxFilter := PodSandboxFilter_default.

Lemma pods_listed_witness : exists selected : list (Z * Pod),
  run_alone (serve 15 true (ListPodSandbox (Some everything))) [obliges; obliges] at_startup
  = Some (Done (RePodSandboxes (map (described cri_pod_sandbox) selected)),
          add_call (mkDownstreamCall RpcListPodSandbox None true []) at_startup).
Proof.
  destruct (pods_listed (P := gmap_papaya) (PS := gset_papaya) 15 true everything obliges obliges [] at_startup []
    eq_refl (or_introl eq_refl)) as (selected & _ & H). exists selected. exact H.
Defined.

Lemma containers_listed_witness : exists selected : list (Z * Pod),
  run_alone (serve 15 true (ListContainers (Some everything))) [obliges; obliges] at_startup
  = Some (Done (ReContainers (map (described cri_container) selected)),
          add_call (mkDownstreamCall RpcListContainers None true []) at_startup).
Proof.
  destruct (containers_listed (P := gmap_papaya) (PS := gset_papaya) 15 true everything obliges obliges [] at_startup []
    eq_refl (or_introl eq_refl)) as (selected & _ & H). exists selected. exact H.
Defined.

Lemma statuses_answered_witness :
  run_alone (serve 15 true (ContainerStatus_ (container_prefix demo))) [obliges; obliges] at_startup
  = Some (Failed (NotFound (PodName_display demo)), at_startup).
Proof.
  exact (proj2 (statuses_answered (P := gmap_papaya) (PS := gset_papaya) 15 true demo obliges obliges obliges []
    at_startup demo_valid ltac:(vm_compute; reflexivity) ltac:(vm_compute; reflexivity))).
Defined.

Lemma ids_loosely_checked_witness :
  parse_pod_prefixed_name false (container_prefix demo) = Done demo
  /\ fst <$> run_alone (serve 15 false (ListPodSandbox (Some (mkPodSandboxFilter (lit "p") None ∅))))
       [obliges; obliges] at_startup = Some (Crash Panicked).
Proof.
  destruct (ids_loosely_checked (P := gmap_papaya) (PS := gset_papaya) 15 false demo demo
    (mkPodSandboxFilter (lit "p") None ∅) obliges obliges [] at_startup [] [] eq_refl demo_valid eq_refl eq_refl
    ltac:(done)) as (_ & Hp & Hl & _).
  split; [exact (proj1 (Hp eq_refl)) | exact (proj2 Hl eq_refl)].
Defined.
