(* ===== verification/Containers.v ===== *)
(** * The container store

    Models [src/runtime/containers.rs]: fetching an image from a registry, writing it below
    the store's root, reading it back, removing it, and the counters of bytes and inodes that
    Kubelet is told.  Operations are programs of atomic steps on the disk ([Files]), the
    counters and their mutex.  The network and I/O faults are the environment's choice; the
    formats of wasmtime, prost and JSON are parameters ([ContainerCodec]).

    The component and the metadata of an image are requested in parallel; the model asks for
    the component first, which only the network could tell. *)

From S2P Require Import Prelude Regexp Names Concurrent Files State.

#[local] Open Scope Z_scope.

(** ** Formats of other crates *)
Class ContainerCodec (Component Metadata : Type) := {
  compile : list byte -> option Component;                 (** [Component::new] *)
  serialize : Component -> option (list byte);             (** [Component::serialize] *)
  (** [unsafe { Component::deserialize }]: anything but serialized bytes may do anything. *)
  deserialize : list byte -> outcome unit Component;
  encode_metadata : Metadata -> list byte;
  decode_metadata : list byte -> option Metadata;
  encode_image_spec : ImageSpec -> list byte;
  decode_image_spec : list byte -> option ImageSpec;
  decode_manifest : list byte -> option (list str);        (** the digests of the layers *)
}.

Class ContainerCodecLaws (Component Metadata : Type) {C : ContainerCodec Component Metadata} : Prop := {
  deserialize_serialize c bs : serialize c = Some bs -> deserialize bs = Done c;
  decode_encode_metadata m : decode_metadata (encode_metadata m) = Some m;
  decode_encode_image_spec i : decode_image_spec (encode_image_spec i) = Some i;
}.

(** ** Errors *)
Inductive IoContext :=
| CreatingImageDirectory | CreatingContainerFile | CreatingImageSpecFile
| WritingLength | WritingComponent | WritingMetadata | WritingImageSpec
| SyncingContainerFile | SyncingImageSpecFile
| OpeningContainerFile | ReadingLength | ReadingComponent | ReadingMetadata
| GettingContainerMetadata | OpeningImageSpecFile | ReadingImageSpec
| RemovingContainerFile | GettingImageSpecMetadata | RemovingImageSpecFile.

Inductive BlobError := BlobRequest | BlobStatus (code : Z) | BlobBody.

Inductive StoreError :=
| ManifestRequest
| ManifestStatus (code : Z)
| ManifestBody
| LayerCount (n : nat)
| FetchingComponent (e : BlobError)
| CompilingComponent
| FetchingMetadata (e : BlobError)
| DecodingFetchedMetadata
| SerializingComponent
| LockPoisoned
| JoinFailed
| IoFailed (context : IoContext) (kind : ErrorKind)
| DeserializingComponent
| DecodingMetadata
| DecodingImageSpec.

(** [FilesystemUsage] *)
Record FilesystemUsage := mkUsage { bytes : Z; inodes : Z }.

(** A [std::sync::Mutex]; a panic while it is held poisons it. *)
Inductive MutexState := Unlocked | Locked | Poisoned.
#[export] Instance MutexState_eq_dec : EqDecision MutexState.
Proof. solve_decision. Defined.

Inductive HttpResponse :=
| SendFailed
| Responded (status : Z) (body : option (list byte)).

Definition CONTAINER_FILENAME : str := lit "container".
Definition IMAGE_SPEC_FILENAME : str := lit "image-spec.binpb".
Definition HTTP_OK : Z := 200.
Definition ISIZE_MAX : Z := 2 ^ 63 - 1.

Section Store.
Context {Component Metadata : Type} {C : ContainerCodec Component Metadata}.
(** Registries to use HTTP with, and whether the build checks for overflow. *)
Context (insecure_registries : list str) (overflow_checks : bool).

Record Container := mkContainer { component : Component; metadata : Metadata }.

Record ContainerStore := mkStore {
  disk : Disk;
  filesystem_usage : FilesystemUsage;
  mutex : MutexState;
}.

(** What the environment decides in a step: whether an I/O operation fails, and after how
    much of its work; the size of a directory; what the network answers. *)
Record StoreAnswer := mkStoreAnswer {
  fault : option ErrorKind;
  fault_after : nat;
  dir_size : Z;
  http : str -> HttpResponse;
}.

Abbreviation sop := (prog ContainerStore StoreAnswer).
Abbreviation Result := (outcome StoreError) (only parsing).

Definition set_disk (d : Disk) (w : ContainerStore) : ContainerStore :=
  mkStore d (filesystem_usage w) (mutex w).
Definition set_usage (u : FilesystemUsage) (w : ContainerStore) : ContainerStore :=
  mkStore (disk w) u (mutex w).
Definition set_mutex (m : MutexState) (w : ContainerStore) : ContainerStore :=
  mkStore (disk w) (filesystem_usage w) m.

(** [ContainerStore::new], on the disk it finds. *)
Definition ContainerStore_new (d : Disk) : ContainerStore := mkStore d (mkUsage 0 0) Unlocked.

(** An I/O operation, with what it has done when it fails by the environment's choice. *)
Definition io {A} (context : IoContext) (partial : nat -> Disk -> Disk)
    (f : StoreAnswer -> Disk -> IoResult A) : sop (Result A) :=
  atomic (fun a w =>
    match fault a with
    | Some kind => Some (Failed (IoFailed context kind), set_disk (partial (fault_after a) (disk w)) w)
    | None => let (r, d) := f a (disk w) in Some (map_err (IoFailed context) r, set_disk d w)
    end).

Definition unharmed (_ : nat) (d : Disk) : Disk := d.

Definition create_directories (p : path) : sop (Result unit) :=
  io CreatingImageDirectory (fun n d => snd (make_dirs (take n (rev (ancestors p))) d))
    (fun _ => create_dir_all p).
Definition create_file (context : IoContext) (p : path) : sop (Result Handle) :=
  io context unharmed (fun _ => file_create p).
Definition write_all (context : IoContext) (h : Handle) (bs : list byte) : sop (Result unit) :=
  io context (fun n => append h (take n bs)) (fun _ d => (Done tt, append h bs d)).
Definition sync_all (context : IoContext) : sop (Result unit) :=
  io context unharmed (fun _ d => (Done tt, d)).
Definition open_file (context : IoContext) (p : path) : sop (Result Handle) :=
  io context unharmed (fun _ => file_open p).
Definition exists_ (p : path) : sop bool := atomic (fun _ w => Some (path_exists p (disk w), w)).

(** ** The counters *)
(** [a + b] and [a - b] on [u64]. *)
Definition u64_add (a b : Z) : Result Z :=
  if a + b <? 2 ^ 64 then Done (a + b) else if overflow_checks then Crash Panicked else Done (as_u 64 (a + b)).
Definition u64_sub (a b : Z) : Result Z :=
  if b <=? a then Done (a - b) else if overflow_checks then Crash Panicked else Done (as_u 64 (a - b)).

Definition count (f : FilesystemUsage -> Result FilesystemUsage) : sop (Result unit) :=
  atomic (fun _ w =>
    match f (filesystem_usage w) with
    | Done u => Some (Done tt, set_usage u w)
    | Failed e => Some (Failed e, w)
    | Crash c => Some (Crash c, w)
    end).
Definition add_bytes (n : Z) := count (fun u => let? b := u64_add (bytes u) n in Done (mkUsage b (inodes u))).
Definition add_inodes (n : Z) := count (fun u => let? i := u64_add (inodes u) n in Done (mkUsage (bytes u) i)).
Definition sub_bytes (n : Z) := count (fun u => let? b := u64_sub (bytes u) n in Done (mkUsage b (inodes u))).
Definition sub_inodes (n : Z) := count (fun u => let? i := u64_sub (inodes u) n in Done (mkUsage (bytes u) i)).

(** ** The mutex *)
Definition lock : sop (Result unit) :=
  atomic (fun _ w =>
    match mutex w with
    | Unlocked => Some (Done tt, set_mutex Locked w)
    | Locked => None
    | Poisoned => Some (Failed LockPoisoned, w)
    end).
Definition unlock (m : MutexState) : sop unit := atomic (fun _ w => Some (tt, set_mutex m w)).

Definition is_crash {A} (r : Result A) : bool := match r with Crash _ => true | _ => false end.

(** The guard is dropped when the closure returns, or unwinds. *)
Definition with_lock {A} (body : sop (Result A)) : sop (Result A) :=
  (ok! _ <- lock;
   do! r <- body;
   do! _ <- unlock (if is_crash r then Poisoned else Unlocked);
   Ret r)%prog.

(** [spawn_blocking(closure).await]: a panic becomes a [JoinError]. *)
Definition spawn_blocking {A} (closure : sop (Result A)) : sop (Result A) :=
  (do! r <- closure; Ret (match r with Crash Panicked => Failed JoinFailed | r => r end))%prog.

(** ** Paths *)
(** Below the root; the parts of a valid name contain no separator. *)
Definition component_path (name : ComponentName) : path :=
  [DomainUuid_display (s_domain (c_server name)); s_server (c_server name); c_version name].
Definition container_path (name : ComponentName) : path := component_path name ++ [CONTAINER_FILENAME].
Definition image_spec_path (name : ComponentName) : path := component_path name ++ [IMAGE_SPEC_FILENAME].

(** ** The container client *)
Definition http_get (url : str) : sop HttpResponse := atomic (fun a w => Some (http a url, w)).

Definition fetch_blob (url : str) : sop (outcome BlobError (list byte)) :=
  (do! response <- http_get url;
   Ret (match response with
        | SendFailed => Failed BlobRequest
        | Responded status body =>
            if status =? HTTP_OK then ok_or body BlobBody else Failed (BlobStatus status)
        end))%prog.

Definition fetch_component (url : str) : sop (Result Component) :=
  (do! blob <- fetch_blob url;
   Ret (let? blob := map_err FetchingComponent blob in ok_or (compile blob) CompilingComponent))%prog.

Definition fetch_metadata (url : str) : sop (Result Metadata) :=
  (do! blob <- fetch_blob url;
   Ret (let? blob := map_err FetchingMetadata blob in ok_or (decode_metadata blob) DecodingFetchedMetadata))%prog.

Definition server_url (registry : str) (name : ComponentName) : str :=
  (if bool_decide (registry ∈ insecure_registries) then lit "http" else lit "https") ++ lit "://" ++ registry
  ++ lit "/v2/" ++ DomainUuid_display (s_domain (c_server name)) ++ lit "/" ++ s_server (c_server name).
Definition manifest_url (registry : str) (name : ComponentName) : str :=
  server_url registry name ++ lit "/manifests/" ++ c_version name.
Definition blob_url (registry : str) (name : ComponentName) (digest : str) : str :=
  server_url registry name ++ lit "/blobs/" ++ digest.

Definition fetch (registry : str) (name : ComponentName) : sop (Result Container) :=
  (do! response <- http_get (manifest_url registry name);
   match response with
   | SendFailed => Ret (Failed ManifestRequest)
   | Responded status body =>
       if status =? HTTP_OK then
         match body ≫= decode_manifest with
         | None => Ret (Failed ManifestBody)
         | Some [digest0; digest1] =>
             do! component <- fetch_component (blob_url registry name digest0);
             do! metadata_result <- fetch_metadata (blob_url registry name digest1);
             Ret (let? component := component in
                  let? metadata := metadata_result in
                  Done (mkContainer component metadata))
         | Some layers => Ret (Failed (LayerCount (length layers)))
         end
       else Ret (Failed (ManifestStatus status))
   end)%prog.

(** ** [pull] *)
(** How many directories and files will be new. *)
Definition new_inodes (name : ComponentName) : sop (Z * Z * Z) :=
  (let component_path := component_path name in
   do! there <- exists_ component_path;
   if there then
     do! container <- exists_ (container_path name);
     do! image_spec <- exists_ (image_spec_path name);
     Ret (0, if container then 0 else 1, if image_spec then 0 else 1)
   else
     let server_path := parent component_path in
     do! there <- exists_ server_path;
     if there then Ret (1, 1, 1)
     else
       let domain_path := parent server_path in
       do! there <- exists_ domain_path;
       Ret (if there then (2, 1, 1) else (3, 1, 1)))%prog.

Definition pull_locked (name : ComponentName) (component metadata image_spec : list byte) : sop (Result unit) :=
  (do! (dir_inodes, container_inode, image_spec_inode) <- new_inodes name;
   ok! _ <- create_directories (component_path name);
   ok! _ <- add_inodes dir_inodes;
   ok! container_file <- create_file CreatingContainerFile (container_path name);
   ok! _ <- add_inodes container_inode;
   ok! image_spec_file <- create_file CreatingImageSpecFile (image_spec_path name);
   ok! _ <- add_inodes image_spec_inode;
   let module_length := Z.of_nat (length component) in
   ok! _ <- write_all WritingLength container_file (to_le 8 module_length);
   ok! _ <- add_bytes 8;
   ok! _ <- write_all WritingComponent container_file component;
   ok! _ <- add_bytes module_length;
   ok! _ <- write_all WritingMetadata container_file metadata;
   ok! _ <- add_bytes (Z.of_nat (length metadata));
   ok! _ <- write_all WritingImageSpec image_spec_file image_spec;
   ok! _ <- add_bytes (Z.of_nat (length image_spec));
   ok! _ <- sync_all SyncingContainerFile;
   sync_all SyncingImageSpecFile)%prog.

Definition pull (registry : str) (name : ComponentName) (image_spec : ImageSpec) : sop (Result unit) :=
  (ok! container <- fetch registry name;
   ok! serialized_component <- Ret (ok_or (serialize (component container)) SerializingComponent);
   spawn_blocking (with_lock (pull_locked name serialized_component
     (encode_metadata (metadata container)) (encode_image_spec image_spec))))%prog.

(** ** [get] *)
Definition read (context : IoContext) (f : Disk -> IoResult (list byte)) : sop (Result (list byte)) :=
  io context unharmed (fun _ => f).

Definition read_container (name : ComponentName) : sop (Result (list byte * list byte)) :=
  (ok! container_file <- open_file OpeningContainerFile (container_path name);
   ok! component_size_bytes <- read ReadingLength (read_exact container_file 0 8);
   let component_size := of_le component_size_bytes in
   if ISIZE_MAX <? component_size then Ret (Crash Panicked)
   else
     ok! serialized_component <- read ReadingComponent (read_exact container_file 8 (Z.to_nat component_size));
     ok! serialized_metadata <- read ReadingMetadata (read_to_end container_file (8 + Z.to_nat component_size));
     Ret (Done (serialized_component, serialized_metadata)))%prog.

Definition get (name : ComponentName) : sop (Result Container) :=
  (ok! (serialized_component, serialized_metadata) <- spawn_blocking (read_container name);
   Ret (let? component := map_err (fun _ => DeserializingComponent) (deserialize serialized_component) in
        let? metadata := ok_or (decode_metadata serialized_metadata) DecodingMetadata in
        Done (mkContainer component metadata)))%prog.

(** ** [get_image] *)
(** The fields of [v1::Image] that are set. *)
Record Image := mkImage { image_id : str; image_size : Z; spec : option ImageSpec }.

Definition get_image (name : ComponentName) : sop (Result Image) :=
  (ok! (container_size, serialized_image_spec) <- spawn_blocking (
     ok! container_size <- io GettingContainerMetadata unharmed (fun a => file_len (dir_size a) (container_path name));
     ok! image_spec_file <- open_file OpeningImageSpecFile (image_spec_path name);
     ok! serialized_image_spec <- read ReadingImageSpec (read_to_end image_spec_file 0);
     Ret (Done (container_size, serialized_image_spec)));
   Ret (let? image_spec := ok_or (decode_image_spec serialized_image_spec) DecodingImageSpec in
        Done (mkImage (ComponentName_display name) container_size (Some image_spec))))%prog.

(** ** [remove] *)
(** [sync_remove_dir(directory).is_ok()] *)
Definition try_remove_dir (p : path) : sop bool :=
  atomic (fun a w =>
    match fault a with
    | Some _ => Some (false, w)
    | None => match remove_dir p (disk w) with
              | (Done _, d) => Some (true, set_disk d w)
              | (_, d) => Some (false, set_disk d w)
              end
    end).

Fixpoint remove_directories (directories : list path) : sop (Result unit) :=
  match directories with
  | [] => Ret (Done tt)
  | directory :: rest =>
      (do! removed <- try_remove_dir directory;
       if removed then ok! _ <- sub_inodes 1; remove_directories rest else Ret (Done tt))%prog
  end.

Definition remove_locked (name : ComponentName) : sop (Result unit) :=
  (ok! container_len <- io GettingContainerMetadata unharmed (fun a => file_len (dir_size a) (container_path name));
   ok! _ <- io RemovingContainerFile unharmed (fun _ => remove_file (container_path name));
   ok! _ <- sub_bytes container_len;
   ok! _ <- sub_inodes 1;
   ok! image_spec_len <- io GettingImageSpecMetadata unharmed (fun a => file_len (dir_size a) (image_spec_path name));
   ok! _ <- io RemovingImageSpecFile unharmed (fun _ => remove_file (image_spec_path name));
   ok! _ <- sub_bytes image_spec_len;
   ok! _ <- sub_inodes 1;
   remove_directories (take 3 (ancestors (component_path name))))%prog.

Definition remove (name : ComponentName) : sop (Result unit) := spawn_blocking (with_lock (remove_locked name)).

(** ** [filesystem_usage] *)
Definition get_filesystem_usage : sop (Result FilesystemUsage) :=
  spawn_blocking (with_lock (atomic (fun _ w => Some (Done (filesystem_usage w), w)))).

(** ** The operations together *)
Inductive StoreCall :=
| PullImage (registry : str) (name : ComponentName) (image_spec : ImageSpec)
| GetContainer (name : ComponentName)
| GetImage (name : ComponentName)
| RemoveImage (name : ComponentName)
| GetUsage.

Inductive StoreReply :=
| Pulled (r : Result unit)
| GotContainer (r : Result Container)
| GotImage (r : Result Image)
| RemovedImage (r : Result unit)
| GotUsage (r : Result FilesystemUsage).

Definition store_program (call : StoreCall) : sop StoreReply :=
  match call with
  | PullImage registry name image_spec => do! r <- pull registry name image_spec; Ret (Pulled r)
  | GetContainer name => do! r <- get name; Ret (GotContainer r)
  | GetImage name => do! r <- get_image name; Ret (GotImage r)
  | RemoveImage name => do! r <- remove name; Ret (RemovedImage r)
  | GetUsage => do! r <- get_filesystem_usage; Ret (GotUsage r)
  end%prog.

End Store.
