(* ===== verification/ContainersSpec.v ===== *)
(** * What the container store guarantees

    - An image that was pulled can be read back; removing it restores the disk exactly.
    - The counters are the sizes of what is stored, except for what a second pull of an image
      overwrites and what was stored before the daemon started.
    - Whatever fails and however operations interleave, they touch only their own image. *)

From S2P Require Import Prelude Regexp Names NamesSpec Concurrent Files FilesSpec State Containers.

#[local] Open Scope Z_scope.
#[local] Arguments DomainUuid_display : simpl never.
#[local] Arguments component_path : simpl never.
#[local] Arguments container_path : simpl never.
#[local] Arguments image_spec_path : simpl never.

(** Projections of explicit records. *)
Ltac fields := cbn [tree unlinked next_inode bytes inodes h_path h_inode disk filesystem_usage mutex].

Section Spec.
Context {Component Metadata : Type} {C : ContainerCodec Component Metadata}.
Context {CL : ContainerCodecLaws Component Metadata}.
Context (insecure_registries : list str) (overflow_checks : bool).

Abbreviation sop := (prog ContainerStore StoreAnswer).
Abbreviation Container := (@Container Component Metadata).
Abbreviation pull := (pull (C := C) insecure_registries overflow_checks).
Abbreviation remove := (remove overflow_checks).

(** ** Running without faults *)
(** The network answers, and no I/O operation fails. *)
Definition calm (network : str -> HttpResponse) : StoreAnswer := mkStoreAnswer None 0 0 network.
Context (network : str -> HttpResponse).
Abbreviation run p w := (run_with (calm network) p w).

Lemma run_then {A B} (p : sop (outcome StoreError A)) (k : A -> sop (outcome StoreError B)) w :
  run (and_then p k) w =
    match run p w with
    | Some (Done a, w') => run (k a) w'
    | Some (Failed e, w') => Some (Failed e, w')
    | Some (Crash c, w') => Some (Crash c, w')
    | None => None
    end.
Proof.
  unfold and_then. rewrite run_with_pbind. by destruct (run p w) as [[[]]|].
Qed.

Lemma run_io {A} context partial (f : StoreAnswer -> Disk -> IoResult A) d u m :
  run (io context partial f) (mkStore d u m) =
    Some (map_err (IoFailed context) (fst (f (calm network) d)), mkStore (snd (f (calm network) d)) u m).
Proof. unfold io. simpl. by destruct (f _ d). Qed.

Lemma run_add_bytes n d u m : bytes u + n < 2 ^ 64 ->
  run (add_bytes overflow_checks n) (mkStore d u m) = Some (Done tt, mkStore d (mkUsage (bytes u + n) (inodes u)) m).
Proof. intros H. unfold add_bytes, count, u64_add. simpl. by rewrite (proj2 (Z.ltb_lt _ _) H). Qed.

Lemma run_add_inodes n d u m : inodes u + n < 2 ^ 64 ->
  run (add_inodes overflow_checks n) (mkStore d u m) = Some (Done tt, mkStore d (mkUsage (bytes u) (inodes u + n)) m).
Proof. intros H. unfold add_inodes, count, u64_add. simpl. by rewrite (proj2 (Z.ltb_lt _ _) H). Qed.

Lemma run_sub_bytes n d u m : n <= bytes u ->
  run (sub_bytes overflow_checks n) (mkStore d u m) = Some (Done tt, mkStore d (mkUsage (bytes u - n) (inodes u)) m).
Proof. intros H. unfold sub_bytes, count, u64_sub. simpl. by rewrite (proj2 (Z.leb_le _ _) H). Qed.

Lemma run_sub_inodes n d u m : n <= inodes u ->
  run (sub_inodes overflow_checks n) (mkStore d u m) = Some (Done tt, mkStore d (mkUsage (bytes u) (inodes u - n)) m).
Proof. intros H. unfold sub_inodes, count, u64_sub. simpl. by rewrite (proj2 (Z.leb_le _ _) H). Qed.

(** ** Fetching *)
Definition blob (url : str) : outcome BlobError (list byte) :=
  match network url with
  | SendFailed => Failed BlobRequest
  | Responded status body => if status =? HTTP_OK then ok_or body BlobBody else Failed (BlobStatus status)
  end.

(** What the registry serves under a name: the manifest's two layers, the component compiled
    and the metadata decoded; the component's error comes first. *)
Definition served (registry : str) (name : ComponentName) : outcome StoreError Container :=
  match network (manifest_url insecure_registries registry name) with
  | SendFailed => Failed ManifestRequest
  | Responded status body =>
      if status =? HTTP_OK then
        match body ≫= decode_manifest with
        | None => Failed ManifestBody
        | Some [digest0; digest1] =>
            let? b := map_err FetchingComponent (blob (blob_url insecure_registries registry name digest0)) in
            let? component := ok_or (compile b) CompilingComponent in
            let? b := map_err FetchingMetadata (blob (blob_url insecure_registries registry name digest1)) in
            let? metadata := ok_or (decode_metadata b) DecodingFetchedMetadata in
            Done (mkContainer component metadata)
        | Some layers => Failed (LayerCount (length layers))
        end
      else Failed (ManifestStatus status)
  end.

Lemma run_fetch registry name w :
  run (fetch insecure_registries registry name) w = Some (served registry name, w).
Proof.
  unfold fetch, served. rewrite run_with_pbind. simpl.
  destruct (network (manifest_url _ _ _)) as [|status body]; [done |].
  destruct (status =? HTTP_OK); [|done]. destruct (body ≫= decode_manifest) as [layers|]; [|done].
  destruct layers as [|d0 [|d1 [|]]]; try done.
  unfold fetch_component, fetch_metadata, fetch_blob.
  simpl. f_equal. f_equal. unfold blob.
  destruct (match network (blob_url insecure_registries registry name d0) with
            | SendFailed => _ | Responded _ _ => _ end); simpl; [|done..].
  destruct (ok_or (compile _) CompilingComponent); simpl; [|done..].
  destruct (match network (blob_url insecure_registries registry name d1) with
            | SendFailed => _ | Responded _ _ => _ end); simpl; [|done..].
  by destruct (ok_or (decode_metadata _) _).
Qed.

(** ** The tree of an image *)
Definition file_names : list str := [CONTAINER_FILENAME; IMAGE_SPEC_FILENAME].
Abbreviation sound := (sound_but file_names []).

Definition dirs (name : ComponentName) : list path := rev (ancestors (component_path name)).

Lemma dirs_eq name : dirs name =
  [[DomainUuid_display (s_domain (c_server name))];
   [DomainUuid_display (s_domain (c_server name)); s_server (c_server name)];
   component_path name].
Proof. done. Qed.

Lemma container_parent name : parent (container_path name) = component_path name.
Proof. apply parent_snoc. Qed.
Lemma image_spec_parent name : parent (image_spec_path name) = component_path name.
Proof. apply parent_snoc. Qed.
Lemma paths_differ name : container_path name <> image_spec_path name.
Proof. intros H%app_inj_tail. by destruct H. Qed.

(** Two components never share a directory.  (A domain is sixteen bytes.) *)
Lemma component_path_inj a b :
  domain_wf (s_domain (c_server a)) -> domain_wf (s_domain (c_server b)) -> component_path a = component_path b -> a = b.
Proof.
  intros Ha Hb [Ed [Es [Ev _]%(inj2 cons)]%(inj2 cons)]%(inj2 cons).
  assert (Hd : s_domain (c_server a) = s_domain (c_server b)).
  { pose proof (proj2 (domain_parses _ _) (conj Ha eq_refl)) as Hpa.
    pose proof (proj2 (domain_parses _ _) (conj Hb eq_refl)) as Hpb. rewrite Ed in Hpa. congruence. }
  destruct a as [[da sa] va], b as [[db sb] vb]. simpl in *. congruence.
Qed.

Lemma file_not_dir m p : sound m -> length p = 4%nat -> m !! p <> Some Dir.
Proof. intros Hm Hl H. apply (s_dir _ _ _ Hm) in H. lia. Qed.

Lemma sound_all_dirs m name : sound m -> all_dirs (dirs name) m.
Proof.
  intros Hm p Hp. destruct (m !! p) as [[|i c]|] eqn:E; [by right | | by left].
  apply (s_file _ _ _ Hm) in E as [E _]. rewrite dirs_eq in Hp. rewrite !elem_of_cons in Hp.
  destruct Hp as [->|[->|[->|Hp%elem_of_nil]]]; done.
Qed.

Definition missing (m : gmap (list str) Node) (p : list str) : Z := match m !! p with None => 1 | Some _ => 0 end.
Definition missing_dirs (m : gmap (list str) Node) (name : ComponentName) : Z :=
  fold_left (fun n p => n + missing m p) (dirs name) 0.
#[local] Arguments missing_dirs : simpl never.

Lemma run_new_inodes name d u mx : sound (tree d) ->
  run (new_inodes name) (mkStore d u mx) =
    Some ((missing_dirs (tree d) name, missing (tree d) (container_path name), missing (tree d) (image_spec_path name)),
          mkStore d u mx).
Proof.
  intros Hm. unfold missing_dirs. rewrite dirs_eq. cbn [fold_left].
  set (a := [DomainUuid_display (s_domain (c_server name))]).
  set (b := [DomainUuid_display (s_domain (c_server name)); s_server (c_server name)]).
  assert (Hup : forall p n, tree d !! p = Some n -> parent p <> [] -> tree d !! parent p <> None).
  { intros p n Hp Hne. destruct (s_parent _ _ _ Hm _ _ Hp) as [H|H]; congruence. }
  assert (Hb : parent (component_path name) = b) by done. assert (Ha : parent b = a) by done.
  unfold new_inodes. simpl. change (parent [_; _; _]) with b. unfold missing.
  destruct (tree d !! component_path name) as [n|] eqn:Ev.
  - apply Hup in Ev as Eb; [|done]. rewrite Hb in Eb. destruct (tree d !! b) as [nb|] eqn:Eb'; [|done].
    apply Hup in Eb' as Ea; [|done]. rewrite Ha in Ea. destruct (tree d !! a) as [na|]; [|done].
    rewrite bool_decide_eq_true_2 by eauto. simpl.
    destruct (tree d !! container_path name), (tree d !! image_spec_path name); reflexivity.
  - assert (Hc : tree d !! container_path name = None).
    { destruct (tree d !! container_path name) eqn:E; [|done]. apply Hup in E; [|done]. by rewrite container_parent in E. }
    assert (Hi : tree d !! image_spec_path name = None).
    { destruct (tree d !! image_spec_path name) eqn:E; [|done]. apply Hup in E; [|done]. by rewrite image_spec_parent in E. }
    rewrite Hc, Hi. rewrite bool_decide_eq_false_2 by (intros [? ?]; congruence). simpl.
    destruct (tree d !! b) as [nb|] eqn:Eb'.
    + apply Hup in Eb' as Ea; [|done]. rewrite Ha in Ea. destruct (tree d !! a) as [na|]; [|done].
      rewrite bool_decide_eq_true_2 by eauto. reflexivity.
    + rewrite bool_decide_eq_false_2 by (intros [? ?]; congruence). simpl.
      change (parent (parent (component_path name))) with a.
      destruct (tree d !! a) as [na|]; [rewrite bool_decide_eq_true_2 by eauto
        | rewrite bool_decide_eq_false_2 by (intros [? ?]; congruence)]; reflexivity.
Qed.

(** ** Pulling *)
Lemma run_create_directories p d u mx : all_dirs (rev (ancestors p)) (tree d) ->
  run (create_directories p) (mkStore d u mx) =
    Some (Done tt, mkStore (mkDisk (fold_left add_dir (rev (ancestors p)) (tree d)) (unlinked d) (next_inode d)) u mx).
Proof. intros H. unfold create_directories. rewrite run_io. unfold create_dir_all. by rewrite make_dirs_done. Qed.

Lemma run_create_file context p d u mx : tree d !! p <> Some Dir -> tree d !! parent p = Some Dir ->
  exists i next, run (create_file context p) (mkStore d u mx) =
    Some (Done (mkHandle p i), mkStore (mkDisk (<[p := File i []]> (tree d)) (unlinked d) next) u mx).
Proof.
  intros Hp Hd. unfold create_file. rewrite run_io. unfold file_create.
  destruct (tree d !! p) as [[|i c]|] eqn:E; [done | by exists i, (next_inode d) |].
  replace (is_dir (parent p) d) with true; [by exists (next_inode d), (S (next_inode d)) |].
  unfold is_dir. destruct (parent p) eqn:Ep; [done | by rewrite Hd].
Qed.

Lemma run_write_all context h bs d u mx c : tree d !! h_path h = Some (File (h_inode h) c) ->
  run (write_all context h bs) (mkStore d u mx) =
    Some (Done tt, mkStore (mkDisk (<[h_path h := File (h_inode h) (c ++ bs)]> (tree d)) (unlinked d) (next_inode d)) u mx).
Proof. intros H. unfold write_all. rewrite run_io. unfold append. by rewrite H, decide_True. Qed.

(** The two files of an image on top of a tree. *)
Definition with_files (name : ComponentName) (i : nat) (c : list byte) (j : nat) (s : list byte)
    (m : gmap (list str) Node) : gmap (list str) Node :=
  <[image_spec_path name := File j s]> (<[container_path name := File i c]> m).

Lemma with_files_container name i c j s m : with_files name i c j s m !! container_path name = Some (File i c).
Proof. unfold with_files. rewrite lookup_insert_ne by (symmetry; apply paths_differ). apply lookup_insert_eq. Qed.
Lemma with_files_spec name i c j s m : with_files name i c j s m !! image_spec_path name = Some (File j s).
Proof. apply lookup_insert_eq. Qed.
Lemma with_files_other name i c j s m p : p <> container_path name -> p <> image_spec_path name ->
  with_files name i c j s m !! p = m !! p.
Proof. intros. unfold with_files. by rewrite !lookup_insert_ne. Qed.

Lemma insert_container name i c j s m i' c' :
  <[container_path name := File i' c']> (with_files name i c j s m) = with_files name i' c' j s m.
Proof. unfold with_files. rewrite insert_insert_ne by apply paths_differ. by rewrite insert_insert_eq. Qed.
Lemma insert_spec name i c j s m j' s' :
  <[image_spec_path name := File j' s']> (with_files name i c j s m) = with_files name i c j' s' m.
Proof. unfold with_files. by rewrite insert_insert_eq. Qed.

Definition container_bytes (component metadata : list byte) : list byte :=
  to_le 8 (Z.of_nat (length component)) ++ component ++ metadata.

Definition len (bs : list byte) : Z := Z.of_nat (length bs).

Lemma add_dirs_lookup ps m p :
  fold_left add_dir ps m !! p =
    match m !! p with Some n => Some n | None => if decide (p ∈ ps) then Some Dir else None end.
Proof.
  revert m. induction ps as [|q ps IH]; intros m; cbn [fold_left].
  - simpl. by destruct (m !! p).
  - rewrite IH, add_dir_lookup. destruct (m !! p); [done |].
    destruct (decide (p = q)) as [->|Hne]; [rewrite decide_True by (by left); done |].
    apply decide_ext. rewrite elem_of_cons. naive_solver.
Qed.

Lemma in_dirs_length name p : p ∈ dirs name -> (1 <= length p <= 3)%nat.
Proof.
  rewrite dirs_eq, !elem_of_cons. intros [->|[->|[->|H%elem_of_nil]]]; simpl; lia.
Qed.

Lemma missing_dirs_bound m name : 0 <= missing_dirs m name <= 3.
Proof. unfold missing_dirs. rewrite dirs_eq. unfold missing. simpl. repeat case_match; lia. Qed.
Lemma missing_bound m p : 0 <= missing m p <= 1.
Proof. unfold missing. destruct (m !! p); lia. Qed.

Lemma run_pull_locked name component metadata image_spec d u mx :
  sound (tree d) ->
  bytes u + 8 + len component + len metadata + len image_spec < 2 ^ 64 -> inodes u + 5 < 2 ^ 64 ->
  exists i j next, run (pull_locked overflow_checks name component metadata image_spec) (mkStore d u mx) =
    Some (Done tt, mkStore
      (mkDisk (with_files name i (container_bytes component metadata) j image_spec
                 (fold_left add_dir (dirs name) (tree d))) (unlinked d) next)
      (mkUsage (bytes u + 8 + len component + len metadata + len image_spec)
         (inodes u + missing_dirs (tree d) name + missing (tree d) (container_path name)
            + missing (tree d) (image_spec_path name))) mx).
Proof.
  unfold len. intros Hm Hb Hi. pose proof (missing_dirs_bound (tree d) name).
  pose proof (missing_bound (tree d) (container_path name)). pose proof (missing_bound (tree d) (image_spec_path name)).
  set (T := fold_left add_dir (dirs name) (tree d)).
  assert (HT : forall f, T !! (component_path name ++ [f]) <> Some Dir).
  { intros f. unfold T. rewrite add_dirs_lookup. pose proof (file_not_dir _ (component_path name ++ [f]) Hm eq_refl).
    destruct (tree d !! _); [congruence |]. rewrite decide_False; [done |]. intros Hd%in_dirs_length.
    rewrite length_app in Hd. simpl in Hd. lia. }
  assert (Hv : T !! component_path name = Some Dir).
  { unfold T. rewrite add_dirs_lookup. rewrite decide_True by (rewrite dirs_eq, !elem_of_cons; tauto).
    destruct (tree d !! component_path name) as [n|] eqn:E; [|done].
    destruct (sound_all_dirs _ name Hm (component_path name)) as [H'|H']; [rewrite dirs_eq, !elem_of_cons; tauto | |]; congruence. }
  unfold pull_locked. rewrite run_with_pbind, run_new_inodes by done. cbn -[run_with and_then].
  rewrite run_then, run_create_directories by (by apply sound_all_dirs). fold T.
  rewrite run_then, run_add_inodes by lia.
  rewrite run_then. edestruct (run_create_file CreatingContainerFile (container_path name)
    (mkDisk T (unlinked d) (next_inode d))) as (i & next & ->); [apply HT | by rewrite container_parent |].
  rewrite run_then, run_add_inodes by (simpl; lia). fields.
  rewrite run_then. edestruct (run_create_file CreatingImageSpecFile (image_spec_path name)
    (mkDisk (<[container_path name := File i []]> T) (unlinked d) next)) as (j & next' & ->).
  { simpl. rewrite lookup_insert_ne by apply paths_differ. apply HT. }
  { simpl. rewrite image_spec_parent, lookup_insert_ne; [done |]. by intros E%(f_equal length). }
  rewrite run_then, run_add_inodes by (simpl; lia). fields. fold (with_files name i [] j [] T).
  repeat (rewrite run_then; erewrite run_write_all by (simpl; by rewrite ?insert_container, ?insert_spec, ?with_files_container, ?with_files_spec);
    fields; rewrite ?insert_container, ?insert_spec;
    rewrite run_then, run_add_bytes by (simpl; lia); fields).
  rewrite run_then. unfold sync_all. rewrite !run_io. simpl.
  by exists i, j, next'.
Qed.

(** ** The tree after a pull *)
Definition pulled (name : ComponentName) (i : nat) (c : list byte) (j : nat) (s : list byte)
    (m : gmap (list str) Node) : gmap (list str) Node :=
  with_files name i c j s (fold_left add_dir (dirs name) m).

Definition files_of (name : ComponentName) : list (list str) := [container_path name; image_spec_path name].

Lemma pulled_other name i c j s m p : p ∉ files_of name ->
  pulled name i c j s m !! p =
    match m !! p with Some n => Some n | None => if decide (p ∈ dirs name) then Some Dir else None end.
Proof.
  unfold files_of. rewrite !not_elem_of_cons. intros (? & ? & _). unfold pulled.
  by rewrite with_files_other, add_dirs_lookup.
Qed.

Lemma files_of_length name p : p ∈ files_of name -> length p = 4%nat /\ parent p = component_path name.
Proof.
  unfold files_of. rewrite !elem_of_cons. intros [->|[->|H%elem_of_nil]]; [| |done];
    [by rewrite container_parent | by rewrite image_spec_parent].
Qed.

Lemma files_of_names name f : f ∈ file_names -> component_path name ++ [f] ∈ files_of name.
Proof. unfold file_names. rewrite !elem_of_cons. intros [->|[->|H%elem_of_nil]]; [left | right; left | ]; done. Qed.

Lemma pulled_file name i c j s m p : p ∈ files_of name ->
  exists i' c', pulled name i c j s m !! p = Some (File i' c').
Proof.
  unfold files_of, pulled. rewrite !elem_of_cons. intros [->|[->|H%elem_of_nil]]; [| |done];
    rewrite ?with_files_container, ?with_files_spec; eauto.
Qed.

Lemma pulled_short name i c j s m p : sound m -> p ∈ dirs name -> pulled name i c j s m !! p = Some Dir.
Proof.
  intros Hm Hp. rewrite pulled_other by (intros [H _]%files_of_length; apply in_dirs_length in Hp; lia).
  destruct (sound_all_dirs _ name Hm p Hp) as [->| ->]; [by rewrite decide_True | done].
Qed.

Lemma pulled_keeps name i c j s m p n : p ∉ files_of name -> m !! p = Some n -> pulled name i c j s m !! p = Some n.
Proof. intros Hp Hn. by rewrite pulled_other, Hn. Qed.

Lemma pulled_inv name i c j s m p n : pulled name i c j s m !! p = Some n ->
  p ∈ files_of name \/ (m !! p = Some n /\ p ∉ files_of name) \/ (p ∈ dirs name /\ n = Dir).
Proof.
  destruct (decide (p ∈ files_of name)); [by left |]. rewrite pulled_other by done.
  destruct (m !! p); [naive_solver |]. case_decide; naive_solver.
Qed.

Lemma sound_pulled name i c j s m : sound m -> sound (pulled name i c j s m).
Proof.
  intros Hm. assert (Hsome : forall p, is_Some (m !! p) -> is_Some (pulled name i c j s m !! p)).
  { intros p [n Hn]. destruct (decide (p ∈ files_of name)) as [H|H].
    - destruct (pulled_file name i c j s m p H) as (? & ? & ->). eauto.
    - rewrite (pulled_keeps _ _ _ _ _ _ _ _ H Hn). eauto. }
  assert (Hv : component_path name ∈ dirs name) by (rewrite dirs_eq, !elem_of_cons; tauto).
  constructor.
  - intros p Hp. destruct (pulled_inv _ _ _ _ _ _ _ _ Hp) as [H|[[H _]|[H _]]];
      [|by apply (s_dir _ _ _ Hm) | by apply in_dirs_length in H].
    destruct (pulled_file name i c j s m p H) as (? & ? & E). congruence.
  - intros p i' c' Hp. destruct (pulled_inv _ _ _ _ _ _ _ _ Hp) as [H|[[H _]|[_ H]]];
      [|by eapply (s_file _ _ _ Hm) | done].
    destruct (files_of_length _ _ H) as [Hl Hpar]. split; [done |]. rewrite Hpar.
    revert H. unfold files_of. rewrite !elem_of_cons. intros [->|[->|H%elem_of_nil]]; [| |done];
      eexists; (split; [|done]); unfold file_names; rewrite !elem_of_cons; tauto.
  - intros p n Hp. destruct (pulled_inv _ _ _ _ _ _ _ _ Hp) as [H|[[H _]|[H _]]].
    + right. rewrite (proj2 (files_of_length _ _ H)). by apply pulled_short.
    + destruct (s_parent _ _ _ Hm _ _ H) as [|Hpar]; [by left | right].
      apply pulled_keeps; [|done]. intros [Hl _]%files_of_length. apply (s_dir _ _ _ Hm) in Hpar. lia.
    + rewrite dirs_eq, !elem_of_cons in H. destruct H as [->|[->|[->|H%elem_of_nil]]]; [by left | | |done];
        right; (apply pulled_short; [done |]); rewrite dirs_eq, !elem_of_cons; auto.
  - intros p _ Hp. destruct (pulled_inv _ _ _ _ _ _ _ _ Hp) as [H|[[H _]|[H _]]].
    + destruct (pulled_file name i c j s m p H) as (? & ? & E). congruence.
    + destruct (s_tidy _ _ _ Hm _ (not_elem_of_nil _) H) as (q & n & Hq & Hne & Hpq).
      destruct (Hsome q) as [n' Hn']; [eauto |]. by exists q, n'.
    + rewrite dirs_eq, !elem_of_cons in H. destruct H as [->|[->|[->|H%elem_of_nil]]]; [| | |done].
      * exists (parent (component_path name)), Dir. split; [|done].
        apply pulled_short; [done |]. rewrite dirs_eq, !elem_of_cons. by right; left.
      * eexists (component_path name), Dir. split; [by apply pulled_short | done].
      * destruct (pulled_file name i c j s m (container_path name)) as (? & ? & E); [by left |].
        exists (container_path name). eauto using container_parent.
  - intros p i' c' f Hp Hf. destruct (pulled_inv _ _ _ _ _ _ _ _ Hp) as [H|[[H _]|[_ H]]]; [| |done].
    + rewrite (proj2 (files_of_length _ _ H)). destruct (pulled_file name i c j s m (component_path name ++ [f]))
        as (? & ? & ->); [by apply files_of_names | eauto].
    + apply Hsome. by eapply (s_all _ _ _ Hm).
Qed.

(** What a file takes, when it is there. *)
Definition file_bytes (m : gmap (list str) Node) (p : list str) : Z :=
  match m !! p with Some n => node_bytes n | None => 0 end.

Lemma dirs_keep_files name m p : p ∈ files_of name -> fold_left add_dir (dirs name) m !! p = m !! p.
Proof.
  intros [Hl _]%files_of_length. rewrite add_dirs_lookup. destruct (m !! p); [done |].
  rewrite decide_False; [done |]. intros ?%in_dirs_length. lia.
Qed.

Lemma pulled_total name i c j s m : sound m ->
  total (pulled name i c j s m) =
    total m + len c + len s - file_bytes m (container_path name) - file_bytes m (image_spec_path name).
Proof.
  intros Hm. unfold pulled, with_files, file_bytes, len.
  assert (Ht : total (fold_left add_dir (dirs name) m) = total m).
  { clear. revert m. induction (dirs name) as [|p ps IH]; intros m; simpl; [done | by rewrite IH, add_dir_total]. }
  rewrite !total_insert, lookup_insert_ne, !dirs_keep_files, Ht by (apply paths_differ || (unfold files_of; rewrite !elem_of_cons; tauto)).
  simpl. lia.
Qed.

Lemma pulled_count name i c j s m : sound m ->
  Z.of_nat (size (pulled name i c j s m)) =
    Z.of_nat (size m) + missing_dirs m name + missing m (container_path name) + missing m (image_spec_path name).
Proof.
  intros Hm. unfold pulled, with_files, missing.
  assert (Ht : Z.of_nat (size (fold_left add_dir (dirs name) m)) = Z.of_nat (size m) + missing_dirs m name).
  { unfold missing_dirs. rewrite dirs_eq. cbn [fold_left]. rewrite !add_dir_count. unfold missing. rewrite !add_dir_lookup.
    repeat (rewrite decide_False by (intros H%(f_equal length); done)).
    repeat case_match; try lia; simplify_eq. }
  rewrite !count_insert, lookup_insert_ne, !dirs_keep_files, Ht by (apply paths_differ || (unfold files_of; rewrite !elem_of_cons; tauto)).
  repeat case_match; lia.
Qed.

(** ** Locking *)
Lemma run_locked {A} (body : sop (outcome StoreError A)) d u :
  run (spawn_blocking (with_lock body)) (mkStore d u Unlocked) =
    '(r, w) ← run body (mkStore d u Locked);
    Some (match r with Crash Panicked => Failed JoinFailed | r => r end,
          set_mutex (if is_crash r then Poisoned else Unlocked) w).
Proof.
  unfold spawn_blocking, with_lock. rewrite run_with_pbind, run_then. unfold lock. simpl.
  rewrite run_with_pbind. unfold set_mutex at 1. simpl. destruct (run body _) as [[r w]|]; [|done]. simpl.
  by destruct r as [| |[]].
Qed.

(** ** Reading *)
(** What [get] reads from a file. *)
Definition readable (n : option Node) : outcome StoreError (list byte * list byte) :=
  match n with
  | None => Failed (IoFailed OpeningContainerFile NotFound)
  | Some Dir => Failed (IoFailed OpeningContainerFile OtherKind)
  | Some (File _ c) =>
      let n := of_le (take 8 c) in
      if len c <? 8 then Failed (IoFailed ReadingLength UnexpectedEof)
      else if ISIZE_MAX <? n then Failed JoinFailed
      else if len c <? 8 + n then Failed (IoFailed ReadingComponent UnexpectedEof)
      else Done (take (Z.to_nat n) (drop 8 c), drop (8 + Z.to_nat n) c)
  end.

Lemma run_read context f d u mx :
  run (read context f) (mkStore d u mx) = Some (map_err (IoFailed context) (fst (f d)), mkStore (snd (f d)) u mx).
Proof. unfold read. by rewrite run_io. Qed.

Lemma run_get name d u mx :
  run (get name) (mkStore d u mx) =
    Some (let? (b, b') := readable (tree d !! container_path name) in
          let? component := map_err (fun _ => DeserializingComponent) (deserialize b) in
          let? metadata := ok_or (decode_metadata b') DecodingMetadata in
          Done (mkContainer component metadata), mkStore d u mx).
Proof.
  unfold get, spawn_blocking, read_container, open_file. rewrite run_then, run_with_pbind, run_then, run_io.
  unfold file_open, readable, len. destruct (tree d !! container_path name) as [[|i c]|] eqn:E; [done | | done].
  assert (Hc : content_of (mkHandle (container_path name) i) d = c).
  { unfold content_of. fields. by rewrite E, decide_True. }
  unfold map_err at 1. cbn [fst snd]. rewrite run_then, run_read. unfold read_exact, read_to_end. rewrite Hc, drop_0, length_take.
  destruct (Z.of_nat (length c) <? 8) eqn:E8.
  { apply Z.ltb_lt in E8. by rewrite (proj2 (Nat.eqb_neq _ 8)) by lia. }
  apply Z.ltb_ge in E8. rewrite (proj2 (Nat.eqb_eq _ 8)) by lia. unfold map_err at 1. cbn [fst snd].
  pose proof (of_le_range (take 8 c)) as [Hr _].
  destruct (ISIZE_MAX <? of_le (take 8 c)); [done |].
  rewrite run_then, run_read, Hc, length_take, length_drop.
  destruct (Z.of_nat (length c) <? 8 + of_le (take 8 c)) eqn:En.
  { apply Z.ltb_lt in En. by rewrite (proj2 (Nat.eqb_neq _ _)) by lia. }
  apply Z.ltb_ge in En. rewrite (proj2 (Nat.eqb_eq _ _)) by lia. unfold map_err at 1. cbn [fst snd].
  rewrite run_then, run_read, Hc. done.
Qed.

Lemma readable_container i component metadata : len component <= ISIZE_MAX ->
  readable (Some (File i (container_bytes component metadata))) = Done (component, metadata).
Proof.
  intros Hl. unfold readable, container_bytes, len in *.
  assert (H8 : length (to_le 8 (Z.of_nat (length component))) = 8%nat) by apply length_to_le.
  rewrite (take_app_length' _ _ 8), (drop_app_length' _ _ 8), <- drop_drop, (drop_app_length' _ _ 8) by done.
  rewrite of_le_to_le by (unfold u_range, ISIZE_MAX in *; lia). rewrite !length_app, H8.
  rewrite Nat2Z.id, take_app_length, drop_app_length.
  by rewrite (proj2 (Z.ltb_ge _ 8)), (proj2 (Z.ltb_ge ISIZE_MAX _)), (proj2 (Z.ltb_ge _ _)) by lia.
Qed.

Lemma run_get_image name d u mx i c j s :
  tree d !! container_path name = Some (File i c) -> tree d !! image_spec_path name = Some (File j s) ->
  run (get_image name) (mkStore d u mx) =
    Some (let? image_spec := ok_or (decode_image_spec s) DecodingImageSpec in
          Done (mkImage (ComponentName_display name) (len c) (Some image_spec)), mkStore d u mx).
Proof.
  intros Hc Hs. unfold get_image, spawn_blocking. rewrite run_then, run_with_pbind, run_then, run_io.
  unfold file_len. rewrite Hc. unfold map_err. cbn [fst snd]. unfold open_file. rewrite run_then, run_io.
  unfold file_open. rewrite Hs. unfold map_err. cbn [fst snd]. rewrite run_then, run_read.
  unfold read_to_end, content_of. fields. by rewrite Hs, decide_True.
Qed.

(** ** Removing *)
Lemma run_file_len context p d u mx i c : tree d !! p = Some (File i c) ->
  run (io context unharmed (fun a => file_len (dir_size a) p)) (mkStore d u mx) = Some (Done (len c), mkStore d u mx).
Proof. intros H. rewrite run_io. unfold file_len. by rewrite H. Qed.

Lemma run_remove_file context p d u mx i c : tree d !! p = Some (File i c) ->
  run (io context unharmed (fun _ => remove_file p)) (mkStore d u mx) =
    Some (Done tt, mkStore (mkDisk (delete p (tree d)) (<[i := c]> (unlinked d)) (next_inode d)) u mx).
Proof. intros H. rewrite run_io. unfold remove_file. by rewrite H. Qed.

Lemma run_try_remove_dir p d u mx : tree d !! p = Some Dir ->
  run (try_remove_dir p) (mkStore d u mx) =
    Some (negb (has_children p d),
      mkStore (if has_children p d then d else mkDisk (delete p (tree d)) (unlinked d) (next_inode d)) u mx).
Proof. intros H. unfold try_remove_dir. simpl. unfold remove_dir. rewrite H. by destruct (has_children p d). Qed.

Lemma run_remove_directories n p d u mx :
  sound_but file_names [p] (tree d) -> length p = n -> p = [] \/ tree d !! p = Some Dir ->
  Z.of_nat (size (tree d)) <= inodes u ->
  exists m, run (remove_directories overflow_checks (ancestors_from n p)) (mkStore d u mx) =
      Some (Done tt, mkStore (mkDisk m (unlinked d) (next_inode d))
        (mkUsage (bytes u) (inodes u - (Z.of_nat (size (tree d)) - Z.of_nat (size m)))) mx)
    /\ sound m /\ total m = total (tree d) /\ (size m <= size (tree d))%nat
    /\ forall q i c, m !! q = Some (File i c) <-> tree d !! q = Some (File i c).
Proof.
  revert p d u. induction n as [|n IH]; intros p d u Hm Hl Hp Hu.
  - apply nil_length_inv in Hl as ->. exists (tree d). split_and!; [|..|done]; try done.
    + rewrite Z.sub_diag, Z.sub_0_r. by destruct d, u.
    + apply (sound_filled _ _ _ Hm). intros H%(s_dir _ _ _ Hm). simpl in H. lia.
  - destruct Hp as [->|Hp]; [done |]. simpl ancestors_from. cbn [remove_directories].
    rewrite run_with_pbind, run_try_remove_dir by done.
    destruct (has_children p d) eqn:Hc.
    + exists (tree d). split_and!; [|..|done]; try done.
      * rewrite Z.sub_diag, Z.sub_0_r. by destruct d, u.
      * apply (sound_filled _ _ _ Hm). intros _. by apply has_children_spec.
    + pose proof (count_delete (tree d) p) as Hsize. rewrite Hp in Hsize. cbv iota in Hsize.
      cbn [mbind option_bind negb]. rewrite run_then, run_sub_inodes by lia. fields.
      destruct (IH (parent p) (mkDisk (delete p (tree d)) (unlinked d) (next_inode d))
        (mkUsage (bytes u) (inodes u - 1))) as (m & Hrun & Hs & Ht & Hle & Hf).
      * apply (sound_delete_dir _ _ _ Hm Hp). intros q k Hq Hq0 Hpq.
        assert (has_children p d = true) by (apply has_children_spec; eauto). congruence.
      * rewrite length_parent. lia.
      * destruct (s_parent _ _ _ Hm _ _ Hp) as [|Hd]; [by left |]. right. simpl.
        rewrite lookup_delete_ne; [done |]. intros E%(f_equal length). rewrite length_parent in E. lia.
      * simpl. lia.
      * exists m. simpl in Hrun, Ht, Hle. rewrite Hrun. split_and!.
        -- do 3 f_equal. f_equal. lia.
        -- done.
        -- rewrite Ht, total_delete, Hp. simpl. lia.
        -- lia.
        -- intros q i c. rewrite Hf. simpl. destruct (decide (q = p)) as [->|Hne].
           ++ rewrite lookup_delete_eq, Hp. naive_solver.
           ++ by rewrite lookup_delete_ne.
Qed.

(** Without the two files of an image. *)
Definition without_files (name : ComponentName) (m : gmap (list str) Node) : gmap (list str) Node :=
  delete (image_spec_path name) (delete (container_path name) m).

Lemma without_files_lookup name m p :
  without_files name m !! p = if decide (p ∈ files_of name) then None else m !! p.
Proof.
  unfold without_files, files_of. case_decide as Hp.
  - rewrite !elem_of_cons in Hp. destruct Hp as [->|[->|Hp%elem_of_nil]]; [| |done].
    + by rewrite lookup_delete_ne, lookup_delete_eq by (symmetry; apply paths_differ).
    + by rewrite lookup_delete_eq.
  - rewrite !not_elem_of_cons in Hp. destruct Hp as (? & ? & _). by rewrite !lookup_delete_ne.
Qed.

Lemma sound_without_files name m : sound m -> sound_but file_names [component_path name] (without_files name m).
Proof.
  intros Hm. apply (sound_delete_files _ _ m _ Hm); [|done]. intros p. rewrite without_files_lookup.
  destruct (decide (p ∈ files_of name)) as [Hp|Hp].
  - apply files_of_length in Hp as [? ?]. by rewrite decide_True.
  - case_decide as Hd; [|done]. destruct Hd as [Hpar Hl].
    destruct (m !! p) as [[|i c]|] eqn:E; [by apply (file_not_dir _ _ Hm) in E | | done].
    destruct (s_file _ _ _ Hm _ _ _ E) as (_ & f & Hf & Ep). rewrite Hpar in Ep. subst p.
    exfalso. by apply Hp, files_of_names.
Qed.

Lemma without_files_size name m : (size (without_files name m) <= size m)%nat.
Proof. unfold without_files. rewrite !map_size_delete. repeat case_match; unfold id; lia. Qed.

Lemma without_files_dir name m i c : sound m -> m !! container_path name = Some (File i c) ->
  without_files name m !! component_path name = Some Dir.
Proof.
  intros Hm Hc. rewrite without_files_lookup, decide_False by (by intros [? _]%files_of_length).
  destruct (s_parent _ _ _ Hm _ _ Hc) as [H|H]; rewrite container_parent in H; done.
Qed.

(** An image that is there is removed with its files and the directories it leaves empty. *)
Lemma run_remove name d u i c : sound (tree d) -> tree d !! container_path name = Some (File i c) ->
  total (tree d) <= bytes u -> Z.of_nat (size (tree d)) <= inodes u ->
  exists m gone, run (remove name) (mkStore d u Unlocked) =
      Some (Done tt, mkStore (mkDisk m gone (next_inode d))
        (mkUsage (bytes u - (total (tree d) - total m))
          (inodes u - (Z.of_nat (size (tree d)) - Z.of_nat (size m)))) Unlocked)
    /\ sound m /\ total m <= total (tree d) /\ (size m <= size (tree d))%nat
    /\ forall q i c, m !! q = Some (File i c) <-> tree d !! q = Some (File i c) /\ q ∉ files_of name.
Proof.
  intros Hm Hc Hb Hi.
  destruct (s_all _ _ _ Hm _ _ _ IMAGE_SPEC_FILENAME Hc) as [n Hs]; [unfold file_names; rewrite !elem_of_cons; tauto |].
  rewrite container_parent in Hs. fold (image_spec_path name) in Hs.
  destruct n as [|j s]; [by apply (file_not_dir _ _ Hm) in Hs |].
  set (m1 := delete (container_path name) (tree d)). set (m2 := without_files name (tree d)).
  assert (Hs1 : m1 !! image_spec_path name = Some (File j s)) by (unfold m1; by rewrite lookup_delete_ne by apply paths_differ).
  assert (Ht : total m2 = total (tree d) - len c - len s).
  { unfold m2, without_files. rewrite !total_delete. fold m1. rewrite Hs1, Hc. done. }
  assert (Hn : Z.of_nat (size m2) = Z.of_nat (size (tree d)) - 2).
  { unfold m2, without_files. rewrite !count_delete. fold m1. rewrite Hs1, Hc. lia. }
  pose proof (total_nonneg m2).
  unfold remove. rewrite run_locked. unfold remove_locked.
  erewrite run_then, run_file_len, run_then, run_remove_file by exact Hc. fold m1. unfold len in *.
  rewrite run_then, run_sub_bytes by lia. fields. rewrite run_then, run_sub_inodes by (simpl; lia). fields.
  erewrite run_then, run_file_len, run_then, run_remove_file by exact Hs1. fields. unfold len.
  change (delete (image_spec_path name) m1) with m2.
  rewrite run_then, run_sub_bytes by (simpl; lia). fields. rewrite run_then, run_sub_inodes by (simpl; lia). fields.
  change (take 3 (ancestors (component_path name))) with (ancestors_from 3 (component_path name)).
  edestruct (run_remove_directories 3 (component_path name)
    (mkDisk m2 (<[j := s]> (<[i := c]> (unlinked d))) (next_inode d))) as (m & -> & Hsm & Ht' & Hle & Hf);
    [by apply sound_without_files | done | right | |].
  - by eapply without_files_dir.
  - simpl. lia.
  - simpl in Ht', Hle |- *. eexists m, _. split_and!; [| done | lia | lia |].
    + unfold set_mutex. fields.
      replace (bytes u - (total (tree d) - total m)) with (bytes u - Z.of_nat (length c) - Z.of_nat (length s)) by lia.
      by replace (inodes u - (Z.of_nat (size (tree d)) - Z.of_nat (size m)))
        with (inodes u - 1 - 1 - (Z.of_nat (size m2) - Z.of_nat (size m))) by lia.
    + intros q i' c'. rewrite Hf. simpl. unfold m2. rewrite without_files_lookup. case_decide; naive_solver.
Qed.

(** An image that is not there is not removed. *)
Lemma run_remove_absent name d u : tree d !! container_path name = None ->
  run (remove name) (mkStore d u Unlocked) =
    Some (Failed (IoFailed GettingContainerMetadata NotFound), mkStore d u Unlocked).
Proof.
  intros H. unfold remove. rewrite run_locked. unfold remove_locked. rewrite run_then, run_io.
  unfold file_len. by rewrite H.
Qed.

(** ** The whole of a pull *)
(** What a pull writes: the serialized component and the metadata. *)
Definition payload (registry : str) (name : ComponentName) : outcome StoreError (list byte * list byte) :=
  let? container := served registry name in
  let? bs := ok_or (serialize (component container)) SerializingComponent in
  Done (bs, encode_metadata (metadata container)).

Lemma served_not_crash registry name c : served registry name <> Crash c.
Proof.
  unfold served. repeat case_match; try done. unfold blob, obind, map_err, ok_or.
  repeat case_match; congruence.
Qed.

Lemma run_pull_failed registry name image_spec w e :
  payload registry name = Failed e -> run (pull registry name image_spec) w = Some (Failed e, w).
Proof.
  unfold payload, pull. intros H. rewrite run_then, run_fetch.
  destruct (served registry name) as [c|e'|c]; simpl in H; [|congruence|done].
  rewrite run_then. destruct (serialize (component c)); [done |]. simpl in H |- *. congruence.
Qed.

Lemma payload_not_crash registry name c : payload registry name <> Crash c.
Proof.
  unfold payload. destruct (served registry name) as [k|e|k] eqn:E; simpl; [|done|by apply served_not_crash in E].
  by destruct (serialize (component k)).
Qed.

Lemma len_container component metadata :
  len (container_bytes component metadata) = 8 + len component + len metadata.
Proof. unfold len, container_bytes. rewrite !length_app, length_to_le. lia. Qed.

Lemma run_pull registry name image_spec d u component metadata :
  payload registry name = Done (component, metadata) -> sound (tree d) ->
  bytes u + len (container_bytes component metadata) + len (encode_image_spec image_spec) < 2 ^ 64 ->
  inodes u + 5 < 2 ^ 64 ->
  exists i j next, let m := pulled name i (container_bytes component metadata) j (encode_image_spec image_spec) (tree d) in
    run (pull registry name image_spec) (mkStore d u Unlocked) =
      Some (Done tt, mkStore (mkDisk m (unlinked d) next)
        (mkUsage (bytes u + len (container_bytes component metadata) + len (encode_image_spec image_spec))
           (inodes u + (Z.of_nat (size m) - Z.of_nat (size (tree d))))) Unlocked).
Proof.
  intros Hp Hm Hb Hi. unfold payload in Hp.
  destruct (served registry name) as [k|e|c] eqn:E; simpl in Hp; [|done|done].
  destruct (serialize (Containers.component k)) as [bs|] eqn:Es; simpl in Hp; [|done]. injection Hp as <- <-.
  rewrite len_container in Hb.
  destruct (run_pull_locked name bs (encode_metadata (Containers.metadata k)) (encode_image_spec image_spec) d u Locked)
    as (i & j & next & Hrun); [done | lia | done |].
  exists i, j, next. cbv zeta. rewrite pulled_count by done. unfold pull. rewrite run_then, run_fetch, E, run_then.
  simpl ok_or. rewrite Es. simpl (run (Ret _) _). cbv iota beta. rewrite run_locked, Hrun. simpl.
  rewrite len_container. unfold set_mutex, pulled. fields. do 3 f_equal. f_equal; lia.
Qed.

Lemma pulled_readable registry name image_spec d u container bs :
  domain_wf (s_domain (c_server name)) -> sound (tree d) ->
  served registry name = Done container -> serialize (component container) = Some bs -> len bs <= ISIZE_MAX ->
  bytes u + 8 + len bs + len (encode_metadata (metadata container)) + len (encode_image_spec image_spec) < 2 ^ 64 ->
  inodes u + 5 < 2 ^ 64 ->
  exists w', run (pull registry name image_spec) (mkStore d u Unlocked) = Some (Done tt, w')
    /\ run (get name) w' = Some (Done container, w')
    /\ run (get_image name) w' =
         Some (Done (mkImage (ComponentName_display name) (8 + len bs + len (encode_metadata (metadata container)))
                       (Some image_spec)), w')
    /\ sound (tree (disk w')) /\ mutex w' = Unlocked
    /\ forall other, domain_wf (s_domain (c_server other)) -> other <> name ->
         fst <$> run (get other) w' = fst <$> run (get other) (mkStore d u Unlocked).
Proof.
  intros Hwf Hm Hserved Hser Hl Hb Hi.
  assert (Hp : payload registry name = Done (bs, encode_metadata (metadata container))).
  { unfold payload. rewrite Hserved. simpl. by rewrite Hser. }
  destruct (run_pull registry name image_spec d u _ _ Hp Hm) as (i & j & next & Hrun); [rewrite len_container; lia | done |].
  eexists. split; [exact Hrun |]. rewrite run_get. erewrite run_get_image by (apply with_files_container || apply with_files_spec).
  fields. unfold pulled at 1. rewrite with_files_container, readable_container by done. simpl obind.
  rewrite (deserialize_serialize _ _ Hser), decode_encode_metadata, decode_encode_image_spec, len_container.
  split_and!; [by destruct container | done | by apply sound_pulled | done |].
  intros other Hwf' Ho. rewrite !run_get. fields.
  rewrite pulled_other; [|intros [_ H]%files_of_length; rewrite container_parent in H; by apply component_path_inj in H].
  destruct (tree d !! container_path other); [done |]. rewrite decide_False; [done |]. intros ?%in_dirs_length. simpl in *. lia.
Qed.

(** C17. A pull makes an image readable: what the registry serves under the name is what [get]
    then returns, [get_image] returns the image with the size of its file and the
    specification it was pulled with, the store is as well-formed as it was, and other images
    read as before. *)
Theorem pull_then_get registry name image_spec d u container bs :
  domain_wf (s_domain (c_server name)) -> sound (tree d) ->
  served registry name = Done container -> serialize (component container) = Some bs -> len bs <= ISIZE_MAX ->
  bytes u + 8 + len bs + len (encode_metadata (metadata container)) + len (encode_image_spec image_spec) < 2 ^ 64 ->
  inodes u + 5 < 2 ^ 64 ->
  exists w', run (pull registry name image_spec) (mkStore d u Unlocked) = Some (Done tt, w')
    /\ run (get name) w' = Some (Done container, w')
    /\ run (get_image name) w' =
         Some (Done (mkImage (ComponentName_display name) (8 + len bs + len (encode_metadata (metadata container)))
                       (Some image_spec)), w')
    /\ sound (tree (disk w')) /\ mutex w' = Unlocked
    /\ forall other, domain_wf (s_domain (c_server other)) -> other <> name ->
         fst <$> run (get other) w' = fst <$> run (get other) (mkStore d u Unlocked).
Proof. exact (pulled_readable registry name image_spec d u container bs). Qed.

(** Removing undoes pulling: after an image that was not there is pulled and removed, the
    files, the directories and the counters are what they were, and removing it again fails
    and changes nothing. *)
Lemma pull_and_remove registry name image_spec d u container bs :
  sound (tree d) -> tree d !! container_path name = None ->
  served registry name = Done container -> serialize (component container) = Some bs ->
  total (tree d) <= bytes u -> Z.of_nat (size (tree d)) <= inodes u ->
  bytes u + 8 + len bs + len (encode_metadata (metadata container)) + len (encode_image_spec image_spec) < 2 ^ 64 ->
  inodes u + 5 < 2 ^ 64 ->
  exists w w', run (pull registry name image_spec) (mkStore d u Unlocked) = Some (Done tt, w)
    /\ run (get_image name) w =
         Some (Done (mkImage (ComponentName_display name) (8 + len bs + len (encode_metadata (metadata container)))
                       (Some image_spec)), w)
    /\ run (remove name) w = Some (Done tt, w')
    /\ tree (disk w') = tree d /\ filesystem_usage w' = u /\ mutex w' = Unlocked
    /\ run (remove name) w' = Some (Failed (IoFailed GettingContainerMetadata NotFound), w').
Proof.
  intros Hm Hnew Hserved Hser Ht Hs Hb Hi.
  assert (Hp : payload registry name = Done (bs, encode_metadata (metadata container))).
  { unfold payload. rewrite Hserved. simpl. by rewrite Hser. }
  assert (Hnew' : tree d !! image_spec_path name = None).
  { destruct (tree d !! image_spec_path name) as [[|j s]|] eqn:E; [by apply (file_not_dir _ _ Hm) in E | | done].
    destruct (s_all _ _ _ Hm _ _ _ CONTAINER_FILENAME E) as [n Hn]; [unfold file_names; rewrite !elem_of_cons; tauto |].
    rewrite image_spec_parent in Hn. fold (container_path name) in Hn. congruence. }
  destruct (run_pull registry name image_spec d u _ _ Hp Hm) as (i & j & next & Hrun); [rewrite len_container; lia | done |].
  revert Hrun. set (m := pulled _ _ _ _ _ _). intros Hrun.
  assert (Hsm : sound m) by by apply sound_pulled.
  assert (Hc : m !! container_path name = Some (File i (container_bytes bs (encode_metadata (metadata container))))).
  { apply with_files_container. }
  assert (Htot : total m = total (tree d) + len (container_bytes bs (encode_metadata (metadata container)))
                   + len (encode_image_spec image_spec)).
  { unfold m. rewrite pulled_total by done. unfold file_bytes. rewrite Hnew, Hnew'. lia. }
  edestruct (run_remove name (mkDisk m (unlinked d) next)) as (m' & gone & Hrem & Hsm' & _ & _ & Hf);
    [exact Hsm | exact Hc | | | ]; [| |eexists _, _; split; [exact Hrun |]; split; [|split; [exact Hrem |]]].
  - fields. rewrite Htot. lia.
  - fields. lia.
  - erewrite run_get_image by (exact Hc || apply with_files_spec). by rewrite decode_encode_image_spec, len_container.
  - assert (Hm' : m' = tree d).
    { eapply sound_unique; [done | done |]. intros p k c. rewrite Hf. fields. split.
      - intros [Hp' Hn]. destruct (pulled_inv _ _ _ _ _ _ _ _ Hp') as [H|[[H _]|[_ H]]]; done.
      - intros H. assert (p ∉ files_of name).
        { unfold files_of. rewrite !not_elem_of_cons. split_and!; [congruence | congruence | apply not_elem_of_nil]. }
        split; [by apply pulled_keeps | done]. }
    fields. split_and!; [done | | done | by apply run_remove_absent; fields; rewrite Hm'].
    rewrite Hm', Htot. destruct u as [b n]. simpl. f_equal; lia.
Qed.

Lemma run_get_image_same name w : exists r, run (get_image name) w = Some (r, w).
Proof.
  destruct w as [d u mx]. unfold get_image, spawn_blocking, open_file. rewrite run_then, run_with_pbind, run_then, run_io.
  unfold file_len. destruct (tree d !! container_path name) as [[|i c]|]; unfold map_err; cbn [fst snd]; [| |by eexists];
    rewrite run_then, run_io; unfold file_open; destruct (tree d !! image_spec_path name) as [[|j s]|];
    unfold map_err; cbn [fst snd]; (by eexists) || (rewrite run_then, run_read; by eexists).
Qed.

Lemma run_get_image_absent name d u mx : tree d !! container_path name = None ->
  run (get_image name) (mkStore d u mx) =
    Some (Failed (IoFailed GettingContainerMetadata NotFound), mkStore d u mx).
Proof.
  intros H. unfold get_image, spawn_blocking. rewrite run_then, run_with_pbind, run_then, run_io.
  unfold file_len. by rewrite H.
Qed.

Lemma run_usage d u : run (get_filesystem_usage) (mkStore d u Unlocked) = Some (Done u, mkStore d u Unlocked).
Proof. unfold get_filesystem_usage. by rewrite run_locked. Qed.

End Spec.

(** ** Sequences of calls *)
Section Sequences.
Context {Component Metadata : Type} {C : ContainerCodec Component Metadata}.
Context {CL : ContainerCodecLaws Component Metadata}.
Context (insecure_registries : list str) (overflow_checks : bool).
Abbreviation sound := (sound_but file_names []).
Abbreviation StoreReply := (@StoreReply Component Metadata).
Abbreviation payload := (payload (C := C) insecure_registries).

(** One call after the other, each with the network as it is then. *)
Definition run_call (network : str -> HttpResponse) (call : StoreCall) (w : ContainerStore) : option (StoreReply * ContainerStore) :=
  run_with (calm network) (store_program (C := C) insecure_registries overflow_checks call) w.

Fixpoint run_calls (calls : list ((str -> HttpResponse) * StoreCall)) (w : ContainerStore) : option ContainerStore :=
  match calls with
  | [] => Some w
  | (network, call) :: calls' => '(_, w') ← run_call network call w; run_calls calls' w'
  end.

(** What a pull writes, and what of it replaces what was there. *)
Definition written (network : str -> HttpResponse) (call : StoreCall) : Z :=
  match call with
  | PullImage registry name image_spec =>
      match payload network registry name with
      | Done (component, metadata) => len (container_bytes component metadata) + len (encode_image_spec image_spec)
      | _ => 0
      end
  | _ => 0
  end.

Definition overwritten (network : str -> HttpResponse) (call : StoreCall) (w : ContainerStore) : Z :=
  match call with
  | PullImage registry name _ =>
      match payload network registry name with
      | Done _ => file_bytes (tree (disk w)) (container_path name) + file_bytes (tree (disk w)) (image_spec_path name)
      | _ => 0
      end
  | _ => 0
  end.

Fixpoint all_overwritten (calls : list ((str -> HttpResponse) * StoreCall)) (w : ContainerStore) : Z :=
  match calls with
  | [] => 0
  | (network, call) :: calls' =>
      overwritten network call w
      + match run_call network call w with Some (_, w') => all_overwritten calls' w' | None => 0 end
  end.

(** The counters are the sizes of the tree, but for [extra] bytes. *)
Record accounted (extra : Z) (w : ContainerStore) : Prop := mkAccounted {
  a_sound : sound (tree (disk w));
  a_mutex : mutex w = Unlocked;
  a_inodes : inodes (filesystem_usage w) = stored_inodes (disk w);
  a_bytes : bytes (filesystem_usage w) = stored_bytes (disk w) + extra;
  a_extra : 0 <= extra;
}.

Lemma file_bytes_nonneg m p : 0 <= file_bytes m p.
Proof. unfold file_bytes. destruct (m !! p) as [[|]|]; simpl; lia. Qed.

Lemma written_nonneg network call : 0 <= written network call.
Proof. unfold written, len. repeat case_match; lia. Qed.

Lemma overwritten_nonneg network call w : 0 <= overwritten network call w.
Proof.
  unfold overwritten. repeat case_match; try lia.
  pose proof (file_bytes_nonneg (tree (disk w)) (container_path name)).
  pose proof (file_bytes_nonneg (tree (disk w)) (image_spec_path name)). lia.
Qed.

(** A call that keeps the account. *)
Definition keeps_account network call extra w : Prop :=
  exists r w', run_call network call w = Some (r, w')
    /\ accounted (extra + overwritten network call w) w'
    /\ bytes (filesystem_usage w') <= bytes (filesystem_usage w) + written network call
    /\ inodes (filesystem_usage w') <= inodes (filesystem_usage w) + 5.

Lemma unchanged_keeps network call extra w r :
  accounted extra w -> overwritten network call w = 0 -> run_call network call w = Some (r, w) ->
  keeps_account network call extra w.
Proof.
  intros Ha Ho Hrun. exists r, w. rewrite Ho, Z.add_0_r. pose proof (written_nonneg network call).
  split_and!; [done | done | lia | lia].
Qed.

Lemma remove_keeps network name extra w : accounted extra w -> keeps_account network (RemoveImage name) extra w.
Proof.
  intros Ha. destruct (tree (disk w) !! container_path name) as [[|i c]|] eqn:E.
  - by apply (file_not_dir _ _ (a_sound _ _ Ha)) in E.
  - destruct w as [d u mx], Ha as [Hs Hm Hn Hb Hx]. unfold stored_inodes in Hn. simpl in *. subst mx.
    change (stored_bytes d) with (total (tree d)) in Hb.
    destruct (run_remove overflow_checks network name d u i c Hs E) as (m & gone & Hrun & Hsm & Ht & Hsize & _); [lia..|].
    unfold keeps_account, run_call, store_program. rewrite run_with_pbind, Hrun. eexists _, _. split; [done |].
    simpl. split_and!; [|lia|lia]. rewrite Z.add_0_r.
    constructor; simpl; try done; unfold stored_inodes, stored_bytes; simpl; fold (total m); lia.
  - eapply unchanged_keeps; [done | done |]. destruct w as [d u mx], Ha as [_ Hm]. simpl in *. subst mx.
    unfold run_call, store_program. by rewrite run_with_pbind, run_remove_absent.
Qed.

Lemma pull_keeps network registry name image_spec extra w :
  let call := PullImage registry name image_spec in
  accounted extra w -> bytes (filesystem_usage w) + written network call < 2 ^ 64 ->
  inodes (filesystem_usage w) + 5 < 2 ^ 64 -> keeps_account network call extra w.
Proof.
  intros call Ha Hb Hi. destruct (payload network registry name) as [[component metadata]|e|c] eqn:E.
  - pose proof Ha as [Hs _ _ _ _]. destruct w as [d u mx], Ha as [_ Hm Hn Hbytes Hx]. unfold stored_inodes in Hn. simpl in *.
    subst mx. rewrite E in Hb. change (stored_bytes d) with (total (tree d)) in Hbytes.
    destruct (run_pull insecure_registries overflow_checks network registry name image_spec d u _ _ E Hs)
      as (i & j & next & Hrun); [lia | done |].
    revert Hrun. set (m := pulled _ _ _ _ _ _). intros Hrun.
    assert (Hcount : Z.of_nat (size m) <= Z.of_nat (size (tree d)) + 5).
    { unfold m. rewrite pulled_count by done. pose proof (missing_dirs_bound (tree d) name).
      pose proof (missing_bound (tree d) (container_path name)). pose proof (missing_bound (tree d) (image_spec_path name)). lia. }
    unfold keeps_account, run_call, store_program, call. rewrite run_with_pbind, Hrun. eexists _, _. split; [done |].
    simpl. rewrite E. split_and!; [|lia|lia].
    pose proof (file_bytes_nonneg (tree d) (container_path name)). pose proof (file_bytes_nonneg (tree d) (image_spec_path name)).
    constructor; simpl; [by apply sound_pulled | done | unfold stored_inodes; simpl; lia | | lia].
    unfold stored_bytes. simpl. fold (total m). unfold m at 1. rewrite pulled_total by done. lia.
  - eapply unchanged_keeps; [done | simpl; by rewrite E |]. unfold run_call, store_program, call.
    by rewrite run_with_pbind, (run_pull_failed _ _ _ _ _ _ _ _ E).
  - by apply payload_not_crash in E.
Qed.

Lemma call_keeps network call extra w :
  accounted extra w -> bytes (filesystem_usage w) + written network call < 2 ^ 64 ->
  inodes (filesystem_usage w) + 5 < 2 ^ 64 -> keeps_account network call extra w.
Proof.
  intros Ha Hb Hi. destruct call as [registry name image_spec|name|name|name|]; [by apply pull_keeps | | | by apply remove_keeps |].
  all: pose proof Ha as [_ Hm _ _ _]; destruct w as [d u mx]; simpl in Hm; subst mx.
  - eapply unchanged_keeps; [done | done |]. unfold run_call, store_program. by rewrite run_with_pbind, run_get.
  - destruct (run_get_image_same network name (mkStore d u Unlocked)) as [r Hr].
    eapply unchanged_keeps; [done | done |]. unfold run_call, store_program. by rewrite run_with_pbind, Hr.
  - eapply unchanged_keeps; [done | done |]. unfold run_call, store_program. by rewrite run_with_pbind, run_usage.
Qed.

Fixpoint all_written (calls : list ((str -> HttpResponse) * StoreCall)) : Z :=
  match calls with
  | [] => 0
  | (network, call) :: calls' => written network call + all_written calls'
  end.

Lemma calls_keep calls extra w :
  accounted extra w -> bytes (filesystem_usage w) + all_written calls < 2 ^ 64 ->
  inodes (filesystem_usage w) + 5 * Z.of_nat (length calls) < 2 ^ 64 ->
  exists w', run_calls calls w = Some w' /\ accounted (extra + all_overwritten calls w) w'.
Proof.
  revert extra w. induction calls as [|[network call] calls IH]; intros extra w Ha Hb Hi; simpl in *.
  - exists w. by rewrite Z.add_0_r.
  - pose proof (written_nonneg network call). assert (0 <= all_written calls).
    { clear. induction calls as [|[network call] calls IH]; simpl; [lia |]. pose proof (written_nonneg network call). lia. }
    destruct (call_keeps network call extra w Ha) as (r & w1 & -> & Ha1 & Hb1 & Hi1); [lia | lia |]. simpl.
    destruct (IH _ _ Ha1) as (w' & Hrun & Ha'); [lia | lia |]. exists w'. split; [done |]. by rewrite Z.add_assoc.
Qed.

Lemma start_accounted : accounted 0 (ContainerStore_new empty_disk).
Proof. constructor; [apply sound_empty | done..]. Qed.

(** C13. The counters are right, but for what is overwritten: after any sequence of calls on a
    store that started empty, none of which fails to do its I/O, the store is well-formed, the
    inodes counted are the files and directories there are, and the bytes counted are the
    sizes of the files and, beside, of everything that a pull has overwritten since. *)
Theorem usage_counts calls :
  all_written calls < 2 ^ 64 -> 5 * Z.of_nat (length calls) < 2 ^ 64 ->
  exists w, run_calls calls (ContainerStore_new empty_disk) = Some w
    /\ sound (tree (disk w)) /\ mutex w = Unlocked
    /\ inodes (filesystem_usage w) = stored_inodes (disk w)
    /\ bytes (filesystem_usage w) = stored_bytes (disk w) + all_overwritten calls (ContainerStore_new empty_disk).
Proof.
  intros Hb Hi. destruct (calls_keep calls 0 (ContainerStore_new empty_disk)) as (w & Hrun & [Hs Hm Hn Hw _]);
    [apply start_accounted | simpl; lia | simpl; lia |]. exists w. by split_and!.
Qed.

Lemma u64_sub_wraps a b : 0 <= a < b -> b <= 2 ^ 64 -> u64_sub false a b = Done (2 ^ 64 + a - b).
Proof.
  intros H Hb. unfold u64_sub. rewrite (proj2 (Z.leb_gt _ _)) by lia. f_equal. unfold as_u.
  rewrite <- (Z_mod_plus_full _ 1), Z.mod_small; lia.
Qed.

Lemma run_sub_bytes_wraps network n d u m : 0 <= bytes u < n -> n <= 2 ^ 64 ->
  run_with (calm network) (sub_bytes false n) (mkStore d u m) =
    Some (Done tt, mkStore d (mkUsage (2 ^ 64 + bytes u - n) (inodes u)) m).
Proof. intros. unfold sub_bytes, count. simpl. by rewrite u64_sub_wraps by lia. Qed.

Lemma run_sub_inodes_wraps network n d u m : 0 <= inodes u < n -> n <= 2 ^ 64 ->
  run_with (calm network) (sub_inodes false n) (mkStore d u m) =
    Some (Done tt, mkStore d (mkUsage (bytes u) (2 ^ 64 + inodes u - n)) m).
Proof. intros. unfold sub_inodes, count. simpl. by rewrite u64_sub_wraps by lia. Qed.

(** A store that is opened on the images of an earlier run counts from zero, and removing
    one of those images underflows the counter: where overflow is checked the call panics
    after it has deleted the container file, and the lock is poisoned, so that every later
    operation that takes it fails; where it is not, the call succeeds if the image's file
    sizes are what they were, and the bytes counted are close to [2 ^ 64]. *)
Theorem earlier_images_uncounted network d name i c j s :
  sound (tree d) -> tree d !! container_path name = Some (File i c) -> tree d !! image_spec_path name = Some (File j s) ->
  c <> [] -> len c + len s < 2 ^ 64 -> Z.of_nat (size (tree d)) + 2 < 2 ^ 64 ->
  exists r w, run_with (calm network) (remove overflow_checks name) (ContainerStore_new d) = Some (r, w)
    /\ tree (disk w) !! container_path name = None
    /\ if overflow_checks then r = Failed JoinFailed /\ mutex w = Poisoned
         /\ (forall answer A (body : prog ContainerStore StoreAnswer (outcome StoreError A)),
               run_with answer (with_lock body) w = Some (Failed LockPoisoned, w))
       else r = Done tt /\ bytes (filesystem_usage w) = 2 ^ 64 - (len c + len s).
Proof.
  intros Hm Hc Hs Hne Hlen Hsize. assert (Hpos : 0 < len c) by (unfold len; destruct c; [done | simpl; lia]).
  unfold remove, ContainerStore_new. rewrite run_locked. unfold remove_locked.
  set (m1 := delete (container_path name) (tree d)).
  assert (Hs1 : m1 !! image_spec_path name = Some (File j s)) by (unfold m1; by rewrite lookup_delete_ne by apply paths_differ).
  erewrite run_then, run_file_len, run_then, run_remove_file by exact Hc. fold m1. rewrite run_then.
  destruct overflow_checks.
  - unfold sub_bytes at 1, count at 1, u64_sub at 1. simpl. rewrite (proj2 (Z.leb_gt _ _) Hpos). simpl.
    eexists _, _. split; [done |]. simpl. split; [apply lookup_delete_eq | done].
  - rewrite run_sub_bytes_wraps by (fields; unfold len in *; lia). fields. rewrite run_then, run_sub_inodes_wraps by (fields; lia).
    erewrite run_then, run_file_len, run_then, run_remove_file by exact Hs1. fields.
    rewrite run_then, run_sub_bytes by (unfold len in *; simpl; lia). fields.
    rewrite run_then, run_sub_inodes by (simpl; lia). fields.
    change (take 3 (ancestors (component_path name))) with (ancestors_from 3 (component_path name)).
    change (delete (image_spec_path name) m1) with (without_files name (tree d)).
    edestruct (run_remove_directories false network 3 (component_path name)
      (mkDisk (without_files name (tree d)) (<[j := s]> (<[i := c]> (unlinked d))) (next_inode d)))
      as (m & -> & Hsm & _ & _ & Hf); [by apply sound_without_files | done | right | |].
    + by apply without_files_dir with i c.
    + pose proof (without_files_size name (tree d)). simpl. lia.
    + eexists _, _. split; [done |]. unfold len in *. simpl. split; [|split; [done | lia]].
      destruct (m !! container_path name) as [[|i' c']|] eqn:E; [by apply (file_not_dir _ _ Hsm) in E | | done].
      apply Hf in E. simpl in E. rewrite without_files_lookup, decide_True in E by (left; done). done.
Qed.

End Sequences.
