(* ===== verification/ContainersRuns.v ===== *)
(** * The container store under concurrency and faults

    Pulls, removals and reads interleaved at every step, while any I/O operation may fail:
    they leave the files of other images alone, every call returns, and nothing deadlocks.
    Then runs of a store on concrete formats: the witnesses of [ContainersSpec], and the race
    between reading an image and pulling it again. *)

From S2P Require Import Prelude Regexp Names NamesSpec Concurrent State.
From S2P Require Import Files FilesSpec Containers ContainersSpec.

#[local] Open Scope Z_scope.
#[local] Arguments DomainUuid_display : simpl never.
#[local] Arguments component_path : simpl never.
#[local] Arguments container_path : simpl never.
#[local] Arguments image_spec_path : simpl never.

Section Interleaved.
Context {Component Metadata : Type} {C : ContainerCodec Component Metadata}.
Context (insecure_registries : list str) (overflow_checks : bool).

Abbreviation sop := (prog ContainerStore StoreAnswer).
Abbreviation StoreReply := (@StoreReply Component Metadata).
Abbreviation program := (store_program (C := C) insecure_registries overflow_checks).

(** Nothing happens to a store but its calls. *)
Definition nothing_happens (h : Empty_set) (w : ContainerStore) : option ContainerStore := match h with end.

(** ** The lock, and the files that are protected *)
Context (protected : list (list str)) (contents : list str -> option Node)
  (protected_files : forall p, p ∈ protected -> length p = 4%nat).

(** Who holds the lock owns the only token. *)
Definition Safe (_ : nat) (w : ContainerStore) (toks : list unit) : Prop :=
  (mutex w = Locked /\ toks = [tt] \/ mutex w <> Locked /\ toks = [])
  /\ forall p, p ∈ protected -> tree (disk w) !! p = contents p.

Lemma Safe_perm n w t t' : t ≡ₚ t' -> Safe n w t -> Safe n w t'.
Proof.
  intros Ht [[[Hl ->]|[Hl ->]] Hp]; (split; [|done]);
    [apply Permutation_singleton_l in Ht as -> | apply Permutation_nil_l in Ht as ->]; tauto.
Qed.

(** Only an operation that does not hold it waits, and only while another does. *)
Definition waits (w : ContainerStore) (own : list unit) : Prop := own = [] /\ mutex w = Locked.

Abbreviation safe := (wp Safe (fun _ => True) waits).

Definition holding {A} (own : list unit) (R : A -> Prop) (r : outcome StoreError A) (own' : list unit) : Prop :=
  own' = own /\ match r with Done x => R x | _ => True end.
Definition anything {A} (_ : A) : Prop := True.

Definition keeps (d d' : Disk) : Prop := forall p, p ∈ protected -> tree d' !! p = tree d !! p.

Lemma safe_step {B} (f : StoreAnswer -> ContainerStore -> option (B * ContainerStore)) own (Q : B -> Prop) :
  (forall a w, exists b w', f a w = Some (b, w') /\ mutex w' = mutex w /\ keeps (disk w) (disk w') /\ Q b) ->
  safe (atomic f) own (fun b own' => own' = own /\ Q b).
Proof.
  intros H. apply wp_step. intros n a w rest _ [Hl Hp]. destruct (H a w) as (b & w' & Hf & Hm & Hk & HQ).
  exists b, w', own. split_and!; [done | | done | done]. split; [by rewrite Hm |].
  intros p Hin. by rewrite Hk, Hp.
Qed.

Lemma safe_io {A} context partial (f : StoreAnswer -> Disk -> IoResult A) own (R : A -> Prop) :
  (forall n d, keeps d (partial n d)) ->
  (forall a d, keeps d (snd (f a d)) /\ forall x, fst (f a d) = Done x -> R x) ->
  safe (io context partial f) own (holding own R).
Proof.
  intros Hpart Hf. apply safe_step. intros a w. destruct (fault a) as [kind|].
  - eexists _, _. split_and!; [done | done | apply Hpart | done].
  - destruct (Hf a (disk w)) as [Hk HR]. destruct (f a (disk w)) as [r d] eqn:E.
    eexists _, _. split_and!; [done | done | done |]. destruct r; simpl in *; auto.
Qed.

Lemma safe_then {A B} (p : sop (outcome StoreError A)) (k : A -> sop (outcome StoreError B)) own R Q :
  safe p own (holding own R) -> (forall x, R x -> safe (k x) own (holding own Q)) ->
  safe (and_then p k) own (holding own Q).
Proof. intros Hp Hk. unfold and_then. eapply wp_pbind; [exact Hp |]. intros [x|e|c] own' [-> Hx]; [by apply Hk | done..]. Qed.

Lemma safe_map {A B} (p : sop A) (k : A -> B) own (R : A -> Prop) (Q : B -> Prop) :
  safe p own (fun r own' => own' = own /\ R r) -> (forall r, R r -> Q (k r)) ->
  safe (pbind p (fun r => Ret (k r))) own (fun r own' => own' = own /\ Q r).
Proof. intros Hp Hk. eapply wp_pbind; [exact Hp |]. intros r own' [-> Hr]. simpl. auto. Qed.

Lemma safe_locked {A} (body : sop (outcome StoreError A)) (R : A -> Prop) :
  safe body [tt] (holding [tt] R) -> safe (spawn_blocking (with_lock body)) [] (holding [] R).
Proof.
  intros Hb. unfold spawn_blocking. eapply wp_pbind with (Q' := holding [] R);
    [|by intros [x|e|[]] own [-> Hr]].
  unfold with_lock, and_then.
  eapply wp_pbind with (Q' := fun r own => own = match r with Done _ => [tt] | _ => [] end).
  { intros n a w rest _ [Hl Hp]. simpl in Hl. destruct (mutex w) eqn:Hm.
    - exists [tt]. destruct Hl as [[? _]|[_ ->]]; [done |]. split; [|done]. split; [by left | done].
    - done.
    - exists []. destruct Hl as [[? _]|[_ ->]]; [done |]. split; [|done]. split; [|done]. right. by rewrite Hm. }
  intros [[]|e|c] own ->; [|done|done].
  eapply wp_pbind; [exact Hb |]. intros r own [-> Hr].
  eapply wp_pbind with (Q' := fun _ own => own = []); [|by intros _ own ->].
  apply wp_step. intros n a w rest _ [Hl Hp]. eexists _, _, []. split; [done |]. split; [|done].
  destruct Hl as [[_ Ht]|[_ Ht]]; [|done]. injection Ht as ->. split; [|done]. right. by destruct (is_crash r).
Qed.

(** ** The operations *)
Lemma keeps_set p n d : p ∉ protected -> keeps d (set_node p n d).
Proof. intros Hp q Hq. simpl. rewrite lookup_insert_ne; [done | congruence]. Qed.

Lemma keeps_refl d : keeps d d.
Proof. done. Qed.
Lemma keeps_trans d1 d2 d3 : keeps d1 d2 -> keeps d2 d3 -> keeps d1 d3.
Proof. intros H1 H2 p Hp. by rewrite H2, H1. Qed.

Lemma short_unprotected p : (length p <= 3)%nat -> p ∉ protected.
Proof. intros Hl Hp. apply protected_files in Hp. lia. Qed.

Lemma keeps_make_dirs ps d : (forall p, p ∈ ps -> p ∉ protected) -> keeps d (snd (make_dirs ps d)).
Proof.
  revert d. induction ps as [|p ps IH]; intros d Hps; simpl; [apply keeps_refl |].
  assert (forall q, q ∈ ps -> q ∉ protected) by (intros; apply Hps; by right).
  destruct (tree d !! p) as [[|i c]|]; [by apply IH | apply keeps_refl |].
  eapply keeps_trans; [|by apply IH]. apply keeps_set, Hps. by left.
Qed.

Lemma safe_create_directories p own : (length p <= 3)%nat ->
  safe (create_directories p) own (holding own anything).
Proof.
  intros Hl. assert (Hps : forall q, q ∈ rev (ancestors p) -> q ∉ protected).
  { intros q Hq. apply short_unprotected. apply list_elem_of_In, in_rev, list_elem_of_In in Hq. unfold ancestors in Hq. revert p q Hl Hq.
    intros p. generalize (length p) at 2. intros n. revert p. induction n as [|n IH]; intros p q Hl Hq; simpl in Hq;
      [by apply elem_of_nil in Hq |]. apply elem_of_cons in Hq as [->|Hq]; [done |]. eapply IH; [|done].
    rewrite length_parent. lia. }
  apply safe_io.
  - intros n d. apply keeps_make_dirs. intros q Hq. apply Hps. apply elem_of_take in Hq as (i & Hi & _).
    by eapply list_elem_of_lookup_2.
  - intros a d. split; [by apply keeps_make_dirs | done].
Qed.

Definition handle_of (p : list str) (h : Handle) : Prop := h_path h = p.

Lemma safe_create_file context p own : p ∉ protected ->
  safe (create_file context p) own (holding own (handle_of p)).
Proof.
  intros Hp. apply safe_io; [intros; apply keeps_refl |]. intros _ d. unfold file_create.
  destruct (tree d !! p) as [[|i c]|].
  - split; [apply keeps_refl | done].
  - split; [by apply keeps_set |]. by intros h [= <-].
  - destruct (is_dir (parent p) d); (split; [|by intros h [= <-]]); [|apply keeps_refl].
    intros q Hq. simpl. rewrite lookup_insert_ne; [done | congruence].
Qed.

Lemma keeps_append p h bs d : p ∉ protected -> handle_of p h -> keeps d (append h bs d).
Proof.
  unfold handle_of. intros Hp <-. unfold append. destruct (tree d !! h_path h) as [[|i c]|]; try apply keeps_refl.
  case_decide; [by apply keeps_set | apply keeps_refl].
Qed.

Lemma safe_write_all context p h bs own : p ∉ protected -> handle_of p h ->
  safe (write_all context h bs) own (holding own anything).
Proof.
  intros Hp Hh. apply safe_io; [intros n d; by eapply keeps_append |].
  intros a d. split; [by eapply keeps_append | done].
Qed.

(** Reading, and anything else that leaves the disk alone. *)
Lemma safe_reading {A} context (f : StoreAnswer -> Disk -> IoResult A) own :
  (forall a d, snd (f a d) = d) -> safe (io context unharmed f) own (holding own anything).
Proof. intros H. apply safe_io; [intros; apply keeps_refl |]. intros a d. rewrite H. split; [apply keeps_refl | done]. Qed.

Lemma safe_count f own : safe (count f) own (holding own anything).
Proof.
  apply safe_step. intros a w. destruct (f (filesystem_usage w)) as [u|e|c];
    (eexists _, _; split_and!; [done | done | apply keeps_refl | done]).
Qed.

Lemma safe_remove_file context p own : p ∉ protected ->
  safe (io context unharmed (fun _ => remove_file p)) own (holding own anything).
Proof.
  intros Hp. apply safe_io; [intros; apply keeps_refl |]. intros _ d. split; [|done]. unfold remove_file.
  destruct (tree d !! p) as [[|i c]|]; try apply keeps_refl.
  intros q Hq. simpl. rewrite lookup_delete_ne; [done | congruence].
Qed.

Lemma safe_try_remove_dir p own : p ∉ protected -> safe (try_remove_dir p) own (fun _ own' => own' = own /\ True).
Proof.
  intros Hp. apply safe_step. intros a w. destruct (fault a); [eexists _, _; split_and!; [done | done | apply keeps_refl | done] |].
  unfold remove_dir. destruct (tree (disk w) !! p) as [[|i c]|]; [destruct (has_children p (disk w)) | |];
    (eexists _, _; split_and!; [done | done | | done]); try apply keeps_refl.
  intros q Hq. simpl. rewrite lookup_delete_ne; [done | congruence].
Qed.

Lemma safe_file_len context p own :
  safe (io context unharmed (fun a => file_len (dir_size a) p)) own (holding own anything).
Proof. apply safe_reading. intros a d. unfold file_len. by repeat case_match. Qed.

Lemma safe_open_file context p own : safe (open_file context p) own (holding own anything).
Proof. apply safe_reading. intros a d. unfold file_open. by repeat case_match. Qed.

Lemma safe_exists p own : safe (exists_ p) own (fun _ own' => own' = own).
Proof. eapply wp_mono; [apply (safe_step _ _ anything); intros; by eexists _, _ | by intros ? ? [-> _]]. Qed.

(** ** The calls *)
Create HintDb safe_ops.
#[local] Hint Resolve safe_create_directories safe_create_file safe_write_all safe_reading safe_count
  safe_remove_file safe_try_remove_dir safe_file_len safe_open_file : safe_ops.

(** The image a call writes to. *)
Definition target (call : StoreCall) : option ComponentName :=
  match call with PullImage _ name _ | RemoveImage name => Some name | _ => None end.

Definition clear (name : ComponentName) : Prop := Forall (fun p => p ∉ protected) (files_of name).

Lemma clear_container name : clear name -> container_path name ∉ protected.
Proof. by intros [H _]%Forall_cons. Qed.
Lemma clear_image_spec name : clear name -> image_spec_path name ∉ protected.
Proof. by intros [_ [H _]%Forall_cons]%Forall_cons. Qed.
#[local] Hint Resolve clear_container clear_image_spec : safe_ops.

(** Each [ok!] in turn. *)
Ltac each := repeat (eapply safe_then; [by eauto with safe_ops | intros ? ?]).

Lemma safe_new_inodes name own : safe (new_inodes name) own (fun _ own' => own' = own).
Proof.
  unfold new_inodes. repeat (eapply wp_pbind; [apply safe_exists |]; intros [] ? ->; try done).
Qed.

Lemma safe_pull_locked name component metadata image_spec : clear name ->
  safe (pull_locked overflow_checks name component metadata image_spec) [tt] (holding [tt] anything).
Proof.
  intros Hc. unfold pull_locked. eapply wp_pbind; [apply safe_new_inodes |]. intros [[n1 n2] n3] own ->.
  assert (length (component_path name) <= 3)%nat by done. each. by eauto with safe_ops.
Qed.

Lemma safe_remove_directories ps : (forall p, p ∈ ps -> p ∉ protected) ->
  safe (remove_directories overflow_checks ps) [tt] (holding [tt] anything).
Proof.
  induction ps as [|p ps IH]; intros Hps; [done |]. cbn [remove_directories].
  eapply wp_pbind; [apply safe_try_remove_dir, Hps; by left |]. intros [] own [-> _]; [|done].
  each. apply IH. intros q Hq. apply Hps. by right.
Qed.

Lemma safe_remove_locked name : clear name -> safe (remove_locked overflow_checks name) [tt] (holding [tt] anything).
Proof.
  intros Hc. unfold remove_locked. each. apply safe_remove_directories. intros p Hp. apply short_unprotected.
  change (p ∈ [component_path name; parent (component_path name); parent (parent (component_path name))]) in Hp.
  rewrite !elem_of_cons in Hp. destruct Hp as [->|[->|[->|Hp%elem_of_nil]]]; simpl; (done || lia).
Qed.

Lemma safe_read context f own : (forall d, snd (f d) = d) -> safe (read context f) own (holding own anything).
Proof. intros H. unfold read. by apply safe_reading. Qed.

Lemma read_exact_same h o n d : snd (read_exact h o n d) = d.
Proof. unfold read_exact. by case_match. Qed.
#[local] Hint Resolve safe_read read_exact_same : safe_ops.

Lemma safe_blocking {A} (p : sop (outcome StoreError A)) own :
  safe p own (holding own anything) -> safe (spawn_blocking p) own (holding own anything).
Proof. intros Hp. unfold spawn_blocking. eapply wp_pbind; [exact Hp |]. by intros [x|e|[]] own' [-> _]. Qed.

Lemma safe_http url own : safe (http_get url) own (fun _ own' => own' = own /\ True).
Proof. apply safe_step. intros a w. by eexists _, _. Qed.

Lemma safe_fetch_component url own : safe (fetch_component url) own (holding own anything).
Proof.
  unfold fetch_component, fetch_blob. eapply wp_pbind with (Q' := fun _ own' => own' = own).
  - eapply wp_pbind; [apply safe_http |]. by intros r own' [-> _].
  - intros r own' ->. split; [done |]. by case_match.
Qed.

Lemma safe_fetch_metadata url own : safe (fetch_metadata url) own (holding own anything).
Proof.
  unfold fetch_metadata, fetch_blob. eapply wp_pbind with (Q' := fun _ own' => own' = own).
  - eapply wp_pbind; [apply safe_http |]. by intros r own' [-> _].
  - intros r own' ->. split; [done |]. by case_match.
Qed.

Lemma safe_fetch registry name own : safe (fetch insecure_registries registry name) own (holding own anything).
Proof.
  unfold fetch. eapply wp_pbind; [apply safe_http |]. intros [|status body] own' [-> _]; [done |].
  destruct (status =? HTTP_OK); [|done]. destruct (body ≫= decode_manifest) as [[|d0 [|d1 [|]]]|]; try done.
  eapply wp_pbind; [apply safe_fetch_component |]. intros r own' [-> _].
  eapply wp_pbind; [apply safe_fetch_metadata |]. intros r' own' [-> _]. split; [done |]. by case_match.
Qed.

Lemma safe_program call : (forall name, target call = Some name -> clear name) ->
  safe (program call) [] (fun _ own => own = []).
Proof.
  intros Hc. assert (Hret : forall A (p : sop (outcome StoreError A)) (k : outcome StoreError A -> StoreReply),
    safe p [] (holding [] anything) -> safe (pbind p (fun r => Ret (k r))) [] (fun _ own => own = [])).
  { intros A p k Hp. eapply wp_pbind; [exact Hp |]. by intros r own [-> _]. }
  destruct call as [registry name image_spec|name|name|name|]; apply Hret.
  - unfold pull. eapply safe_then; [apply safe_fetch |]. intros container _.
    eapply safe_then with (R := anything); [split; [done |]; by case_match |]. intros bs _.
    apply safe_locked, safe_pull_locked. by apply Hc.
  - unfold get. eapply safe_then with (R := anything).
    + apply safe_blocking. unfold read_container. each. case_match; [done |]. each. done.
    + intros [] _. split; [done |]. by case_match.
  - unfold get_image. eapply safe_then with (R := anything).
    + apply safe_blocking. each. done.
    + intros [] _. split; [done |]. by case_match.
  - apply safe_locked, safe_remove_locked. by apply Hc.
  - apply safe_locked. apply safe_step. intros a w. by eexists _, _.
Qed.

(** ** How long a call takes *)
Ltac count_steps := repeat (exact I || intros ? || (progress simpl) || case_match).

Lemma pull_steps registry name image_spec : steps_within 24 (pull insecure_registries overflow_checks registry name image_spec).
Proof.
  unfold pull, and_then. apply (steps_within_pbind 3 21); [unfold fetch; count_steps |].
  intros [container|e|c]; [|exact I..]. apply (steps_within_pbind 0 21); [exact I |].
  intros [bs|e|c]; [|exact I..]. count_steps.
Qed.

Lemma store_program_steps call : steps_within 24 (program call).
Proof.
  destruct call; unfold store_program; [apply (steps_within_pbind 24 0); [apply pull_steps | done] | count_steps..].
Qed.

(** ** Runs *)
Lemma run_safe es w (c : Conf) :
  (forall call name, Invoke call ∈ es -> target call = Some name -> clear name) -> mutex w <> Locked ->
  (forall p, p ∈ protected -> tree (disk w) !! p = contents p) ->
  exec program nothing_happens es (mkConf w []) = Some c ->
  exists owns, Forall2 (fun p own => safe p own (fun _ own => own = [])) (threads c) owns
    /\ Safe (length es) (world c) (concat owns).
Proof.
  intros Hes Hm Hw Hrun. set (restricted call := match target call with
    | Some name => if decide (clear name) then program call else Ret (GotUsage (Failed LockPoisoned))
    | None => program call end).
  rewrite (exec_same_program _ restricted) in Hrun.
  2: { intros call Hc. unfold restricted. destruct (target call) as [name|] eqn:Et; [|done]. by rewrite decide_True by eauto. }
  change (conf_ok Safe (fun _ => True) waits (fun _ own => own = []) (length es) c).
  change (length es) with (0 + length es)%nat.
  eapply (exec_ok restricted nothing_happens Safe (fun _ => True) waits); try exact Hrun; try done.
  - apply Safe_perm.
  - intros call. unfold restricted. destruct (target call) as [name|] eqn:Et.
    + case_decide; [|done]. apply safe_program. intros name' E. by simplify_eq.
    + apply safe_program. congruence.
  - exists []. split; [constructor |]. split; [right; done | done].
Qed.

End Interleaved.

Section Theorems.
Context {Component Metadata : Type} {C : ContainerCodec Component Metadata}.
Context (insecure_registries : list str) (overflow_checks : bool).
Abbreviation program := (store_program (C := C) insecure_registries overflow_checks).

(** C15. Operations on one image leave the others alone: however pulls, removals and reads
    interleave, and whichever of their I/O operations fail, the files of an image that none of
    them pulls or removes are what they were at the start. *)
Theorem images_isolated name es w c
    (Hrun : exec program nothing_happens es (mkConf w []) = Some c) (Hfree : mutex w <> Locked)
    (Hname : domain_wf (s_domain (c_server name)))
    (Hothers : forall call other, Invoke call ∈ es -> target call = Some other ->
                 domain_wf (s_domain (c_server other)) /\ other <> name) :
  tree (disk (world c)) !! container_path name = tree (disk w) !! container_path name
  /\ tree (disk (world c)) !! image_spec_path name = tree (disk w) !! image_spec_path name.
Proof.
  destruct (run_safe insecure_registries overflow_checks (files_of name) (fun p => tree (disk w) !! p)
    (fun p Hp => proj1 (files_of_length name p Hp)) es w c) as (_ & _ & _ & Hp); try done.
  - intros call other Hc Ht. apply Forall_forall. intros p [_ Hp]%files_of_length [_ Hp']%files_of_length.
    destruct (Hothers call other Hc Ht) as [Hwf Hne]. apply Hne, component_path_inj; [done | done | congruence].
  - split; apply Hp; [by left | right; by left].
Qed.

(** C16. Nothing deadlocks: a call on the store takes at most 24 steps, and, as long as a call
    has not returned, one of them can take its next step, whatever has failed, and whether the
    lock is free, held or poisoned. *)
Theorem store_never_deadlocks es w c
    (Hrun : exec program nothing_happens es (mkConf w []) = Some c) (Hfree : mutex w <> Locked) :
  (schedules es <= 24 * invokes es)%nat
  /\ ((forall p, p ∈ threads c -> exists r, p = Ret r)
      \/ exists i, forall a, is_Some (exec_event program nothing_happens (Schedule i a) c)).
Proof.
  split.
  { destruct (exec_steps program nothing_happens 24 es (mkConf w []) c []) as (ns & _ & H); [apply store_program_steps | constructor | done |].
    simpl in H. lia. }
  destruct (run_safe insecure_registries overflow_checks [] (fun _ => None) (fun p Hp => match not_elem_of_nil p Hp with end)
    es w c) as (owns & HF & HS); [|done|by intros ? ?%elem_of_nil|done|].
  { intros call name _ _. unfold clear. apply Forall_forall. intros p _. apply not_elem_of_nil. }
  assert (Hstep : forall i own B f (k : B -> prog ContainerStore StoreAnswer (@StoreReply Component Metadata)),
    threads c !! i = Some (Step f k) -> owns !! i = Some own ->
    (forall a, is_Some (exec_event program nothing_happens (Schedule i a) c)) \/ waits (world c) own).
  { intros i own B f k Hi Ho. destruct (decide (own = [] /\ mutex (world c) = Locked)); [by right | left]. intros a.
    by destruct (owner_step program nothing_happens (Safe [] (fun _ => None)) (fun _ => True) waits
      (fun _ own => own = []) (Safe_perm _ _) _ c owns i own a B f k I HF HS Hi Ho). }
  destruct HS as [[[Hl Ht]|[Hl Ht]] _].
  - right. assert (Htt : tt ∈ concat owns) by (rewrite Ht; by left).
    apply list_elem_of_In, in_concat in Htt as (own & Hown & Hin). apply list_elem_of_In in Hin.
    apply list_elem_of_In, list_elem_of_lookup in Hown as [i Ho].
    destruct (Forall2_lookup_r _ _ _ _ _ HF Ho) as (p & Hi & Hp). exists i.
    destruct p as [r|B f k]; [simpl in Hp; subst own; by apply elem_of_nil in Hin |].
    destruct (Hstep i own B f k Hi Ho) as [H|[-> _]]; [exact H | by apply elem_of_nil in Hin].
  - destruct (all_returned (threads c)) as [H|(i & B & f & k & Hi)]; [by left | right]. exists i.
    destruct (Forall2_lookup_l _ _ _ _ _ HF Hi) as (own & Ho & _).
    by destruct (Hstep i own B f k Hi Ho) as [H|[_ H]].
Qed.

End Theorems.

(** ** Runs on concrete formats *)
Section Runs.

(** A component is serialized with a mark at its end, without which it is not one. *)
Definition example_deserialize (bs : list byte) : outcome unit (list byte) :=
  match rev bs with x00 :: component => Done (rev component) | _ => Crash UndefinedBehaviour end.

Fixpoint bits_of (p : positive) : list byte :=
  match p with xH => [] | xO p => x00 :: bits_of p | xI p => x01 :: bits_of p end.
Fixpoint of_bits (bs : list byte) : positive :=
  match bs with [] => xH | x00 :: bs => xO (of_bits bs) | _ :: bs => xI (of_bits bs) end.

Definition spec_fields (i : ImageSpec) := (image i, image_annotations i, user_specified_image i, runtime_handler i).
#[local] Instance ImageSpec_countable : Countable ImageSpec.
Proof. apply (inj_countable' spec_fields (fun '(a, b, c, d) => mkImageSpec a b c d)). by intros []. Defined.

(** Each byte of a manifest is the digest of a layer. *)
#[local] Instance example_codec : ContainerCodec (list byte) (list byte) := {|
  compile := Some;
  serialize c := Some (c ++ [x00]);
  deserialize := example_deserialize;
  encode_metadata m := m;
  decode_metadata := Some;
  encode_image_spec i := bits_of (countable.encode i);
  decode_image_spec bs := countable.decode (of_bits bs);
  decode_manifest bs := Some ((fun b => [b]) <$> bs);
|}.

Lemma of_bits_of p : of_bits (bits_of p) = p.
Proof. induction p; simpl; congruence. Qed.

#[local] Instance example_laws : ContainerCodecLaws (list byte) (list byte).
Proof.
  constructor; simpl.
  - intros c bs [= <-]. unfold example_deserialize. by rewrite rev_unit, rev_involutive.
  - done.
  - intros i. by rewrite of_bits_of, decode_encode.
Qed.

(** A registry that serves one component, with metadata. *)
Definition registry_of (component metadata : list byte) (url : str) : HttpResponse :=
  Responded 200 (Some (match last url with
                       | Some "1"%byte => component
                       | Some "2"%byte => metadata
                       | _ => lit "12"
                       end)).

Definition small : str -> HttpResponse := registry_of (lit "ab") (lit "meta").
Definition large : str -> HttpResponse := registry_of (lit "abcdefgh") (lit "metadata").

Definition an_image : ComponentName :=
  mkComponentName (mkServerName (DomainUuid_new (lit "0123456789abcdef")) (lit "server")) (lit "1.0.0").
Definition another_image : ComponentName :=
  mkComponentName (mkServerName (DomainUuid_new (lit "0123456789abcdef")) (lit "server")) (lit "2.0.0").
Definition a_spec : ImageSpec := mkImageSpec "i" ∅ "" "".

Abbreviation program := (store_program (C := example_codec) [] true).
Abbreviation Event := (Event (Answer := StoreAnswer) (Call := StoreCall) (Happening := Empty_set)).
Abbreviation start := (mkConf (R := @StoreReply (list byte) (list byte)) (ContainerStore_new empty_disk) []).
Definition steps (thread n : nat) (network : str -> HttpResponse) : list Event :=
  replicate n (Schedule thread (calm network)).

(** [get] reads the length of the old component, and then the contents of the new one. *)
Definition race : list Event :=
  Invoke (PullImage (lit "registry") an_image a_spec) :: steps 0 24 small
  ++ Invoke (GetContainer an_image) :: steps 1 2 small
  ++ Invoke (PullImage (lit "registry") an_image a_spec) :: steps 2 24 large
  ++ steps 1 2 large.


(** *** Witnesses *)
Lemma demo_domain_wf : domain_wf (DomainUuid_new (lit "0123456789abcdef")).
Proof. split; [done | apply (bool_decide_unpack _); vm_compute; exact I]. Qed.

Definition none_used : FilesystemUsage := mkUsage 0 0.

Lemma pull_then_get_witness :
  exists w, run_with (calm small) (get (C := example_codec) an_image) w
      = Some (Done (mkContainer (lit "ab") (lit "meta")), w).
Proof.
  destruct (pull_then_get (C := example_codec) [] true small (lit "registry") an_image a_spec empty_disk none_used
    (mkContainer (lit "ab") (lit "meta")) (lit "ab" ++ [x00])) as (w & _ & H & _);
    [exact demo_domain_wf | apply sound_empty | vm_compute; reflexivity | reflexivity | vm_compute; discriminate
    | vm_compute; reflexivity | vm_compute; reflexivity |].
  exists w. exact H.
Defined.

(** Pulled twice and removed: what the first pull wrote stays counted. *)
Definition pulled_twice : list ((str -> HttpResponse) * StoreCall) :=
  [(small, PullImage (lit "registry") an_image a_spec); (large, PullImage (lit "registry") an_image a_spec);
   (large, RemoveImage an_image)].

Lemma usage_counts_witness :
  exists w, run_calls (C := example_codec) [] true pulled_twice (ContainerStore_new empty_disk) = Some w
    /\ inodes (filesystem_usage w) = stored_inodes (disk w) /\ stored_inodes (disk w) = 0
    /\ bytes (filesystem_usage w) - stored_bytes (disk w) > 0.
Proof.
  destruct (usage_counts (C := example_codec) [] true pulled_twice) as (w & Hrun & _ & _ & Hi & Hb);
    [vm_compute; reflexivity | vm_compute; reflexivity |].
  exists w. split_and!; [exact Hrun | exact Hi | | rewrite Hb].
  - assert (H : match run_calls (C := example_codec) [] true pulled_twice (ContainerStore_new empty_disk) with
                | Some w => stored_inodes (disk w) = 0 | None => False end) by (vm_compute; reflexivity).
    by rewrite Hrun in H.
  - assert (all_overwritten (C := example_codec) [] true pulled_twice (ContainerStore_new empty_disk) > 0)
      by (vm_compute; reflexivity). lia.
Defined.

(** What an earlier run left: one image. *)
Definition earlier : Disk :=
  match run_calls (C := example_codec) [] true [(small, PullImage (lit "registry") an_image a_spec)]
          (ContainerStore_new empty_disk) with
  | Some w => disk w
  | None => empty_disk
  end.

Lemma earlier_sound : sound_but file_names [] (tree earlier).
Proof.
  destruct (calls_keep (C := example_codec) [] true [(small, PullImage (lit "registry") an_image a_spec)] 0
    (ContainerStore_new empty_disk)) as (w & Hrun & [Hs _ _ _ _]); [apply start_accounted | vm_compute; reflexivity
    | vm_compute; reflexivity |].
  unfold earlier. by rewrite Hrun.
Qed.

Definition two_files (x y : option Node) : bool :=
  match x, y with Some (File _ (b :: c)), Some (File _ s) => len (b :: c) + len s <? 2 ^ 64 | _, _ => false end.

Lemma two_files_spec x y : two_files x y = true ->
  exists i c j s, x = Some (File i c) /\ y = Some (File j s) /\ c <> [] /\ len c + len s < 2 ^ 64.
Proof.
  destruct x as [[|i [|b c]]|]; try done. destruct y as [[|j s]|]; try done.
  intros H%Z.ltb_lt. exists i, (b :: c), j, s. by split_and!.
Qed.

Lemma earlier_files : exists i c j s,
  tree earlier !! container_path an_image = Some (File i c) /\ tree earlier !! image_spec_path an_image = Some (File j s)
  /\ c <> [] /\ len c + len s < 2 ^ 64.
Proof. apply two_files_spec. vm_compute. reflexivity. Qed.

Lemma earlier_images_uncounted_witness :
  exists w, run_with (calm small) (remove true an_image) (ContainerStore_new earlier) = Some (Failed JoinFailed, w)
    /\ mutex w = Poisoned.
Proof.
  destruct earlier_files as (i & c & j & s & Hc & Hs & Hne & Hlen).
  destruct (earlier_images_uncounted true small earlier an_image i c j s earlier_sound Hc Hs Hne Hlen)
    as (r & w & Hrun & _ & -> & Hm & _); [vm_compute; reflexivity |].
  exists w. split; [exact Hrun | exact Hm].
Defined.

(** Another image is pulled, with a fault in the middle, and read. *)
Definition failing : StoreAnswer := mkStoreAnswer (Some OtherKind) 3 0 small.
Definition busy : list Event :=
  Invoke (PullImage (lit "registry") another_image a_spec) :: steps 0 16 small ++ Schedule 0 failing :: steps 0 1 small
  ++ Invoke (GetContainer another_image) :: steps 1 2 small ++ Invoke (RemoveImage another_image) :: steps 2 3 small.

Lemma busy_runs : exists c, exec program nothing_happens busy (mkConf (ContainerStore_new earlier) []) = Some c.
Proof.
  assert (H : match exec program nothing_happens busy (mkConf (ContainerStore_new earlier) []) with
              | Some _ => True | None => False end) by (vm_compute; exact I).
  destruct (exec program nothing_happens busy (mkConf (ContainerStore_new earlier) [])); [eauto | done].
Qed.

Definition elsewhere (e : Event) : bool :=
  match e with
  | Invoke call =>
      match target call with
      | Some other => bool_decide (c_server other = c_server an_image /\ other <> an_image)
      | None => true
      end
  | _ => true
  end.

Lemma busy_elsewhere call other : Invoke call ∈ busy -> target call = Some other ->
  domain_wf (s_domain (c_server other)) /\ other <> an_image.
Proof.
  intros Hin Ht. assert (H : forallb elsewhere busy = true) by (vm_compute; reflexivity).
  rewrite forallb_forall in H. apply list_elem_of_In, H in Hin. simpl in Hin. rewrite Ht in Hin.
  apply bool_decide_eq_true in Hin as [-> Hne]. split; [exact demo_domain_wf | exact Hne].
Qed.

Lemma images_isolated_witness :
  exists c, exec program nothing_happens busy (mkConf (ContainerStore_new earlier) []) = Some c
    /\ tree (disk (world c)) !! container_path an_image = tree earlier !! container_path an_image.
Proof.
  destruct busy_runs as [c Hrun]. exists c. split; [exact Hrun |].
  apply (images_isolated [] true an_image busy (ContainerStore_new earlier) c Hrun);
    [discriminate | exact demo_domain_wf | apply busy_elsewhere].
Defined.

Lemma store_never_deadlocks_witness :
  exists c, exec program nothing_happens busy (mkConf (ContainerStore_new earlier) []) = Some c
    /\ exists i, forall a, is_Some (exec_event program nothing_happens (Schedule i a) c).
Proof.
  assert (H : exists c, exec program nothing_happens busy (mkConf (ContainerStore_new earlier) []) = Some c
      /\ match threads c !! 2%nat with Some (Step _ _) => True | _ => False end).
  { destruct busy_runs as [c Hrun]. exists c. split; [exact Hrun |].
    assert (H : match exec program nothing_happens busy (mkConf (ContainerStore_new earlier) []) with
                | Some c => match threads c !! 2%nat with Some (Step _ _) => True | _ => False end
                | None => False end) by (vm_compute; exact I).
    by rewrite Hrun in H. }
  destruct H as (c & Hrun & Ht). exists c. split; [exact Hrun |].
  destruct (store_never_deadlocks [] true busy (ContainerStore_new earlier) c Hrun) as [_ [H|H]];
    [discriminate | | exact H].
  clear Hrun. destruct (threads c !! 2%nat) as [p|] eqn:E; [|destruct Ht].
  destruct (H p) as [r ->]; [by eapply list_elem_of_lookup_2 | destruct Ht].
Defined.

End Runs.
