(* ===== verification/Images.v ===== *)
(** * The CRI image service

    Models [src/runtime/cri/image.rs]: the handlers of [ProxyingImageService], each a [prog]
    on the container store and a record of what the downstream runtime was asked.  An image
    of Vimana is kept in the store; everything else is forwarded. *)

From S2P Require Import Prelude Regexp Names Concurrent State Cri.
From S2P Require Import Files Containers.

#[local] Open Scope Z_scope.

(** ** Image IDs *)
Definition not_char (c : byte) : re := Star (Cls (fun b => negb (bool_decide (b = c)))).

(** Four groups between a slash, a slash and a colon: two without slashes, one without
    colons, and one of anything but newlines (the dot).  The delimiters are ASCII, so the
    classes may be read as classes of bytes. *)
Definition IMAGE_ID_RE : list part :=
  [Group (not_char "/"%byte); Plain (chr "/"); Group (not_char "/"%byte); Plain (chr "/");
   Group (not_char ":"%byte); Plain (chr ":"); Group (not_char x0a)].

Section Ids.
Context {R : RegexCrate} {RC : RegexCaptures}.

Inductive ImageIdError := MalformedImageId | InvalidName (e : NameError).

Definition registry_and_component_from_image_spec (image_id : str) : outcome ImageIdError (str * ComponentName) :=
  match captures IMAGE_ID_RE image_id with
  | Some [registry; domain; server; version] =>
      let? domain := map_err InvalidName (DomainUuid_parse domain) in
      let? name := map_err InvalidName (ComponentName_new domain server version) in
      Done (registry, name)
  | Some _ => Crash Panicked                   (** [&image_id[4]] *)
  | None => Failed MalformedImageId
  end.

End Ids.

(** ** Messages *)
Inductive ImageError :=
| InvalidImageId (id : string)
| InvalidSandboxLabels (labels : gmap string string)
| PodLabelMismatch (from_image from_labels : ComponentName)
| StoreFailed (e : StoreError)
| ErrorPulling (e : StoreError)
| ErrorRemoving (e : StoreError).

(** [tonic::Status] *)
Inductive Status :=
| Internal (e : ImageError)
| Downstream (code : Z) (message : string).

Inductive ImageRpc := RpcListImages | RpcImageStatus | RpcPullImage | RpcRemoveImage | RpcImageFsInfo.

Inductive ImageRequest :=
| ListImages (filter : option (option ImageSpec))
| ImageStatus (image : option ImageSpec)
| PullImageFor (image : option ImageSpec) (sandbox_config : option (gmap string string))  (** its labels *)
| RemoveImageOf (image : option ImageSpec)
| ImageFsInfo.

(** [v1::FilesystemUsage] and [v1::ImageFsInfoResponse] *)
Record FilesystemUsageInfo := mkUsageInfo {
  timestamp : Z; mountpoint : option str; used_bytes : option Z; inodes_used : option Z }.
Record ImageFsInfoResponse := mkFsInfo {
  image_filesystems : list FilesystemUsageInfo; container_filesystems : list FilesystemUsageInfo }.

Section Service.
Context {R : RegexCrate} {RC : RegexCaptures}.
Context {Component Metadata : Type} {C : ContainerCodec Component Metadata}.
(** The replies the service does not look into; how the store was made, and the build. *)
Context {Forwarded : Type} (root : str) (insecure_registries : list str) (overflow_checks : bool).

Inductive ImageResponse :=
| ReForwarded (r : Forwarded)
| ReStatus (image : option Image)
| RePulled (image_ref : str)
| ReRemoved
| ReFsInfo (r : ImageFsInfoResponse).

Record ProxyingImageService := mkImageService {
  containers : ContainerStore;
  oci_image : list ImageRpc;                   (** what it was asked *)
}.

Record ImageAnswer := mkImageAnswer {
  store_answer : StoreAnswer;
  image_now : Z;
  o_reply : Status + Forwarded;
  o_fs_info : Status + ImageFsInfoResponse;
}.

Abbreviation iop := (prog ProxyingImageService ImageAnswer).
Abbreviation TonicResult := (outcome Status) (only parsing).

Definition set_containers (s : ContainerStore) (w : ProxyingImageService) : ProxyingImageService :=
  mkImageService s (oci_image w).

(** An operation of the store. *)
Definition in_store {A} (p : prog ContainerStore StoreAnswer A) : iop A := lift containers set_containers store_answer p.

(** [self.oci_image.lock().await.call(request).await] *)
Definition ask {A} (rpc : ImageRpc) (reply : ImageAnswer -> Status + A) : iop (TonicResult A) :=
  atomic (fun a w =>
    let w := mkImageService (containers w) (oci_image w ++ [rpc]) in
    match reply a with
    | inl e => Some (Failed e, w)
    | inr r => Some (Done r, w)
    end).

Definition forward (rpc : ImageRpc) : iop (TonicResult ImageResponse) :=
  (do! r <- ask rpc o_reply; Ret (let? r := r in Done (ReForwarded r)))%prog.

(** [request.image] names a handler that is not Vimana's. *)
Definition other_handler (image : option ImageSpec) : bool :=
  match image with
  | Some image_spec => negb (bool_decide (runtime_handler image_spec = CONTAINER_RUNTIME_HANDLER))
  | None => false
  end.

Definition image_named (id : string) : TonicResult (str * ComponentName) :=
  map_err (fun _ => Internal (InvalidImageId id)) (registry_and_component_from_image_spec (lit id)).

Definition list_images (filter : option (option ImageSpec)) : iop (TonicResult ImageResponse) :=
  let image_spec := default ImageSpec_default (default None filter) in
  let handler := runtime_handler image_spec in
  if negb (bool_decide (handler = "TODO-this-should-be-something-else-but-what?"%string))
  then forward RpcListImages
  else Ret (Crash Panicked).

(** [error.downcast_ref::<IoError>().map(IoError::kind)] *)
Definition io_error_kind (e : StoreError) : option ErrorKind :=
  match e with IoFailed _ kind => Some kind | _ => None end.

Definition image_status (image : option ImageSpec) : iop (TonicResult ImageResponse) :=
  if other_handler image then forward RpcImageStatus
  else
    (let image_spec := default ImageSpec_default image in
     ok! (_, name) <- Ret (image_named (State.image image_spec));
     do! image <- in_store (get_image name);
     Ret (match image with
          | Done image => Done (ReStatus (Some image))
          | Failed error =>
              match io_error_kind error with
              | Some NotFound => Done (ReStatus None)
              | _ => Failed (Internal (StoreFailed error))
              end
          | Crash c => Crash c
          end))%prog.

Definition pull_image (image : option ImageSpec) (sandbox_config : option (gmap string string))
    : iop (TonicResult ImageResponse) :=
  if other_handler image then forward RpcPullImage
  else
    (let image_spec := default ImageSpec_default image in
     ok! (registry, name_from_image) <- Ret (image_named (State.image image_spec));
     let pod_labels := default ∅ sandbox_config in
     ok! name <- Ret (map_err (fun _ => Internal (InvalidSandboxLabels pod_labels)) (component_name_from_labels pod_labels));
     if bool_decide (name_from_image <> name) then Ret (Failed (Internal (PodLabelMismatch name_from_image name)))
     else
       do! r <- in_store (pull insecure_registries overflow_checks registry name image_spec);
       Ret (let? _ := map_err (fun e => Internal (ErrorPulling e)) r in Done (RePulled (ComponentName_display name))))%prog.

Definition remove_image (image : option ImageSpec) : iop (TonicResult ImageResponse) :=
  if other_handler image then forward RpcRemoveImage
  else
    (let image_spec := default ImageSpec_default image in
     ok! (_, name) <- Ret (image_named (State.image image_spec));
     do! r <- in_store (remove overflow_checks name);
     Ret (let? _ := map_err (fun e => Internal (ErrorRemoving e)) r in Done ReRemoved))%prog.

(** The store's usage goes before what the downstream runtime reports. *)
Definition image_fs_info : iop (TonicResult ImageResponse) :=
  (ok! image_fs_info <- ask RpcImageFsInfo o_fs_info;
   do! usage <- in_store get_filesystem_usage;
   ok! usage <- Ret (map_err (fun e => Internal (StoreFailed e)) usage);
   do! timestamp <- atomic (fun a w => Some (image_now a, w));
   Ret (Done (ReFsInfo (mkFsInfo
     (mkUsageInfo timestamp (Some root) (Some (bytes usage)) (Some (inodes usage)) :: image_filesystems image_fs_info)
     (container_filesystems image_fs_info)))))%prog.

Definition serve_image (r : ImageRequest) : iop (TonicResult ImageResponse) :=
  match r with
  | ListImages filter => list_images filter
  | ImageStatus image => image_status image
  | PullImageFor image sandbox_config => pull_image image sandbox_config
  | RemoveImageOf image => remove_image image
  | ImageFsInfo => image_fs_info
  end.

(** [ProxyingImageService::new] *)
Definition ProxyingImageService_new (containers : ContainerStore) : ProxyingImageService :=
  mkImageService containers [].

End Service.
