(* ===== verification/ImagesSpec.v ===== *)
(** * What the image service guarantees

    - An image ID names a registry and a component, and every component has IDs.
    - What Kubelet sees of an image from before it is pulled until after it is removed. *)

From S2P Require Import Prelude Regexp Names NamesSpec Concurrent State Cri.
From S2P Require Import Files FilesSpec Containers ContainersSpec ContainersRuns Images.

#[local] Open Scope Z_scope.
#[local] Arguments DomainUuid_display : simpl never.

(** ** Image IDs *)
Section Ids.
Context {R : RegexCrate} {RL : RegexLaws R} {RC : RegexCaptures} {RCL : RegexCapturesLaws RC}.

(** A registry and a component, the way an image ID writes them. *)
Definition image_id_of (registry : str) (name : ComponentName) : str :=
  registry ++ "/"%byte :: DomainUuid_display (s_domain (c_server name)) ++ "/"%byte
    :: s_server (c_server name) ++ ":"%byte :: c_version name.

Lemma matches_not_char c s : matches (not_char c) s <-> free c s.
Proof.
  unfold not_char, free. rewrite matches_star_cls. unfold is_char.
  split; intros H; (eapply Forall_impl; [exact H |]); intros b; simpl; case_bool_decide; done.
Qed.

Lemma free_split c a a' b b' : free c a -> free c a' -> a ++ c :: b = a' ++ c :: b' -> a = a' /\ b = b'.
Proof.
  unfold free, is_char. intros Ha. revert a'. induction Ha as [|x a Hx _ IH]; intros a' Ha' E.
  - destruct a' as [|y a']; simpl in E; [by simplify_eq |]. injection E as <- _.
    apply Forall_cons in Ha' as [Hc _]. by rewrite bool_decide_eq_true_2 in Hc.
  - destruct a' as [|y a']; simpl in E.
    + injection E as -> _. by rewrite bool_decide_eq_true_2 in Hx.
    + injection E as -> E. apply Forall_cons in Ha' as [_ Ha']. by destruct (IH a' Ha' E) as [-> ->].
Qed.

(** The expression has one way to match. *)
Lemma image_id_splits s segments :
  splits IMAGE_ID_RE segments s <->
  exists r d sv v, segments = [r; ["/"%byte]; d; ["/"%byte]; sv; [":"%byte]; v]
    /\ free "/"%byte r /\ free "/"%byte d /\ free ":"%byte sv /\ free x0a v
    /\ s = r ++ "/"%byte :: d ++ "/"%byte :: sv ++ ":"%byte :: v.
Proof.
  assert (Hslash : forall s, matches (chr "/") s <-> s = ["/"%byte]) by (intros; by apply matches_chr).
  assert (Hcolon : forall s, matches (chr ":") s <-> s = [":"%byte]) by (intros; by apply matches_chr).
  unfold splits, IMAGE_ID_RE. split.
  - intros [HF ->]. repeat (apply Forall2_cons_inv_l in HF as (? & ? & ? & HF & ->)).
    apply Forall2_nil_inv_l in HF as ->. simpl in *.
    repeat match goal with
    | H : matches (not_char _) _ |- _ => apply matches_not_char in H
    | H : matches (chr "/") _ |- _ => apply Hslash in H as ->
    | H : matches (chr ":") _ |- _ => apply Hcolon in H as ->
    end.
    eexists _, _, _, _. split_and!; try done. by rewrite app_nil_r.
  - intros (r & d & sv & v & -> & Hr & Hd & Hs & Hv & ->). split; [|simpl; by rewrite app_nil_r].
    repeat constructor; simpl; first [by apply matches_not_char | by apply Hslash | by apply Hcolon].
Qed.

Lemma captures_image_id s gs :
  captures IMAGE_ID_RE s = Some gs <->
  exists r d sv v, gs = [r; d; sv; v] /\ free "/"%byte r /\ free "/"%byte d /\ free ":"%byte sv /\ free x0a v
    /\ s = r ++ "/"%byte :: d ++ "/"%byte :: sv ++ ":"%byte :: v.
Proof.
  assert (Hsound : forall gs, captures IMAGE_ID_RE s = Some gs ->
    exists r d sv v, gs = [r; d; sv; v] /\ free "/"%byte r /\ free "/"%byte d /\ free ":"%byte sv /\ free x0a v
      /\ s = r ++ "/"%byte :: d ++ "/"%byte :: sv ++ ":"%byte :: v).
  { intros gs' H. apply captures_sound in H as (segments & Hs & ->).
    apply image_id_splits in Hs as (r & d & sv & v & -> & H). by exists r, d, sv, v. }
  split; [apply Hsound |]. intros (r & d & sv & v & -> & Hr & Hd & Hsv & Hv & Hs).
  destruct (captures_complete IMAGE_ID_RE [r; ["/"%byte]; d; ["/"%byte]; sv; [":"%byte]; v] s) as [gs' E].
  { apply image_id_splits. by exists r, d, sv, v. }
  rewrite E. apply Hsound in E as (r' & d' & sv' & v' & -> & Hr' & Hd' & Hsv' & _ & Hs').
  rewrite Hs in Hs'. apply free_split in Hs' as [-> Hs']; [|done..].
  apply free_split in Hs' as [-> Hs']; [|done..]. by apply free_split in Hs' as [-> ->].
Qed.

Lemma image_id_parses id registry name :
  registry_and_component_from_image_spec id = Done (registry, name)
  <-> component_valid name /\ free "/"%byte registry /\ id = image_id_of registry name.
Proof.
  unfold registry_and_component_from_image_spec. split.
  - destruct (captures IMAGE_ID_RE id) as [gs|] eqn:E; [|done].
    apply captures_image_id in E as (r & d & sv & v & -> & Hr & Hd & Hsv & Hv & ->). intros H.
    destruct (DomainUuid_parse d) as [u|e|c] eqn:Eu; simpl in H; [|done|done].
    apply domain_parses in Eu as [Hu ->].
    destruct (ComponentName_new u sv v) as [n|e|c] eqn:En; simpl in H; [|done|done]. injection H as <- <-.
    apply ComponentName_new_done in En as (Hver & Hser & ->). by split_and!.
  - intros ((Hu & Hs & Hv) & Hr & ->).
    rewrite (proj2 (captures_image_id _ [registry; DomainUuid_display (s_domain (c_server name));
      s_server (c_server name); c_version name])).
    + rewrite (proj2 (domain_parses _ _) (conj Hu eq_refl)). simpl.
      rewrite (proj2 (ComponentName_new_done _ _ _ name)); [done |]. split_and!; [done..|]. by destruct name as [[]].
    + eexists _, _, _, _. split_and!; [done | done | by apply domain_free | by apply server_free
        | by apply version_free | done].
Qed.

(** C23. Image IDs and what they name: an ID is accepted exactly if it is written from a
    registry without slashes and a valid component, which are then what it names; so no ID
    names two components, and one that is not accepted is reported, without a panic. *)
Theorem image_id_roundtrip id registry name :
  (registry_and_component_from_image_spec id = Done (registry, name)
   <-> component_valid name /\ free "/"%byte registry /\ id = image_id_of registry name)
  /\ forall c, registry_and_component_from_image_spec id <> Crash c.
Proof.
  split; [apply image_id_parses |]. intros c. unfold registry_and_component_from_image_spec.
  destruct (captures IMAGE_ID_RE id) as [gs|] eqn:E; [|done].
  apply captures_image_id in E as (r & d & sv & v & -> & _).
  destruct (DomainUuid_parse d) as [u|e|c'] eqn:Eu; simpl; [|done|by apply DomainUuid_parse_returns in Eu].
  unfold ComponentName_new, ServerName_new. destruct (is_valid_version v); [|done].
  by destruct (is_valid_server_name sv).
Qed.

End Ids.

(** ** The life of an image *)
Section Service.
Context {R : RegexCrate} {RL : RegexLaws R} {RC : RegexCaptures} {RCL : RegexCapturesLaws RC}.
Context {Component Metadata : Type} {C : ContainerCodec Component Metadata}.
Context {CL : ContainerCodecLaws Component Metadata} {Forwarded : Type}.
Context (root : str) (insecure_registries : list str) (overflow_checks : bool).

Abbreviation serve := (serve_image (C := C) (Forwarded := Forwarded) root insecure_registries overflow_checks).
Abbreviation TonicResult := (outcome Status).

(** A store whose I/O does not fail, and what the downstream runtime and the clock say. *)
Definition obliging (network : str -> HttpResponse) (time : Z) (reply : Status + Forwarded)
    (fs : Status + ImageFsInfoResponse) : ImageAnswer := mkImageAnswer (calm network) time reply fs.

Lemma run_in_store {A} (p : prog ContainerStore StoreAnswer A) network time reply fs w :
  run_with (obliging network time reply fs) (in_store p) w =
    '(r, s) ← run_with (calm network) p (containers w); Some (r, mkImageService s (oci_image w)).
Proof. unfold in_store. by rewrite run_with_lift by (intros; by destruct w0). Qed.

Context (network : str -> HttpResponse) (time : Z) (reply : Status + Forwarded) (fs : Status + ImageFsInfoResponse).
Abbreviation run r w := (run_with (obliging network time reply fs) (serve r) w).

(** A request for an image of Vimana's. *)
Definition vimana_image (i : ImageSpec) (registry : str) (name : ComponentName) : Prop :=
  runtime_handler i = CONTAINER_RUNTIME_HANDLER /\ component_valid name /\ free "/"%byte registry
  /\ lit (State.image i) = image_id_of registry name.

Lemma run_ok {A B} answer (a : A) (k : A -> prog ProxyingImageService ImageAnswer (TonicResult B)) w :
  run_with (A := ImageAnswer (Forwarded := Forwarded)) answer (and_then (Ret (Done a)) k) w = run_with answer (k a) w.
Proof. done. Qed.

Lemma vimana_image_named i registry name : vimana_image i registry name ->
  other_handler (Some i) = false
  /\ image_named (State.image i) = Done (registry, name).
Proof.
  intros (Hh & Hc & Hr & Hi). split; [simpl; by rewrite bool_decide_eq_true_2 |].
  unfold image_named. by rewrite (proj2 (image_id_parses _ registry name)).
Qed.

Lemma run_image_status i registry name d u mx oci : vimana_image i registry name ->
  run (ImageStatus (Some i)) (mkImageService (mkStore d u mx) oci) =
    '(r, s) ← run_with (calm network) (get_image name) (mkStore d u mx);
    Some (match r with
          | Done image => Done (ReStatus (Some image))
          | Failed error =>
              match io_error_kind error with
              | Some Files.NotFound => Done (ReStatus None)
              | _ => Failed (Internal (StoreFailed error))
              end
          | Crash c => Crash c
          end, mkImageService s oci).
Proof.
  intros Hi. destruct (vimana_image_named _ _ _ Hi) as [Ho Hn]. unfold serve_image, image_status.
  rewrite Ho. simpl default. rewrite Hn, run_ok, run_with_pbind, run_in_store.
  simpl containers. by destruct (run_with (calm network) (get_image name) _) as [[r s]|].
Qed.

Lemma run_pull_image i registry name labels s oci : vimana_image i registry name ->
  component_name_from_labels labels = Done name ->
  run (PullImageFor (Some i) (Some labels)) (mkImageService s oci) =
    '(r, s) ← run_with (calm network) (pull insecure_registries overflow_checks registry name i) s;
    Some (let? _ := map_err (fun e => Internal (ErrorPulling e)) r in Done (RePulled (ComponentName_display name)),
          mkImageService s oci).
Proof.
  intros Hi Hl. destruct (vimana_image_named _ _ _ Hi) as [Ho Hn]. unfold serve_image, pull_image.
  rewrite Ho. simpl default. rewrite Hn, run_ok, Hl. simpl map_err.
  rewrite run_ok, bool_decide_eq_false_2 by (intros H; by apply H).
  rewrite run_with_pbind, run_in_store. simpl containers.
  by destruct (run_with (calm network) (pull _ _ _ _ _) _) as [[r s']|].
Qed.

Lemma run_remove_image i registry name s oci : vimana_image i registry name ->
  run (RemoveImageOf (Some i)) (mkImageService s oci) =
    '(r, s) ← run_with (calm network) (remove overflow_checks name) s;
    Some (let? _ := map_err (fun e => Internal (ErrorRemoving e)) r in Done ReRemoved, mkImageService s oci).
Proof.
  intros Hi. destruct (vimana_image_named _ _ _ Hi) as [Ho Hn]. unfold serve_image, remove_image.
  rewrite Ho. simpl default. rewrite Hn, run_ok, run_with_pbind, run_in_store. simpl containers.
  by destruct (run_with (calm network) (remove _ _) _) as [[r s']|].
Qed.

(** C14. What Kubelet sees of an image of Vimana's: it is absent until it is pulled; pulling
    it answers with the name of its component; then its status has the name, the size of its
    file and the specification it was pulled with; removing it succeeds, after which it is
    absent again and the store is as it was before; removing it once more fails.  None of
    this is forwarded to the downstream runtime. *)
Theorem images_managed i registry name labels container bs d u oci
    (Hi : vimana_image i registry name) (Hlabels : component_name_from_labels labels = Done name)
    (Hserved : served insecure_registries network registry name = Done container)
    (Hser : serialize (Containers.component container) = Some bs)
    (Hsound : sound_but file_names [] (tree d)) (Habsent : tree d !! container_path name = None)
    (Hu : total (tree d) <= bytes u) (Hn : Z.of_nat (size (tree d)) <= inodes u)
    (Hbytes : bytes u + 8 + len bs + len (encode_metadata (Containers.metadata container)) + len (encode_image_spec i) < 2 ^ 64)
    (Hinodes : inodes u + 5 < 2 ^ 64) :
  let w0 := mkImageService (mkStore d u Unlocked) oci in
  exists w1 w2,
    run (ImageStatus (Some i)) w0 = Some (Done (ReStatus None), w0)
    /\ run (PullImageFor (Some i) (Some labels)) w0 = Some (Done (RePulled (ComponentName_display name)), w1)
    /\ run (ImageStatus (Some i)) w1 =
         Some (Done (ReStatus (Some (mkImage (ComponentName_display name)
                 (8 + len bs + len (encode_metadata (Containers.metadata container))) (Some i)))), w1)
    /\ run (RemoveImageOf (Some i)) w1 = Some (Done ReRemoved, w2)
    /\ run (ImageStatus (Some i)) w2 = Some (Done (ReStatus None), w2)
    /\ run (RemoveImageOf (Some i)) w2 =
         Some (Failed (Internal (ErrorRemoving (IoFailed GettingContainerMetadata Files.NotFound))), w2)
    /\ tree (disk (containers w2)) = tree d /\ filesystem_usage (containers w2) = u
    /\ oci_image w1 = oci /\ oci_image w2 = oci.
Proof.
  intros w0.
  destruct (pull_and_remove insecure_registries overflow_checks network registry name i d u container bs
    Hsound Habsent Hserved Hser Hu Hn Hbytes Hinodes) as ([d1 u1 m1] & [d2 u2 m2] & Hpull & Hget & Hrem & Ht & Hu2 & Hm2 & Hagain).
  exists (mkImageService (mkStore d1 u1 m1) oci), (mkImageService (mkStore d2 u2 m2) oci). unfold w0.
  rewrite !(run_image_status i registry name) by done.
  rewrite (run_pull_image i registry name labels), Hpull by done.
  rewrite !(run_remove_image i registry name) by done.
  rewrite Hrem, Hagain, Hget, !run_get_image_absent by (simpl in Ht; congruence).
  by split_and!.
Qed.

(** The usage of the store comes first. *)
Lemma fs_info_reports d u oci reported : fs = inr reported ->
  run ImageFsInfo (mkImageService (mkStore d u Unlocked) oci) =
    Some (Done (ReFsInfo (mkFsInfo
            (mkUsageInfo time (Some root) (Some (bytes u)) (Some (inodes u)) :: image_filesystems reported)
            (container_filesystems reported))),
          mkImageService (mkStore d u Unlocked) (oci ++ [RpcImageFsInfo])).
Proof. by intros ->. Qed.

End Service.

(** ** Witnesses *)
Definition demo_image : ImageSpec :=
  mkImageSpec "registry:5000/03132333435363738393162636465666/server:1.0.0" ∅ "" CONTAINER_RUNTIME_HANDLER.

Definition demo_image_labels : gmap string string :=
  list_to_map [(LABEL_DOMAIN_KEY, "03132333435363738393162636465666"); (LABEL_SERVER_KEY, "server");
               (LABEL_VERSION_KEY, "1.0.0")].

Lemma demo_image_named : registry_and_component_from_image_spec (lit (State.image demo_image))
  = Done (lit "registry:5000", an_image).
Proof. vm_compute. reflexivity. Qed.

Lemma image_id_roundtrip_witness :
  component_valid an_image /\ lit (State.image demo_image) = image_id_of (lit "registry:5000") an_image.
Proof.
  destruct (image_id_roundtrip (lit (State.image demo_image)) (lit "registry:5000") an_image) as [H _].
  destruct (proj1 H demo_image_named) as (Hv & _ & Hid). split; [exact Hv | exact Hid].
Defined.

Lemma images_managed_witness :
  exists w1 w2,
    run_with (obliging (Forwarded := unit) small 7 (inr tt) (inr (mkFsInfo [] [])))
      (serve_image (C := example_codec) (lit "/var") [] true (PullImageFor (Some demo_image) (Some demo_image_labels)))
      (mkImageService (ContainerStore_new empty_disk) [])
      = Some (Done (RePulled (ComponentName_display an_image)), w1)
    /\ run_with (obliging (Forwarded := unit) small 7 (inr tt) (inr (mkFsInfo [] [])))
      (serve_image (C := example_codec) (lit "/var") [] true (RemoveImageOf (Some demo_image))) w1
      = Some (Done ReRemoved, w2).
Proof.
  destruct (proj1 (image_id_parses _ _ _) demo_image_named) as (Hv & Hr & Hid).
  destruct (images_managed (C := example_codec) (CL := example_laws) (Forwarded := unit) (lit "/var") [] true small 7 (inr tt)
    (inr (mkFsInfo [] [])) demo_image (lit "registry:5000") an_image demo_image_labels (mkContainer (lit "ab") (lit "meta"))
    (lit "ab" ++ [x00]) empty_disk none_used []) as (w1 & w2 & _ & H1 & _ & H2 & _);
    [split_and!; [reflexivity | exact Hv | exact Hr | exact Hid] | vm_compute; reflexivity | vm_compute; reflexivity
    | reflexivity | apply sound_empty | reflexivity | vm_compute; discriminate | vm_compute; discriminate
    | vm_compute; reflexivity | vm_compute; reflexivity |].
  exists w1, w2. split; [exact H1 | exact H2].
Defined.
