(* ===== verification/Wire.v ===== *)
(** * Component values and the coding metadata

    [Val] is the part of [wasmtime::component::Val] the codec constructs or inspects;
    [Field], [ScalarCoding] and [CompoundCoding] are the messages and enumerations of
    [src/runtime/metadata.proto], from which the codec compiles its encoders and decoders
    (prost represents an enumeration field as a raw [i32] and generates [try_from]). *)

From S2P Require Import Prelude.

(** ** Component values

    An integer carries its value, a float its IEEE bits.  [VOther] stands for the
    constructors the codec neither builds nor matches ([S8], [Char], [Flags], ...). *)
Inductive Val :=
| VBool (b : bool)
| VU8 (z : Z)
| VS32 (z : Z)
| VU32 (z : Z)
| VS64 (z : Z)
| VU64 (z : Z)
| VFloat32 (bits : Z)
| VFloat64 (bits : Z)
| VString (s : string)
| VList (items : list Val)
| VRecord (fields : list (string * Val))
| VTuple (items : list Val)
| VVariant (case : string) (payload : option Val)
| VEnum (case : string)
| VOption (o : option Val)
| VOther.

(** ** Protobuf wire types, with their numbers *)
Inductive WireType :=
| Varint
| SixtyFourBit
| LengthDelimited
| StartGroup
| EndGroup
| ThirtyTwoBit.

#[export] Instance WireType_eq_dec : EqDecision WireType.
Proof. solve_decision. Defined.

(** [wire_type as u64]. *)
Definition wire_type_number (w : WireType) : Z :=
  match w with
  | Varint => 0 | SixtyFourBit => 1 | LengthDelimited => 2
  | StartGroup => 3 | EndGroup => 4 | ThirtyTwoBit => 5
  end.

(** [transmute(n)] to a [WireType]: [None] where there is no such variant, which Rust
    calls undefined behaviour. *)
Definition wire_type_of_number (n : Z) : option WireType :=
  match n with
  | 0 => Some Varint | 1 => Some SixtyFourBit | 2 => Some LengthDelimited
  | 3 => Some StartGroup | 4 => Some EndGroup | 5 => Some ThirtyTwoBit
  | _ => None
  end.

Lemma wire_type_of_number_number w : wire_type_of_number (wire_type_number w) = Some w.
Proof. by destruct w. Qed.

Lemma wire_type_number_range w : 0 <= wire_type_number w < 6.
Proof. destruct w; simpl; lia. Qed.

(** ** Codings *)
Inductive ScalarCoding :=
| BytesImplicit
| BytesExplicit
| BytesExpanded
| StringUtf8Implicit
| StringUtf8Explicit
| StringUtf8Expanded
| StringPermissiveImplicit
| StringPermissiveExplicit
| StringPermissiveExpanded
| BoolImplicit
| BoolPacked
| BoolExplicit
| BoolExpanded
| Int32Implicit
| Int32Packed
| Int32Explicit
| Int32Expanded
| Sint32Implicit
| Sint32Packed
| Sint32Explicit
| Sint32Expanded
| Sfixed32Implicit
| Sfixed32Packed
| Sfixed32Explicit
| Sfixed32Expanded
| Uint32Implicit
| Uint32Packed
| Uint32Explicit
| Uint32Expanded
| Fixed32Implicit
| Fixed32Packed
| Fixed32Explicit
| Fixed32Expanded
| Int64Implicit
| Int64Packed
| Int64Explicit
| Int64Expanded
| Sint64Implicit
| Sint64Packed
| Sint64Explicit
| Sint64Expanded
| Sfixed64Implicit
| Sfixed64Packed
| Sfixed64Explicit
| Sfixed64Expanded
| Uint64Implicit
| Uint64Packed
| Uint64Explicit
| Uint64Expanded
| Fixed64Implicit
| Fixed64Packed
| Fixed64Explicit
| Fixed64Expanded
| FloatImplicit
| FloatPacked
| FloatExplicit
| FloatExpanded
| DoubleImplicit
| DoublePacked
| DoubleExplicit
| DoubleExpanded.

#[export] Instance ScalarCoding_eq_dec : EqDecision ScalarCoding.
Proof. solve_decision. Defined.

(** The enumeration values of [metadata.proto]. *)
Definition scalar_coding_number (c : ScalarCoding) : Z :=
  match c with
  | BytesImplicit => 0
  | BytesExplicit => 2
  | BytesExpanded => 3
  | StringUtf8Implicit => 4
  | StringUtf8Explicit => 6
  | StringUtf8Expanded => 7
  | StringPermissiveImplicit => 8
  | StringPermissiveExplicit => 10
  | StringPermissiveExpanded => 11
  | BoolImplicit => 12
  | BoolPacked => 13
  | BoolExplicit => 14
  | BoolExpanded => 15
  | Int32Implicit => 16
  | Int32Packed => 17
  | Int32Explicit => 18
  | Int32Expanded => 19
  | Sint32Implicit => 20
  | Sint32Packed => 21
  | Sint32Explicit => 22
  | Sint32Expanded => 23
  | Sfixed32Implicit => 24
  | Sfixed32Packed => 25
  | Sfixed32Explicit => 26
  | Sfixed32Expanded => 27
  | Uint32Implicit => 28
  | Uint32Packed => 29
  | Uint32Explicit => 30
  | Uint32Expanded => 31
  | Fixed32Implicit => 32
  | Fixed32Packed => 33
  | Fixed32Explicit => 34
  | Fixed32Expanded => 35
  | Int64Implicit => 36
  | Int64Packed => 37
  | Int64Explicit => 38
  | Int64Expanded => 39
  | Sint64Implicit => 40
  | Sint64Packed => 41
  | Sint64Explicit => 42
  | Sint64Expanded => 43
  | Sfixed64Implicit => 44
  | Sfixed64Packed => 45
  | Sfixed64Explicit => 46
  | Sfixed64Expanded => 47
  | Uint64Implicit => 48
  | Uint64Packed => 49
  | Uint64Explicit => 50
  | Uint64Expanded => 51
  | Fixed64Implicit => 52
  | Fixed64Packed => 53
  | Fixed64Explicit => 54
  | Fixed64Expanded => 55
  | FloatImplicit => 56
  | FloatPacked => 57
  | FloatExplicit => 58
  | FloatExpanded => 59
  | DoubleImplicit => 60
  | DoublePacked => 61
  | DoubleExplicit => 62
  | DoubleExpanded => 63
  end.

Definition all_scalar_codings : list ScalarCoding :=
  [BytesImplicit; BytesExplicit; BytesExpanded;
   StringUtf8Implicit; StringUtf8Explicit; StringUtf8Expanded;
   StringPermissiveImplicit; StringPermissiveExplicit; StringPermissiveExpanded;
   BoolImplicit; BoolPacked; BoolExplicit; BoolExpanded;
   Int32Implicit; Int32Packed; Int32Explicit; Int32Expanded;
   Sint32Implicit; Sint32Packed; Sint32Explicit; Sint32Expanded;
   Sfixed32Implicit; Sfixed32Packed; Sfixed32Explicit; Sfixed32Expanded;
   Uint32Implicit; Uint32Packed; Uint32Explicit; Uint32Expanded;
   Fixed32Implicit; Fixed32Packed; Fixed32Explicit; Fixed32Expanded;
   Int64Implicit; Int64Packed; Int64Explicit; Int64Expanded;
   Sint64Implicit; Sint64Packed; Sint64Explicit; Sint64Expanded;
   Sfixed64Implicit; Sfixed64Packed; Sfixed64Explicit; Sfixed64Expanded;
   Uint64Implicit; Uint64Packed; Uint64Explicit; Uint64Expanded;
   Fixed64Implicit; Fixed64Packed; Fixed64Explicit; Fixed64Expanded;
   FloatImplicit; FloatPacked; FloatExplicit; FloatExpanded;
   DoubleImplicit; DoublePacked; DoubleExplicit; DoubleExpanded].

Lemma all_scalar_codings_complete c : c ∈ all_scalar_codings.
Proof. by apply (bool_decide_unpack _); destruct c; vm_compute. Qed.

(** [ScalarCoding::try_from]. *)
Definition scalar_coding_try_from (n : Z) : option ScalarCoding :=
  head (filter (fun c => scalar_coding_number c = n) all_scalar_codings).

Lemma scalar_coding_try_from_number c :
  scalar_coding_try_from (scalar_coding_number c) = Some c.
Proof. by destruct c. Qed.

Lemma scalar_coding_try_from_Some n c :
  scalar_coding_try_from n = Some c -> scalar_coding_number c = n.
Proof.
  unfold scalar_coding_try_from. intros H.
  apply head_Some_elem_of, list_elem_of_filter in H. apply H.
Qed.

(** The type of a scalar and the way it is repeated, which each coding combines. *)
Inductive ScalarType :=
| TBytes
| TStringUtf8
| TStringPermissive
| TBool
| TInt32
| TSint32
| TSfixed32
| TUint32
| TFixed32
| TInt64
| TSint64
| TSfixed64
| TUint64
| TFixed64
| TFloat
| TDouble.

Inductive Repetition := Implicit | Packed | Explicit | Expanded.

Definition scalar_shape (c : ScalarCoding) : ScalarType * Repetition :=
  match c with
  | BytesImplicit => (TBytes, Implicit)
  | BytesExplicit => (TBytes, Explicit)
  | BytesExpanded => (TBytes, Expanded)
  | StringUtf8Implicit => (TStringUtf8, Implicit)
  | StringUtf8Explicit => (TStringUtf8, Explicit)
  | StringUtf8Expanded => (TStringUtf8, Expanded)
  | StringPermissiveImplicit => (TStringPermissive, Implicit)
  | StringPermissiveExplicit => (TStringPermissive, Explicit)
  | StringPermissiveExpanded => (TStringPermissive, Expanded)
  | BoolImplicit => (TBool, Implicit)
  | BoolPacked => (TBool, Packed)
  | BoolExplicit => (TBool, Explicit)
  | BoolExpanded => (TBool, Expanded)
  | Int32Implicit => (TInt32, Implicit)
  | Int32Packed => (TInt32, Packed)
  | Int32Explicit => (TInt32, Explicit)
  | Int32Expanded => (TInt32, Expanded)
  | Sint32Implicit => (TSint32, Implicit)
  | Sint32Packed => (TSint32, Packed)
  | Sint32Explicit => (TSint32, Explicit)
  | Sint32Expanded => (TSint32, Expanded)
  | Sfixed32Implicit => (TSfixed32, Implicit)
  | Sfixed32Packed => (TSfixed32, Packed)
  | Sfixed32Explicit => (TSfixed32, Explicit)
  | Sfixed32Expanded => (TSfixed32, Expanded)
  | Uint32Implicit => (TUint32, Implicit)
  | Uint32Packed => (TUint32, Packed)
  | Uint32Explicit => (TUint32, Explicit)
  | Uint32Expanded => (TUint32, Expanded)
  | Fixed32Implicit => (TFixed32, Implicit)
  | Fixed32Packed => (TFixed32, Packed)
  | Fixed32Explicit => (TFixed32, Explicit)
  | Fixed32Expanded => (TFixed32, Expanded)
  | Int64Implicit => (TInt64, Implicit)
  | Int64Packed => (TInt64, Packed)
  | Int64Explicit => (TInt64, Explicit)
  | Int64Expanded => (TInt64, Expanded)
  | Sint64Implicit => (TSint64, Implicit)
  | Sint64Packed => (TSint64, Packed)
  | Sint64Explicit => (TSint64, Explicit)
  | Sint64Expanded => (TSint64, Expanded)
  | Sfixed64Implicit => (TSfixed64, Implicit)
  | Sfixed64Packed => (TSfixed64, Packed)
  | Sfixed64Explicit => (TSfixed64, Explicit)
  | Sfixed64Expanded => (TSfixed64, Expanded)
  | Uint64Implicit => (TUint64, Implicit)
  | Uint64Packed => (TUint64, Packed)
  | Uint64Explicit => (TUint64, Explicit)
  | Uint64Expanded => (TUint64, Expanded)
  | Fixed64Implicit => (TFixed64, Implicit)
  | Fixed64Packed => (TFixed64, Packed)
  | Fixed64Explicit => (TFixed64, Explicit)
  | Fixed64Expanded => (TFixed64, Expanded)
  | FloatImplicit => (TFloat, Implicit)
  | FloatPacked => (TFloat, Packed)
  | FloatExplicit => (TFloat, Explicit)
  | FloatExpanded => (TFloat, Expanded)
  | DoubleImplicit => (TDouble, Implicit)
  | DoublePacked => (TDouble, Packed)
  | DoubleExplicit => (TDouble, Explicit)
  | DoubleExpanded => (TDouble, Expanded)
  end.

Inductive CompoundCoding :=
| EnumImplicit
| EnumPacked
| EnumExplicit
| EnumExpanded
| Message
| MessageExpanded
| Oneof.

#[export] Instance CompoundCoding_eq_dec : EqDecision CompoundCoding.
Proof. solve_decision. Defined.

Definition compound_coding_number (c : CompoundCoding) : Z :=
  match c with
  | EnumImplicit => 0
  | EnumPacked => 1
  | EnumExplicit => 2
  | EnumExpanded => 3
  | Message => 6
  | MessageExpanded => 7
  | Oneof => 8
  end.

(** [CompoundCoding::try_from]. *)
Definition compound_coding_try_from (n : Z) : option CompoundCoding :=
  match n with
  | 0 => Some EnumImplicit
  | 1 => Some EnumPacked
  | 2 => Some EnumExplicit
  | 3 => Some EnumExpanded
  | 6 => Some Message
  | 7 => Some MessageExpanded
  | 8 => Some Oneof
  | _ => None
  end.

Lemma compound_coding_try_from_number c :
  compound_coding_try_from (compound_coding_number c) = Some c.
Proof. by destruct c. Qed.

Lemma compound_coding_try_from_Some n c :
  compound_coding_try_from n = Some c -> compound_coding_number c = n.
Proof.
  unfold compound_coding_try_from. intros H.
  repeat (case_match; simplify_eq; try done).
Qed.

(** The [oneof coding] of a [Field]: raw enumeration values. *)
Inductive Coding :=
| ScalarCodingOf (n : Z)
| CompoundCodingOf (n : Z).

Inductive Field := mkField {
  field_number : Z;
  field_name : string;
  subfields : list Field;
  coding : option Coding;
}.

(** ** [tonic::Status], the two codes the codecs use *)
Inductive Status := InvalidArgument (msg : string) | Internal (msg : string).
