(* ===== verification/Typing.v ===== *)
(** * The values a field can hold

    The abstract specification the decoder and the encoder share: which component values
    inhabit a [Field] of the metadata.  A request decoded for a component must be such a
    value, whatever bytes the client sent; a response is encoded from one. *)

From S2P Require Import Prelude Wire.

#[local] Open Scope Z_scope.

(** Induction over a field and the fields below it. *)
Section FieldInd.
Variable P : Field -> Prop.
Hypothesis P_field : forall number name subs c,
  Forall P subs -> P (mkField number name subs c).

Fixpoint Field_ind' (f : Field) : P f :=
  match f with
  | mkField number name subs c =>
      P_field number name subs c
        ((fix go (l : list Field) : Forall P l :=
            match l with
            | [] => @Forall_nil_2 Field P
            | f' :: l' => @Forall_cons_2 Field P f' l' (Field_ind' f') (go l')
            end) subs)
  end.
End FieldInd.

(** ** Scalars *)
Definition is_u8 (v : Val) : Prop := match v with VU8 z => u_range 8 z | _ => False end.

Definition scalar_typed (t : ScalarType) (v : Val) : Prop :=
  match t, v with
  | TBytes, VList items => Forall is_u8 items
  | TStringUtf8, VString s => utf8_valid (string_bytes s) = true
  | TStringPermissive, VString _ => True
  | TBool, VBool _ => True
  | (TInt32 | TSint32 | TSfixed32), VS32 z => i_range 32 z
  | (TUint32 | TFixed32), VU32 z => u_range 32 z
  | (TInt64 | TSint64 | TSfixed64), VS64 z => i_range 64 z
  | (TUint64 | TFixed64), VU64 z => u_range 64 z
  | TFloat, VFloat32 z => u_range 32 z
  | TDouble, VFloat64 z => u_range 64 z
  | _, _ => False
  end.

(** ** Repetition *)
Definition rep_typed (rep : Repetition) (P : Val -> Prop) (v : Val) : Prop :=
  match rep with
  | Implicit => P v
  | Explicit =>
      match v with
      | VOption None => True
      | VOption (Some x) => P x
      | _ => False
      end
  | Packed | Expanded => match v with VList items => Forall P items | _ => False end
  end.

(** What an explicit field holds once it has been set. *)
Definition some_typed (P : Val -> Prop) (v : Val) : Prop :=
  match v with VOption (Some x) => P x | _ => False end.

Lemma some_typed_explicit P v : some_typed P v -> rep_typed Explicit P v.
Proof. destruct v; try done. by destruct o. Qed.

(** ** Compound types *)
Definition enum_typed (variants : list Field) (v : Val) : Prop :=
  match v with VEnum name => name ∈ field_name <$> variants | _ => False end.

Section Compound.
Variable typed : Field -> Val -> Prop.

Fixpoint fields_typed (subs : list Field) (fields : list (string * Val)) : Prop :=
  match subs, fields with
  | [], [] => True
  | sf :: subs', (name, v) :: fields' =>
      (name = field_name sf /\ typed sf v) /\ fields_typed subs' fields'
  | _, _ => False
  end.

Definition record_typed (subs : list Field) (v : Val) : Prop :=
  match v with VRecord fields => fields_typed subs fields | _ => False end.

(** The payload of a variant is what its (explicit) coding wraps in an option. *)
Fixpoint variant_typed (variants : list Field) (case : string) (payload : Val) : Prop :=
  match variants with
  | [] => False
  | variant :: variants' =>
      (case = field_name variant /\ typed variant (VOption (Some payload)))
      \/ variant_typed variants' case payload
  end.

Definition oneof_typed (variants : list Field) (v : Val) : Prop :=
  match v with
  | VOption None => True
  | VOption (Some (VVariant case (Some payload))) => variant_typed variants case payload
  | _ => False
  end.
End Compound.

(** ** Fields *)
Fixpoint typed (f : Field) (v : Val) {struct f} : Prop :=
  match f with
  | mkField _ _ subs None => False
  | mkField _ _ subs (Some (ScalarCodingOf n)) =>
      match scalar_coding_try_from n with
      | Some c => rep_typed (scalar_shape c).2 (scalar_typed (scalar_shape c).1) v
      | None => False
      end
  | mkField _ _ subs (Some (CompoundCodingOf n)) =>
      match compound_coding_try_from n with
      | Some EnumImplicit => rep_typed Implicit (enum_typed subs) v
      | Some EnumPacked => rep_typed Packed (enum_typed subs) v
      | Some EnumExplicit => rep_typed Explicit (enum_typed subs) v
      | Some EnumExpanded => rep_typed Expanded (enum_typed subs) v
      | Some Message => rep_typed Explicit (record_typed typed subs) v
      | Some MessageExpanded => rep_typed Expanded (record_typed typed subs) v
      | Some Oneof => oneof_typed typed subs v
      | None => False
      end
  end.

(** The two equations of [typed]. *)
Lemma typed_scalar f n c v :
  coding f = Some (ScalarCodingOf n) -> scalar_coding_try_from n = Some c ->
  typed f v = rep_typed (scalar_shape c).2 (scalar_typed (scalar_shape c).1) v.
Proof. destruct f as [? ? ? cd]. simpl. by intros -> ->. Qed.

Definition compound_typed (c : CompoundCoding) (subs : list Field) : Val -> Prop :=
  match c with
  | EnumImplicit => rep_typed Implicit (enum_typed subs)
  | EnumPacked => rep_typed Packed (enum_typed subs)
  | EnumExplicit => rep_typed Explicit (enum_typed subs)
  | EnumExpanded => rep_typed Expanded (enum_typed subs)
  | Message => rep_typed Explicit (record_typed typed subs)
  | MessageExpanded => rep_typed Expanded (record_typed typed subs)
  | Oneof => oneof_typed typed subs
  end.

Lemma typed_compound f n c v :
  coding f = Some (CompoundCodingOf n) -> compound_coding_try_from n = Some c ->
  typed f v = compound_typed c (subfields f) v.
Proof. destruct f as [? ? ? cd]. simpl. intros -> ->. by destruct c. Qed.

(** A whole request or response: the record of a message's subfields. *)
Definition message_typed (message : Field) (v : Val) : Prop :=
  record_typed typed (subfields message) v.

Lemma fields_typed_Forall2 (T : Field -> Val -> Prop) subs fields :
  fields_typed T subs fields
  <-> Forall2 (fun sf p => p.1 = field_name sf /\ T sf p.2) subs fields.
Proof.
  revert fields. induction subs as [|sf subs IH]; intros [|[n v] fields]; simpl.
  - split; [constructor | done].
  - split; [done | inversion 1].
  - split; [done | inversion 1].
  - rewrite IH. split; [intros [? ?]; by constructor | by inversion 1].
Qed.

Lemma variant_typed_Exists (T : Field -> Val -> Prop) variants case payload :
  variant_typed T variants case payload
  <-> exists v, v ∈ variants /\ case = field_name v /\ T v (VOption (Some payload)).
Proof.
  induction variants as [|v vs IH]; simpl.
  - split; [done | intros (? & H & _); by apply not_elem_of_nil in H].
  - rewrite IH. split.
    + intros [[? ?]|(w & ? & ? & ?)]; [exists v | exists w]; rewrite elem_of_cons; auto.
    + intros (w & Hw & ? & ?). apply elem_of_cons in Hw as [->|]; [by left |].
      right. by exists w.
Qed.
