(* ===== verification/DecodeLib.v ===== *)
(** * Decoding: errors, the reader, tags and skipping

    Models [src/runtime/decode/lib.rs]: [DecodeError] and its display, and the reads every
    merge function is built from.  A merge function of the source has [limit: &mut u32] and
    [src: &mut DecodeBuf]; here both are the state of the reader monad [Rd]. *)

From S2P Require Import Prelude Prost Wire.
From stdpp Require Import pretty.

#[local] Open Scope Z_scope.

(** ** Error messages *)
Definition BUFFER_UNDERFLOW := "Buffer underflow".
Definition BUFFER_OVERFLOW := "Buffer overflow".
Definition INVALID_TAG_VARINT := "Invalid varint for tag".
Definition INVALID_LENGTH_VARINT := "Invalid varint for length".
Definition INVALID_VARINT := "Invalid varint".
Definition INVALID_FIELD_NUMBER := "Invalid field number".
Definition INVALID_WIRE_TYPE := "Invalid wire type".
Definition WIRETYPE_NON_VARINT := "Wire type should be varint".
Definition WIRETYPE_NON_LENGTH_DELIMITED := "Wire type should be length-delimited".
Definition WIRETYPE_NON_32BIT := "Wire type should be 32-bit".
Definition WIRETYPE_NON_64BIT := "Wire type should be 64-bit".
Definition OVERFLOW_32BIT := "Overflowed 32 bits".
Definition INVALID_UTF8 := "Invalid UTF-8".
Definition INVALID_BOOL := "Invalid boolean value".
Definition ENUM_NO_DEFAULT := "Enum has no default value".
Definition NON_EXPLICIT_ONEOF_VARIANT := "Oneof variant is not explicitly presence-tracked".
Definition MESSAGE_NON_RECORD := "Message is not a record".
Definition FIELD_INDEX_OUT_OF_BOUNDS := "Field index out of bounds".
Definition REPEATED_NON_LIST := "Repeated value is not a list".

(** ** [DecodeError] *)
Inductive DecodeLevel :=
| LField (number : Z)
| LIndex (i : nat).

(** [traceback] is a [Vec] in push order: the innermost level comes first. *)
Record DecodeError := mkDecodeError {
  message : string;
  traceback : list DecodeLevel;
}.

Definition DecodeError_new (msg : string) : DecodeError := mkDecodeError msg [].

Definition with_field (number : Z) (e : DecodeError) : DecodeError :=
  mkDecodeError (message e) (traceback e ++ [LField number]).

Definition with_index (i : nat) (e : DecodeError) : DecodeError :=
  mkDecodeError (message e) (traceback e ++ [LIndex i]).

Definition format_level (level : DecodeLevel) : string :=
  match level with
  | LField number => "." +:+ pretty number
  | LIndex i => "[" +:+ pretty i +:+ "]"
  end.

Definition format_decode_error_trace (e : DecodeError) : string :=
  foldr (fun level acc => format_level level +:+ acc) "" (rev (traceback e)).

(** [Display for DecodeError]. *)
Definition display_decode_error (e : DecodeError) : string :=
  "Malformed request (" +:+ format_decode_error_trace e +:+ "): " +:+ message e.

(** ** The reader *)
Definition Rd (A : Type) : Type :=
  Z -> list byte -> outcome DecodeError (A * Z * list byte).

Definition rd_ret {A} (a : A) : Rd A := fun limit src => Done (a, limit, src).
Definition rd_fail {A} (e : DecodeError) : Rd A := fun _ _ => Failed e.
Definition rd_crash {A} (c : crash) : Rd A := fun _ _ => Crash c.
Definition rd_bind {A B} (m : Rd A) (k : A -> Rd B) : Rd B := fun limit src =>
  match m limit src with
  | Done (a, limit', src') => k a limit' src'
  | Failed e => Failed e
  | Crash c => Crash c
  end.
Definition rd_map_err {A} (f : DecodeError -> DecodeError) (m : Rd A) : Rd A :=
  fun limit src => map_err f (m limit src).

Notation "'let!' p ':=' m 'in' k" := (rd_bind m (fun x => match x with p => k end))
  (at level 10, p pattern, m at level 100, k at level 200,
   format "'[v' 'let!'  p  ':='  m  'in' '/' k ']'") : vimana_scope.

(** Run [m] on the same source under another limit ([let mut length = ...; m(&mut length,
    src)]); the outer limit is untouched. *)
Definition with_limit {A} (length : Z) (m : Rd A) : Rd A := fun limit src =>
  match m length src with
  | Done (a, _, src') => Done (a, limit, src')
  | Failed e => Failed e
  | Crash c => Crash c
  end.

(** [if n > *limit { return Err(e) }; *limit -= n]. *)
Definition take_limit (n : Z) (e : DecodeError) : Rd unit := fun limit src =>
  if limit <? n then Failed e else Done (tt, limit - n, src).

(** A read of the buffer that panics when it is too short. *)
Definition rd_buf {A} (f : list byte -> option (A * list byte)) : Rd A := fun limit src =>
  match f src with
  | Some (a, src') => Done (a, limit, src')
  | None => Crash Panicked
  end.

(** [explicit_scalar]: [%] is Rust's truncated remainder. *)
Definition explicit_scalar (scalar_coding : Z) : bool := Z.rem scalar_coding 4 =? 2.

Section Reads.
Context {W : WireOps}.

(** [src.get_u8()] and its wider variants. *)
Definition rd_get_le (n : nat) : Rd Z := rd_buf (get_le n).

(** [src.advance(n)]. *)
Definition rd_advance (n : nat) : Rd unit :=
  rd_buf (fun src => option_map (fun src' => (tt, src')) (advance n src)).

Definition read_varint (error : string) : Rd Z := fun limit src =>
  match decode_varint src with
  | None => Failed (DecodeError_new error)
  | Some (varint, src') =>
      let bytes_read := encoded_len_varint varint in
      if limit <? bytes_read then Failed (DecodeError_new BUFFER_OVERFLOW)
      else Done (varint, limit - bytes_read, src')
  end.

Definition decode_tag : Rd (Z * WireType) :=
  let! tag := read_varint INVALID_TAG_VARINT in
  let field_number := Z.shiftr tag 3 in
  if 2 ^ 32 <=? field_number then rd_fail (DecodeError_new INVALID_FIELD_NUMBER) else
  let wire_type := Z.land (as_u 8 tag) 7 in
  if 6 <=? wire_type then
    rd_fail (with_field field_number (DecodeError_new INVALID_WIRE_TYPE)) else
  match wire_type_of_number wire_type with
  | Some w => rd_ret (field_number, w)
  | None => rd_crash UndefinedBehaviour
  end.

Definition read_length_check_overflow : Rd Z :=
  let! length := read_varint INVALID_LENGTH_VARINT in
  if 2 ^ 32 <=? length then rd_fail (DecodeError_new INVALID_LENGTH_VARINT) else
  let! _ := take_limit length (DecodeError_new BUFFER_OVERFLOW) in
  rd_ret length.

Definition skip (wire_type : WireType) : Rd unit :=
  match wire_type with
  | Varint => let! _ := read_varint INVALID_VARINT in rd_ret tt
  | SixtyFourBit =>
      let! _ := take_limit 8 (DecodeError_new BUFFER_OVERFLOW) in rd_advance 8
  | LengthDelimited =>
      let! length := read_length_check_overflow in rd_advance (Z.to_nat length)
  | ThirtyTwoBit =>
      let! _ := take_limit 4 (DecodeError_new BUFFER_OVERFLOW) in rd_advance 4
  | StartGroup | EndGroup => rd_ret tt
  end.

End Reads.

(** ** Facts about the reader

    [reads strict P m]: on a limit that is not negative, [m] returns a value of [P] without
    raising the limit (lowering it, if [strict]), returns an error, or panics on a short
    buffer; it neither runs out of fuel nor does anything undefined. *)
Definition safe_crash (c : crash) : Prop := c = Panicked.

Definition reads {A} (strict : bool) (P : A -> Prop) (m : Rd A) : Prop :=
  forall limit src, 0 <= limit ->
  match m limit src with
  | Done (a, limit', _) => P a /\ 0 <= limit' /\ (if strict then limit' < limit else limit' <= limit)
  | Failed _ => True
  | Crash c => safe_crash c
  end.

Section Reader.
Context {A B : Type}.
Implicit Types (P : A -> Prop) (Q : B -> Prop) (m : Rd A).

Lemma reads_weaken (b b' : bool) P (P' : A -> Prop) m :
  reads b P m -> (forall a, P a -> P' a) -> (b' = true -> b = true) -> reads b' P' m.
Proof.
  intros Hm HP Hb limit src Hl. specialize (Hm limit src Hl).
  destruct (m limit src) as [[[a l'] s']| |]; [|done|done].
  destruct Hm as (? & ? & ?). split_and!; [auto | done |].
  destruct b, b'; try lia; discriminate (Hb eq_refl).
Qed.

Lemma reads_ret P a : P a -> reads false P (rd_ret a).
Proof. intros Ha limit src Hl. simpl. auto with lia. Qed.

Lemma reads_fail b P e : reads b P (rd_fail e).
Proof. intros limit src Hl. exact I. Qed.

Lemma reads_bind b1 b2 P Q m (k : A -> Rd B) :
  reads b1 P m -> (forall a, P a -> reads b2 Q (k a)) -> reads (b1 || b2) Q (rd_bind m k).
Proof.
  intros Hm Hk limit src Hl. unfold rd_bind. specialize (Hm limit src Hl).
  destruct (m limit src) as [[[a l'] s']| |]; [|done|done].
  destruct Hm as (Ha & Hl' & Hd). specialize (Hk a Ha l' s' Hl').
  destruct (k a l' s') as [[[b l''] s'']| |]; [|done|done].
  destruct Hk as (? & ? & ?). split_and!; [done | done |].
  destruct b1, b2; simpl; lia.
Qed.

Lemma reads_map_err b P f m : reads b P m -> reads b P (rd_map_err f m).
Proof.
  intros Hm limit src Hl. unfold rd_map_err. specialize (Hm limit src Hl).
  by destruct (m limit src).
Qed.

Lemma reads_with_limit n b P m : 0 <= n -> reads b P m -> reads false P (with_limit n m).
Proof.
  intros Hn Hm limit src Hl. unfold with_limit. specialize (Hm n src Hn).
  destruct (m n src) as [[[a l'] s']| |]; [|done|done].
  destruct Hm as (? & ? & ?). split_and!; [done | lia | lia].
Qed.

Lemma reads_buf P (f : list byte -> option (A * list byte)) :
  (forall src a src', f src = Some (a, src') -> P a) -> reads false P (rd_buf f).
Proof.
  intros Hf limit src Hl. unfold rd_buf.
  destruct (f src) as [[a s']|] eqn:E; [|done]. split_and!; [by eapply Hf | lia | lia].
Qed.

Lemma reads_false_of b P m : reads b P m -> reads false P m.
Proof. intros H. by eapply reads_weaken; [exact H | |]. Qed.

End Reader.

Lemma reads_take_limit (n : Z) e : 0 < n -> reads true (fun _ => True) (take_limit n e).
Proof.
  intros Hn limit src Hl. unfold take_limit. destruct (Z.ltb_spec limit n); [done |].
  split_and!; [done | lia | lia].
Qed.

Lemma reads_take_limit_0 (n : Z) e : 0 <= n -> reads false (fun _ => True) (take_limit n e).
Proof.
  intros Hn limit src Hl. unfold take_limit. destruct (Z.ltb_spec limit n); [done |].
  split_and!; [done | lia | lia].
Qed.

Section ReadFacts.
Context `{WL : WireLaws}.

Lemma reads_get_le n : reads false (u_range (8 * Z.of_nat n)) (rd_get_le n).
Proof.
  apply reads_buf. intros src z src' E.
  destruct (decide (n <= length src)%nat) as [H|H].
  - rewrite get_le_enough in E by done. injection E as <- _.
    pose proof (of_le_range (take n src)) as R. rewrite length_take in R.
    by replace (n `min` length src)%nat with n in R by lia.
  - rewrite get_le_short in E by lia. done.
Qed.

(** Every varint read takes at least one byte off the limit. *)
Lemma reads_varint e : reads true (u_range 64) (read_varint e).
Proof.
  intros limit src Hl. unfold read_varint.
  destruct (decode_varint src) as [[v src']|] eqn:E; [|done].
  apply decode_varint_range in E. pose proof (encoded_len_varint_range v E).
  destruct (Z.ltb_spec limit (encoded_len_varint v)); [done |].
  split_and!; [done | lia | lia].
Qed.

Lemma reads_tag : reads true (fun p => u_range 32 p.1) decode_tag.
Proof.
  apply (reads_bind true false (u_range 64)); [apply reads_varint |].
  intros tag Ht. cbv beta zeta. unfold u_range in Ht.
  destruct (Z.leb_spec (2 ^ 32) (Z.shiftr tag 3)) as [|Hn]; [apply reads_fail |].
  destruct (Z.leb_spec 6 (Z.land (as_u 8 tag) 7)) as [|Hw]; [apply reads_fail |].
  assert (0 <= Z.shiftr tag 3) by (apply Z.shiftr_nonneg; lia).
  assert (0 <= Z.land (as_u 8 tag) 7) by (apply Z.land_nonneg; lia).
  assert (is_Some (wire_type_of_number (Z.land (as_u 8 tag) 7))) as [w ->].
  { generalize dependent (Z.land (as_u 8 tag) 7). intros z ? ?.
    assert (z = 0 \/ z = 1 \/ z = 2 \/ z = 3 \/ z = 4 \/ z = 5) as Hz by lia.
    destruct_or! Hz; subst; by eexists. }
  apply reads_ret. split; simpl; lia.
Qed.

(** A length is a [u32] that fits in what is left. *)
Lemma reads_length : reads true (u_range 32) read_length_check_overflow.
Proof.
  apply (reads_bind true false (u_range 64)); [apply reads_varint |].
  unfold u_range. intros n Hn. cbv beta.
  destruct (Z.leb_spec (2 ^ 32) n); [apply reads_fail |].
  eapply (reads_bind false false); [apply reads_take_limit_0; lia |].
  intros _ _. apply reads_ret. lia.
Qed.

Lemma reads_advance n : reads false (fun _ => True) (rd_advance n).
Proof. by apply reads_buf. Qed.

Lemma reads_skip w : reads false (fun _ => True) (skip w).
Proof.
  destruct w; simpl; try by apply reads_ret.
  - eapply reads_false_of, (reads_bind true false); [apply reads_varint |].
    intros; by apply reads_ret.
  - eapply reads_false_of, (reads_bind true false); [by apply reads_take_limit |].
    intros; apply reads_advance.
  - eapply reads_false_of, (reads_bind true false); [apply reads_length |].
    intros; apply reads_advance.
  - eapply reads_false_of, (reads_bind true false); [by apply reads_take_limit |].
    intros; apply reads_advance.
Qed.

End ReadFacts.

(** ** Reading back what was written *)
Section ReadBack.
Context `{WL : WireLaws}.

Lemma read_varint_encode e v limit rest :
  u_range 64 v -> encoded_len_varint v <= limit ->
  read_varint e limit (encode_varint v ++ rest)
    = Done (v, limit - encoded_len_varint v, rest).
Proof.
  intros Hv Hl. unfold read_varint. rewrite decode_encode_varint by done.
  rewrite (proj2 (Z.ltb_ge _ _)) by lia. done.
Qed.

(** The tag [(number << 3) | wire_type] is read back as the pair. *)
Lemma decode_tag_encode number w limit rest :
  u_range 32 number ->
  let t := Z.lor (Z.shiftl number 3) (wire_type_number w) in
  encoded_len_varint t <= limit ->
  decode_tag limit (encode_varint t ++ rest)
    = Done ((number, w), limit - encoded_len_varint t, rest).
Proof.
  intros Hn t Hl. pose proof (wire_type_number_range w) as Hw.
  assert (Ht : t = number * 8 + wire_type_number w).
  { unfold t. rewrite Z.shiftl_mul_pow2 by lia. change (2 ^ 3) with 8.
    rewrite <- Z.lxor_lor, <- Z.add_nocarry_lxor; [lia | |];
      apply Z.bits_inj'; intros i Hi; rewrite Z.land_spec, Z.bits_0;
      (destruct (Z.lt_ge_cases i 3);
       [ change 8 with (2 ^ 3); rewrite Z.mul_pow2_bits_low by lia; done
       | rewrite (Z.bits_above_log2 (wire_type_number w)); [apply andb_false_r | lia |];
         apply Z.lt_le_trans with 3; [|lia]; destruct w; simpl; lia ]). }
  unfold u_range in Hn. unfold decode_tag, rd_bind.
  rewrite read_varint_encode; [| rewrite Ht; unfold u_range; lia | done].
  clearbody t. subst t. cbv beta zeta.
  rewrite Z.shiftr_div_pow2 by lia. change (2 ^ 3) with 8.
  rewrite Z.div_add_l, (Z.div_small (wire_type_number w)), Z.add_0_r by lia.
  rewrite (proj2 (Z.leb_gt _ _)) by lia.
  assert (Hm : Z.land (as_u 8 (number * 8 + wire_type_number w)) 7 = wire_type_number w).
  { change 7 with (Z.ones 3). rewrite Z.land_ones by lia. unfold as_u.
    change (2 ^ 8) with 256. change (2 ^ 3) with 8.
    clear - Hw. Z.div_mod_to_equations. lia. }
  rewrite Hm, (proj2 (Z.leb_gt _ _)) by lia.
  rewrite wire_type_of_number_number. done.
Qed.

Lemma read_length_encode n limit rest :
  u_range 32 n -> encoded_len_varint n + n <= limit ->
  read_length_check_overflow limit (encode_varint n ++ rest)
    = Done (n, limit - encoded_len_varint n - n, rest).
Proof.
  unfold u_range. intros Hn Hl. unfold read_length_check_overflow, rd_bind.
  rewrite read_varint_encode by (unfold u_range; lia).
  rewrite (proj2 (Z.leb_gt _ _)) by lia. unfold take_limit.
  rewrite (proj2 (Z.ltb_ge _ _)) by lia. done.
Qed.

End ReadBack.
