(* ===== verification/DecodeScalar.v ===== *)
(** * Decoding scalars

    Models [src/runtime/decode/scalar.rs].  The macros of the source become definitions
    that take the macro's arguments; a [Mergers] record holds the merge functions of one
    type, and [mergers_of] has a row for each [stringy_mergers!] and [numeric_mergers!]
    invocation. *)

From S2P Require Import Prelude Prost Wire Typing DecodeLib.

#[local] Open Scope Z_scope.

(** ** The mergers of a message

    [MergeFn] is a function pointer of the source: one constructor per function it can
    point to (the scalar ones by type).  [CompoundMerger] is a [union]; the model keeps
    which field was stored, so that a read of another one is visible. *)
Inductive MergeFn :=
| ExplicitMerge (t : ScalarType)
| ImplicitMerge (t : ScalarType)
| RepeatedMerge (t : ScalarType)
| MessageInnerMerge
| MessageOuterMerge
| MessageRepeatedMerge
| OneofVariantMerge
| EnumExplicitMerge
| EnumImplicitMerge
| EnumRepeatedMerge.

Inductive CompoundMerger (M : Type) :=
| Subfields (m : gmap Z (Z * M))
| EnumVariants (m : gmap Z string)
| OneofVariant (name : string) (m : M)
| ScalarUnit.
Arguments Subfields {M} m.
Arguments EnumVariants {M} m.
Arguments OneofVariant {M} name m.
Arguments ScalarUnit {M}.

Inductive Merger := mkMerger {
  merge : MergeFn;
  defaults : list (string * Val);
  compound : CompoundMerger Merger;
}.

(** [Merger::scalar]: the merge function and the default of each coding. *)
Definition scalar_merge_and_default (coding : ScalarCoding) : MergeFn * Val :=
  match coding with
  | BytesImplicit => (ImplicitMerge TBytes, VList [])
  | BytesExplicit => (ExplicitMerge TBytes, VOption None)
  | BytesExpanded => (RepeatedMerge TBytes, VList [])
  | StringUtf8Implicit => (ImplicitMerge TStringUtf8, VString "")
  | StringUtf8Explicit => (ExplicitMerge TStringUtf8, VOption None)
  | StringUtf8Expanded => (RepeatedMerge TStringUtf8, VList [])
  | StringPermissiveImplicit => (ImplicitMerge TStringPermissive, VString "")
  | StringPermissiveExplicit => (ExplicitMerge TStringPermissive, VOption None)
  | StringPermissiveExpanded => (RepeatedMerge TStringPermissive, VList [])
  | BoolImplicit => (ImplicitMerge TBool, VBool false)
  | BoolPacked => (RepeatedMerge TBool, VList [])
  | BoolExplicit => (ExplicitMerge TBool, VOption None)
  | BoolExpanded => (RepeatedMerge TBool, VList [])
  | Int32Implicit => (ImplicitMerge TInt32, VS32 0)
  | Int32Packed => (RepeatedMerge TInt32, VList [])
  | Int32Explicit => (ExplicitMerge TInt32, VOption None)
  | Int32Expanded => (RepeatedMerge TInt32, VList [])
  | Sint32Implicit => (ImplicitMerge TSint32, VS32 0)
  | Sint32Packed => (RepeatedMerge TSint32, VList [])
  | Sint32Explicit => (ExplicitMerge TSint32, VOption None)
  | Sint32Expanded => (RepeatedMerge TSint32, VList [])
  | Sfixed32Implicit => (ImplicitMerge TSfixed32, VS32 0)
  | Sfixed32Packed => (RepeatedMerge TSfixed32, VList [])
  | Sfixed32Explicit => (ExplicitMerge TSfixed32, VOption None)
  | Sfixed32Expanded => (RepeatedMerge TSfixed32, VList [])
  | Uint32Implicit => (ImplicitMerge TUint32, VU32 0)
  | Uint32Packed => (RepeatedMerge TUint32, VList [])
  | Uint32Explicit => (ExplicitMerge TUint32, VOption None)
  | Uint32Expanded => (RepeatedMerge TUint32, VList [])
  | Fixed32Implicit => (ImplicitMerge TFixed32, VU32 0)
  | Fixed32Packed => (RepeatedMerge TFixed32, VList [])
  | Fixed32Explicit => (ExplicitMerge TFixed32, VOption None)
  | Fixed32Expanded => (RepeatedMerge TFixed32, VList [])
  | Int64Implicit => (ImplicitMerge TInt64, VS64 0)
  | Int64Packed => (RepeatedMerge TInt64, VList [])
  | Int64Explicit => (ExplicitMerge TInt64, VOption None)
  | Int64Expanded => (RepeatedMerge TInt64, VList [])
  | Sint64Implicit => (ImplicitMerge TSint64, VS64 0)
  | Sint64Packed => (RepeatedMerge TSint64, VList [])
  | Sint64Explicit => (ExplicitMerge TSint64, VOption None)
  | Sint64Expanded => (RepeatedMerge TSint64, VList [])
  | Sfixed64Implicit => (ImplicitMerge TSfixed64, VS64 0)
  | Sfixed64Packed => (RepeatedMerge TSfixed64, VList [])
  | Sfixed64Explicit => (ExplicitMerge TSfixed64, VOption None)
  | Sfixed64Expanded => (RepeatedMerge TSfixed64, VList [])
  | Uint64Implicit => (ImplicitMerge TUint64, VU64 0)
  | Uint64Packed => (RepeatedMerge TUint64, VList [])
  | Uint64Explicit => (ExplicitMerge TUint64, VOption None)
  | Uint64Expanded => (RepeatedMerge TUint64, VList [])
  | Fixed64Implicit => (ImplicitMerge TFixed64, VU64 0)
  | Fixed64Packed => (RepeatedMerge TFixed64, VList [])
  | Fixed64Explicit => (ExplicitMerge TFixed64, VOption None)
  | Fixed64Expanded => (RepeatedMerge TFixed64, VList [])
  | FloatImplicit => (ImplicitMerge TFloat, VFloat32 0)
  | FloatPacked => (RepeatedMerge TFloat, VList [])
  | FloatExplicit => (ExplicitMerge TFloat, VOption None)
  | FloatExpanded => (RepeatedMerge TFloat, VList [])
  | DoubleImplicit => (ImplicitMerge TDouble, VFloat64 0)
  | DoublePacked => (RepeatedMerge TDouble, VList [])
  | DoubleExplicit => (ExplicitMerge TDouble, VOption None)
  | DoubleExpanded => (RepeatedMerge TDouble, VList [])
  end.

Definition Merger_scalar (coding : ScalarCoding) : Merger * Val :=
  let (fn, default) := scalar_merge_and_default coding in
  (mkMerger fn [] ScalarUnit, default).

Section Scalars.
Context {W : WireOps}.

(** ** The inner decoders *)
Fixpoint get_bytes (n : nat) : Rd (list Val) :=
  match n with
  | O => rd_ret []
  | S n' =>
      let! b := rd_get_le 1 in
      let! bs := get_bytes n' in
      rd_ret (VU8 b :: bs)
  end.

Definition bytes_decode_inner : Rd Val :=
  let! length := read_length_check_overflow in
  let! bytes := get_bytes (Z.to_nat length) in
  rd_ret (VList bytes).

Definition rd_take_reader (n : nat) : Rd (list byte) :=
  rd_buf (fun src => Some (take_reader n src)).

Definition string_utf8_decode_inner : Rd Val :=
  let! length := read_length_check_overflow in
  let! bytes := rd_take_reader (Z.to_nat length) in
  if utf8_valid bytes then rd_ret (VString (bytes_string bytes))
  else rd_fail (DecodeError_new INVALID_UTF8).

Definition string_permissive_decode_inner : Rd Val :=
  let! length := read_length_check_overflow in
  let! bytes := rd_take_reader (Z.to_nat length) in
  rd_ret (VString (bytes_string bytes)).

Definition bool_decode_inner : Rd Val := fun limit src =>
  if 1 <=? limit then
    (let! byte := rd_get_le 1 in
     let! _ := take_limit 1 (DecodeError_new BUFFER_OVERFLOW) in
     if byte <=? 1 then rd_ret (VBool (negb (byte =? 0)))
     else rd_fail (DecodeError_new INVALID_BOOL)) limit src
  else Failed (DecodeError_new BUFFER_OVERFLOW).

Definition int32_decode_inner : Rd Val :=
  let! varint := read_varint INVALID_VARINT in
  if varint <? 2 ^ 31 then rd_ret (VS32 varint)
  else rd_fail (DecodeError_new OVERFLOW_32BIT).

Definition sint32_decode_inner : Rd Val :=
  let! varint := read_varint INVALID_VARINT in
  if varint <? 2 ^ 32 then
    rd_ret (VS32 (Z.lxor (as_i 32 (Z.shiftr varint 1)) (- as_i 32 (Z.land varint 1))))
  else rd_fail (DecodeError_new OVERFLOW_32BIT).

Definition uint32_decode_inner : Rd Val :=
  let! varint := read_varint INVALID_VARINT in
  if varint <? 2 ^ 32 then rd_ret (VU32 varint)
  else rd_fail (DecodeError_new OVERFLOW_32BIT).

Definition int64_decode_inner : Rd Val :=
  let! varint := read_varint INVALID_VARINT in
  rd_ret (VS64 (as_i 64 varint)).

(** [>>] is the arithmetic shift: [value] is already an [i64]. *)
Definition sint64_decode_inner : Rd Val :=
  let! varint := read_varint INVALID_VARINT in
  let value := as_i 64 varint in
  rd_ret (VS64 (Z.lxor (Z.shiftr value 1) (- Z.land value 1))).

Definition uint64_decode_inner : Rd Val :=
  let! value := read_varint INVALID_VARINT in
  rd_ret (VU64 value).

(** The fixed-width decoders share their shape: [n] is the width in bytes. *)
Definition fixed_decode_inner (n : nat) (wrap : Z -> Val) : Rd Val :=
  let! _ := take_limit (Z.of_nat n) (DecodeError_new BUFFER_UNDERFLOW) in
  let! bits := rd_get_le n in
  rd_ret (wrap bits).

Definition sfixed32_decode_inner : Rd Val := fixed_decode_inner 4 (fun z => VS32 (as_i 32 z)).
Definition fixed32_decode_inner : Rd Val := fixed_decode_inner 4 VU32.
Definition sfixed64_decode_inner : Rd Val := fixed_decode_inner 8 (fun z => VS64 (as_i 64 z)).
Definition fixed64_decode_inner : Rd Val := fixed_decode_inner 8 VU64.
Definition float_decode_inner : Rd Val := fixed_decode_inner 4 VFloat32.
Definition double_decode_inner : Rd Val := fixed_decode_inner 8 VFloat64.

(** ** The macros

    A merge function gets the wire type and the destination and returns the new one. *)
Definition Merge : Type := WireType -> Val -> Rd Val.

(** [singular_merge_fns!], explicit and implicit. *)
Definition singular_explicit (expected : WireType) (wire_type_error : string)
    (decode_inner : Rd Val) : Merge := fun wire_type dst =>
  if decide (wire_type = expected) then
    let! v := decode_inner in rd_ret (VOption (Some v))
  else rd_fail (DecodeError_new wire_type_error).

Definition singular_implicit (expected : WireType) (wire_type_error : string)
    (decode_inner : Rd Val) : Merge := fun wire_type dst =>
  if decide (wire_type = expected) then decode_inner
  else rd_fail (DecodeError_new wire_type_error).

(** The repeated function of [stringy_mergers!]. *)
Definition stringy_repeated (decode_inner : Rd Val) : Merge := fun wire_type dst =>
  match dst with
  | VList items =>
      if decide (wire_type = LengthDelimited) then
        let! v := rd_map_err (with_index (length items)) decode_inner in
        rd_ret (VList (items ++ [v]))
      else rd_fail (DecodeError_new WIRETYPE_NON_LENGTH_DELIMITED)
  | _ => rd_fail (DecodeError_new REPEATED_NON_LIST)
  end.

(** [while length > 0 { items.push(decode_inner(&mut length, src)?) }]. *)
Fixpoint packed_loop (fuel : nat) (decode_inner : Rd Val) (items : list Val)
    : Rd (list Val) := fun length src =>
  if 0 <? length then
    match fuel with
    | O => Crash FuelExhausted
    | S fuel' =>
        (let! v := rd_map_err (with_index (List.length items)) decode_inner in
         packed_loop fuel' decode_inner (items ++ [v])) length src
    end
  else Done (items, length, src).

(** Each turn lowers the limit, so [length] turns are enough. *)
Definition packed_items (length : Z) (decode_inner : Rd Val) (items : list Val)
    : Rd (list Val) :=
  with_limit length (packed_loop (Z.to_nat length) decode_inner items).

(** The repeated function of [numeric_mergers!], which accepts both packed and expanded. *)
Definition numeric_repeated (expected : WireType) (wire_type_error : string)
    (decode_inner : Rd Val) : Merge := fun wire_type dst =>
  match dst with
  | VList items =>
      if decide (wire_type = LengthDelimited) then
        let! length := read_length_check_overflow in
        let! items' := packed_items length decode_inner items in
        rd_ret (VList items')
      else if decide (wire_type = expected) then
        let! v := rd_map_err (with_index (length items)) decode_inner in
        rd_ret (VList (items ++ [v]))
      else rd_fail (DecodeError_new wire_type_error)
  | _ => rd_fail (DecodeError_new REPEATED_NON_LIST)
  end.

(** What an invocation of either macro defines. *)
Record Mergers := mkMergers {
  explicit_merge : Merge;
  implicit_merge : Merge;
  repeated_merge : Merge;
}.

Definition stringy_mergers (decode_inner : Rd Val) : Mergers :=
  mkMergers
    (singular_explicit LengthDelimited WIRETYPE_NON_LENGTH_DELIMITED decode_inner)
    (singular_implicit LengthDelimited WIRETYPE_NON_LENGTH_DELIMITED decode_inner)
    (stringy_repeated decode_inner).

Definition numeric_mergers (expected : WireType) (wire_type_error : string)
    (decode_inner : Rd Val) : Mergers :=
  mkMergers
    (singular_explicit expected wire_type_error decode_inner)
    (singular_implicit expected wire_type_error decode_inner)
    (numeric_repeated expected wire_type_error decode_inner).

(** ** The macro invocations *)
Definition bytes_mergers := stringy_mergers bytes_decode_inner.
Definition string_utf8_mergers := stringy_mergers string_utf8_decode_inner.
Definition string_permissive_mergers := stringy_mergers string_permissive_decode_inner.
Definition bool_mergers :=
  numeric_mergers Varint WIRETYPE_NON_VARINT bool_decode_inner.
Definition int32_mergers :=
  numeric_mergers Varint WIRETYPE_NON_VARINT int32_decode_inner.
Definition sint32_mergers :=
  numeric_mergers Varint WIRETYPE_NON_VARINT sint32_decode_inner.
Definition sfixed32_mergers :=
  numeric_mergers ThirtyTwoBit WIRETYPE_NON_32BIT sfixed32_decode_inner.
Definition uint32_mergers :=
  numeric_mergers Varint WIRETYPE_NON_VARINT uint32_decode_inner.
Definition fixed32_mergers :=
  numeric_mergers ThirtyTwoBit WIRETYPE_NON_32BIT fixed32_decode_inner.
Definition int64_mergers :=
  numeric_mergers Varint WIRETYPE_NON_VARINT int64_decode_inner.
Definition sint64_mergers :=
  numeric_mergers Varint WIRETYPE_NON_VARINT sint64_decode_inner.
Definition sfixed64_mergers :=
  numeric_mergers SixtyFourBit WIRETYPE_NON_64BIT sfixed64_decode_inner.
Definition uint64_mergers :=
  numeric_mergers Varint WIRETYPE_NON_VARINT uint64_decode_inner.
Definition fixed64_mergers :=
  numeric_mergers SixtyFourBit WIRETYPE_NON_64BIT fixed64_decode_inner.
Definition float_mergers :=
  numeric_mergers ThirtyTwoBit WIRETYPE_NON_32BIT float_decode_inner.
Definition double_mergers :=
  numeric_mergers SixtyFourBit WIRETYPE_NON_64BIT double_decode_inner.

(** The functions named after a type. *)
Definition mergers_of (t : ScalarType) : Mergers :=
  match t with
  | TBytes => bytes_mergers
  | TStringUtf8 => string_utf8_mergers
  | TStringPermissive => string_permissive_mergers
  | TBool => bool_mergers
  | TInt32 => int32_mergers
  | TSint32 => sint32_mergers
  | TSfixed32 => sfixed32_mergers
  | TUint32 => uint32_mergers
  | TFixed32 => fixed32_mergers
  | TInt64 => int64_mergers
  | TSint64 => sint64_mergers
  | TSfixed64 => sfixed64_mergers
  | TUint64 => uint64_mergers
  | TFixed64 => fixed64_mergers
  | TFloat => float_mergers
  | TDouble => double_mergers
  end.

Definition scalar_explicit_merge (t : ScalarType) : Merge := explicit_merge (mergers_of t).
Definition scalar_implicit_merge (t : ScalarType) : Merge := implicit_merge (mergers_of t).
Definition scalar_repeated_merge (t : ScalarType) : Merge := repeated_merge (mergers_of t).

Definition decode_inner_of (t : ScalarType) : Rd Val :=
  match t with
  | TBytes => bytes_decode_inner
  | TStringUtf8 => string_utf8_decode_inner
  | TStringPermissive => string_permissive_decode_inner
  | TBool => bool_decode_inner
  | TInt32 => int32_decode_inner
  | TSint32 => sint32_decode_inner
  | TSfixed32 => sfixed32_decode_inner
  | TUint32 => uint32_decode_inner
  | TFixed32 => fixed32_decode_inner
  | TInt64 => int64_decode_inner
  | TSint64 => sint64_decode_inner
  | TSfixed64 => sfixed64_decode_inner
  | TUint64 => uint64_decode_inner
  | TFixed64 => fixed64_decode_inner
  | TFloat => float_decode_inner
  | TDouble => double_decode_inner
  end.

Definition wire_type_of (t : ScalarType) : WireType :=
  match t with
  | TBytes | TStringUtf8 | TStringPermissive => LengthDelimited
  | TBool | TInt32 | TSint32 | TUint32 | TInt64 | TSint64 | TUint64 => Varint
  | TSfixed32 | TFixed32 | TFloat => ThirtyTwoBit
  | TSfixed64 | TFixed64 | TDouble => SixtyFourBit
  end.

End Scalars.

(** ** Typing, termination and crash freedom

    Every inner decoder returns a value of its type and consumes what it reads, so the
    packed loops end within their fuel; the only crash left is a panic on a short buffer. *)
Section ScalarFacts.
Context `{WL : WireLaws}.

Lemma reads_bytes n : reads false (Forall is_u8) (get_bytes n).
Proof.
  induction n as [|n IH]; simpl; [apply reads_ret; constructor |].
  apply (reads_bind false false (u_range 8)); [apply (reads_get_le 1) |]. intros b Hb.
  apply (reads_bind false false (Forall is_u8)); [done |]. intros bs Hbs.
  apply reads_ret. by constructor.
Qed.

Lemma reads_fixed n wrap (P : Val -> Prop) :
  (0 < n)%nat -> (forall z, u_range (8 * Z.of_nat n) z -> P (wrap z)) ->
  reads true P (fixed_decode_inner n wrap).
Proof.
  intros Hn HP. eapply (reads_bind true false); [apply reads_take_limit; lia |]. intros _ _.
  eapply (reads_bind false false); [apply reads_get_le |]. intros z Hz.
  apply reads_ret. auto.
Qed.

Lemma reads_bool : reads true (scalar_typed TBool) bool_decode_inner.
Proof.
  intros limit src Hl. unfold bool_decode_inner.
  destruct (Z.leb_spec 1 limit) as [H|H]; [|done].
  unfold rd_bind at 1, rd_get_le, rd_buf. destruct (get_le 1 src) as [[b s]|]; [|done].
  unfold rd_bind, take_limit. rewrite (proj2 (Z.ltb_ge _ _)) by lia.
  destruct (b <=? 1); simpl; [split_and!; [done | lia | lia] | done].
Qed.

(** Zigzag decoding stays within the width. *)
Lemma zigzag_range w z b :
  1 < w -> 0 <= z < 2 ^ (w - 1) -> b = 0 \/ b = 1 -> i_range w (Z.lxor z (- b)).
Proof.
  intros Hw Hz [->| ->].
  - change (- 0) with 0. rewrite Z.lxor_0_r. unfold i_range. lia.
  - change (- (1)) with (-1). rewrite Z.lxor_m1_r. unfold i_range, Z.lnot. lia.
Qed.

Lemma land_1_cases v : Z.land v 1 = 0 \/ Z.land v 1 = 1.
Proof.
  rewrite (Z.land_ones v 1 ltac:(lia) : Z.land v 1 = v mod 2).
  pose proof (Z.mod_pos_bound v 2). lia.
Qed.

Lemma sint32_range v :
  u_range 64 v -> v < 2 ^ 32 ->
  i_range 32 (Z.lxor (as_i 32 (Z.shiftr v 1)) (- as_i 32 (Z.land v 1))).
Proof.
  unfold u_range. intros Hv H.
  assert (Hs : 0 <= Z.shiftr v 1 < 2 ^ 31).
  { rewrite Z.shiftr_div_pow2 by lia. change (2 ^ 1) with 2.
    split; [apply Z.div_pos; lia | apply Z.div_lt_upper_bound; lia]. }
  assert (E : forall z, 0 <= z < 2 ^ 31 -> as_i 32 z = z).
  { intros z Hz. rewrite <- (as_u_id 32 z) by (unfold u_range; lia).
    rewrite as_i_as_u; [|lia|unfold i_range; lia]. apply eq_sym, as_u_id. unfold u_range; lia. }
  pose proof (land_1_cases v) as Hb.
  rewrite !E by lia. by apply zigzag_range.
Qed.

Lemma sint64_range v :
  u_range 64 v ->
  i_range 64 (Z.lxor (Z.shiftr (as_i 64 v) 1) (- Z.land (as_i 64 v) 1)).
Proof.
  intros _. pose proof (as_i_range 64 v ltac:(lia)) as Hi. unfold i_range in *.
  change (2 ^ (64 - 1)) with (2 * 2 ^ 62) in *.
  generalize dependent (as_i 64 v). intros z Hi. rewrite Z.shiftr_div_pow2 by lia.
  change (2 ^ 1) with 2. pose proof (Z.div_mod z 2 ltac:(lia)) as Hd.
  pose proof (Z.mod_pos_bound z 2 ltac:(lia)). generalize dependent (z / 2). intros q Hd.
  destruct (land_1_cases z) as [-> | ->].
  - change (- 0) with 0. rewrite Z.lxor_0_r. lia.
  - change (- (1)) with (-1). rewrite Z.lxor_m1_r. unfold Z.lnot. lia.
Qed.

(** Every scalar decodes to a value of its type. *)
Lemma reads_decode_inner t : reads true (scalar_typed t) (decode_inner_of t).
Proof.
  assert (V : forall (k : Z -> Rd Val) P, (forall v, u_range 64 v -> reads false P (k v)) ->
              reads true P (rd_bind (read_varint INVALID_VARINT) k)).
  { intros k P Hk. apply (reads_bind true false (u_range 64)); [apply reads_varint | done]. }
  assert (L : forall (k : Z -> Rd Val) P, (forall v, reads false P (k v)) ->
              reads true P (rd_bind read_length_check_overflow k)).
  { intros k P Hk. apply (reads_bind true false (u_range 32)); [apply reads_length | auto]. }
  destruct t; simpl.
  - apply L. intros n. apply (reads_bind false false (Forall is_u8)); [apply reads_bytes |].
    intros bs Hbs. by apply reads_ret.
  - apply L. intros n.
    apply (reads_bind false false (fun _ => True)); [by apply reads_buf |]. intros bs _.
    destruct (utf8_valid bs) eqn:E; [|apply reads_fail]. apply reads_ret. simpl.
    by rewrite string_bytes_string.
  - apply L. intros n.
    apply (reads_bind false false (fun _ => True)); [by apply reads_buf |]. intros bs _.
    by apply reads_ret.
  - apply reads_bool.
  - apply V. intros v Hv. destruct (Z.ltb_spec v (2 ^ 31)); [|apply reads_fail].
    apply reads_ret. simpl. unfold u_range, i_range in *. lia.
  - apply V. intros v Hv. destruct (Z.ltb_spec v (2 ^ 32)); [|apply reads_fail].
    apply reads_ret. by apply sint32_range.
  - apply reads_fixed; [lia |]. intros z _. by apply as_i_range.
  - apply V. intros v Hv. destruct (Z.ltb_spec v (2 ^ 32)); [|apply reads_fail].
    apply reads_ret. simpl. unfold u_range in *. lia.
  - apply reads_fixed; [lia | done].
  - apply V. intros v Hv. apply reads_ret. by apply as_i_range.
  - apply V. intros v Hv. apply reads_ret. by apply sint64_range.
  - apply reads_fixed; [lia |]. intros z _. by apply as_i_range.
  - apply V. intros v Hv. by apply reads_ret.
  - apply reads_fixed; [lia | done].
  - apply reads_fixed; [lia | done].
  - apply reads_fixed; [lia | done].
Qed.

(** ** The macros *)
Section Macros.
Context (P : Val -> Prop) (m : Rd Val) (Hm : reads true P m).

Lemma packed_loop_reads fuel items limit src :
  limit <= Z.of_nat fuel -> 0 <= limit -> Forall P items ->
  match packed_loop fuel m items limit src with
  | Done (items', limit', _) => Forall P items' /\ limit' = 0
  | Failed _ => True
  | Crash c => safe_crash c
  end.
Proof using Hm.
  revert items limit src. induction fuel as [|fuel IH]; intros items limit src Hf Hl HP; simpl;
    destruct (Z.ltb_spec 0 limit); try lia; try (split; [done | lia]).
  unfold rd_bind. pose proof (reads_map_err _ _ (with_index (length items)) m Hm limit src Hl).
  destruct (rd_map_err _ m limit src) as [[[v l'] s']| |]; [|done|done].
  apply IH; [lia | lia |]. apply Forall_app_2; [done |]. constructor; [tauto | constructor].
Qed.

Lemma reads_packed_items n items :
  0 <= n -> Forall P items -> reads false (Forall P) (packed_items n m items).
Proof using Hm.
  intros Hn HP limit src Hl. unfold packed_items, with_limit.
  pose proof (packed_loop_reads (Z.to_nat n) items n src) as H.
  destruct (packed_loop _ _ _ n src) as [[[v l'] s']| |]; [|done|].
  - split_and!; [apply H; [lia | lia | done] | lia | lia].
  - apply H; [lia | lia | done].
Qed.

Lemma reads_push items :
  Forall P items ->
  reads false (rep_typed Expanded P)
    (let! v := rd_map_err (with_index (length items)) m in rd_ret (VList (items ++ [v]))).
Proof using Hm.
  intros HP. eapply reads_false_of, (reads_bind true false P); [by apply reads_map_err |].
  intros v Hv. apply reads_ret. simpl. apply Forall_app_2; [done |]. by repeat constructor.
Qed.

Lemma reads_numeric_repeated w e wt dst :
  rep_typed Expanded P dst ->
  reads false (rep_typed Expanded P) (numeric_repeated w e m wt dst).
Proof using Hm WL.
  unfold numeric_repeated. destruct dst; try done. simpl. intros HP.
  case_decide; [| case_decide; [by apply reads_push | apply reads_fail]].
  eapply reads_false_of, (reads_bind true false (u_range 32)); [apply reads_length |].
  intros n Hn. unfold u_range in Hn.
  apply (reads_bind false false (Forall P)); [apply reads_packed_items; [lia | done] |].
  intros items' HP'. by apply reads_ret.
Qed.

Lemma reads_stringy_repeated wt dst :
  rep_typed Expanded P dst -> reads false (rep_typed Expanded P) (stringy_repeated m wt dst).
Proof using Hm.
  unfold stringy_repeated. destruct dst; try done. simpl. intros HP.
  case_decide; [by apply reads_push | apply reads_fail].
Qed.

Lemma reads_singular_explicit w e wt dst :
  reads false (some_typed P) (singular_explicit w e m wt dst).
Proof using Hm.
  unfold singular_explicit. case_decide; [|apply reads_fail].
  eapply reads_false_of, (reads_bind true false P); [done |]. intros v Hv. by apply reads_ret.
Qed.

Lemma reads_singular_implicit w e wt dst :
  reads false P (singular_implicit w e m wt dst).
Proof using Hm.
  unfold singular_implicit. case_decide; [|apply reads_fail]. by eapply reads_false_of.
Qed.

End Macros.

(** The merge function of a coding keeps a destination of its type in its type. *)
Lemma mergers_of_explicit t :
  exists e, explicit_merge (mergers_of t) = singular_explicit (wire_type_of t) e (decode_inner_of t).
Proof. destruct t; by eexists. Qed.

Lemma mergers_of_implicit t :
  exists e, implicit_merge (mergers_of t) = singular_implicit (wire_type_of t) e (decode_inner_of t).
Proof. destruct t; by eexists. Qed.

Lemma mergers_of_repeated t :
  repeated_merge (mergers_of t) = stringy_repeated (decode_inner_of t) \/
  exists e, repeated_merge (mergers_of t) = numeric_repeated (wire_type_of t) e (decode_inner_of t).
Proof. destruct t; first [by left | right; by eexists]. Qed.

Lemma reads_scalar_explicit t wt dst :
  reads false (some_typed (scalar_typed t)) (scalar_explicit_merge t wt dst).
Proof.
  unfold scalar_explicit_merge. destruct (mergers_of_explicit t) as [e ->].
  apply reads_singular_explicit, reads_decode_inner.
Qed.

Lemma reads_scalar_implicit t wt dst :
  reads false (scalar_typed t) (scalar_implicit_merge t wt dst).
Proof.
  unfold scalar_implicit_merge. destruct (mergers_of_implicit t) as [e ->].
  apply reads_singular_implicit, reads_decode_inner.
Qed.

Lemma reads_scalar_repeated t wt dst :
  rep_typed Expanded (scalar_typed t) dst ->
  reads false (rep_typed Expanded (scalar_typed t)) (scalar_repeated_merge t wt dst).
Proof.
  intros HP. pose proof (reads_decode_inner t). unfold scalar_repeated_merge.
  destruct (mergers_of_repeated t) as [->|[e ->]];
    [by apply reads_stringy_repeated | by apply reads_numeric_repeated].
Qed.

(** The default of a coding has its type. *)
Lemma scalar_default_typed c :
  rep_typed (scalar_shape c).2 (scalar_typed (scalar_shape c).1) (scalar_merge_and_default c).2.
Proof.
  destruct c; cbn -[Z.pow]; try exact I; try apply Forall_nil_2; try reflexivity;
    unfold u_range, i_range; lia.
Qed.

End ScalarFacts.
