(* ===== verification/DecodeCompound.v ===== *)
(** * Decoding messages, oneofs and enumerations

    Models [src/runtime/decode/compound.rs] and the entry points of
    [src/runtime/decode/lib.rs]: the compilation of a [Field] to a [Merger], the merge
    functions of compound types, and [RequestDecoder::decode].

    The merge functions call each other through the function pointer of a [Merger]; each
    takes that call as the argument [call], and [merge_with] ties the knot with a fuel that
    bounds the nesting of mergers ([merger_depth] is enough).  The [while] loops have the
    limit as their fuel. *)

From S2P Require Import Prelude Prost Wire Typing DecodeLib DecodeScalar.

#[local] Open Scope Z_scope.

(** ** Compilation *)
Inductive CompileContext :=
| InvalidMessage (number : Z)
| InvalidExpandedMessage (number : Z)
| InvalidOneofVariant (variant number : Z).

Inductive CompileError :=
| MissingCoding (number : Z)
| InvalidScalarCoding (number scalar_coding : Z)
| InvalidCompoundCoding (number compound_coding : Z)
| ImplicitEnumNoDefault (number : Z)
| VariantMissingCoding
| VariantInvalidScalarCoding (scalar_coding : Z)
| VariantInvalidCompoundCoding (compound_coding : Z)
| VariantNotExplicit
| InContext (context : CompileContext) (e : CompileError).

Definition compile_enum_variants (enumeration : Field) (fn : MergeFn) : Merger :=
  mkMerger fn []
    (EnumVariants (foldl (fun variants subfield =>
      <[field_number subfield := field_name subfield]> variants) ∅ (subfields enumeration))).

(** [merger.compound.enum_variants.get(&0)], right after [compile_enum_variants]. *)
Definition enum_default (m : Merger) : option string :=
  match compound m with EnumVariants variants => variants !! 0 | _ => None end.

Section Compile.
(** [compile_message], for the messages nested below. *)
Variable compile : Field -> MergeFn -> outcome CompileError Merger.

Definition compile_oneof_variant (variant : Field) : outcome CompileError Merger :=
  let? merger :=
    match coding variant with
    | None => Failed VariantMissingCoding
    | Some (ScalarCodingOf scalar_coding) =>
        if explicit_scalar scalar_coding then
          match scalar_coding_try_from scalar_coding with
          | Some c => Done (Merger_scalar c).1
          | None => Failed (VariantInvalidScalarCoding scalar_coding)
          end
        else Failed VariantNotExplicit
    | Some (CompoundCodingOf compound_coding) =>
        match compound_coding_try_from compound_coding with
        | None => Failed (VariantInvalidCompoundCoding compound_coding)
        | Some EnumExplicit => Done (compile_enum_variants variant EnumExplicitMerge)
        | Some Message => compile variant MessageOuterMerge
        | Some _ => Failed VariantNotExplicit
        end
    end in
  Done (mkMerger OneofVariantMerge [] (OneofVariant (field_name variant) merger)).

(** The loop over the variants of a oneof, which are flattened into the message. *)
Fixpoint compile_oneof_variants (number index : Z) (variants : list Field)
    (subs : gmap Z (Z * Merger)) : outcome CompileError (gmap Z (Z * Merger)) :=
  match variants with
  | [] => Done subs
  | variant :: variants' =>
      let? merger :=
        map_err (InContext (InvalidOneofVariant (field_number variant) number))
          (compile_oneof_variant variant) in
      compile_oneof_variants number index variants'
        (<[field_number variant := (index, merger)]> subs)
  end.

(** The arms of the match on [CompoundCoding]: the new subfield map and the default. *)
Definition compile_compound_subfield (index : Z) (subfield : Field) (c : CompoundCoding)
    (subs : gmap Z (Z * Merger)) : outcome CompileError (gmap Z (Z * Merger) * Val) :=
  let number := field_number subfield in
  let insert merger := <[number := (index, merger)]> subs in
  match c with
  | EnumImplicit =>
      let merger := compile_enum_variants subfield EnumImplicitMerge in
      match enum_default merger with
      | Some default => Done (insert merger, VEnum default)
      | None => Failed (ImplicitEnumNoDefault number)
      end
  | EnumPacked | EnumExpanded =>
      Done (insert (compile_enum_variants subfield EnumRepeatedMerge), VList [])
  | EnumExplicit =>
      Done (insert (compile_enum_variants subfield EnumExplicitMerge), VOption None)
  | Message =>
      let? merger := map_err (InContext (InvalidMessage number))
        (compile subfield MessageOuterMerge) in
      Done (insert merger, VOption None)
  | MessageExpanded =>
      let? merger := map_err (InContext (InvalidExpandedMessage number))
        (compile subfield MessageRepeatedMerge) in
      Done (insert merger, VList [])
  | Oneof =>
      let? subs' := compile_oneof_variants number index (subfields subfield) subs in
      Done (subs', VOption None)
  end.

(** The loop of [compile_message] over the subfields, by index. *)
Fixpoint compile_subfields (index : Z) (fields : list Field)
    (subs : gmap Z (Z * Merger)) (defs : list (string * Val))
    : outcome CompileError (gmap Z (Z * Merger) * list (string * Val)) :=
  match fields with
  | [] => Done (subs, defs)
  | subfield :: fields' =>
      match coding subfield with
      | None => Failed (MissingCoding (field_number subfield))
      | Some (ScalarCodingOf scalar_coding) =>
          match scalar_coding_try_from scalar_coding with
          | None => Failed (InvalidScalarCoding (field_number subfield) scalar_coding)
          | Some c =>
              let (merger, default) := Merger_scalar c in
              compile_subfields (index + 1) fields'
                (<[field_number subfield := (index, merger)]> subs)
                (defs ++ [(field_name subfield, default)])
          end
      | Some (CompoundCodingOf compound_coding) =>
          match compound_coding_try_from compound_coding with
          | None => Failed (InvalidCompoundCoding (field_number subfield) compound_coding)
          | Some c =>
              let? (subs', default) := compile_compound_subfield index subfield c subs in
              compile_subfields (index + 1) fields' subs'
                (defs ++ [(field_name subfield, default)])
          end
      end
  end.
End Compile.

Fixpoint compile_message (field : Field) (fn : MergeFn) {struct field}
    : outcome CompileError Merger :=
  let? (subs, defs) := compile_subfields compile_message 0 (subfields field) ∅ [] in
  Done (mkMerger fn defs (Subfields subs)).

(** [Merger::message_inner]. *)
Definition message_inner (message : Field) : outcome CompileError Merger :=
  compile_message message MessageInnerMerge.

(** ** Merging *)
(** The fuel [merge_with] needs: how deep mergers are nested. *)
Fixpoint merger_depth (m : Merger) : nat :=
  match compound m with
  | Subfields subs => S (map_fold (fun _ p acc => Nat.max (merger_depth p.2) acc) 0%nat subs)
  | OneofVariant _ m' => S (merger_depth m')
  | _ => 1%nat
  end.

Section Merging.
Context {W : WireOps}.

(** The unsafe reads of the union. *)
Definition union_subfields (m : Merger) : Rd (gmap Z (Z * Merger)) :=
  match compound m with Subfields subs => rd_ret subs | _ => rd_crash UndefinedBehaviour end.
Definition union_enum_variants (m : Merger) : Rd (gmap Z string) :=
  match compound m with EnumVariants vs => rd_ret vs | _ => rd_crash UndefinedBehaviour end.
Definition union_oneof_variant (m : Merger) : Rd (string * Merger) :=
  match compound m with
  | OneofVariant name m' => rd_ret (name, m')
  | _ => rd_crash UndefinedBehaviour
  end.

Definition enum_inner (merger : Merger) : Rd Val :=
  let! varint := read_varint INVALID_VARINT in
  if 2 ^ 32 <=? varint then rd_fail (DecodeError_new OVERFLOW_32BIT) else
  let! enum_variants := union_enum_variants merger in
  match (match enum_variants !! varint with
         | Some name => Some name
         | None => enum_variants !! 0
         end) with
  | Some name => rd_ret (VEnum name)
  | None => rd_fail (DecodeError_new ENUM_NO_DEFAULT)
  end.

Definition enum_explicit_merge (merger : Merger) : Merge := fun wire_type dst =>
  if decide (wire_type = Varint) then
    let! v := enum_inner merger in rd_ret (VOption (Some v))
  else rd_fail (DecodeError_new WIRETYPE_NON_VARINT).

Definition enum_implicit_merge (merger : Merger) : Merge := fun wire_type dst =>
  if decide (wire_type = Varint) then enum_inner merger
  else rd_fail (DecodeError_new WIRETYPE_NON_VARINT).

(** The same code as [numeric_mergers!] produces, around [enum_inner]. *)
Definition enum_repeated_merge (merger : Merger) : Merge :=
  numeric_repeated Varint WIRETYPE_NON_VARINT (enum_inner merger).

Section Messages.
(** [(merger.merge)(merger, wire_type, limit, src, dst)]. *)
Variable call : Merger -> Merge.

(** One turn of the loop of [message_inner_merge]. *)
Definition message_inner_field (merger : Merger) (fields : list (string * Val))
    : Rd (list (string * Val)) :=
  let! (field_number, wire_type) := decode_tag in
  let! subs := union_subfields merger in
  match subs !! field_number with
  | Some (index, subfield_merger) =>
      match fields !! Z.to_nat index with
      | Some (name, subdst) =>
          let! v := rd_map_err (with_field field_number)
                      (call subfield_merger wire_type subdst) in
          rd_ret (<[Z.to_nat index := (name, v)]> fields)
      | None => rd_fail (with_field field_number (DecodeError_new FIELD_INDEX_OUT_OF_BOUNDS))
      end
  | None =>
      let! _ := rd_map_err (with_field field_number) (skip wire_type) in
      rd_ret fields
  end.

(** [while *limit > 0 { ... }]. *)
Fixpoint message_inner_loop (fuel : nat) (merger : Merger) (fields : list (string * Val))
    : Rd (list (string * Val)) := fun limit src =>
  if 0 <? limit then
    match fuel with
    | O => Crash FuelExhausted
    | S fuel' =>
        (let! fields' := message_inner_field merger fields in
         message_inner_loop fuel' merger fields') limit src
    end
  else Done (fields, limit, src).

Definition message_inner_merge (merger : Merger) : Merge := fun _wire_type dst limit src =>
  match dst with
  | VRecord fields =>
      (let! fields' := message_inner_loop (Z.to_nat limit) merger fields in
       rd_ret (VRecord fields')) limit src
  | _ => Failed (DecodeError_new MESSAGE_NON_RECORD)
  end.

Definition message_outer_merge (merger : Merger) : Merge := fun wire_type dst =>
  if decide (wire_type = LengthDelimited) then
    let! length := read_length_check_overflow in
    let! value := with_limit length
      (message_inner_merge merger wire_type (VRecord (defaults merger))) in
    rd_ret (VOption (Some value))
  else rd_fail (DecodeError_new WIRETYPE_NON_LENGTH_DELIMITED).

Definition message_repeated_merge (merger : Merger) : Merge := fun wire_type dst =>
  match dst with
  | VList items =>
      if decide (wire_type = LengthDelimited) then
        let! length := rd_map_err (with_index (List.length items)) read_length_check_overflow in
        let! value := rd_map_err (with_index (List.length items)) (with_limit length
          (message_inner_merge merger wire_type (VRecord (defaults merger)))) in
        rd_ret (VList (items ++ [value]))
      else rd_fail (DecodeError_new WIRETYPE_NON_LENGTH_DELIMITED)
  | _ => rd_fail (DecodeError_new REPEATED_NON_LIST)
  end.

Definition oneof_variant_merge (merger : Merger) : Merge := fun wire_type dst =>
  let! (variant_name, variant_merger) := union_oneof_variant merger in
  let! value := call variant_merger wire_type (VOption None) in
  match value with
  | VOption value => rd_ret (VOption (Some (VVariant variant_name value)))
  | _ => rd_fail (DecodeError_new NON_EXPLICIT_ONEOF_VARIANT)
  end.
End Messages.

(** The dispatch of the function pointer. *)
Fixpoint merge_with (fuel : nat) (merger : Merger) : Merge :=
  match fuel with
  | O => fun _ _ => rd_crash FuelExhausted
  | S fuel' =>
      match merge merger with
      | ExplicitMerge t => scalar_explicit_merge t
      | ImplicitMerge t => scalar_implicit_merge t
      | RepeatedMerge t => scalar_repeated_merge t
      | MessageInnerMerge => message_inner_merge (merge_with fuel') merger
      | MessageOuterMerge => message_outer_merge (merge_with fuel') merger
      | MessageRepeatedMerge => message_repeated_merge (merge_with fuel') merger
      | OneofVariantMerge => oneof_variant_merge (merge_with fuel') merger
      | EnumExplicitMerge => enum_explicit_merge merger
      | EnumImplicitMerge => enum_implicit_merge merger
      | EnumRepeatedMerge => enum_repeated_merge merger
      end
  end.

(** ** [RequestDecoder] *)
(** [RequestDecoder::decode], over the whole buffer. *)
Definition decode (inner : Merger) (src : list byte) : outcome Status Val :=
  let remaining := Z.of_nat (length src) in
  if 2 ^ 32 <=? remaining then Failed (InvalidArgument "Request is too big") else
  let? (value, _, _) :=
    map_err (fun e => InvalidArgument (display_decode_error e))
      (merge_with (merger_depth inner) inner LengthDelimited (VRecord (defaults inner))
        remaining src) in
  Done value.

(** [RequestDecoder::new] and then [decode]. *)
Definition decode_request (request : Field) (src : list byte)
    : outcome CompileError (outcome Status Val) :=
  let? inner := message_inner request in Done (decode inner src).

End Merging.

(** [Drop for Merger]: the union field that is dropped, by the function pointer. *)
Inductive UnionField := FSubfields | FEnumVariants | FOneofVariant | FNothing.

#[export] Instance UnionField_eq_dec : EqDecision UnionField.
Proof. solve_decision. Defined.

Definition Merger_drop (m : Merger) : UnionField :=
  match merge m with
  | MessageInnerMerge | MessageOuterMerge | MessageRepeatedMerge => FSubfields
  | EnumExplicitMerge | EnumImplicitMerge | EnumRepeatedMerge => FEnumVariants
  | OneofVariantMerge => FOneofVariant
  | _ => FNothing
  end.

(** The field that was stored. *)
Definition union_field {M} (c : CompoundMerger M) : UnionField :=
  match c with
  | Subfields _ => FSubfields
  | EnumVariants _ => FEnumVariants
  | OneofVariant _ _ => FOneofVariant
  | ScalarUnit => FNothing
  end.

(** ** Nested mergers *)
Inductive nested : Merger -> Merger -> Prop :=
| nested_refl m : nested m m
| nested_subfield m subs number index m' d :
    compound m = Subfields subs -> subs !! number = Some (index, m') ->
    nested m' d -> nested m d
| nested_variant m name m' d :
    compound m = OneofVariant name m' -> nested m' d -> nested m d.

(** The drop of every merger below frees the union field that was stored. *)
Definition drop_safe (m : Merger) : Prop :=
  forall d, nested m d -> Merger_drop d = union_field (compound d).

Lemma merger_depth_subfields fn defs subs k i m :
  subs !! k = Some (i, m) -> (merger_depth m < merger_depth (mkMerger fn defs (Subfields subs)))%nat.
Proof.
  intros Hk. simpl. apply Nat.lt_succ_r. revert Hk.
  apply (map_fold_weak_ind (fun r (s : gmap Z (Z * Merger)) =>
    s !! k = Some (i, m) -> (merger_depth m <= r)%nat)); [by rewrite lookup_empty |].
  intros k' x s r _ IH. rewrite lookup_insert_Some.
  intros [[_ ->]|[_ H]]; simpl; [lia |]. specialize (IH H). lia.
Qed.

Lemma merger_depth_positive m : exists n, merger_depth m = S n.
Proof. destruct m as [? ? []]; simpl; eauto. Qed.

(** ** What a compiled merger does *)
Section Good.
Context `{WL : WireLaws}.

(** [good T R m]: merging into a destination of [T] gives a value of [R] (see [reads]), and
    dropping [m] is sound. *)
Record good (T R : Val -> Prop) (m : Merger) : Prop := {
  good_merge : forall fuel wt dst, (merger_depth m <= fuel)%nat -> T dst ->
    reads false R (merge_with fuel m wt dst);
  good_drop : drop_safe m;
}.

Lemma good_weaken T R R' m : (forall v, R v -> R' v) -> good T R m -> good T R' m.
Proof.
  intros HR [Hm Hd]. split; [|done]. intros fuel wt dst Hf Hdst.
  by eapply reads_weaken; [apply Hm | |].
Qed.

Lemma drop_safe_leaf m :
  Merger_drop m = union_field (compound m) ->
  match compound m with Subfields _ | OneofVariant _ _ => False | _ => True end -> drop_safe m.
Proof. intros H Hc d Hd. destruct Hd as [| ? ? ? ? ? ? E | ? ? ? ? E]; [done | |]; by rewrite E in Hc. Qed.

(** Scalars. *)
Lemma Merger_scalar_shape c :
  (Merger_scalar c).1 = mkMerger
    (match (scalar_shape c).2 with
     | Implicit => ImplicitMerge (scalar_shape c).1
     | Explicit => ExplicitMerge (scalar_shape c).1
     | Packed | Expanded => RepeatedMerge (scalar_shape c).1
     end) [] ScalarUnit.
Proof. by destruct c. Qed.

Lemma scalar_good c :
  good (rep_typed (scalar_shape c).2 (scalar_typed (scalar_shape c).1))
       (match (scalar_shape c).2 with
        | Explicit => some_typed (scalar_typed (scalar_shape c).1)
        | r => rep_typed r (scalar_typed (scalar_shape c).1)
        end) (Merger_scalar c).1.
Proof.
  rewrite Merger_scalar_shape. destruct (scalar_shape c) as [t r]. cbn [fst snd]. split.
  - intros fuel wt dst Hf Hdst. destruct fuel as [|fuel]; [simpl in Hf; lia |].
    destruct r; cbn [merge_with merge];
      first [ apply reads_scalar_explicit | apply reads_scalar_implicit
            | by apply reads_scalar_repeated ].
  - apply drop_safe_leaf; by destruct r.
Qed.

(** Enumerations. *)
Lemma enum_variants_lookup (subs : list Field) (m0 : gmap Z string) k name :
  foldl (fun variants sf => <[field_number sf := field_name sf]> variants) m0 subs !! k
    = Some name ->
  m0 !! k = Some name \/ name ∈ field_name <$> subs.
Proof.
  revert m0. induction subs as [|sf subs IH]; intros m0 H; simpl in *; [by left |].
  apply IH in H as [H|H]; [|right; by right].
  apply lookup_insert_Some in H as [[_ <-]|[_ H]]; [right; by left | by left].
Qed.

Lemma compile_enum_variants_lookup f fn k name :
  match compound (compile_enum_variants f fn) with
  | EnumVariants vs => vs !! k = Some name
  | _ => False
  end -> enum_typed (subfields f) (VEnum name).
Proof.
  simpl. intros H. apply enum_variants_lookup in H as [H|H]; [|done].
  by rewrite lookup_empty in H.
Qed.

Lemma reads_enum_inner f fn :
  reads true (enum_typed (subfields f)) (enum_inner (compile_enum_variants f fn)).
Proof.
  apply (reads_bind true false (u_range 64)); [apply reads_varint |].
  intros v Hv. destruct (Z.leb_spec (2 ^ 32) v); [apply reads_fail |].
  unfold union_enum_variants, rd_bind, rd_ret. simpl.
  set (vs := foldl _ _ _).
  assert (Hin : forall k name, vs !! k = Some name -> enum_typed (subfields f) (VEnum name))
    by (intros k name; apply (compile_enum_variants_lookup f fn k name)).
  destruct (vs !! v) as [name|] eqn:E1; [|destruct (vs !! 0) as [name|] eqn:E2].
  - apply reads_ret; eauto.
  - apply reads_ret; eauto.
  - apply reads_fail.
Qed.

Lemma enum_good f fn T R :
  (forall m wt dst, reads true (enum_typed (subfields f)) (enum_inner m) -> T dst ->
     reads false R (match fn with
       | EnumExplicitMerge => enum_explicit_merge m wt dst
       | EnumImplicitMerge => enum_implicit_merge m wt dst
       | EnumRepeatedMerge => enum_repeated_merge m wt dst
       | _ => rd_crash UndefinedBehaviour
       end)) ->
  match fn with EnumExplicitMerge | EnumImplicitMerge | EnumRepeatedMerge => True | _ => False end ->
  good T R (compile_enum_variants f fn).
Proof.
  intros HR Hfn. split.
  - intros fuel wt dst Hf HT. destruct fuel as [|fuel]; [simpl in Hf; lia |].
    pose proof (HR _ wt dst (reads_enum_inner f fn) HT) as H. by destruct fn.
  - apply drop_safe_leaf; [|done]. by destruct fn.
Qed.

Lemma enum_explicit_good f T :
  good T (some_typed (enum_typed (subfields f))) (compile_enum_variants f EnumExplicitMerge).
Proof.
  apply enum_good; [|done]. intros m wt dst Hm _. unfold enum_explicit_merge.
  case_decide; [|apply reads_fail].
  eapply reads_false_of, (reads_bind true false); [exact Hm |]. intros v Hv. by apply reads_ret.
Qed.

Lemma enum_implicit_good f T :
  good T (enum_typed (subfields f)) (compile_enum_variants f EnumImplicitMerge).
Proof.
  apply enum_good; [|done]. intros m wt dst Hm _. unfold enum_implicit_merge.
  case_decide; [|apply reads_fail]. by eapply reads_false_of.
Qed.

Lemma enum_repeated_good f :
  good (rep_typed Expanded (enum_typed (subfields f))) (rep_typed Expanded (enum_typed (subfields f)))
    (compile_enum_variants f EnumRepeatedMerge).
Proof. apply enum_good; [|done]. intros m wt dst Hm HT. by apply reads_numeric_repeated. Qed.

(** *** Messages *)
Definition subs_good (fields : list Field) (subs : gmap Z (Z * Merger)) : Prop :=
  forall k i m, subs !! k = Some (i, m) ->
  exists sf, fields !! Z.to_nat i = Some sf /\ good (typed sf) (typed sf) m.

Section Record.
Context (fields : list Field) (subs : gmap Z (Z * Merger)) (fn : MergeFn)
        (defs : list (string * Val)).
Hypothesis Hsubs : subs_good fields subs.
Hypothesis Hdefs : fields_typed typed fields defs.
Let m := mkMerger fn defs (Subfields subs).

Lemma fields_typed_insert i sf name v v' values :
  fields !! i = Some sf -> values !! i = Some (name, v) -> typed sf v' ->
  fields_typed typed fields values -> fields_typed typed fields (<[i := (name, v')]> values).
Proof using.
  rewrite !fields_typed_Forall2. intros Hi Hv Ht H.
  rewrite <- (list_insert_id fields i sf Hi). apply Forall2_insert; [done |].
  destruct (Forall2_lookup_lr _ _ _ _ _ _ H Hi Hv) as [Hn _]. by split.
Qed.

Lemma reads_message_inner_field fuel values :
  (merger_depth m <= S fuel)%nat -> fields_typed typed fields values ->
  reads true (fields_typed typed fields) (message_inner_field (merge_with fuel) m values).
Proof using Hsubs WL.
  intros Hf Hv. apply (reads_bind true false (fun p => u_range 32 p.1)); [apply reads_tag |].
  intros [k w] _. unfold union_subfields, rd_bind at 1, rd_ret at 1. simpl.
  destruct (subs !! k) as [[i sm]|] eqn:Ek.
  - destruct (Hsubs k i sm Ek) as (sf & Hi & Hg).
    destruct (values !! Z.to_nat i) as [[name v]|] eqn:Ev; [|apply reads_fail].
    apply (reads_bind false false (typed sf)).
    + apply reads_map_err. apply (good_merge _ _ _ Hg).
      * pose proof (merger_depth_subfields fn defs subs k i sm Ek). unfold m in Hf. lia.
      * rewrite fields_typed_Forall2 in Hv.
        by destruct (Forall2_lookup_lr _ _ _ _ _ _ Hv Hi Ev).
    + intros v' Hv'. apply reads_ret. by eapply fields_typed_insert.
  - eapply (reads_bind false false); [apply reads_map_err, reads_skip |].
    intros _ _. by apply reads_ret.
Qed.

Lemma reads_message_inner_loop fuel n values limit src :
  (merger_depth m <= S fuel)%nat -> fields_typed typed fields values ->
  0 <= limit <= Z.of_nat n ->
  match message_inner_loop (merge_with fuel) n m values limit src with
  | Done (values', limit', _) => fields_typed typed fields values' /\ limit' = 0
  | Failed _ => True
  | Crash c => safe_crash c
  end.
Proof using Hsubs WL.
  intros Hf. revert values limit src.
  induction n as [|n IH]; intros values limit src Hv Hl; simpl;
    destruct (Z.ltb_spec 0 limit); try lia; try (split; [done | lia]).
  unfold rd_bind. pose proof (reads_message_inner_field fuel values Hf Hv limit src) as H1.
  destruct (message_inner_field _ m values limit src) as [[[values' limit'] src']| |];
    [|done | apply H1; lia].
  destruct H1 as (? & ? & ?); [lia |]. apply IH; [done | lia].
Qed.

Lemma reads_message_inner fuel wt :
  (merger_depth m <= S fuel)%nat ->
  reads false (record_typed typed fields)
    (message_inner_merge (merge_with fuel) m wt (VRecord defs)).
Proof using Hsubs Hdefs WL.
  intros Hf limit src Hl. unfold message_inner_merge, rd_bind.
  pose proof (reads_message_inner_loop fuel (Z.to_nat limit) defs limit src Hf Hdefs) as H.
  destruct (message_inner_loop _ _ m defs limit src) as [[[values l'] s']| |];
    [|done | apply H; lia].
  destruct H as [? ->]; [lia |]. simpl. auto with lia.
Qed.

Lemma message_drop_safe :
  match fn with MessageInnerMerge | MessageOuterMerge | MessageRepeatedMerge => True | _ => False end ->
  drop_safe m.
Proof using Hsubs.
  intros Hfn d. assert (Em : exists m0, m0 = m) by eauto. destruct Em as [m0 Em].
  rewrite <- Em. intros Hd.
  destruct Hd as [| ? ? ? ? ? ? Ec Ek Hd | ? ? ? ? Ec Hd]; rewrite Em in *; simpl in *.
  - by destruct fn.
  - injection Ec as <-. destruct (Hsubs _ _ _ Ek) as (sf & _ & Hg). by apply (good_drop _ _ _ Hg).
  - discriminate.
Qed.

End Record.

(** [compile_message] of a field gives this, whatever merge function is stored. *)
Definition compiles_well (f : Field) : Prop :=
  forall fn m, compile_message f fn = Done m ->
  exists subs defs, m = mkMerger fn defs (Subfields subs)
    /\ subs_good (subfields f) subs /\ fields_typed typed (subfields f) defs.

Lemma message_outer_good f T m :
  compiles_well f -> compile_message f MessageOuterMerge = Done m ->
  good T (some_typed (record_typed typed (subfields f))) m.
Proof.
  intros Hf Hm. destruct (Hf _ _ Hm) as (subs & defs & -> & Hs & Hd). split.
  - intros fuel wt dst Hfuel _. destruct fuel as [|fuel]; [simpl in Hfuel; lia |].
    cbn [merge_with merge]. unfold message_outer_merge. case_decide; [|apply reads_fail].
    eapply reads_false_of, (reads_bind true false (u_range 32)); [apply reads_length |].
    unfold u_range. intros n Hn.
    apply (reads_bind false false (record_typed typed (subfields f))).
    + eapply reads_with_limit; [lia |]. by apply reads_message_inner.
    + intros v Hv. by apply reads_ret.
  - by apply (message_drop_safe (subfields f)).
Qed.

Lemma message_repeated_good f m :
  compiles_well f -> compile_message f MessageRepeatedMerge = Done m ->
  let T := rep_typed Expanded (record_typed typed (subfields f)) in good T T m.
Proof.
  intros Hf Hm T. destruct (Hf _ _ Hm) as (subs & defs & -> & Hs & Hd). split.
  - intros fuel wt dst Hfuel HT. destruct fuel as [|fuel]; [simpl in Hfuel; lia |].
    cbn [merge_with merge]. unfold message_repeated_merge.
    destruct dst; try apply reads_fail. case_decide; [|apply reads_fail].
    eapply reads_false_of, (reads_bind true false (u_range 32));
      [apply reads_map_err, reads_length |].
    unfold u_range. intros n Hn.
    apply (reads_bind false false (record_typed typed (subfields f))).
    + apply reads_map_err. eapply reads_with_limit; [lia |]. by apply reads_message_inner.
    + intros v Hv. apply reads_ret. simpl in *. apply Forall_app_2; [done |]. by repeat constructor.
  - by apply (message_drop_safe (subfields f)).
Qed.

(** *** Oneofs *)
(** The merger of a variant, before it is wrapped. *)
Definition some_of (T : Val -> Prop) (v : Val) : Prop :=
  match v with VOption (Some _) => T v | _ => False end.

Lemma some_typed_some_of T P v :
  (forall x, P x -> T (VOption (Some x))) -> some_typed P v -> some_of T v.
Proof. intros H. destruct v; try done. destruct o; simpl; [auto | done]. Qed.

Lemma explicit_scalar_shape n c :
  scalar_coding_try_from n = Some c -> explicit_scalar n = true -> (scalar_shape c).2 = Explicit.
Proof.
  intros Hc. apply scalar_coding_try_from_Some in Hc as <-. by destruct c.
Qed.

Lemma oneof_variant_good f variants v m :
  typed f = oneof_typed typed variants -> v ∈ variants -> compiles_well v ->
  compile_oneof_variant compile_message v = Done m -> good (typed f) (typed f) m.
Proof.
  intros Hf Hv Hw Hm. unfold compile_oneof_variant in Hm.
  apply obind_done in Hm as (m' & Hm' & [= <-]).
  assert (Hg : good (typed v) (some_of (typed v)) m' /\ typed v (VOption None)).
  { destruct (coding v) as [[n|n]|] eqn:Ec; [| |discriminate].
    - destruct (explicit_scalar n) eqn:Ee; [|discriminate].
      destruct (scalar_coding_try_from n) as [c|] eqn:En; [|discriminate].
      injection Hm' as <-. pose proof (scalar_good c) as Hg.
      pose proof (explicit_scalar_shape n c En Ee) as Es. rewrite Es in Hg.
      pose proof (fun x => typed_scalar v n c x Ec En) as Ht. rewrite Es in Ht.
      split; [|by rewrite Ht]. destruct Hg as [Hg Hd]. split; [|done].
      intros fuel wt dst Hfuel Hdst. rewrite Ht in Hdst.
      eapply reads_weaken; [by apply Hg | | done].
      intros x. apply some_typed_some_of. intros y. by rewrite Ht.
    - destruct (compound_coding_try_from n) as [c|] eqn:En; [|discriminate].
      pose proof (fun x => typed_compound v n c x Ec En) as Ht.
      destruct c; try discriminate Hm'.
      + injection Hm' as <-. split; [|by rewrite Ht]. eapply good_weaken, enum_explicit_good.
        intros x. apply some_typed_some_of. intros y. by rewrite Ht.
      + split; [|by rewrite Ht]. eapply good_weaken, message_outer_good; [|done..].
        intros x. apply some_typed_some_of. intros y. by rewrite Ht. }
  destruct Hg as [[Hg Hd] Hnone]. split.
  - intros fuel wt dst Hfuel Hdst. destruct fuel as [|fuel]; [simpl in Hfuel; lia |].
    cbn [merge_with merge]. unfold oneof_variant_merge, union_oneof_variant. simpl.
    apply (reads_bind false false (some_of (typed v))).
    + apply Hg; [simpl in Hfuel; lia | done].
    + intros x Hx. destruct x; try done. destruct o; [|done]. apply reads_ret.
      rewrite Hf. simpl. apply variant_typed_Exists. by exists v.
  - intros d Hnd. remember (mkMerger _ _ _) as m0 eqn:Em.
    destruct Hnd as [| ? ? ? ? ? ? E | ? ? ? ? E Hnd]; subst; simpl in *; [done | discriminate |].
    injection E as <- <-. by apply Hd.
Qed.

Lemma compile_oneof_variants_good fields i f k subs variants subs' :
  fields !! i = Some f -> typed f = oneof_typed typed (subfields f) ->
  (forall v, v ∈ variants -> v ∈ subfields f) -> Forall compiles_well variants ->
  subs_good fields subs ->
  compile_oneof_variants compile_message k (Z.of_nat i) variants subs = Done subs' ->
  subs_good fields subs'.
Proof.
  intros Hi Hf Hin HF. revert subs Hin.
  induction HF as [|v vs Hv HF IH]; intros subs Hin Hs H; simpl in H; [by injection H as <- |].
  apply obind_done in H as (m & Hm & H). apply map_err_done in Hm.
  eapply IH, H; [intros w Hw; apply Hin; by right |].
  intros k' i' m'. rewrite lookup_insert_Some. intros [[_ [= <- <-]]|[_ Hk]]; [|by eapply Hs].
  exists f. rewrite Nat2Z.id. split; [done |].
  eapply oneof_variant_good; [done | apply Hin; by left | done | done].
Qed.

(** *** Compilation *)
Lemma subs_good_insert fields subs k i f m :
  fields !! i = Some f -> good (typed f) (typed f) m -> subs_good fields subs ->
  subs_good fields (<[k := (Z.of_nat i, m)]> subs).
Proof.
  intros Hi Hg Hs k' i' m'. rewrite lookup_insert_Some.
  intros [[_ [= <- <-]]|[_ Hk]]; [|by eapply Hs]. exists f. by rewrite Nat2Z.id.
Qed.

Lemma compile_compound_subfield_good fields i f n c subs subs' default :
  fields !! i = Some f -> coding f = Some (CompoundCodingOf n) ->
  compound_coding_try_from n = Some c ->
  compiles_well f -> Forall compiles_well (subfields f) -> subs_good fields subs ->
  compile_compound_subfield compile_message (Z.of_nat i) f c subs = Done (subs', default) ->
  subs_good fields subs' /\ typed f default.
Proof.
  intros Hi Hc Hn Hw HF Hs H.
  assert (Ht : typed f = compound_typed c (subfields f))
    by (destruct f as [? ? ? cd]; simpl in *; rewrite Hc, Hn; by destruct c).
  destruct c; simpl in H.
  - destruct (enum_default _) as [d|] eqn:Ed; [|discriminate]. injection H as <- <-.
    split; [apply subs_good_insert with f; auto; rewrite Ht; apply enum_implicit_good |].
    rewrite Ht. by apply (compile_enum_variants_lookup f EnumImplicitMerge 0).
  - injection H as <- <-. rewrite Ht. split; [|apply Forall_nil_2].
    apply subs_good_insert with f; auto. rewrite Ht. apply enum_repeated_good.
  - injection H as <- <-. rewrite Ht. split; [|done].
    apply subs_good_insert with f; auto. rewrite Ht.
    eapply good_weaken, enum_explicit_good. apply some_typed_explicit.
  - injection H as <- <-. rewrite Ht. split; [|apply Forall_nil_2].
    apply subs_good_insert with f; auto. rewrite Ht. apply enum_repeated_good.
  - apply obind_done in H as (m & Hm & [= <- <-]). apply map_err_done in Hm.
    rewrite Ht. split; [|done]. apply subs_good_insert with f; auto. rewrite Ht.
    eapply good_weaken, message_outer_good; [apply some_typed_explicit | done..].
  - apply obind_done in H as (m & Hm & [= <- <-]). apply map_err_done in Hm.
    rewrite Ht. split; [|apply Forall_nil_2]. apply subs_good_insert with f; auto. rewrite Ht.
    by apply message_repeated_good.
  - apply obind_done in H as (s & Hm & [= <- <-]). rewrite Ht. split; [|done].
    by eapply compile_oneof_variants_good.
Qed.

Lemma compile_subfields_good pre fields subs defs subs' defs' :
  Forall (fun f => compiles_well f /\ Forall compiles_well (subfields f)) fields ->
  subs_good (pre ++ fields) subs -> fields_typed typed pre defs ->
  compile_subfields compile_message (Z.of_nat (length pre)) fields subs defs
    = Done (subs', defs') ->
  subs_good (pre ++ fields) subs' /\ fields_typed typed (pre ++ fields) defs'.
Proof.
  intros HF. revert pre subs defs. induction HF as [|f fields [Hf HF'] HF IH]; simpl.
  - intros pre subs defs Hs Hd [= <- <-]. by rewrite app_nil_r in *.
  - intros pre subs defs Hs Hd H.
    assert (Hi : (pre ++ f :: fields) !! length pre = Some f) by (by apply list_lookup_middle).
    assert (Hstep : forall subs1 v, subs_good (pre ++ f :: fields) subs1 -> typed f v ->
      compile_subfields compile_message (Z.of_nat (length pre) + 1) fields subs1
        (defs ++ [(field_name f, v)]) = Done (subs', defs') ->
      subs_good (pre ++ f :: fields) subs' /\ fields_typed typed (pre ++ f :: fields) defs').
    { intros subs1 v Hs1 Hv H1. rewrite (cons_middle f pre fields), app_assoc in *.
      apply (IH (pre ++ [f]) subs1 (defs ++ [(field_name f, v)])); [done | |].
      - rewrite fields_typed_Forall2 in *. apply Forall2_app; [done |]. by repeat constructor.
      - rewrite length_app. simpl. by replace (Z.of_nat (length pre + 1))
          with (Z.of_nat (length pre) + 1) by lia. }
    destruct (coding f) as [[n|n]|] eqn:Ec; [| |discriminate].
    + destruct (scalar_coding_try_from n) as [c|] eqn:En; [|discriminate].
      destruct (Merger_scalar c) as [m v] eqn:Em.
      assert (Ht : typed f = rep_typed (scalar_shape c).2 (scalar_typed (scalar_shape c).1))
        by (destruct f as [? ? ? cd]; simpl in *; by rewrite Ec, En).
      apply Hstep with (v := v) in H; [done | |].
      * apply subs_good_insert with f; [done | | done]. rewrite Ht.
        pose proof (scalar_good c) as Hg. rewrite Em in Hg. simpl in Hg.
        eapply good_weaken, Hg. destruct (scalar_shape c) as [t []]; try done.
        apply some_typed_explicit.
      * rewrite Ht. pose proof (scalar_default_typed c) as Hv. unfold Merger_scalar in Em.
        destruct (scalar_merge_and_default c). by injection Em as _ <-.
    + destruct (compound_coding_try_from n) as [c|] eqn:En; [|discriminate].
      apply obind_done in H as ([subs1 v] & H1 & H).
      destruct (compile_compound_subfield_good _ _ _ _ _ _ _ _ Hi Ec En Hf HF' Hs H1).
      by apply Hstep with (v := v) in H.
Qed.

Lemma compile_message_good f : compiles_well f /\ Forall compiles_well (subfields f).
Proof.
  induction f as [number name subs c HF] using Field_ind'. simpl.
  split; [|by eapply Forall_impl; [exact HF | intros ? []]].
  intros fn m H. simpl in H. apply obind_done in H as ([subs' defs] & H & [= <-]).
  exists subs', defs. split; [done |].
  apply (compile_subfields_good [] subs ∅ [] subs' defs); [done | | done | done].
  intros k i m. by rewrite lookup_empty.
Qed.

End Good.
