(* ===== verification/DecodeSpec.v ===== *)
(** * What the request decoder guarantees

    The properties of [RequestDecoder] as a whole, from the lemmas of [DecodeCompound]: the
    value of a request is typed by the metadata whatever the client sent, no union field is
    read or dropped that was not stored, no loop runs away, and unknown fields are skipped.
    The last section runs the decoder on concrete buffers. *)

From S2P Require Import Prelude Prost Wire Typing DecodeLib DecodeScalar DecodeCompound.

#[local] Open Scope Z_scope.

(** ** Concrete messages *)
Definition scalar_field (number : Z) (name : string) (c : ScalarCoding) : Field :=
  mkField number name [] (Some (ScalarCodingOf (scalar_coding_number c))).
Definition compound_field (number : Z) (name : string) (subs : list Field)
    (c : CompoundCoding) : Field :=
  mkField number name subs (Some (CompoundCodingOf (compound_coding_number c))).
Definition enum_value (number : Z) (name : string) : Field := mkField number name [] None.

Definition example_message : Field := mkField 0 "request"
  [ scalar_field 1 "id" Uint32Implicit;
    scalar_field 2 "name" StringUtf8Explicit;
    scalar_field 3 "deltas" Sint64Packed;
    compound_field 0 "choice"
      [ scalar_field 4 "fixed" Fixed32Explicit;
        compound_field 5 "color" [enum_value 0 "red"; enum_value 1 "blue"] EnumExplicit ] Oneof;
    compound_field 6 "child" [scalar_field 1 "flag" BoolImplicit] Message;
    compound_field 7 "children" [scalar_field 1 "half" Fixed32Implicit] MessageExpanded ] None.

(** [id: 300, name: "hi", deltas: [-1, 1], unknown 9: 7, color: blue, child: {flag: true}]. *)
Definition example_bytes : list byte :=
  map byte_of_Z [8; 172; 2;  18; 2; 104; 105;  26; 2; 1; 2;  72; 7;  40; 1;  50; 2; 8; 1].

Definition example_value : Val := VRecord
  [ ("id", VU32 300); ("name", VOption (Some (VString "hi")));
    ("deltas", VList [VS64 (-1); VS64 1]);
    ("choice", VOption (Some (VVariant "color" (Some (VEnum "blue")))));
    ("child", VOption (Some (VRecord [("flag", VBool true)])));
    ("children", VList []) ].

Definition example_inner : Merger :=
  match message_inner example_message with
  | Done m => m
  | _ => (Merger_scalar BytesImplicit).1
  end.

Lemma example_compiles : message_inner example_message = Done example_inner.
Proof. vm_compute. reflexivity. Qed.

Example example_decodes : decode example_inner example_bytes = Done example_value.
Proof. vm_compute. reflexivity. Qed.

(** ** Typing and safety *)
Section Spec.
Context `{WL : WireLaws}.

Lemma message_inner_reads request inner :
  message_inner request = Done inner ->
  reads false (message_typed request)
    (merge_with (merger_depth inner) inner LengthDelimited (VRecord (defaults inner))).
Proof.
  intros H. destruct (compile_message_good request) as [Hc _].
  destruct (Hc _ _ H) as (subs & defs & -> & Hs & Hd).
  destruct (merger_depth_positive (mkMerger MessageInnerMerge defs (Subfields subs))) as [n Hn].
  rewrite Hn. cbn [merge_with merge defaults].
  apply (reads_message_inner (subfields request)); [done | done |]. rewrite <- Hn. apply le_n.
Qed.

Lemma decode_reads request inner src :
  message_inner request = Done inner ->
  match decode inner src with
  | Done v => message_typed request v
  | Failed _ => True
  | Crash c => c = Panicked
  end.
Proof.
  intros H. unfold decode. cbv zeta. destruct (2 ^ 32 <=? _); [exact I |].
  pose proof (message_inner_reads request inner H (Z.of_nat (length src)) src ltac:(lia)) as Hr.
  destruct (merge_with _ _ _ _ _ src) as [[[v l] s]| |]; simpl in *; [tauto | done | done].
Qed.

(** C4. Whatever bytes a client sends, a request that decodes is a value of the message the
    component's metadata declares: the record has every field of the message, in order and
    under its name, and each value lies in the type (and integer width) of its coding.  The
    host casts the value into the component's parameters without checking it again. *)
Theorem decode_typed request inner src v :
  message_inner request = Done inner -> decode inner src = Done v ->
  message_typed request v.
Proof.
  intros H Hv. pose proof (decode_reads request inner src H) as Hr. by rewrite Hv in Hr.
Qed.

(** C25. Decoding ends (the fuel of the model's loops, the limit, is never exhausted), and
    never reads a field of the [Merger] union other than the one that was stored; the only
    way not to return is the panic of a buffer read past the end. *)
Theorem decode_no_undefined_behaviour request inner src c :
  message_inner request = Done inner -> decode inner src = Crash c -> c = Panicked.
Proof.
  intros H Hc. pose proof (decode_reads request inner src H) as Hr. by rewrite Hc in Hr.
Qed.

(** Dropping the merger compiled from a message drops, for it and every merger nested in
    it, exactly the union field that was stored. *)
Lemma merger_drops request inner m :
  message_inner request = Done inner -> nested inner m ->
  Merger_drop m = union_field (compound m).
Proof.
  intros H Hn. destruct (compile_message_good request) as [Hc _].
  destruct (Hc _ _ H) as (subs & defs & -> & Hs & Hd).
  by eapply (message_drop_safe (subfields request) subs MessageInnerMerge defs Hs).
Qed.

(** ** Unknown fields *)
(** The bytes of a field's payload, by wire type. *)
Inductive payload : WireType -> list byte -> Z -> Prop :=
| payload_varint v : u_range 64 v -> payload Varint (encode_varint v) (encoded_len_varint v)
| payload_64 bs : length bs = 8%nat -> payload SixtyFourBit bs 8
| payload_32 bs : length bs = 4%nat -> payload ThirtyTwoBit bs 4
| payload_length bs : u_range 32 (Z.of_nat (length bs)) ->
    payload LengthDelimited (encode_varint (Z.of_nat (length bs)) ++ bs)
      (encoded_len_varint (Z.of_nat (length bs)) + Z.of_nat (length bs))
| payload_start : payload StartGroup [] 0
| payload_end : payload EndGroup [] 0.

Lemma rd_advance_app bs rest limit :
  rd_advance (length bs) limit (bs ++ rest) = Done (tt, limit, rest).
Proof.
  unfold rd_advance, rd_buf. rewrite advance_enough by (rewrite length_app; lia).
  simpl. by rewrite drop_app_length.
Qed.

Lemma skip_payload w bs n limit rest :
  payload w bs n -> n <= limit -> skip w limit (bs ++ rest) = Done (tt, limit - n, rest).
Proof.
  intros Hp Hl. destruct Hp as [v Hv|bs Hbs|bs Hbs|bs Hbs| |]; cbn [skip].
  - unfold rd_bind. by rewrite read_varint_encode by done.
  - unfold rd_bind, take_limit. rewrite (proj2 (Z.ltb_ge _ _)), <- Hbs by lia.
    apply rd_advance_app.
  - unfold rd_bind, take_limit. rewrite (proj2 (Z.ltb_ge _ _)), <- Hbs by lia.
    apply rd_advance_app.
  - unfold rd_bind. rewrite <- app_assoc, read_length_encode by done.
    rewrite Nat2Z.id, rd_advance_app. by rewrite Z.sub_add_distr.
  - simpl. unfold rd_ret. by rewrite Z.sub_0_r.
  - simpl. unfold rd_ret. by rewrite Z.sub_0_r.
Qed.

Lemma payload_nonneg w bs n : payload w bs n -> 0 <= n.
Proof.
  destruct 1 as [v Hv|bs Hbs|bs Hbs|bs Hbs| |]; try lia.
  - pose proof (encoded_len_varint_range v Hv). lia.
  - assert (H : u_range 64 (Z.of_nat (length bs))) by (unfold u_range in *; lia).
    pose proof (encoded_len_varint_range _ H). lia.
Qed.

(** A field the message does not declare is skipped: one turn of the loop consumes its
    tag and payload, of any wire type, and leaves the record as it was. *)
Theorem unknown_field_skipped call fn defs subs fields number w bs n limit rest :
  let t := Z.lor (Z.shiftl number 3) (wire_type_number w) in
  subs !! number = None -> u_range 32 number -> payload w bs n ->
  encoded_len_varint t + n <= limit ->
  message_inner_field call (mkMerger fn defs (Subfields subs)) fields limit
      (encode_varint t ++ bs ++ rest)
    = Done (fields, limit - encoded_len_varint t - n, rest).
Proof.
  intros t Hsubs Hnum Hp Hl.
  pose proof (payload_nonneg w bs n Hp).
  subst t. unfold message_inner_field, rd_bind at 1. rewrite decode_tag_encode by (done || lia).
  unfold union_subfields, rd_bind, rd_ret. cbn [compound]. rewrite Hsubs.
  unfold rd_map_err. rewrite (skip_payload w bs n) by (done || lia). done.
Qed.

End Spec.

(** ** Witnesses *)
Lemma decode_typed_witness : message_typed example_message example_value.
Proof.
  apply (decode_typed (W := leb128_ops) example_message example_inner example_bytes);
    [exact example_compiles | vm_compute; reflexivity].
Defined.

(** ** The limit and the buffer can disagree *)
(** A message whose only field is [fixed32 half = 1]. *)
Definition fixed_message : Field := mkField 0 "m" [scalar_field 1 "half" Fixed32Implicit] None.

(** The tag [0x0d] written in two bytes, and then three bytes of the four. *)
Definition overlong_bytes : list byte := map byte_of_Z [0x8d; 0; 1; 2; 3].

Definition fixed_inner : Merger :=
  match message_inner fixed_message with Done m => m | _ => example_inner end.

Lemma fixed_compiles : message_inner fixed_message = Done fixed_inner.
Proof. vm_compute. reflexivity. Qed.

(** A varint that is longer than it need be moves the buffer further than the limit, so
    the check of a later fixed-width read against the limit passes where the buffer is too
    short: the read panics instead of returning "Buffer underflow". *)
Lemma overlong_panics :
  exists request inner src,
    message_inner request = Done inner /\ decode inner src = Crash Panicked.
Proof.
  exists fixed_message, fixed_inner, overlong_bytes.
  split; [exact fixed_compiles | vm_compute; reflexivity].
Qed.

Lemma decode_no_undefined_behaviour_witness : Panicked = Panicked.
Proof.
  apply (decode_no_undefined_behaviour (W := leb128_ops) fixed_message fixed_inner overlong_bytes);
    [exact fixed_compiles | vm_compute; reflexivity].
Defined.

(** A merger nested in an example. *)
Lemma example_nested : exists m, nested example_inner m /\ union_field (compound m) = FOneofVariant.
Proof.
  destruct (compound example_inner) as [subs| | |] eqn:Ec; [| vm_compute in Ec; discriminate ..].
  destruct (subs !! 5) as [[i m]|] eqn:Ek;
    [| injection Ec as <-; vm_compute in Ek; discriminate].
  exists m. split.
  - eapply nested_subfield; [exact Ec | exact Ek | apply nested_refl].
  - injection Ec as <-. vm_compute in Ek. injection Ek as <- <-. reflexivity.
Qed.

Lemma unknown_field_skipped_witness :
  message_inner_field (fun _ _ _ => rd_crash UndefinedBehaviour)
      (mkMerger MessageInnerMerge [] (Subfields ∅)) [] 10
      (encode_varint 74 ++ encode_varint 1 ++ [x2a] ++ [])
    = Done ([], 7, []).
Proof.
  assert (Hp : payload LengthDelimited (encode_varint 1 ++ [x2a]) 2)
    by exact (payload_length [x2a] (conj (Z.le_0_1) eq_refl)).
  assert (Hn : u_range 32 9) by (unfold u_range; lia).
  assert (Hl : encoded_len_varint (Z.lor (Z.shiftl 9 3) 2) + 2 <= 10)
    by (vm_compute; discriminate).
  exact (unknown_field_skipped (W := leb128_ops) (fun _ _ _ => rd_crash UndefinedBehaviour)
           MessageInnerMerge [] ∅ [] 9 LengthDelimited (encode_varint 1 ++ [x2a]) 2 10 []
           eq_refl Hn Hp Hl).
Defined.
