(* ===== verification/EncodeLib.v ===== *)
(** * Encoding: errors, the length stack, tags

    Models [src/runtime/encode/lib.rs] below its entry points.  Encoding makes two passes:
    a [LengthFn] pushes the lengths of all length-delimited parts on [lengths], back to
    front, and an [EncodeFn] pops them as it writes.  The model keeps [lengths] as a list
    whose head is the top of the [Vec].

    An [EncodeFn] returns the bytes it appends to [buf] and the stack it leaves.  Of a call
    that fails only the error is kept: tonic drops the buffer of a response that failed. *)

From S2P Require Import Prelude Prost Wire.
From stdpp Require Import pretty.

#[local] Open Scope Z_scope.

(** ** Error messages *)
Definition NO_ENCODER_FOR_FIELD := "Unexpected field name".
Definition MESSAGE_NON_OPTIONAL := "Submessage is not optional".
Definition MESSAGE_NON_RECORD := "Message is not a record".
Definition REPEATED_NON_LIST := "Repeated field is not a list".
Definition EXPLICIT_NON_OPTION := "Explicit field is not an option".
Definition BYTES_NON_LIST := "Bytes field is not a list".
Definition BYTE_NON_BYTE := "Byte item is not a byte".
Definition STRING_NON_STRING := "String field is not a string".
Definition BOOL_NON_BOOL := "Boolean field is not boolean".
Definition INT32_NON_INT32 := "Int32 field is not S32".
Definition SINT32_NON_SINT32 := "Sint32 field is not S32".
Definition SFIXED32_NON_SFIXED32 := "Sfixed32 field is not S32".
Definition UINT32_NON_UINT32 := "Uint32 field is not U32".
Definition FIXED32_NON_FIXED32 := "Fixed32 field is not U32".
Definition INT64_NON_INT64 := "Int64 field is not S64".
Definition SINT64_NON_SINT64 := "Sint64 field is not S64".
Definition SFIXED64_NON_SFIXED64 := "Sfixed64 field is not S64".
Definition UINT64_NON_UINT64 := "Uint64 field is not U64".
Definition FIXED64_NON_FIXED64 := "Fixed64 field is not U64".
Definition FLOAT_NON_FLOAT := "Float field is not Float32".
Definition DOUBLE_NON_DOUBLE := "Double field is not Float64".
Definition ENUM_NON_ENUM := "Enum field is not an enumeration".
Definition ENUM_VARIANT_UNRECOGNIZED := "Unrecognized enum variant".
Definition ONEOF_NON_OPTIONAL := "Oneof field is not optional".
Definition ONEOF_NON_VARIANT := "Oneof field is not a variant".
Definition ONEOF_VARIANT_UNRECOGNIZED := "Unrecognized oneof variant".
Definition ONEOF_VARIANT_NO_PAYLOAD := "Oneof variant lacks a payload".
Definition LENGTH_INCONSISTENCY := "Length pre-computation algorithm error".

(** ** [EncodeError] *)
Inductive EncodeLevel :=
| EField (name : string)
| EIndex (i : nat).

Record EncodeError := mkEncodeError {
  e_message : string;
  e_traceback : list EncodeLevel;
}.

Definition EncodeError_new (msg : string) : EncodeError := mkEncodeError msg [].

Definition e_with_field (name : string) (e : EncodeError) : EncodeError :=
  mkEncodeError (e_message e) (e_traceback e ++ [EField name]).

Definition e_with_index (i : nat) (e : EncodeError) : EncodeError :=
  mkEncodeError (e_message e) (e_traceback e ++ [EIndex i]).

(** [Display] hides the cause from the client, [Debug] shows it in the log. *)
Definition display_encode_error (e : EncodeError) : string := "Response serialization error".

Definition format_encode_level (level : EncodeLevel) : string :=
  match level with
  | EField name => "." +:+ name
  | EIndex i => "[" +:+ pretty i +:+ "]"
  end.

Definition debug_encode_error (e : EncodeError) : string :=
  "EncodeError(" +:+ foldr (fun level acc => format_encode_level level +:+ acc) ""
    (rev (e_traceback e)) +:+ "): " +:+ e_message e.

(** ** [Encoder] *)
(** The types the scalar functions are named after; both kinds of string share theirs. *)
Inductive EncodedType :=
| EBytes | EString | EBool | EInt32 | ESint32 | ESfixed32 | EUint32 | EFixed32
| EInt64 | ESint64 | ESfixed64 | EUint64 | EFixed64 | EFloat | EDouble.

(** A function pointer: [f] stands for [f_encode] as an [EncodeFn] and for [f_length] as a
    [LengthFn]. *)
Inductive CodecFn :=
| ScalarFn (t : EncodedType) (r : Repetition)
| MessageInnerFn
| MessageOuterFn
| MessageRepeatedFn
| OneofFn
| EnumFn (r : Repetition).

(** [CompoundEncoder] is a [union]; the model keeps which field was stored. *)
Inductive CompoundEncoder (E : Type) :=
| ESubfields (m : gmap string E)
| EVariants (m : gmap string Z)
| EScalarUnit.
Arguments ESubfields {E} m.
Arguments EVariants {E} m.
Arguments EScalarUnit {E}.

Inductive Encoder := mkEncoder {
  encode_fn : CodecFn;
  length_fn : CodecFn;
  encoder_tag : Z;
  encoder_compound : CompoundEncoder Encoder;
}.

(** ** Tags *)
Definition tag (number : Z) (wire_type : WireType) : Z :=
  Z.lor (as_u 64 (Z.shiftl (as_u 64 number) 3)) (wire_type_number wire_type).

(** ** The two passes *)
(** [EncodeFn], with the bytes appended as a result. *)
Definition Enc : Type := list Z -> outcome EncodeError (list byte * list Z).
(** [LengthFn]: the length, and the stack with the lengths it pushed. *)
Definition Len : Type := list Z -> outcome EncodeError (Z * list Z).

Definition enc_write (bytes : list byte) : Enc := fun lengths => Done (bytes, lengths).
Definition enc_fail (e : EncodeError) : Enc := fun _ => Failed e.
Definition enc_seq (m1 m2 : Enc) : Enc := fun lengths =>
  let? (bytes1, lengths1) := m1 lengths in
  let? (bytes2, lengths2) := m2 lengths1 in
  Done (bytes1 ++ bytes2, lengths2).
Definition enc_lift (m : outcome EncodeError (list byte)) : Enc := fun lengths =>
  let? bytes := m in Done (bytes, lengths).
Definition enc_map_err (f : EncodeError -> EncodeError) (m : Enc) : Enc := fun lengths =>
  map_err f (m lengths).

(** [if let Some(length) = lengths.pop() { k(length) } else { Err(e) }]. *)
Definition enc_pop (e : EncodeError) (k : Z -> Enc) : Enc := fun lengths =>
  match lengths with
  | length :: lengths' => k length lengths'
  | [] => Failed e
  end.

Definition len_ret (n : Z) : Len := fun lengths => Done (n, lengths).
Definition len_fail (e : EncodeError) : Len := fun _ => Failed e.
Definition len_bind (m : Len) (k : Z -> Len) : Len := fun lengths =>
  let? (n, lengths') := m lengths in k n lengths'.
Definition len_map_err (f : EncodeError -> EncodeError) (m : Len) : Len := fun lengths =>
  map_err f (m lengths).
Definition len_lift (m : outcome EncodeError Z) : Len := fun lengths =>
  let? n := m in Done (n, lengths).
(** [lengths.push(n)]. *)
Definition len_push (n : Z) (k : Len) : Len := fun lengths => k (n :: lengths).

(** Plain [u32] and [usize] arithmetic, which panics when it overflows. *)
Definition checked (w z : Z) : outcome EncodeError Z :=
  if z <? 2 ^ w then Done z else Crash Panicked.

(** ** The contract between the passes

    [agrees len enc ref]: whatever [len] pushes, [enc] pops; if the length it computes does
    not saturate, [enc] then does what the one-pass reference [ref] does, and the length is
    the number of bytes; and if the reference writes less than [u32::MAX] bytes, [len]
    succeeds. *)
Record agrees (len : Len) (enc : Enc) (ref : outcome EncodeError (list byte)) : Prop := {
  agrees_sound : forall lengths n lengths', len lengths = Done (n, lengths') ->
    0 <= n <= u32_max /\ (n < u32_max -> exists pushed, lengths' = pushed ++ lengths /\
      forall lengths0, enc (pushed ++ lengths0) = (let? bs := ref in Done (bs, lengths0)) /\
        match ref with
        | Done bs => Z.of_nat (length bs) = n
        | Failed _ => True
        | Crash _ => False
        end);
  agrees_complete : forall lengths bs, ref = Done bs -> Z.of_nat (length bs) < u32_max ->
    exists lengths', len lengths = Done (Z.of_nat (length bs), lengths');
}.

Lemma u32_saturating_add_exact a b :
  u32_saturating_add a b < u32_max -> u32_saturating_add a b = a + b.
Proof. unfold u32_saturating_add. lia. Qed.

Lemma u32_saturating_add_small a b :
  a + b < u32_max -> u32_saturating_add a b = a + b.
Proof. unfold u32_saturating_add. lia. Qed.

Lemma u32_saturating_add_range a b :
  0 <= a -> 0 <= b -> 0 <= u32_saturating_add a b <= u32_max.
Proof. unfold u32_saturating_add, u32_max. lia. Qed.

Lemma tag_small number w :
  u_range 32 number -> tag number w = Z.lor (Z.shiftl number 3) (wire_type_number w).
Proof.
  unfold u_range, tag. intros Hn. rewrite (as_u_id 64 number) by (unfold u_range; lia).
  rewrite as_u_id; [done |]. unfold u_range. rewrite Z.shiftl_mul_pow2 by lia.
  change (2 ^ 3) with 8. lia.
Qed.

Lemma log2_small z w : 0 <= z < 2 ^ w -> 0 < w -> Z.log2 z < w.
Proof.
  intros Hz Hw. destruct (Z.eq_dec z 0) as [->|]; [simpl; lia | apply Z.log2_lt_pow2; lia].
Qed.

Lemma tag_range number w : u_range 64 (tag number w).
Proof.
  unfold tag. pose proof (wire_type_number_range w) as Hw.
  pose proof (as_u_range 64 (Z.shiftl (as_u 64 number) 3) ltac:(lia)) as Hs.
  generalize dependent (as_u 64 (Z.shiftl (as_u 64 number) 3)). intros s Hs.
  unfold u_range in *.
  assert (H0 : 0 <= Z.lor s (wire_type_number w)) by (apply Z.lor_nonneg; lia).
  split; [done |].
  destruct (Z.eq_dec (Z.lor s (wire_type_number w)) 0) as [->|Hne]; [lia |].
  apply Z.log2_lt_pow2; [lia |]. rewrite Z.log2_lor by lia.
  apply Z.max_lub_lt; apply log2_small; lia.
Qed.

(** ** Building the contract *)
Section Contract.
Context `{WL : WireLaws}.

(** The contract of an item, which touches no stack. *)
Record item_agrees (n : outcome EncodeError Z) (ref : outcome EncodeError (list byte)) : Prop := {
  item_sound : forall k, n = Done k -> 0 <= k <= u32_max /\ (k < u32_max ->
    match ref with
    | Done bs => Z.of_nat (length bs) = k
    | Failed _ => True
    | Crash _ => False
    end);
  item_complete : forall bs, ref = Done bs -> Z.of_nat (length bs) < u32_max ->
    n = Done (Z.of_nat (length bs));
}.

Lemma agrees_lift n ref : item_agrees n ref -> agrees (len_lift n) (enc_lift ref) ref.
Proof.
  intros [Hs Hc]. split.
  - unfold len_lift. intros lengths k lengths' H.
    apply obind_done in H as (k' & Hk & [= -> ->]). destruct (Hs k Hk) as [H0 H1].
    split; [done |]. intros Hm. exists []. split; [done |]. intros lengths0.
    split; [done |]. by apply H1.
  - intros lengths bs Hr Hm. exists lengths. unfold len_lift. by rewrite (Hc bs Hr Hm).
Qed.

Lemma agrees_fail e e' enc : agrees (len_fail e) enc (Failed e').
Proof. split; intros *; discriminate. Qed.

Lemma agrees_ret_fail n e : 0 <= n <= u32_max -> agrees (len_ret n) (enc_fail e) (Failed e).
Proof.
  intros Hn. split; [|intros *; discriminate].
  intros lengths k lengths' [= <- <-]. split; [done |]. intros _. by exists [].
Qed.

Lemma agrees_nothing : agrees (len_ret 0) (enc_write []) (Done []).
Proof.
  split.
  - intros lengths n lengths' [= <- <-]. split; [by unfold u32_max |]. intros _. by exists [].
  - intros lengths bs [= <-] _. by exists lengths.
Qed.

Lemma agrees_ext len len' enc enc' ref ref' :
  (forall l, len l = len' l) -> (forall l, enc l = enc' l) -> ref = ref' ->
  agrees len enc ref -> agrees len' enc' ref'.
Proof.
  intros Hl He <- [Hs Hc]. split.
  - intros lengths n lengths'. rewrite <- Hl. intros H.
    destruct (Hs _ _ _ H) as [H0 H1]. split; [done |]. intros Hm.
    destruct (H1 Hm) as (pushed & ? & Hp). exists pushed. split; [done |].
    intros lengths0. rewrite <- He. apply Hp.
  - intros lengths bs Hr Hm. rewrite <- Hl. by apply Hc.
Qed.

Lemma agrees_map_err len enc ref f g :
  agrees len enc ref ->
  agrees (len_map_err g len) (enc_map_err f enc) (map_err f ref).
Proof.
  intros [Hs Hc]. split.
  - unfold len_map_err. intros lengths n lengths' H. apply map_err_done in H.
    destruct (Hs _ _ _ H) as [H0 H1]. split; [done |]. intros Hm.
    destruct (H1 Hm) as (pushed & ? & Hp). exists pushed. split; [done |].
    intros lengths0. destruct (Hp lengths0) as [He Hr]. unfold enc_map_err. rewrite He.
    by destruct ref.
  - intros lengths bs Hr Hm. apply map_err_done in Hr.
    destruct (Hc lengths bs Hr Hm) as [lengths' H]. exists lengths'. unfold len_map_err.
    by rewrite H.
Qed.

(** A tag and an item. *)
Lemma item_tagged t n ref :
  u_range 64 t -> item_agrees n ref ->
  item_agrees (let? k := n in Done (u32_saturating_add k (encoded_len_varint t)))
    (let? bs := ref in Done (encode_varint t ++ bs)).
Proof.
  intros Ht [Hs Hc]. pose proof (encoded_len_varint_range t Ht) as Hr.
  pose proof (length_encode_varint t Ht) as Hl. split.
  - intros k H. apply obind_done in H as (k' & Hk & [= <-]).
    destruct (Hs k' Hk) as [H0 H1]. split; [apply u32_saturating_add_range; lia |].
    intros Hm. pose proof (u32_saturating_add_exact _ _ Hm) as E. rewrite E in *.
    specialize (H1 ltac:(lia)). destruct ref; simpl; [rewrite length_app; lia | done | done].
  - intros bs H Hm. apply obind_done in H as (bs' & Hb & [= <-]).
    rewrite length_app in *. rewrite (Hc bs' Hb) by lia. simpl.
    rewrite u32_saturating_add_small by lia. f_equal. lia.
Qed.

(** A length-delimited field: the content's length is pushed after what the content itself
    pushes, so it is popped before. *)
Definition delimited (t : Z) (ref : outcome EncodeError (list byte)) :
    outcome EncodeError (list byte) :=
  let? bs := ref in
  Done (encode_varint t ++ encode_varint (Z.of_nat (length bs)) ++ bs).

Definition len_delimited (t : Z) (len : Len) : Len :=
  len_bind len (fun total => len_push total (len_ret
    (u32_saturating_add total (encoded_len_varint t + encoded_len_varint total)))).

Definition enc_delimited (t : Z) (e : EncodeError) (enc : Enc) : Enc :=
  enc_pop e (fun length => enc_seq (enc_write (encode_varint t ++ encode_varint length)) enc).

Lemma agrees_delimited t e len enc ref :
  u_range 64 t -> agrees len enc ref ->
  agrees (len_delimited t len) (enc_delimited t e enc) (delimited t ref).
Proof.
  intros Ht [Hs Hc]. pose proof (encoded_len_varint_range t Ht) as Hr.
  pose proof (length_encode_varint t Ht) as Hl. split.
  - intros lengths n lengths' H. unfold len_delimited, len_bind in H.
    apply obind_done in H as ([k l1] & Hk & [= <- <-]).
    destruct (Hs _ _ _ Hk) as [H0 H1].
    assert (Hk64 : u_range 64 k) by (unfold u_range, u32_max in *; lia).
    pose proof (encoded_len_varint_range k Hk64). pose proof (length_encode_varint k Hk64) as Hlk.
    split; [apply u32_saturating_add_range; lia |].
    intros Hm. pose proof (u32_saturating_add_exact _ _ Hm) as E. rewrite E in *.
    destruct (H1 ltac:(lia)) as (pushed & -> & Hp). exists (k :: pushed). split; [done |].
    intros lengths0. destruct (Hp lengths0) as [He Hb]. unfold enc_delimited, enc_seq.
    simpl. rewrite He. destruct ref as [bs| |]; simpl; [|done|done]. subst k.
    split; [by rewrite <- !app_assoc |]. rewrite !length_app. lia.
  - intros lengths bs H Hm. apply obind_done in H as (bs' & -> & [= <-]).
    rewrite !length_app in *.
    destruct (Hc lengths bs' eq_refl) as [l1 Hl1]; [lia |].
    assert (Hk64 : u_range 64 (Z.of_nat (length bs'))) by (unfold u_range, u32_max in *; lia).
    pose proof (length_encode_varint _ Hk64).
    unfold len_delimited, len_bind. rewrite Hl1. simpl.
    exists (Z.of_nat (length bs') :: l1). unfold len_push, len_ret. repeat f_equal.
    rewrite u32_saturating_add_small by lia. lia.
Qed.

(** Two parts: the length pass visits the second one first. *)
Lemma agrees_seq len1 enc1 ref1 len2 enc2 ref2 :
  agrees len1 enc1 ref1 -> agrees len2 enc2 ref2 ->
  agrees (len_bind len2 (fun total => len_bind len1 (fun n => len_ret (u32_saturating_add total n))))
    (enc_seq enc1 enc2)
    (let? bs1 := ref1 in let? bs2 := ref2 in Done (bs1 ++ bs2)).
Proof.
  intros [Hs1 Hc1] [Hs2 Hc2]. split.
  - intros lengths n lengths' H. unfold len_bind in H.
    apply obind_done in H as ([n2 l2] & H2 & H). apply obind_done in H as ([n1 l1] & H1 & [= <- <-]).
    destruct (Hs2 _ _ _ H2) as [Hn2 Hp2]. destruct (Hs1 _ _ _ H1) as [Hn1 Hp1].
    split; [apply u32_saturating_add_range; lia |].
    intros Hm. pose proof (u32_saturating_add_exact _ _ Hm) as E. rewrite E in *.
    destruct (Hp2 ltac:(lia)) as (p2 & -> & He2). destruct (Hp1 ltac:(lia)) as (p1 & -> & He1).
    exists (p1 ++ p2). split; [by rewrite app_assoc |]. intros lengths0.
    unfold enc_seq. rewrite <- app_assoc. destruct (He1 (p2 ++ lengths0)) as [-> Hr1].
    destruct (He2 lengths0) as [He2' Hr2]. destruct ref1; simpl; [|done|done].
    rewrite He2'. destruct ref2; simpl; [|done|done]. rewrite length_app. split; [done | lia].
  - intros lengths bs H Hm. apply obind_done in H as (bs1 & Hb1 & H).
    apply obind_done in H as (bs2 & Hb2 & [= <-]). rewrite length_app in *.
    destruct (Hc2 lengths bs2 Hb2) as [l2 H2]; [lia |].
    destruct (Hc1 l2 bs1 Hb1) as [l1 H1]; [lia |].
    exists l1. unfold len_bind. rewrite H2. simpl. rewrite H1. simpl. unfold len_ret.
    repeat f_equal. rewrite u32_saturating_add_small by lia. lia.
Qed.

Lemma agrees_never len enc ref :
  (forall l r, len l <> Done r) -> (forall bs, ref <> Done bs) -> agrees len enc ref.
Proof.
  intros Hl Hr. split; [intros lengths n lengths' H | intros lengths bs H];
    [by destruct (Hl lengths (n, lengths')) | by destruct (Hr bs)].
Qed.

(** A length function that differs only where the length saturates. *)
Lemma agrees_len_refine len len' enc ref :
  (forall l r, len' l = Done r -> len l = Done r) ->
  (forall l n l', len l = Done (n, l') -> n < u32_max -> len' l = Done (n, l')) ->
  agrees len enc ref -> agrees len' enc ref.
Proof.
  intros H1 H2 [Hs Hc]. split.
  - intros lengths n lengths' H. by apply Hs, H1.
  - intros lengths bs Hr Hm. destruct (Hc lengths bs Hr Hm) as [l' Hl]. exists l'. by apply H2.
Qed.

End Contract.

(** ** Counting pushes and pops *)
Definition pushes (k : nat) (len : Len) : Prop :=
  forall l n l', len l = Done (n, l') -> exists p, l' = p ++ l /\ length p = k.
Definition pops (k : nat) (enc : Enc) : Prop :=
  forall l bs l', enc l = Done (bs, l') -> exists p, l = p ++ l' /\ length p = k.

Section Counting.
Implicit Types (len : Len) (enc : Enc).

Lemma pushes_lift m : pushes 0 (len_lift m).
Proof. intros l n l' H. apply obind_done in H as (? & _ & [= _ <-]). by exists []. Qed.

Lemma pushes_ret n : pushes 0 (len_ret n).
Proof. intros l k l' [= _ <-]. by exists []. Qed.

Lemma pushes_fail k e : pushes k (len_fail e).
Proof. intros l n l' H. discriminate. Qed.

Lemma pushes_map_err k f len : pushes k len -> pushes k (len_map_err f len).
Proof. intros Hm l n l' H. apply map_err_done in H. by eapply Hm. Qed.

Lemma pushes_bind k j len f :
  pushes k len -> (forall n, pushes j (f n)) -> pushes (j + k) (len_bind len f).
Proof.
  intros Hm Hf l n l' H. apply obind_done in H as ([n1 l1] & H1 & H2).
  destruct (Hm _ _ _ H1) as (p & -> & <-). destruct (Hf _ _ _ _ H2) as (q & -> & <-).
  exists (q ++ p). by rewrite <- app_assoc, length_app.
Qed.

Lemma pushes_push k n len : pushes k len -> pushes (S k) (len_push n len).
Proof.
  intros Hm l n' l' H. destruct (Hm _ _ _ H) as (p & -> & <-).
  exists (p ++ [n]). rewrite <- app_assoc, length_app. simpl. split; [done | lia].
Qed.

Lemma pops_lift m : pops 0 (enc_lift m).
Proof. intros l n l' H. apply obind_done in H as (? & _ & [= _ <-]). by exists []. Qed.

Lemma pops_write bs : pops 0 (enc_write bs).
Proof. intros l n l' [= _ <-]. by exists []. Qed.

Lemma pops_fail k e : pops k (enc_fail e).
Proof. intros l n l' H. discriminate. Qed.

Lemma pops_map_err k f enc : pops k enc -> pops k (enc_map_err f enc).
Proof. intros Hm l n l' H. apply map_err_done in H. by eapply Hm. Qed.

Lemma pops_seq k j enc1 enc2 : pops k enc1 -> pops j enc2 -> pops (k + j) (enc_seq enc1 enc2).
Proof.
  intros H1 H2 l bs l' H. apply obind_done in H as ([b1 l1] & E1 & H).
  apply obind_done in H as ([b2 l2] & E2 & [= _ <-]).
  destruct (H1 _ _ _ E1) as (p & -> & <-). destruct (H2 _ _ _ E2) as (q & -> & <-).
  exists (p ++ q). by rewrite <- app_assoc, length_app.
Qed.

Lemma pops_pop k e f : (forall n, pops k (f n)) -> pops (S k) (enc_pop e f).
Proof.
  intros Hf [|n l] bs l' H; [discriminate |].
  destruct (Hf _ _ _ _ H) as (p & -> & <-). by exists (n :: p).
Qed.

(** The pass that pops takes [x] more lengths than the one that pushes left. *)
Definition unbalanced (x : nat) len enc : Prop := exists k, pushes k len /\ pops (k + x) enc.

Lemma unbalanced_0 len enc : pushes 0 len -> pops 0 enc -> unbalanced 0 len enc.
Proof. by exists 0%nat. Qed.

Lemma unbalanced_fail x e e' : unbalanced x (len_fail e) (enc_fail e').
Proof. exists 0%nat. split; [apply pushes_fail | apply pops_fail]. Qed.

Lemma unbalanced_map_err x f g len enc :
  unbalanced x len enc -> unbalanced x (len_map_err f len) (enc_map_err g enc).
Proof. intros (k & ? & ?). exists k. split; [by apply pushes_map_err | by apply pops_map_err]. Qed.

End Counting.
#[export] Hint Resolve pushes_lift pushes_ret pushes_fail pops_lift pops_write pops_fail : vimana.
