(* ===== verification/EncodeScalar.v ===== *)
(** * Encoding scalars

    Models [src/runtime/encode/scalar.rs].  The macros become definitions over a record
    [ScalarFns] of the macros' arguments; [scalar_fns_of] has a row for each invocation. *)

From S2P Require Import Prelude Prost Wire EncodeLib.

#[local] Open Scope Z_scope.

(** [Encoder::scalar]: the functions and the wire type of each coding. *)
Definition scalar_encode_length_wire (coding : ScalarCoding) : CodecFn * CodecFn * WireType :=
  match coding with
  | BytesImplicit => (ScalarFn EBytes Implicit, ScalarFn EBytes Implicit, LengthDelimited)
  | BytesExplicit => (ScalarFn EBytes Explicit, ScalarFn EBytes Explicit, LengthDelimited)
  | BytesExpanded => (ScalarFn EBytes Expanded, ScalarFn EBytes Expanded, LengthDelimited)
  | StringUtf8Implicit | StringPermissiveImplicit => (ScalarFn EString Implicit, ScalarFn EString Implicit, LengthDelimited)
  | StringUtf8Explicit | StringPermissiveExplicit => (ScalarFn EString Explicit, ScalarFn EString Explicit, LengthDelimited)
  | StringUtf8Expanded | StringPermissiveExpanded => (ScalarFn EString Expanded, ScalarFn EString Expanded, LengthDelimited)
  | BoolImplicit => (ScalarFn EBool Implicit, ScalarFn EBool Implicit, Varint)
  | BoolPacked => (ScalarFn EBool Packed, ScalarFn EBool Packed, LengthDelimited)
  | BoolExplicit => (ScalarFn EBool Explicit, ScalarFn EBool Explicit, Varint)
  | BoolExpanded => (ScalarFn EBool Expanded, ScalarFn EBool Expanded, Varint)
  | Int32Implicit => (ScalarFn EInt32 Implicit, ScalarFn EInt32 Implicit, Varint)
  | Int32Packed => (ScalarFn EInt32 Packed, ScalarFn EInt32 Packed, LengthDelimited)
  | Int32Explicit => (ScalarFn EInt32 Explicit, ScalarFn EInt32 Explicit, Varint)
  | Int32Expanded => (ScalarFn EInt32 Expanded, ScalarFn EInt32 Expanded, Varint)
  | Sint32Implicit => (ScalarFn ESint32 Implicit, ScalarFn ESint32 Implicit, Varint)
  | Sint32Packed => (ScalarFn ESint32 Packed, ScalarFn ESint32 Packed, LengthDelimited)
  | Sint32Explicit => (ScalarFn ESint32 Explicit, ScalarFn ESint32 Explicit, Varint)
  | Sint32Expanded => (ScalarFn ESint32 Expanded, ScalarFn ESint32 Expanded, Varint)
  | Sfixed32Implicit => (ScalarFn ESfixed32 Implicit, ScalarFn ESfixed32 Implicit, ThirtyTwoBit)
  | Sfixed32Packed => (ScalarFn ESfixed32 Packed, ScalarFn ESfixed32 Packed, LengthDelimited)
  | Sfixed32Explicit => (ScalarFn ESfixed32 Explicit, ScalarFn ESfixed32 Explicit, ThirtyTwoBit)
  | Sfixed32Expanded => (ScalarFn ESfixed32 Expanded, ScalarFn ESfixed32 Expanded, ThirtyTwoBit)
  | Uint32Implicit => (ScalarFn EUint32 Implicit, ScalarFn EUint32 Implicit, Varint)
  | Uint32Packed => (ScalarFn EUint32 Packed, ScalarFn EUint32 Packed, LengthDelimited)
  | Uint32Explicit => (ScalarFn EUint32 Explicit, ScalarFn EUint32 Explicit, Varint)
  | Uint32Expanded => (ScalarFn EUint32 Expanded, ScalarFn EUint32 Expanded, Varint)
  | Fixed32Implicit => (ScalarFn EFixed32 Implicit, ScalarFn EFixed32 Implicit, ThirtyTwoBit)
  | Fixed32Packed => (ScalarFn EFixed32 Packed, ScalarFn EFixed32 Packed, LengthDelimited)
  | Fixed32Explicit => (ScalarFn EFixed32 Explicit, ScalarFn EFixed32 Explicit, ThirtyTwoBit)
  | Fixed32Expanded => (ScalarFn EFixed32 Expanded, ScalarFn EFixed32 Expanded, ThirtyTwoBit)
  | Int64Implicit => (ScalarFn EInt64 Implicit, ScalarFn EInt64 Implicit, Varint)
  | Int64Packed => (ScalarFn EInt64 Packed, ScalarFn EInt64 Packed, LengthDelimited)
  | Int64Explicit => (ScalarFn EInt64 Explicit, ScalarFn EInt64 Explicit, Varint)
  | Int64Expanded => (ScalarFn EInt64 Expanded, ScalarFn EInt64 Expanded, Varint)
  | Sint64Implicit => (ScalarFn ESint64 Implicit, ScalarFn ESint64 Implicit, Varint)
  | Sint64Packed => (ScalarFn ESint64 Packed, ScalarFn ESint64 Packed, LengthDelimited)
  | Sint64Explicit => (ScalarFn ESint64 Explicit, ScalarFn ESint64 Explicit, Varint)
  | Sint64Expanded => (ScalarFn ESint64 Expanded, ScalarFn ESint64 Expanded, Varint)
  | Sfixed64Implicit => (ScalarFn ESfixed64 Implicit, ScalarFn ESfixed64 Implicit, SixtyFourBit)
  | Sfixed64Packed => (ScalarFn ESfixed64 Packed, ScalarFn ESfixed64 Packed, LengthDelimited)
  | Sfixed64Explicit => (ScalarFn ESfixed64 Explicit, ScalarFn ESfixed64 Explicit, SixtyFourBit)
  | Sfixed64Expanded => (ScalarFn ESfixed64 Expanded, ScalarFn ESfixed64 Expanded, SixtyFourBit)
  | Uint64Implicit => (ScalarFn EUint64 Implicit, ScalarFn EUint64 Implicit, Varint)
  | Uint64Packed => (ScalarFn EUint64 Packed, ScalarFn EUint64 Packed, LengthDelimited)
  | Uint64Explicit => (ScalarFn EUint64 Explicit, ScalarFn EUint64 Explicit, Varint)
  | Uint64Expanded => (ScalarFn EUint64 Expanded, ScalarFn EUint64 Expanded, Varint)
  | Fixed64Implicit => (ScalarFn EFixed64 Implicit, ScalarFn EFixed64 Implicit, SixtyFourBit)
  | Fixed64Packed => (ScalarFn EFixed64 Packed, ScalarFn EFixed64 Packed, LengthDelimited)
  | Fixed64Explicit => (ScalarFn EFixed64 Explicit, ScalarFn EFixed64 Explicit, SixtyFourBit)
  | Fixed64Expanded => (ScalarFn EFixed64 Expanded, ScalarFn EFixed64 Expanded, SixtyFourBit)
  | FloatImplicit => (ScalarFn EFloat Implicit, ScalarFn EFloat Implicit, ThirtyTwoBit)
  | FloatPacked => (ScalarFn EFloat Packed, ScalarFn EFloat Packed, LengthDelimited)
  | FloatExplicit => (ScalarFn EFloat Explicit, ScalarFn EFloat Explicit, ThirtyTwoBit)
  | FloatExpanded => (ScalarFn EFloat Expanded, ScalarFn EFloat Expanded, ThirtyTwoBit)
  | DoubleImplicit => (ScalarFn EDouble Implicit, ScalarFn EDouble Implicit, SixtyFourBit)
  | DoublePacked => (ScalarFn EDouble Packed, ScalarFn EDouble Packed, LengthDelimited)
  | DoubleExplicit => (ScalarFn EDouble Explicit, ScalarFn EDouble Explicit, SixtyFourBit)
  | DoubleExpanded => (ScalarFn EDouble Expanded, ScalarFn EDouble Expanded, SixtyFourBit)
  end.

Definition Encoder_scalar (coding : ScalarCoding) (number : Z) : Encoder :=
  let '(encode, length, wire_type) := scalar_encode_length_wire coding in
  mkEncoder encode length (tag number wire_type) EScalarUnit.

Section Scalars.
Context {W : WireOps}.

(** ** The arguments of the macros *)
Inductive LengthInner (T : Type) :=
| Fixed (fixed_length : Z)
| Var (length_inner : T -> outcome EncodeError Z).
Arguments Fixed {T} fixed_length.
Arguments Var {T} length_inner.

Record ScalarFns := mkScalarFns {
  sf_type : Set;
  (** [if let $type(value) = ...]. *)
  sf_unwrap : Val -> option sf_type;
  sf_type_error : string;
  (** [$default]. *)
  sf_default : sf_type -> bool;
  (** [$encode_inner]: the bytes it appends. *)
  sf_encode_inner : sf_type -> outcome EncodeError (list byte);
  (** [$fixed_length] or [$length_inner]. *)
  sf_length_inner : LengthInner sf_type;
}.

Section Macros.
Context (F : ScalarFns) (tag : Z).

(** ** [scalar_encode_fns!] *)
Definition scalar_explicit_encode (value : Val) : Enc :=
  match value with
  | VOption (Some item) =>
      match sf_unwrap F item with
      | Some v => enc_seq (enc_write (encode_varint tag)) (enc_lift (sf_encode_inner F v))
      | None => enc_fail (EncodeError_new (sf_type_error F))
      end
  | VOption None => enc_write []
  | _ => enc_fail (EncodeError_new EXPLICIT_NON_OPTION)
  end.

Definition scalar_implicit_encode (value : Val) : Enc :=
  match sf_unwrap F value with
  | Some v =>
      if negb (sf_default F v) then
        enc_seq (enc_write (encode_varint tag)) (enc_lift (sf_encode_inner F v))
      else enc_write []
  | None => enc_fail (EncodeError_new (sf_type_error F))
  end.

(** The loop over the items; [before] is what is written in front of each. *)
Fixpoint encode_items (before : list byte) (items : list Val) : outcome EncodeError (list byte) :=
  match items with
  | [] => Done []
  | item :: items' =>
      match sf_unwrap F item with
      | Some v =>
          let? bytes := sf_encode_inner F v in
          let? rest := encode_items before items' in
          Done (before ++ bytes ++ rest)
      | None => Failed (EncodeError_new (sf_type_error F))
      end
  end.

Definition scalar_packed_encode (value : Val) : Enc :=
  match value with
  | VList items =>
      if (0 <? length items)%nat then
        enc_pop (EncodeError_new LENGTH_INCONSISTENCY) (fun length =>
          enc_seq (enc_write (encode_varint tag ++ encode_varint length))
            (enc_lift (encode_items [] items)))
      else enc_write []
  | _ => enc_fail (EncodeError_new REPEATED_NON_LIST)
  end.

Definition scalar_expanded_encode (value : Val) : Enc :=
  match value with
  | VList items => enc_lift (encode_items (encode_varint tag) items)
  | _ => enc_fail (EncodeError_new REPEATED_NON_LIST)
  end.

(** ** [scalar_fixed_length_fns!] *)
Definition fixed_explicit_length (fixed_length : Z) (value : Val) : Len :=
  match value with
  | VOption (Some _) => len_ret (u32_saturating_add fixed_length (encoded_len_varint tag))
  | VOption None => len_ret 0
  | _ => len_fail (EncodeError_new EXPLICIT_NON_OPTION)
  end.

Definition fixed_implicit_length (fixed_length : Z) (value : Val) : Len :=
  match sf_unwrap F value with
  | Some v =>
      if negb (sf_default F v) then
        len_ret (u32_saturating_add fixed_length (encoded_len_varint tag))
      else len_ret 0
  | None => len_fail (EncodeError_new (sf_type_error F))
  end.

Definition fixed_packed_length (fixed_length : Z) (value : Val) : Len :=
  match value with
  | VList items =>
      if (0 <? length items)%nat then
        len_bind (len_lift (checked 64 (Z.of_nat (length items) * fixed_length))) (fun n =>
          let total := u32_try_or_max n in
          len_push total (len_ret
            (u32_saturating_add total (encoded_len_varint tag + encoded_len_varint total))))
      else len_ret 0
  | _ => len_fail (EncodeError_new REPEATED_NON_LIST)
  end.

Definition fixed_expanded_length (fixed_length : Z) (value : Val) : Len :=
  match value with
  | VList items =>
      len_bind (len_lift
        (checked 64 ((encoded_len_varint tag + fixed_length) * Z.of_nat (length items))))
        (fun n => len_ret (u32_try_or_max n))
  | _ => len_fail (EncodeError_new REPEATED_NON_LIST)
  end.

(** ** [scalar_var_length_fns!] *)
Section Var.
Variable length_inner : sf_type F -> outcome EncodeError Z.

Definition var_explicit_length (value : Val) : Len :=
  match value with
  | VOption (Some item) =>
      match sf_unwrap F item with
      | Some v => len_lift (let? n := length_inner v in
                            Done (u32_saturating_add n (encoded_len_varint tag)))
      | None => len_fail (EncodeError_new (sf_type_error F))
      end
  | VOption None => len_ret 0
  | _ => len_fail (EncodeError_new EXPLICIT_NON_OPTION)
  end.

Definition var_implicit_length (value : Val) : Len :=
  match sf_unwrap F value with
  | Some v =>
      if negb (sf_default F v) then
        len_lift (let? n := length_inner v in
                  Done (u32_saturating_add n (encoded_len_varint tag)))
      else len_ret 0
  | None => len_fail (EncodeError_new (sf_type_error F))
  end.

(** The loop over the items; [add] makes an item's length what is added for it. *)
Fixpoint length_items (add : Z -> Z) (total : Z) (items : list Val) : outcome EncodeError Z :=
  match items with
  | [] => Done total
  | item :: items' =>
      match sf_unwrap F item with
      | Some v =>
          let? n := length_inner v in
          length_items add (u32_saturating_add total (add n)) items'
      | None => Failed (EncodeError_new (sf_type_error F))
      end
  end.

Definition var_packed_length (value : Val) : Len :=
  match value with
  | VList items =>
      if (0 <? length items)%nat then
        len_bind (len_lift (length_items id 0 items)) (fun total =>
          len_push total (len_ret
            (u32_saturating_add total (encoded_len_varint tag + encoded_len_varint total))))
      else len_ret 0
  | _ => len_fail (EncodeError_new REPEATED_NON_LIST)
  end.

Definition var_expanded_length (value : Val) : Len :=
  match value with
  | VList items =>
      len_lift (length_items (fun n => u32_saturating_add n (encoded_len_varint tag)) 0 items)
  | _ => len_fail (EncodeError_new REPEATED_NON_LIST)
  end.
End Var.

(** The function of each name. *)
Definition scalar_encode (r : Repetition) (value : Val) : Enc :=
  match r with
  | Explicit => scalar_explicit_encode value
  | Implicit => scalar_implicit_encode value
  | Packed => scalar_packed_encode value
  | Expanded => scalar_expanded_encode value
  end.

Definition scalar_length (r : Repetition) (value : Val) : Len :=
  match sf_length_inner F, r with
  | Fixed n, Explicit => fixed_explicit_length n value
  | Fixed n, Implicit => fixed_implicit_length n value
  | Fixed n, Packed => fixed_packed_length n value
  | Fixed n, Expanded => fixed_expanded_length n value
  | Var f, Explicit => var_explicit_length f value
  | Var f, Implicit => var_implicit_length f value
  | Var f, Packed => var_packed_length f value
  | Var f, Expanded => var_expanded_length f value
  end.
End Macros.

(** ** The inner functions

    [as u64] is [as_u 64]; it is the identity on the unsigned types. *)
Fixpoint put_bytes (items : list Val) : outcome EncodeError (list byte) :=
  match items with
  | [] => Done []
  | VU8 z :: items' => let? rest := put_bytes items' in Done (put_le 1 (as_u 8 z) ++ rest)
  | _ => Failed (EncodeError_new BYTE_NON_BYTE)
  end.

Definition bytes_encode_inner (value : list Val) : outcome EncodeError (list byte) :=
  let? bytes := put_bytes value in
  Done (encode_varint (as_u 64 (Z.of_nat (length value))) ++ bytes).
Definition bytes_length_inner (value : list Val) : outcome EncodeError Z :=
  Done (u32_saturating_add (encoded_len_varint (as_u 64 (Z.of_nat (length value))))
          (u32_try_or_max (Z.of_nat (length value)))).
Definition bytes_default (value : list Val) : bool := (length value =? 0)%nat.

Definition string_encode_inner (value : string) : outcome EncodeError (list byte) :=
  Done (encode_varint (as_u 64 (Z.of_nat (length (string_bytes value)))) ++ string_bytes value).
Definition string_length_inner (value : string) : outcome EncodeError Z :=
  Done (u32_saturating_add
          (encoded_len_varint (as_u 64 (Z.of_nat (length (string_bytes value)))))
          (u32_try_or_max (Z.of_nat (length (string_bytes value))))).
Definition string_default (value : string) : bool := (length (string_bytes value) =? 0)%nat.

Definition bool_encode_inner (value : bool) : outcome EncodeError (list byte) :=
  Done (put_le 1 (if value then 1 else 0)).
Definition bool_default (value : bool) : bool := negb value.

(** The numeric types that are varints, by the [u64] they are written as. *)
Definition varint_encode_inner (to_u64 : Z -> Z) (value : Z) : outcome EncodeError (list byte) :=
  Done (encode_varint (to_u64 value)).
Definition varint_length_inner (to_u64 : Z -> Z) (value : Z) : outcome EncodeError Z :=
  Done (encoded_len_varint (to_u64 value)).

Definition int32_default (value : Z) : bool := value =? 0.
Definition uint32_default (value : Z) : bool := value =? 0.
Definition int64_default (value : Z) : bool := value =? 0.
Definition uint64_default (value : Z) : bool := value =? 0.

(** [((v << 1) ^ (v >> 31)) as u32 as u64] and its 64-bit variant. *)
Definition zigzag32 (value : Z) : Z :=
  as_u 32 (Z.lxor (as_i 32 (Z.shiftl value 1)) (Z.shiftr value 31)).
Definition zigzag64 (value : Z) : Z :=
  as_u 64 (Z.lxor (as_i 64 (Z.shiftl value 1)) (Z.shiftr value 63)).

(** [put_i32_le] and the like, by width in bytes. *)
Definition fixed_encode_inner (n : nat) (value : Z) : outcome EncodeError (list byte) :=
  Done (put_le n (as_u (8 * Z.of_nat n) value)).

(** [value == 0.0] on the bits: both zeros, and no NaN. *)
Definition float_default (bits : Z) : bool := Z.land bits (2 ^ 31 - 1) =? 0.
Definition double_default (bits : Z) : bool := Z.land bits (2 ^ 63 - 1) =? 0.

(** ** The macro invocations, one record per type *)
Definition unwrap_list (v : Val) := match v with VList items => Some items | _ => None end.
Definition unwrap_string (v : Val) := match v with VString s => Some s | _ => None end.
Definition unwrap_bool (v : Val) := match v with VBool b => Some b | _ => None end.
Definition unwrap_s32 (v : Val) := match v with VS32 z => Some z | _ => None end.
Definition unwrap_u32 (v : Val) := match v with VU32 z => Some z | _ => None end.
Definition unwrap_s64 (v : Val) := match v with VS64 z => Some z | _ => None end.
Definition unwrap_u64 (v : Val) := match v with VU64 z => Some z | _ => None end.
Definition unwrap_float32 (v : Val) := match v with VFloat32 z => Some z | _ => None end.
Definition unwrap_float64 (v : Val) := match v with VFloat64 z => Some z | _ => None end.

(** A varint type and a fixed-width type. *)
Definition varint_fns unwrap type_error default (to_u64 : Z -> Z) : ScalarFns :=
  mkScalarFns Z unwrap type_error default (varint_encode_inner to_u64)
    (Var (varint_length_inner to_u64)).
Definition fixed_fns unwrap type_error default (n : nat) : ScalarFns :=
  mkScalarFns Z unwrap type_error default (fixed_encode_inner n) (Fixed (Z.of_nat n)).

Definition bytes_fns : ScalarFns :=
  mkScalarFns (list Val) unwrap_list BYTES_NON_LIST bytes_default
    bytes_encode_inner (Var bytes_length_inner).
Definition string_fns : ScalarFns :=
  mkScalarFns string unwrap_string STRING_NON_STRING string_default
    string_encode_inner (Var string_length_inner).
Definition bool_fns : ScalarFns :=
  mkScalarFns bool unwrap_bool BOOL_NON_BOOL bool_default bool_encode_inner (Fixed 1).
Definition int32_fns : ScalarFns :=
  varint_fns unwrap_s32 INT32_NON_INT32 int32_default (as_u 64).
Definition sint32_fns : ScalarFns :=
  varint_fns unwrap_s32 SINT32_NON_SINT32 int32_default zigzag32.
Definition sfixed32_fns : ScalarFns :=
  fixed_fns unwrap_s32 SFIXED32_NON_SFIXED32 int32_default 4.
Definition uint32_fns : ScalarFns :=
  varint_fns unwrap_u32 UINT32_NON_UINT32 uint32_default (as_u 64).
Definition fixed32_fns : ScalarFns :=
  fixed_fns unwrap_u32 FIXED32_NON_FIXED32 uint32_default 4.
Definition int64_fns : ScalarFns :=
  varint_fns unwrap_s64 INT64_NON_INT64 int64_default (as_u 64).
Definition sint64_fns : ScalarFns :=
  varint_fns unwrap_s64 SINT64_NON_SINT64 int64_default zigzag64.
Definition sfixed64_fns : ScalarFns :=
  fixed_fns unwrap_s64 SFIXED64_NON_SFIXED64 int64_default 8.
Definition uint64_fns : ScalarFns :=
  varint_fns unwrap_u64 UINT64_NON_UINT64 uint64_default (as_u 64).
Definition fixed64_fns : ScalarFns :=
  fixed_fns unwrap_u64 FIXED64_NON_FIXED64 uint64_default 8.
Definition float_fns : ScalarFns :=
  fixed_fns unwrap_float32 FLOAT_NON_FLOAT float_default 4.
Definition double_fns : ScalarFns :=
  fixed_fns unwrap_float64 DOUBLE_NON_DOUBLE double_default 8.

Definition scalar_fns_of (t : EncodedType) : ScalarFns :=
  match t with
  | EBytes => bytes_fns
  | EString => string_fns
  | EBool => bool_fns
  | EInt32 => int32_fns
  | ESint32 => sint32_fns
  | ESfixed32 => sfixed32_fns
  | EUint32 => uint32_fns
  | EFixed32 => fixed32_fns
  | EInt64 => int64_fns
  | ESint64 => sint64_fns
  | ESfixed64 => sfixed64_fns
  | EUint64 => uint64_fns
  | EFixed64 => fixed64_fns
  | EFloat => float_fns
  | EDouble => double_fns
  end.

End Scalars.
Arguments Fixed {T} fixed_length.
Arguments Var {T} length_inner.

(** ** The one-pass reference

    What the protobuf format prescribes for a scalar field: the lengths are those of the
    bytes that follow them. *)
Section Reference.
Context {W : WireOps}.

Definition scalar_ref (F : ScalarFns) (tag : Z) (r : Repetition) (value : Val)
    : outcome EncodeError (list byte) :=
  let item v :=
    match sf_unwrap F v with
    | Some x => let? bytes := sf_encode_inner F x in Done (encode_varint tag ++ bytes)
    | None => Failed (EncodeError_new (sf_type_error F))
    end in
  match r, value with
  | Explicit, VOption None => Done []
  | Explicit, VOption (Some v) => item v
  | Explicit, _ => Failed (EncodeError_new EXPLICIT_NON_OPTION)
  | Implicit, v =>
      if default true (negb ∘ sf_default F <$> sf_unwrap F v) then item v else Done []
  | Packed, VList [] => Done []
  | Packed, VList items => delimited tag (encode_items F [] items)
  | Expanded, VList items => encode_items F (encode_varint tag) items
  | _, _ => Failed (EncodeError_new REPEATED_NON_LIST)
  end.
End Reference.

Section ScalarContract.
Context `{WL : WireLaws}.

(** [ref] writes [n] bytes, or fails. *)
Definition writes (n : Z) (ref : outcome EncodeError (list byte)) : Prop :=
  match ref with
  | Done bs => Z.of_nat (length bs) = n
  | Failed _ => True
  | Crash _ => False
  end.

(** The inner functions of a type agree. *)
Definition inner_agrees (F : ScalarFns) : Prop :=
  match sf_length_inner F with
  | Fixed n => 0 <= n < u32_max /\ forall v, writes n (sf_encode_inner F v)
  | Var f => forall v, item_agrees (f v) (sf_encode_inner F v)
  end.

Section Items.
Context (F : ScalarFns) (before : list byte).

Lemma encode_items_fixed n items :
  (forall v, writes n (sf_encode_inner F v)) ->
  writes ((Z.of_nat (length before) + n) * Z.of_nat (length items)) (encode_items F before items).
Proof using.
  intros HF. unfold writes. induction items as [|item items IH]; cbn [encode_items length]; [lia |].
  destruct (sf_unwrap F item) as [v|]; [|done].
  specialize (HF v). unfold writes in HF.
  destruct (sf_encode_inner F v) as [bs|e|c]; simpl; [|done|done].
  destruct (encode_items F before items) as [rest| |]; simpl; [|done|done].
  rewrite !length_app. lia.
Qed.

Variable add : Z -> Z.
Hypothesis add_exact : forall n, 0 <= n <= u32_max ->
  0 <= add n /\ (add n < u32_max -> add n = Z.of_nat (length before) + n)
  /\ (Z.of_nat (length before) + n < u32_max -> add n = Z.of_nat (length before) + n).

Lemma encode_items_var f items total :
  (forall v, item_agrees (f v) (sf_encode_inner F v)) -> 0 <= total <= u32_max ->
  (forall n, length_items F f add total items = Done n ->
     total <= n <= u32_max /\ (n < u32_max ->
       match encode_items F before items with
       | Done bs => n = total + Z.of_nat (length bs)
       | Failed _ => True
       | Crash _ => False
       end))
  /\ (forall bs, encode_items F before items = Done bs ->
        total + Z.of_nat (length bs) < u32_max ->
        length_items F f add total items = Done (total + Z.of_nat (length bs))).
Proof using add_exact.
  intros HF. revert total.
  induction items as [|item items IH]; intros total Ht; cbn [encode_items length_items].
  - split; [intros n [= <-]; split; [lia |]; simpl; lia | intros bs [= <-] _; simpl; f_equal; lia].
  - destruct (sf_unwrap F item) as [v|]; [|by split].
    destruct (HF v) as [Hs Hc]. split.
    + intros n H. apply obind_done in H as (k & Hk & H). destruct (Hs k Hk) as [Hk0 Hs'].
      destruct (add_exact k Hk0) as (A0 & A1 & A2).
      pose proof (u32_saturating_add_range total (add k) ltac:(lia) A0) as Hr.
      destruct (IH _ Hr) as [I1 _]. destruct (I1 n H) as [Hn Hi].
      assert (Hle : total <= u32_saturating_add total (add k)).
      { unfold u32_saturating_add in *. lia. }
      split; [lia |]. intros Hm. specialize (Hi Hm).
      pose proof (u32_saturating_add_exact total (add k) ltac:(lia)) as E.
      specialize (A1 ltac:(lia)). specialize (Hs' ltac:(lia)).
      destruct (sf_encode_inner F v) as [bs| |]; simpl; [|done|done].
      destruct (encode_items F before items) as [rest| |]; simpl; [|done|done].
      rewrite !length_app. lia.
    + intros bs H Hm. apply obind_done in H as (b & Hb & H).
      apply obind_done in H as (rest & Hrest & [= <-]). rewrite !length_app in *.
      rewrite (Hc b Hb) by lia. simpl.
      assert (Hb0 : 0 <= Z.of_nat (length b) <= u32_max) by lia.
      destruct (add_exact _ Hb0) as (A0 & A1 & A2). specialize (A2 ltac:(lia)).
      rewrite A2, u32_saturating_add_small by lia.
      destruct (IH (total + (Z.of_nat (length before) + Z.of_nat (length b))) ltac:(lia)) as [_ I2].
      rewrite (I2 rest Hrest) by lia. f_equal. lia.
Qed.
End Items.

Lemma items_agree_var F f before add items :
  (forall n, 0 <= n <= u32_max ->
     0 <= add n /\ (add n < u32_max -> add n = Z.of_nat (length before) + n)
     /\ (Z.of_nat (length before) + n < u32_max -> add n = Z.of_nat (length before) + n)) ->
  (forall v, item_agrees (f v) (sf_encode_inner F v)) ->
  item_agrees (length_items F f add 0 items) (encode_items F before items).
Proof.
  intros Ha HF. destruct (encode_items_var F before add Ha f items 0 HF) as [H1 H2].
  { unfold u32_max. lia. }
  split.
  - intros k Hk. destruct (H1 k Hk) as [? H3]. split; [lia |]. intros Hm. specialize (H3 Hm).
    destruct (encode_items F before items); [lia | done | done].
  - intros bs Hb Hm. specialize (H2 bs Hb). by rewrite H2 by lia.
Qed.

Lemma items_agree_fixed F before n m items :
  (forall v, writes n (sf_encode_inner F v)) -> 0 <= n ->
  m = (Z.of_nat (length before) + n) * Z.of_nat (length items) ->
  item_agrees (let? k := checked 64 m in Done (u32_try_or_max k)) (encode_items F before items).
Proof.
  intros HF Hn Hm. pose proof (encode_items_fixed F before n items HF) as H.
  rewrite <- Hm in H. assert (0 <= m) by lia. clear Hm HF. unfold checked, u32_try_or_max, writes in *.
  split.
  - intros k Hk. apply obind_done in Hk as (k' & Hk & [= <-]).
    destruct (m <? 2 ^ 64); [|discriminate]. injection Hk as <-. unfold u32_max in *.
    split; [lia |]. intros Hlt. destruct (encode_items F before items); [lia | done | done].
  - intros bs Hb Hlt. rewrite Hb in H. rewrite (proj2 (Z.ltb_lt _ _)) by (unfold u32_max in *; lia).
    simpl. f_equal. lia.
Qed.

Lemma item_agrees_fixed n ref : 0 <= n < u32_max -> writes n ref -> item_agrees (Done n) ref.
Proof.
  unfold writes. intros Hn H. split.
  - intros k [= <-]. split; [lia |]. intros _. by destruct ref.
  - intros bs -> _. by rewrite H.
Qed.

(** Every scalar function pair agrees with the reference. *)
Lemma add_tag_exact t n :
  u_range 64 t -> 0 <= n <= u32_max ->
  0 <= u32_saturating_add n (encoded_len_varint t) /\
  (u32_saturating_add n (encoded_len_varint t) < u32_max ->
     u32_saturating_add n (encoded_len_varint t) = Z.of_nat (length (encode_varint t)) + n) /\
  (Z.of_nat (length (encode_varint t)) + n < u32_max ->
     u32_saturating_add n (encoded_len_varint t) = Z.of_nat (length (encode_varint t)) + n).
Proof.
  intros Ht Hn. rewrite length_encode_varint by done.
  pose proof (encoded_len_varint_range t Ht). unfold u32_saturating_add, u32_max in *. lia.
Qed.

Section Agree.
Context (F : ScalarFns) (HF : inner_agrees F) (t : Z) (Ht : u_range 64 t).

(** A single item after its tag, with either kind of length. *)
Definition single_length (v : sf_type F) : outcome EncodeError Z :=
  match sf_length_inner F with
  | Fixed n => Done (u32_saturating_add n (encoded_len_varint t))
  | Var f => let? n := f v in Done (u32_saturating_add n (encoded_len_varint t))
  end.

Lemma single_agrees v :
  agrees (len_lift (single_length v))
    (enc_seq (enc_write (encode_varint t)) (enc_lift (sf_encode_inner F v)))
    (let? bytes := sf_encode_inner F v in Done (encode_varint t ++ bytes)).
Proof using HF Ht WL.
  assert (Hi : item_agrees (single_length v)
                 (let? bytes := sf_encode_inner F v in Done (encode_varint t ++ bytes))).
  { unfold single_length. unfold inner_agrees in HF. destruct (sf_length_inner F) as [n|f].
    - destruct HF as [Hn Hw].
      apply (item_tagged t (Done n)); [done | by apply item_agrees_fixed].
    - by apply item_tagged. }
  apply agrees_lift in Hi. eapply agrees_ext; [done | | done | exact Hi].
  intros l. unfold enc_lift, enc_seq, enc_write. simpl. by destruct (sf_encode_inner F v).
Qed.

Lemma scalar_agrees r value :
  agrees (scalar_length F t r value) (scalar_encode F t r value) (scalar_ref F t r value).
Proof using HF Ht WL.
  pose proof single_agrees as Hsingle. unfold single_length in Hsingle.
  unfold scalar_length, scalar_encode, scalar_ref, inner_agrees in *.
  destruct r.
  - (* implicit *)
    unfold scalar_implicit_encode, fixed_implicit_length, var_implicit_length.
    destruct (sf_length_inner F) as [n|f]; destruct (sf_unwrap F value) as [v|]; simpl;
      try apply agrees_fail; destruct (sf_default F v); simpl;
      try apply agrees_nothing; apply (Hsingle v).
  - (* packed *)
    unfold scalar_packed_encode, fixed_packed_length, var_packed_length.
    destruct (sf_length_inner F) as [n|f]; destruct value; try apply agrees_fail;
      destruct items as [|i items]; try apply agrees_nothing; cbn [length Nat.ltb Nat.leb].
    + destruct HF as [Hn Hw]. eapply agrees_ext; [| | |
        apply (agrees_delimited t (EncodeError_new LENGTH_INCONSISTENCY)); [exact Ht |];
        apply agrees_lift, (items_agree_fixed F [] n (Z.of_nat (S (length items)) * n) (i :: items));
          [done | lia | cbn [length]; lia]]; try done.
      intros l. unfold len_delimited, len_bind, len_lift, checked.
      by destruct (_ <? 2 ^ 64).
    + eapply agrees_ext; [| | |
        apply (agrees_delimited t (EncodeError_new LENGTH_INCONSISTENCY)); [exact Ht |];
        apply agrees_lift, (items_agree_var F f [] id (i :: items)); [| done]]; try done.
      intros k Hk. unfold id. simpl. lia.
  - (* explicit *)
    unfold scalar_explicit_encode, fixed_explicit_length, var_explicit_length.
    destruct (sf_length_inner F) as [n|f]; destruct value; try apply agrees_fail;
      destruct o as [item|]; try apply agrees_nothing;
      destruct (sf_unwrap F item) as [v|] eqn:Ev; try apply agrees_fail; try apply (Hsingle v).
    apply agrees_ret_fail, u32_saturating_add_range; [lia |].
    pose proof (encoded_len_varint_range t Ht). lia.
  - (* expanded *)
    unfold scalar_expanded_encode, fixed_expanded_length, var_expanded_length.
    destruct (sf_length_inner F) as [n|f]; destruct value; try apply agrees_fail.
    + destruct HF as [Hn Hw]. eapply agrees_ext; [| | | apply agrees_lift,
        (items_agree_fixed F (encode_varint t) n
          ((encoded_len_varint t + n) * Z.of_nat (length items)) items);
          [done | lia | by rewrite length_encode_varint]]; try done.
      intros l. unfold len_bind, len_lift, checked. by destruct (_ <? 2 ^ 64).
    + apply agrees_lift, items_agree_var; [|done]. intros k Hk. by apply add_tag_exact.
Qed.
End Agree.

(** ** The rows *)
Lemma put_bytes_writes items : writes (Z.of_nat (length items)) (put_bytes items).
Proof.
  induction items as [|item items IH]; [done |]. destruct item; try done.
  unfold writes in *. cbn [put_bytes]. destruct (put_bytes items) as [bs| |]; simpl; [|done|done].
  rewrite put_le_spec by (apply as_u_range; lia). rewrite length_app, length_to_le. lia.
Qed.

(** A length prefix and [n] bytes. *)
Lemma item_prefixed n ref :
  0 <= n -> writes n ref ->
  item_agrees
    (Done (u32_saturating_add (encoded_len_varint (as_u 64 n)) (u32_try_or_max n)))
    (let? bs := ref in Done (encode_varint (as_u 64 n) ++ bs)).
Proof.
  intros Hn Hw. pose proof (as_u_range 64 n ltac:(lia)) as Hr.
  pose proof (encoded_len_varint_range _ Hr). pose proof (length_encode_varint _ Hr) as Hl.
  unfold writes in Hw. split.
  - intros k [= <-]. split; [apply u32_saturating_add_range; unfold u32_try_or_max, u32_max; lia |].
    intros Hm. apply u32_saturating_add_exact in Hm as E. rewrite E in *.
    destruct ref; simpl; [|done|done]. rewrite length_app. unfold u32_try_or_max, u32_max in *. lia.
  - intros bs H' Hm. apply obind_done in H' as (bs' & -> & [= <-]). rewrite length_app in *.
    f_equal. unfold u32_try_or_max in *. rewrite Z.min_l by lia.
    rewrite u32_saturating_add_small by lia. lia.
Qed.

Lemma put_le_writes n z : writes (Z.of_nat n) (Done (put_le n (as_u (8 * Z.of_nat n) z))).
Proof. unfold writes. rewrite put_le_spec by (apply as_u_range; lia). by rewrite length_to_le. Qed.

Lemma varint_fns_agree unwrap e d f :
  (forall z, u_range 64 (f z)) -> inner_agrees (varint_fns unwrap e d f).
Proof.
  intros Hf z. simpl. unfold varint_length_inner, varint_encode_inner.
  pose proof (encoded_len_varint_range _ (Hf z)). pose proof (length_encode_varint _ (Hf z)).
  split; [intros k [= <-]; split; [unfold u32_max; lia | done] | by intros bs [= <-] Hm; f_equal].
Qed.

Lemma fixed_fns_agree unwrap e d n :
  Z.of_nat n < u32_max -> inner_agrees (fixed_fns unwrap e d n).
Proof. intros Hn. split; [lia |]. intros v. apply put_le_writes. Qed.

Lemma zigzag32_range z : u_range 64 (zigzag32 z).
Proof.
  unfold zigzag32. pose proof (as_u_range 32 (Z.lxor (as_i 32 (z ≪ 1)) (z ≫ 31)) ltac:(lia)).
  unfold u_range in *. lia.
Qed.

Lemma scalar_fns_agree t : inner_agrees (scalar_fns_of t).
Proof.
  destruct t; try (apply varint_fns_agree; intros z; try apply zigzag32_range;
                     apply as_u_range; lia);
    try (apply fixed_fns_agree; by unfold u32_max).
  - intros v. simpl. apply item_prefixed; [lia | apply put_bytes_writes].
  - intros v. simpl.
    apply (item_prefixed _ (Done (string_bytes v))); [lia | done].
  - split; [by unfold u32_max |]. intros v. simpl. unfold bool_encode_inner.
    rewrite put_le_spec by (destruct v; unfold u_range; lia). done.
Qed.

End ScalarContract.
