(* ===== verification/EncodeCompound.v ===== *)
(** * Encoding messages, oneofs and enumerations

    Models [src/runtime/encode/compound.rs] and the entry points of
    [src/runtime/encode/lib.rs]: the compilation of a [Field] to an [Encoder], the length and
    encode functions of compound types, and [ResponseEncoder::encode].

    As in [DecodeCompound], the functions call each other through the function pointers of
    an [Encoder]; each takes that call as the argument [call], and [encode_with] and
    [length_with] tie the knot with a fuel that bounds the nesting of encoders
    ([encoder_depth] is enough). *)

From S2P Require Import Prelude Prost Wire EncodeLib EncodeScalar.

#[local] Open Scope Z_scope.

(** ** Compilation *)
Inductive EncodeContext :=
| EInvalidMessage (number : Z)
| EInvalidRepeatedMessage (number : Z)
| EInvalidOneof.

Inductive EncodeCompileError :=
| EMissingCoding (number : Z)
| EVariantScalarNotExplicit (number scalar_coding : Z)
| EInvalidScalarCoding (number scalar_coding : Z)
| EVariantCompoundNotExplicit (number compound_coding : Z)
| EInvalidCompoundCoding (number compound_coding : Z)
| EInContext (context : EncodeContext) (e : EncodeCompileError).

(** [explicit_scalar] of [encode/lib.rs]. *)
Definition encode_explicit_scalar (scalar_coding : Z) : bool := Z.rem scalar_coding 4 =? 2.

Definition encode_enum_variants (enumeration : Field) : gmap string Z :=
  foldl (fun variants subfield => <[field_name subfield := field_number subfield]> variants)
    ∅ (subfields enumeration).

(** The constructors of an [Encoder], given the compiled subfields. *)
Definition message_inner_encoder (message : Field) (subs : gmap string Encoder) : Encoder :=
  mkEncoder MessageInnerFn MessageInnerFn (tag (field_number message) LengthDelimited)
    (ESubfields subs).
Definition message_outer_encoder (message : Field) (subs : gmap string Encoder) : Encoder :=
  mkEncoder MessageOuterFn MessageOuterFn (tag (field_number message) LengthDelimited)
    (ESubfields subs).
Definition message_repeated_encoder (message : Field) (subs : gmap string Encoder) : Encoder :=
  mkEncoder MessageRepeatedFn MessageRepeatedFn (tag (field_number message) LengthDelimited)
    (ESubfields subs).
Definition oneof_encoder (subs : gmap string Encoder) : Encoder :=
  mkEncoder OneofFn OneofFn 0 (ESubfields subs).

(** [enum_implicit], [enum_packed], [enum_explicit] and [enum_expanded]. *)
Definition enum_encoder (r : Repetition) (enumeration : Field) : Encoder :=
  mkEncoder (EnumFn r) (EnumFn r)
    (tag (field_number enumeration)
       (match r with Packed => LengthDelimited | _ => Varint end))
    (EVariants (encode_enum_variants enumeration)).

Section Compile.
(** [compile_compound], for the messages and oneofs nested below. *)
Variable compile : bool -> Field -> outcome EncodeCompileError (gmap string Encoder).

Definition compile_encoder (is_oneof : bool) (subfield : Field)
    : outcome EncodeCompileError Encoder :=
  let number := field_number subfield in
  match coding subfield with
  | None => Failed (EMissingCoding number)
  | Some (ScalarCodingOf scalar_coding) =>
      if is_oneof && negb (encode_explicit_scalar scalar_coding) then
        Failed (EVariantScalarNotExplicit number scalar_coding)
      else
        match scalar_coding_try_from scalar_coding with
        | Some c => Done (Encoder_scalar c number)
        | None => Failed (EInvalidScalarCoding number scalar_coding)
        end
  | Some (CompoundCodingOf compound_coding) =>
      if is_oneof && negb (compound_coding =? compound_coding_number Message)
                  && negb (compound_coding =? compound_coding_number EnumExplicit) then
        Failed (EVariantCompoundNotExplicit number compound_coding)
      else
        match compound_coding_try_from compound_coding with
        | None => Failed (EInvalidCompoundCoding number compound_coding)
        | Some EnumImplicit => Done (enum_encoder Implicit subfield)
        | Some EnumPacked => Done (enum_encoder Packed subfield)
        | Some EnumExplicit => Done (enum_encoder Explicit subfield)
        | Some EnumExpanded => Done (enum_encoder Expanded subfield)
        | Some Message =>
            let? subs := map_err (EInContext (EInvalidMessage number))
                           (compile false subfield) in
            Done (message_outer_encoder subfield subs)
        | Some MessageExpanded =>
            let? subs := map_err (EInContext (EInvalidRepeatedMessage number))
                           (compile false subfield) in
            Done (message_repeated_encoder subfield subs)
        | Some Oneof =>
            let? subs := map_err (EInContext EInvalidOneof) (compile true subfield) in
            Done (oneof_encoder subs)
        end
  end.

Fixpoint compile_encoders (is_oneof : bool) (fields : list Field) (subs : gmap string Encoder)
    : outcome EncodeCompileError (gmap string Encoder) :=
  match fields with
  | [] => Done subs
  | subfield :: fields' =>
      let? encoder := compile_encoder is_oneof subfield in
      compile_encoders is_oneof fields' (<[field_name subfield := encoder]> subs)
  end.
End Compile.

Fixpoint compile_compound (is_oneof : bool) (field : Field) {struct field}
    : outcome EncodeCompileError (gmap string Encoder) :=
  compile_encoders compile_compound is_oneof (subfields field) ∅.

(** [Encoder::message_inner]. *)
Definition Encoder_message_inner (message : Field) : outcome EncodeCompileError Encoder :=
  let? subs := compile_compound false message in
  Done (message_inner_encoder message subs).

(** ** The passes *)
(** The fuel the passes need: how deep encoders are nested. *)
Fixpoint encoder_depth (e : Encoder) : nat :=
  match encoder_compound e with
  | ESubfields subs => S (map_fold (fun _ e' acc => Nat.max (encoder_depth e') acc) 0%nat subs)
  | _ => 1%nat
  end.

(** The unsafe reads of the union. *)
Definition eunion_subfields {A} (e : Encoder) (k : gmap string Encoder -> outcome EncodeError A)
    : outcome EncodeError A :=
  match encoder_compound e with ESubfields subs => k subs | _ => Crash UndefinedBehaviour end.
Definition eunion_variants {A} (e : Encoder) (k : gmap string Z -> outcome EncodeError A)
    : outcome EncodeError A :=
  match encoder_compound e with EVariants vs => k vs | _ => Crash UndefinedBehaviour end.

Section Passes.
Context {W : WireOps}.

(** *** Enumerations *)
(** [if let Val::Enum(name) = value { if let Some(number) = variants.get(name) ... }]. *)
Definition enum_number (encoder : Encoder) (value : Val) : outcome EncodeError Z :=
  match value with
  | VEnum name =>
      eunion_variants encoder (fun variants =>
        ok_or (variants !! name) (EncodeError_new ENUM_VARIANT_UNRECOGNIZED))
  | _ => Failed (EncodeError_new ENUM_NON_ENUM)
  end.

Definition enum_explicit_encode (encoder : Encoder) (value : Val) : Enc :=
  enc_lift (let? number := enum_number encoder value in
            Done (encode_varint (encoder_tag encoder) ++ encode_varint (as_u 64 number))).

Definition enum_explicit_length (encoder : Encoder) (value : Val) : Len :=
  len_lift (let? number := enum_number encoder value in
            Done (encoded_len_varint (encoder_tag encoder) + encoded_len_varint (as_u 64 number))).

Definition enum_implicit_encode (encoder : Encoder) (value : Val) : Enc :=
  enc_lift (let? number := enum_number encoder value in
            if negb (number =? 0) then
              Done (encode_varint (encoder_tag encoder) ++ encode_varint (as_u 64 number))
            else Done []).

Definition enum_implicit_length (encoder : Encoder) (value : Val) : Len :=
  len_lift (let? number := enum_number encoder value in
            if negb (number =? 0) then
              Done (encoded_len_varint (encoder_tag encoder) + encoded_len_varint (as_u 64 number))
            else Done 0).

(** The loops over the items, from index [index]; [before] is written before each. *)
Fixpoint enum_encode_items (encoder : Encoder) (before : list byte) (index : nat)
    (items : list Val) : outcome EncodeError (list byte) :=
  match items with
  | [] => Done []
  | value :: items' =>
      let? number := map_err (e_with_index index) (enum_number encoder value) in
      let? rest := enum_encode_items encoder before (S index) items' in
      Done (before ++ encode_varint (as_u 64 number) ++ rest)
  end.

(** [add] is the source's update of [total]. *)
Fixpoint enum_length_items (encoder : Encoder) (add : Z -> Z -> outcome EncodeError Z)
    (index : nat) (total : Z) (items : list Val) : outcome EncodeError Z :=
  match items with
  | [] => Done total
  | value :: items' =>
      let? number := map_err (e_with_index index) (enum_number encoder value) in
      let? total' := add total (encoded_len_varint (as_u 64 number)) in
      enum_length_items encoder add (S index) total' items'
  end.

Definition enum_packed_encode (encoder : Encoder) (value : Val) : Enc :=
  match value with
  | VList items =>
      if (0 <? length items)%nat then
        enc_pop (EncodeError_new LENGTH_INCONSISTENCY) (fun length =>
          enc_seq (enc_write (encode_varint (encoder_tag encoder) ++ encode_varint length))
            (enc_lift (enum_encode_items encoder [] 0 items)))
      else enc_write []
  | _ => enc_fail (EncodeError_new REPEATED_NON_LIST)
  end.

(** Here the additions are plain ones. *)
Definition enum_packed_length (encoder : Encoder) (value : Val) : Len :=
  match value with
  | VList items =>
      if (0 <? length items)%nat then
        len_bind (len_lift (enum_length_items encoder (fun total n => checked 32 (total + n))
                              0 0 items)) (fun total =>
          len_push total (len_lift (checked 32
            (total + (encoded_len_varint (encoder_tag encoder) + encoded_len_varint total)))))
      else len_ret 0
  | _ => len_fail (EncodeError_new REPEATED_NON_LIST)
  end.

Definition enum_expanded_encode (encoder : Encoder) (value : Val) : Enc :=
  match value with
  | VList items =>
      enc_lift (enum_encode_items encoder (encode_varint (encoder_tag encoder)) 0 items)
  | _ => enc_fail (EncodeError_new REPEATED_NON_LIST)
  end.

Definition enum_expanded_length (encoder : Encoder) (value : Val) : Len :=
  match value with
  | VList items =>
      let tag_length := encoded_len_varint (encoder_tag encoder) in
      len_lift (enum_length_items encoder
        (fun total n => Done (u32_saturating_add total (tag_length + n))) 0 0 items)
  | _ => len_fail (EncodeError_new REPEATED_NON_LIST)
  end.

(** *** Messages and oneofs *)
Section Encode.
(** [(encoder.encode)(encoder, value, lengths, buf)]. *)
Variable call : Encoder -> Val -> Enc.

Fixpoint message_encode_fields (encoder : Encoder) (fields : list (string * Val)) : Enc :=
  match fields with
  | [] => enc_write []
  | (name, value) :: fields' => fun lengths =>
      eunion_subfields encoder (fun subs =>
        match subs !! name with
        | Some subencoder =>
            enc_seq (enc_map_err (e_with_field name) (call subencoder value))
              (message_encode_fields encoder fields') lengths
        | None => Failed (e_with_field name (EncodeError_new NO_ENCODER_FOR_FIELD))
        end)
  end.

Definition message_inner_encode (encoder : Encoder) (value : Val) : Enc :=
  match value with
  | VRecord fields => message_encode_fields encoder fields
  | _ => enc_fail (EncodeError_new MESSAGE_NON_RECORD)
  end.

Definition message_outer_encode (encoder : Encoder) (value : Val) : Enc :=
  match value with
  | VOption (Some value) =>
      enc_pop (EncodeError_new LENGTH_INCONSISTENCY) (fun length =>
        enc_seq (enc_write (encode_varint (encoder_tag encoder) ++ encode_varint length))
          (message_inner_encode encoder value))
  | VOption None => enc_write []
  | _ => enc_fail (EncodeError_new MESSAGE_NON_OPTIONAL)
  end.

Fixpoint message_repeated_items (encoder : Encoder) (index : nat) (items : list Val) : Enc :=
  match items with
  | [] => enc_write []
  | value :: items' =>
      enc_pop (e_with_index index (EncodeError_new LENGTH_INCONSISTENCY)) (fun length =>
        enc_seq (enc_write (encode_varint (encoder_tag encoder) ++ encode_varint length))
          (enc_seq (enc_map_err (e_with_index index) (message_inner_encode encoder value))
             (message_repeated_items encoder (S index) items')))
  end.

Definition message_repeated_encode (encoder : Encoder) (value : Val) : Enc :=
  match value with
  | VList items => message_repeated_items encoder 0 items
  | _ => enc_fail (EncodeError_new REPEATED_NON_LIST)
  end.

Definition oneof_encode (encoder : Encoder) (value : Val) : Enc :=
  match value with
  | VOption (Some (VVariant name payload)) => fun lengths =>
      eunion_subfields encoder (fun subs =>
        match subs !! name, payload with
        | Some subfield_encoder, Some value =>
            enc_map_err (e_with_field name)
              (call subfield_encoder (VOption (Some value))) lengths
        | Some _, None => Failed (e_with_field name (EncodeError_new ONEOF_VARIANT_NO_PAYLOAD))
        | None, _ => Failed (e_with_field name (EncodeError_new ONEOF_VARIANT_UNRECOGNIZED))
        end)
  | VOption (Some _) => enc_fail (EncodeError_new ONEOF_NON_VARIANT)
  | VOption None => enc_write []
  | _ => enc_fail (EncodeError_new ONEOF_NON_OPTIONAL)
  end.
End Encode.

Section Length.
(** [(encoder.length)(encoder, value, lengths)]. *)
Variable call : Encoder -> Val -> Len.

(** The loop, over the fields in the order it visits them. *)
Fixpoint message_length_fields (encoder : Encoder) (total : Z) (fields : list (string * Val))
    : Len :=
  match fields with
  | [] => len_ret total
  | (name, value) :: fields' => fun lengths =>
      eunion_subfields encoder (fun subs =>
        match subs !! name with
        | Some subencoder =>
            len_bind (len_map_err (e_with_field name) (call subencoder value)) (fun sublength =>
              message_length_fields encoder (u32_saturating_add total sublength) fields') lengths
        | None => Failed (e_with_field name (EncodeError_new NO_ENCODER_FOR_FIELD))
        end)
  end.

Definition message_inner_length (encoder : Encoder) (value : Val) : Len :=
  match value with
  | VRecord fields => message_length_fields encoder 0 (rev fields)
  | _ => len_fail (EncodeError_new MESSAGE_NON_RECORD)
  end.

Definition message_outer_length (encoder : Encoder) (value : Val) : Len :=
  match value with
  | VOption (Some value) =>
      len_bind (message_inner_length encoder value) (fun length =>
        len_push length (len_ret (u32_saturating_add length
          (encoded_len_varint (encoder_tag encoder) + encoded_len_varint length))))
  | VOption None => len_ret 0
  | _ => len_fail (EncodeError_new MESSAGE_NON_OPTIONAL)
  end.

(** Nothing is pushed for the items themselves. *)
Fixpoint message_repeated_lengths (encoder : Encoder) (index : nat) (total : Z)
    (items : list Val) : Len :=
  match items with
  | [] => len_ret total
  | value :: items' =>
      len_bind (len_map_err (e_with_index index) (message_inner_length encoder value))
        (fun sublength =>
           message_repeated_lengths encoder (S index)
             (u32_saturating_add total (u32_saturating_add sublength
                (encoded_len_varint (encoder_tag encoder) + encoded_len_varint sublength)))
             items')
  end.

Definition message_repeated_length (encoder : Encoder) (value : Val) : Len :=
  match value with
  | VList items => message_repeated_lengths encoder 0 0 items
  | _ => len_fail (EncodeError_new REPEATED_NON_LIST)
  end.

Definition oneof_length (encoder : Encoder) (value : Val) : Len :=
  match value with
  | VOption (Some (VVariant name payload)) => fun lengths =>
      eunion_subfields encoder (fun subs =>
        match subs !! name, payload with
        | Some subfield_encoder, Some value =>
            len_map_err (e_with_field name)
              (call subfield_encoder (VOption (Some value))) lengths
        | Some _, None => Failed (e_with_field name (EncodeError_new ONEOF_VARIANT_NO_PAYLOAD))
        | None, _ => Failed (e_with_field name (EncodeError_new ONEOF_VARIANT_UNRECOGNIZED))
        end)
  | VOption (Some _) => len_fail (EncodeError_new ONEOF_NON_VARIANT)
  | VOption None => len_ret 0
  | _ => len_fail (EncodeError_new ONEOF_NON_OPTIONAL)
  end.
End Length.

(** The dispatch of the function pointers. *)
Fixpoint encode_with (fuel : nat) (encoder : Encoder) (value : Val) : Enc :=
  match fuel with
  | O => fun _ => Crash FuelExhausted
  | S fuel' =>
      match encode_fn encoder with
      | ScalarFn t r => scalar_encode (scalar_fns_of t) (encoder_tag encoder) r value
      | MessageInnerFn => message_inner_encode (encode_with fuel') encoder value
      | MessageOuterFn => message_outer_encode (encode_with fuel') encoder value
      | MessageRepeatedFn => message_repeated_encode (encode_with fuel') encoder value
      | OneofFn => oneof_encode (encode_with fuel') encoder value
      | EnumFn Explicit => enum_explicit_encode encoder value
      | EnumFn Implicit => enum_implicit_encode encoder value
      | EnumFn Packed => enum_packed_encode encoder value
      | EnumFn Expanded => enum_expanded_encode encoder value
      end
  end.

Fixpoint length_with (fuel : nat) (encoder : Encoder) (value : Val) : Len :=
  match fuel with
  | O => fun _ => Crash FuelExhausted
  | S fuel' =>
      match length_fn encoder with
      | ScalarFn t r => scalar_length (scalar_fns_of t) (encoder_tag encoder) r value
      | MessageInnerFn => message_inner_length (length_with fuel') encoder value
      | MessageOuterFn => message_outer_length (length_with fuel') encoder value
      | MessageRepeatedFn => message_repeated_length (length_with fuel') encoder value
      | OneofFn => oneof_length (length_with fuel') encoder value
      | EnumFn Explicit => enum_explicit_length encoder value
      | EnumFn Implicit => enum_implicit_length encoder value
      | EnumFn Packed => enum_packed_length encoder value
      | EnumFn Expanded => enum_expanded_length encoder value
      end
  end.

(** ** [ResponseEncoder] *)
(** [ResponseEncoder::encode]: the bytes, and the lengths left over. *)
Definition response_encode (inner : Encoder) (item : Val)
    : outcome Status (list byte * list Z) :=
  map_err (fun error => Internal (display_encode_error error))
    (let? (_, lengths) := length_with (encoder_depth inner) inner item [] in
     encode_with (encoder_depth inner) inner item lengths).

End Passes.

(** [Drop for Encoder]: the union field that is dropped, by the function pointer. *)
Inductive EUnionField := EFSubfields | EFVariants | EFNothing.

Definition Encoder_drop (e : Encoder) : EUnionField :=
  match encode_fn e with
  | MessageOuterFn | MessageInnerFn | MessageRepeatedFn | OneofFn => EFSubfields
  | EnumFn _ => EFVariants
  | _ => EFNothing
  end.

(** The field that was stored. *)
Definition eunion_field {E} (c : CompoundEncoder E) : EUnionField :=
  match c with
  | ESubfields _ => EFSubfields
  | EVariants _ => EFVariants
  | EScalarUnit => EFNothing
  end.

(** ** The one-pass reference

    The protobuf encoding of a value: every length is that of the bytes that follow it. *)
Section Reference.
Context {W : WireOps}.

Section Call.
Variable call : Encoder -> Val -> outcome EncodeError (list byte).

Fixpoint ref_fields (subs : gmap string Encoder) (fields : list (string * Val))
    : outcome EncodeError (list byte) :=
  match fields with
  | [] => Done []
  | (name, value) :: fields' =>
      match subs !! name with
      | Some encoder =>
          let? bs1 := map_err (e_with_field name) (call encoder value) in
          let? bs2 := ref_fields subs fields' in
          Done (bs1 ++ bs2)
      | None => Failed (e_with_field name (EncodeError_new NO_ENCODER_FOR_FIELD))
      end
  end.

Definition ref_message (subs : gmap string Encoder) (value : Val) : outcome EncodeError (list byte) :=
  match value with
  | VRecord fields => ref_fields subs fields
  | _ => Failed (EncodeError_new MESSAGE_NON_RECORD)
  end.

Fixpoint ref_messages (subs : gmap string Encoder) (tag : Z) (index : nat) (items : list Val)
    : outcome EncodeError (list byte) :=
  match items with
  | [] => Done []
  | value :: items' =>
      let? bs1 := delimited tag (map_err (e_with_index index) (ref_message subs value)) in
      let? bs2 := ref_messages subs tag (S index) items' in
      Done (bs1 ++ bs2)
  end.

Definition ref_oneof (subs : gmap string Encoder) (value : Val) : outcome EncodeError (list byte) :=
  match value with
  | VOption None => Done []
  | VOption (Some (VVariant name payload)) =>
      match subs !! name, payload with
      | Some encoder, Some value =>
          map_err (e_with_field name) (call encoder (VOption (Some value)))
      | Some _, None => Failed (e_with_field name (EncodeError_new ONEOF_VARIANT_NO_PAYLOAD))
      | None, _ => Failed (e_with_field name (EncodeError_new ONEOF_VARIANT_UNRECOGNIZED))
      end
  | VOption (Some _) => Failed (EncodeError_new ONEOF_NON_VARIANT)
  | _ => Failed (EncodeError_new ONEOF_NON_OPTIONAL)
  end.
End Call.

Definition ref_enum (encoder : Encoder) (r : Repetition) (value : Val)
    : outcome EncodeError (list byte) :=
  let t := encoder_tag encoder in
  match r, value with
  | Explicit, _ =>
      let? number := enum_number encoder value in
      Done (encode_varint t ++ encode_varint (as_u 64 number))
  | Implicit, _ =>
      let? number := enum_number encoder value in
      if number =? 0 then Done [] else Done (encode_varint t ++ encode_varint (as_u 64 number))
  | Packed, VList [] => Done []
  | Packed, VList items => delimited t (enum_encode_items encoder [] 0 items)
  | Expanded, VList items => enum_encode_items encoder (encode_varint t) 0 items
  | _, _ => Failed (EncodeError_new REPEATED_NON_LIST)
  end.

Fixpoint ref_with (fuel : nat) (encoder : Encoder) (value : Val) : outcome EncodeError (list byte) :=
  match fuel with
  | O => Crash FuelExhausted
  | S fuel' =>
      let t := encoder_tag encoder in
      match encode_fn encoder, encoder_compound encoder with
      | ScalarFn ty r, _ => scalar_ref (scalar_fns_of ty) t r value
      | EnumFn r, _ => ref_enum encoder r value
      | MessageInnerFn, ESubfields subs => ref_message (ref_with fuel') subs value
      | MessageOuterFn, ESubfields subs =>
          match value with
          | VOption None => Done []
          | VOption (Some value) => delimited t (ref_message (ref_with fuel') subs value)
          | _ => Failed (EncodeError_new MESSAGE_NON_OPTIONAL)
          end
      | MessageRepeatedFn, ESubfields subs =>
          match value with
          | VList items => ref_messages (ref_with fuel') subs t 0 items
          | _ => Failed (EncodeError_new REPEATED_NON_LIST)
          end
      | OneofFn, ESubfields subs => ref_oneof (ref_with fuel') subs value
      | _, _ => Crash UndefinedBehaviour
      end
  end.

(** The encoding of a response. *)
Definition reference_encode (inner : Encoder) (item : Val) : outcome EncodeError (list byte) :=
  ref_with (encoder_depth inner) inner item.
End Reference.

(** ** Items of repeated messages

    How many messages of repeated fields an encoder visits in a value. *)
Section ItemsOf.
Variable call : Encoder -> Val -> nat.

Fixpoint items_fields (subs : gmap string Encoder) (fields : list (string * Val)) : nat :=
  match fields with
  | [] => 0
  | (name, value) :: fields' =>
      match subs !! name with Some e => call e value | None => 0%nat end + items_fields subs fields'
  end%nat.

Definition items_message (subs : gmap string Encoder) (value : Val) : nat :=
  match value with VRecord fields => items_fields subs fields | _ => 0%nat end.

Fixpoint items_messages (subs : gmap string Encoder) (items : list Val) : nat :=
  match items with
  | [] => 0
  | value :: items' => S (items_message subs value) + items_messages subs items'
  end%nat.
End ItemsOf.

Fixpoint items_with (fuel : nat) (encoder : Encoder) (value : Val) : nat :=
  match fuel with
  | O => 0%nat
  | S fuel' =>
      match encode_fn encoder, encoder_compound encoder, value with
      | MessageInnerFn, ESubfields subs, _ => items_message (items_with fuel') subs value
      | MessageOuterFn, ESubfields subs, VOption (Some value) =>
          items_message (items_with fuel') subs value
      | MessageRepeatedFn, ESubfields subs, VList items =>
          items_messages (items_with fuel') subs items
      | OneofFn, ESubfields subs, VOption (Some (VVariant name (Some value))) =>
          match subs !! name with
          | Some e => items_with fuel' e (VOption (Some value))
          | None => 0%nat
          end
      | _, _, _ => 0%nat
      end
  end.

Definition repeated_message_items (inner : Encoder) (item : Val) : nat :=
  items_with (encoder_depth inner) inner item.

(** ** The passes agree *)
Inductive encoder_ok : Encoder -> Prop :=
| ok_scalar t r n : u_range 64 n ->
    encoder_ok (mkEncoder (ScalarFn t r) (ScalarFn t r) n EScalarUnit)
| ok_enum r n vs : u_range 64 n ->
    encoder_ok (mkEncoder (EnumFn r) (EnumFn r) n (EVariants vs))
| ok_message fn n subs : u_range 64 n ->
    match fn with
    | MessageInnerFn | MessageOuterFn | MessageRepeatedFn | OneofFn => True
    | _ => False
    end ->
    (forall name e, subs !! name = Some e -> encoder_ok e) ->
    encoder_ok (mkEncoder fn fn n (ESubfields subs)).

Lemma encoder_depth_subfields f1 f2 n subs name e :
  subs !! name = Some e -> (encoder_depth e < encoder_depth (mkEncoder f1 f2 n (ESubfields subs)))%nat.
Proof.
  intros Hk. simpl. apply Nat.lt_succ_r. revert Hk.
  apply (map_fold_weak_ind (fun r (s : gmap string Encoder) =>
    s !! name = Some e -> (encoder_depth e <= r)%nat)); [by rewrite lookup_empty |].
  intros k' x s r _ IH. rewrite lookup_insert_Some.
  intros [[_ ->]|[_ H]]; simpl; [lia |]. specialize (IH H). lia.
Qed.

Section Agree.
Context `{WL : WireLaws}.

(** *** Enumerations *)
Section Enum.
Context (vs : gmap string Z) (fn : CodecFn) (t : Z) (Ht : u_range 64 t).
Let e := mkEncoder fn fn t (EVariants vs).

Lemma enum_number_cases value :
  (exists z, enum_number e value = Done z) \/ (exists err, enum_number e value = Failed err).
Proof using.
  unfold e. destruct value; simpl; eauto. unfold eunion_variants. simpl.
  destruct (vs !! case) as [z|]; simpl; eauto.
Qed.

Lemma varint_u64_facts z :
  1 <= encoded_len_varint (as_u 64 z) <= 10
  /\ Z.of_nat (length (encode_varint (as_u 64 z))) = encoded_len_varint (as_u 64 z).
Proof using WL.
  pose proof (as_u_range 64 z ltac:(lia)) as H.
  split; [by apply encoded_len_varint_range | by apply length_encode_varint].
Qed.

Lemma enum_singular_agrees value (skip : Z -> bool) :
  item_agrees
    (let? number := enum_number e value in
     if skip number then Done 0
     else Done (encoded_len_varint t + encoded_len_varint (as_u 64 number)))
    (let? number := enum_number e value in
     if skip number then Done []
     else Done (encode_varint t ++ encode_varint (as_u 64 number))).
Proof using Ht WL.
  pose proof (encoded_len_varint_range t Ht) as Htl. pose proof (length_encode_varint t Ht) as Htb.
  destruct (enum_number_cases value) as [[z ->]|[err ->]]; simpl.
  - destruct (varint_u64_facts z) as [Hl Hb]. destruct (skip z).
    + split; [intros k [= <-]; split; [by unfold u32_max | done] | by intros bs [= <-]].
    + split.
      * intros k [= <-]. split; [unfold u32_max; lia |]. intros _. rewrite length_app. lia.
      * intros bs [= <-] _. rewrite length_app. f_equal. lia.
  - split; intros *; discriminate.
Qed.

Lemma enum_items_agree before (add : Z -> Z -> outcome EncodeError Z) index items total :
  (forall a b n, 0 <= a <= u32_max -> 1 <= b <= 10 -> add a b = Done n -> a <= n <= u32_max /\
     (n < u32_max -> n = a + (Z.of_nat (length before) + b))) ->
  (forall a b, 0 <= a -> 1 <= b <= 10 -> a + (Z.of_nat (length before) + b) < u32_max ->
     add a b = Done (a + (Z.of_nat (length before) + b))) ->
  0 <= total <= u32_max ->
  (forall n, enum_length_items e add index total items = Done n ->
     total <= n <= u32_max /\ (n < u32_max ->
       match enum_encode_items e before index items with
       | Done bs => n = total + Z.of_nat (length bs)
       | Failed _ => True
       | Crash _ => False
       end))
  /\ (forall bs, enum_encode_items e before index items = Done bs ->
        total + Z.of_nat (length bs) < u32_max ->
        enum_length_items e add index total items = Done (total + Z.of_nat (length bs))).
Proof using WL.
  intros Hadd Hadd'. revert index total.
  induction items as [|item items IH]; intros index total Ht0;
    cbn [enum_length_items enum_encode_items].
  - split; [intros n [= <-]; split; [lia |]; simpl; lia | intros bs [= <-] _; simpl; f_equal; lia].
  - destruct (enum_number_cases item) as [[z ->]|[err ->]]; simpl; [|by split].
    destruct (varint_u64_facts z) as [Hl Hb]. split.
    + intros n H. apply obind_done in H as (k & Hk & H).
      destruct (Hadd _ _ _ Ht0 Hl Hk) as [Hk0 Hk1].
      destruct (IH (S index) k ltac:(lia)) as [I1 _]. destruct (I1 n H) as [Hn Hi].
      split; [lia |]. intros Hm. specialize (Hi Hm). specialize (Hk1 ltac:(lia)).
      destruct (enum_encode_items e before (S index) items); simpl; [|done|done].
      rewrite !length_app. lia.
    + intros bs H Hm. apply obind_done in H as (rest & Hrest & [= <-]).
      rewrite !length_app in *. rewrite Hadd' by lia. simpl.
      assert (Hr : 0 <= total + (Z.of_nat (length before) + encoded_len_varint (as_u 64 z)) <= u32_max)
        by lia.
      destruct (IH (S index) _ Hr) as [_ I2].
      rewrite (I2 rest Hrest) by lia. f_equal. lia.
Qed.

Lemma enum_items_agree0 before add items :
  (forall a b n, 0 <= a <= u32_max -> 1 <= b <= 10 -> add a b = Done n -> a <= n <= u32_max /\
     (n < u32_max -> n = a + (Z.of_nat (length before) + b))) ->
  (forall a b, 0 <= a -> 1 <= b <= 10 -> a + (Z.of_nat (length before) + b) < u32_max ->
     add a b = Done (a + (Z.of_nat (length before) + b))) ->
  item_agrees (enum_length_items e add 0 0 items) (enum_encode_items e before 0 items).
Proof using WL.
  intros Ha Ha'. destruct (enum_items_agree before add 0 items 0 Ha Ha') as [H1 H2].
  { by unfold u32_max. }
  split.
  - intros k Hk. destruct (H1 k Hk) as [? H3]. split; [lia |]. intros Hm. specialize (H3 Hm).
    destruct (enum_encode_items e before 0 items); [lia | done | done].
  - intros bs Hb Hm. specialize (H2 bs Hb). by rewrite H2 by lia.
Qed.

Lemma enum_agrees r value :
  agrees (match r with
          | Explicit => enum_explicit_length e value
          | Implicit => enum_implicit_length e value
          | Packed => enum_packed_length e value
          | Expanded => enum_expanded_length e value
          end)
         (match r with
          | Explicit => enum_explicit_encode e value
          | Implicit => enum_implicit_encode e value
          | Packed => enum_packed_encode e value
          | Expanded => enum_expanded_encode e value
          end) (ref_enum e r value).
Proof using Ht WL.
  pose proof (encoded_len_varint_range t Ht) as Htl. pose proof (length_encode_varint t Ht) as Htb.
  destruct r; cbn [ref_enum].
  - pose proof (agrees_lift _ _ (enum_singular_agrees value (fun z => z =? 0))) as H.
    eapply agrees_ext; [| | | exact H]; [| | done];
      intros l; unfold enum_implicit_length, enum_implicit_encode, len_lift, enc_lift;
      destruct (enum_number_cases value) as [[z ->]|[err ->]]; simpl; try done; by destruct (z =? 0).
  - unfold enum_packed_length, enum_packed_encode. destruct value; try apply agrees_fail.
    destruct items as [|i items]; [apply agrees_nothing |]. cbn [length Nat.ltb Nat.leb].
    eapply agrees_len_refine; [| |
      apply agrees_delimited, agrees_lift, (enum_items_agree0 [] (fun total n => checked 32 (total + n)));
        [exact Ht | |]].
    + intros l r H. unfold len_delimited, len_bind in *.
      apply obind_done in H as ([k l1] & -> & H). simpl. unfold len_push, len_lift, len_ret in *.
      apply obind_done in H as (k' & Hk & [= <-]). unfold checked in Hk. change (encoder_tag e) with t in *.
      destruct (Z.ltb_spec (k + (encoded_len_varint t + encoded_len_varint k)) (2 ^ 32));
        [|discriminate].
      injection Hk as <-. repeat f_equal. unfold u32_saturating_add, u32_max. lia.
    + intros l n l' H Hm. unfold len_delimited, len_bind in *.
      apply obind_done in H as ([k l1] & -> & H). simpl. unfold len_push, len_lift, len_ret in *.
      injection H as <- <-. apply u32_saturating_add_exact in Hm as E. rewrite E in *.
      unfold checked. change (encoder_tag e) with t. rewrite (proj2 (Z.ltb_lt _ _)) by (unfold u32_max in *; lia).
      done.
    + intros a b n Ha Hb H. unfold checked in H. destruct (Z.ltb_spec (a + b) (2 ^ 32)); [|done].
      injection H as <-. unfold u32_max in *. simpl. lia.
    + intros a b Ha Hb Hm. unfold checked. simpl in *.
      by rewrite (proj2 (Z.ltb_lt _ _)) by (unfold u32_max in *; lia).
  - pose proof (agrees_lift _ _ (enum_singular_agrees value (fun _ => false))) as H.
    eapply agrees_ext; [| | | exact H]; done.
  - unfold enum_expanded_length, enum_expanded_encode. destruct value; try apply agrees_fail.
    apply agrees_lift, (enum_items_agree0 (encode_varint t)).
    + intros a b n Ha Hb [= <-]. change (encoder_tag e) with t. rewrite Htb.
      unfold u32_saturating_add, u32_max in *. lia.
    + intros a b Ha Hb Hm. change (encoder_tag e) with t. rewrite Htb in *.
      by rewrite u32_saturating_add_small by lia.
Qed.
End Enum.

(** *** Messages *)
Section Message.
Context (lcall : Encoder -> Val -> Len) (ecall : Encoder -> Val -> Enc)
        (rcall : Encoder -> Val -> outcome EncodeError (list byte)) (icall : Encoder -> Val -> nat).
Context (fn : CodecFn) (t : Z) (Ht : u_range 64 t) (subs : gmap string Encoder).
Hypothesis Hcall : forall name e v, subs !! name = Some e -> icall e v = 0%nat ->
  agrees (lcall e v) (ecall e v) (rcall e v).
Let e := mkEncoder fn fn t (ESubfields subs).

Lemma message_length_fields_app l1 l2 total lengths :
  message_length_fields lcall e total (l1 ++ l2) lengths
  = len_bind (message_length_fields lcall e total l1)
      (fun total' => message_length_fields lcall e total' l2) lengths.
Proof using.
  revert total lengths. induction l1 as [|[name v] l1 IH]; intros total lengths; [done |].
  simpl. unfold eunion_subfields, len_bind. simpl.
  destruct (subs !! name) as [e'|]; [|done].
  destruct (len_map_err _ _ lengths) as [[n l']| |]; simpl; [|done|done].
  rewrite IH. done.
Qed.

Lemma message_fields_agree fields :
  items_fields icall subs fields = 0%nat ->
  agrees (message_length_fields lcall e 0 (rev fields)) (message_encode_fields ecall e fields)
    (ref_fields rcall subs fields).
Proof using Hcall WL.
  induction fields as [|[name v] fields IH]; [intros _; apply agrees_nothing |].
  cbn [rev ref_fields items_fields]. intros Hi. destruct (subs !! name) as [e'|] eqn:Ek.
  - pose proof (Hcall name e' v Ek ltac:(lia)) as H1.
    apply (agrees_map_err _ _ _ (e_with_field name) (e_with_field name)) in H1.
    specialize (IH ltac:(lia)).
    eapply agrees_ext; [| | | apply (agrees_seq _ _ _ _ _ _ H1 IH)]; [| | done].
    + intros l. rewrite message_length_fields_app. unfold len_bind.
      destruct (message_length_fields lcall e 0 (rev fields) l) as [[n l']| |]; simpl; [|done|done].
      unfold eunion_subfields, len_bind. simpl. rewrite Ek. done.
    + intros l. simpl. unfold eunion_subfields. simpl. by rewrite Ek.
  - apply agrees_never; [|done]. intros l [n l'] H. rewrite message_length_fields_app in H.
    unfold len_bind in H. apply obind_done in H as ([k l1] & _ & H). simpl in H.
    unfold eunion_subfields in H. simpl in H. by rewrite Ek in H.
Qed.

Lemma message_inner_agrees value :
  items_message icall subs value = 0%nat ->
  agrees (message_inner_length lcall e value) (message_inner_encode ecall e value)
    (ref_message rcall subs value).
Proof using Hcall WL.
  unfold message_inner_length, message_inner_encode, ref_message.
  destruct value; intros Hi; try apply agrees_fail. by apply message_fields_agree.
Qed.

Lemma message_outer_agrees value :
  match value with VOption (Some v) => items_message icall subs v | _ => 0%nat end = 0%nat ->
  agrees (message_outer_length lcall e value) (message_outer_encode ecall e value)
    (match value with
     | VOption None => Done []
     | VOption (Some value) => delimited t (ref_message rcall subs value)
     | _ => Failed (EncodeError_new MESSAGE_NON_OPTIONAL)
     end).
Proof using Hcall Ht WL.
  unfold message_outer_length, message_outer_encode.
  destruct value as [| | | | | | | | | | | | | |[value|]|]; intros Hi; try apply agrees_fail;
    [|apply agrees_nothing].
  apply agrees_delimited; [exact Ht | by apply message_inner_agrees].
Qed.

Lemma oneof_agrees value :
  match value with
  | VOption (Some (VVariant name (Some v))) =>
      match subs !! name with Some e => icall e (VOption (Some v)) | None => 0%nat end
  | _ => 0%nat
  end = 0%nat ->
  agrees (oneof_length lcall e value) (oneof_encode ecall e value) (ref_oneof rcall subs value).
Proof using Hcall WL.
  unfold oneof_length, oneof_encode, ref_oneof.
  destruct value as [| | | | | | | | | | | | | |[value|]|]; try (intros _; apply agrees_fail);
    [|intros _; apply agrees_nothing].
  destruct value; try (intros _; apply agrees_fail). unfold eunion_subfields. cbn [encoder_compound e].
  destruct (subs !! case) as [e'|] eqn:Ek; [|intros _; apply agrees_fail].
  destruct payload as [v|]; [|intros _; apply agrees_fail]. intros Hi.
  by apply (agrees_map_err _ _ _ (e_with_field case) (e_with_field case)), (Hcall case).
Qed.
End Message.

(** *** Pushes and pops *)
Lemma scalar_unbalanced F t r value :
  unbalanced 0 (scalar_length F t r value) (scalar_encode F t r value).
Proof.
  assert (Hpop : forall e f (m : outcome EncodeError (list byte)),
            pops 1 (enc_pop e (fun n => enc_seq (enc_write (f n)) (enc_lift m)))).
  { intros e f m. apply pops_pop. intros n. apply (pops_seq 0 0); auto with vimana. }
  assert (Hpush : forall (m : outcome EncodeError Z) f g,
            pushes 1 (len_bind (len_lift m) (fun n => len_push (f n) (len_ret (g n))))).
  { intros m f g. apply (pushes_bind 0 1); [apply pushes_lift |].
    intros n. apply pushes_push, pushes_ret. }
  assert (Hseq : forall b (m : outcome EncodeError (list byte)),
            pops 0 (enc_seq (enc_write b) (enc_lift m))).
  { intros b m. apply (pops_seq 0 0); auto with vimana. }
  unfold scalar_length, scalar_encode. destruct r.
  - exists 0%nat. unfold scalar_implicit_encode, fixed_implicit_length, var_implicit_length.
    destruct (sf_length_inner F), (sf_unwrap F value) as [v|]; simpl; auto with vimana;
      destruct (sf_default F v); simpl; auto with vimana.
  - unfold scalar_packed_encode, fixed_packed_length, var_packed_length.
    destruct (sf_length_inner F), value; try apply unbalanced_fail;
      destruct items; simpl; (exists 1%nat; split; [apply Hpush | apply Hpop])
        || (apply unbalanced_0; auto with vimana).
  - exists 0%nat. unfold scalar_explicit_encode, fixed_explicit_length, var_explicit_length.
    destruct (sf_length_inner F), value as [| | | | | | | | | | | | | |[v|]|]; simpl;
      auto with vimana; destruct (sf_unwrap F v); simpl; auto with vimana.
  - exists 0%nat. unfold scalar_expanded_encode, fixed_expanded_length, var_expanded_length.
    destruct (sf_length_inner F), value; simpl; auto with vimana.
    split; [|apply pops_lift]. apply (pushes_bind 0 0); auto with vimana.
Qed.

Lemma enum_unbalanced fuel r t vs value :
  let e := mkEncoder (EnumFn r) (EnumFn r) t (EVariants vs) in
  unbalanced 0 (length_with (S fuel) e value) (encode_with (S fuel) e value).
Proof.
  cbn [length_with encode_with length_fn encode_fn]. destruct r.
  - apply unbalanced_0; [apply pushes_lift | apply pops_lift].
  - unfold enum_packed_length, enum_packed_encode. destruct value; try apply unbalanced_fail.
    destruct items; simpl; [apply unbalanced_0; auto with vimana |]. exists 1%nat. split.
    + apply (pushes_bind 0 1); [apply pushes_lift |]. intros n. apply pushes_push, pushes_lift.
    + apply pops_pop. intros n. apply (pops_seq 0 0); auto with vimana.
  - apply unbalanced_0; [apply pushes_lift | apply pops_lift].
  - unfold enum_expanded_length, enum_expanded_encode. destruct value; try apply unbalanced_fail.
    apply unbalanced_0; auto with vimana.
Qed.

Section Unbalanced.
Context (lcall : Encoder -> Val -> Len) (ecall : Encoder -> Val -> Enc)
        (icall : Encoder -> Val -> nat).
Context (fn : CodecFn) (t : Z) (subs : gmap string Encoder).
Hypothesis Hcall : forall name e v, subs !! name = Some e ->
  unbalanced (icall e v) (lcall e v) (ecall e v).
Let e := mkEncoder fn fn t (ESubfields subs).

Lemma fields_pushes fields k :
  (forall total, pushes k (message_length_fields lcall e total (rev fields))) ->
  forall name e' v j, subs !! name = Some e' -> pushes j (lcall e' v) ->
  forall total, pushes (j + k) (message_length_fields lcall e total (rev ((name, v) :: fields))).
Proof using.
  intros Hk name e' v j He Hj total l n l' H. cbn [rev] in H.
  unfold e in H. rewrite message_length_fields_app in H. revert l n l' H.
  apply pushes_bind; [done |]. intros total' l n l' H. simpl in H.
  unfold eunion_subfields in H. simpl in H. rewrite He in H. revert l n l' H.
  apply (pushes_bind j 0); [by apply pushes_map_err | intros n; apply pushes_ret].
Qed.

Lemma message_fields_unbalanced fields :
  exists k, (forall total, pushes k (message_length_fields lcall e total (rev fields)))
    /\ pops (k + items_fields icall subs fields) (message_encode_fields ecall e fields).
Proof using Hcall.
  induction fields as [|[name v] fields (k & Hk & Hp)].
  - exists 0%nat. split; [intros; apply pushes_ret | apply pops_write].
  - cbn [items_fields]. destruct (subs !! name) as [e'|] eqn:He.
    + destruct (Hcall name e' v He) as (j & Hj & Hq). exists (j + k)%nat. split.
      * by eapply fields_pushes.
      * replace (j + k + (icall e' v + items_fields icall subs fields))%nat
          with (j + icall e' v + (k + items_fields icall subs fields))%nat by lia.
        intros l bs l' H. simpl in H. unfold eunion_subfields in H. simpl in H. rewrite He in H.
        revert l bs l' H. apply pops_seq; [by apply pops_map_err | done].
    + exists 0%nat. split.
      * intros total l n l' H. unfold e in H. cbn [rev] in H. rewrite message_length_fields_app in H.
        apply obind_done in H as ([? ?] & _ & H). simpl in H.
        unfold eunion_subfields in H. simpl in H. by rewrite He in H.
      * intros l bs l' H. simpl in H. unfold eunion_subfields in H. simpl in H. by rewrite He in H.
Qed.

Lemma message_inner_unbalanced value :
  unbalanced (items_message icall subs value)
    (message_inner_length lcall e value) (message_inner_encode ecall e value).
Proof using Hcall.
  destruct value; try apply unbalanced_fail.
  destruct (message_fields_unbalanced fields) as (k & Hk & Hp).
  exists k. split; [apply Hk | exact Hp].
Qed.

Lemma message_outer_unbalanced value :
  unbalanced (match value with VOption (Some v) => items_message icall subs v | _ => 0%nat end)
    (message_outer_length lcall e value) (message_outer_encode ecall e value).
Proof using Hcall.
  destruct value as [| | | | | | | | | | | | | |[v|]|]; try apply unbalanced_fail;
    [|apply unbalanced_0; [apply pushes_ret | apply pops_write]].
  destruct (message_inner_unbalanced v) as (k & Hk & Hp). exists (S k). split.
  - apply (pushes_bind k 1); [done |]. intros n. apply pushes_push, pushes_ret.
  - apply (pops_pop (k + _)). intros n. apply (pops_seq 0 (k + _)); [apply pops_write | exact Hp].
Qed.

Lemma message_repeated_unbalanced items index :
  exists k, (forall total, pushes k (message_repeated_lengths lcall e index total items))
    /\ pops (k + items_messages icall subs items) (message_repeated_items ecall e index items).
Proof using Hcall.
  revert index. induction items as [|v items IH]; intros index.
  - exists 0%nat. split; [intros; apply pushes_ret | apply pops_write].
  - destruct (IH (S index)) as (k & Hk & Hp).
    destruct (message_inner_unbalanced v) as (j & Hj & Hq). exists (k + j)%nat. split.
    + intros total. apply pushes_bind; [by apply pushes_map_err | done].
    + cbn [items_messages].
      replace (k + j + (S (items_message icall subs v) + items_messages icall subs items))%nat
        with (S (j + items_message icall subs v + (k + items_messages icall subs items))) by lia.
      apply pops_pop. intros n. eapply (pops_seq 0); [apply pops_write |].
      apply pops_seq; [by apply pops_map_err | exact Hp].
Qed.

Lemma oneof_unbalanced value :
  unbalanced
    (match value with
     | VOption (Some (VVariant name (Some v))) =>
         match subs !! name with Some e => icall e (VOption (Some v)) | None => 0%nat end
     | _ => 0%nat
     end) (oneof_length lcall e value) (oneof_encode ecall e value).
Proof using Hcall.
  destruct value as [| | | | | | | | | | | | | |[v|]|]; try apply unbalanced_fail;
    [|apply unbalanced_0; [apply pushes_ret | apply pops_write]].
  destruct v; try apply unbalanced_fail. cbn [oneof_length oneof_encode].
  unfold eunion_subfields. simpl. destruct payload as [v|].
  - destruct (subs !! case) as [e'|] eqn:He; [|apply unbalanced_fail].
    by eapply (unbalanced_map_err _ (e_with_field case) (e_with_field case)), Hcall.
  - destruct (subs !! case); apply unbalanced_fail.
Qed.
End Unbalanced.

Lemma encoder_unbalanced e :
  encoder_ok e -> forall fuel v,
  unbalanced (items_with fuel e v) (length_with fuel e v) (encode_with fuel e v).
Proof.
  induction 1 as [ty r n Hn | r n vs Hn | fn n subs Hn Hfn Hsubs IH]; intros [|fuel] v;
    try (exists 0%nat; split; intros ? ? ? H; discriminate H).
  - apply scalar_unbalanced.
  - apply enum_unbalanced.
  - assert (Hcall : forall name e v, subs !! name = Some e ->
      unbalanced (items_with fuel e v) (length_with fuel e v) (encode_with fuel e v))
      by (intros name e w Hk; by eapply IH).
    destruct fn; try done; cbn [length_with encode_with items_with encode_fn length_fn encoder_compound].
    + by apply message_inner_unbalanced.
    + pose proof (message_outer_unbalanced _ _ _ MessageOuterFn n subs Hcall v) as H.
      by destruct v as [| | | | | | | | | | | | | |[]|].
    + destruct v; try apply unbalanced_fail.
      destruct (message_repeated_unbalanced _ _ _ MessageRepeatedFn n subs Hcall items 0) as (k & Hk & Hp).
      exists k. split; [apply Hk | exact Hp].
    + pose proof (oneof_unbalanced _ _ _ OneofFn n subs Hcall v) as H.
      destruct v as [| | | | | | | | | | | | | |[[]|]|]; done.
Qed.

(** *** All of them *)
Lemma encoder_agrees e :
  encoder_ok e -> forall fuel v, (encoder_depth e <= fuel)%nat -> items_with fuel e v = 0%nat ->
  agrees (length_with fuel e v) (encode_with fuel e v) (ref_with fuel e v).
Proof.
  induction 1 as [ty r n Hn | r n vs Hn | fn n subs Hn Hfn Hsubs IH]; intros fuel v Hf Hi;
    (destruct fuel as [|fuel]; [simpl in Hf; lia |]).
  - cbn [length_with encode_with ref_with encode_fn length_fn encoder_tag encoder_compound].
    apply scalar_agrees; [apply scalar_fns_agree | done].
  - cbn [length_with encode_with ref_with encode_fn length_fn encoder_tag encoder_compound].
    pose proof (enum_agrees vs (EnumFn r) n Hn r v) as H. by destruct r.
  - assert (Hcall : forall name e v, subs !! name = Some e -> items_with fuel e v = 0%nat ->
      agrees (length_with fuel e v) (encode_with fuel e v) (ref_with fuel e v)).
    { intros name e w Hk Hw. eapply IH; [exact Hk | | done].
      pose proof (encoder_depth_subfields fn fn n subs name e Hk). lia. }
    destruct fn; try done;
      cbn [length_with encode_with ref_with encode_fn length_fn encoder_tag encoder_compound].
    + by apply (message_inner_agrees _ _ _ (items_with fuel)).
    + apply (message_outer_agrees _ _ _ (items_with fuel)); [done | done |].
      by destruct v as [| | | | | | | | | | | | | |[]|].
    + destruct v; try apply agrees_fail. simpl in Hi. destruct items; [apply agrees_nothing | done].
    + apply (oneof_agrees _ _ _ (items_with fuel)); [done |].
      simpl in Hi. destruct v as [| | | | | | | | | | | | | |[[]|]|]; done.
Qed.

End Agree.
