(* ===== verification/EncodeSpec.v ===== *)
(** * What the response encoder guarantees

    The two-pass encoder against the one-pass reference of [EncodeCompound]: with no message
    in a repeated field the passes write exactly the reference's bytes and leave the length
    stack empty; with one they always fail. *)

From S2P Require Import Prelude Prost Wire Typing EncodeLib EncodeScalar EncodeCompound.

#[local] Open Scope Z_scope.

(** ** Nested encoders *)
Inductive enested : Encoder -> Encoder -> Prop :=
| enested_refl e : enested e e
| enested_subfield e subs name e' d :
    encoder_compound e = ESubfields subs -> subs !! name = Some e' ->
    enested e' d -> enested e d.

Lemma encoder_ok_drop e d :
  encoder_ok e -> enested e d -> Encoder_drop d = eunion_field (encoder_compound d).
Proof.
  intros Hok Hn. revert Hok. induction Hn as [e | e subs name e' d Hc Hk _ IH]; intros Hok.
  - destruct Hok as [| | fn ? ? ? Hfn]; [done | done | by destruct fn].
  - apply IH. destruct Hok; simpl in Hc; try discriminate. injection Hc as ->. eauto.
Qed.

(** ** Compilation *)
Definition encoders_ok (subs : gmap string Encoder) : Prop :=
  forall name e, subs !! name = Some e -> encoder_ok e.

Definition compiles_ok (f : Field) : Prop :=
  forall is_oneof subs, compile_compound is_oneof f = Done subs -> encoders_ok subs.

Lemma Encoder_scalar_ok c number : encoder_ok (Encoder_scalar c number).
Proof. destruct c; apply ok_scalar, tag_range. Qed.

Lemma compile_encoder_ok is_oneof f e :
  compiles_ok f -> compile_encoder compile_compound is_oneof f = Done e -> encoder_ok e.
Proof.
  intros Hf H. unfold compile_encoder in H. destruct (coding f) as [[n|n]|]; [| |discriminate].
  - destruct (is_oneof && _); [discriminate |].
    destruct (scalar_coding_try_from n) as [c|]; [|discriminate].
    injection H as <-. apply Encoder_scalar_ok.
  - destruct (is_oneof && _ && _); [discriminate |].
    destruct (compound_coding_try_from n) as [[]|]; try discriminate H;
      try (injection H as <-; apply ok_enum, tag_range);
      apply obind_done in H as (subs & Hs & [= <-]); apply map_err_done in Hs;
      apply ok_message; try exact I; try apply tag_range; try (by eapply Hf);
      unfold u_range; lia.
Qed.

Lemma compile_encoders_ok is_oneof fields subs subs' :
  Forall compiles_ok fields -> encoders_ok subs ->
  compile_encoders compile_compound is_oneof fields subs = Done subs' -> encoders_ok subs'.
Proof.
  intros HF. revert subs. induction HF as [|f fields Hf HF IH]; intros subs Hs H; simpl in H.
  - by injection H as <-.
  - apply obind_done in H as (e & He & H). eapply IH; [|exact H].
    intros name e'. rewrite lookup_insert_Some. intros [[_ <-]|[_ Hk]]; [|by eapply Hs].
    by eapply compile_encoder_ok.
Qed.

Lemma compile_compound_ok f : compiles_ok f.
Proof.
  induction f as [number name subs c HF] using Field_ind'. intros is_oneof subs' H. simpl in H.
  eapply compile_encoders_ok, H; [done |]. intros n e Hk. by rewrite lookup_empty in Hk.
Qed.

Lemma Encoder_message_inner_ok response inner :
  Encoder_message_inner response = Done inner -> encoder_ok inner.
Proof.
  intros H. apply obind_done in H as (subs & Hs & [= <-]).
  apply ok_message; [apply tag_range | done | by eapply compile_compound_ok].
Qed.

(** ** Concrete messages

    [test_messages_deep_nested_lengths] of [encode/tests/success-test.rs]. *)
Definition escalar (name : string) (c : ScalarCoding) (number : Z) : Field :=
  mkField number name [] (Some (ScalarCodingOf (scalar_coding_number c))).
Definition ecompound (name : string) (c : CompoundCoding) (number : Z) (subs : list Field) : Field :=
  mkField number name subs (Some (CompoundCodingOf (compound_coding_number c))).

Definition deep_message : Field := mkField 0 "" [
  ecompound "x" Message 1 [escalar "a" Sint32Implicit 1];
  ecompound "y" Message 2 [
    ecompound "aa" Message 30 [
      escalar "strings" StringUtf8Expanded 1;
      ecompound "variants" Oneof 0 [
        ecompound "another" Message 5 [escalar "aaa" FloatPacked 1];
        escalar "unused" BoolExplicit 6];
      ecompound "youre-either" EnumPacked 128 [
        mkField 1 "in" [] None; mkField 0 "out" [] None; mkField 10000 "above" [] None]];
    escalar "bb" Int64Packed 3]] None.

Definition deep_value : Val := VRecord [
  ("x", VOption (Some (VRecord [("a", VS32 (-5))])));
  ("y", VOption (Some (VRecord [
    ("aa", VOption (Some (VRecord [
      ("strings", VList [VString "test"; VString "ing"]);
      ("variants", VOption (Some (VVariant "another" (Some (VRecord [
        ("aaa", VList [VFloat32 0; VFloat32 0xbf800000])])))));
      ("youre-either", VList [VEnum "in"; VEnum "above"; VEnum "out"])])));
    ("bb", VList [VS64 127; VS64 128; VS64 2097152; VS64 0])])))].

Definition deep_bytes : list byte := map byte_of_Z [
  10; 2; 8; 9;
  18; 43; 242; 1; 30; 10; 4; 116; 101; 115; 116; 10; 3; 105; 110; 103;
  42; 10; 10; 8; 0; 0; 0; 0; 0; 0; 128; 191;
  130; 8; 4; 1; 144; 78; 0;
  26; 8; 127; 128; 1; 128; 128; 128; 1; 0].

Definition deep_inner : Encoder :=
  match Encoder_message_inner deep_message with
  | Done e => e
  | _ => Encoder_scalar BytesImplicit 0
  end.

Lemma deep_compiles : Encoder_message_inner deep_message = Done deep_inner.
Proof. vm_compute. reflexivity. Qed.

Example deep_encodes : response_encode deep_inner deep_value = Done (deep_bytes, []).
Proof. vm_compute. reflexivity. Qed.

(** A message whose only field is a repeated message with a number in it. *)
Definition repeated_message : Field :=
  mkField 0 "" [ecompound "items" MessageExpanded 1 [escalar "id" Uint32Implicit 1]] None.
Definition repeated_inner : Encoder :=
  match Encoder_message_inner repeated_message with Done e => e | _ => deep_inner end.
Definition repeated_value : Val := VRecord [("items", VList [VRecord [("id", VU32 1)]])].

Lemma repeated_compiles : Encoder_message_inner repeated_message = Done repeated_inner.
Proof. vm_compute. reflexivity. Qed.

(** ** The properties *)
Section Spec.
Context `{WL : WireLaws}.

Lemma encode_complete response inner item bs :
  Encoder_message_inner response = Done inner ->
  repeated_message_items inner item = 0%nat ->
  reference_encode inner item = Done bs -> Z.of_nat (length bs) < u32_max ->
  response_encode inner item = Done (bs, []).
Proof.
  intros Hc Hi Hr Hm. apply Encoder_message_inner_ok in Hc.
  destruct (encoder_agrees inner Hc _ item (le_n _) Hi) as [Hs Hcomp].
  destruct (Hcomp [] bs Hr Hm) as [ls Hl]. unfold response_encode. rewrite Hl. simpl.
  destruct (Hs _ _ _ Hl) as [_ Hp]. destruct (Hp Hm) as (p & -> & He).
  destruct (He []) as [He' _]. rewrite He'. unfold reference_encode in Hr. by rewrite Hr.
Qed.

Lemma encode_sound response inner item bs left n lengths :
  Encoder_message_inner response = Done inner ->
  length_with (encoder_depth inner) inner item [] = Done (n, lengths) ->
  response_encode inner item = Done (bs, left) ->
  left = [] /\ repeated_message_items inner item = 0%nat
  /\ (n < u32_max -> reference_encode inner item = Done bs /\ Z.of_nat (length bs) = n).
Proof.
  intros Hc Hl H. apply Encoder_message_inner_ok in Hc. unfold response_encode in H.
  rewrite Hl in H. apply map_err_done in H. simpl in H.
  destruct (encoder_unbalanced inner Hc (encoder_depth inner) item) as (k & Hpush & Hpop).
  destruct (Hpush _ _ _ Hl) as (p & -> & Hk). rewrite app_nil_r in *.
  destruct (Hpop _ _ _ H) as (q & -> & Hq). rewrite length_app in Hk.
  destruct left; [|simpl in Hk; lia]. simpl in Hk.
  assert (Hi : repeated_message_items inner item = 0%nat) by (unfold repeated_message_items; lia).
  split_and!; [done | done |]. intros Hm. rewrite app_nil_r in *.
  destruct (encoder_agrees inner Hc _ item (le_n _) Hi) as [Hs _].
  destruct (Hs _ _ _ Hl) as [_ Hp]. destruct (Hp Hm) as (p' & E & He).
  rewrite app_nil_r in E. subst p'. destruct (He []) as [He' Hr].
  rewrite app_nil_r, H in He'. unfold reference_encode.
  destruct (ref_with _ inner item); simpl in He'; [|discriminate..].
  injection He' as <-. done.
Qed.

(** C5. The two-pass encoder refines a one-pass reference, where each length is that of the bytes
    after it.  A response that holds no message in a repeated field, that the reference
    encodes, and that has less than [u32::MAX] bytes, is encoded to the reference's bytes, and
    the encode pass pops every length the length pass pushed (the [debug_assert!] of the
    source holds).  And whenever the encoder succeeds, the length stack ends empty, no message
    in a repeated field was visited, and, unless the precomputed length saturated, the bytes
    are those of the reference and their number is the precomputed length. *)
Theorem encode_refines_reference response inner item (Hc : Encoder_message_inner response = Done inner) :
  (forall bs, repeated_message_items inner item = 0%nat ->
     reference_encode inner item = Done bs -> Z.of_nat (length bs) < u32_max ->
     response_encode inner item = Done (bs, []))
  /\ (forall bs left n lengths,
        length_with (encoder_depth inner) inner item [] = Done (n, lengths) ->
        response_encode inner item = Done (bs, left) ->
        left = [] /\ repeated_message_items inner item = 0%nat
        /\ (n < u32_max -> reference_encode inner item = Done bs /\ Z.of_nat (length bs) = n)).
Proof.
  split; [intros bs; by apply encode_complete with response |].
  intros bs left n lengths. by apply encode_sound with response.
Qed.

Lemma repeated_messages_unbalanced response inner item r :
  Encoder_message_inner response = Done inner ->
  (0 < repeated_message_items inner item)%nat ->
  response_encode inner item <> Done r.
Proof.
  intros Hc Hi H. destruct r as [bs left]. apply Encoder_message_inner_ok in Hc.
  unfold response_encode in H. apply map_err_done in H.
  apply obind_done in H as ([n lengths] & Hl & H).
  destruct (encoder_unbalanced inner Hc (encoder_depth inner) item) as (k & Hpush & Hpop).
  destruct (Hpush _ _ _ Hl) as (p & -> & Hk). rewrite app_nil_r in *.
  destruct (Hpop _ _ _ H) as (q & -> & Hq). rewrite length_app in Hk.
  unfold repeated_message_items in Hi. lia.
Qed.

(** C37. Two kinds of values never encode.  A message in a repeated field: [message_repeated_length]
    pushes no length for the items although [message_repeated_encode] pops one for each, so
    the passes cannot balance.  And no value the metadata allows for an explicit enumeration:
    the field's type is an option, but both passes expect a bare enumeration. *)
Theorem never_encode response inner item f v lengths
    (Hc : Encoder_message_inner response = Done inner) :
  ((0 < repeated_message_items inner item)%nat -> forall r, response_encode inner item <> Done r)
  /\ (coding f = Some (CompoundCodingOf (compound_coding_number EnumExplicit)) -> typed f v ->
      length_with 1 (enum_encoder Explicit f) v lengths = Failed (EncodeError_new ENUM_NON_ENUM)
      /\ encode_with 1 (enum_encoder Explicit f) v lengths = Failed (EncodeError_new ENUM_NON_ENUM)).
Proof.
  split; [intros Hi r; by apply (repeated_messages_unbalanced response) |]. intros Hf Ht.
  rewrite (typed_compound f _ EnumExplicit v Hf eq_refl) in Ht. by destruct v.
Qed.

(** Dropping a compiled encoder drops, for it and every encoder nested in it, exactly the
    union field that was stored. *)
Lemma encoder_drops response inner e :
  Encoder_message_inner response = Done inner -> enested inner e ->
  Encoder_drop e = eunion_field (encoder_compound e).
Proof. intros H. by apply encoder_ok_drop, (Encoder_message_inner_ok response). Qed.

End Spec.

(** ** Witnesses *)
Lemma encode_refines_reference_witness :
  response_encode deep_inner deep_value = Done (deep_bytes, [])
  /\ reference_encode deep_inner deep_value = Done deep_bytes.
Proof.
  destruct (encode_refines_reference (W := leb128_ops) deep_message deep_inner deep_value deep_compiles) as [Hc Hs].
  assert (H : response_encode deep_inner deep_value = Done (deep_bytes, []))
    by (apply Hc; vm_compute; reflexivity).
  split; [exact H |].
  apply (Hs deep_bytes [] 49 [2; 43; 30; 10; 8; 4; 8]); [vm_compute; reflexivity | exact H | reflexivity].
Defined.

Lemma never_encode_witness :
  response_encode repeated_inner repeated_value <> Done ([], [])
  /\ length_with (W := leb128_ops) 1
       (enum_encoder Explicit (ecompound "color" EnumExplicit 1 [mkField 0 "red" [] None]))
       (VOption (Some (VEnum "red"))) [] = Failed (EncodeError_new ENUM_NON_ENUM).
Proof.
  destruct (never_encode (W := leb128_ops) repeated_message repeated_inner repeated_value
    (ecompound "color" EnumExplicit 1 [mkField 0 "red" [] None]) (VOption (Some (VEnum "red"))) [] repeated_compiles)
    as [Hr He].
  split; [apply Hr; vm_compute; lia | exact (proj1 (He eq_refl ltac:(simpl; left)))].
Defined.

