(* ===== verification/Codec.v ===== *)
(** * Encoding and decoding agree: scalars

    What [encode/scalar.rs] writes for a value of a scalar type, [decode/scalar.rs] reads
    back, except where it does not: [int32] values below zero, and [sint64] values of 63
    significant bits. *)

From S2P Require Import Prelude Prost Wire Typing.
From S2P Require Import DecodeLib DecodeScalar.
From S2P Require Import EncodeLib EncodeScalar.

#[local] Open Scope Z_scope.

(** The encoder's name for a decoder's type. *)
Definition encoded_type (t : ScalarType) : EncodedType :=
  match t with
  | TBytes => EBytes
  | TStringUtf8 | TStringPermissive => EString
  | TBool => EBool
  | TInt32 => EInt32
  | TSint32 => ESint32
  | TSfixed32 => ESfixed32
  | TUint32 => EUint32
  | TFixed32 => EFixed32
  | TInt64 => EInt64
  | TSint64 => ESint64
  | TSfixed64 => ESfixed64
  | TUint64 => EUint64
  | TFixed64 => EFixed64
  | TFloat => EFloat
  | TDouble => EDouble
  end.

(** Encoder and decoder pick the same type for every coding. *)
Lemma encoded_type_scalar {W : WireOps} c number :
  encode_fn (Encoder_scalar c number) =
    ScalarFn (encoded_type (scalar_shape c).1) (scalar_shape c).2.
Proof. by destruct c. Qed.

(** The bytes of one item of a type, without its tag. *)
Definition encode_item {W : WireOps} (t : ScalarType) (v : Val) : outcome EncodeError (list byte) :=
  let F := scalar_fns_of (encoded_type t) in
  match sf_unwrap F v with
  | Some x => sf_encode_inner F x
  | None => Failed (EncodeError_new (sf_type_error F))
  end.

(** The values that survive. *)
Definition survives (t : ScalarType) (v : Val) : Prop :=
  match t, v with
  | TInt32, VS32 z => 0 <= z
  | TSint64, VS64 z => - 2 ^ 62 <= z < 2 ^ 62
  | TBytes, VList items => Z.of_nat (length items) < 2 ^ 32
  | (TStringUtf8 | TStringPermissive), VString s => Z.of_nat (length (string_bytes s)) < 2 ^ 32
  | _, _ => True
  end.

(** ** Arithmetic *)
Lemma zigzag_bits w z :
  1 < w -> i_range w z ->
  as_u w (Z.lxor (as_i w (Z.shiftl z 1)) (Z.shiftr z (w - 1)))
    = if z <? 0 then - 2 * z - 1 else 2 * z.
Proof.
  unfold i_range. intros Hw Hz. set (h := 2 ^ (w - 1)) in *.
  assert (H2 : 2 ^ w = 2 * h)
    by (unfold h; rewrite <- Z.pow_succ_r by lia; f_equal; lia).
  assert (Hh : 0 < h) by (apply Z.pow_pos_nonneg; lia).
  rewrite Z.shiftl_mul_pow2, Z.shiftr_div_pow2 by lia. change (2 ^ 1) with 2. fold h.
  assert (Hq : z / h = if z <? 0 then -1 else 0).
  { destruct (Z.ltb_spec z 0).
    - symmetry. apply (Z.div_unique _ _ _ (z + h)); lia.
    - apply Z.div_small. lia. }
  assert (Hi : exists k, as_i w (z * 2) = z * 2 + k * 2 ^ w).
  { unfold as_i. exists (- ((z * 2 + 2 ^ (w - 1)) / 2 ^ w)).
    pose proof (Z.div_mod (z * 2 + 2 ^ (w - 1)) (2 ^ w)). lia. }
  destruct Hi as [k ->]. rewrite Hq. unfold as_u. destruct (Z.ltb_spec z 0).
  - rewrite Z.lxor_m1_r. unfold Z.lnot.
    replace (Z.pred (- (z * 2 + k * 2 ^ w))) with (- 2 * z - 1 + (- k) * 2 ^ w) by lia.
    rewrite Z.mod_add by lia. apply Z.mod_small. lia.
  - rewrite Z.lxor_0_r, Z.mod_add by lia. rewrite Z.mod_small; lia.
Qed.

(** Undoing it: the value is halved, and inverted if it was odd. *)
Lemma unzigzag z :
  let v := if z <? 0 then - 2 * z - 1 else 2 * z in
  Z.lxor (Z.shiftr v 1) (- Z.land v 1) = z /\ Z.shiftr v 1 = (if z <? 0 then - z - 1 else z)
  /\ (Z.land v 1 = 0 \/ Z.land v 1 = 1).
Proof.
  intros v. assert (Hl : forall x, Z.land x 1 = x mod 2)
    by (intros x; exact (Z.land_ones x 1 ltac:(lia))).
  rewrite Hl, Z.shiftr_div_pow2 by lia. change (2 ^ 1) with 2. unfold v.
  destruct (Z.ltb_spec z 0).
  - replace (- 2 * z - 1) with (1 + (- z - 1) * 2) by lia.
    rewrite Z.div_add, Z.mod_add by lia. change (1 / 2) with 0. change (1 mod 2) with 1.
    change (- (1)) with (-1). rewrite Z.add_0_l, Z.lxor_m1_r. unfold Z.lnot.
    split_and!; [lia | lia | by right].
  - rewrite (Z.mul_comm 2), Z.div_mul, Z.mod_mul by lia. change (- 0) with 0.
    rewrite Z.lxor_0_r. auto.
Qed.

Lemma as_i_small w z : 0 < w -> 0 <= z < 2 ^ (w - 1) -> as_i w z = z.
Proof.
  intros Hw Hz. rewrite <- (as_u_id w z) at 1; [apply as_i_as_u; [lia |]; unfold i_range; lia |].
  unfold u_range. replace (2 ^ w) with (2 * 2 ^ (w - 1)); [lia |].
  rewrite <- Z.pow_succ_r by lia. f_equal. lia.
Qed.

Section Roundtrip.
Context `{WL : WireLaws}.

(** What is read back from a varint and from a fixed-width integer. *)
Lemma read_varint_bytes e v limit rest :
  u_range 64 v -> Z.of_nat (length (encode_varint v)) <= limit ->
  read_varint e limit (encode_varint v ++ rest)
    = Done (v, limit - Z.of_nat (length (encode_varint v)), rest).
Proof.
  intros Hv Hl. rewrite length_encode_varint in * by done. by apply read_varint_encode.
Qed.

Lemma fixed_roundtrip n wrap z limit rest :
  (0 < n)%nat -> Z.of_nat n <= limit ->
  fixed_decode_inner n wrap limit (put_le n (as_u (8 * Z.of_nat n) z) ++ rest)
    = Done (wrap (as_u (8 * Z.of_nat n) z), limit - Z.of_nat n, rest).
Proof.
  intros Hn Hl. unfold fixed_decode_inner, rd_bind, take_limit.
  rewrite (proj2 (Z.ltb_ge _ _)) by lia. unfold rd_get_le, rd_buf.
  rewrite get_le_put_le by (apply as_u_range; lia). done.
Qed.

Lemma length_fixed n z : Z.of_nat (length (put_le n (as_u (8 * Z.of_nat n) z))) = Z.of_nat n.
Proof. rewrite put_le_spec by (apply as_u_range; lia). by rewrite length_to_le. Qed.

Lemma get_bytes_put items bytes limit rest :
  Forall is_u8 items -> put_bytes items = Done bytes ->
  get_bytes (length items) limit (bytes ++ rest) = Done (items, limit, rest).
Proof.
  intros HF. revert bytes. induction HF as [|v items Hv HF IH]; intros bytes H.
  - by injection H as <-.
  - destruct v; try done. cbn [put_bytes] in H. apply obind_done in H as (bs & Hbs & [= <-]).
    cbn [length get_bytes]. unfold rd_bind at 1, rd_get_le, rd_buf. rewrite <- app_assoc.
    rewrite get_le_put_le by (apply as_u_range; lia). unfold rd_bind.
    rewrite IH by done. unfold rd_ret. by rewrite as_u_id.
Qed.

Lemma length_prefix_roundtrip n payload limit rest :
  n = Z.of_nat (length payload) -> n < 2 ^ 32 ->
  Z.of_nat (length (encode_varint (as_u 64 n) ++ payload)) <= limit ->
  read_length_check_overflow limit ((encode_varint (as_u 64 n) ++ payload) ++ rest)
    = Done (n, limit - Z.of_nat (length (encode_varint (as_u 64 n) ++ payload)), payload ++ rest).
Proof.
  intros Hn Hm Hl. rewrite as_u_id in * by (unfold u_range; lia).
  assert (Hr : u_range 64 n) by (unfold u_range; lia).
  rewrite length_app, Nat2Z.inj_add, length_encode_varint in * by done.
  rewrite <- app_assoc, read_length_encode by (unfold u_range; lia).
  do 3 f_equal. lia.
Qed.

Lemma scalar_item_reads_back t v bytes limit rest :
  scalar_typed t v -> survives t v -> encode_item t v = Done bytes ->
  Z.of_nat (length bytes) <= limit ->
  decode_inner_of t limit (bytes ++ rest) = Done (v, limit - Z.of_nat (length bytes), rest).
Proof.
  intros Ht Hs He Hl. unfold encode_item in He.
  destruct t, v; try done; simpl in Ht, Hs, He; try (injection He as <-).
  - (* bytes *)
    unfold bytes_encode_inner in He. apply obind_done in He as (bs & Hbs & [= <-]).
    pose proof (put_bytes_writes items) as Hw. rewrite Hbs in Hw. simpl in Hw.
    cbn [decode_inner_of]. unfold bytes_decode_inner, rd_bind.
    rewrite length_prefix_roundtrip by (done || lia).
    rewrite Nat2Z.id, (get_bytes_put _ bs) by done. done.
  - (* string *)
    pose proof (length_prefix_roundtrip _ (string_bytes s) limit rest eq_refl Hs Hl) as H.
    cbn [decode_inner_of]. unfold string_utf8_decode_inner, rd_bind. rewrite H.
    unfold rd_take_reader, rd_buf. rewrite Nat2Z.id, take_reader_app by done. rewrite Ht.
    unfold rd_ret. by rewrite bytes_string_bytes.
  - pose proof (length_prefix_roundtrip _ (string_bytes s) limit rest eq_refl Hs Hl) as H.
    cbn [decode_inner_of]. unfold string_permissive_decode_inner, rd_bind. rewrite H.
    unfold rd_take_reader, rd_buf. rewrite Nat2Z.id, take_reader_app by done.
    unfold rd_ret. by rewrite bytes_string_bytes.
  - (* bool *)
    assert (Hb : u_range (8 * Z.of_nat 1) (if b then 1 else 0)) by (destruct b; unfold u_range; lia).
    rewrite put_le_spec in * by done. cbn [decode_inner_of]. unfold bool_decode_inner.
    rewrite length_to_le in *. rewrite (proj2 (Z.leb_le 1 limit)) by lia.
    unfold rd_bind, rd_get_le, rd_buf. rewrite <- (put_le_spec 1 _ Hb), get_le_put_le by done.
    unfold take_limit. rewrite (proj2 (Z.ltb_ge _ _)) by lia. by destruct b.
  - (* int32 *)
    unfold varint_encode_inner in *. unfold i_range in Ht. rewrite as_u_id in * by (unfold u_range; lia).
    cbn [decode_inner_of]. unfold int32_decode_inner, rd_bind.
    rewrite read_varint_bytes by (unfold u_range; lia || done).
    rewrite (proj2 (Z.ltb_lt _ _)) by lia. done.
  - (* sint32 *)
    unfold zigzag32 in *. rewrite (zigzag_bits 32) in * by (lia || done).
    destruct (unzigzag z) as (Hu & Hsh & Hla). unfold i_range in Ht.
    cbn [decode_inner_of]. unfold sint32_decode_inner, rd_bind.
    rewrite read_varint_bytes by (done || (unfold u_range; destruct (Z.ltb_spec z 0); lia)).
    rewrite (proj2 (Z.ltb_lt _ _)) by (destruct (Z.ltb_spec z 0); lia).
    rewrite !as_i_small by
      (try lia; rewrite ?Hsh; destruct (Z.ltb_spec z 0); lia). by rewrite Hu.
  - (* sfixed32 *)
    rewrite (length_fixed 4) in *. cbn [decode_inner_of].
    unfold sfixed32_decode_inner. rewrite (fixed_roundtrip 4) by lia. by rewrite as_i_as_u.
  - (* uint32 *)
    unfold u_range in Ht. rewrite as_u_id in * by (unfold u_range; lia).
    cbn [decode_inner_of]. unfold uint32_decode_inner, rd_bind.
    rewrite read_varint_bytes by (unfold u_range; lia || done).
    rewrite (proj2 (Z.ltb_lt _ _)) by lia. done.
  - (* fixed32 *)
    rewrite (length_fixed 4) in *. cbn [decode_inner_of].
    unfold fixed32_decode_inner. rewrite (fixed_roundtrip 4) by lia. by rewrite as_u_id.
  - (* int64 *)
    cbn [decode_inner_of]. unfold int64_decode_inner, rd_bind.
    rewrite read_varint_bytes by (done || (apply as_u_range; lia)).
    by rewrite as_i_as_u.
  - (* sint64 *)
    unfold zigzag64 in *. rewrite (zigzag_bits 64) in * by (lia || done).
    destruct (unzigzag z) as (Hu & Hsh & Hla).
    cbn [decode_inner_of]. unfold sint64_decode_inner, rd_bind.
    rewrite read_varint_bytes by (done || (unfold u_range; destruct (Z.ltb_spec z 0); lia)).
    cbv zeta. rewrite as_i_small by (destruct (Z.ltb_spec z 0); lia). by rewrite Hu.
  - (* sfixed64 *)
    rewrite (length_fixed 8) in *. cbn [decode_inner_of].
    unfold sfixed64_decode_inner. rewrite (fixed_roundtrip 8) by lia. by rewrite as_i_as_u.
  - (* uint64 *)
    rewrite as_u_id in * by done.
    cbn [decode_inner_of]. unfold uint64_decode_inner, rd_bind.
    by rewrite read_varint_bytes.
  - rewrite (length_fixed 8) in *. cbn [decode_inner_of].
    unfold fixed64_decode_inner. rewrite (fixed_roundtrip 8) by lia. by rewrite as_u_id.
  - rewrite (length_fixed 4) in *. cbn [decode_inner_of].
    unfold float_decode_inner. rewrite (fixed_roundtrip 4) by lia. by rewrite as_u_id.
  - rewrite (length_fixed 8) in *. cbn [decode_inner_of].
    unfold double_decode_inner. rewrite (fixed_roundtrip 8) by lia. by rewrite as_u_id.
Qed.

(** An [int32] below zero is written as the ten-byte varint of its sign extension, and
    the decoder rejects it. *)
Lemma int32_rejects_negatives z bytes limit rest :
  i_range 32 z -> z < 0 -> encode_item TInt32 (VS32 z) = Done bytes ->
  Z.of_nat (length bytes) <= limit ->
  decode_inner_of TInt32 limit (bytes ++ rest) = Failed (DecodeError_new OVERFLOW_32BIT).
Proof.
  intros Hz Hn [= <-] Hl. cbn [decode_inner_of]. unfold int32_decode_inner, rd_bind.
  rewrite read_varint_bytes by (done || (apply as_u_range; lia)).
  unfold i_range, as_u in *.
  replace (z mod 2 ^ 64) with (z + 2 ^ 64)
    by (apply (Z.mod_unique _ _ (-1)); lia).
  rewrite (proj2 (Z.ltb_ge _ _)) by lia. done.
Qed.

(** A [sint64] of 63 significant bits is read back as another number: the decoder shifts
    the sign in where the format shifts in a zero. *)
Lemma sint64_corrupts z bytes limit rest :
  i_range 64 z -> ~ (- 2 ^ 62 <= z < 2 ^ 62) -> encode_item TSint64 (VS64 z) = Done bytes ->
  Z.of_nat (length bytes) <= limit ->
  decode_inner_of TSint64 limit (bytes ++ rest)
    = Done (VS64 (if z <? 0 then z + 2 ^ 63 else z - 2 ^ 63), limit - Z.of_nat (length bytes), rest).
Proof.
  intros Hz Hn [= <-] Hl. unfold zigzag64 in *. rewrite (zigzag_bits 64) in * by (lia || done).
  unfold i_range in Hz. cbn [decode_inner_of]. unfold sint64_decode_inner, rd_bind.
  rewrite read_varint_bytes by (done || (unfold u_range; destruct (Z.ltb_spec z 0); lia)).
  cbv zeta. set (v := if z <? 0 then - 2 * z - 1 else 2 * z) in *.
  assert (Ha : as_i 64 v = (if z <? 0 then - 2 * (z + 2 ^ 63) - 1 else 2 * (z - 2 ^ 63))).
  { unfold as_i, v. change (2 ^ (64 - 1)) with (2 ^ 63). destruct (Z.ltb_spec z 0).
    - replace (- 2 * z - 1 + 2 ^ 63) with (- 2 * z - 1 - 2 ^ 63 + 1 * 2 ^ 64) by lia.
      rewrite Z.mod_add, Z.mod_small by lia. lia.
    - replace (2 * z + 2 ^ 63) with (2 * z - 2 ^ 63 + 1 * 2 ^ 64) by lia.
      rewrite Z.mod_add, Z.mod_small by lia. lia. }
  rewrite Ha. unfold rd_ret. do 4 f_equal.
  assert (Hl1 : forall x, Z.land x 1 = x mod 2) by (intros x; exact (Z.land_ones x 1 ltac:(lia))).
  rewrite Hl1, Z.shiftr_div_pow2 by lia. change (2 ^ 1) with 2. destruct (Z.ltb_spec z 0).
  - replace (- 2 * (z + 2 ^ 63) - 1) with (1 + (- (z + 2 ^ 63) - 1) * 2) by lia.
    rewrite Z.div_add, Z.mod_add by lia. change (1 / 2) with 0. change (1 mod 2) with 1.
    change (- (1)) with (-1). rewrite Z.add_0_l, Z.lxor_m1_r. unfold Z.lnot. lia.
  - rewrite (Z.mul_comm 2), Z.div_mul, Z.mod_mul by lia. change (- 0) with 0.
    by rewrite Z.lxor_0_r.
Qed.


End Roundtrip.
