(* ===== verification/CodecSpec.v ===== *)
(** * What decoder and encoder have in common

    The unions of mergers and encoders are dropped as they were stored; and the integers that
    do not survive the codec. *)

From S2P Require Import Prelude Prost Wire Typing.
From S2P Require Import DecodeLib DecodeScalar DecodeCompound DecodeSpec.
From S2P Require Import EncodeLib EncodeScalar EncodeCompound EncodeSpec Codec.

#[local] Open Scope Z_scope.

Section Spec.
Context `{WL : WireLaws}.


(** C38. Three kinds of varints are misread.  An [int32] below zero is written as a ten-byte
    varint, which the decoder rejects; a [sint64] of 63 significant bits is read back as
    another number; and a varint that is longer than it need be moves the buffer further than
    the limit, so that the check of a later fixed-width read passes where the buffer is too
    short, and the read panics. *)
Theorem varints_misread z bytes limit rest (Hl : Z.of_nat (length bytes) <= limit) :
  (i_range 32 z -> z < 0 -> encode_item TInt32 (VS32 z) = Done bytes ->
   decode_inner_of TInt32 limit (bytes ++ rest) = Failed (DecodeError_new OVERFLOW_32BIT))
  /\ (i_range 64 z -> ~ (- 2 ^ 62 <= z < 2 ^ 62) -> encode_item TSint64 (VS64 z) = Done bytes ->
      decode_inner_of TSint64 limit (bytes ++ rest)
      = Done (VS64 (if z <? 0 then z + 2 ^ 63 else z - 2 ^ 63), limit - Z.of_nat (length bytes), rest))
  /\ exists request inner src,
       message_inner request = Done inner /\ decode (W := leb128_ops) inner src = Crash Panicked.
Proof.
  split_and!; [intros H1 H2 H3 .. |].
  - exact (int32_rejects_negatives z bytes limit rest H1 H2 H3 Hl).
  - exact (sint64_corrupts z bytes limit rest H1 H2 H3 Hl).
  - exact overlong_panics.
Qed.

End Spec.


Lemma varints_misread_witness :
  decode_inner_of TInt32 10 (encode_varint (2 ^ 64 - 1)) = Failed (DecodeError_new OVERFLOW_32BIT)
  /\ decode_inner_of TSint64 10 (encode_varint (2 ^ 63)) = Done (VS64 (- 2 ^ 62), 0, []).
Proof.
  split.
  - refine (proj1 (varints_misread (W := leb128_ops) (-1) (encode_varint (2 ^ 64 - 1)) 10 [] _) _ _ eq_refl);
      [vm_compute; discriminate | unfold i_range; lia | lia].
  - refine (proj1 (proj2 (varints_misread (W := leb128_ops) (2 ^ 62) (encode_varint (2 ^ 63)) 10 [] _)) _ _ eq_refl);
      [vm_compute; discriminate | unfold i_range; lia | lia].
Defined.
