(* ===== verification/Roundtrip.v ===== *)
(** * Encoding and decoding agree: messages

    The request decoder reads back what the reference encoder of [EncodeCompound] writes for
    a value of the same metadata; with [EncodeSpec], so it does what the response encoder
    writes. *)

From S2P Require Import Prelude Prost Wire Typing.
From S2P Require Import DecodeLib DecodeScalar DecodeCompound.
From S2P Require Import EncodeLib EncodeScalar EncodeCompound EncodeSpec Codec.

#[local] Open Scope Z_scope.

(** ** Reading what follows

    [decodes d p v]: [d] reads [p] as [v], consumes just that, and counts it all against the
    limit. *)
Definition decodes {A} (d : Rd A) (p : list byte) (v : A) : Prop :=
  forall limit rest, 0 <= limit ->
  d (limit + Z.of_nat (length p)) (p ++ rest) = Done (v, limit, rest).

Section Decodes.
Context `{WL : WireLaws}.

Lemma decodes_ret {A} (a : A) : decodes (rd_ret a) [] a.
Proof. intros limit rest Hl. simpl. unfold rd_ret. by rewrite Z.add_0_r. Qed.

Lemma decodes_bind {A B} (d : Rd A) (k : A -> Rd B) p q a b :
  decodes d p a -> decodes (k a) q b -> decodes (rd_bind d k) (p ++ q) b.
Proof.
  intros Hd Hk limit rest Hl. unfold rd_bind.
  rewrite length_app, <- app_assoc, Nat2Z.inj_add, (Z.add_comm (Z.of_nat (length p))), Z.add_assoc.
  rewrite Hd by lia. by apply Hk.
Qed.

Lemma decodes_bind_ret {A B} (d : Rd A) (f : A -> B) p a :
  decodes d p a -> decodes (rd_bind d (fun x => rd_ret (f x))) p (f a).
Proof. intros Hd limit rest Hl. unfold rd_bind. by rewrite Hd. Qed.

Lemma decodes_map_err {A} (d : Rd A) f p a : decodes d p a -> decodes (rd_map_err f d) p a.
Proof. intros Hd limit rest Hl. unfold rd_map_err. by rewrite Hd. Qed.

Lemma decodes_varint e v :
  u_range 64 v -> decodes (read_varint e) (encode_varint v) v.
Proof.
  intros Hv limit rest Hl. rewrite read_varint_bytes by (done || lia). do 3 f_equal. lia.
Qed.

Lemma decodes_tag number w :
  u_range 32 number -> decodes decode_tag (encode_varint (tag number w)) (number, w).
Proof.
  intros Hn limit rest Hl. rewrite length_encode_varint by apply tag_range.
  rewrite tag_small by done.
  assert (Hr : u_range 64 (Z.lor (Z.shiftl number 3) (wire_type_number w)))
    by (rewrite <- tag_small by done; apply tag_range).
  pose proof (encoded_len_varint_range _ Hr).
  rewrite decode_tag_encode by (done || lia). do 3 f_equal. lia.
Qed.

(** A length prefix leaves its payload for the reads after it. *)
Lemma length_prefix limit n rest :
  u_range 32 n -> 0 <= limit ->
  read_length_check_overflow (limit + (Z.of_nat (length (encode_varint n)) + n))
    (encode_varint n ++ rest) = Done (n, limit, rest).
Proof.
  intros Hn Hl. assert (Hr : u_range 64 n) by (unfold u_range in *; lia).
  rewrite length_encode_varint, read_length_encode by (done || lia). do 3 f_equal. lia.
Qed.

(** A length-delimited payload read by [d] under a limit of its own. *)
Lemma decodes_delimited {A} (d : Z -> Rd A) p a :
  u_range 32 (Z.of_nat (length p)) ->
  (forall rest, exists l, d (Z.of_nat (length p)) (Z.of_nat (length p)) (p ++ rest) = Done (a, l, rest)) ->
  decodes (rd_bind read_length_check_overflow (fun n => with_limit n (d n)))
    (encode_varint (Z.of_nat (length p)) ++ p) a.
Proof.
  intros Hn Hd limit rest Hl. unfold rd_bind.
  rewrite length_app, Nat2Z.inj_add, <- app_assoc, length_prefix by done.
  destruct (Hd rest) as [l E]. unfold with_limit. by rewrite E.
Qed.

(** ** Scalars *)
Definition scalar_sendable (t : ScalarType) (v : Val) : Prop := scalar_typed t v /\ survives t v.

Lemma scalar_decodes t v p :
  scalar_sendable t v -> encode_item t v = Done p -> decodes (decode_inner_of t) p v.
Proof.
  intros [Ht Hs] He limit rest Hl.
  rewrite (scalar_item_reads_back t v p) by (done || lia). do 3 f_equal. lia.
Qed.

(** ** The macros *)
Lemma singular_explicit_decodes w e d dst p v :
  decodes d p v -> decodes (singular_explicit w e d w dst) p (VOption (Some v)).
Proof.
  intros Hd. unfold singular_explicit. rewrite decide_True by done.
  by apply (decodes_bind_ret d (fun v => VOption (Some v))).
Qed.

Lemma singular_implicit_decodes w e d dst p v :
  decodes d p v -> decodes (singular_implicit w e d w dst) p v.
Proof. intros Hd. unfold singular_implicit. by rewrite decide_True. Qed.

Lemma stringy_repeated_decodes d items p v :
  decodes d p v ->
  decodes (stringy_repeated d LengthDelimited (VList items)) p (VList (items ++ [v])).
Proof.
  intros Hd. unfold stringy_repeated. rewrite decide_True by done.
  by apply (decodes_bind_ret _ (fun v => VList (items ++ [v]))), decodes_map_err.
Qed.

Lemma numeric_repeated_decodes w e d items p v :
  w <> LengthDelimited -> decodes d p v ->
  decodes (numeric_repeated w e d w (VList items)) p (VList (items ++ [v])).
Proof.
  intros Hw Hd. unfold numeric_repeated. rewrite decide_False, decide_True by done.
  by apply (decodes_bind_ret _ (fun v => VList (items ++ [v]))), decodes_map_err.
Qed.

(** [p] is the concatenation of items that [d] reads as [vs]. *)
Inductive item_bytes (d : Rd Val) : list Val -> list byte -> Prop :=
| item_bytes_nil : item_bytes d [] []
| item_bytes_cons v vs p ps :
    decodes d p v -> p <> [] -> item_bytes d vs ps -> item_bytes d (v :: vs) (p ++ ps).

Lemma packed_loop_decodes d vs ps :
  item_bytes d vs ps -> forall fuel items rest, (length ps <= fuel)%nat ->
  packed_loop fuel d items (Z.of_nat (length ps)) (ps ++ rest) = Done (items ++ vs, 0, rest).
Proof.
  induction 1 as [|v vs p ps Hp Hne Hps IH]; intros fuel items rest Hf.
  - rewrite app_nil_r. by destruct fuel.
  - destruct p as [|b p']; [done |]. set (p := b :: p') in *.
    assert (Hlp : (0 < length p)%nat) by (simpl; lia). clearbody p.
    rewrite length_app in *. destruct fuel as [|fuel]; [lia |].
    cbn [packed_loop]. rewrite (proj2 (Z.ltb_lt _ _)) by lia.
    unfold rd_bind, rd_map_err. rewrite Nat2Z.inj_add, Z.add_comm, <- app_assoc, Hp by lia. simpl.
    rewrite IH by lia. by rewrite <- app_assoc.
Qed.

Lemma numeric_packed_decodes w e d items vs ps :
  item_bytes d vs ps -> u_range 32 (Z.of_nat (length ps)) ->
  decodes (numeric_repeated w e d LengthDelimited (VList items))
    (encode_varint (Z.of_nat (length ps)) ++ ps) (VList (items ++ vs)).
Proof.
  intros Hi Hn. unfold numeric_repeated. rewrite decide_True by done.
  intros limit rest Hl. unfold rd_bind.
  rewrite length_app, Nat2Z.inj_add, <- app_assoc, length_prefix by done.
  unfold packed_items, with_limit. rewrite Nat2Z.id, (packed_loop_decodes d vs ps) by done. done.
Qed.

(** ** The loop over the fields of a message *)
Section Loop.
Context (call : Merger -> Merge) (m : Merger).

(** [emits r p r']: reading [p] turns the record [r] into [r']. *)
Definition emits (r : list (string * Val)) (p : list byte) (r' : list (string * Val)) : Prop :=
  forall limit rest out, 0 <= limit ->
  (forall fuel, (Z.to_nat limit <= fuel)%nat -> message_inner_loop call fuel m r' limit rest = out) ->
  forall fuel, (Z.to_nat (limit + Z.of_nat (length p)) <= fuel)%nat ->
  message_inner_loop call fuel m r (limit + Z.of_nat (length p)) (p ++ rest) = out.

Lemma emits_nil r : emits r [] r.
Proof using.
  intros limit rest out Hl H fuel Hf. simpl in *. rewrite Z.add_0_r in *. by apply H.
Qed.

Lemma emits_app r1 p r2 q r3 : emits r1 p r2 -> emits r2 q r3 -> emits r1 (p ++ q) r3.
Proof using.
  intros H1 H2 limit rest out Hl H fuel Hf. rewrite length_app, Nat2Z.inj_add in *.
  rewrite <- app_assoc, (Z.add_comm (Z.of_nat (length p))), Z.add_assoc.
  apply H1; [lia | | lia]. intros fuel' Hf'. by apply H2.
Qed.

Lemma emits_turn r p r' :
  p <> [] -> decodes (message_inner_field call m r) p r' -> emits r p r'.
Proof using.
  intros Hp Hd limit rest out Hl H fuel Hf. destruct p as [|b p']; [done |].
  set (p := b :: p') in *. assert (Hlp : 0 < Z.of_nat (length p)) by (simpl; lia). clearbody p.
  destruct fuel as [|fuel]; [lia |]. cbn [message_inner_loop].
  rewrite (proj2 (Z.ltb_lt _ _)) by lia. unfold rd_bind. rewrite Hd by done. apply H. lia.
Qed.

Lemma emits_loop r p r' rest :
  emits r p r' ->
  message_inner_loop call (Z.to_nat (Z.of_nat (length p))) m r (Z.of_nat (length p)) (p ++ rest)
    = Done (r', 0, rest).
Proof using.
  intros H. rewrite <- (Z.add_0_l (Z.of_nat (length p))) at 2.
  apply (H 0 rest); [lia | | lia]. intros fuel _. by destruct fuel.
Qed.

(** One field: its tag and a payload that its merger reads. *)
Lemma field_turn subs number w i sm r name dst p v :
  compound m = Subfields subs -> subs !! number = Some (Z.of_nat i, sm) -> u_range 32 number ->
  r !! i = Some (name, dst) -> decodes (call sm w dst) p v ->
  emits r (encode_varint (tag number w) ++ p) (<[i := (name, v)]> r).
Proof using WL.
  intros Hc Hk Hn Hr Hd. apply emits_turn.
  - pose proof (tag_range number w) as Ht. pose proof (encoded_len_varint_range _ Ht).
    pose proof (length_encode_varint _ Ht). intros E. apply app_eq_nil in E as [E _].
    rewrite E in *. simpl in *. lia.
  - unfold message_inner_field.
    eapply decodes_bind; [by apply decodes_tag |]. intros limit rest Hl.
    unfold union_subfields, rd_bind at 1. rewrite Hc. unfold rd_ret at 1. rewrite Hk, Nat2Z.id, Hr.
    unfold rd_bind, rd_map_err. by rewrite Hd.
Qed.
End Loop.

(** *** Repeated fields, one tag per item *)
Inductive tagged (t : list byte) (Q : list byte -> Val -> Prop) : list Val -> list byte -> Prop :=
| tagged_nil : tagged t Q [] []
| tagged_cons v vs p ps : Q p v -> tagged t Q vs ps -> tagged t Q (v :: vs) (t ++ p ++ ps).

Lemma tagged_emits call m subs number w i sm name Q vs ps :
  compound m = Subfields subs -> subs !! number = Some (Z.of_nat i, sm) -> u_range 32 number ->
  (forall acc p v, Q p v -> decodes (call sm w (VList acc)) p (VList (acc ++ [v]))) ->
  tagged (encode_varint (tag number w)) Q vs ps ->
  forall r acc, r !! i = Some (name, VList acc) ->
  emits call m r ps (<[i := (name, VList (acc ++ vs))]> r).
Proof.
  intros Hc Hk Hn HQ. induction 1 as [|v vs p ps Hp Hps IH]; intros r acc Hr.
  - rewrite app_nil_r, list_insert_id by done. apply emits_nil.
  - rewrite app_assoc. eapply emits_app; [eapply field_turn; eauto |].
    pose proof (lookup_lt_Some _ _ _ Hr) as Hlt.
    replace (<[i:=(name, VList (acc ++ v :: vs))]> r)
      with (<[i:=(name, VList ((acc ++ [v]) ++ vs))]> (<[i:=(name, VList (acc ++ [v]))]> r))
      by (rewrite list_insert_insert_eq, <- app_assoc; done).
    apply IH. by rewrite list_lookup_insert_eq.
Qed.

(** ** Scalar fields *)
Lemma encode_item_nonempty t v p : encode_item t v = Done p -> p <> [].
Proof.
  assert (Hv : forall z (q : list byte), u_range 64 z -> encode_varint z ++ q <> []).
  { intros z q Hz E. apply app_eq_nil in E as [E _].
    pose proof (length_encode_varint z Hz) as Hl. pose proof (encoded_len_varint_range z Hz).
    rewrite E in Hl. simpl in Hl. lia. }
  assert (Hv' : forall z, u_range 64 z -> encode_varint z <> [])
    by (intros z Hz E; apply (Hv z [] Hz); by rewrite app_nil_r).
  assert (Hf : forall n z, (0 < n)%nat -> put_le n (as_u (8 * Z.of_nat n) z) <> []).
  { intros n z Hn E. pose proof (length_fixed n z) as Hl. rewrite E in Hl. simpl in Hl. lia. }
  unfold encode_item. intros H.
  destruct t, v; try discriminate H; cbn in H; try (injection H as <-);
    try (apply Hv'; (apply as_u_range; lia) || apply zigzag32_range);
    try (apply Hv; apply as_u_range; lia); try (apply (Hf 4%nat); lia); try (apply (Hf 8%nat); lia).
  - unfold bytes_encode_inner in H. apply obind_done in H as (bs & _ & [= <-]).
    apply Hv. apply as_u_range. lia.
  - rewrite put_le_spec by (destruct b; unfold u_range; lia). done.
Qed.

Lemma encode_items_tagged t before items ps :
  Forall (scalar_sendable t) items ->
  encode_items (scalar_fns_of (encoded_type t)) before items = Done ps ->
  tagged before (fun p v => decodes (decode_inner_of t) p v /\ p <> []) items ps.
Proof.
  intros HF. revert ps. induction HF as [|v items Hv HF IH]; intros ps H; cbn [encode_items] in H.
  - injection H as <-. constructor.
  - destruct (sf_unwrap _ v) as [x|] eqn:Ex; [|discriminate].
    apply obind_done in H as (p & Hp & H). apply obind_done in H as (rest & Hrest & [= <-]).
    assert (He : encode_item t v = Done p) by (unfold encode_item; by rewrite Ex).
    constructor; [|by apply IH]. split; [by apply scalar_decodes | by eapply encode_item_nonempty].
Qed.

Lemma tagged_item_bytes d vs ps :
  tagged [] (fun p v => decodes d p v /\ p <> []) vs ps -> item_bytes d vs ps.
Proof.
  induction 1 as [|v vs p ps [? ?] ? IH]; [apply item_bytes_nil | by apply (item_bytes_cons d v vs p ps)].
Qed.

(** Negative zero is left out of an implicit field although it is not the default. *)
Definition positive_zero (v : Val) : Prop := v <> VFloat32 (2 ^ 31) /\ v <> VFloat64 (2 ^ 63).

Lemma land_low_zero w z :
  0 < w -> u_range (w + 1) z -> Z.land z (2 ^ w - 1) = 0 -> z = 0 \/ z = 2 ^ w.
Proof.
  unfold u_range. intros Hw Hz H.
  replace (2 ^ w - 1) with (Z.ones w) in H by (rewrite Z.ones_equiv; lia).
  rewrite Z.land_ones in H by lia. rewrite Z.pow_add_r in Hz by lia. change (2 ^ 1) with 2 in Hz.
  pose proof (Z.div_mod z (2 ^ w) ltac:(lia)) as Hd. rewrite H in Hd.
  pose proof (Z.div_lt_upper_bound z (2 ^ w) 2 ltac:(lia) ltac:(lia)).
  pose proof (Z.div_pos z (2 ^ w) ltac:(lia) ltac:(lia)).
  assert (z / 2 ^ w = 0 \/ z / 2 ^ w = 1) as [E|E] by lia; rewrite E in Hd; lia.
Qed.

Lemma default_value c v x :
  (scalar_shape c).2 = Implicit -> scalar_typed (scalar_shape c).1 v -> positive_zero v ->
  sf_unwrap (scalar_fns_of (encoded_type (scalar_shape c).1)) v = Some x ->
  sf_default (scalar_fns_of (encoded_type (scalar_shape c).1)) x = true ->
  v = (Merger_scalar c).2.
Proof.
  assert (Hs : forall s : string, string_default s = true -> s = "").
  { intros s H. apply Nat.eqb_eq in H. destruct (string_bytes s) eqn:E; [|done].
    rewrite <- (bytes_string_bytes s), E. done. }
  intros Hr Ht [Hz1 Hz2] Hu Hd. destruct c; try discriminate Hr; destruct v; try done; cbn in *;
    injection Hu as <-; try (apply Z.eqb_eq in Hd; by subst); try (by rewrite (Hs s)).
  - by destruct items.
  - by destruct b.
  - apply Z.eqb_eq in Hd. apply (land_low_zero 31) in Hd as [->| ->]; [done | done | lia | done].
  - apply Z.eqb_eq in Hd. apply (land_low_zero 63) in Hd as [->| ->]; [done | done | lia | done].
Qed.

Lemma encoder_tag_scalar c number :
  encoder_tag (Encoder_scalar c number) =
    tag number (match (scalar_shape c).2 with
                | Packed => LengthDelimited
                | _ => wire_type_of (scalar_shape c).1
                end).
Proof. by destruct c. Qed.

Lemma Merger_scalar_default c :
  match (scalar_shape c).2 with
  | Implicit => True
  | Explicit => (Merger_scalar c).2 = VOption None
  | Packed | Expanded => (Merger_scalar c).2 = VList []
  end.
Proof. by destruct c. Qed.

Lemma merge_with_scalar f c :
  merge_with (S f) (Merger_scalar c).1 =
    match (scalar_shape c).2 with
    | Implicit => scalar_implicit_merge (scalar_shape c).1
    | Explicit => scalar_explicit_merge (scalar_shape c).1
    | Packed | Expanded => scalar_repeated_merge (scalar_shape c).1
    end.
Proof. rewrite Merger_scalar_shape. by destruct (scalar_shape c) as [t []]. Qed.

Lemma repeated_decodes t items p v :
  decodes (decode_inner_of t) p v ->
  decodes (scalar_repeated_merge t (wire_type_of t) (VList items)) p (VList (items ++ [v])).
Proof.
  intros Hd.
  destruct t; try exact (stringy_repeated_decodes _ items p v Hd);
    exact (numeric_repeated_decodes _ _ _ items p v ltac:(discriminate) Hd).
Qed.

Lemma packed_decodes c vs ps :
  (scalar_shape c).2 = Packed -> item_bytes (decode_inner_of (scalar_shape c).1) vs ps ->
  u_range 32 (Z.of_nat (length ps)) ->
  decodes (scalar_repeated_merge (scalar_shape c).1 LengthDelimited (VList []))
    (encode_varint (Z.of_nat (length ps)) ++ ps) (VList vs).
Proof.
  intros Hr Hi Hn.
  destruct c; try discriminate Hr; exact (numeric_packed_decodes _ _ _ [] vs ps Hi Hn).
Qed.

Section ScalarField.
Context (f : nat) (m : Merger) (subs : gmap Z (Z * Merger)) (c : ScalarCoding).
Context (number : Z) (i : nat) (name : string).
Hypothesis Hc : compound m = Subfields subs.
Hypothesis Hk : subs !! number = Some (Z.of_nat i, (Merger_scalar c).1).
Hypothesis Hn : u_range 32 number.
Let t := (scalar_shape c).1.
Let rep := (scalar_shape c).2.

(** An item after its tag. *)
Lemma scalar_single v q w :
  scalar_sendable t v -> w = wire_type_of t ->
  (let? bytes := encode_item t v in Done (encode_varint (tag number w) ++ bytes)) = Done q ->
  exists p, q = encode_varint (tag number w) ++ p /\ decodes (decode_inner_of t) p v.
Proof using WL.
  intros Hv -> H. apply obind_done in H as (p & Hp & [= <-]).
  exists p. split; [done | by apply scalar_decodes].
Qed.

(** The payload of an explicit scalar, for a field and for a variant of a oneof. *)
Lemma scalar_explicit_payload v q :
  rep = Explicit -> scalar_sendable t v ->
  scalar_ref (scalar_fns_of (encoded_type t)) (encoder_tag (Encoder_scalar c number)) rep
    (VOption (Some v)) = Done q ->
  exists w p, q = encode_varint (tag number w) ++ p /\
    forall dst, decodes (merge_with (S f) (Merger_scalar c).1 w dst) p (VOption (Some v)).
Proof using WL.
  intros Hr Hv H. rewrite encoder_tag_scalar in H. fold rep t in H. rewrite Hr in H.
  destruct (scalar_single v q (wire_type_of t)) as (p & -> & Hp); [done | done | |].
  { unfold encode_item. cbn [scalar_ref] in H. by destruct (sf_unwrap _ v). }
  exists (wire_type_of t), p. split; [done |]. intros dst.
  rewrite merge_with_scalar. fold rep t. rewrite Hr. unfold scalar_explicit_merge.
  destruct (mergers_of_explicit t) as [e ->]. by apply singular_explicit_decodes.
Qed.

Lemma scalar_field_emits v q r :
  r !! i = Some (name, (Merger_scalar c).2) ->
  rep_typed rep (scalar_sendable t) v -> (rep = Implicit -> positive_zero v) ->
  scalar_ref (scalar_fns_of (encoded_type t)) (encoder_tag (Encoder_scalar c number)) rep v = Done q ->
  u_range 32 (Z.of_nat (length q)) ->
  emits (merge_with (S f)) m r q (<[i := (name, v)]> r).
Proof using Hc Hk Hn WL.
  intros Hr Hv Hz H Hq. pose proof (Merger_scalar_default c) as Hdef. fold rep in Hdef.
  destruct rep eqn:Erep.
  - (* implicit *)
    assert (Htag : encoder_tag (Encoder_scalar c number) = tag number (wire_type_of t))
      by (rewrite encoder_tag_scalar; fold rep; by rewrite Erep).
    cbn [scalar_ref] in H. destruct (sf_unwrap _ v) as [x|] eqn:Ex; simpl in H; [|discriminate].
    destruct (sf_default _ x) eqn:Ed; simpl in H.
    + injection H as <-. rewrite list_insert_id; [apply emits_nil |].
      rewrite (default_value c v x); [done | done | apply Hv | auto | done | done].
    + destruct (scalar_single v q (wire_type_of t)) as (p & -> & Hp); [done | done | |].
      { unfold encode_item. rewrite Ex. by rewrite <- Htag. }
      eapply field_turn; eauto. rewrite merge_with_scalar. fold rep t. rewrite Erep.
      unfold scalar_implicit_merge. destruct (mergers_of_implicit t) as [e ->].
      by apply singular_implicit_decodes.
  - (* packed *)
    rewrite encoder_tag_scalar in H. fold rep in H. rewrite Erep in H.
    destruct v; try done. rewrite Hdef in Hr. destruct items as [|v vs].
    + injection H as <-. rewrite list_insert_id by done. apply emits_nil.
    + cbn [scalar_ref] in H. apply obind_done in H as (ps & Hps & [= <-]).
      apply encode_items_tagged, tagged_item_bytes in Hps; [|done].
      eapply field_turn; eauto. rewrite merge_with_scalar. fold rep t. rewrite Erep.
      apply packed_decodes; [done | done |].
      rewrite !length_app in Hq. unfold u_range in *. lia.
  - (* explicit *)
    destruct v as [| | | | | | | | | | | | | |[v|]|]; try done.
    + destruct (scalar_explicit_payload v q) as (w & p & -> & Hp); [done | done | by rewrite Erep |].
      by eapply field_turn.
    + injection H as <-. rewrite Hdef in Hr. rewrite list_insert_id by done. apply emits_nil.
  - (* expanded *)
    rewrite encoder_tag_scalar in H. fold rep in H. rewrite Erep in H.
    destruct v; try done. rewrite Hdef in Hr. cbn [scalar_ref] in H.
    apply encode_items_tagged in H; [|done].
    apply (tagged_emits (merge_with (S f)) m subs number (wire_type_of t) i (Merger_scalar c).1 name
             (fun p v => decodes (decode_inner_of t) p v /\ p <> []) items q Hc Hk Hn)
      with (acc := []); [| exact H | done].
    intros acc p v [Hp _]. rewrite merge_with_scalar. fold rep t. rewrite Erep.
    by apply repeated_decodes.
Qed.
End ScalarField.

(** ** Enumerations *)
Section FoldInsert.
Context {K V : Type} `{Countable K} (key : Field -> K) (val : Field -> V).

Lemma foldl_insert_inv subs (m0 : gmap K V) k v :
  foldl (fun m s => <[key s := val s]> m) m0 subs !! k = Some v ->
  m0 !! k = Some v \/ exists s, s ∈ subs /\ key s = k /\ val s = v.
Proof using.
  revert m0. induction subs as [|s subs IH]; intros m0 Hl; simpl in *; [by left |].
  apply IH in Hl as [Hl|(s' & ? & ? & ?)]; [|right; exists s'; split_and!; [by right | done..]].
  apply lookup_insert_Some in Hl as [[Ek Ev]|[_ Hl]]; [right; exists s | by left].
  split_and!; [by left | done..].
Qed.

Lemma foldl_insert_notin subs (m0 : gmap K V) k :
  k ∉ key <$> subs -> foldl (fun m s => <[key s := val s]> m) m0 subs !! k = m0 !! k.
Proof using.
  revert m0. induction subs as [|s subs IH]; intros m0 Hk; simpl in *; [done |].
  apply not_elem_of_cons in Hk as [Hne Hk]. rewrite IH by done.
  by rewrite lookup_insert_ne.
Qed.

Lemma foldl_insert_in subs (m0 : gmap K V) s :
  NoDup (key <$> subs) -> s ∈ subs ->
  foldl (fun m s => <[key s := val s]> m) m0 subs !! key s = Some (val s).
Proof using.
  intros Hnd Hin. revert m0 Hnd. induction Hin as [s subs | s s' subs Hin IH]; intros m0 Hnd; simpl in *;
    apply NoDup_cons in Hnd as [Hk Hnd].
  - rewrite foldl_insert_notin by done. by rewrite lookup_insert_eq.
  - by apply IH.
Qed.
End FoldInsert.

(** The variants of an enumeration and the fields of a message are told apart by name and
    by number; numbers are [u32]s. *)
Definition distinct (subs : list Field) (numbers : list Z) : Prop :=
  NoDup numbers /\ NoDup (field_name <$> subs) /\ Forall (u_range 32) numbers.

Section EnumField.
Context (fl : nat) (m : Merger) (subs : gmap Z (Z * Merger)) (f : Field).
Context (i : nat) (name : string).
Hypothesis Hc : compound m = Subfields subs.
Hypothesis Hn : u_range 32 (field_number f).
Hypothesis Hd : distinct (subfields f) (field_number <$> subfields f).

Lemma enum_number_name r fn v z :
  enum_number (enum_encoder r f) v = Done z ->
  u_range 32 z /\ exists case, v = VEnum case
    /\ match compound (compile_enum_variants f fn) with
       | EnumVariants vs => vs !! z = Some case
       | _ => False
       end.
Proof using Hd.
  destruct v; try done. unfold enum_number, eunion_variants. cbn [encoder_compound enum_encoder].
  unfold ok_or. destruct (encode_enum_variants f !! case) as [z'|] eqn:E; [|done].
  intros [= ->]. unfold encode_enum_variants in E.
  apply (foldl_insert_inv field_name field_number) in E as [E|(s & Hs & <- & <-)];
    [by rewrite lookup_empty in E |].
  destruct Hd as (Hnd & _ & Hr). split.
  - rewrite Forall_forall in Hr. apply Hr, list_elem_of_fmap. by exists s.
  - exists (field_name s). split; [done |]. simpl. by apply (foldl_insert_in field_number field_name).
Qed.

Lemma enum_decodes r fn v z :
  enum_number (enum_encoder r f) v = Done z ->
  decodes (enum_inner (compile_enum_variants f fn)) (encode_varint (as_u 64 z)) v
  /\ encode_varint (as_u 64 z) <> [].
Proof using Hd WL.
  intros H. destruct (enum_number_name r fn v z H) as (Hz & case & -> & Hvs). split.
  - rewrite as_u_id by (unfold u_range in *; lia). unfold enum_inner.
    rewrite <- (app_nil_r (encode_varint z)).
    eapply decodes_bind; [apply decodes_varint; unfold u_range in *; lia |].
    unfold u_range in Hz. rewrite (proj2 (Z.leb_gt _ _)) by lia.
    unfold union_enum_variants. cbn [compound compile_enum_variants] in *.
    intros limit rest Hl. unfold rd_bind, rd_ret at 1. rewrite Hvs. unfold rd_ret. simpl.
    by rewrite Z.add_0_r.
  - intros E. pose proof (as_u_range 64 z ltac:(lia)) as Hr.
    pose proof (length_encode_varint _ Hr) as Hl. pose proof (encoded_len_varint_range _ Hr).
    rewrite E in Hl. simpl in Hl. lia.
Qed.

Lemma enum_items_tagged r fn before index items ps :
  enum_encode_items (enum_encoder r f) before index items = Done ps ->
  tagged before (fun p v => decodes (enum_inner (compile_enum_variants f fn)) p v /\ p <> []) items ps.
Proof using Hd WL.
  revert index ps. induction items as [|v items IH]; intros index ps H; cbn [enum_encode_items] in H.
  - injection H as <-. constructor.
  - apply obind_done in H as (z & Hz & H). apply map_err_done in Hz.
    apply obind_done in H as (rest & Hrest & [= <-]).
    constructor; [by eapply enum_decodes | by eapply IH].
Qed.

Lemma enum_implicit_emits v q r d :
  subs !! field_number f = Some (Z.of_nat i, compile_enum_variants f EnumImplicitMerge) ->
  enum_default (compile_enum_variants f EnumImplicitMerge) = Some d ->
  r !! i = Some (name, VEnum d) -> ref_enum (enum_encoder Implicit f) Implicit v = Done q ->
  emits (merge_with (S fl)) m r q (<[i := (name, v)]> r).
Proof using Hc Hn Hd WL.
  intros Hk Hdef Hr H. cbn [ref_enum] in H. apply obind_done in H as (z & Hz & H).
  destruct (Z.eqb_spec z 0) as [->|Hne].
  - injection H as <-.
    destruct (enum_number_name _ EnumImplicitMerge _ _ Hz) as (_ & case & -> & Hvs).
    unfold enum_default in Hdef. cbn [compound compile_enum_variants] in *.
    rewrite Hvs in Hdef. injection Hdef as ->. rewrite list_insert_id by done. apply emits_nil.
  - injection H as <-. eapply field_turn; eauto. change (merge_with (S fl) (compile_enum_variants f EnumImplicitMerge))
      with (enum_implicit_merge (compile_enum_variants f EnumImplicitMerge)).
    unfold enum_implicit_merge. rewrite decide_True by done. by eapply enum_decodes.
Qed.

Lemma enum_repeated_emits rep items q r :
  rep = Packed \/ rep = Expanded ->
  subs !! field_number f = Some (Z.of_nat i, compile_enum_variants f EnumRepeatedMerge) ->
  r !! i = Some (name, VList []) -> ref_enum (enum_encoder rep f) rep (VList items) = Done q ->
  u_range 32 (Z.of_nat (length q)) ->
  emits (merge_with (S fl)) m r q (<[i := (name, VList items)]> r).
Proof using Hc Hn Hd WL.
  intros Hrep Hk Hr H Hq. destruct Hrep as [-> | ->]; cbn [ref_enum] in H.
  - destruct items as [|v vs].
    + injection H as <-. rewrite list_insert_id by done. apply emits_nil.
    + apply obind_done in H as (ps & Hps & [= <-]).
      apply (enum_items_tagged Packed EnumRepeatedMerge), tagged_item_bytes in Hps.
      eapply field_turn; eauto.
      change (merge_with (S fl) (compile_enum_variants f EnumRepeatedMerge))
        with (enum_repeated_merge (compile_enum_variants f EnumRepeatedMerge)).
      apply (numeric_packed_decodes _ _ _ [] (v :: vs) ps); [done |].
      rewrite !length_app in Hq. unfold u_range in *. lia.
  - apply (enum_items_tagged Expanded EnumRepeatedMerge) in H.
    eapply (tagged_emits _ m subs _ Varint i _ name _ items q Hc Hk Hn) with (acc := []);
      [| exact H | done].
    intros acc p v [Hp _].
    change (merge_with (S fl) (compile_enum_variants f EnumRepeatedMerge))
      with (enum_repeated_merge (compile_enum_variants f EnumRepeatedMerge)).
    by apply numeric_repeated_decodes.
Qed.
End EnumField.

(** ** What compilation stores for a field *)
Definition is_oneof (f : Field) : bool :=
  match coding f with
  | Some (CompoundCodingOf n) =>
      match compound_coding_try_from n with Some Oneof => true | _ => false end
  | _ => false
  end.

(** The numbers a field takes up in its message: a oneof's are those of its variants. *)
Definition numbers_of (f : Field) : list Z :=
  if is_oneof f then field_number <$> subfields f else [field_number f].

(** The mergers of field number [i] of a message. *)
Definition hosts (f : Field) (i : Z) (subs : gmap Z (Z * Merger)) : Prop :=
  match coding f with
  | None => False
  | Some (ScalarCodingOf n) =>
      exists c, scalar_coding_try_from n = Some c
        /\ subs !! field_number f = Some (i, (Merger_scalar c).1)
  | Some (CompoundCodingOf n) =>
      exists c, compound_coding_try_from n = Some c /\
      match c with
      | EnumImplicit => subs !! field_number f = Some (i, compile_enum_variants f EnumImplicitMerge)
      | EnumPacked | EnumExpanded =>
          subs !! field_number f = Some (i, compile_enum_variants f EnumRepeatedMerge)
      | EnumExplicit => subs !! field_number f = Some (i, compile_enum_variants f EnumExplicitMerge)
      | Message => exists m, compile_message f MessageOuterMerge = Done m
          /\ subs !! field_number f = Some (i, m)
      | MessageExpanded => exists m, compile_message f MessageRepeatedMerge = Done m
          /\ subs !! field_number f = Some (i, m)
      | Oneof => forall v, v ∈ subfields f ->
          exists m, compile_oneof_variant compile_message v = Done m
            /\ subs !! field_number v = Some (i, m)
      end
  end.

(** The value a field has before anything is merged. *)
Definition default_of (f : Field) : option Val :=
  match coding f with
  | None => None
  | Some (ScalarCodingOf n) => (fun c => (Merger_scalar c).2) <$> scalar_coding_try_from n
  | Some (CompoundCodingOf n) =>
      match compound_coding_try_from n with
      | Some EnumImplicit => VEnum <$> enum_default (compile_enum_variants f EnumImplicitMerge)
      | Some (EnumPacked | EnumExpanded | MessageExpanded) => Some (VList [])
      | Some _ => Some (VOption None)
      | None => None
      end
  end.

Lemma hosts_ext f i subs subs' :
  (forall k, k ∈ numbers_of f -> subs' !! k = subs !! k) -> hosts f i subs -> hosts f i subs'.
Proof using.
  unfold hosts, numbers_of, is_oneof. intros He.
  destruct (coding f) as [[n|n]|]; [| |done].
  - intros (c & Hc & Hk). exists c. rewrite He by left. done.
  - intros (c & Hc & Hk). exists c. rewrite Hc in He. split; [done |].
    destruct c; cbn iota in He; try (rewrite He by left; done).
    intros v Hv. destruct (Hk v Hv) as (m & Hm & Hkm). exists m. split; [done |].
    rewrite He; [done |]. apply list_elem_of_fmap. by exists v.
Qed.

Lemma compile_oneof_variants_hosts number i variants subs subs' :
  NoDup (field_number <$> variants) ->
  compile_oneof_variants compile_message number i variants subs = Done subs' ->
  (forall k, k ∉ field_number <$> variants -> subs' !! k = subs !! k)
  /\ (forall v, v ∈ variants -> exists m, compile_oneof_variant compile_message v = Done m
        /\ subs' !! field_number v = Some (i, m)).
Proof using.
  revert subs. induction variants as [|v vs IH]; intros subs Hnd H; simpl in H.
  - injection H as <-. split; [done | intros v Hv; by apply not_elem_of_nil in Hv].
  - apply obind_done in H as (m & Hm & H). apply map_err_done in Hm.
    apply NoDup_cons in Hnd as [Hv Hnd]. destruct (IH _ Hnd H) as [H1 H2]. split.
    + intros k Hk. apply not_elem_of_cons in Hk as [Hne Hk]. rewrite H1 by done.
      by rewrite lookup_insert_ne.
    + intros w Hw. apply elem_of_cons in Hw as [->|Hw]; [|by apply H2].
      exists m. split; [done |]. rewrite H1 by done. by rewrite lookup_insert_eq.
Qed.

(** One field: its mergers and its default, and nothing else. *)
Lemma compile_subfields_cons i f fields subs defs r :
  NoDup (numbers_of f) ->
  compile_subfields compile_message i (f :: fields) subs defs = Done r ->
  exists subs1 dv, default_of f = Some dv /\ hosts f i subs1
    /\ (forall k, k ∉ numbers_of f -> subs1 !! k = subs !! k)
    /\ compile_subfields compile_message (i + 1) fields subs1 (defs ++ [(field_name f, dv)]) = Done r.
Proof using.
  intros Hnd H. cbn [compile_subfields] in H. unfold default_of, hosts, numbers_of, is_oneof in *.
  destruct (coding f) as [[n|n]|]; [| |discriminate].
  - destruct (scalar_coding_try_from n) as [c|]; [|discriminate].
    destruct (Merger_scalar c) as [sm dv] eqn:Em. eexists _, dv. split_and!; [simpl; by rewrite Em | | | exact H].
    + exists c. rewrite lookup_insert_eq, Em. done.
    + intros k Hk. rewrite lookup_insert_ne; [done | intros E; apply Hk; rewrite E; left].
  - destruct (compound_coding_try_from n) as [c|]; [|discriminate].
    apply obind_done in H as ([subs1 dv] & H1 & H). exists subs1, dv.
    assert (Hins : forall sm k, k ∉ [field_number f] ->
      <[field_number f := (i, sm)]> subs !! k = subs !! k)
      by (intros sm k Hk; rewrite lookup_insert_ne; [done | intros E; apply Hk; rewrite E; left]).
    destruct c; cbn [compile_compound_subfield] in H1.
    + destruct (enum_default _) as [d|] eqn:Ed; [|discriminate]. injection H1 as <- <-.
      split_and!; [done | | by apply Hins | done].
      eexists. split; [done |]. by rewrite lookup_insert_eq.
    + injection H1 as <- <-. split_and!; [done | | by apply Hins | done].
      eexists. split; [done |]. by rewrite lookup_insert_eq.
    + injection H1 as <- <-. split_and!; [done | | by apply Hins | done].
      eexists. split; [done |]. by rewrite lookup_insert_eq.
    + injection H1 as <- <-. split_and!; [done | | by apply Hins | done].
      eexists. split; [done |]. by rewrite lookup_insert_eq.
    + apply obind_done in H1 as (sm & Hm & [= <- <-]). apply map_err_done in Hm.
      split_and!; [done | | by apply Hins | done].
      eexists. split; [done |]. exists sm. by rewrite lookup_insert_eq.
    + apply obind_done in H1 as (sm & Hm & [= <- <-]). apply map_err_done in Hm.
      split_and!; [done | | by apply Hins | done].
      eexists. split; [done |]. exists sm. by rewrite lookup_insert_eq.
    + apply obind_done in H1 as (s1 & Hm & [= <- <-]).
      apply compile_oneof_variants_hosts in Hm as [Ha Hb]; [|done].
      split_and!; [done | | done | done]. eexists. by split.
Qed.

Lemma compile_subfields_hosts fields i subs defs subs' defs' :
  NoDup (concat (numbers_of <$> fields)) ->
  compile_subfields compile_message i fields subs defs = Done (subs', defs') ->
  (forall k, k ∉ concat (numbers_of <$> fields) -> subs' !! k = subs !! k)
  /\ (forall j f, fields !! j = Some f -> hosts f (i + Z.of_nat j) subs')
  /\ exists dvs, defs' = defs ++ dvs
       /\ Forall2 (fun f d => d.1 = field_name f /\ default_of f = Some d.2) fields dvs.
Proof using.
  revert i subs defs. induction fields as [|f fields IH]; intros i subs defs Hnd H.
  - injection H as <- <-. split_and!; [done | done |]. exists []. by rewrite app_nil_r.
  - simpl in Hnd. apply NoDup_app in Hnd as (Hnf & Hdisj & Hnd).
    apply compile_subfields_cons in H as (subs1 & dv & Hdv & Hh & Hk & H); [|done].
    apply IH in H as (Hk' & Hh' & dvs & -> & HF); [|done]. split_and!.
    + intros k Hin. simpl in Hin. apply not_elem_of_app in Hin as [? ?]. by rewrite Hk', Hk.
    + intros [|j] g Hg; simpl in Hg.
      * injection Hg as ->. rewrite Z.add_0_r. eapply hosts_ext, Hh.
        intros k Hkin. apply Hk'. by apply Hdisj.
      * apply Hh' in Hg. by replace (i + Z.of_nat (S j)) with (i + 1 + Z.of_nat j) by lia.
    + exists ((field_name f, dv) :: dvs). rewrite <- app_assoc. split; [done |]. by constructor.
Qed.

(** ** What compilation stores for an encoder *)
Lemma compile_encoders_lookup oneof fields subs subs' :
  NoDup (field_name <$> fields) ->
  compile_encoders compile_compound oneof fields subs = Done subs' ->
  (forall k, k ∉ field_name <$> fields -> subs' !! k = subs !! k)
  /\ (forall f, f ∈ fields -> exists e, compile_encoder compile_compound oneof f = Done e
        /\ subs' !! field_name f = Some e).
Proof using.
  revert subs. induction fields as [|f fields IH]; intros subs Hnd H; simpl in H.
  - injection H as <-. split; [done | intros v Hv; by apply not_elem_of_nil in Hv].
  - apply obind_done in H as (e & He & H). apply NoDup_cons in Hnd as [Hv Hnd].
    destruct (IH _ Hnd H) as [H1 H2]. split.
    + intros k Hk. apply not_elem_of_cons in Hk as [Hne Hk]. rewrite H1 by done.
      by rewrite lookup_insert_ne.
    + intros w Hw. apply elem_of_cons in Hw as [->|Hw]; [|by apply H2].
      exists e. split; [done |]. rewrite H1 by done. by rewrite lookup_insert_eq.
Qed.

(** ** Well-formed metadata and the values that survive *)
Definition is_enum (f : Field) : bool :=
  match coding f with
  | Some (CompoundCodingOf n) =>
      match compound_coding_try_from n with
      | Some (EnumImplicit | EnumPacked | EnumExplicit | EnumExpanded) => true
      | _ => false
      end
  | _ => false
  end.

(** The names and the numbers of the fields of a message (with those of its oneofs), of the
    variants of a oneof and of the variants of an enumeration are distinct. *)
Fixpoint well_formed (f : Field) : Prop :=
  match f with
  | mkField number name subs c =>
      (if is_enum (mkField number name subs c) then distinct subs (field_number <$> subs)
       else distinct subs (concat (numbers_of <$> subs)))
      /\ foldr (fun g acc => well_formed g /\ acc) True subs
  end.

(** [typed], restricted to the scalars that survive. *)
Fixpoint sendable (f : Field) (v : Val) {struct f} : Prop :=
  match f with
  | mkField _ _ subs None => False
  | mkField _ _ subs (Some (ScalarCodingOf n)) =>
      match scalar_coding_try_from n with
      | Some c => rep_typed (scalar_shape c).2 (scalar_sendable (scalar_shape c).1) v
          /\ ((scalar_shape c).2 = Implicit -> positive_zero v)
      | None => False
      end
  | mkField _ _ subs (Some (CompoundCodingOf n)) =>
      match compound_coding_try_from n with
      | Some EnumImplicit => rep_typed Implicit (enum_typed subs) v
      | Some EnumPacked => rep_typed Packed (enum_typed subs) v
      | Some EnumExplicit => rep_typed Explicit (enum_typed subs) v
      | Some EnumExpanded => rep_typed Expanded (enum_typed subs) v
      | Some Message => rep_typed Explicit (record_typed sendable subs) v
      | Some MessageExpanded => rep_typed Expanded (record_typed sendable subs) v
      | Some Oneof => oneof_typed sendable subs v
      | None => False
      end
  end.

Definition message_sendable (message : Field) (v : Val) : Prop :=
  record_typed sendable (subfields message) v.

Lemma well_formed_subs f : well_formed f -> Forall well_formed (subfields f).
Proof using.
  destruct f as [number name subs c]. simpl. intros [_ H].
  induction subs as [|g subs IH]; simpl in H; constructor; [tauto | apply IH; tauto].
Qed.

Lemma well_formed_distinct f :
  well_formed f ->
  if is_enum f then distinct (subfields f) (field_number <$> subfields f)
  else distinct (subfields f) (concat (numbers_of <$> subfields f)).
Proof using. destruct f as [number name subs c]. by intros [H _]. Qed.

Lemma numbers_range subs f :
  distinct subs (concat (numbers_of <$> subs)) -> f ∈ subs -> Forall (u_range 32) (numbers_of f).
Proof using.
  intros (_ & _ & H) Hf. rewrite Forall_forall in *. intros k Hk. apply H.
  apply list_elem_of_In, in_concat. exists (numbers_of f). rewrite <- !list_elem_of_In.
  split; [|done]. apply list_elem_of_fmap. by exists f.
Qed.

(** ** The two inductions *)
Definition deep (fm : nat) (subs : gmap Z (Z * Merger)) : Prop :=
  forall k j sm, subs !! k = Some (j, sm) -> (merger_depth sm <= fm)%nat.

(** A message: from its defaults to the value. *)
Definition message_ok (f : Field) : Prop :=
  forall esubs fn m fm fe v q,
  is_enum f = false ->
  compile_compound false f = Done esubs -> compile_message f fn = Done m -> well_formed f ->
  (merger_depth m <= S fm)%nat -> record_typed sendable (subfields f) v ->
  ref_message (ref_with fe) esubs v = Done q -> u_range 32 (Z.of_nat (length q)) ->
  exists values, v = VRecord values /\ emits (merge_with fm) m (defaults m) q values.

(** A field: from its default to its value. *)
Definition field_ok (f : Field) : Prop :=
  forall e subs i m fm fe v q r name dv,
  compile_encoder compile_compound false f = Done e ->
  compound m = Subfields subs -> hosts f (Z.of_nat i) subs -> deep fm subs ->
  well_formed f -> Forall (u_range 32) (numbers_of f) ->
  default_of f = Some dv -> r !! i = Some (name, dv) ->
  sendable f v -> ref_with fe e v = Done q -> u_range 32 (Z.of_nat (length q)) ->
  emits (merge_with fm) m r q (<[i := (name, v)]> r).

(** *** Messages from fields *)
Lemma ref_fields_emits allsubs esubs m subs fm fe :
  compound m = Subfields subs -> deep fm subs ->
  (forall f, f ∈ allsubs -> exists e, compile_encoder compile_compound false f = Done e
     /\ esubs !! field_name f = Some e) ->
  (forall j f, allsubs !! j = Some f -> hosts f (Z.of_nat j) subs) ->
  Forall (u_range 32) (concat (numbers_of <$> allsubs)) ->
  distinct allsubs (concat (numbers_of <$> allsubs)) ->
  forall pre suf values dvs q,
  allsubs = pre ++ suf -> Forall field_ok suf -> Forall well_formed suf ->
  length values = length pre ->
  Forall2 (fun f d => d.1 = field_name f /\ default_of f = Some d.2) suf dvs ->
  forall fields, fields_typed sendable suf fields ->
  ref_fields (ref_with fe) esubs fields = Done q -> u_range 32 (Z.of_nat (length q)) ->
  emits (merge_with fm) m (values ++ dvs) q (values ++ fields).
Proof.
  intros Hc Hdeep Henc Hhosts _ Hdist pre suf values dvs q Hall Hok Hwf Hlen Hdvs.
  revert pre values q Hall Hlen. revert dvs Hdvs.
  induction suf as [|f suf IH]; intros dvs Hdvs pre values q Hall Hlen fields Hf Href Hq.
  - apply Forall2_nil_inv_l in Hdvs as ->. destruct fields; [|done].
    injection Href as <-. apply emits_nil.
  - destruct fields as [|[name v] fields]; [done |]. destruct Hf as [[-> Hv] Hf].
    apply Forall_cons in Hok as [Hokf Hok]. apply Forall_cons in Hwf as [Hwff Hwf].
    apply Forall2_cons_inv_l in Hdvs as ([dn dv] & dvs' & [Hdn Hdv] & Hdvs & ->).
    simpl in Hdn, Hdv. subst dn.
    assert (Hin : f ∈ allsubs) by (rewrite Hall; apply elem_of_app; right; left).
    destruct (Henc f Hin) as (e & He & Hlook). cbn [ref_fields] in Href. rewrite Hlook in Href.
    apply obind_done in Href as (q1 & Hq1 & Href). apply map_err_done in Hq1.
    apply obind_done in Href as (q2 & Hq2 & [= <-]). rewrite length_app in Hq.
    assert (Hi : allsubs !! length pre = Some f) by (rewrite Hall; by apply list_lookup_middle).
    assert (Hr : (values ++ (field_name f, dv) :: dvs') !! length pre = Some (field_name f, dv))
      by (by apply list_lookup_middle).
    eapply emits_app.
    + eapply (Hokf e subs (length pre) m fm fe v q1); eauto.
      * by eapply numbers_range.
      * unfold u_range in *. lia.
    + rewrite <- Hlen. rewrite insert_app_r_alt by lia. rewrite Nat.sub_diag. simpl.
      rewrite !(cons_middle _ values), !app_assoc.
      apply (IH Hok Hwf dvs' Hdvs (pre ++ [f]) (values ++ [(field_name f, v)]) q2); auto.
      * by rewrite <- app_assoc.
      * rewrite !length_app. simpl. lia.
      * unfold u_range in *. lia.
Qed.

Lemma message_from_fields f : Forall field_ok (subfields f) -> message_ok f.
Proof.
  intros Hok esubs fn m fm fe v q Hne He Hm Hwf Hdepth Hv Href Hq.
  pose proof (well_formed_distinct f Hwf) as Hd. rewrite Hne in Hd.
  pose proof (well_formed_subs f Hwf) as Hwfs.
  destruct f as [number name fields c]. cbn [subfields compile_compound compile_message] in *.
  apply obind_done in Hm as ([subs defs] & Hsubs & [= <-]).
  apply compile_subfields_hosts in Hsubs as (_ & Hh & dvs & Hdefs & Hdvs); [|exact (proj1 Hd)].
  simpl in Hdefs. subst defs.
  apply compile_encoders_lookup in He as [_ He]; [|exact (proj1 (proj2 Hd))].
  destruct v as [| | | | | | | | | | values | | | | |]; try done. exists values. split; [done |].
  cbn [defaults].
  apply (ref_fields_emits fields esubs (mkMerger fn dvs (Subfields subs)) subs fm fe eq_refl) with (pre := []) (suf := fields)
    (values := []); try done; try exact (proj2 (proj2 Hd)).
  intros k j sm Hk. pose proof (merger_depth_subfields fn dvs subs k j sm Hk). lia.
Qed.

(** *** Fields from messages *)
(** Reading the content of a message under its own limit. *)
Lemma message_content f esubs m fn fm fe v q :
  message_ok f -> is_enum f = false -> compile_compound false f = Done esubs ->
  compile_message f fn = Done m -> well_formed f -> (merger_depth m <= S fm)%nat ->
  record_typed sendable (subfields f) v -> ref_message (ref_with fe) esubs v = Done q ->
  u_range 32 (Z.of_nat (length q)) -> forall wt rest,
  message_inner_merge (merge_with fm) m wt (VRecord (defaults m)) (Z.of_nat (length q)) (q ++ rest)
    = Done (v, 0, rest).
Proof.
  intros Hok Hne He Hm Hwf Hdepth Hv Href Hq wt rest.
  destruct (Hok esubs fn m fm fe v q Hne He Hm Hwf Hdepth Hv Href Hq) as (values & -> & Hemit).
  unfold message_inner_merge, rd_bind. by rewrite (emits_loop _ _ _ _ _ rest Hemit).
Qed.

Lemma message_payload f esubs m fm fe v number q :
  message_ok f -> is_enum f = false -> compile_compound false f = Done esubs ->
  compile_message f MessageOuterMerge = Done m -> well_formed f -> (merger_depth m <= fm)%nat ->
  record_typed sendable (subfields f) v ->
  delimited (tag number LengthDelimited) (ref_message (ref_with fe) esubs v) = Done q ->
  u_range 32 (Z.of_nat (length q)) ->
  exists p, q = encode_varint (tag number LengthDelimited) ++ p /\
    forall dst, decodes (merge_with fm m LengthDelimited dst) p (VOption (Some v)).
Proof.
  intros Hok Hne He Hm Hwf Hdepth Hv Href Hq.
  apply obind_done in Href as (ps & Hps & [= <-]). rewrite !length_app in Hq.
  eexists. split; [done |]. intros dst.
  destruct (merger_depth_positive m) as [d Hd]. destruct fm as [|fm]; [lia |].
  assert (Hmm : merge m = MessageOuterMerge /\ exists subs, compound m = Subfields subs).
  { destruct f as [n nm fs c]. cbn [compile_message] in Hm.
    apply obind_done in Hm as ([subs defs] & _ & [= <-]). eauto. }
  destruct Hmm as [Hmm _]. cbn [merge_with]. rewrite Hmm. unfold message_outer_merge.
  rewrite decide_True by done. intros limit rest Hl. unfold rd_bind.
  rewrite length_app, Nat2Z.inj_add, <- app_assoc, length_prefix by (unfold u_range in *; lia).
  unfold with_limit. erewrite message_content by (done || lia || (unfold u_range in *; lia)).
  done.
Qed.

(** The items of a repeated message. *)
Lemma message_items_tagged f esubs m fm fe number index items q :
  message_ok f -> is_enum f = false -> compile_compound false f = Done esubs ->
  compile_message f MessageRepeatedMerge = Done m -> well_formed f -> (merger_depth m <= fm)%nat ->
  Forall (record_typed sendable (subfields f)) items ->
  ref_messages (ref_with fe) esubs (tag number LengthDelimited) index items = Done q ->
  u_range 32 (Z.of_nat (length q)) ->
  tagged (encode_varint (tag number LengthDelimited))
    (fun p v => forall acc, decodes (merge_with fm m LengthDelimited (VList acc)) p (VList (acc ++ [v])))
    items q.
Proof.
  intros Hok Hne He Hm Hwf Hdepth HF. revert index q.
  induction HF as [|v items Hv HF IH]; intros index q Href Hq; cbn [ref_messages] in Href.
  - injection Href as <-. constructor.
  - apply obind_done in Href as (q1 & Hq1 & Href). apply obind_done in Href as (q2 & Hq2 & [= <-]).
    apply obind_done in Hq1 as (ps & Hps & [= <-]). apply map_err_done in Hps.
    rewrite !length_app in Hq. rewrite <- !app_assoc, (app_assoc (encode_varint (Z.of_nat _))).
    apply tagged_cons; [|apply (IH (S index)); [done | unfold u_range in *; lia]].
    intros acc. destruct (merger_depth_positive m) as [d Hd]. destruct fm as [|fm]; [lia |].
    assert (Hmm : merge m = MessageRepeatedMerge).
    { destruct f as [n nm fs c]. cbn [compile_message] in Hm.
      by apply obind_done in Hm as ([subs defs] & _ & [= <-]). }
    cbn [merge_with]. rewrite Hmm. unfold message_repeated_merge.
    rewrite decide_True by done. intros limit rest Hl. unfold rd_bind, rd_map_err.
    rewrite length_app, Nat2Z.inj_add, <- app_assoc, length_prefix by (unfold u_range in *; lia).
    simpl. unfold with_limit. erewrite message_content by (done || lia || (unfold u_range in *; lia)).
    done.
Qed.

(** The payload of a variant of a oneof, without its wrapping. *)
Lemma variant_payload v e m fm fe x q :
  message_ok v -> well_formed v ->
  compile_encoder compile_compound true v = Done e ->
  compile_oneof_variant compile_message v = Done (mkMerger OneofVariantMerge [] (OneofVariant (field_name v) m)) ->
  (merger_depth m <= fm)%nat -> sendable v (VOption (Some x)) ->
  ref_with fe e (VOption (Some x)) = Done q -> u_range 32 (Z.of_nat (length q)) ->
  exists w p, q = encode_varint (tag (field_number v) w) ++ p /\
    forall dst, decodes (merge_with fm m w dst) p (VOption (Some x)).
Proof.
  intros Hok Hwf He Hm Hdepth Hx Href Hq. destruct fe as [|fe]; [discriminate |].
  unfold compile_encoder in He. unfold compile_oneof_variant in Hm.
  apply obind_done in Hm as (m' & Hm & [= ->]).
  destruct (merger_depth_positive m) as [d Hd]. destruct fm as [|fm]; [lia |].
  assert (Hs : sendable v (VOption (Some x)) = sendable (mkField (field_number v) (field_name v)
    (subfields v) (coding v)) (VOption (Some x))) by (by destruct v).
  rewrite Hs in Hx. clear Hs. cbn [sendable] in Hx.
  destruct (coding v) as [[n|n]|] eqn:Ec; [| |discriminate].
  - destruct (explicit_scalar n) eqn:Ee; [|discriminate].
    destruct (scalar_coding_try_from n) as [c|] eqn:En; [|discriminate].
    pose proof (explicit_scalar_shape n c En Ee) as Hr. rewrite Hr in Hx.
    injection Hm as <-. destruct Hx as [Hx _]. cbn [rep_typed] in Hx.
    destruct (true && _); [discriminate |]. injection He as <-.
    cbn [ref_with] in Href. rewrite encoded_type_scalar in Href.
    assert (Href' : scalar_ref (scalar_fns_of (encoded_type (scalar_shape c).1))
      (encoder_tag (Encoder_scalar c (field_number v))) (scalar_shape c).2 (VOption (Some x)) = Done q)
      by (by destruct c).
    by apply (scalar_explicit_payload fm c (field_number v) x q) in Href'.
  - destruct (compound_coding_try_from n) as [c|] eqn:En; [|discriminate].
    destruct c; try discriminate Hm.
    + destruct (true && _ && _); [discriminate |]. injection He as <-.
      cbn [ref_with encode_fn enum_encoder ref_enum] in Href. by apply obind_done in Href as (? & ? & _).
    + destruct (true && _ && _); [discriminate |].
      apply obind_done in He as (esubs & Hes & [= <-]). apply map_err_done in Hes.
      cbn [ref_with encode_fn encoder_compound message_outer_encoder encoder_tag] in Href.
      exists LengthDelimited. cbn [rep_typed] in Hx. eapply message_payload; eauto.
      unfold is_enum. by rewrite Ec, En.
Qed.

Lemma oneof_field_emits f e esubs subs i m fm fe v q r name n :
  coding f = Some (CompoundCodingOf n) -> compound_coding_try_from n = Some Oneof ->
  Forall message_ok (subfields f) -> well_formed f ->
  compile_compound true f = Done esubs -> e = oneof_encoder esubs ->
  compound m = Subfields subs -> hosts f (Z.of_nat i) subs -> deep fm subs ->
  Forall (u_range 32) (field_number <$> subfields f) ->
  r !! i = Some (name, VOption None) -> oneof_typed sendable (subfields f) v ->
  ref_with fe e v = Done q -> u_range 32 (Z.of_nat (length q)) ->
  emits (merge_with fm) m r q (<[i := (name, v)]> r).
Proof.
  intros Hcod Hn Hok Hwf He -> Hc Hh Hdeep Hnum Hr Hv Href Hq.
  destruct fe as [|fe]; [discriminate |]. cbn [ref_with encode_fn encoder_compound oneof_encoder] in Href.
  assert (Hne : is_enum f = false) by (unfold is_enum; by rewrite Hcod, Hn).
  pose proof (well_formed_distinct f Hwf) as Hd. rewrite Hne in Hd.
  pose proof (well_formed_subs f Hwf) as Hwfs.
  destruct v as [| | | | | | | | | | | | | |[v|]|]; try done.
  2: { injection Href as <-. rewrite list_insert_id by done. apply emits_nil. }
  destruct v as [| | | | | | | | | | | |case [x|]| | |]; try done.
  apply variant_typed_Exists in Hv as (w & Hw & -> & Hx).
  assert (Hel : exists e, compile_encoder compile_compound true w = Done e
                  /\ esubs !! field_name w = Some e).
  { destruct f as [? ? vs ?]. cbn [compile_compound subfields] in *.
    apply compile_encoders_lookup in He as [_ He]; [by apply He | exact (proj1 (proj2 Hd))]. }
  destruct Hel as (e & Hew & Hlook). cbn [ref_oneof] in Href. rewrite Hlook in Href.
  apply map_err_done in Href.
  unfold hosts in Hh. rewrite Hcod in Hh. destruct Hh as (c & Hc' & Hh). rewrite Hn in Hc'.
  injection Hc' as <-. destruct (Hh w Hw) as (wm & Hwm & Hk).
  pose proof Hwm as Hwm'. unfold compile_oneof_variant in Hwm'.
  apply obind_done in Hwm' as (inner & _ & [= <-]).
  pose proof (Hdeep _ _ _ Hk) as Hdepth. simpl in Hdepth.
  destruct fm as [|fm]; [lia |]. rewrite Forall_forall in Hok, Hwfs.
  assert (Hin : (merger_depth inner <= fm)%nat) by lia.
  destruct (variant_payload w e inner fm fe x q (Hok w Hw) (Hwfs w Hw) Hew Hwm Hin Hx Href Hq)
    as (wt & p & -> & Hp).
  eapply field_turn; [done | exact Hk | | done |].
  { rewrite Forall_forall in Hnum. apply Hnum, list_elem_of_fmap. by exists w. }
  cbn [merge_with merge]. unfold oneof_variant_merge, union_oneof_variant. cbn [compound].
  intros limit rest Hl. unfold rd_bind, rd_ret at 1. by rewrite Hp.
Qed.

Lemma field_from_message f :
  message_ok f -> Forall message_ok (subfields f) -> field_ok f.
Proof.
  intros Hok Hoks e subs i m fm fe v q r name dv He Hc Hh Hdeep Hwf Hnum Hdv Hr Hv Href Hq.
  assert (Hs : sendable f v = sendable (mkField (field_number f) (field_name f)
    (subfields f) (coding f)) v) by (by destruct f).
  rewrite Hs in Hv. clear Hs. cbn [sendable] in Hv.
  unfold compile_encoder in He. unfold numbers_of, is_oneof in Hnum. unfold default_of in Hdv.
  assert (Hh' := Hh). unfold hosts in Hh.
  pose proof (well_formed_distinct f Hwf) as Hd. unfold is_enum in Hd.
  assert (Hok' : is_enum f = false -> message_ok f) by done.
  unfold is_enum in Hok'.
  destruct (coding f) as [[n|n]|] eqn:Ec; [| |done].
  - (* scalar *)
    destruct Hh as (c & En & Hk). rewrite En in *. simpl in He, Hdv.
    injection He as <-. injection Hdv as <-. destruct Hv as [Hv Hz].
    destruct (merger_depth_positive (Merger_scalar c).1) as [d Hdp].
    pose proof (Hdeep _ _ _ Hk) as Hdepth. destruct fm as [|fm]; [lia |].
    destruct fe as [|fe]; [discriminate |]. cbn [ref_with] in Href.
    rewrite encoded_type_scalar in Href.
    apply (scalar_field_emits fm m subs c (field_number f) i name Hc Hk); try done.
    by inversion Hnum.
  - destruct Hh as (c & En & Hk). rewrite En in *. simpl in He. cbn iota in Hnum, Hd.
    assert (Hfe : exists fe', fe = S fe') by (destruct fe; [discriminate | eauto]).
    destruct Hfe as [fe' ->]. cbn [ref_with] in Href.
    assert (Hsingle : c <> Oneof -> u_range 32 (field_number f))
      by (intros Hne; destruct c; try done; by inversion Hnum).
    assert (Hfm : forall k j sm, subs !! k = Some (j, sm) -> exists fm', fm = S fm').
    { intros k j sm Hks. pose proof (Hdeep _ _ _ Hks).
      destruct (merger_depth_positive sm). destruct fm; [lia | eauto]. }
    destruct c.
    + (* implicit enum *)
      destruct (Hfm _ _ _ Hk) as [fm' ->]. injection He as <-.
      destruct (enum_default _) as [d|] eqn:Ed; [|discriminate]. injection Hdv as <-.
      eapply (enum_implicit_emits fm' m subs f i name Hc); eauto.
    + destruct (Hfm _ _ _ Hk) as [fm' ->]. injection He as <-. injection Hdv as <-.
      destruct v as [| | | | | | | | |items| | | | | |]; try done.
      by apply (enum_repeated_emits fm' m subs f i name Hc (Hsingle ltac:(done)) Hd Packed); [left | ..].
    + injection He as <-. by destruct v.
    + destruct (Hfm _ _ _ Hk) as [fm' ->]. injection He as <-. injection Hdv as <-.
      destruct v as [| | | | | | | | |items| | | | | |]; try done.
      by apply (enum_repeated_emits fm' m subs f i name Hc (Hsingle ltac:(done)) Hd Expanded); [right | ..].
    + (* message *)
      destruct Hk as (sm & Hm & Hk). apply obind_done in He as (esubs & Hes & [= <-]).
      apply map_err_done in Hes. injection Hdv as <-.
      cbn [encode_fn encoder_compound message_outer_encoder encoder_tag] in Href.
      destruct v as [| | | | | | | | | | | | | |[v|]|]; try done.
      * destruct (message_payload f esubs sm fm fe' v (field_number f) q) as (p & -> & Hp); eauto.
        { unfold is_enum. by rewrite Ec, En. }
        eapply field_turn; eauto.
      * injection Href as <-. rewrite list_insert_id by done. apply emits_nil.
    + (* repeated message *)
      destruct Hk as (sm & Hm & Hk). apply obind_done in He as (esubs & Hes & [= <-]).
      apply map_err_done in Hes. injection Hdv as <-.
      cbn [encode_fn encoder_compound message_repeated_encoder encoder_tag] in Href.
      destruct v as [| | | | | | | | |items| | | | | |]; try done.
      apply (message_items_tagged f esubs sm fm fe' _ _ items q) in Href; eauto;
        [| unfold is_enum; by rewrite Ec, En].
      eapply (tagged_emits _ m subs _ LengthDelimited i sm name _ items q Hc Hk) with (acc := []);
        [auto | | exact Href | done].
      intros acc p w Hp. apply Hp.
    + (* oneof *)
      apply obind_done in He as (esubs & Hes & [= <-]). apply map_err_done in Hes.
      injection Hdv as <-.
      by eapply (oneof_field_emits f (oneof_encoder esubs) esubs subs i m fm (S fe')); eauto.
Qed.

Lemma messages_ok f : message_ok f /\ Forall message_ok (subfields f).
Proof.
  induction f as [number name subs c HF] using Field_ind'. cbn [subfields].
  assert (Hsubs : Forall message_ok subs) by (by eapply Forall_impl; [exact HF | intros ? []]).
  split; [|done]. apply message_from_fields. cbn [subfields].
  eapply Forall_impl; [exact HF |]. intros f [H1 H2]. by apply field_from_message.
Qed.

End Decodes.

(** ** The round trip *)
Section Spec.
Context `{WL : WireLaws}.

Lemma reference_decodes message enc dec v bs :
  Encoder_message_inner message = Done enc -> message_inner message = Done dec ->
  is_enum message = false -> well_formed message -> message_sendable message v ->
  reference_encode enc v = Done bs -> u_range 32 (Z.of_nat (length bs)) ->
  decode dec bs = Done v.
Proof.
  intros He Hd Hne Hwf Hv Href Hq. destruct (messages_ok message) as [Hok _].
  apply obind_done in He as (esubs & Hes & [= <-]).
  unfold reference_encode in Href.
  destruct (encoder_depth _) as [|fe]; [discriminate |].
  cbn [ref_with encode_fn encoder_compound message_inner_encoder encoder_tag] in Href.
  destruct (merger_depth_positive dec) as [fm Hfm].
  pose proof (message_content message esubs dec MessageInnerMerge fm fe v bs Hok Hne Hes Hd Hwf
    ltac:(lia) Hv Href Hq LengthDelimited []) as Hc. rewrite app_nil_r in Hc.
  unfold decode, u_range in *. rewrite (proj2 (Z.leb_gt _ _)) by lia.
  rewrite Hfm. cbn [merge_with].
  assert (Hmm : merge dec = MessageInnerMerge).
  { destruct message as [n nm fs c]. unfold message_inner in Hd. cbn [compile_message] in Hd.
    by apply obind_done in Hd as ([subs defs] & _ & [= <-]). }
  rewrite Hmm, Hc. done.
Qed.

(** For well-formed metadata and a value whose scalars survive (see [survives] and
    [positive_zero]), the request decoder returns exactly the value the reference encoder was
    given: messages, oneofs, enumerations, packed and expanded fields, at any depth, and
    repeated messages too. *)
Theorem reference_roundtrip message enc dec v bs :
  Encoder_message_inner message = Done enc -> message_inner message = Done dec ->
  is_enum message = false -> well_formed message -> message_sendable message v ->
  reference_encode enc v = Done bs -> u_range 32 (Z.of_nat (length bs)) ->
  decode dec bs = Done v.
Proof. exact (reference_decodes message enc dec v bs). Qed.

Lemma encoded_decodes message enc dec v bs left n lengths :
  Encoder_message_inner message = Done enc -> message_inner message = Done dec ->
  is_enum message = false -> well_formed message -> message_sendable message v ->
  length_with (encoder_depth enc) enc v [] = Done (n, lengths) -> n < u32_max ->
  response_encode enc v = Done (bs, left) ->
  decode dec bs = Done v.
Proof.
  intros He Hd Hne Hwf Hv Hl Hn Hr.
  pose proof (Encoder_message_inner_ok _ _ He) as Hok.
  destruct (encoder_unbalanced enc Hok (encoder_depth enc) v) as (k & Hpush & Hpop).
  unfold response_encode in Hr. rewrite Hl in Hr. apply map_err_done in Hr. simpl in Hr.
  destruct (Hpush _ _ _ Hl) as (p & -> & Hk). rewrite app_nil_r in *.
  destruct (Hpop _ _ _ Hr) as (q & Hp & Hq). rewrite Hp, length_app in Hk.
  assert (Hi : items_with (encoder_depth enc) enc v = 0%nat) by lia.
  destruct (encoder_agrees enc Hok _ v (le_n _) Hi) as [Hs _].
  destruct (Hs _ _ _ Hl) as [Hn0 Hp']. destruct (Hp' Hn) as (p' & E & Henc).
  rewrite app_nil_r in E. subst p'. destruct (Henc []) as [Henc' Href].
  rewrite app_nil_r, Hr in Henc'.
  destruct (ref_with _ enc v) as [bs'| |] eqn:Er; simpl in Henc'; [|discriminate..].
  injection Henc' as <- _. eapply (reference_decodes message enc dec v bs); try done.
  unfold u_range, u32_max in *. lia.
Qed.

End Spec.

(** ** Witnesses *)
Definition deep_decoder : Merger :=
  match message_inner deep_message with Done m => m | _ => (Merger_scalar BytesImplicit).1 end.

Lemma deep_decoder_compiles : message_inner deep_message = Done deep_decoder.
Proof. vm_compute. reflexivity. Qed.

Ltac decide_distinct :=
  repeat split; repeat first
    [ exact I
    | apply (bool_decide_unpack _); vm_compute; exact I ].

Lemma deep_well_formed : well_formed deep_message.
Proof. cbn. decide_distinct. Qed.

Ltac solve_sendable :=
  cbn -[Z.pow]; repeat first
    [ exact I
    | reflexivity
    | match goal with
      | |- _ /\ _ => split
      | |- _ \/ _ => left
      | |- _ -> _ => intros _
      | |- Forall _ _ => constructor
      | |- _ <> _ => discriminate
      | |- _ ∈ _ => apply (bool_decide_unpack _); vm_compute; exact I
      | |- _ <= _ => unfold i_range, u_range; lia
      | |- _ < _ => unfold i_range, u_range; lia
      | |- context [scalar_coding_try_from ?n] =>
          let c := eval vm_compute in (scalar_coding_try_from n) in
          change (scalar_coding_try_from n) with c
      end
    | progress (unfold message_sendable, scalar_sendable, positive_zero, u_range, i_range)
    | progress (cbn -[Z.pow]) ].

Lemma deep_sendable : message_sendable deep_message deep_value.
Proof. solve_sendable. Qed.

Lemma reference_roundtrip_witness : decode deep_decoder deep_bytes = Done deep_value.
Proof.
  apply (reference_roundtrip (W := leb128_ops) deep_message deep_inner deep_decoder deep_value deep_bytes);
    [ exact deep_compiles | exact deep_decoder_compiles | reflexivity | exact deep_well_formed
    | exact deep_sendable | vm_compute; reflexivity | unfold u_range; vm_compute; split; congruence].
Defined.

