(* ===== verification/Ordering.v ===== *)
(** * Total orders and sorting

    The orders Rust derives ([Ord]): lexicographic on slices and on the fields of a struct;
    [sort], which forgets the order of a list; and hash maps and hash sets, which are iterated in
    an order that is a parameter ([HashOrder]), sorted. *)

From S2P Require Import Prelude.
From stdpp Require Import sorting.

Class Ord (A : Type) := cmp : A -> A -> comparison.

Class OrdLaws (A : Type) `{Ord A} := {
  cmp_eq : forall a b, cmp a b = Eq <-> a = b;
  cmp_opp : forall a b, cmp b a = CompOpp (cmp a b);
  cmp_lt_trans : forall a b c, cmp a b = Lt -> cmp b c = Lt -> cmp a c = Lt;
}.

(** ** Instances *)
#[export] Instance byte_ord : Ord byte := fun a b => Z.compare (Z_of_byte a) (Z_of_byte b).

#[export] Instance byte_ord_laws : OrdLaws byte.
Proof.
  split; unfold cmp, byte_ord; intros a b.
  - rewrite Z.compare_eq_iff. split; [apply Z_of_byte_inj | by intros ->].
  - apply Z.compare_antisym.
  - intros c. rewrite !Z.compare_lt_iff. lia.
Qed.

(** The first difference decides. *)
Definition then_cmp (a b : comparison) : comparison := match a with Eq => b | _ => a end.

Lemma then_cmp_trans {A} `{OrdLaws A} (a b c : A) x y z :
  (x = Lt -> y = Lt -> z = Lt) ->
  then_cmp (cmp a b) x = Lt -> then_cmp (cmp b c) y = Lt -> then_cmp (cmp a c) z = Lt.
Proof.
  intros Hz. pose proof (cmp_eq a b) as E1. pose proof (cmp_eq b c) as E2.
  destruct (cmp a b) eqn:Ea; simpl; try done.
  - rewrite (proj1 E1 eq_refl). destruct (cmp b c); naive_solver.
  - intros _. destruct (cmp b c) eqn:Eb; simpl; try done; intros _.
    + by rewrite <- (proj1 E2 eq_refl), Ea.
    + by rewrite (cmp_lt_trans a b c).
Qed.

#[export] Instance prod_ord {A B} `{Ord A, Ord B} : Ord (A * B) := fun p q => then_cmp (cmp p.1 q.1) (cmp p.2 q.2).

Lemma prod_cmp {A B} `{Ord A, Ord B} (a1 b1 : A) (a2 b2 : B) :
  cmp (a1, a2) (b1, b2) = then_cmp (cmp a1 b1) (cmp a2 b2).
Proof. done. Qed.

#[export] Instance prod_ord_laws {A B} `{OrdLaws A, OrdLaws B} : OrdLaws (A * B).
Proof.
  split.
  - intros [a1 a2] [b1 b2]. rewrite prod_cmp. pose proof (cmp_eq a1 b1). pose proof (cmp_eq a2 b2).
    destruct (cmp a1 b1); simpl; naive_solver.
  - intros [a1 a2] [b1 b2]. rewrite !prod_cmp, (cmp_opp a1 b1), (cmp_opp a2 b2). by destruct (cmp a1 b1).
  - intros [a1 a2] [b1 b2] [c1 c2]. rewrite !prod_cmp. apply then_cmp_trans; eauto using cmp_lt_trans.
Qed.

#[export] Instance list_ord {A} `{Ord A} : Ord (list A) :=
  fix go l k :=
    match l, k with
    | [], [] => Eq
    | [], _ :: _ => Lt
    | _ :: _, [] => Gt
    | a :: l', b :: k' => then_cmp (cmp a b) (go l' k')
    end.

Lemma list_cmp_cons {A} `{Ord A} (a b : A) l k : cmp (a :: l) (b :: k) = then_cmp (cmp a b) (cmp l k).
Proof. done. Qed.

#[export] Instance list_ord_laws {A} `{OrdLaws A} : OrdLaws (list A).
Proof.
  split.
  - induction a as [|a l IH]; intros [|b k]; try done. rewrite list_cmp_cons.
    pose proof (cmp_eq a b). specialize (IH k). destruct (cmp a b); simpl; naive_solver.
  - induction a as [|a l IH]; intros [|b k]; try done.
    rewrite !list_cmp_cons, (cmp_opp a b), (IH k). by destruct (cmp a b).
  - induction a as [|a l IH]; intros [|b k] [|c m]; try done.
    rewrite !list_cmp_cons. apply then_cmp_trans, IH.
Qed.

(** ** Sorting by a key *)
Section Sort.
Context {A K : Type} {O : Ord K} {L : OrdLaws K} (key : A -> K).

Definition key_le (a b : A) : Prop := cmp (key a) (key b) <> Gt.
#[global] Instance key_le_dec : RelDecision key_le.
Proof. intros a b. unfold key_le. apply _. Defined.

#[global] Instance key_le_total : Total key_le.
Proof. intros a b. unfold key_le. rewrite (cmp_opp (key a) (key b)). by destruct (cmp (key a) (key b)); [left | left | right]. Qed.

#[global] Instance key_le_trans : Transitive key_le.
Proof.
  intros a b c. unfold key_le. pose proof (cmp_eq (key a) (key b)) as E1. pose proof (cmp_eq (key b) (key c)) as E2.
  pose proof (cmp_lt_trans (key a) (key b) (key c)).
  destruct (cmp (key a) (key b)) eqn:Ea; [rewrite (proj1 E1 eq_refl); done | | done].
  destruct (cmp (key b) (key c)) eqn:Eb; [| | done].
  - intros _ _. rewrite <- (proj1 E2 eq_refl), Ea. done.
  - intros _ _. by rewrite H.
Qed.

(** [sort_by], which is stable. *)
Definition sort_by (l : list A) : list A := merge_sort key_le l.

Lemma sort_by_perm l : sort_by l ≡ₚ l.
Proof. apply merge_sort_Permutation. Qed.

(** Sorting forgets the order of a list of distinct keys. *)
Lemma sort_by_unique l k : NoDup (key <$> l) -> l ≡ₚ k -> sort_by l = sort_by k.
Proof.
  intros Hnd Hp. apply (StronglySorted_unique_strong key_le).
  - intros a b Ha Hb H1 H2. rewrite sort_by_perm in Ha. rewrite sort_by_perm, <- Hp in Hb.
    assert (E : key a = key b).
    { unfold key_le in H1, H2. rewrite (cmp_opp (key a) (key b)) in H2. apply cmp_eq. by destruct (cmp (key a) (key b)). }
    apply list_elem_of_lookup in Ha as [i Ha]. apply list_elem_of_lookup in Hb as [j Hb].
    assert (i = j) as <-; [|congruence].
    apply (NoDup_lookup _ _ _ (key a) Hnd); rewrite list_lookup_fmap; [by rewrite Ha | by rewrite Hb, E].
  - apply StronglySorted_merge_sort; apply _.
  - apply StronglySorted_merge_sort; apply _.
  - by rewrite !sort_by_perm.
Qed.
End Sort.

(** ** Hash maps and hash sets *)
(** A hash map and a hash set are iterated in an order of their own. *)
Class HashOrder := {
  set_values : forall {A} `{Countable A}, gset A -> list A;
  map_entries : forall {K V} `{Countable K}, gmap K V -> list (K * V);
}.
Class HashOrderLaws `{HashOrder} := {
  set_values_perm : forall {A} `{Countable A} (s : gset A), set_values s ≡ₚ elements s;
  map_entries_perm : forall {K V} `{Countable K} (m : gmap K V), map_entries m ≡ₚ map_to_list m;
}.

Section Sorted.
Context `{HashOrder}.

Definition sorted_map_entries {K V} `{Countable K, Ord K} (m : gmap K V) : list (K * V) := sort_by fst (map_entries m).
Definition sorted_set_values {A} `{Countable A, Ord A} (s : gset A) : list A := sort_by id (set_values s).

(** Sorting forgets the order of iteration. *)
Context {HL : HashOrderLaws}.

Lemma sorted_map_entries_eq {K V} `{Countable K, O : Ord K, !OrdLaws K} (m : gmap K V) :
  sorted_map_entries m = sort_by fst (map_to_list m).
Proof.
  apply sort_by_unique; [|apply map_entries_perm]. rewrite map_entries_perm. apply NoDup_fst_map_to_list.
Qed.

Lemma sorted_set_values_eq {A} `{Countable A, O : Ord A, !OrdLaws A} (s : gset A) :
  sorted_set_values s = sort_by id (elements s).
Proof.
  apply sort_by_unique; [|apply set_values_perm]. rewrite list_fmap_id, set_values_perm. apply NoDup_elements.
Qed.
End Sorted.

(** An order of iteration, for examples. *)
#[export] Instance insertion_order : HashOrder := {|
  set_values A _ _ s := elements s;
  map_entries K V _ _ m := map_to_list m;
|}.
#[export] Instance insertion_order_laws : HashOrderLaws.
Proof. by split. Qed.
