(* ===== verification/Descriptors.v ===== *)
(** * Protobuf descriptors

    Models [src/compiler/main.rs]: what [protoc] hands to the compiler (the messages of
    [descriptor.proto] and [plugin.proto] with the fields the compiler reads), the names of
    types and the map of all descriptors.  [Wit] has the rest of [main.rs], and [Ordering] its
    sorting.

    A field that is optional in a descriptor is an [option]; the functions named after a field
    with [_or_default] are the accessors [prost_types] documents. *)

From S2P Require Import Prelude Ordering.

(** ** Descriptors *)
Record EnumValueDescriptorProto := mkEnumValue { v_name : option str }.
Record EnumDescriptorProto := mkEnum { e_name : option str; e_value : list EnumValueDescriptorProto }.
Record FieldDescriptorProto := mkFieldDescriptor {
  fd_name : option str;
  fd_label : option Z;
  fd_type : option Z;
  fd_type_name : option str;
  fd_proto3_optional : option bool;
}.
Inductive DescriptorProto :=
| mkMessage (name : option str) (field : list FieldDescriptorProto)
    (nested_type : list DescriptorProto) (enum_type : list EnumDescriptorProto).
Definition d_name (d : DescriptorProto) : option str := match d with mkMessage n _ _ _ => n end.
Definition d_field (d : DescriptorProto) := match d with mkMessage _ f _ _ => f end.
Definition d_nested_type (d : DescriptorProto) := match d with mkMessage _ _ n _ => n end.
Definition d_enum_type (d : DescriptorProto) := match d with mkMessage _ _ _ e => e end.

Record MethodDescriptorProto := mkMethod { m_name : option str; m_input_type : option str; m_output_type : option str }.
Record ServiceDescriptorProto := mkService { sv_name : option str; sv_method : list MethodDescriptorProto }.
Record FileDescriptorProto := mkFileDescriptor {
  f_name : option str;
  f_package : option str;
  f_message_type : list DescriptorProto;
  f_enum_type : list EnumDescriptorProto;
  f_service : list ServiceDescriptorProto;
  f_syntax : option str;
}.
Record CodeGeneratorRequest := mkRequest { file_to_generate : list str; proto_file : list FileDescriptorProto }.

(** An accessor of a string, and of [proto3_optional]. *)
Definition str_or_default (s : option str) : str := default [] s.
Definition proto3_optional (f : FieldDescriptorProto) : bool := default false (fd_proto3_optional f).

(** The types and labels of fields, with their numbers in [descriptor.proto]. *)
Inductive ProtoType :=
| PDouble | PFloat | PInt64 | PUint64 | PInt32 | PFixed64 | PFixed32 | PBool | PString | PGroup
| PMessage | PBytes | PUint32 | PEnum | PSfixed32 | PSfixed64 | PSint32 | PSint64.
Inductive Label := Optional | Required | Repeated.

Definition proto_type_try_from (n : Z) : option ProtoType :=
  match n with
  | 1 => Some PDouble | 2 => Some PFloat | 3 => Some PInt64 | 4 => Some PUint64 | 5 => Some PInt32
  | 6 => Some PFixed64 | 7 => Some PFixed32 | 8 => Some PBool | 9 => Some PString | 10 => Some PGroup
  | 11 => Some PMessage | 12 => Some PBytes | 13 => Some PUint32 | 14 => Some PEnum
  | 15 => Some PSfixed32 | 16 => Some PSfixed64 | 17 => Some PSint32 | 18 => Some PSint64
  | _ => None
  end.
Definition label_try_from (n : Z) : option Label :=
  match n with 1 => Some Optional | 2 => Some Required | 3 => Some Repeated | _ => None end.

Definition type_or_default (f : FieldDescriptorProto) : ProtoType := default PDouble (fd_type f ≫= proto_type_try_from).
Definition label_or_default (f : FieldDescriptorProto) : Label := default Optional (fd_label f ≫= label_try_from).

(** ** Errors *)
(** The errors of the compiler; the text [anyhow] gives them is left out. *)
Inductive CompilerError :=
| EditionsUnsupported
| UnknownSyntax (syntax file_name : str)
| UnknownFile (filename : str)
| ConflictingPackages (existing package : list str)
| TypeNotFound (displayed : str)
| GroupsUnsupported
| RequiredUnsupported.

Definition DOT : byte := x2e.

(** ** Names of types *)
Inductive ProtoSyntax := Proto2 | Proto3 | Editions.

Record TypeNameQualifier := mkQualifier { package : list str; outer_messages : list str }.
Record QualifiedTypeName := mkName { qualifier : TypeNameQualifier; qname : str }.

#[export] Instance ProtoSyntax_eq_dec : EqDecision ProtoSyntax.
Proof. solve_decision. Defined.
#[export] Instance TypeNameQualifier_eq_dec : EqDecision TypeNameQualifier.
Proof. solve_decision. Defined.
#[export] Instance QualifiedTypeName_eq_dec : EqDecision QualifiedTypeName.
Proof. solve_decision. Defined.
#[export] Instance TypeNameQualifier_countable : Countable TypeNameQualifier.
Proof. apply (inj_countable' (fun q => (package q, outer_messages q)) (fun p => mkQualifier p.1 p.2)). by intros []. Defined.
#[export] Instance QualifiedTypeName_countable : Countable QualifiedTypeName.
Proof. apply (inj_countable' (fun n => (qualifier n, qname n)) (fun p => mkName p.1 p.2)). by intros []. Defined.

(** The derived orders: field by field. *)
#[export] Instance TypeNameQualifier_ord : Ord TypeNameQualifier :=
  fun a b => cmp (package a, outer_messages a) (package b, outer_messages b).
#[export] Instance QualifiedTypeName_ord : Ord QualifiedTypeName :=
  fun a b => cmp (qualifier a, qname a) (qualifier b, qname b).

(** An order through an injection. *)
Lemma ord_laws_via {A B} `{OrdLaws B} (f : A -> B) (O : Ord A) :
  Inj (=) (=) f -> (forall a b, cmp a b = cmp (f a) (f b)) -> OrdLaws A.
Proof.
  intros Hf E. split; intros a b.
  - rewrite E, cmp_eq. split; [apply Hf | by intros ->].
  - rewrite !E. apply cmp_opp.
  - intros c. rewrite !E. apply cmp_lt_trans.
Qed.

#[export] Instance TypeNameQualifier_ord_laws : OrdLaws TypeNameQualifier.
Proof. apply (ord_laws_via (fun q => (package q, outer_messages q))); [|done]. intros [] [] [= -> ->]. done. Qed.
#[export] Instance QualifiedTypeName_ord_laws : OrdLaws QualifiedTypeName.
Proof. apply (ord_laws_via (fun n => (qualifier n, qname n))); [|done]. intros [] [] [= -> ->]. done. Qed.

Definition top_level (package : list str) : TypeNameQualifier := mkQualifier package [].
Definition nested (q : TypeNameQualifier) (name : str) : TypeNameQualifier :=
  mkQualifier (package q) (outer_messages q ++ [name]).
(** [r#type] and [into_type]. *)
Definition type_in (q : TypeNameQualifier) (name : str) : QualifiedTypeName := mkName q name.
Definition into_type (q : TypeNameQualifier) (name : str) : QualifiedTypeName := mkName q name.

Definition QualifiedTypeName_fmt (n : QualifiedTypeName) : str :=
  DOT :: join [DOT] (package (qualifier n)) ++ DOT :: join [DOT] (outer_messages (qualifier n)) ++ DOT :: qname n.

(** [char::is_lowercase] of the first character: the standard library knows which letters
    beyond ASCII are lowercase ([unicode], of the bytes from that character on). *)
Section FromPath.
Variable unicode : str -> bool.

Definition starts_lowercase (part : str) : outcome CompilerError bool :=
  match part with
  | [] => Crash Panicked
  | b :: _ => Done (if Z_of_byte b <? 128 then (97 <=? Z_of_byte b) && (Z_of_byte b <=? 122) else unicode part)
  end.

(** The [while let] loop: the package, and what is left, with the part that ended it first. *)
Fixpoint package_parts (parts : list str) : outcome CompilerError (list str * list str) :=
  match parts with
  | [] => Done ([], [])
  | part :: parts' =>
      let? lower := starts_lowercase part in
      if (lower : bool) then
        let? (package, outer) := package_parts parts' in Done (part :: package, outer)
      else Done ([], parts)
  end.

Definition from_path (type_path : str) (default_package : list str) : outcome CompilerError QualifiedTypeName :=
  let parts := split DOT type_path in
  let name := List.last parts [] in
  let parts := removelast parts in
  let? (package, outer_messages) :=
    if bool_decide (head type_path = Some DOT) then package_parts (tail parts)
    else Done (default_package, parts) in
  Done (mkName (mkQualifier package outer_messages) name).
End FromPath.

(** ** The map of descriptors *)
Record DescriptorMap := mkDescriptors {
  files : gmap str (FileDescriptorProto * ProtoSyntax);
  messages : gmap QualifiedTypeName (DescriptorProto * ProtoSyntax);
  enums : gmap QualifiedTypeName EnumDescriptorProto;
}.

Definition insert_enum (m : DescriptorMap) (d : EnumDescriptorProto) (q : TypeNameQualifier) : DescriptorMap :=
  mkDescriptors (files m) (messages m) (<[into_type q (str_or_default (e_name d)) := d]> (enums m)).

Fixpoint insert_message (m : DescriptorMap) (d : DescriptorProto) (q : TypeNameQualifier) (syntax : ProtoSyntax)
    {struct d} : DescriptorMap :=
  match d with
  | mkMessage d_name _ nested_type enum_type =>
      let name := str_or_default d_name in
      let nested_qualifier := nested q name in
      let m := (fix go m l := match l with
                              | [] => m
                              | nested_message :: l' => go (insert_message m nested_message nested_qualifier syntax) l'
                              end) m nested_type in
      let m := fold_left (fun m nested_enum => insert_enum m nested_enum nested_qualifier) enum_type m in
      mkDescriptors (files m) (<[into_type q name := (d, syntax)]> (messages m)) (enums m)
  end.

Definition file_syntax (f : FileDescriptorProto) : outcome CompilerError ProtoSyntax :=
  match f_syntax f with
  | None => Done Proto2
  | Some s =>
      if decide (s = lit "proto2") then Done Proto2
      else if decide (s = lit "proto3") then Done Proto3
      else if decide (s = lit "editions") then Failed EditionsUnsupported
      else Failed (UnknownSyntax s (str_or_default (f_name f)))
  end.

Definition insert_file (m : DescriptorMap) (f : FileDescriptorProto) : outcome CompilerError DescriptorMap :=
  let? syntax := file_syntax f in
  let q := top_level (split DOT (str_or_default (f_package f))) in
  let m := fold_left (fun m d => insert_message m d q syntax) (f_message_type f) m in
  let m := fold_left (fun m d => insert_enum m d q) (f_enum_type f) m in
  Done (mkDescriptors (<[str_or_default (f_name f) := (f, syntax)]> (files m)) (messages m) (enums m)).

Definition build (file_descriptors : list FileDescriptorProto) : outcome CompilerError DescriptorMap :=
  try_fold insert_file (mkDescriptors ∅ ∅ ∅) file_descriptors.

Definition get_file (m : DescriptorMap) (filename : str) : outcome CompilerError (FileDescriptorProto * ProtoSyntax) :=
  ok_or (files m !! filename) (UnknownFile filename).
Definition get_message (m : DescriptorMap) (name : QualifiedTypeName) := messages m !! name.
Definition get_enum (m : DescriptorMap) (name : QualifiedTypeName) := enums m !! name.
