(* ===== verification/DescriptorsSpec.v ===== *)
(** * What the map of descriptors holds

    What a request declares; the map built from it holds exactly that; and the path of a type
    names it, unless its file has no package. *)

From S2P Require Import Prelude Ordering Descriptors.

(** ** What a request declares *)
(** The fields whose type has a name. *)
Definition names_type (f : FieldDescriptorProto) : bool :=
  match type_or_default f with PMessage | PEnum => true | _ => false end.

(** [d] is the message [q.name], or is nested in it. *)
Inductive in_message (q : TypeNameQualifier) (syntax : ProtoSyntax) (d : DescriptorProto) :
    QualifiedTypeName -> DescriptorProto -> ProtoSyntax -> Prop :=
| in_message_here : in_message q syntax d (type_in q (str_or_default (d_name d))) d syntax
| in_message_nested m n d' s' :
    m ∈ d_nested_type d -> in_message (nested q (str_or_default (d_name d))) syntax m n d' s' ->
    in_message q syntax d n d' s'.

Definition file_package (f : FileDescriptorProto) : list str := split DOT (str_or_default (f_package f)).

Definition declares (f : FileDescriptorProto) (n : QualifiedTypeName) (d : DescriptorProto) (s : ProtoSyntax) : Prop :=
  exists syntax m, file_syntax f = Done syntax /\ m ∈ f_message_type f
    /\ in_message (top_level (file_package f)) syntax m n d s.

Definition declared (request : CodeGeneratorRequest) n d s : Prop :=
  exists f, f ∈ proto_file request /\ declares f n d s.

Lemma in_message_name q s d n d' s' : in_message q s d n d' s' -> qname n = str_or_default (d_name d').
Proof. by induction 1. Qed.

Lemma declared_name request n d s : declared request n d s -> qname n = str_or_default (d_name d).
Proof. intros (f & _ & syntax & m & _ & _ & H). by eapply in_message_name. Qed.

Lemma in_message_package q s d n d' s' : in_message q s d n d' s' -> package (qualifier n) = package q.
Proof. induction 1 as [|? ? ? ? ? ? ? ? _ IH]; [done |]. by rewrite IH. Qed.

(** Induction over a descriptor and those nested in it. *)
Section DescriptorInd.
Variable P : DescriptorProto -> Prop.
Hypothesis P_message : forall name field nested_type enum_type,
  Forall P nested_type -> P (mkMessage name field nested_type enum_type).

Fixpoint DescriptorProto_ind' (d : DescriptorProto) : P d :=
  match d with
  | mkMessage name field nested_type enum_type =>
      P_message name field nested_type enum_type
        ((fix go (l : list DescriptorProto) : Forall P l :=
            match l with
            | [] => @Forall_nil_2 DescriptorProto P
            | d' :: l' => @Forall_cons_2 DescriptorProto P d' l' (DescriptorProto_ind' d') (go l')
            end) nested_type)
  end.
End DescriptorInd.

Lemma insert_message_eq m d q s :
  insert_message m d q s =
    let name := str_or_default (d_name d) in
    let m := fold_left (fun m d' => insert_message m d' (nested q name) s) (d_nested_type d) m in
    let m := fold_left (fun m e => insert_enum m e (nested q name)) (d_enum_type d) m in
    mkDescriptors (files m) (<[into_type q name := (d, s)]> (messages m)) (enums m).
Proof.
  destruct d as [name field nt et]. simpl.
  assert (E : forall l m, (fix go m l := match l with
                                         | [] => m
                                         | d' :: l' => go (insert_message m d' (nested q (str_or_default name)) s) l'
                                         end) m l
                          = fold_left (fun m d' => insert_message m d' (nested q (str_or_default name)) s) l m).
  { induction l as [|d' l IH]; intros m'; [done | apply IH]. }
  by rewrite E.
Qed.

(** The enumerations nested in the message [q.name]. *)
Definition enum_in_message (q : TypeNameQualifier) (d : DescriptorProto) (n : QualifiedTypeName) (e : EnumDescriptorProto) : Prop :=
  exists n' d' s s', in_message q s d n' d' s' /\ e ∈ d_enum_type d'
    /\ n = into_type (nested (qualifier n') (qname n')) (str_or_default (e_name e)).

Definition declares_enum (f : FileDescriptorProto) (n : QualifiedTypeName) (e : EnumDescriptorProto) : Prop :=
  (e ∈ f_enum_type f /\ n = into_type (top_level (file_package f)) (str_or_default (e_name e)))
  \/ exists m, m ∈ f_message_type f /\ enum_in_message (top_level (file_package f)) m n e.

(** ** The map of descriptors holds what is declared *)
(** [m'] is [m] and more: the messages [P] and the enumerations [Q]. *)
Record adds (P : QualifiedTypeName -> DescriptorProto -> ProtoSyntax -> Prop)
    (Q : QualifiedTypeName -> EnumDescriptorProto -> Prop) (m m' : DescriptorMap) : Prop := {
  a_messages : forall n d s, messages m' !! n = Some (d, s) -> messages m !! n = Some (d, s) \/ P n d s;
  a_keeps : forall n, is_Some (messages m !! n) -> is_Some (messages m' !! n);
  a_all : forall n d s, P n d s -> is_Some (messages m' !! n);
  a_enums : forall n e, enums m' !! n = Some e -> enums m !! n = Some e \/ Q n e;
}.

Lemma adds_weaken P Q (P' : QualifiedTypeName -> DescriptorProto -> ProtoSyntax -> Prop)
    (Q' : QualifiedTypeName -> EnumDescriptorProto -> Prop) m m' :
  adds P Q m m' -> (forall n d s, P n d s <-> P' n d s) -> (forall n e, Q n e -> Q' n e) -> adds P' Q' m m'.
Proof.
  intros [H1 H2 H3 H4] HP HQ. split; [| done | |].
  - intros n d s [H|H%HP]%H1; auto.
  - intros n d s H%HP. eauto.
  - intros n e [H|H%HQ]%H4; auto.
Qed.

Lemma adds_trans P P' Q Q' m1 m2 m3 : adds P Q m1 m2 -> adds P' Q' m2 m3 ->
  adds (fun n d s => P n d s \/ P' n d s) (fun n e => Q n e \/ Q' n e) m1 m3.
Proof.
  intros [H1 H2 H3 H4] [K1 K2 K3 K4]. split.
  - intros n d s [[H|H]%H1|H]%K1; auto.
  - auto.
  - intros n d s [H|H]; eauto.
  - intros n e [[H|H]%H4|H]%K4; auto.
Qed.

Lemma adds_files P Q m m' fs : adds P Q m m' -> adds P Q m (mkDescriptors fs (messages m') (enums m')).
Proof. by intros []. Qed.

Lemma adds_fold {A} (f : DescriptorMap -> A -> DescriptorMap) P Q l m :
  (forall m a, a ∈ l -> adds (P a) (Q a) m (f m a)) ->
  adds (fun n d s => exists a, a ∈ l /\ P a n d s) (fun n e => exists a, a ∈ l /\ Q a n e) m (fold_left f l m).
Proof.
  revert m. induction l as [|a l IH]; intros m Hf; simpl.
  - split; auto. intros n d s (? & []%not_elem_of_nil & _).
  - eapply adds_weaken; [eapply adds_trans; [apply Hf; by left | apply IH; intros; apply Hf; by right]| |].
    + intros n d s. split.
      * intros [H|(b & Hb & H)]; [exists a | exists b]; rewrite elem_of_cons; auto.
      * intros (b & [->|Hb]%elem_of_cons & H); eauto.
    + intros n e [H|(b & Hb & H)]; [exists a | exists b]; rewrite elem_of_cons; auto.
Qed.

Lemma adds_enum m e q : adds (fun _ _ _ => False) (fun n e' => e' = e /\ n = into_type q (str_or_default (e_name e))) m (insert_enum m e q).
Proof.
  split; simpl; [by auto | by auto | done |].
  intros n e' H. apply lookup_insert_Some in H as [[<- <-]|[_ H]]; auto.
Qed.

Lemma adds_here m q d s :
  adds (fun n d' s' => n = into_type q (str_or_default (d_name d)) /\ d' = d /\ s' = s) (fun _ _ => False) m
    (mkDescriptors (files m) (<[into_type q (str_or_default (d_name d)) := (d, s)]> (messages m)) (enums m)).
Proof.
  split; simpl; [| | | by auto].
  - intros n d' s' H. apply lookup_insert_Some in H as [[<- [= <- <-]]|[_ H]]; auto.
  - intros n H. apply lookup_insert_is_Some'. auto.
  - intros n d' s' (-> & _). apply lookup_insert_is_Some'. auto.
Qed.

Lemma adds_message d : forall m q s, adds (in_message q s d) (enum_in_message q d) m (insert_message m d q s).
Proof.
  induction d as [name field nt et IH] using DescriptorProto_ind'. intros m q s. rewrite insert_message_eq.
  set (d := mkMessage name field nt et).
  rewrite Forall_forall in IH.
  eapply adds_weaken.
  - eapply adds_trans; [eapply adds_trans|].
    + refine (adds_fold _ (fun d' => in_message _ s d') (fun d' => enum_in_message _ d') _ _ _). intros m' d' Hd'. by apply IH.
    + refine (adds_fold _ (fun _ _ _ _ => False) (fun e n e' => e' = e /\ n = _) _ _ _). intros m' e He. apply adds_enum.
    + apply adds_here.
  - intros n d' s'. simpl. split.
    + intros [[(m' & Hm & H)|(e & _ & [])]|(-> & -> & ->)]; [|constructor]. by eapply in_message_nested.
    + inversion 1; subst; [by right | left; left; eauto].
  - intros n e. simpl. intros [[(m' & Hm & (n' & d' & s1 & s2 & H & He & ->))|(e' & He & -> & ->)]|[]].
    + exists n', d', s1, s2. split; [|done]. by eapply in_message_nested.
    + exists (type_in q (str_or_default (d_name d))), d, s, s. split; [constructor | done].
Qed.

Lemma adds_file f m m' : insert_file m f = Done m' -> adds (declares f) (declares_enum f) m m'.
Proof.
  unfold insert_file. intros H. apply obind_done in H as (syntax & Hs & [= <-]).
  set (q := top_level _).
  assert (Ha := adds_fold (fun m d => insert_message m d q syntax) (in_message q syntax) (enum_in_message q) (f_message_type f) m
                  (fun m d _ => adds_message d m q syntax)).
  assert (Hb := adds_fold (fun m e => insert_enum m e q) (fun _ _ _ _ => False) _ (f_enum_type f)
                  (fold_left (fun m d => insert_message m d q syntax) (f_message_type f) m) (fun m e _ => adds_enum m e q)).
  eapply adds_weaken; [exact (adds_files _ _ _ _ _ (adds_trans _ _ _ _ _ _ _ Ha Hb)) | |].
  - intros n d s. simpl. split.
    + intros [(d' & Hd & H)|(e & _ & [])]. by exists syntax, d'.
    + intros (syntax' & d' & Hs' & Hd & H). left. exists d'. split; [done |]. rewrite Hs in Hs'. by injection Hs' as <-.
  - intros n e [(d' & Hd & H)|(e' & He & -> & ->)]; [right; eauto | by left].
Qed.

(** The files of the map, and their syntax. *)
Lemma insert_messages_files l m q s : files (fold_left (fun m d => insert_message m d q s) l m) = files m.
Proof.
  assert (He : forall es m q, files (fold_left (fun m e => insert_enum m e q) es m) = files m).
  { induction es as [|e es IH]; intros m' q'; [done | simpl; by rewrite IH]. }
  assert (Hd : forall d m q s, files (insert_message m d q s) = files m).
  { induction d as [name field nt et IH] using DescriptorProto_ind'. intros m' q' s'. rewrite insert_message_eq. simpl.
    rewrite He. clear et He. revert m'. induction IH as [|d nt Hd _ IH]; intros m'; [done |]. simpl. by rewrite IH, Hd. }
  revert m. induction l as [|d l IH]; intros m; [done |]. simpl. by rewrite IH, Hd.
Qed.

Lemma insert_file_files f m m' : insert_file m f = Done m' ->
  exists syntax, file_syntax f = Done syntax /\ files m' = <[str_or_default (f_name f) := (f, syntax)]> (files m).
Proof.
  unfold insert_file. intros H. apply obind_done in H as (syntax & Hs & [= <-]). exists syntax. split; [done |]. simpl.
  assert (He : forall es m q, files (fold_left (fun m e => insert_enum m e q) es m) = files m).
  { induction es as [|e es IH]; intros m'' q'; [done | simpl; by rewrite IH]. }
  by rewrite He, insert_messages_files.
Qed.

(** The map holds exactly what the request declares; if two declarations share a name, one of
    them. *)
Lemma build_spec fs m : build fs = Done m ->
  (forall n d s, messages m !! n = Some (d, s) -> exists f, f ∈ fs /\ declares f n d s)
  /\ (forall f n d s, f ∈ fs -> declares f n d s -> is_Some (messages m !! n))
  /\ (forall n e, enums m !! n = Some e -> exists f, f ∈ fs /\ declares_enum f n e)
  /\ (forall name f s, files m !! name = Some (f, s) -> f ∈ fs /\ file_syntax f = Done s).
Proof.
  intros H. split_and!.
  - eapply (try_fold_done _ (fun m => forall n d s, messages m !! n = Some (d, s) -> exists f, f ∈ fs /\ declares f n d s)); [| |exact H].
    + intros n d s Hn. simpl in Hn. by rewrite lookup_empty in Hn.
    + intros m1 f m2 Hf IH Hi%adds_file n d s Hn. apply (a_messages _ _ _ _ Hi) in Hn as [Hn|Hn]; eauto.
  - intros f n d s Hf Hd.
    eapply (try_fold_turn insert_file (fun _ => True) (fun m => is_Some (messages m !! n))); [done | | |exact Hf|exact H].
    + intros m1 g m2 _ _ Hi%adds_file. split; [done |]. apply (a_keeps _ _ _ _ Hi).
    + intros m1 m2 _ Hi%adds_file. by eapply (a_all _ _ _ _ Hi).
  - eapply (try_fold_done _ (fun m => forall n e, enums m !! n = Some e -> exists f, f ∈ fs /\ declares_enum f n e)); [| |exact H].
    + intros n e Hn. simpl in Hn. by rewrite lookup_empty in Hn.
    + intros m1 f m2 Hf IH Hi%adds_file n e Hn. apply (a_enums _ _ _ _ Hi) in Hn as [Hn|Hn]; eauto.
  - eapply (try_fold_done _ (fun m => forall name f s, files m !! name = Some (f, s) -> f ∈ fs /\ file_syntax f = Done s)); [| |exact H].
    + intros name f s Hn. simpl in Hn. by rewrite lookup_empty in Hn.
    + intros m1 f m2 Hf IH Hi name g s Hl. apply insert_file_files in Hi as (syntax & Hs & Hi). rewrite Hi in Hl.
      apply lookup_insert_Some in Hl as [[_ [= <- <-]]|[_ Hl]]; eauto.
Qed.

(** ** The declarations, as lists *)
(** No two types of a request have the same name. *)
Definition distinct (request : CodeGeneratorRequest) : Prop :=
  (forall n d s d' s', declared request n d s -> declared request n d' s' -> d' = d /\ s' = s)
  /\ forall f n e d s, f ∈ proto_file request -> declares_enum f n e -> ~ declared request n d s.

Fixpoint messages_in (q : TypeNameQualifier) (syntax : ProtoSyntax) (d : DescriptorProto) :
    list (QualifiedTypeName * DescriptorProto * ProtoSyntax) :=
  match d with
  | mkMessage name _ nested_type _ =>
      (type_in q (str_or_default name), d, syntax)
        :: flat_map (messages_in (nested q (str_or_default name)) syntax) nested_type
  end.
Definition file_messages (f : FileDescriptorProto) : list (QualifiedTypeName * DescriptorProto * ProtoSyntax) :=
  match file_syntax f with
  | Done syntax => flat_map (messages_in (top_level (file_package f)) syntax) (f_message_type f)
  | _ => []
  end.
Definition enums_of (q : TypeNameQualifier) (es : list EnumDescriptorProto) : list QualifiedTypeName :=
  (fun e => into_type q (str_or_default (e_name e))) <$> es.
Definition file_enums (f : FileDescriptorProto) : list QualifiedTypeName :=
  enums_of (top_level (file_package f)) (f_enum_type f)
  ++ flat_map (fun m => flat_map (fun '(n, d, _) => enums_of (nested (qualifier n) (qname n)) (d_enum_type d))
                          (messages_in (top_level (file_package f)) Proto3 m)) (f_message_type f).

Lemma elem_of_flat_map {A B} (f : A -> list B) l x y : x ∈ l -> y ∈ f x -> y ∈ flat_map f l.
Proof. intros Hx Hy. apply list_elem_of_In, in_flat_map. exists x. by rewrite <- !list_elem_of_In. Qed.

Lemma in_message_list q s d n d' s' : in_message q s d n d' s' -> (n, d', s') ∈ messages_in q s d.
Proof.
  induction 1 as [q s [name field nt et]|q s [name field nt et] m n d' s' Hm _ IH]; simpl; [by left |].
  right. by eapply elem_of_flat_map.
Qed.

(** The names do not depend on the syntax. *)
Lemma in_message_syntax q s1 s2 d n d' s' : in_message q s1 d n d' s' -> exists s'', in_message q s2 d n d' s''.
Proof. induction 1 as [|? ? ? ? ? ? ? ? _ [s'' IH]]; eexists; [constructor | by econstructor]. Qed.

Lemma declared_list request n d s : declared request n d s -> (n, d, s) ∈ flat_map file_messages (proto_file request).
Proof.
  intros (f & Hf & syntax & m & Hs & Hm & Hd). eapply elem_of_flat_map; [exact Hf |].
  unfold file_messages. rewrite Hs. eapply elem_of_flat_map; [exact Hm | by apply in_message_list].
Qed.

Lemma declared_enum_list f n e : declares_enum f n e -> n ∈ file_enums f.
Proof.
  unfold file_enums, enums_of. intros [[He ->]|(m & Hm & n' & d' & s & s' & Hd & He & ->)]; apply elem_of_app; [left | right].
  - apply list_elem_of_fmap. eauto.
  - destruct (in_message_syntax _ _ Proto3 _ _ _ _ Hd) as (s'' & Hd').
    eapply elem_of_flat_map; [exact Hm |]. eapply elem_of_flat_map; [by apply in_message_list |].
    simpl. apply list_elem_of_fmap. eauto.
Qed.

Lemma distinct_names request :
  NoDup ((fun m => m.1.1) <$> flat_map file_messages (proto_file request)) ->
  (forall n, n ∈ flat_map file_enums (proto_file request) -> n ∉ (fun m => m.1.1) <$> flat_map file_messages (proto_file request)) ->
  distinct request.
Proof.
  intros Hnd He. split.
  - intros n d s d' s' H1%declared_list H2%declared_list.
    apply list_elem_of_lookup in H1 as [i Hi]. apply list_elem_of_lookup in H2 as [j Hj].
    assert (i = j) as <- by (eapply (NoDup_lookup _ _ _ n Hnd); rewrite list_lookup_fmap; [by rewrite Hi | by rewrite Hj]).
    rewrite Hi in Hj. by injection Hj as -> ->.
  - intros f n e d s Hf Hn%declared_enum_list Hd%declared_list. apply (He n); [by eapply elem_of_flat_map |].
    apply list_elem_of_fmap. by exists (n, d, s).
Qed.

(** ** Paths of types *)
Lemma split_dot s : split DOT (DOT :: s) = [] :: split DOT s.
Proof. done. Qed.

Lemma split_join parts : parts <> [] -> Forall (fun p => DOT ∉ p) parts -> split DOT (join [DOT] parts) = parts.
Proof.
  intros Hne H. induction H as [|p parts Hp H IH]; [done |]. destruct parts as [|p' parts]; [by apply split_free |].
  change (join [DOT] (p :: p' :: parts)) with (p ++ DOT :: join [DOT] (p' :: parts)).
  rewrite split_app by done. by rewrite IH.
Qed.

(** The full path of a type, as [protoc] writes it for a type of a file with a package. *)
Definition path_of (n : QualifiedTypeName) : str :=
  DOT :: join [DOT] (package (qualifier n) ++ outer_messages (qualifier n) ++ [qname n]).

Section FromPath.
Variable unicode : str -> bool.

(** Packages start with a lowercase letter, messages do not, and no part has a dot. *)
Definition conventional (n : QualifiedTypeName) : Prop :=
  Forall (fun p => DOT ∉ p) (package (qualifier n) ++ outer_messages (qualifier n) ++ [qname n])
  /\ Forall (fun p => starts_lowercase unicode p = Done true) (package (qualifier n))
  /\ forall o, head (outer_messages (qualifier n)) = Some o -> starts_lowercase unicode o = Done false.

Lemma package_parts_app ps os :
  Forall (fun p => starts_lowercase unicode p = Done true) ps ->
  (forall o, head os = Some o -> starts_lowercase unicode o = Done false) ->
  package_parts unicode (ps ++ os) = Done (ps, os).
Proof.
  intros Hp Ho. induction Hp as [|p ps Hp _ IH]; simpl; [|by rewrite Hp, IH].
  destruct os as [|o os]; [done |]. simpl. by rewrite (Ho o eq_refl).
Qed.

Lemma from_path_of n default_package : conventional n -> from_path unicode (path_of n) default_package = Done n.
Proof.
  intros (Hd & Hp & Ho). unfold from_path, path_of.
  rewrite split_dot, split_join; [|by destruct (package (qualifier n)), (outer_messages (qualifier n))|done].
  rewrite app_assoc, app_comm_cons, removelast_last, List.last_last. simpl.
  rewrite package_parts_app by done. simpl. by destruct n as [[] ?].
Qed.

(** A path that starts with a dot never names a type of a file without a package, whose types
    the map has under the package with one, empty, part. *)
Lemma from_path_package path default_package n :
  head path = Some DOT -> from_path unicode path default_package = Done n -> package (qualifier n) <> [[]].
Proof.
  intros Hh. unfold from_path. rewrite bool_decide_true by done. intros H. apply obind_done in H as ([p o] & H & [= <-]).
  simpl. intros ->. destruct (tail (removelast (split DOT path))) as [|part parts]; [done |]. simpl in H.
  apply obind_done in H as (b & Hb & H). destruct b; [|done].
  apply obind_done in H as ([p' o'] & H & [= -> _ _]). done.
Qed.

(** A path with no empty part where a package or an outer message should be. *)
Definition proper_path (path : str) : bool :=
  forallb (fun p => negb (bool_decide (p = []))) (tail (removelast (split DOT path))).

Lemma package_parts_no_crash parts c :
  forallb (fun p => negb (bool_decide (p = []))) parts = true -> package_parts unicode parts <> Crash c.
Proof.
  induction parts as [|p parts IH]; simpl; [done |]. intros [Hp%negb_true_iff%bool_decide_eq_false Hps]%andb_true_iff Hc.
  destruct p as [|b p]; [done |]. simpl in Hc. destruct (if Z_of_byte b <? 128 then _ else _); simpl in Hc; [|done].
  apply obind_crash in Hc as [Hc|([] & _ & Hc)]; [by apply IH in Hc | done].
Qed.

Lemma from_path_no_crash path default_package c : proper_path path = true -> from_path unicode path default_package <> Crash c.
Proof.
  intros Hp Hc. unfold from_path in Hc. apply obind_crash in Hc as [Hc|([] & _ & Hc)]; [|done].
  case_bool_decide; [|done]. by apply package_parts_no_crash in Hc.
Qed.
End FromPath.
