(* ===== verification/Wit.v ===== *)
(** * The compiler

    Models [src/compiler/wit.rs], [src/compiler/metadata.rs] and the rest of
    [src/compiler/main.rs]: from descriptors to the WIT of a component's server.

    [wit_encoder] is a parameter: what the compiler builds with it is the term of its
    constructor and builder calls, in order, and only the library knows how to print it
    ([WitEncoder]).  [heck]'s [to_kebab_case] is another ([Heck]). *)

From S2P Require Import Prelude Ordering Descriptors.

(** ** What is built with [wit_encoder] *)
Inductive WitType :=
| F64 | F32 | S64 | U64 | S32 | U32 | U8 | TyBool | TyString
| Named (name : str)
| TyList (t : WitType)
| TyOption (t : WitType).

Record WitField := mkWitField { wf_name : str; wf_type : WitType }.
Inductive WitTypeDefKind := KRecord (fields : list WitField) | KEnum (cases : list str).
Record WitTypeDef := mkTypeDef { td_name : str; td_kind : WitTypeDefKind }.
Record StandaloneFunc := mkFunc { fn_name : str; fn_params : str * WitType; fn_result : option WitType }.

(** The builder calls of an interface, a world and a package. *)
Inductive InterfaceItem :=
| InterfaceUse (target item : str)
| InterfaceTypeDef (d : WitTypeDef)
| InterfaceFunction (f : StandaloneFunc).
Record Interface := mkInterface { if_name : str; if_items : list InterfaceItem }.

Inductive WorldItem :=
| WorldInclude (name : str)
| WorldUse (target item : str)
| InlineInterfaceExport (i : Interface).
Record WitWorld := mkWitWorld { wo_name : str; wo_items : list WorldItem }.

Record PackageName := mkPackageName { namespace : str; pname : str }.
Inductive PackageItem := PackageWorld (w : WitWorld) | PackageInterface (i : Interface).
Record Package := mkPackage { pk_name : PackageName; pk_items : list PackageItem }.
Record NestedPackage := mkNestedPackage { np_name : PackageName; np_interfaces : list Interface }.

Class WitEncoder := {
  Package_to_string : Package -> str;
  NestedPackage_to_string : NestedPackage -> str;
}.
Class Heck := { to_kebab_case : str -> str }.

(** ** State *)
Definition FILENAME : str := lit "server.wit".
Definition PACKAGE_NAME : str := lit "proto".
Definition WORLD_NAME : str := lit "server".
Definition TYPES_INTERFACE_NAME : str := lit "types".
Definition REQUEST_PARAMETER_NAME : str := lit "request".
Definition VIMANA_API_VERSION : str := lit "0.0.0".
Definition WASI_API_VERSION : str := lit "0.2.0".
Definition COLON : str := lit ":".
Definition SLASH : str := lit "/".

Record ServerWorld := mkServerWorld {
  w_package : option (list str);
  services : list Interface;
  w_types_used : gset QualifiedTypeName;
}.
Record TypesInterface := mkTypesInterface {
  types_defined : list WitTypeDef;
  types_used : gset QualifiedTypeName;
}.
Record WitFile := mkWitFile {
  server_world : ServerWorld;
  types_interfaces : gmap TypeNameQualifier TypesInterface;
  types_compiled : gset QualifiedTypeName;
}.
Definition WitFile_default : WitFile := mkWitFile (mkServerWorld None [] ∅) ∅ ∅.

(** A file the compiler generates. *)
Record File := mkFile { fi_name : str; fi_content : str }.

Section Compiler.
Context {H : Heck} {E : WitEncoder} {HO : HashOrder} (unicode : str -> bool).

(** ** Packages *)
Definition set_or_check_server_package (wf : WitFile) (package : str) : outcome CompilerError (list str * WitFile) :=
  let package := split DOT package in
  let w := server_world wf in
  let existing_package := default package (w_package w) in
  if decide (package = existing_package) then
    Done (package, mkWitFile (mkServerWorld (Some existing_package) (services w) (w_types_used w))
                     (types_interfaces wf) (types_compiled wf))
  else Failed (ConflictingPackages existing_package package).

Definition server_package (wf : WitFile) : outcome CompilerError (list str) :=
  match w_package (server_world wf) with Some p => Done p | None => Crash Panicked end.

Definition server_package_qualifier (wf : WitFile) : outcome CompilerError TypeNameQualifier :=
  let? p := server_package wf in Done (top_level p).

Definition server_package_name (wf : WitFile) : outcome CompilerError PackageName :=
  let? p := server_package wf in Done (mkPackageName (join COLON (to_kebab_case <$> p)) PACKAGE_NAME).

(** ** Services *)
Definition compile_method (wf : WitFile) (m : MethodDescriptorProto) :
    outcome CompilerError (StandaloneFunc * list QualifiedTypeName) :=
  let? p := server_package wf in
  let? request_type := from_path unicode (str_or_default (m_input_type m)) p in
  let? response_type := from_path unicode (str_or_default (m_output_type m)) p in
  Done (mkFunc (to_kebab_case (str_or_default (m_name m)))
          (REQUEST_PARAMETER_NAME, Named (to_kebab_case (qname request_type)))
          (Some (Named (to_kebab_case (qname response_type)))),
        [request_type; response_type]).

Definition compile_service (wf : WitFile) (s : ServiceDescriptorProto) : outcome CompilerError WitFile :=
  let? (items, used) :=
    try_fold (fun '(items, used) m =>
                let? (function, types) := compile_method wf m in
                Done (items ++ [InterfaceFunction function], used ∪ list_to_set types))
      ([], w_types_used (server_world wf)) (sv_method s) in
  let service := mkInterface (to_kebab_case (str_or_default (sv_name s))) items in
  Done (mkWitFile (mkServerWorld (w_package (server_world wf)) (services (server_world wf) ++ [service]) used)
          (types_interfaces wf) (types_compiled wf)).

(** ** Definitions of types *)
(** The type of a field, without its label, and the type it names. *)
Definition unlabelled_type (wf : WitFile) (f : FieldDescriptorProto) :
    outcome CompilerError (WitType * list QualifiedTypeName) :=
  match type_or_default f with
  | PDouble => Done (F64, [])
  | PFloat => Done (F32, [])
  | PInt64 => Done (S64, [])
  | PUint64 => Done (U64, [])
  | PInt32 => Done (S32, [])
  | PFixed64 => Done (U64, [])
  | PFixed32 => Done (U32, [])
  | PBool => Done (TyBool, [])
  | PString => Done (TyString, [])
  | PMessage | PEnum =>
      let? p := server_package wf in
      let? type_name := from_path unicode (str_or_default (fd_type_name f)) p in
      Done (Named (to_kebab_case (qname type_name)), [type_name])
  | PBytes => Done (TyList U8, [])
  | PUint32 => Done (U32, [])
  | PSfixed32 => Done (S32, [])
  | PSfixed64 => Done (S64, [])
  | PSint32 => Done (S32, [])
  | PSint64 => Done (S64, [])
  | PGroup => Failed GroupsUnsupported
  end.

Definition labelled_type (f : FieldDescriptorProto) (syntax : ProtoSyntax) (t : WitType) : outcome CompilerError WitType :=
  match label_or_default f with
  | Optional =>
      if bool_decide (syntax = Proto2) || proto3_optional f then Done (TyOption t) else Done t
  | Required => Failed RequiredUnsupported
  | Repeated => Done (TyList t)
  end.

Definition message_type_definition (wf : WitFile) (d : DescriptorProto) (name : str) (syntax : ProtoSyntax) :
    outcome CompilerError (WitTypeDef * list QualifiedTypeName) :=
  let? (wit_fields, types_used) :=
    try_fold (fun '(wit_fields, types_used) proto_field =>
                let? (wit_type, used) := unlabelled_type wf proto_field in
                let? wit_type := labelled_type proto_field syntax wit_type in
                Done (wit_fields ++ [mkWitField (to_kebab_case (str_or_default (fd_name proto_field))) wit_type],
                      types_used ++ used))
      ([], []) (d_field d) in
  Done (mkTypeDef (to_kebab_case name) (KRecord wit_fields), types_used).

Definition enum_type_definition (d : EnumDescriptorProto) (name : str) : WitTypeDef :=
  mkTypeDef (to_kebab_case name) (KEnum ((fun v => to_kebab_case (str_or_default (v_name v))) <$> e_value d)).

(** ** Compiling types *)
Definition upsert_type_definition (wf : WitFile) (q : TypeNameQualifier) (type_definition : WitTypeDef)
    (used : list QualifiedTypeName) : WitFile :=
  let types_interface :=
    match types_interfaces wf !! q with
    | Some i => mkTypesInterface (types_defined i ++ [type_definition]) (types_used i ∪ list_to_set used)
    | None => mkTypesInterface [type_definition] (list_to_set used)
    end in
  mkWitFile (server_world wf) (<[q := types_interface]> (types_interfaces wf)) (types_compiled wf).

(** [types_compiled.insert]. *)
Definition mark_compiled (wf : WitFile) (n : QualifiedTypeName) : WitFile :=
  mkWitFile (server_world wf) (types_interfaces wf) ({[n]} ∪ types_compiled wf).

Definition compile_enum (wf : WitFile) (d : EnumDescriptorProto) (q : TypeNameQualifier) : WitFile :=
  let type_name := type_in q (str_or_default (e_name d)) in
  if decide (type_name ∈ types_compiled wf) then wf
  else
    let wf := mark_compiled wf type_name in
    upsert_type_definition wf (qualifier type_name) (enum_type_definition d (qname type_name)) [].

(** The recursion follows the fields of messages; [fuel] bounds its depth. *)
Fixpoint compile_message (fuel : nat) (descriptors : DescriptorMap) (wf : WitFile) (d : DescriptorProto)
    (q : TypeNameQualifier) (syntax : ProtoSyntax) : outcome CompilerError WitFile :=
  match fuel with
  | O => Crash FuelExhausted
  | S fuel =>
      let type_name := type_in q (str_or_default (d_name d)) in
      if decide (type_name ∈ types_compiled wf) then Done wf
      else
        let wf := mark_compiled wf type_name in
        let? (type_definition, types_used) := message_type_definition wf d (qname type_name) syntax in
        let? wf :=
          try_fold (fun wf type_used =>
                      match get_message descriptors type_used with
                      | Some (depended_descriptor, depended_syntax) =>
                          compile_message fuel descriptors wf depended_descriptor (qualifier type_used) depended_syntax
                      | None =>
                          match get_enum descriptors type_used with
                          | Some enum_descriptor => Done (compile_enum wf enum_descriptor (qualifier type_used))
                          | None => Failed (TypeNotFound (QualifiedTypeName_fmt type_used))
                          end
                      end) wf types_used in
        Done (upsert_type_definition wf (qualifier type_name) type_definition types_used)
  end.

(** Once per descriptor, and once more to find a type compiled. *)
Definition depth (descriptors : DescriptorMap) : nat := S (size (messages descriptors)).

(** ** Generating the file *)
Definition package_namespace (q : TypeNameQualifier) : str := join COLON (to_kebab_case <$> package q).
Definition package_name (q : TypeNameQualifier) : str :=
  fold_left (fun package_name outer_message => package_name ++ SLASH ++ to_kebab_case outer_message)
    (outer_messages q) PACKAGE_NAME.
Definition into_namespaced_package_name (q : TypeNameQualifier) : PackageName :=
  mkPackageName (package_namespace q) (package_name q).

Definition use_type_target (n : QualifiedTypeName) : str :=
  package_namespace (qualifier n) ++ COLON ++ package_name (qualifier n) ++ SLASH ++ TYPES_INTERFACE_NAME.
Definition use_type_item (n : QualifiedTypeName) : str := to_kebab_case (qname n).

Definition into_interface (i : TypesInterface) : Interface :=
  mkInterface TYPES_INTERFACE_NAME
    (((fun used_type => InterfaceUse (use_type_target used_type) (use_type_item used_type))
        <$> sorted_set_values (types_used i))
     ++ (InterfaceTypeDef <$> types_defined i)).

Definition into_nested_package (i : TypesInterface) (q : TypeNameQualifier) : NestedPackage :=
  mkNestedPackage (into_namespaced_package_name q) [into_interface i].

Definition into_world (w : ServerWorld) : WitWorld :=
  mkWitWorld WORLD_NAME
    ([WorldInclude (lit "wasi:cli/imports@" ++ WASI_API_VERSION);
      WorldInclude (lit "vimana:grpc/imports@" ++ VIMANA_API_VERSION)]
     ++ ((fun used_type => WorldUse (use_type_target used_type) (use_type_item used_type))
           <$> sorted_set_values (w_types_used w))
     ++ (InlineInterfaceExport <$> services w)).

(** The packages of the file, in the order they are printed. *)
Definition server_packages (wf : WitFile) : outcome CompilerError (Package * list NestedPackage) :=
  let? name := server_package_name wf in
  let? q := server_package_qualifier wf in
  let main := match types_interfaces wf !! q with Some i => [PackageInterface (into_interface i)] | None => [] end in
  Done (mkPackage name (PackageWorld (into_world (server_world wf)) :: main),
        (fun '(name_qualifier, types_interface) => into_nested_package types_interface name_qualifier)
          <$> sorted_map_entries (delete q (types_interfaces wf))).

Definition generate (wf : WitFile) : outcome CompilerError File :=
  let? (server, nested) := server_packages wf in
  Done (mkFile FILENAME
    (Package_to_string server ++ concat ((fun p => x0a :: NestedPackage_to_string p) <$> nested))).

(** ** The metadata file *)
Definition METADATA_FILENAME : str := lit "metadata.binpb".
Definition MetadataFile_generate : outcome CompilerError File := Done (mkFile METADATA_FILENAME []).

(** ** A request *)
Definition compile_file (descriptors : DescriptorMap) (wf : WitFile) (filename : str) : outcome CompilerError WitFile :=
  let? (file_descriptor, syntax) := get_file descriptors filename in
  let? (package, wf) := set_or_check_server_package wf (str_or_default (f_package file_descriptor)) in
  let? wf := try_fold compile_service wf (f_service file_descriptor) in
  try_fold (fun wf message_descriptor =>
              compile_message (depth descriptors) descriptors wf message_descriptor (top_level package) syntax)
    wf (f_message_type file_descriptor).

(** The state of the compiler when all files have been compiled. *)
Definition compile_files (request : CodeGeneratorRequest) : outcome CompilerError WitFile :=
  let? descriptors := build (proto_file request) in
  try_fold (compile_file descriptors) WitFile_default (file_to_generate request).

Definition compile (request : CodeGeneratorRequest) : outcome CompilerError (list File) :=
  let? wf := compile_files request in
  let? wit := generate wf in
  let? metadata := MetadataFile_generate in
  Done [wit; metadata].

(** ** The plugin *)
Record CodeGeneratorResponse := mkResponse {
  r_file : list File;
  r_error : option CompilerError;
  r_supported_features : option Z;
}.
Definition SUPPORTED_FEATURES : Z := 1.
Inductive MainError := ReadFailed | DecodeFailed.

(** What is written to standard output for what is read from standard input, if it can be;
    [prost] decodes the request and encodes the response. *)
Definition main (decode : list byte -> option CodeGeneratorRequest) (encode : CodeGeneratorResponse -> list byte)
    (stdin : option (list byte)) : outcome MainError (list byte) :=
  let? buf := ok_or stdin ReadFailed in
  let? request := ok_or (decode buf) DecodeFailed in
  match compile request with
  | Done files => Done (encode (mkResponse files None (Some SUPPORTED_FEATURES)))
  | Failed error => Done (encode (mkResponse [] (Some error) (Some SUPPORTED_FEATURES)))
  | Crash c => Crash c
  end.
End Compiler.
