(* ===== verification/WitSpec.v ===== *)
(** * What the compiler guarantees

    - A request that compiles has every type its messages need, each defined once; and no
      others.
    - Compiling returns, and its output does not depend on how hash maps are iterated.
    - What it does not find or check: types of files without a package, and those of methods. *)

From S2P Require Import Prelude Ordering Descriptors DescriptorsSpec Wit.

(** A type, its definition, and the types that uses. *)
Record Entry := mkEntry { en_name : QualifiedTypeName; en_def : WitTypeDef; en_uses : list QualifiedTypeName }.

Section Spec.
Context {HK : Heck} (unicode : str -> bool).

Abbreviation message_type_definition := (message_type_definition unicode).
Abbreviation compile_message := (compile_message unicode).

Definition add_entry (m : gmap TypeNameQualifier TypesInterface) (e : Entry) : gmap TypeNameQualifier TypesInterface :=
  types_interfaces (upsert_type_definition (mkWitFile (server_world WitFile_default) m ∅)
                      (qualifier (en_name e)) (en_def e) (en_uses e)).

(** The interfaces that hold the entries. *)
Definition interfaces_of (es : list Entry) : gmap TypeNameQualifier TypesInterface := fold_left add_entry es ∅.

(** ** What an interface holds *)
Lemma add_entry_lookup m e q :
  add_entry m e !! q =
    if decide (q = qualifier (en_name e)) then
      Some (match m !! q with
            | Some i => mkTypesInterface (types_defined i ++ [en_def e]) (types_used i ∪ list_to_set (en_uses e))
            | None => mkTypesInterface [en_def e] (list_to_set (en_uses e))
            end)
    else m !! q.
Proof.
  unfold add_entry, upsert_type_definition. simpl. case_decide as Hq.
  - subst q. by rewrite lookup_insert_eq.
  - by rewrite lookup_insert_ne.
Qed.

Definition entries_at (q : TypeNameQualifier) (es : list Entry) : list Entry :=
  filter (fun e => qualifier (en_name e) = q) es.

Lemma entries_at_snoc q es e :
  entries_at q (es ++ [e]) = entries_at q es ++ (if decide (qualifier (en_name e) = q) then [e] else []).
Proof. unfold entries_at. by rewrite filter_app. Qed.

(** An interface has the definitions of its qualifier's types, in order, and uses what they
    use. *)
Lemma interfaces_of_lookup es q :
  interfaces_of es !! q =
    match entries_at q es with
    | [] => None
    | es' => Some (mkTypesInterface (en_def <$> es') (list_to_set (es' ≫= en_uses)))
    end.
Proof.
  unfold interfaces_of. induction es as [|e es IH] using rev_ind; [done |].
  rewrite fold_left_app, entries_at_snoc. simpl. rewrite add_entry_lookup, IH. clear IH.
  destruct (decide (q = qualifier (en_name e))) as [Hq|Hq].
  - rewrite decide_True by done. destruct (entries_at q es) as [|e' es'].
    + simpl. do 2 f_equal. by rewrite app_nil_r.
    + simpl. do 2 f_equal; [by rewrite fmap_app |].
      rewrite bind_app. simpl. rewrite app_nil_r, !list_to_set_app_L. set_solver.
  - rewrite decide_False by done. by rewrite app_nil_r.
Qed.

(** ** Depth-first *)
(** The definition of a message depends on the package of the server only. *)
Definition in_package (p : list str) : WitFile := mkWitFile (mkServerWorld (Some p) [] ∅) ∅ ∅.

Lemma unlabelled_type_package wf p f : w_package (server_world wf) = Some p ->
  unlabelled_type unicode wf f = unlabelled_type unicode (in_package p) f.
Proof. intros Hp. unfold unlabelled_type, server_package. by rewrite Hp. Qed.

Lemma message_type_definition_package wf p d name s : w_package (server_world wf) = Some p ->
  message_type_definition wf d name s = message_type_definition (in_package p) d name s.
Proof.
  intros Hp. unfold Wit.message_type_definition. f_equal. generalize ([] : list WitField, [] : list QualifiedTypeName).
  induction (d_field d) as [|f fs IH]; intros [wfs used]; simpl; [done |].
  rewrite (unlabelled_type_package _ _ _ Hp). destruct (unlabelled_type _ _ _) as [[]| |]; simpl; [|done..].
  destruct (labelled_type _ _ _); simpl; [apply IH | done..].
Qed.

(** The record of a message has a field for each of its fields, in order, and the definition
    uses the types they name. *)
Definition declares_field (wf : WitFile) (syntax : ProtoSyntax) (uses : list QualifiedTypeName)
    (f : FieldDescriptorProto) (w : WitField) : Prop :=
  exists t used, unlabelled_type unicode wf f = Done (t, used) /\ labelled_type f syntax t = Done (wf_type w)
    /\ wf_name w = to_kebab_case (str_or_default (fd_name f)) /\ used ⊆ uses.

Lemma message_fields wf d name syntax def uses : message_type_definition wf d name syntax = Done (def, uses) ->
  exists ws, def = mkTypeDef (to_kebab_case name) (KRecord ws) /\ Forall2 (declares_field wf syntax uses) (d_field d) ws.
Proof.
  unfold Wit.message_type_definition. intros H. apply obind_done in H as ([ws us] & H & [= <- <-]). exists ws. split; [done |].
  match type of H with try_fold ?b _ _ = _ => set (body := b) in H end.
  assert (Hf : forall fs ws0 us0 ws us, try_fold body (ws0, us0) fs = Done (ws, us) ->
            exists ws', ws = ws0 ++ ws' /\ us0 ⊆ us /\ Forall2 (declares_field wf syntax us) fs ws').
  { clear. induction fs as [|f fs IH]; intros ws0 us0 ws us H; simpl in H.
    - injection H as <- <-. exists []. split_and!; [by rewrite app_nil_r | done | constructor].
    - apply obind_done in H as ([ws1 us1] & H1 & H). apply obind_done in H1 as ([t used] & Ht & H1).
      apply obind_done in H1 as (t' & Ht' & [= <- <-]). apply IH in H as (ws' & -> & Hsub & Hws).
      eexists (_ :: ws'). split_and!; [by rewrite <- app_assoc | set_solver |]. constructor; [|done].
      exists t, used. split_and!; [done..|]. set_solver. }
  apply Hf in H as (ws' & -> & _ & H). done.
Qed.

Section Compile.
Context (request : CodeGeneratorRequest) (descriptors : DescriptorMap) (server : list str).
Context (Hbuild : build (proto_file request) = Done descriptors).

Definition known (n : QualifiedTypeName) : Prop := is_Some (messages descriptors !! n) \/ is_Some (enums descriptors !! n).

(** The definition of a declared type, and what it uses. *)
Inductive defines : QualifiedTypeName -> WitTypeDef -> list QualifiedTypeName -> Prop :=
| defines_message n d s def uses :
    declared request n d s -> message_type_definition (in_package server) d (qname n) s = Done (def, uses) ->
    Forall known uses -> defines n def uses
| defines_enum f n d :
    f ∈ proto_file request -> declares_enum f n d -> defines n (enum_type_definition d (qname n)) [].

Lemma defines_name n def uses : defines n def uses -> td_name def = to_kebab_case (qname n).
Proof.
  destruct 1 as [n d s def uses _ H _|]; [|done]. unfold Wit.message_type_definition in H.
  by apply obind_done in H as ([] & _ & [= <- _]).
Qed.

Lemma declares_enum_name f n d : declares_enum f n d -> qname n = str_or_default (e_name d).
Proof. by intros [[_ ->]|(m & _ & n' & d' & s & s' & _ & _ & ->)]. Qed.

(** From [wf], compiling added the types [es], among them [tops], and what they use. *)
Record grows (R : QualifiedTypeName -> Prop) (wf wf' : WitFile) (es : list Entry) : Prop := {
  g_world : server_world wf' = server_world wf;
  g_interfaces : types_interfaces wf' = fold_left add_entry es (types_interfaces wf);
  g_compiled : types_compiled wf' = types_compiled wf ∪ list_to_set (en_name <$> es);
  g_new : NoDup (en_name <$> es) /\ forall n, n ∈ en_name <$> es -> n ∉ types_compiled wf;
  g_entries : Forall (fun e => defines (en_name e) (en_def e) (en_uses e) /\ R (en_name e)) es;
  g_closed : Forall (fun e => forall n, n ∈ en_uses e -> n ∈ types_compiled wf') es;
}.

Lemma grows_refl R wf : grows R wf wf [].
Proof. split; try done; [set_solver | split; [constructor | by intros n ?%not_elem_of_nil]]. Qed.

Lemma grows_mono R wf wf' es : grows R wf wf' es -> types_compiled wf ⊆ types_compiled wf'.
Proof. intros []. set_solver. Qed.

Lemma grows_trans R wf1 wf2 wf3 es es' : grows R wf1 wf2 es -> grows R wf2 wf3 es' -> grows R wf1 wf3 (es ++ es').
Proof.
  intros [H1 H2 H3 [H4 H4'] H5 H6] G. pose proof (grows_mono _ _ _ _ G) as Hm. destruct G as [K1 K2 K3 [K4 K4'] K5 K6]. split.
  - congruence.
  - by rewrite fold_left_app, <- H2.
  - rewrite K3, H3, fmap_app, list_to_set_app_L. set_solver.
  - rewrite fmap_app. split.
    + apply NoDup_app. split_and!; [done | | done]. intros n Hn Hn'. apply (K4' n Hn'). rewrite H3. set_solver.
    + intros n [Hn|Hn]%elem_of_app; [auto|]. specialize (K4' _ Hn). rewrite H3 in K4'. set_solver.
  - by apply Forall_app.
  - apply Forall_app. split; [|done]. eapply Forall_impl; [exact H6|]. set_solver.
Qed.
(** A type that is not compiled yet is, after what it uses. *)
Lemma grows_entry R wf wf' es n def uses :
  n ∉ types_compiled wf -> defines n def uses -> R n ->
  grows R (mark_compiled wf n) wf' es -> (forall t, t ∈ uses -> t ∈ types_compiled wf') ->
  grows R wf (upsert_type_definition wf' (qualifier n) def uses) (es ++ [mkEntry n def uses])
  /\ n ∈ types_compiled (upsert_type_definition wf' (qualifier n) def uses).
Proof.
  intros Hn Hdef HR [H1 H2 H3 [H4 H4'] H5 H6] Huses. simpl in *.
  split; [split|]; simpl.
  - done.
  - by rewrite fold_left_app, <- H2.
  - rewrite H3, fmap_app, list_to_set_app_L. set_solver.
  - rewrite fmap_app. simpl. split.
    + apply NoDup_app. split_and!; [done | | apply NoDup_singleton]. intros t Ht ->%list_elem_of_singleton.
      apply (H4' _ Ht). set_solver.
    + intros t [Ht| ->%list_elem_of_singleton]%elem_of_app; [|done]. specialize (H4' _ Ht). set_solver.
  - apply Forall_app. split; [done | by repeat constructor].
  - apply Forall_app. split; [done | by repeat constructor].
  - rewrite H3. set_solver.
Qed.

Lemma compile_enum_grows R wf d n :
  enums descriptors !! n = Some d -> R n ->
  exists es, grows R wf (compile_enum wf d (qualifier n)) es /\ n ∈ types_compiled (compile_enum wf d (qualifier n)).
Proof.
  intros Hd HR. pose proof (build_spec _ _ Hbuild) as (_ & _ & He & _). destruct (He _ _ Hd) as (f & Hf & Hn).
  pose proof (declares_enum_name _ _ _ Hn) as Hq. unfold compile_enum.
  replace (type_in (qualifier n) (str_or_default (e_name d))) with n by (rewrite <- Hq; by destruct n).
  case_decide as Hc; [exists []; split; [apply grows_refl | done] |].
  eexists. apply grows_entry; [done | by eapply defines_enum | done | apply grows_refl |].
  by intros t ?%not_elem_of_nil.
Qed.

Lemma compile_message_grows R fuel :
  (forall n def uses t, R n -> defines n def uses -> t ∈ uses -> R t) ->
  forall wf wf' d q s, let n := type_in q (str_or_default (d_name d)) in
  declared request n d s -> R n -> w_package (server_world wf) = Some server ->
  compile_message fuel descriptors wf d q s = Done wf' ->
  exists es, grows R wf wf' es /\ n ∈ types_compiled wf'.
Proof.
  intros HRu. induction fuel as [|fuel IH]; intros wf wf' d q s n Hn HR Hp; [done |]. simpl. fold n.
  case_decide as Hc; [intros [= <-]; exists []; split; [apply grows_refl | done] |].
  intros H. apply obind_done in H as ([def uses] & Hdef & H). apply obind_done in H as (wf2 & Hr & [= <-]).
  rewrite (message_type_definition_package _ server) in Hdef by done. fold (qname n) in Hdef.
  pose proof (build_spec _ _ Hbuild) as (Hm & _ & _ & _).
  assert (Hknown : Forall known uses).
  { apply Forall_forall. intros t Ht. refine (try_fold_turn _ (fun _ => True) (fun _ => known t) uses _ _ t Logic.I _ _ Ht Hr); [by intros |].
    intros w w' _. unfold get_message, get_enum, known. destruct (messages descriptors !! t); [by eauto |].
    destruct (enums descriptors !! t); [by eauto | done]. }
  assert (Hdefines : defines n def uses) by by eapply defines_message.
  set (I := fun w => w_package (server_world w) = Some server /\ exists es, grows R (mark_compiled wf n) w es).
  assert (HI : I (mark_compiled wf n)) by (split; [done | exists []; apply grows_refl]).
  assert (Hstep : forall w t w', t ∈ uses -> I w ->
            (match get_message descriptors t with
             | Some (d', s') => compile_message fuel descriptors w d' (qualifier t) s'
             | None => match get_enum descriptors t with
                       | Some e => Done (compile_enum w e (qualifier t))
                       | None => Failed (TypeNotFound (QualifiedTypeName_fmt t))
                       end
             end) = Done w' ->
            I w' /\ types_compiled w ⊆ types_compiled w' /\ t ∈ types_compiled w').
  { intros w t w' Ht [Hpw [es Hes]] Hb.
    assert (exists es, grows R w w' es /\ t ∈ types_compiled w') as (es' & Hes' & Hin).
    { pose proof (HRu _ _ _ _ HR Hdefines Ht) as HRt. unfold get_message, get_enum in Hb.
      destruct (messages descriptors !! t) as [[d' s']|] eqn:Ed.
      - destruct (Hm _ _ _ Ed) as (f & Hf & Hd). assert (Hdt : declared request t d' s') by by exists f.
        pose proof (declared_name _ _ _ _ Hdt) as Hq.
        assert (E : type_in (qualifier t) (str_or_default (d_name d')) = t) by (rewrite <- Hq; by destruct t).
        rewrite <- E. eapply IH; rewrite ?E; done.
      - destruct (enums descriptors !! t) as [e|] eqn:Ee; [|done]. injection Hb as <-. by apply compile_enum_grows. }
    split_and!; [split; [by rewrite (g_world _ _ _ _ Hes') | eexists; by eapply grows_trans] | by eapply grows_mono | done]. }
  assert (Hfin : I wf2) by (eapply (try_fold_done _ I); [exact HI | intros w t w' Ht Hw Hb; exact (proj1 (Hstep w t w' Ht Hw Hb)) | exact Hr]).
  destruct Hfin as [_ [es Hes]]. eexists. apply (grows_entry R wf wf2 es n def uses); [done | done | done | exact Hes |].
  intros t Ht. refine (try_fold_turn _ I (fun w => t ∈ types_compiled w) uses _ _ t HI _ _ Ht Hr).
  - intros w u w' Hu Hw Hb. destruct (Hstep w u w' Hu Hw Hb) as (HI' & Hsub & _). split; [done | set_solver].
  - intros w w' Hw Hb. exact (proj2 (proj2 (Hstep w t w' Ht Hw Hb))).
Qed.
(** ** Files *)
(** [f] is one of the files to generate code for. *)
Definition generated (f : FileDescriptorProto) : Prop :=
  exists filename syntax, filename ∈ file_to_generate request /\ files descriptors !! filename = Some (f, syntax).

Definition top_type (f : FileDescriptorProto) (m : DescriptorProto) : QualifiedTypeName :=
  type_in (top_level (file_package f)) (str_or_default (d_name m)).

(** The messages of those files, and what they use. *)
Inductive needed : QualifiedTypeName -> Prop :=
| needed_top f m : generated f -> m ∈ f_message_type f -> needed (top_type f m)
| needed_use n def uses t : needed n -> defines n def uses -> t ∈ uses -> needed t.

(** What has been compiled are the entries, and they are all there is. *)
Record compiled_as (wf : WitFile) (es : list Entry) : Prop := {
  c_interfaces : types_interfaces wf = interfaces_of es;
  c_compiled : types_compiled wf = list_to_set (en_name <$> es);
  c_once : NoDup (en_name <$> es);
  c_entries : Forall (fun e => defines (en_name e) (en_def e) (en_uses e) /\ needed (en_name e)) es;
  c_closed : Forall (fun e => forall n, n ∈ en_uses e -> n ∈ types_compiled wf) es;
}.

Lemma compiled_as_grows wf wf' es es' : compiled_as wf es -> grows needed wf wf' es' -> compiled_as wf' (es ++ es').
Proof.
  intros [H1 H2 H3 H4 H5] G. pose proof (grows_mono _ _ _ _ G) as Hm. destruct G as [K1 K2 K3 [K4 K4'] K5 K6]. split.
  - rewrite K2, H1. unfold interfaces_of. by rewrite fold_left_app.
  - rewrite K3, H2, fmap_app, list_to_set_app_L. done.
  - rewrite fmap_app. apply NoDup_app. split_and!; [done | | done]. intros n Hn Hn'. apply (K4' n Hn'). rewrite H2. set_solver.
  - by apply Forall_app.
  - apply Forall_app. split; [|done]. eapply Forall_impl; [exact H5|]. set_solver.
Qed.

Lemma compile_messages f syntax wf wf' es :
  f ∈ proto_file request -> file_syntax f = Done syntax -> generated f -> w_package (server_world wf) = Some server ->
  compiled_as wf es ->
  try_fold (fun wf m => compile_message (depth descriptors) descriptors wf m (top_level (file_package f)) syntax)
    wf (f_message_type f) = Done wf' ->
  server_world wf' = server_world wf /\ types_compiled wf ⊆ types_compiled wf'
  /\ (exists es', compiled_as wf' es') /\ forall m, m ∈ f_message_type f -> top_type f m ∈ types_compiled wf'.
Proof.
  intros Hf Hs Hg Hp Hes Hr.
  set (I := fun w => server_world w = server_world wf /\ types_compiled wf ⊆ types_compiled w /\ exists es', compiled_as w es').
  assert (HI : I wf) by (split_and!; eauto).
  assert (Hstep : forall w m w', m ∈ f_message_type f -> I w ->
            compile_message (depth descriptors) descriptors w m (top_level (file_package f)) syntax = Done w' ->
            I w' /\ types_compiled w ⊆ types_compiled w' /\ top_type f m ∈ types_compiled w').
  { intros w m w' Hm (Hw & Hsub & es' & Hes') Hb.
    assert (Hd : declared request (top_type f m) m syntax).
    { exists f. split; [done |]. exists syntax, m. split_and!; [done..| constructor]. }
    rewrite <- Hw in Hp.
    destruct (compile_message_grows needed _ needed_use _ _ _ _ _ Hd (needed_top f m Hg Hm) Hp Hb) as (es1 & G & Hin).
    pose proof (grows_mono _ _ _ _ G). split; [split_and! | done].
    - by rewrite (g_world _ _ _ _ G).
    - set_solver.
    - eexists. by eapply compiled_as_grows. }
  assert (Hfin : I wf').
  { eapply (try_fold_done _ I); [exact HI | | exact Hr]. intros w m w' Hm Hw Hb. exact (proj1 (Hstep _ _ _ Hm Hw Hb)). }
  destruct Hfin as (H1 & H2 & H3). split_and!; [done..|]. intros m Hm.
  refine (try_fold_turn _ I (fun w => top_type f m ∈ types_compiled w) (f_message_type f) _ _ m HI _ _ Hm Hr).
  - intros w u w' Hu Hw Hb. destruct (Hstep _ _ _ Hu Hw Hb) as (? & ? & _). split; [done | set_solver].
  - intros w w' Hw Hb. exact (proj2 (proj2 (Hstep _ _ _ Hm Hw Hb))).
Qed.
End Compile.

Lemma compile_service_keeps wf s wf' : compile_service unicode wf s = Done wf' ->
  w_package (server_world wf') = w_package (server_world wf)
  /\ types_interfaces wf' = types_interfaces wf /\ types_compiled wf' = types_compiled wf.
Proof. unfold compile_service. intros H. by apply obind_done in H as ([] & _ & [= <-]). Qed.

Lemma compile_services_keep l wf wf' : try_fold (compile_service unicode) wf l = Done wf' ->
  w_package (server_world wf') = w_package (server_world wf)
  /\ types_interfaces wf' = types_interfaces wf /\ types_compiled wf' = types_compiled wf.
Proof.
  intros H. eapply (try_fold_done _ (fun w => w_package (server_world w) = w_package (server_world wf)
    /\ types_interfaces w = types_interfaces wf /\ types_compiled w = types_compiled wf)); [| | exact H]; [done |].
  intros w s w' _ (H1 & H2 & H3) (K1 & K2 & K3)%compile_service_keeps. by rewrite K1, K2, K3.
Qed.

(** The package of the server is that of the files compiled so far. *)
Definition consistent (request : CodeGeneratorRequest) (descriptors : DescriptorMap) (wf : WitFile) : Prop :=
  match w_package (server_world wf) with
  | None => types_interfaces wf = ∅ /\ types_compiled wf = ∅
  | Some server => exists es, compiled_as request descriptors server wf es
  end.

Lemma compile_file_keeps request descriptors wf filename wf' :
  build (proto_file request) = Done descriptors -> filename ∈ file_to_generate request ->
  consistent request descriptors wf -> compile_file unicode descriptors wf filename = Done wf' ->
  consistent request descriptors wf' /\ types_compiled wf ⊆ types_compiled wf'
  /\ exists f syntax, files descriptors !! filename = Some (f, syntax)
      /\ w_package (server_world wf') = Some (file_package f)
      /\ forall m, m ∈ f_message_type f -> top_type f m ∈ types_compiled wf'.
Proof.
  intros Hb Hin Hc H. unfold compile_file, get_file in H. apply obind_done in H as ([f syntax] & Hf & H).
  destruct (files descriptors !! filename) as [[f' s']|] eqn:Ef; [|done]. injection Hf as -> ->.
  apply obind_done in H as ([package wf1] & Hset & H). unfold set_or_check_server_package in Hset.
  fold (file_package f) in Hset. case_decide as Hpk; [|done]. injection Hset as <- <-. rewrite <- Hpk in H.
  apply obind_done in H as (wf2 & (Hp2 & Hi2 & Hc2)%compile_services_keep & H). simpl in *.
  pose proof (build_spec _ _ Hb) as (_ & _ & _ & Hfiles). destruct (Hfiles _ _ _ Ef) as [Hpf Hsyn].
  assert (exists es, compiled_as request descriptors (file_package f) wf2 es) as [es Hes].
  { unfold consistent in Hc. destruct (w_package (server_world wf)) as [p|].
    - simpl in Hpk. subst p. destruct Hc as [es [? ? ? ? ?]]. exists es. split; rewrite ?Hi2, ?Hc2; done.
    - destruct Hc as [E1 E2]. exists []. split; rewrite ?Hi2, ?Hc2, ?E1, ?E2; done || constructor. }
  eapply compile_messages in H as (Hw & Hsub & Hes' & Htop); [| exact Hb | exact Hpf | exact Hsyn | exists filename, syntax; done | exact Hp2 | exact Hes].
  rewrite Hc2 in Hsub. split_and!; [| done |].
  - unfold consistent. by rewrite Hw, Hp2.
  - exists f, syntax. by rewrite Hw.
Qed.

Lemma compile_files_consistent request descriptors wf : build (proto_file request) = Done descriptors ->
  compile_files unicode request = Done wf -> consistent request descriptors wf.
Proof.
  intros Hb H. unfold compile_files in H. rewrite Hb in H. simpl in H.
  eapply (try_fold_done _ (consistent request descriptors)); [| | exact H]; [done |].
  intros w filename w' Hin Hw Hc. exact (proj1 (compile_file_keeps _ _ _ _ _ Hb Hin Hw Hc)).
Qed.

(** Every file has been compiled, under the one package. *)
Lemma compile_files_all request descriptors wf filename : build (proto_file request) = Done descriptors ->
  compile_files unicode request = Done wf -> filename ∈ file_to_generate request ->
  exists f syntax, files descriptors !! filename = Some (f, syntax)
    /\ w_package (server_world wf) = Some (file_package f)
    /\ forall m, m ∈ f_message_type f -> top_type f m ∈ types_compiled wf.
Proof.
  intros Hb H Hin. unfold compile_files in H. rewrite Hb in H. simpl in H.
  refine (try_fold_turn _ (consistent request descriptors)
    (fun w => exists f syntax, files descriptors !! filename = Some (f, syntax)
       /\ w_package (server_world w) = Some (file_package f) /\ forall m, m ∈ f_message_type f -> top_type f m ∈ types_compiled w)
    (file_to_generate request) _ _ filename _ _ _ Hin H); [done | |].
  - intros w g w' Hg Hw Hc. destruct (compile_file_keeps _ _ _ _ _ Hb Hg Hw Hc) as (Hw' & Hsub & f' & s' & Ef' & Hp' & _).
    split; [done |]. intros (f & s & Ef & Hp & Ht). exists f, s. split_and!; [done | | set_solver].
    unfold compile_file, get_file in Hc. rewrite Ef' in Hc. simpl in Hc.
    apply obind_done in Hc as ([] & Hset & _). unfold set_or_check_server_package in Hset. rewrite Hp in Hset. simpl in Hset.
    case_decide as E; [|done]. rewrite Hp'. unfold file_package at 1. by rewrite E.
  - intros w w' Hw Hc. exact (proj2 (proj2 (compile_file_keeps _ _ _ _ _ Hb Hin Hw Hc))).
Qed.

Lemma types_are_defined request descriptors wf :
  build (proto_file request) = Done descriptors -> compile_files unicode request = Done wf ->
  exists server es,
    Forall (fun e => defines request descriptors server (en_name e) (en_def e) (en_uses e)
                     /\ needed request descriptors server (en_name e)) es
    /\ NoDup (en_name <$> es) /\ types_compiled wf = list_to_set (en_name <$> es)
    /\ (forall e n, e ∈ es -> n ∈ en_uses e -> n ∈ en_name <$> es)
    /\ (forall f m, generated request descriptors f -> m ∈ f_message_type f -> top_type f m ∈ en_name <$> es)
    /\ forall q, types_interfaces wf !! q =
         match entries_at q es with
         | [] => None
         | es' => Some (mkTypesInterface (en_def <$> es') (list_to_set (es' ≫= en_uses)))
         end.
Proof.
  intros Hb H. pose proof (compile_files_consistent _ _ _ Hb H) as Hc.
  assert (Htop : forall f m, generated request descriptors f -> m ∈ f_message_type f -> top_type f m ∈ types_compiled wf).
  { intros f m (filename & syntax & Hin & Ef) Hm. destruct (compile_files_all _ _ _ _ Hb H Hin) as (f' & s' & Ef' & _ & Ht).
    rewrite Ef in Ef'. injection Ef' as <- <-. auto. }
  unfold consistent in Hc. destruct (w_package (server_world wf)) as [server|].
  - destruct Hc as [es [H1 H2 H3 H4 H5]]. exists server, es. rewrite H2 in Htop. setoid_rewrite elem_of_list_to_set in Htop.
    rewrite Forall_forall in H5. split_and!; [done..| | done |].
    + intros e n He Hn. specialize (H5 e He n Hn). rewrite H2 in H5. by apply elem_of_list_to_set in H5.
    + intros q. rewrite H1. apply interfaces_of_lookup.
  - destruct Hc as [H1 H2]. exists [], []. rewrite H2 in *. split_and!; [constructor | constructor | done | by intros ? ? ?%not_elem_of_nil | | ].
    + intros f m Hf Hm. by specialize (Htop f m Hf Hm) as ?%not_elem_of_empty.
    + intros q. rewrite H1. apply lookup_empty.
Qed.

End Spec.
