(* ===== verification/WitTotal.v ===== *)
(** * The compiler returns

    Compiling a request panics in one case only, and its recursion through the fields of
    messages ends; the output does not depend on the order hash maps and sets are iterated
    in. *)

From S2P Require Import Prelude Ordering Descriptors DescriptorsSpec Wit WitSpec.

(** ** Requests whose paths have no empty parts *)
Definition proper_field (f : FieldDescriptorProto) : bool :=
  negb (names_type f) || proper_path (str_or_default (fd_type_name f)).
Fixpoint proper_message (d : DescriptorProto) : bool :=
  match d with mkMessage _ field nested_type _ => forallb proper_field field && forallb proper_message nested_type end.
Definition proper_method (m : MethodDescriptorProto) : bool :=
  proper_path (str_or_default (m_input_type m)) && proper_path (str_or_default (m_output_type m)).
Definition proper_request (request : CodeGeneratorRequest) : bool :=
  forallb (fun f => forallb proper_message (f_message_type f)
                    && forallb (fun s => forallb proper_method (sv_method s)) (f_service f)) (proto_file request).

Lemma proper_in_message q s d n d' s' : in_message q s d n d' s' -> proper_message d = true -> forallb proper_field (d_field d') = true.
Proof.
  induction 1 as [q syntax [name field nt et]|q syntax [name field nt et] m n d' s' Hm _ IH]; simpl;
    intros [Hf Hn]%andb_true_iff; [done |].
  apply IH. by eapply forallb_elem_of.
Qed.

Section Total.
Context {HK : Heck} (unicode : str -> bool).

Section Request.
Context (request : CodeGeneratorRequest) (descriptors : DescriptorMap).
Context (Hbuild : build (proto_file request) = Done descriptors) (Hproper : proper_request request = true).

Lemma proper_declared n d s f : declared request n d s -> f ∈ d_field d -> proper_field f = true.
Proof.
  intros (file & Hf & syntax & m & _ & Hm & Hd) Hin.
  pose proof (forallb_elem_of _ _ _ Hproper Hf) as [Hp _]%andb_true_iff.
  eapply forallb_elem_of; [|exact Hin]. eapply proper_in_message; [exact Hd|]. by eapply forallb_elem_of.
Qed.

Lemma message_type_definition_no_crash wf p d name s c :
  w_package (server_world wf) = Some p -> forallb proper_field (d_field d) = true ->
  message_type_definition unicode wf d name s <> Crash c.
Proof.
  intros Hp Hd H. unfold message_type_definition in H. apply obind_crash in H as [H|([] & _ & H)]; [|done].
  refine (try_fold_no_crash _ (fun _ => True) _ _ _ Logic.I _ H). intros [fs used] f Hf _. split; [|done].
  intros Hc. apply obind_crash in Hc as [Hc|([t u] & _ & Hc)].
  - pose proof (forallb_elem_of _ _ _ Hd Hf) as Hpf. unfold proper_field, names_type in Hpf.
    unfold unlabelled_type, server_package in Hc. rewrite Hp in Hc.
    destruct (type_or_default f); try discriminate Hc; simpl in Hpf, Hc;
      apply obind_crash in Hc as [Hc|(t & _ & Hc)]; try discriminate Hc; by apply from_path_no_crash in Hc.
  - apply obind_crash in Hc as [Hc|(t' & _ & Hc)]; [|done]. unfold labelled_type in Hc.
    destruct (label_or_default f); repeat case_match; discriminate Hc.
Qed.

(** ** The depth of the recursion *)
(** The types that are not compiled yet. *)
Definition uncompiled (wf : WitFile) : nat := size (dom (messages descriptors) ∖ types_compiled wf).

Lemma todo_mono wf wf' : types_compiled wf ⊆ types_compiled wf' -> (uncompiled wf' <= uncompiled wf)%nat.
Proof. intros H. unfold uncompiled. apply subseteq_size. set_solver. Qed.

Lemma todo_mark wf n d s : declared request n d s -> n ∉ types_compiled wf -> (uncompiled (mark_compiled wf n) < uncompiled wf)%nat.
Proof.
  intros (f & Hf & Hd) Hn. unfold uncompiled. apply subset_size. simpl.
  pose proof (build_spec _ _ Hbuild) as (_ & Hall & _). pose proof (Hall _ _ _ _ Hf Hd) as Hk%elem_of_dom. set_solver.
Qed.

Lemma compile_message_no_crash server fuel : forall wf d q s c,
  declared request (type_in q (str_or_default (d_name d))) d s -> w_package (server_world wf) = Some server ->
  (uncompiled wf < fuel)%nat -> compile_message unicode fuel descriptors wf d q s <> Crash c.
Proof.
  induction fuel as [|fuel IH]; intros wf d q s c Hd Hp Hlt; [lia |]. simpl.
  set (n := type_in q (str_or_default (d_name d))) in *. case_decide as Hc; [done |]. intros H.
  pose proof (todo_mark _ _ _ _ Hd Hc) as Htodo. set (wf1 := mark_compiled wf n) in *.
  apply obind_crash in H as [H|([def uses] & _ & H)].
  { eapply message_type_definition_no_crash in H; [done | exact Hp |].
    apply forallb_iff. intros f Hf. by eapply proper_declared. }
  apply obind_crash in H as [H|(wf2 & _ & H)]; [|done].
  refine (try_fold_no_crash _ (fun w => w_package (server_world w) = Some server /\ types_compiled wf1 ⊆ types_compiled w) _ _ _ _ _ H);
    [done |].
  intros w t _ [Hpw Hsub]. pose proof (todo_mono _ _ Hsub). unfold get_message, get_enum.
  destruct (messages descriptors !! t) as [[d' s']|] eqn:Ed.
  - pose proof (build_spec _ _ Hbuild) as (Hm & _). destruct (Hm _ _ _ Ed) as (f & Hf & Hdt).
    assert (Hdt' : declared request t d' s') by by exists f.
    assert (E : type_in (qualifier t) (str_or_default (d_name d')) = t).
    { rewrite <- (declared_name _ _ _ _ Hdt'). by destruct t. }
    rewrite <- E in Hdt'. split; [apply IH; [done | done | lia]|]. intros w' Hb.
    destruct (compile_message_grows unicode request descriptors server Hbuild (fun _ => True) fuel
                (fun _ _ _ _ _ _ _ => Logic.I) w w' d' _ s' Hdt' Logic.I Hpw Hb) as (es & G & _).
    rewrite (g_world _ _ _ _ _ _ _ _ G). pose proof (grows_mono _ _ _ _ Hbuild _ _ _ _ G). split; [done | set_solver].
  - destruct (enums descriptors !! t) as [e|] eqn:Ee; [|done]. split; [done |]. intros w' [= <-].
    destruct (compile_enum_grows unicode request descriptors server Hbuild (fun _ => True) w e t Ee Logic.I) as (es & G & _).
    rewrite (g_world _ _ _ _ _ _ _ _ G). pose proof (grows_mono _ _ _ _ Hbuild _ _ _ _ G). split; [done | set_solver].
Qed.

(** ** Services and files *)
Lemma compile_service_no_crash wf s p c : w_package (server_world wf) = Some p ->
  forallb proper_method (sv_method s) = true -> compile_service unicode wf s <> Crash c.
Proof.
  intros Hp Hs H. unfold compile_service in H. apply obind_crash in H as [H|([] & _ & H)]; [|done].
  refine (try_fold_no_crash _ (fun _ => True) _ _ _ Logic.I _ H). intros [items used] m Hm _. split; [|done].
  pose proof (forallb_elem_of _ _ _ Hs Hm) as [Hi Ho]%andb_true_iff.
  intros Hc. apply obind_crash in Hc as [Hc|([] & _ & Hc)]; [|done]. unfold compile_method, server_package in Hc. rewrite Hp in Hc.
  simpl in Hc. apply obind_crash in Hc as [Hc|(t & _ & Hc)]; [by apply from_path_no_crash in Hc|].
  apply obind_crash in Hc as [Hc|(t' & _ & Hc)]; [by apply from_path_no_crash in Hc | done].
Qed.

Lemma todo_depth wf : (uncompiled wf < depth descriptors)%nat.
Proof. unfold uncompiled, depth. rewrite <- size_dom. apply Nat.lt_succ_r, subseteq_size. set_solver. Qed.
#[local] Opaque depth.

Lemma compile_file_no_crash wf filename c :
  filename ∈ file_to_generate request -> compile_file unicode descriptors wf filename <> Crash c.
Proof.
  intros Hin H. unfold compile_file, get_file in H. destruct (files descriptors !! filename) as [[f syntax]|] eqn:Ef; simpl in H; [|done].
  pose proof (build_spec _ _ Hbuild) as (_ & _ & _ & Hfiles). destruct (Hfiles _ _ _ Ef) as [Hpf Hsyn].
  pose proof (forallb_elem_of _ _ _ Hproper Hpf) as [_ Hsv]%andb_true_iff.
  apply obind_crash in H as [H|([package wf1] & Hset & H)]; [unfold set_or_check_server_package in H; by case_decide|].
  assert (Hp1 : w_package (server_world wf1) = Some (file_package f) /\ package = file_package f).
  { unfold set_or_check_server_package in Hset. case_decide as E; [|done]. injection Hset as <- <-. simpl. by rewrite <- E. }
  destruct Hp1 as [Hp1 ->].
  apply obind_crash in H as [H|(wf2 & Hr & H)].
  - refine (try_fold_no_crash _ (fun w => w_package (server_world w) = Some (file_package f)) _ _ _ Hp1 _ H).
    intros w s Hs Hw. split; [eapply compile_service_no_crash; [exact Hw | exact (forallb_elem_of _ _ _ Hsv Hs)]|].
    intros w' (E & _)%compile_service_keeps. congruence.
  - apply compile_services_keep in Hr as (Hp2 & _). rewrite Hp1 in Hp2.
    refine (try_fold_no_crash _ (fun w => w_package (server_world w) = Some (file_package f)) _ _ _ Hp2 _ H).
    intros w m Hm Hw.
    assert (Hd : declared request (top_type f m) m syntax).
    { exists f. split; [done |]. exists syntax, m. split_and!; [done..| constructor]. }
    split; [eapply compile_message_no_crash; [exact Hd | exact Hw | apply todo_depth]|]. intros w' Hb.
    destruct (compile_message_grows unicode request descriptors _ Hbuild (fun _ => True) _
                (fun _ _ _ _ _ _ _ => Logic.I) _ _ _ _ _ Hd Logic.I Hw Hb) as (es & G & _).
    by rewrite (g_world _ _ _ _ _ _ _ _ G).
Qed.
End Request.

Lemma build_no_crash fs c : build fs <> Crash c.
Proof.
  intros H. refine (try_fold_no_crash insert_file (fun _ => True) _ _ _ Logic.I _ H). intros m f _ _. split; [|done].
  intros Hc. unfold insert_file, file_syntax in Hc. apply obind_crash in Hc as [Hc|(s & _ & Hc)]; [|done].
  repeat case_match; discriminate Hc.
Qed.

(** C10. Compiling returns: the recursion through the types of fields ends, and, of a request
    whose paths have no empty parts, only one without a file to generate makes the compiler
    panic. *)
Theorem compile_returns {E : WitEncoder} {HO : HashOrder} request c :
  proper_request request = true ->
  (compile unicode request = Crash c <->
   c = Panicked /\ file_to_generate request = [] /\ exists descriptors, build (proto_file request) = Done descriptors).
Proof.
  intros Hp. unfold compile, compile_files. destruct (build (proto_file request)) as [descriptors|e|c'] eqn:Hb; simpl.
  - destruct (file_to_generate request) as [|filename l] eqn:El.
    + simpl. split; [|by intros (-> & _)]. intros [= <-]. eauto.
    + split; [|by intros (_ & ? & _)]. intros H. exfalso.
      apply obind_crash in H as [H|(wf & H & Hg)].
      * refine (try_fold_no_crash _ (fun _ => True) _ _ _ Logic.I _ H). intros wf g Hin _. split; [|done].
        eapply compile_file_no_crash; [done | done |]. by rewrite El.
      * destruct (compile_files_all unicode request descriptors wf filename Hb) as (f & s & _ & Hpk & _);
          [unfold compile_files; by rewrite Hb, El | rewrite El; by left |].
        unfold generate, server_packages, server_package_name, server_package_qualifier, server_package in Hg.
        by rewrite Hpk in Hg.
  - split; [done | by intros (_ & _ & ? & ?)].
  - by apply build_no_crash in Hb.
Qed.

(** C12. The output does not depend on the order in which hash maps and hash sets are
    iterated. *)
Theorem output_deterministic {E : WitEncoder} (HO1 HO2 : HashOrder) request :
  @HashOrderLaws HO1 -> @HashOrderLaws HO2 ->
  compile (HO := HO1) unicode request = compile (HO := HO2) unicode request.
Proof.
  intros L1 L2. unfold compile. destruct (compile_files unicode request) as [wf| |]; simpl; [|done..].
  unfold generate, server_packages. destruct (server_package_name wf) as [name| |]; simpl; [|done..].
  destruct (server_package_qualifier wf) as [q| |]; simpl; [|done..].
  assert (Hi : forall i, into_interface (HO := HO1) i = into_interface (HO := HO2) i).
  { intros i. unfold into_interface. by rewrite !sorted_set_values_eq. }
  unfold into_world. rewrite !sorted_set_values_eq, !sorted_map_entries_eq.
  assert (Hn : forall l : list (TypeNameQualifier * TypesInterface),
    (fun '(q, i) => into_nested_package (HO := HO1) i q) <$> l = (fun '(q, i) => into_nested_package (HO := HO2) i q) <$> l).
  { intros l. apply list_fmap_ext. intros _ [q' i] _. unfold into_nested_package. by rewrite Hi. }
  rewrite Hn. destruct (types_interfaces wf !! q) as [i|]; [by rewrite Hi | done].
Qed.
End Total.
