(* ===== verification/WitRuns.v ===== *)
(** * Runs of the compiler

    The compiler on a file of the test suite, and the witnesses of [WitSpec], [WitTotal] and
    [DescriptorsSpec]; then two kinds of requests it does not serve. *)

From S2P Require Import Prelude Ordering Descriptors DescriptorsSpec Wit WitSpec WitTotal.


(** ** A library for the examples *)
(** ASCII names in kebab case: a dash for every underscore, and before an uppercase letter that
    follows a lowercase one, or that a lowercase one follows. *)
Definition upper (b : byte) : bool := (65 <=? Z_of_byte b) && (Z_of_byte b <=? 90).
Definition lower (b : byte) : byte := if upper b then byte_of_Z (Z_of_byte b + 32) else b.
Definition is_lower (b : option byte) : bool :=
  match b with Some b => (97 <=? Z_of_byte b) && (Z_of_byte b <=? 122) | None => false end.
Fixpoint kebab (previous : option byte) (s : str) : str :=
  match s with
  | [] => []
  | b :: s' =>
      if decide (b = x5f) then x2d :: kebab None s'
      else (if upper b && (is_lower previous || (bool_decide (is_Some previous) && is_lower (head s')))
            then [x2d; lower b] else [lower b]) ++ kebab (Some b) s'
  end.
#[local] Instance example_heck : Heck := {| to_kebab_case := kebab None |}.
(** A printer that writes the name of a package only. *)
#[local] Instance example_encoder : WitEncoder := {|
  Package_to_string p := namespace (pk_name p) ++ COLON ++ pname (pk_name p);
  NestedPackage_to_string p := namespace (np_name p) ++ COLON ++ pname (np_name p);
|}.
Definition ascii_only : str -> bool := fun _ => false.

Definition fd name label ty type_name := mkFieldDescriptor (Some (lit name)) (Some label) (Some ty) type_name None.

(** ** [tests/data/compound-types.proto] *)
Section CompoundTypes.

Let pkg := [lit "foo"; lit "bar_baz"; lit "quux"].
Let friend := mkEnum (Some (lit "Friend"))
  ((fun v => mkEnumValue (Some v)) <$> [lit "MYSELF"; lit "ALYSSA"; lit "BEN"; lit "CY"; lit "EVA"; lit "LEM"; lit "LOUIS"]).
Let empty_message := mkMessage (Some (lit "EmptyMessage")) [] [] [].
Let a_container := mkMessage (Some (lit "AContainer")) [] [empty_message] [].
Let inner_message := mkMessage (Some (lit "InnerMessage"))
  [fd "another_layer" 1 11 (Some (lit ".foo.bar_baz.quux.InnerMessage.AContainer.EmptyMessage"))] [a_container] [].
Let outer_message := mkMessage (Some (lit "OuterMessage"))
  [fd "inner" 1 11 (Some (lit ".foo.bar_baz.quux.InnerMessage"));
   fd "one" 1 8 None;
   fd "the_other" 1 11 (Some (lit ".foo.bar_baz.quux.InnerMessage"));
   fd "a_third" 3 14 (Some (lit ".foo.bar_baz.quux.Friend"))] [] [].
Let service := mkService (Some (lit "CompoundTypesService"))
  [mkMethod (Some (lit "DoAThing")) (Some (lit ".foo.bar_baz.quux.OuterMessage")) (Some (lit ".foo.bar_baz.quux.InnerMessage"))].
Definition compound_types : CodeGeneratorRequest :=
  mkRequest [lit "compound-types.proto"]
    [mkFileDescriptor (Some (lit "compound-types.proto")) (Some (lit "foo.bar_baz.quux"))
       [outer_message; inner_message] [friend] [service] (Some (lit "proto3"))].

Let self := lit "foo:bar-baz:quux:proto/types".

(** What [compound-types.wit] prints. *)
Example compound_types_packages :
  (let? wf := compile_files ascii_only compound_types in server_packages wf) =
  Done
    (mkPackage (mkPackageName (lit "foo:bar-baz:quux") (lit "proto"))
       [PackageWorld (mkWitWorld (lit "server")
          [WorldInclude (lit "wasi:cli/imports@0.2.0");
           WorldInclude (lit "vimana:grpc/imports@0.0.0");
           WorldUse self (lit "inner-message");
           WorldUse self (lit "outer-message");
           InlineInterfaceExport (mkInterface (lit "compound-types-service")
             [InterfaceFunction (mkFunc (lit "do-a-thing") (lit "request", Named (lit "outer-message"))
                                   (Some (Named (lit "inner-message"))))])]);
        PackageInterface (mkInterface (lit "types")
          [InterfaceUse self (lit "friend");
           InterfaceUse self (lit "inner-message");
           InterfaceUse (lit "foo:bar-baz:quux:proto/inner-message/a-container/types") (lit "empty-message");
           InterfaceTypeDef (mkTypeDef (lit "inner-message")
             (KRecord [mkWitField (lit "another-layer") (Named (lit "empty-message"))]));
           InterfaceTypeDef (mkTypeDef (lit "friend") (KEnum [lit "myself"; lit "alyssa"; lit "ben"; lit "cy"; lit "eva"; lit "lem"; lit "louis"]));
           InterfaceTypeDef (mkTypeDef (lit "outer-message")
             (KRecord [mkWitField (lit "inner") (Named (lit "inner-message"));
                       mkWitField (lit "one") TyBool;
                       mkWitField (lit "the-other") (Named (lit "inner-message"));
                       mkWitField (lit "a-third") (TyList (Named (lit "friend")))]))])],
     [mkNestedPackage (mkPackageName (lit "foo:bar-baz:quux") (lit "proto/inner-message/a-container"))
        [mkInterface (lit "types") [InterfaceTypeDef (mkTypeDef (lit "empty-message") (KRecord []))]]]).
Proof. vm_compute. reflexivity. Qed.
End CompoundTypes.

(** ** Files without a package *)
Lemma enum_package f n e : declares_enum f n e -> package (qualifier n) = file_package f.
Proof.
  intros [[_ ->]|(m & _ & n' & d' & s & s' & H & _ & ->)]; [done |]. simpl. by apply in_message_package in H.
Qed.

(** Without a package, messages find nothing: when no file of a request has a package, a
    message of a file to generate with a field of a message or enumeration type, which [protoc]
    writes as a path from the root, makes compiling fail. *)
Theorem packageless_types_not_found {HK : Heck} unicode request descriptors f m field wf :
  (forall f, f ∈ proto_file request -> str_or_default (f_package f) = []) -> distinct request ->
  build (proto_file request) = Done descriptors -> generated request descriptors f ->
  m ∈ f_message_type f -> field ∈ d_field m -> names_type field = true ->
  head (str_or_default (fd_type_name field)) = Some DOT ->
  compile_files unicode request <> Done wf.
Proof.
  intros Hpk [Hd Hd'] Hb Hg Hm Hfield Hnames Hhead H.
  destruct (types_are_defined unicode request descriptors wf Hb H) as (server & es & Hes & _ & _ & _ & Htop & _).
  destruct (build_spec _ _ Hb) as (Hs & _ & He & Hfiles).
  pose proof (Htop f m Hg Hm) as (e & Hn & Hin)%list_elem_of_fmap.
  rewrite Forall_forall in Hes. destruct (Hes e Hin) as [Hdef _].
  destruct Hg as (filename & syntax & _ & Ef). destruct (Hfiles _ _ _ Ef) as [Hf Hsyn].
  assert (Hdm : declared request (top_type f m) m syntax).
  { exists f. split; [done |]. exists syntax, m. split_and!; [done..| constructor]. }
  rewrite Hn in Hdm. destruct Hdef as [n d s def uses Hdn Hdef Hk|g n d Hg Hdn]; [|exact (Hd' _ _ _ _ _ Hg Hdn Hdm)].
  destruct (Hd _ _ _ _ _ Hdm Hdn) as [-> _]. apply message_fields in Hdef as (ws & _ & Hws).
  apply list_elem_of_lookup in Hfield as [i Hi].
  destruct (Forall2_lookup_l _ _ _ _ _ Hws Hi) as (w & _ & t & used & Ht & _ & _ & Hsub).
  unfold unlabelled_type in Ht. unfold names_type in Hnames.
  assert (exists n', from_path unicode (str_or_default (fd_type_name field)) server = Done n' /\ n' ∈ uses) as (n' & Hn' & Hu).
  { destruct (type_or_default field); try discriminate Hnames; simpl in Ht; apply obind_done in Ht as (n' & Hn' & [= <- <-]);
      exists n'; split; [done | set_solver | done | set_solver]. }
  pose proof (from_path_package _ _ _ _ Hhead Hn') as Hp. apply Hp. rewrite Forall_forall in Hk.
  destruct (Hk n' Hu) as [[[d1 s1] E]|[e1 E]].
  - destruct (Hs _ _ _ E) as (g & Hg & s2 & m2 & _ & _ & Hi2%in_message_package). rewrite Hi2. simpl.
    unfold file_package. by rewrite (Hpk g Hg).
  - destruct (He _ _ E) as (g & Hg & Hi2%enum_package). rewrite Hi2. unfold file_package. by rewrite (Hpk g Hg).
Qed.

(** ** Witnesses *)
(** A request, compiled. *)
Definition succeeds {E A} (o : outcome E A) : bool := match o with Done _ => true | _ => false end.
Definition result {E A} (d : A) (o : outcome E A) : A := match o with Done a => a | _ => d end.

Lemma succeeds_result {E A} (d : A) (o : outcome E A) : succeeds o = true -> o = Done (result d o).
Proof. by destruct o. Qed.

Definition descriptors_of (request : CodeGeneratorRequest) : DescriptorMap :=
  result (mkDescriptors ∅ ∅ ∅) (build (proto_file request)).
Definition compiled_of (request : CodeGeneratorRequest) : WitFile :=
  result WitFile_default (compile_files ascii_only request).

Lemma compound_types_build : build (proto_file compound_types) = Done (descriptors_of compound_types).
Proof. apply succeeds_result. vm_compute. reflexivity. Qed.
Lemma compound_types_compile : compile_files ascii_only compound_types = Done (compiled_of compound_types).
Proof. apply succeeds_result. vm_compute. reflexivity. Qed.

Lemma compound_types_distinct : distinct compound_types.
Proof.
  apply distinct_names.
  - apply (bool_decide_unpack _). vm_compute. exact Logic.I.
  - apply Forall_forall. apply (bool_decide_unpack _). vm_compute. exact Logic.I.
Qed.

Definition empty_message_name : QualifiedTypeName :=
  mkName (mkQualifier [lit "foo"; lit "bar_baz"; lit "quux"] [lit "InnerMessage"; lit "AContainer"]) (lit "EmptyMessage").


Lemma empty_message_declared : declared compound_types empty_message_name (mkMessage (Some (lit "EmptyMessage")) [] [] []) Proto3.
Proof.
  eexists. split; [by left|]. eexists _, _. split; [reflexivity|]. split; [right; by left|].
  eapply in_message_nested; [by left |]. eapply in_message_nested; [by left |]. constructor.
Qed.


Lemma compile_returns_witness : compile ascii_only compound_types <> Crash FuelExhausted.
Proof.
  intros H. apply (compile_returns ascii_only compound_types FuelExhausted) in H; [|vm_compute; reflexivity].
  destruct H as [E _]. discriminate E.
Defined.

(** Another order of iteration. *)
Definition reverse_order : HashOrder := {|
  set_values A _ _ s := reverse (elements s);
  map_entries K V _ _ m := reverse (map_to_list m);
|}.
Lemma reverse_order_laws : @HashOrderLaws reverse_order.
Proof. split; intros; apply reverse_Permutation. Qed.

Lemma output_deterministic_witness :
  compile (HO := reverse_order) ascii_only compound_types = compile (HO := insertion_order) ascii_only compound_types.
Proof. apply (output_deterministic ascii_only); [apply reverse_order_laws | apply insertion_order_laws]. Defined.

(** A message that holds another, in a file without a package. *)
Definition packageless : CodeGeneratorRequest :=
  mkRequest [lit "a.proto"]
    [mkFileDescriptor (Some (lit "a.proto")) None
       [mkMessage (Some (lit "Outer")) [fd "inner" 3 11 (Some (lit ".Inner"))] [] [];
        mkMessage (Some (lit "Inner")) [] [] []] [] [] (Some (lit "proto3"))].

Lemma packageless_types_not_found_witness : forall wf, compile_files ascii_only packageless <> Done wf.
Proof.
  intros wf. eapply (packageless_types_not_found ascii_only packageless (descriptors_of packageless)).
  - intros f [->|Hf%not_elem_of_nil]%elem_of_cons; [reflexivity | destruct Hf].
  - apply distinct_names; [apply (bool_decide_unpack _); vm_compute; exact Logic.I |].
    apply Forall_forall, (bool_decide_unpack _). vm_compute. exact Logic.I.
  - apply succeeds_result. vm_compute. reflexivity.
  - eexists (lit "a.proto"), Proto3. split; [by left | vm_compute; reflexivity].
  - by left.
  - by left.
  - reflexivity.
  - reflexivity.
Defined.

(** ** The types of methods *)
Definition empty_name : QualifiedTypeName := mkName (mkQualifier [lit "google"; lit "protobuf"] []) (lit "Empty").
(** A service that answers with [google.protobuf.Empty]. *)
Definition imports_empty : CodeGeneratorRequest :=
  mkRequest [lit "a.proto"]
    [mkFileDescriptor (Some (lit "google/protobuf/empty.proto")) (Some (lit "google.protobuf"))
       [mkMessage (Some (lit "Empty")) [] [] []] [] [] (Some (lit "proto3"));
     mkFileDescriptor (Some (lit "a.proto")) (Some (lit "demo")) [mkMessage (Some (lit "Request")) [] [] []] []
       [mkService (Some (lit "Demo"))
          [mkMethod (Some (lit "Go")) (Some (lit ".demo.Request")) (Some (lit ".google.protobuf.Empty"))]]
       (Some (lit "proto3"))].

(** The types of methods are not compiled: a service that answers with a type of an imported
    file compiles, and its world uses the type, which no interface of the file defines. *)
Theorem method_types_undefined : exists wf,
  compile_files ascii_only imports_empty = Done wf
  /\ distinct imports_empty /\ declared imports_empty empty_name (mkMessage (Some (lit "Empty")) [] [] []) Proto3
  /\ empty_name ∈ w_types_used (server_world wf)
  /\ empty_name ∉ types_compiled wf /\ types_interfaces wf !! qualifier empty_name = None.
Proof.
  exists (compiled_of imports_empty). split; [apply succeeds_result; vm_compute; reflexivity|]. split.
  { apply distinct_names; [apply (bool_decide_unpack _); vm_compute; exact Logic.I |].
    apply Forall_forall, (bool_decide_unpack _). vm_compute. exact Logic.I. }
  split.
  { eexists. split; [by left|]. eexists _, _. split; [reflexivity|]. split; [by left | constructor]. }
  split_and!; [apply (bool_decide_unpack _); vm_compute; exact Logic.I.. | vm_compute; reflexivity].
Qed.
