(* ===== verification/WitCodec.v ===== *)
(** * The types of the compiler and those of the codec

    The component implements the WIT the compiler writes; the daemon hands it the values the
    decoder makes of a request.  Where the metadata of a message codes its fields as
    [metadata.proto] documents, the two agree: on every field but a message that is neither
    repeated nor of proto2. *)

From S2P Require Import Prelude Prost Descriptors DescriptorsSpec Wit WitSpec WitRuns Wire Typing DecodeLib DecodeScalar DecodeCompound DecodeSpec.

(** ** The values of a WIT type *)
Fixpoint inhabits (named : str -> Val -> Prop) (t : WitType) (v : Val) : Prop :=
  match t with
  | F64 => match v with VFloat64 z => u_range 64 z | _ => False end
  | F32 => match v with VFloat32 z => u_range 32 z | _ => False end
  | S64 => match v with VS64 z => i_range 64 z | _ => False end
  | U64 => match v with VU64 z => u_range 64 z | _ => False end
  | S32 => match v with VS32 z => i_range 32 z | _ => False end
  | U32 => match v with VU32 z => u_range 32 z | _ => False end
  | U8 => is_u8 v
  | TyBool => match v with VBool _ => True | _ => False end
  | TyString => match v with VString s => utf8_valid (string_bytes s) = true | _ => False end
  | Named name => named name v
  | TyList t => match v with VList items => Forall (inhabits named t) items | _ => False end
  | TyOption t => match v with VOption None => True | VOption (Some x) => inhabits named t x | _ => False end
  end.

Definition inhabits_record (named : str -> Val -> Prop) (ws : list WitField) (v : Val) : Prop :=
  match v with
  | VRecord fields => Forall2 (fun w p => string_bytes p.1 = wf_name w /\ inhabits named (wf_type w) p.2) ws fields
  | _ => False
  end.

(** ** The coding of a field *)
(** The Protobuf type that is coded as a scalar. *)
Definition proto_type_of (t : ScalarType) : ProtoType :=
  match t with
  | TBytes => PBytes
  | TStringUtf8 | TStringPermissive => PString
  | TBool => PBool
  | TInt32 => PInt32
  | TSint32 => PSint32
  | TSfixed32 => PSfixed32
  | TUint32 => PUint32
  | TFixed32 => PFixed32
  | TInt64 => PInt64
  | TSint64 => PSint64
  | TSfixed64 => PSfixed64
  | TUint64 => PUint64
  | TFixed64 => PFixed64
  | TFloat => PFloat
  | TDouble => PDouble
  end.

(** Implicit presence is proto3's, explicit presence proto2's or asked for. *)
Definition presence (f : FieldDescriptorProto) (syntax : ProtoSyntax) (r : Repetition) : Prop :=
  match r with
  | Implicit => label_or_default f = Optional /\ syntax <> Proto2 /\ proto3_optional f = false
  | Explicit => label_or_default f = Optional /\ (syntax = Proto2 \/ proto3_optional f = true)
  | Packed | Expanded => label_or_default f = Repeated
  end.

Definition enum_repetition (c : CompoundCoding) : option Repetition :=
  match c with
  | EnumImplicit => Some Implicit
  | EnumPacked => Some Packed
  | EnumExplicit => Some Explicit
  | EnumExpanded => Some Expanded
  | Message | MessageExpanded | Oneof => None
  end.

(** What [metadata.proto] documents for a field.  The presence of a message is explicit. *)
Inductive coded (f : FieldDescriptorProto) (syntax : ProtoSyntax) : Coding -> Prop :=
| coded_scalar c :
    type_or_default f = proto_type_of (scalar_shape c).1 -> presence f syntax (scalar_shape c).2 ->
    coded f syntax (ScalarCodingOf (scalar_coding_number c))
| coded_enum c r :
    type_or_default f = PEnum -> enum_repetition c = Some r -> presence f syntax r ->
    coded f syntax (CompoundCodingOf (compound_coding_number c))
| coded_message :
    type_or_default f = PMessage -> label_or_default f = Optional ->
    coded f syntax (CompoundCodingOf (compound_coding_number Message))
| coded_messages :
    type_or_default f = PMessage -> label_or_default f = Repeated ->
    coded f syntax (CompoundCodingOf (compound_coding_number MessageExpanded)).

(** What a field that is neither optional nor repeated would hold. *)
Definition base_typed (cd : Coding) (subs : list Field) (v : Val) : Prop :=
  match cd with
  | ScalarCodingOf n => match scalar_coding_try_from n with Some c => scalar_typed (scalar_shape c).1 v | None => False end
  | CompoundCodingOf n =>
      match compound_coding_try_from n with
      | Some (Message | MessageExpanded) => record_typed typed subs v
      | Some Oneof | None => False
      | Some _ => enum_typed subs v
      end
  end.

Definition permissive (cd : Coding) : bool :=
  match cd with
  | ScalarCodingOf n =>
      match scalar_coding_try_from n with
      | Some (StringPermissiveImplicit | StringPermissiveExplicit | StringPermissiveExpanded) => true
      | _ => false
      end
  | CompoundCodingOf _ => false
  end.

(** A message that is neither repeated nor optional in the WIT. *)
Definition singular_message (f : FieldDescriptorProto) (syntax : ProtoSyntax) : Prop :=
  type_or_default f = PMessage /\ label_or_default f = Optional /\ syntax <> Proto2 /\ proto3_optional f = false.

Section Agree.
Context {HK : Heck} (unicode : str -> bool) (named : str -> Val -> Prop).

Lemma labelled_agrees f syntax r t t' P : presence f syntax r -> labelled_type f syntax t = Done t' ->
  (forall v, inhabits named t v <-> P v) -> forall v, inhabits named t' v <-> rep_typed r P v.
Proof.
  intros Hr Ht HP v. unfold labelled_type in Ht.
  destruct r; simpl in Hr.
  - destruct Hr as (El & Hs & Ho). rewrite El, Ho, bool_decide_false in Ht by done. injection Ht as <-. apply HP.
  - rewrite Hr in Ht. injection Ht as <-. simpl. destruct v; try done. by apply Forall_iff.
  - destruct Hr as (El & Hr). rewrite El in Ht.
    replace (bool_decide (syntax = Proto2) || proto3_optional f) with true in Ht
      by (destruct Hr as [->| ->]; [done | by rewrite orb_true_r]).
    injection Ht as <-. simpl. destruct v; try done. by destruct o.
  - rewrite Hr in Ht. injection Ht as <-. simpl. destruct v; try done. by apply Forall_iff.
Qed.

Lemma wit_scalar_agrees wf f t used st : type_or_default f = proto_type_of st -> st <> TStringPermissive ->
  unlabelled_type unicode wf f = Done (t, used) -> forall v, inhabits named t v <-> scalar_typed st v.
Proof.
  intros Hf Hst Ht v. unfold unlabelled_type in Ht. rewrite Hf in Ht.
  destruct st; simpl in Ht; try done; injection Ht as <- _; by destruct v.
Qed.

Lemma field_agrees wf f syntax cd t0 used t n name subs :
  coded f syntax cd -> permissive cd = false -> ~ singular_message f syntax ->
  unlabelled_type unicode wf f = Done (t0, used) -> labelled_type f syntax t0 = Done t ->
  (forall k, t0 = Named k -> forall v, named k v <-> base_typed cd subs v) ->
  forall v, inhabits named t v <-> typed (mkField n name subs (Some cd)) v.
Proof.
  intros Hcd Hp Hm Ht0 Ht Hn.
  assert (Hnamed : names_type f = true -> exists k, t0 = Named k).
  { unfold names_type, unlabelled_type in *. intros Hty. destruct (type_or_default f); try done; simpl in Ht0;
      apply obind_done in Ht0 as (p & _ & Ht0); apply obind_done in Ht0 as (tn & _ & [= <- _]); eauto. }
  destruct Hcd as [c Hty Hr|c r Hty Hr Hpr|Hty Hl|Hty Hl].
  - simpl in Hp |- *. rewrite scalar_coding_try_from_number in *. eapply labelled_agrees; [exact Hr | exact Ht |].
    eapply wit_scalar_agrees; [exact Hty | by destruct c | exact Ht0].
  - destruct (Hnamed ltac:(unfold names_type; by rewrite Hty)) as [k ->].
    replace (typed (mkField n name subs (Some (CompoundCodingOf (compound_coding_number c)))))
      with (rep_typed r (enum_typed subs)) by (destruct c; simpl in Hr; try done; by injection Hr as <-).
    eapply labelled_agrees; [exact Hpr | exact Ht |]. intros v. rewrite (Hn k eq_refl v). by destruct c.
  - destruct (Hnamed ltac:(unfold names_type; by rewrite Hty)) as [k ->].
    change (typed (mkField n name subs (Some (CompoundCodingOf (compound_coding_number Message)))))
      with (rep_typed Explicit (record_typed typed subs)).
    eapply labelled_agrees; [|exact Ht | exact (Hn k eq_refl)]. split; [done |].
    destruct (decide (syntax = Proto2)); [by left | right]. destruct (proto3_optional f) eqn:E; [done |].
    by destruct Hm.
  - destruct (Hnamed ltac:(unfold names_type; by rewrite Hty)) as [k ->].
    change (typed (mkField n name subs (Some (CompoundCodingOf (compound_coding_number MessageExpanded)))))
      with (rep_typed Expanded (record_typed typed subs)).
    eapply labelled_agrees; [exact Hl | exact Ht | exact (Hn k eq_refl)].
Qed.
(** ** Records *)
(** The metadata of a field: its name in kebab case and its coding; [named] says what its type
    means where the field names one. *)
Definition metadata_of (wf : WitFile) (syntax : ProtoSyntax) (f : FieldDescriptorProto) (sf : Field) : Prop :=
  exists cd, coding sf = Some cd /\ coded f syntax cd /\ permissive cd = false
    /\ string_bytes (field_name sf) = to_kebab_case (str_or_default (fd_name f))
    /\ forall k used, unlabelled_type unicode wf f = Done (Named k, used) ->
         forall v, named k v <-> base_typed cd (subfields sf) v.

Lemma typed_record_lookup subs v : record_typed typed subs v ->
  exists fields, v = VRecord fields /\ Forall2 (fun sf p => p.1 = field_name sf /\ typed sf p.2) subs fields.
Proof. destruct v as [| | | | | | | | | |fields| | | | |]; try done. simpl. rewrite fields_typed_Forall2. eauto. Qed.

Lemma record_agrees wf d name syntax tn ws uses subs v :
  message_type_definition unicode wf d name syntax = Done (mkTypeDef tn (KRecord ws), uses) ->
  Forall2 (metadata_of wf syntax) (d_field d) subs -> Forall (fun f => ~ singular_message f syntax) (d_field d) ->
  record_typed typed subs v -> inhabits_record named ws v.
Proof.
  intros (ws' & [= _ <-] & Hws)%message_fields Hsubs Hsing (fields & -> & Hv)%typed_record_lookup. simpl.
  apply Forall2_same_length_lookup. split.
  - by rewrite <- (Forall2_length _ _ _ Hws), (Forall2_length _ _ _ Hsubs), (Forall2_length _ _ _ Hv).
  - intros i w p Hw Hp. destruct (Forall2_lookup_r _ _ _ _ _ Hws Hw) as (f & Hf & t & used & Ht & Ht' & Hname & _).
    destruct (Forall2_lookup_l _ _ _ _ _ Hsubs Hf) as (sf & Hsf & cd & Hcd & Hcoded & Hperm & Hsn & Hnamed).
    destruct (Forall2_lookup_l _ _ _ _ _ Hv Hsf) as (p' & Hp' & Hpn & Hpt). rewrite Hp in Hp'. injection Hp' as <-.
    split; [by rewrite Hpn, Hsn, Hname |]. destruct sf as [n sn ss scd]. simpl in *. subst scd.
    apply (field_agrees wf f syntax cd t used (wf_type w) n sn ss); [done | done | | done | done | | exact Hpt].
    + rewrite Forall_forall in Hsing. exact (Hsing _ (list_elem_of_lookup_2 _ _ _ Hf)).
    + intros k ->. exact (Hnamed k used Ht).
Qed.
End Agree.


(** C40. No request with a singular message of proto3 has that type: the compiler declares the
    field a record, and the decoder, for which the presence of a message is always explicit,
    makes it an option. *)
Theorem singular_messages_disagree {W : WireOps} {WL : WireLaws W} {HK : Heck} unicode (named : str -> Val -> Prop) wf d name syntax tn ws uses i f sf request inner src v :
  message_type_definition unicode wf d name syntax = Done (mkTypeDef tn (KRecord ws), uses) ->
  d_field d !! i = Some f -> singular_message f syntax ->
  subfields request !! i = Some sf -> coding sf = Some (CompoundCodingOf (compound_coding_number Message)) ->
  (forall k v, named k v -> exists fields, v = VRecord fields) ->
  message_inner request = Done inner -> decode inner src = Done v ->
  ~ inhabits_record named ws v.
Proof.
  intros (ws' & [= _ <-] & Hws)%message_fields Hf (Hty & Hl & Hs & Ho) Hsf Hcd Hn Hinner Hv.
  pose proof (decode_reads request inner src Hinner) as Ht. rewrite Hv in Ht.
  destruct (typed_record_lookup _ _ Ht) as (fields & -> & Hfields). simpl. intros Hin.
  destruct (Forall2_lookup_l _ _ _ _ _ Hws Hf) as (w & Hw & t & used & Hu & Hlt & _).
  destruct (Forall2_lookup_l _ _ _ _ _ Hfields Hsf) as (p & Hp & _ & Hpt).
  destruct (Forall2_lookup_l _ _ _ _ _ Hin Hw) as (p' & Hp' & _ & Hi). rewrite Hp in Hp'. injection Hp' as <-.
  destruct sf as [n sn ss scd]. simpl in Hcd. subst scd.
  unfold unlabelled_type in Hu. rewrite Hty in Hu. apply obind_done in Hu as (server & _ & Hu).
  apply obind_done in Hu as (tn' & _ & [= <- _]).
  unfold labelled_type in Hlt. rewrite Hl, Ho, bool_decide_false in Hlt by done. simpl in Hlt. injection Hlt as E0.
  rewrite <- E0 in Hi. destruct (Hn _ _ Hi) as [fs E]. by rewrite E in Hpt.
Qed.

(** ** Witnesses *)
(** Five fields, their metadata, and a request. *)
Definition demo_descriptor : DescriptorProto := mkMessage (Some (lit "Demo"))
  [fd "id" 1 13 None;
   mkFieldDescriptor (Some (lit "name")) (Some 1) (Some 9) None (Some true);
   fd "deltas" 3 18 None;
   fd "color" 1 14 (Some (lit ".demo.Color"));
   fd "children" 3 11 (Some (lit ".demo.Child"))] [] [].
Definition demo_child : list Field := [scalar_field 1 "half" Fixed32Implicit].
Definition demo_colors : list Field := [enum_value 0 "red"; enum_value 1 "blue"].
Definition demo_message : Field := mkField 0 "request"
  [scalar_field 1 "id" Uint32Implicit;
   scalar_field 2 "name" StringUtf8Explicit;
   scalar_field 3 "deltas" Sint64Packed;
   compound_field 4 "color" demo_colors EnumImplicit;
   compound_field 5 "children" demo_child MessageExpanded] None.
Definition demo_named (k : str) (v : Val) : Prop :=
  if decide (k = lit "color") then enum_typed demo_colors v else record_typed typed demo_child v.

Definition demo_bytes : list byte := map byte_of_Z [8; 172; 2;  18; 2; 104; 105;  26; 2; 1; 2;  32; 1;  42; 5; 13; 1; 0; 0; 0].
Definition demo_inner : Merger := match message_inner demo_message with Done m => m | _ => (Merger_scalar BytesImplicit).1 end.
Definition demo_value : Val := VRecord
  [("id", VU32 300); ("name", VOption (Some (VString "hi"))); ("deltas", VList [VS64 (-1); VS64 1]);
   ("color", VEnum "blue"); ("children", VList [VRecord [("half", VU32 1)]])].
Definition demo_fields : list WitField :=
  [mkWitField (lit "id") U32; mkWitField (lit "name") (TyOption TyString); mkWitField (lit "deltas") (TyList S64);
   mkWitField (lit "color") (Named (lit "color")); mkWitField (lit "children") (TyList (Named (lit "child")))].

Ltac demo_metadata :=
  eexists; split; [reflexivity|]; split;
    [ (constructor 1; [reflexivity | by repeat split; auto])
      || (econstructor 2; [reflexivity | reflexivity | by repeat split])
      || (constructor 4; reflexivity)
    | split; [reflexivity |]; split; [reflexivity |]; intros k used Hk; vm_compute in Hk; try discriminate Hk;
      injection Hk as <- _; reflexivity ].


(** A message with a message in it, and an empty request. *)
Definition parent_descriptor : DescriptorProto :=
  mkMessage (Some (lit "Parent")) [fd "child" 1 11 (Some (lit ".demo.Child"))] [] [].
Definition parent_message : Field := mkField 0 "request" [compound_field 1 "child" demo_child Message] None.

Lemma singular_messages_disagree_witness :
  ~ inhabits_record (fun _ v => exists fields, v = VRecord fields) [mkWitField (lit "child") (Named (lit "child"))] (VRecord [("child", VOption None)]).
Proof.
  apply (singular_messages_disagree (W := leb128_ops) (HK := example_heck) ascii_only
           (fun k v => exists fields, v = VRecord fields) (in_package [lit "demo"])
           parent_descriptor (lit "Parent") Proto3 (lit "parent") [mkWitField (lit "child") (Named (lit "child"))]
           [mkName (mkQualifier [lit "demo"] []) (lit "Child")] 0 (fd "child" 1 11 (Some (lit ".demo.Child")))
           (compound_field 1 "child" demo_child Message)
           parent_message (match message_inner parent_message with Done m => m | _ => (Merger_scalar BytesImplicit).1 end) []).
  - vm_compute. reflexivity.
  - reflexivity.
  - repeat split; discriminate.
  - reflexivity.
  - reflexivity.
  - by intros k v.
  - vm_compute. reflexivity.
  - vm_compute. reflexivity.
Defined.
