(* ===== verification/IpText.v ===== *)
(** * Numbers and addresses as text

    What [ipam.rs] parses with the standard library: a [u8], and an IP address of either
    version, as [core::net] does it. *)

From S2P Require Import Prelude.

(** ** Numbers *)
(** [char::to_digit]. *)
Definition digit_of (radix : Z) (b : byte) : option Z :=
  let z := Z_of_byte b in
  let d := if (48 <=? z) && (z <=? 57) then Some (z - 48)
           else if (97 <=? z) && (z <=? 122) then Some (z - 87)
           else if (65 <=? z) && (z <=? 90) then Some (z - 55) else None in
  match d with Some d => if d <? radix then Some d else None | None => None end.

(** [u8::from_str]: a plus sign is allowed, and any number of zeros. *)
Fixpoint u8_digits (acc : Z) (s : str) : option Z :=
  match s with
  | [] => Some acc
  | b :: s' =>
      d ← digit_of 10 b;
      if acc * 10 + d <? 256 then u8_digits (acc * 10 + d) s' else None
  end.
Definition parse_u8 (s : str) : option Z :=
  match s with
  | [] => None
  | b :: s' => if decide (b = x2b) then match s' with [] => None | _ => u8_digits 0 s' end else u8_digits 0 s
  end.

(** ** The parser of [core::net] *)
(** A parser returns what it read and the rest, or leaves the input alone. *)
Definition parser (A : Type) : Type := str -> option (A * str).

Definition read_given_char (c : byte) : parser unit :=
  fun s => match s with b :: s' => if decide (b = c) then Some (tt, s') else None | [] => None end.

(** [read_separator]: [c] first, unless it is the first item. *)
Definition read_separator {A} (c : byte) (index : nat) (p : parser A) : parser A :=
  fun s => match index with
           | O => p s
           | S _ => '(_, s) ← read_given_char c s; p s
           end.

(** The loop of [read_number]: the digits, as many as there are, up to [max_digits]. *)
Fixpoint read_digits (radix : Z) (max_digits : nat) (acc : Z) (s : str) : option (nat * Z * str) :=
  match s with
  | [] => Some (O, acc, [])
  | b :: s' =>
      match digit_of radix b with
      | None => Some (O, acc, s)
      | Some d =>
          match max_digits with
          | O => None
          | S m => '(n, r, rest) ← read_digits radix m (acc * radix + d) s'; Some (S n, r, rest)
          end
      end
  end.

Definition read_number (radix : Z) (max_digits : nat) (allow_zero_prefix : bool) (bits : Z) : parser Z :=
  fun s =>
    '(digit_count, result, rest) ← read_digits radix max_digits 0 s;
    if (digit_count =? 0)%nat then None
    else if negb allow_zero_prefix && bool_decide (head s = Some x30) && (1 <? digit_count)%nat then None
    else if result <? 2 ^ bits then Some (result, rest) else None.

Fixpoint read_octets (n index : nat) (acc : Z) : parser Z :=
  fun s => match n with
           | O => Some (acc, s)
           | S n' =>
               '(octet, s) ← read_separator x2e index (read_number 10 3 false 8) s;
               read_octets n' (S index) (acc * 256 + octet) s
           end.
Definition read_ipv4_addr : parser Z := read_octets 4 0 0.

(** [read_groups]: up to [limit] groups of an IPv6 address, from the [index]-th on, and whether
    the last two are an IPv4 address. *)
Fixpoint read_groups (left index : nat) (s : str) : list Z * bool * str :=
  match left with
  | O => ([], false, s)
  | S left' =>
      let group :=
        match read_separator x3a index (read_number 16 4 true 16) s with
        | Some (g, s) => let '(groups, ipv4, s) := read_groups left' (S index) s in (g :: groups, ipv4, s)
        | None => ([], false, s)
        end in
      if (0 <? left')%nat then
        match read_separator x3a index read_ipv4_addr s with
        | Some (v4, s) => ([v4 / 65536; v4 mod 65536], true, s)
        | None => group
        end
      else group
  end.

Definition from_groups (groups : list Z) : Z := fold_left (fun acc g => acc * 65536 + g) groups 0.

Definition read_ipv6_addr : parser Z :=
  fun s =>
    let '(head, head_ipv4, s) := read_groups 8 0 s in
    if (length head =? 8)%nat then Some (from_groups head, s)
    else if (head_ipv4 : bool) then None
    else
      '(_, s) ← read_given_char x3a s;
      '(_, s) ← read_given_char x3a s;
      let '(tail, _, s) := read_groups (8 - (length head + 1)) 0 s in
      Some (from_groups (head ++ replicate (8 - length head - length tail) 0 ++ tail), s).

(** ** Ranges *)
Lemma digit_of_range radix b d : digit_of radix b = Some d -> 0 <= d < radix.
Proof.
  unfold digit_of. pose proof (Z_of_byte_range b).
  destruct ((48 <=? _) && _) eqn:E1; [|destruct ((97 <=? _) && _) eqn:E2; [|destruct ((65 <=? _) && _) eqn:E3; [|done]]];
    (destruct (_ <? radix) eqn:Er; [|done]; intros [= <-]; lia).
Qed.

Lemma parse_u8_range s n : parse_u8 s = Some n -> u_range 8 n.
Proof.
  assert (H : forall s acc n, u_range 8 acc -> u8_digits acc s = Some n -> u_range 8 n).
  { clear. induction s as [|b s IH]; simpl; intros acc n Ha Hn; [by injection Hn as <- |].
    destruct (digit_of 10 b) as [d|] eqn:Ed; [|done]. apply digit_of_range in Ed. simpl in Hn.
    destruct (_ <? 256) eqn:El; [|done]. apply IH in Hn; [done |]. unfold u_range in *. lia. }
  unfold parse_u8. destruct s as [|b s]; [done |].
  destruct (decide (b = x2b)); [destruct s; [done |]|]; apply H; unfold u_range; lia.
Qed.

Lemma read_digits_range radix m s acc n z rest : 0 <= radix -> 0 <= acc ->
  read_digits radix m acc s = Some (n, z, rest) -> 0 <= z.
Proof.
  intros Hr. revert m acc n z. induction s as [|b s IH]; intros m acc n z Ha H.
  - destruct m; by injection H as <- <- <-.
  - assert (Hb : match digit_of radix b with
                 | None => Some (O, acc, b :: s)
                 | Some d => match m with
                             | O => None
                             | S m => '(n, r, rest) ← read_digits radix m (acc * radix + d) s; Some (S n, r, rest)
                             end
                 end = Some (n, z, rest)) by (by destruct m).
    destruct (digit_of radix b) as [d|] eqn:Ed; [|by injection Hb as <- <- <-]. apply digit_of_range in Ed.
    destruct m as [|m]; [done |].
    destruct (read_digits radix m _ s) as [[[n' z'] rest']|] eqn:E; [|done]. simpl in Hb. injection Hb as <- <- <-.
    eapply IH; [|exact E]. nia.
Qed.

Lemma read_number_range radix m zero bits s z rest : 0 <= radix ->
  read_number radix m zero bits s = Some (z, rest) -> u_range bits z.
Proof.
  intros Hr. unfold read_number. destruct (read_digits radix m 0 s) as [[[n z'] rest']|] eqn:E; [|done]. simpl.
  destruct (n =? 0)%nat; [done |]. destruct (_ && _); [done |]. destruct (_ <? _) eqn:El; [|done]. intros [= <- <-].
  apply read_digits_range in E; [|lia..]. unfold u_range. lia.
Qed.

Lemma read_separator_range {A} c i (p : parser A) (Q : A -> Prop) s a rest :
  (forall s a rest, p s = Some (a, rest) -> Q a) -> read_separator c i p s = Some (a, rest) -> Q a.
Proof.
  intros Hp. destruct i as [|i]; simpl; [apply Hp |].
  destruct (read_given_char c s) as [[[] s']|]; [apply Hp | done].
Qed.

Lemma read_ipv4_addr_range s z rest : read_ipv4_addr s = Some (z, rest) -> u_range 32 z.
Proof.
  assert (H : forall n i acc s z rest, 0 <= acc -> read_octets n i acc s = Some (z, rest) ->
    0 <= z < (acc + 1) * 256 ^ Z.of_nat n).
  { clear. induction n as [|n IH]; intros i acc s z rest Ha H; simpl in H; [injection H as <- <-; lia |].
    destruct (read_separator _ i _ s) as [[o s']|] eqn:Eo; [|done]. simpl in H.
    apply (read_separator_range _ _ _ (u_range 8)) in Eo; [|intros *; by apply read_number_range].
    unfold u_range in Eo. apply IH in H; [|lia]. rewrite Nat2Z.inj_succ, Z.pow_succ_r by lia. nia. }
  intros Hz. apply H in Hz; [|lia]. exact Hz.
Qed.

Lemma read_groups_range left i s groups ipv4 rest : read_groups left i s = (groups, ipv4, rest) ->
  (length groups <= left)%nat /\ Forall (u_range 16) groups.
Proof.
  revert i s groups ipv4 rest. induction left as [|left IH]; intros i s groups ipv4 rest H; simpl in H; [by injection H as <- <- <- |].
  assert (Hgroup : forall gs v r, match read_separator x3a i (read_number 16 4 true 16) s with
        | Some (g, s) => let '(groups, ipv4, s) := read_groups left (S i) s in (g :: groups, ipv4, s)
        | None => ([], false, s) end = (gs, v, r) -> (length gs <= S left)%nat /\ Forall (u_range 16) gs).
  { intros gs v r Hg. destruct (read_separator x3a i (read_number 16 4 true 16) s) as [[g s']|] eqn:Eg; [|injection Hg as <- <- <-; split; [simpl; lia | done]].
    destruct (read_groups left (S i) s') as [[gs' v'] r'] eqn:E. injection Hg as <- <- <-. apply IH in E as [Hl HF].
    split; [simpl; lia |]. constructor; [|done].
    apply (read_separator_range _ _ _ (u_range 16)) in Eg; [done |]. intros *. by apply read_number_range. }
  destruct (0 <? left)%nat eqn:El; [|by eapply Hgroup].
  destruct (read_separator x3a i read_ipv4_addr s) as [[v4 s']|] eqn:Ev; [|by eapply Hgroup].
  injection H as <- <- <-. apply Nat.ltb_lt in El. split; [simpl; lia |].
  apply (read_separator_range _ _ _ (u_range 32)) in Ev; [|exact read_ipv4_addr_range].
  unfold u_range in Ev |- *. pose proof (Z.mod_pos_bound v4 65536 ltac:(lia)).
  assert (0 <= v4 / 65536 < 2 ^ 16) by (split; [apply Z.div_pos; lia | apply Z.div_lt_upper_bound; lia]).
  constructor; [done |]. constructor; [|done]. change (2 ^ 16) with 65536. lia.
Qed.

Lemma from_groups_range groups : Forall (u_range 16) groups -> 0 <= from_groups groups < 65536 ^ Z.of_nat (length groups).
Proof.
  assert (H : forall gs acc, 0 <= acc -> Forall (u_range 16) gs ->
    0 <= fold_left (fun acc g => acc * 65536 + g) gs acc < (acc + 1) * 65536 ^ Z.of_nat (length gs)).
  { clear. induction gs as [|g gs IH]; intros acc Ha HF; cbn [fold_left]; [simpl; lia |]. inversion HF as [|? ? Hg HF']; subst.
    unfold u_range in Hg. specialize (IH (acc * 65536 + g) ltac:(lia) HF').
    cbn [length]. rewrite Nat2Z.inj_succ, Z.pow_succ_r by lia. nia. }
  intros HF. specialize (H groups 0 ltac:(lia) HF). unfold from_groups. lia.
Qed.

Lemma read_ipv6_addr_range s z rest : read_ipv6_addr s = Some (z, rest) -> u_range 128 z.
Proof.
  assert (Hall : forall gs, length gs = 8%nat -> Forall (u_range 16) gs -> u_range 128 (from_groups gs)).
  { intros gs Hl HF. apply from_groups_range in HF. by rewrite Hl in HF. }
  unfold read_ipv6_addr. destruct (read_groups 8 0 s) as [[hd v] s1] eqn:E1. apply read_groups_range in E1 as [Hl1 HF1].
  destruct (length hd =? 8)%nat eqn:E8; [intros [= <- <-]; apply Hall; [by apply Nat.eqb_eq | done] |].
  apply Nat.eqb_neq in E8. destruct v; [done |].
  destruct (read_given_char x3a s1) as [[[] s2]|]; [|done]. simpl.
  destruct (read_given_char x3a s2) as [[[] s3]|]; [|done]. simpl.
  destruct (read_groups _ 0 s3) as [[tl v'] s4] eqn:E2. apply read_groups_range in E2 as [Hl2 HF2]. intros [= <- <-].
  apply Hall.
  - rewrite !length_app, length_replicate. lia.
  - apply Forall_app. split; [done |]. apply Forall_app. split; [|done]. apply Forall_replicate. unfold u_range. lia.
Qed.

(** ** Examples *)
Example parse_u8_examples : map parse_u8 [lit "24"; lit "+24"; lit "0008"; lit "256"; lit ""; lit "+"; lit "-1"]
  = [Some 24; Some 24; Some 8; None; None; None; None].
Proof. vm_compute. reflexivity. Qed.
Example read_ipv4_examples : map read_ipv4_addr [lit "10.0.0.7"; lit "10.0.0.07"; lit "10.0.0.256"; lit "10.0.0"]
  = [Some (167772167, []); None; None; None].
Proof. vm_compute. reflexivity. Qed.
Example read_ipv6_examples : map read_ipv6_addr [lit "::1"; lit "fd00::a:1"; lit "::ffff:1.2.3.4"; lit "1:2:3"]
  = [Some (1, []); Some (0xfd0000000000000000000000000a0001, []); Some (0xffff01020304, []); None].
Proof. vm_compute. reflexivity. Qed.
