(* ===== verification/Ipam.v ===== *)
(** * IP address management

    Models [src/runtime/ipam.rs]: addresses are allocated by a CNI plugin, a program that is
    run with its parameters in the environment and its configuration on standard input, and
    activated on a network interface by requests over netlink.

    An operation is a [prog] whose world is the log of what the plugin and the kernel were
    asked, with their replies, which are the environment's choice.  SHA-256 and the JSON of
    [serde_json] are parameters ([IpamLibs]).  Logging is left out. *)

From S2P Require Import Prelude Concurrent Regexp Names State IpText.

(** ** Data *)
(** The value [json!] builds. *)
Inductive Json :=
| JsonString (s : str)
| JsonArray (items : list Json)
| JsonObject (members : list (str * Json)).

Record IpamAddResultIp := mkIpamAddResultIp { ip_address_text : str; gateway : str }.
Record IpamAddResult := mkIpamAddResult { cniVersion : str; ips : list IpamAddResultIp }.

Class IpamLibs := {
  sha256 : list byte -> list byte;
  to_vec : Json -> list byte;
  from_slice : list byte -> option IpamAddResult;
}.
(** A SHA-256 hash has 32 bytes. *)
Class IpamLaws `{IpamLibs} := { sha256_length s : length (sha256 s) = 32%nat }.

Record Ipam := mkIpam { plugin_path : str; config : list byte; interface : str }.

Inductive PipeError := CreatingPipe | WritingPipe.
Inductive IpamError :=
| NetlinkConnection
| PipeFailed (e : PipeError)
| ExecutingCommand
| PluginError (stdout : list byte)
| RunningAdd (e : IpamError)
| RunningDel (e : IpamError)
| DecodingAdd
| MultipleAddresses (n : nat)
| InvalidMask (cidr : str)
| InvalidAddress (address : str)
| InvalidPrefixLength (cidr : str)
| LinkRequestFailed
| NoDevice
| AddRequestFailed
| GetRequestFailed
| DelRequestFailed
| AddressNotFound
| AddingFailed (address : IpAddr) (prefix_length : Z) (e : IpamError)
| DeletingFailed (address : IpAddr) (prefix_length : Z) (e : IpamError).

(** What can be asked of the node. *)
Record PluginCall := mkPluginCall { command_path : str; command_env : list (str * str); command_stdin : list byte }.
Definition AddressMessage : Type := Z.
Inductive Reply (A : Type) := Replied (a : A) | RequestFailed.
Arguments Replied {A} a.
Arguments RequestFailed {A}.

Inductive NodeEvent :=
| PipeOpened (error : option PipeError)
| PluginRan (c : PluginCall) (reply : Reply (bool * list byte))  (** exit status and standard output *)
| LinkLookup (name : str) (reply : Reply (option Z))
| AddressAdded (link : Z) (address : IpAddr) (prefix_length : Z) (ok : bool)
| AddressLookup (link : Z) (address : IpAddr) (prefix_length : Z) (reply : Reply (option AddressMessage))
| AddressDeleted (m : AddressMessage) (ok : bool).

Definition Log := list NodeEvent.

(** What the environment decides in a step. *)
Record NodeAnswer := mkNodeAnswer {
  na_pipe : option PipeError;
  na_plugin : Reply (bool * list byte);
  na_link : Reply (option Z);
  na_get : Reply (option AddressMessage);
  na_ok : bool;
}.

Abbreviation iop A := (prog Log NodeAnswer (outcome IpamError A)) (only parsing).

Definition SLASH_BYTE : byte := x2f.
Definition CNI_VERSION : str := lit "1.0.0".
Definition CNI_NETWORK_NAME : str := lit "kindnet".

Section Ipam.
Context {L : IpamLibs} (debug_assertions : bool).

(** ** The client *)
Definition host_local (connected : bool) (path pod_cidr interface : str) : outcome IpamError Ipam :=
  if connected then
    Done (mkIpam path
      (to_vec (JsonObject
        [(lit "cniVersion", JsonString CNI_VERSION);
         (lit "name", JsonString CNI_NETWORK_NAME);
         (lit "ipam", JsonObject
            [(lit "type", JsonString (lit "host-local"));
             (lit "dataDir", JsonString (lit "/run/cni-ipam-state"));
             (lit "ranges", JsonArray [JsonArray [JsonObject [(lit "subnet", JsonString pod_cidr)]]])])]))
      interface)
  else Failed NetlinkConnection.

(** The hash has 32 bytes by its type ([IpamLaws]), as the debug assertion says.  The [unwrap] of
    a chunk panics if the hash is too short. *)
Definition ipam_container_id (pod : PodName) : outcome IpamError str :=
  let hash := sha256 (PodName_display pod) in
  match fst (chunks_exact (length hash) 16 hash) with
  | first :: second :: _ => Done (map byte_of_Z (hexify (map Z_of_byte first) ++ hexify (map Z_of_byte second)))
  | _ => Crash Panicked
  end.

Definition config_pipe (ipam : Ipam) : iop (list byte) :=
  consult (fun a => PipeOpened (na_pipe a))
      (fun a => match na_pipe a with Some e => Failed (PipeFailed e) | None => Done (config ipam) end).

(** The parameters of the plugin; all but the first two are ignored by it. *)
Definition plugin_call (ipam : Ipam) (command id : str) (stdin : list byte) : PluginCall :=
  mkPluginCall (plugin_path ipam)
    [(lit "CNI_COMMAND", command); (lit "CNI_CONTAINERID", id); (lit "CNI_NETNS", lit "/dev/null");
     (lit "CNI_IFNAME", lit "unused"); (lit "CNI_PATH", lit "/..")] stdin.

Definition run_plugin_command (ipam : Ipam) (command : str) (pod_name : PodName) : iop (list byte) :=
  (ok! id <- Ret (ipam_container_id pod_name);
   ok! stdin <- config_pipe ipam;
   consult (fun a => PluginRan (plugin_call ipam command id stdin) (na_plugin a))
       (fun a => match na_plugin a with
                 | Replied (true, stdout) => Done stdout
                 | Replied (false, stdout) => Failed (PluginError stdout)
                 | RequestFailed => Failed ExecutingCommand
                 end))%prog.

(** ** The interface *)
Definition lookup_interface (interface : str) : iop Z :=
  consult (fun a => LinkLookup interface (na_link a))
      (fun a => match na_link a with
                | Replied (Some index) => Done index
                | Replied None => Failed NoDevice
                | RequestFailed => Failed LinkRequestFailed
                end).

Definition ip_addr_add (interface : str) (address : IpAddr) (prefix_length : Z) : iop unit :=
  (ok! link <- lookup_interface interface;
   consult (fun a => AddressAdded link address prefix_length (na_ok a))
       (fun a => if na_ok a then Done tt else Failed AddRequestFailed))%prog.

Definition ip_addr_del (interface : str) (address : IpAddr) (prefix_length : Z) : iop unit :=
  (ok! link_index <- lookup_interface interface;
   ok! address_message <-
     consult (fun a => AddressLookup link_index address prefix_length (na_get a))
         (fun a => match na_get a with
                   | Replied m => Done m
                   | RequestFailed => Failed GetRequestFailed
                   end);
   match address_message with
   | Some m =>
       consult (fun a => AddressDeleted m (na_ok a))
           (fun a => if na_ok a then Done tt else Failed DelRequestFailed)
   | None => Ret (Failed AddressNotFound)
   end)%prog.

(** ** Addresses *)
(** [IpAddr::from_str]: the whole text is an address of one of the versions. *)
Definition parse_ip (s : str) : option IpAddr :=
  let all {A} (r : option (A * str)) (f : A -> IpAddr) :=
    match r with Some (a, []) => Some (f a) | _ => None end in
  match read_ipv4_addr s with
  | Some r => all (Some r) V4
  | None => all (read_ipv6_addr s) V6
  end.

(** What [address] makes of the reply of the plugin. *)
Definition decode_address (output : list byte) : outcome IpamError (IpAddr * Z) :=
  let? result := ok_or (from_slice output) DecodingAdd in
  match ips result with
  | [ip] =>
      let cidr := ip_address_text ip in
      match split SLASH_BYTE cidr with
      | address :: prefix_length :: rest =>
          if debug_assertions && negb (bool_decide (rest = [])) then Crash Panicked
          else
            let? address := ok_or (parse_ip address) (InvalidAddress address) in
            let? prefix_length := ok_or (parse_u8 prefix_length) (InvalidPrefixLength cidr) in
            Done (address, prefix_length)
      | _ => Failed (InvalidMask cidr)
      end
  | l => Failed (MultipleAddresses (length l))
  end.

Definition context {A} (f : IpamError -> IpamError) (p : iop A) : iop A :=
  (do! r <- p; Ret (map_err f r))%prog.

Definition address (ipam : Ipam) (pod_name : PodName) : iop IpAddress :=
  (ok! output <- context RunningAdd (run_plugin_command ipam (lit "ADD") pod_name);
   ok! (addr, prefix_length) <- Ret (decode_address output);
   do! added <- ip_addr_add (interface ipam) addr prefix_length;
   match added with
   | Done _ => Ret (Done (mkIpAddress addr prefix_length pod_name))
   | Failed error =>
       do! _ <- run_plugin_command ipam (lit "DEL") pod_name;
       Ret (Failed (AddingFailed addr prefix_length error))
   | Crash c => Ret (Crash c)
   end)%prog.

Definition deactivate (ipam : Ipam) (ip : IpAddress) : iop unit :=
  context (DeletingFailed (State.address ip) (prefix_length ip))
    (ip_addr_del (interface ipam) (State.address ip) (prefix_length ip)).

Definition deallocate (ipam : Ipam) (ip : IpAddress) : iop unit :=
  (ok! _ <- context RunningDel (run_plugin_command ipam (lit "DEL") (ip_pod_name ip)); Ret (Done tt))%prog.
End Ipam.
