(* ===== verification/IpamSpec.v ===== *)
(** * What address management guarantees

    - The ID an address is allocated for is legal, and is the pod's own, up to collisions of
      SHA-256.
    - What is allocated and what is active after each operation, whatever the plugin and the
      kernel answer; releasing an address undoes allocating it.
    - Which failures leave an address allocated.
    - The steps of [State] are an abstraction of the client. *)

From S2P Require Import Prelude Concurrent Regexp Names NamesSpec State IpText Ipam.

#[export] Instance IpAddr_countable : Countable IpAddr.
Proof.
  apply (inj_countable' (fun a => match a with V4 z => inl z | V6 z => inr z end)
           (fun s => match s with inl z => V4 z | inr z => V6 z end)). by intros [].
Defined.

(** ** Effects of a step *)
Lemma yields_context {A} f (p : prog Log NodeAnswer (outcome IpamError A)) Q :
  yields p (fun r es => Q (map_err f r) es) -> yields (context f p) Q.
Proof. intros H. apply yields_pbind. eapply yields_mono; [exact H|]. intros r es Hr. simpl. by rewrite app_nil_r. Qed.

(** ** The books *)
Fixpoint getenv (name : str) (env : list (str * str)) : option str :=
  match env with
  | [] => None
  | (n, v) :: env' => if decide (n = name) then Some v else getenv name env'
  end.

(** What the log says is allocated (by container ID) and active, if the plugin and the kernel do
    what they say they did; and the addresses that netlink messages stand for. *)
Record Books := mkBooks {
  allocated : gset str;
  active : gset (Z * IpAddr * Z);
  found : gmap AddressMessage (Z * IpAddr * Z);
}.

Definition account (b : Books) (e : NodeEvent) : Books :=
  match e with
  | PluginRan c (Replied (true, _)) =>
      match getenv (lit "CNI_COMMAND") (command_env c), getenv (lit "CNI_CONTAINERID") (command_env c) with
      | Some command, Some id =>
          if decide (command = lit "ADD") then mkBooks ({[id]} ∪ allocated b) (active b) (found b)
          else if decide (command = lit "DEL") then mkBooks (allocated b ∖ {[id]}) (active b) (found b)
          else b
      | _, _ => b
      end
  | AddressAdded link ip len true => mkBooks (allocated b) ({[(link, ip, len)]} ∪ active b) (found b)
  | AddressLookup link ip len (Replied (Some m)) => mkBooks (allocated b) (active b) (<[m := (link, ip, len)]> (found b))
  | AddressDeleted m true =>
      match found b !! m with
      | Some a => mkBooks (allocated b) (active b ∖ {[a]}) (found b)
      | None => b
      end
  | _ => b
  end.
Definition books (b : Books) (log : Log) : Books := fold_left account log b.

Lemma books_app b log log' : books b (log ++ log') = books (books b log) log'.
Proof. apply fold_left_app. Qed.

(** ** Container IDs *)
Section Spec.
Context {L : IpamLibs} {LL : IpamLaws} (debug_assertions : bool).

Lemma ipam_container_id_hex pod : ipam_container_id pod = Done (hex_of (sha256 (PodName_display pod))).
Proof.
  unfold ipam_container_id. set (hash := sha256 _). assert (Hl : length hash = 32%nat) by apply sha256_length.
  destruct (chunks_exact (length hash) 16 hash) as [cs r] eqn:E.
  apply chunks_exact_spec in E as (E & HF & Hr); [|lia|lia].
  assert (Hc : length cs = 2%nat).
  { assert (length (concat cs) = (16 * length cs)%nat).
    { clear -HF. induction HF as [|c cs Hc _ IH]; simpl; [done |]. rewrite length_app, Hc, IH. lia. }
    apply (f_equal length) in E. rewrite length_app, Hl in E. lia. }
  destruct cs as [|c1 [|c2 [|]]]; try discriminate Hc. cbn [fst concat] in *.
  assert (r = []) as ->.
  { apply length_zero_iff_nil. inversion HF as [|? ? H1 HF']; subst. inversion HF' as [|? ? H2 _]; subst.
    apply (f_equal length) in E. rewrite !length_app, Hl, H1, H2 in E. simpl in E. lia. }
  inversion HF as [|? ? H1 HF']; subst. inversion HF' as [|? ? H2 _]; subst.
  rewrite E, !app_nil_r, hex_of_app, map_app.
  unfold hex_of. rewrite !hexify_scalar by (rewrite ?length_map; done || apply map_Z_of_byte_range). by rewrite !map_map.
Qed.

(** What running the plugin may do: nothing, if there is no pipe to its standard input, or one
    call. *)
Lemma yields_plugin ipam command pod Q :
  (forall e, Q (Failed (PipeFailed e)) [PipeOpened (Some e)]) ->
  (forall reply, Q (match reply with
                    | Replied (true, stdout) => Done stdout
                    | Replied (false, stdout) => Failed (PluginError stdout)
                    | RequestFailed => Failed ExecutingCommand
                    end)
                   [PipeOpened None;
                    PluginRan (plugin_call ipam command (hex_of (sha256 (PodName_display pod))) (config ipam)) reply]) ->
  yields (run_plugin_command ipam command pod) Q.
Proof.
  intros Hpipe Hrun. unfold run_plugin_command. rewrite ipam_container_id_hex. apply yields_and_then. cbn [yields app].
  apply yields_and_then, yields_consult. intros a. destruct (na_pipe a) as [e|]; [apply Hpipe |]. cbn [app].
  apply yields_consult. intros a'. apply Hrun.
Qed.

(** ** Effects on the books *)
Abbreviation id_of pod := (hex_of (sha256 (PodName_display pod))).

Definition reserve (id : str) (b : Books) : Books := mkBooks ({[id]} ∪ allocated b) (active b) (found b).
Definition release (id : str) (b : Books) : Books := mkBooks (allocated b ∖ {[id]}) (active b) (found b).
Definition activate (a : Z * IpAddr * Z) (b : Books) : Books := mkBooks (allocated b) ({[a]} ∪ active b) (found b).

Lemma books_reserve ipam id out b :
  books b [PipeOpened None; PluginRan (plugin_call ipam (lit "ADD") id (config ipam)) (Replied (true, out))] = reserve id b.
Proof. reflexivity. Qed.

(** Adding an address: the link is looked up, and the address is active if that succeeds. *)
Lemma yields_add interface ip len Q :
  (forall e es, (forall b, books b es = b) -> Q (Failed e) es) ->
  (forall link es, LinkLookup interface (Replied (Some link)) ∈ es ->
     (forall b, books b es = activate (link, ip, len) b) -> Q (Done tt) es) ->
  yields (ip_addr_add interface ip len) Q.
Proof.
  intros Hf Hd. apply yields_and_then, yields_consult. intros a.
  destruct (na_link a) as [[link|]|]; [|apply Hf; done..].
  apply yields_consult. intros a'. destruct (na_ok a').
  - apply (Hd link); [left | done].
  - by apply Hf.
Qed.

(** Deleting an address: a message that stands for it is looked up on the link. *)
Lemma yields_del interface ip len Q :
  (forall e es, (forall b, allocated (books b es) = allocated b /\ active (books b es) = active b) -> Q (Failed e) es) ->
  (forall link es, LinkLookup interface (Replied (Some link)) ∈ es ->
     (forall b, allocated (books b es) = allocated b /\ active (books b es) = active b ∖ {[(link, ip, len)]}) ->
     Q (Done tt) es) ->
  yields (ip_addr_del interface ip len) Q.
Proof.
  intros Hf Hd. apply yields_and_then, yields_consult. intros a.
  destruct (na_link a) as [[link|]|]; [|apply Hf; done..].
  apply yields_and_then, yields_consult. intros a'.
  destruct (na_get a') as [[m|]|]; [|apply Hf; done..].
  apply yields_consult. intros a''. destruct (na_ok a'').
  - apply (Hd link); [left |]. intros b. unfold books. simpl. by rewrite lookup_insert_eq.
  - by apply Hf.
Qed.

(** A reply of the plugin that [address] cannot use. *)
Definition unusable (e : IpamError) : Prop :=
  match e with
  | DecodingAdd | MultipleAddresses _ | InvalidMask _ | InvalidAddress _ | InvalidPrefixLength _ => True
  | _ => False
  end.
(** The last thing that happened is that the plugin was to release an address, and that failed. *)
Definition release_fails (e : NodeEvent) : Prop :=
  match e with
  | PipeOpened (Some _) => True
  | PluginRan c reply =>
      getenv (lit "CNI_COMMAND") (command_env c) = Some (lit "DEL")
      /\ match reply with Replied (true, _) => False | _ => True end
  | _ => False
  end.
Definition release_failed (es : Log) : Prop := exists es' e, es = es' ++ [e] /\ release_fails e.

Lemma release_failed_intro es es' e : es = es' ++ [e] -> release_fails e -> release_failed es.
Proof. unfold release_failed. eauto. Qed.

Lemma decode_address_failed out e : decode_address debug_assertions out = Failed e -> unusable e.
Proof.
  unfold decode_address. destruct (from_slice out) as [result|]; simpl; [|by intros [= <-]].
  destruct (ips result) as [|ip [|]]; simpl; [by intros [= <-]| |by intros [= <-]].
  destruct (split SLASH_BYTE (ip_address_text ip)) as [|addr [|len rest]]; [by intros [= <-]..|].
  destruct (debug_assertions && _); [done |]. destruct (parse_ip addr) as [x|]; simpl; [|by intros [= <-]].
  destruct (parse_u8 len); simpl; [done | by intros [= <-]].
Qed.

(** A decoded address fits its version, and the length of its prefix a byte. *)
Definition ip_range (a : IpAddr) : Prop := match a with V4 z => u_range 32 z | V6 z => u_range 128 z end.

Lemma parse_ip_range s a : parse_ip s = Some a -> ip_range a.
Proof.
  unfold parse_ip. destruct (read_ipv4_addr s) as [[z rest]|] eqn:E4.
  - destruct rest; [|done]. intros [= <-]. by eapply read_ipv4_addr_range.
  - destruct (read_ipv6_addr s) as [[z rest]|] eqn:E6; [|done]. destruct rest; [|done]. intros [= <-].
    by eapply read_ipv6_addr_range.
Qed.

Lemma decode_address_range out ip len : decode_address debug_assertions out = Done (ip, len) -> ip_range ip /\ u_range 8 len.
Proof.
  unfold decode_address. destruct (from_slice out) as [result|]; simpl; [|done].
  destruct (ips result) as [|i [|]]; [done | | done].
  destruct (split SLASH_BYTE (ip_address_text i)) as [|addr [|l rest]]; [done..|].
  destruct (debug_assertions && _); [done |]. destruct (parse_ip addr) as [x|] eqn:Ex; simpl; [|done].
  destruct (parse_u8 l) as [n|] eqn:En; simpl; [|done]. intros [= <- <-].
  split; [by eapply parse_ip_range | by eapply parse_u8_range].
Qed.

Lemma decode_address_crash out c : decode_address debug_assertions out = Crash c -> debug_assertions = true /\ c = Panicked.
Proof.
  unfold decode_address. destruct (from_slice out) as [result|]; simpl; [|done].
  destruct (ips result) as [|ip [|]]; [done | | done].
  destruct (split SLASH_BYTE (ip_address_text ip)) as [|addr [|len rest]]; [done..|].
  destruct debug_assertions; simpl.
  - destruct (negb _); [by intros [= <-] |]. destruct (parse_ip addr); simpl; [|done]. by destruct (parse_u8 len).
  - destruct (parse_ip addr); simpl; [|done]. by destruct (parse_u8 len).
Qed.

#[local] Opaque ip_addr_add ip_addr_del run_plugin_command.

Lemma yields_address ipam pod :
  yields (address debug_assertions ipam pod) (fun r es => forall b,
    match r with
    | Done ip => ip_pod_name ip = pod /\ ip_range (State.address ip) /\ u_range 8 (prefix_length ip) /\
        exists link, LinkLookup (interface ipam) (Replied (Some link)) ∈ es
          /\ books b es = activate (link, State.address ip, prefix_length ip) (reserve (id_of pod) b)
    | Failed e =>
        active (books b es) = active b
        /\ (allocated (books b es) = allocated b ∖ {[id_of pod]} \/ allocated (books b es) = allocated b
            \/ (allocated (books b es) = {[id_of pod]} ∪ allocated b
                /\ (unusable e \/ ((exists ip len e', e = AddingFailed ip len e') /\ release_failed es))))
    | Crash c => debug_assertions = true /\ c = Panicked
    end).
Proof.
  apply yields_and_then, yields_context, yields_plugin; [intros e b; simpl; auto|].
  intros reply. destruct reply as [[[] out]|]; simpl map_err; cbv iota; [|intros b; simpl; auto..].
  apply yields_and_then. simpl. destruct (decode_address debug_assertions out) as [[ip len]|e|c] eqn:Ed.
  2: { intros b. split; [done |]. right; right. split; [done |]. left. by eapply decode_address_failed. }
  2: { intros b. by eapply decode_address_crash. }
  set (id := id_of pod). apply yields_pbind, yields_add.
  - intros e es Hes. apply yields_pbind, yields_plugin.
    + intros e' b. simpl. fold (books (reserve id b) (es ++ [PipeOpened (Some e')])). rewrite books_app, Hes.
      split; [done |]. right; right. split; [done |]. right. split; [by eexists _, _, _|].
      by eapply (release_failed_intro _ (_ :: _ :: es)).
    + intros reply b. simpl.
      fold (books (reserve id b) (es ++ [PipeOpened None; PluginRan (plugin_call ipam (lit "DEL") id (config ipam)) reply])).
      rewrite books_app, Hes. destruct reply as [[[] out']|]; simpl; (split; [done |]).
      * left. set_solver.
      * right; right. split; [done |]. right. split; [by eexists _, _, _|].
        eapply (release_failed_intro _ (_ :: _ :: (es ++ [_]))); [by rewrite <- !app_comm_cons, <- app_assoc |]. split; [vm_compute; reflexivity | exact I].
      * right; right. split; [done |]. right. split; [by eexists _, _, _|].
        eapply (release_failed_intro _ (_ :: _ :: (es ++ [_]))); [by rewrite <- !app_comm_cons, <- app_assoc |]. split; [vm_compute; reflexivity | exact I].
  - intros link es Hin Hes b. simpl. apply decode_address_range in Ed as [Hip Hlen]. split_and!; [done..|]. exists link. rewrite app_nil_r. split; [by do 2 right | apply Hes].
Qed.

Lemma yields_deactivate ipam ip :
  yields (deactivate ipam ip) (fun r es => forall b,
    match r with
    | Done _ => exists link, LinkLookup (interface ipam) (Replied (Some link)) ∈ es
        /\ allocated (books b es) = allocated b
        /\ active (books b es) = active b ∖ {[(link, State.address ip, prefix_length ip)]}
    | Failed e => allocated (books b es) = allocated b /\ active (books b es) = active b
    | Crash c => False
    end).
Proof.
  apply yields_context, yields_del; simpl; [auto |]. intros link es Hin Hes b. exists link. split; [done | apply Hes].
Qed.

Lemma yields_deallocate ipam ip :
  yields (deallocate ipam ip) (fun r es => forall b,
    match r with
    | Done _ => books b es = release (id_of (ip_pod_name ip)) b
    | Failed e => books b es = b
    | Crash c => False
    end).
Proof.
  apply yields_and_then, yields_context, yields_plugin; [done |]. intros reply. by destruct reply as [[[] out]|].
Qed.
End Spec.

(** An address that is given, taken off the interface and released. *)
Section Release.
Context {L : IpamLibs} {LL : IpamLaws} (debug_assertions : bool).

Definition released (ipam : Ipam) (pod : PodName) (r : outcome IpamError IpAddress) (es : Log) : Prop :=
  forall b ip, r = Done ip -> exists link link',
    LinkLookup (interface ipam) (Replied (Some link)) ∈ es
    /\ LinkLookup (interface ipam) (Replied (Some link')) ∈ es
    /\ allocated (books b es) = allocated b ∖ {[hex_of (sha256 (PodName_display pod))]}
    /\ (link' = link -> active (books b es) = active b ∖ {[(link, State.address ip, prefix_length ip)]}).

Lemma yields_release ipam pod :
  yields (ok! ip <- address debug_assertions ipam pod;
          ok! _ <- deactivate ipam ip;
          ok! _ <- deallocate ipam ip; Ret (Done ip))%prog (released ipam pod).
Proof.
  apply yields_and_then. eapply yields_mono; [apply yields_address|].
  intros [ip|e|c] es H1; [|done..]. apply yields_and_then.
  eapply yields_mono; [apply yields_deactivate|]. intros [[]|e|c] es' H2; [|done..]. apply yields_and_then.
  eapply yields_mono; [apply yields_deallocate|]. intros [[]|e|c] es'' H3; [|done..].
  intros b ip' [= <-]. rewrite app_nil_r, !books_app.
  destruct (H1 b) as (Hpod & _ & _ & link & Hin & Eb), (H2 (books b es)) as (link' & Hin' & Ea & Ec).
  rewrite (H3 (books (books b es) es')), Hpod. exists link, link'. simpl. rewrite Ea, Ec, Eb. simpl.
  split_and!; [set_solver..|]. intros ->. set_solver.
Qed.
End Release.

(** ** Refinement *)
(** The state machine ([State]) takes what IPAM answers from its environment, and only that is
    what the client here does. *)
Section Refinement.
Context {L : IpamLibs} {LL : IpamLaws} {M : Type -> Type} {P : PapayaMap M} (debug_assertions : bool).

(** An outcome of the client, as the state machine sees it. *)
Definition seen {A} (cause : string) (r : outcome IpamError A) : outcome StateError A := map_err (fun _ => IpamFailed cause) r.

Definition succeeds {A} (r : outcome IpamError A) : bool := match r with Done _ => true | _ => false end.
Definition given (address : option (IpAddr * Z)) (ok : bool) (cause : string) : Answer :=
  mkAnswer 0 None false false address ok cause.
Definition address_of (r : outcome IpamError IpAddress) : option (IpAddr * Z) :=
  match r with Done ip => Some (State.address ip, prefix_length ip) | _ => None end.

(** A run of the client is a step of the state machine, which records it; a crash of [address]
    is the failed assertion of a debug build. *)
Lemma ipam_refines ipam pod ip answers log cause (w : World (M := M)) :
  (forall r log', run_alone (Ipam.address debug_assertions ipam pod) answers log = Some (r, log') ->
     (debug_assertions = true /\ r = Crash Panicked)
     \/ run_alone (State.ipam_address pod) [given (address_of r) true cause] w
        = Some (seen cause r, call_ipam (IpamAddress pod (match r with Done ip => Some ip | _ => None end)) w))
  /\ (forall r log', run_alone (Ipam.deactivate ipam ip) answers log = Some (r, log') ->
     run_alone (State.deactivate ip) [given None (succeeds r) cause] w
     = Some (seen cause r, call_ipam (IpamDeactivate ip (succeeds r)) w))
  /\ (forall r log', run_alone (Ipam.deallocate ipam ip) answers log = Some (r, log') ->
     run_alone (State.deallocate ip) [given None (succeeds r) cause] w
     = Some (seen cause r, call_ipam (IpamDeallocate ip (succeeds r)) w)).
Proof.
  set (b := mkBooks ∅ ∅ ∅). split_and!; intros r log' Hr.
  - apply (yields_run _ _ _ _ _ _ (yields_address debug_assertions ipam pod)) in Hr as (es & _ & H). specialize (H b).
    destruct r as [[addr len pod']|e|c]; [|by right|left; by destruct H as [-> ->]].
    right. destruct H as [Hpod _]. simpl in Hpod. by subst pod'.
  - apply (yields_run _ _ _ _ _ _ (yields_deactivate ipam ip)) in Hr as (es & _ & H). specialize (H b).
    by destruct r as [[]|e|c].
  - apply (yields_run _ _ _ _ _ _ (yields_deallocate ipam ip)) in Hr as (es & _ & H). specialize (H b).
    by destruct r as [[]|e|c].
Qed.
End Refinement.

(** ** Properties *)
Section Properties.
Context {L : IpamLibs} {LL : IpamLaws} {R : RegexCrate} {RL : RegexLaws R} (debug_assertions : bool).

(** C35. The ID that a pod's address is allocated for is 64 lowercase hexadecimal digits, so it has
    none of the characters of pod names that [host-local] does not take; and two pods have the
    same ID only if they are the same pod, or SHA-256 has a collision in their names. *)
Theorem container_ids_identify p p'
    (Hp : component_valid (p_component p)) (Hid : u_range 64 (p_pod p))
    (Hp' : component_valid (p_component p')) (Hid' : u_range 64 (p_pod p')) :
  (exists id, ipam_container_id p = Done id /\ length id = 64%nat /\ Forall (fun c => is_hex (Z_of_byte c) = true) id)
  /\ (ipam_container_id p = ipam_container_id p' ->
      p = p' \/ (PodName_display p <> PodName_display p'
                 /\ sha256 (PodName_display p) = sha256 (PodName_display p'))).
Proof.
  destruct p as [c id], p' as [c' id']. rewrite !ipam_container_id_hex. split.
  - eexists. split; [done |]. rewrite length_hex_of, sha256_length. split; [done |].
    apply Forall_forall. intros b Hb. destruct (is_hex (Z_of_byte b)) eqn:Ex; [done |].
    pose proof (hex_of_free b (sha256 (PodName_display (mkPodName c id))) Ex) as Hfree.
    unfold free in Hfree. rewrite Forall_forall in Hfree. specialize (Hfree b Hb). unfold is_char in Hfree. by rewrite bool_decide_eq_false in Hfree.
  - intros [= E%hex_of_inj]. destruct (decide (PodName_display (mkPodName c id) = PodName_display (mkPodName c' id'))) as [E'|Hne];
      [left | right; done]. apply (f_equal (fun s => to_pod (Name_parse s))) in E'.
    rewrite !pod_display_parses in E' by done. by injection E' as -> ->.
Qed.

(** C33. What is allocated and what is active after an attempt to give a pod an address, whatever
    the plugin and the kernel answer.  On success, the plugin has allocated an address for the
    pod's ID and the address returned, which is of its width, is active on the interface.  On failure nothing is
    active that was not, and the ID has been released, or never allocated; unless the plugin's
    reply made no sense, or the address could not be activated and then the plugin did not
    release it: in those cases the ID stays allocated, and the caller has nothing to release
    it with.  The assertion that the reply has one slash can crash a debug build. *)
Theorem address_accounts ipam pod answers log r log' b0
    (Hrun : run_alone (address debug_assertions ipam pod) answers log = Some (r, log')) :
  exists es, log' = log ++ es /\
    let before := books b0 log in let after := books b0 log' in
    let id := hex_of (sha256 (PodName_display pod)) in
    match r with
    | Done ip =>
        ip_pod_name ip = pod /\ ip_range (State.address ip) /\ u_range 8 (prefix_length ip)
        /\ allocated after = {[id]} ∪ allocated before
        /\ exists link, LinkLookup (interface ipam) (Replied (Some link)) ∈ es
             /\ active after = {[(link, State.address ip, prefix_length ip)]} ∪ active before
    | Failed e =>
        active after = active before
        /\ (allocated after = allocated before ∖ {[id]} \/ allocated after = allocated before
            \/ (allocated after = {[id]} ∪ allocated before
                /\ (unusable e \/ ((exists ip len e', e = AddingFailed ip len e') /\ release_failed es))))
    | Crash c => debug_assertions = true /\ c = Panicked
    end.
Proof.
  apply (yields_run _ _ _ _ _ _ (yields_address debug_assertions ipam pod)) in Hrun as (es & -> & Hr).
  exists es. split; [done |]. simpl. rewrite books_app. specialize (Hr (books b0 log)).
  destruct r as [ip|e|c]; [|exact Hr..]. destruct Hr as (Hpod & Hip & Hlen & link & Hin & ->). eauto 8.
Qed.

(** C34. Giving a pod an address, taking the address off the interface and releasing it, each with
    success and with the interface found under one index throughout, leaves nothing of the
    address: the pod's ID is not allocated, the address is not active, and all the rest is as
    it was. *)
Theorem release_undoes ipam pod answers log ip log' b0
    (Hrun : run_alone (ok! ip <- address debug_assertions ipam pod;
                       ok! _ <- deactivate ipam ip;
                       ok! _ <- deallocate ipam ip; Ret (Done ip))%prog answers log = Some (Done ip, log'))
    (Hlink : forall i j, LinkLookup (interface ipam) (Replied (Some i)) ∈ log' ->
                         LinkLookup (interface ipam) (Replied (Some j)) ∈ log' -> i = j) :
  let before := books b0 log in let after := books b0 log' in
  exists link,
    allocated after = allocated before ∖ {[hex_of (sha256 (PodName_display pod))]}
    /\ active after = active before ∖ {[(link, State.address ip, prefix_length ip)]}.
Proof.
  apply (yields_run _ _ _ _ _ _ (yields_release debug_assertions ipam pod)) in Hrun as (es & -> & Hes).
  destruct (Hes (books b0 log) ip eq_refl) as (link & link' & Hin & Hin' & Ha & Hact). exists link. simpl.
  rewrite books_app. split; [done |]. apply Hact, Hlink; apply elem_of_app; by right.
Qed.
End Properties.

(** ** Witnesses *)
(** A hash of 32 bytes that keeps short names apart, and a plugin that replies with the address
    alone. *)
Definition example_hash (s : list byte) : list byte :=
  let n := fold_left (fun acc b => (acc * 257 + Z_of_byte b) mod 2 ^ 256) s 0 in
  map (fun i => byte_of_Z ((n / 256 ^ Z.of_nat i) mod 256)) (seq 0 32).
Definition example_libs : IpamLibs := {|
  sha256 := example_hash;
  to_vec := fun _ => lit "{}";
  from_slice := fun reply => Some (mkIpamAddResult CNI_VERSION [mkIpamAddResultIp reply []]);
|}.
Lemma example_ipam_laws : @IpamLaws example_libs.
Proof. by split. Qed.

Section Witnesses.
#[local] Existing Instance derivative_crate.
#[local] Existing Instance derivative_laws.
#[local] Existing Instance example_libs.
#[local] Existing Instance example_ipam_laws.

Definition example_client : Ipam := mkIpam (lit "/opt/cni/bin/host-local") (lit "{}") (lit "eth0").
Definition some_pod : PodName := mkPodName some_component 5.
(** The plugin replies with an address; everything else succeeds. *)
Definition answering (reply : string) : NodeAnswer :=
  mkNodeAnswer None (Replied (true, lit reply)) (Replied (Some 2)) (Replied (Some 11)) true.
Definition no_books : Books := mkBooks ∅ ∅ ∅.

Lemma container_ids_identify_witness :
  ipam_container_id some_pod <> ipam_container_id (mkPodName some_component 6)
  /\ exists id, ipam_container_id some_pod = Done id /\ length id = 64%nat
       /\ Forall (fun c => is_hex (Z_of_byte c) = true) id.
Proof.
  destruct (container_ids_identify some_pod (mkPodName some_component 6)) as [Hid Heq];
    [exact some_component_valid | split; vm_compute; done | exact some_component_valid | split; vm_compute; done |].
  split; [|exact Hid]. intros E. destruct (Heq E) as [H|[_ H]]; [discriminate H|].
  apply (bool_decide_eq_true _) in H. revert H. vm_compute. discriminate.
Defined.

(** The plugin allocates an address, but the length of its prefix does not fit a byte. *)
Lemma address_accounts_witness :
  let id := hex_of (sha256 (PodName_display some_pod)) in
  let log := [PipeOpened None; PluginRan (plugin_call example_client (lit "ADD") id (config example_client))
                                         (Replied (true, lit "10.0.0.7/256"))] in
  run_alone (address false example_client some_pod) (replicate 2 (answering "10.0.0.7/256")) []
    = Some (Failed (InvalidPrefixLength (lit "10.0.0.7/256")), log)
  /\ id ∈ allocated (books no_books log) /\ active (books no_books log) = ∅.
Proof.
  intros id log.
  assert (Hrun : run_alone (address false example_client some_pod) (replicate 2 (answering "10.0.0.7/256")) []
    = Some (Failed (InvalidPrefixLength (lit "10.0.0.7/256")), log)) by (vm_compute; reflexivity).
  destruct (address_accounts false _ _ _ _ _ _ no_books Hrun) as (es & _ & Ha & _).
  split; [exact Hrun|]. split; [|exact Ha]. clear Ha. unfold log. rewrite books_reserve.
  apply elem_of_union_l, elem_of_singleton_2. reflexivity.
Defined.

Lemma release_undoes_witness :
  let ip := mkIpAddress (V4 0x0a000007) 24 some_pod in
  let p := (ok! ip <- address false example_client some_pod;
            ok! _ <- deactivate example_client ip;
            ok! _ <- deallocate example_client ip; Ret (Done ip))%prog in
  exists log, run_alone p (replicate 9 (answering "10.0.0.7/24")) [] = Some (Done ip, log)
    /\ length log = 9%nat
    /\ allocated (books no_books log) = ∅ /\ active (books no_books log) = ∅.
Proof.
  cbv zeta. eexists. split; [vm_compute; reflexivity |]. split; [reflexivity|].
  match goal with |- allocated (books no_books ?l) = _ /\ _ => set (log := l) end.
  assert (Hl : forall i, LinkLookup (lit "eth0") (Replied (Some i)) ∈ log -> i = 2).
  { intros i Hi. unfold log in Hi. repeat (apply elem_of_cons in Hi as [Hi|Hi]; [first [discriminate Hi | by injection Hi]|]).
    by apply not_elem_of_nil in Hi. }
  destruct (release_undoes false example_client some_pod (replicate 9 (answering "10.0.0.7/24"))
              [] (mkIpAddress (V4 0x0a000007) 24 some_pod) log no_books)
    as (link & Ha & Hact); [vm_compute; reflexivity | intros i j Hi Hj; by rewrite (Hl i Hi), (Hl j Hj) |].
  rewrite Ha, Hact. split; set_solver.
Defined.
End Witnesses.
