(* ===== verification/Pods.v ===== *)
(** * gRPC pods

    Models [src/runtime/pods.rs] and [src/runtime/host.rs]: building the routes of a pod from
    the metadata of its container, and what is done with a request: it is decoded, the
    component's function is called with it in a fresh instance, and the result is encoded.

    [wasmtime], [axum], [tonic] and [http] are classes, with the laws that their documentation
    gives.  A function of a component runs in the environment, whose choice it is what
    instantiating and calling it does; the world of a call is the log of what it asked. *)

From S2P Require Import Prelude Prost Wire Names Concurrent Ordering.
From S2P Require Import DecodeLib DecodeScalar DecodeCompound EncodeLib EncodeScalar EncodeCompound Containers.

#[local] Open Scope Z_scope.

(** ** The metadata of a component *)
Record GrpcMethod := mkGrpcMethod {
  function : string;
  arity : Z;
  request : option Field;
  response : option Field;
}.
Record GrpcService := mkGrpcService { name : string; methods : gmap string GrpcMethod }.
Record Metadata := mkMetadata { service : list GrpcService }.

(** ** Host functions *)
Inductive HostFunction := GetEnvironment | Exit (arguments : outcome unit unit).
Inductive HostResult := Environment (variables : list (string * string)) | Exited.

(** [get_environment] and [exit]. *)
Definition run_host (f : HostFunction) : HostResult :=
  match f with
  | GetEnvironment => Environment []
  | Exit _ => Exited
  end.

(** ** Other crates *)
Class Wasmtime (Component : Type) := {
  Linker : Type;
  InstancePre : Type;
  ComponentExportIndex : Type;
  Linker_new : Linker;
  (** [linker.instance(i)?.func_wrap_async(n, f)?] *)
  define : Linker -> string -> string -> (outcome unit unit -> HostFunction) -> option Linker;
  instantiate_pre : Linker -> Component -> option InstancePre;
  get_export_index : Component -> string -> option ComponentExportIndex;
}.

(** Routers from paths to endpoints; [None]: a call panics. *)
Class Axum := {
  Router : Type -> Type;
  Router_default {E} : Router E;
  route {E} : Router E -> str -> E -> option (Router E);
  nest {E} : Router E -> str -> Router E -> option (Router E);
  (** The endpoint that serves a path, if any does. *)
  lookup_path {E} : Router E -> str -> option E;
}.

(** Metadata of a request: the type of a header depends on the suffix of its key. *)
Inductive KeyAndValue :=
| AsciiHeader (key : str) (value : list byte)
| BinaryHeader (key : str) (value : list byte).

Record GrpcConfig := mkGrpcConfig {
  accept_compression : list string;
  send_compression : list string;
  max_decoding_message_size : option Z;
  max_encoding_message_size : option Z;
}.

Class Tonic := {
  HttpRequest : Type;
  HttpResponse : Type;
  (** [HeaderValue::to_str] *)
  to_str : list byte -> option str;
  (** [Grpc::unary], for a codec, given by its decoder and encoder, and a service. *)
  unary {W A : Type} : GrpcConfig -> (list byte -> outcome Status Val) -> (Val -> outcome Status (list byte)) ->
    (list KeyAndValue * Val -> prog W A (outcome Status Val)) -> HttpRequest -> prog W A (outcome Empty_set HttpResponse);
  (** The metadata and the message of a request that has one message, not compressed. *)
  framed : HttpRequest -> option (list KeyAndValue * list byte);
  message_response : list byte -> HttpResponse;
  oversized_response : list byte -> HttpResponse;
  status_response : Status -> HttpResponse;
}.

Definition within (limit : option Z) (bytes : list byte) : bool :=
  match limit with Some n => Z.of_nat (length bytes) <=? n | None => true end.

(** The response for what a service answers. *)
Definition respond {T : Tonic} (config : GrpcConfig) (encode : Val -> outcome Status (list byte))
    (r : outcome Status Val) : outcome Empty_set HttpResponse :=
  match (let? v := r in encode v) with
  | Done bs => Done (if within (max_encoding_message_size config) bs then message_response bs else oversized_response bs)
  | Failed s => Done (status_response s)
  | Crash c => Crash c
  end.

Class TonicLaws `{Tonic} := {
  to_str_same v s : to_str v = Some s -> s = v;
  (** A message within the limit is decoded, handed to the service and answered. *)
  unary_message {W A} config decode encode (service : _ -> prog W A _) req metadata bytes :
    framed req = Some (metadata, bytes) -> within (max_decoding_message_size config) bytes = true ->
    same_steps (unary config decode encode service req)
      (do! r <- (ok! v <- Ret (decode bytes); service (metadata, v)); Ret (respond config encode r))%prog;
}.

(** ** Paths *)
Definition SLASH : byte := x2f.
(** A segment without captures. *)
Definition plain (s : str) : Prop := s <> [] /\ Forall (fun b => b ∉ [SLASH; x3a; x2a; x7b; x7d]) s.

Class AxumLaws `{Axum} := {
  lookup_default {E} p : lookup_path (@Router_default _ E) p = None;
  route_lookup {E} (r r' : Router E) s e q :
    plain s -> route r (SLASH :: s) e = Some r' ->
    lookup_path r' q = if decide (q = SLASH :: s) then Some e else lookup_path r q;
  (** Overlapping routes panic, and only they do. *)
  route_succeeds {E} (r : Router E) s e :
    plain s -> (is_Some (route r (SLASH :: s) e) <-> lookup_path r (SLASH :: s) = None);
  nest_lookup {E} (r r' inner : Router E) s q :
    plain s -> lookup_path inner [SLASH] = None -> nest r (SLASH :: s) inner = Some r' ->
    lookup_path r' (SLASH :: s ++ q) =
      match lookup_path inner q with Some e => Some e | None => lookup_path r (SLASH :: s ++ q) end;
  nest_elsewhere {E} (r r' inner : Router E) s p :
    plain s -> lookup_path inner [SLASH] = None -> nest r (SLASH :: s) inner = Some r' ->
    (forall q, p = SLASH :: s ++ q -> lookup_path inner q = None) -> lookup_path r' p = lookup_path r p;
  nest_succeeds {E} (r inner : Router E) s :
    plain s -> lookup_path inner [SLASH] = None ->
    (is_Some (nest r (SLASH :: s) inner)
     <-> forall q, is_Some (lookup_path inner q) -> lookup_path r (SLASH :: s ++ q) = None);
}.

(** ** Serving a method *)
(** [Codec] *)
Record Codec := mkCodec { decoder : Merger; encoder : Encoder }.

Definition MAX_DECODING_MESSAGE_SIZE : option Z := Some (1024 * 1024).
Definition MAX_ENCODING_MESSAGE_SIZE : option Z := Some (1024 * 1024).

Inductive InitError :=
| Getting (e : StoreError)
| LinkerFailed
| LinkingError
| MissingRequest
| MissingResponse
| InvalidRequestDecoder (e : CompileError)
| InvalidResponseEncoder (e : EncodeCompileError)
| FunctionNotFound (function : string).

Inductive GrpcError := JoinFailure | InitializingFailed (e : InitError).

(** [Codec::new] *)
Definition Codec_new (decoder encoder : Field) : outcome InitError Codec :=
  let? decoder := map_err InvalidRequestDecoder (message_inner decoder) in
  let? encoder := map_err InvalidResponseEncoder (Encoder_message_inner encoder) in
  Done (mkCodec decoder encoder).

Section Loops.
Context {A : Axum} {O : HashOrder}.

Definition or_panic {E B} (o : option B) : outcome E B := match o with Some b => Done b | None => Crash Panicked end.

(** The loops of [initialize_grpc], for the endpoint of a method. *)
Definition add_method {B} (endpoint : GrpcMethod -> outcome InitError B) (router : Router B)
    (m : string * GrpcMethod) : outcome InitError (Router B) :=
  let? e := endpoint m.2 in or_panic (route router (SLASH :: string_bytes m.1) e).

Definition add_service {B} (endpoint : GrpcMethod -> outcome InitError B) (router : Router B)
    (s : GrpcService) : outcome InitError (Router B) :=
  let? method_router := try_fold (add_method endpoint) Router_default (map_entries (methods s)) in
  or_panic (nest router (SLASH :: string_bytes (name s)) method_router).

End Loops.

Section Pods.
Context {W : WireOps} {Component : Type} {X : Wasmtime Component} {A : Axum} {T : Tonic} {O : HashOrder}.
Context {CC : ContainerCodec Component Metadata}.

(** [MethodInner] *)
Record Method := mkMethod { method_function : ComponentExportIndex; instantiator : InstancePre; method_component : ComponentName }.

(** What can be asked of wasmtime during a call. *)
Inductive WasmEvent :=
| Instantiated (i : InstancePre) (ok : bool)
| Selected (f : ComponentExportIndex) (ok : bool)
| Called (f : ComponentExportIndex) (parameters : list Val) (result : option Val).

Record WasmAnswer := mkWasmAnswer {
  wa_instantiates : bool;
  wa_selects : bool;
  wa_call : list Val -> option Val;
}.

Abbreviation wop B := (prog (list WasmEvent) WasmAnswer B) (only parsing).

(** A turn of the loop over the headers; those that are skipped are logged. *)
Definition header_value (header : KeyAndValue) : option Val :=
  match header with
  | AsciiHeader key value =>
      match to_str value with
      | Some value => Some (VTuple [VString (bytes_string key); VString (bytes_string value)])
      | None => None
      end
  | BinaryHeader _ _ => None
  end.

Definition call_context (metadata : list KeyAndValue) : Val :=
  VRecord [("headers"%string, VList (omap header_value metadata))].

(** [Method::call].  The slice of results has one element, which the call overwrites, so
    there is one to pop. *)
Definition call (method : Method) (request : list KeyAndValue * Val) : wop (outcome Status Val) :=
  (ok! _ <- consult (fun a => Instantiated (instantiator method) (wa_instantiates a))
             (fun a => if wa_instantiates a then Done tt else Failed (Internal "Module instantiation error"));
   ok! _ <- consult (fun a => Selected (method_function method) (wa_selects a))
             (fun a => if wa_selects a then Done tt else Failed (Internal "Function selection error"));
   let (metadata, request) := request in
   let parameters := [call_context metadata; request] in
   consult (fun a => Called (method_function method) parameters (wa_call a parameters))
     (fun a => match wa_call a parameters with
               | Some result => Done result
               | None => Failed (Internal "Function invocation error")
               end))%prog.

(** [ResponseEncoder::encode] of a release build: in others it also asserts that no lengths are
    left. *)
Definition encode_response (inner : Encoder) (item : Val) : outcome Status (list byte) :=
  let? (bs, lengths) := response_encode inner item in Done bs.

Record Endpoint := mkEndpoint { codec : Codec; method : Method }.

Definition grpc_config : GrpcConfig := mkGrpcConfig [] [] MAX_DECODING_MESSAGE_SIZE MAX_ENCODING_MESSAGE_SIZE.

(** What is posted to an endpoint. *)
Definition post (e : Endpoint) (request : HttpRequest) : wop (outcome Empty_set HttpResponse) :=
  unary grpc_config (decode (decoder (codec e))) (encode_response (encoder (codec e))) (call (method e)) request.

(** ** Building the routes *)
Definition grpc_linker : option Linker :=
  linker ← define Linker_new "wasi:cli/environment@0.2.1" "get-environment" (fun _ => GetEnvironment);
  define linker "wasi:cli/exit@0.2.1" "exit" Exit.

(** A method's endpoint. *)
Definition method_endpoint (component_name : ComponentName) (component : Component) (instantiator : InstancePre)
    (m : GrpcMethod) : outcome InitError Endpoint :=
  let? request := ok_or (request m) MissingRequest in
  let? response := ok_or (response m) MissingResponse in
  let? codec := Codec_new request response in
  let? export_index := ok_or (get_export_index component (function m)) (FunctionNotFound (function m)) in
  Done (mkEndpoint codec (mkMethod export_index instantiator component_name)).

Definition build_routes (component_name : ComponentName) (container : Container) :
    outcome InitError (Router Endpoint) :=
  let? linker := ok_or grpc_linker LinkerFailed in
  let? instantiator := ok_or (instantiate_pre linker (component container)) LinkingError in
  try_fold (add_service (method_endpoint component_name (component container) instantiator)) Router_default
    (service (metadata container)).

Definition initialize_grpc (component_name : ComponentName) :
    prog ContainerStore StoreAnswer (outcome InitError (Router Endpoint)) :=
  (do! container <- get component_name;
   Ret (let? container := map_err Getting container in build_routes component_name container))%prog.

(** [PodInitializer::grpc]: the result of the shared future; a panic of the task is an error
    of joining it. *)
Definition grpc (component_name : ComponentName) :
    prog ContainerStore StoreAnswer (outcome GrpcError (Router Endpoint)) :=
  (do! result <- initialize_grpc component_name;
   Ret (match result with
        | Crash Panicked => Failed JoinFailure
        | r => map_err InitializingFailed r
        end))%prog.

(** What a pod does with a request for a path. *)
Definition serve_path (routes : Router Endpoint) (path : str) (request : HttpRequest) :
    option (wop (outcome Empty_set HttpResponse)) :=
  (fun e => post e request) <$> lookup_path routes path.
End Pods.
