(* ===== verification/PodsSpec.v ===== *)
(** * What a gRPC pod serves

    - The routes of a pod are its metadata's methods, each at its path, and no others; an image
      that is pulled makes a pod that serves it.
    - What is answered to a request, from its bytes to those of the response.
    - The functions that the compiler declares take one parameter, and are called with two. *)

From S2P Require Import Prelude Prost Wire Typing Names NamesSpec Concurrent Ordering.
From S2P Require Import DecodeLib DecodeScalar DecodeCompound DecodeSpec EncodeLib EncodeScalar EncodeCompound Roundtrip.
From S2P Require Import Files FilesSpec State Containers ContainersSpec Pods.

#[local] Open Scope Z_scope.

(** ** The routes *)
Section Routes.
Context {A : Axum} {AL : AxumLaws} {O : HashOrder} {OL : HashOrderLaws} {E : Type}.
Context (endpoint : GrpcMethod -> outcome InitError E).

Definition method_path (s n : string) : str := SLASH :: string_bytes s ++ SLASH :: string_bytes n.
Definition plain_service (s : GrpcService) : Prop :=
  plain (string_bytes (name s)) /\ forall n m, methods s !! n = Some m -> plain (string_bytes n).

Lemma or_panic_done {F B} (o : option B) b : @or_panic F B o = Done b <-> o = Some b.
Proof. destruct o; simpl; split; congruence. Qed.


(** After the loop over the methods, their paths are served too. *)
Lemma add_methods_serve l r0 r :
  Forall (fun nm => plain (string_bytes nm.1)) l -> try_fold (add_method endpoint) r0 l = Done r ->
  forall q e, lookup_path r q = Some e
    <-> lookup_path r0 q = Some e
        \/ exists n m, (n, m) ∈ l /\ q = SLASH :: string_bytes n /\ endpoint m = Done e.
Proof.
  intros Hl. revert r0. induction Hl as [|[n m] l Hn _ IH]; simpl; intros r0 Hr q e.
  - injection Hr as <-. split; [by left |]. intros [?|(n & m & []%not_elem_of_nil & _)]. done.
  - apply obind_done in Hr as (r1 & H1 & Hr). apply obind_done in H1 as (e1 & He & H1%or_panic_done). simpl in *.
    rewrite (IH _ Hr), (route_lookup _ _ _ _ q Hn H1).
    pose proof (proj1 (route_succeeds r0 _ e1 Hn) (mk_is_Some _ _ H1)) as Hfree. split.
    + intros [Hq|(n' & m' & Hin & ? & ?)]; [|right; exists n', m'; split_and!; [by right | done..]].
      case_decide as Eq; [|by left]. injection Hq as <-. right. exists n, m. split_and!; [by left | done..].
    + intros [Hq|(n' & m' & [[= -> ->]|Hin]%elem_of_cons & -> & He')].
      * left. case_decide; [subst; congruence | done].
      * left. rewrite decide_True by done. congruence.
      * right. eauto.
Qed.

Lemma add_methods_succeed l r0 :
  Forall (fun nm => plain (string_bytes nm.1) /\ exists e, endpoint nm.2 = Done e) l -> NoDup l.*1 ->
  (forall n, n ∈ l.*1 -> lookup_path r0 (SLASH :: string_bytes n) = None) ->
  exists r, try_fold (add_method endpoint) r0 l = Done r.
Proof.
  intros Hl. revert r0. induction Hl as [|[n m] l [Hn [e He]] _ IH]; simpl; intros r0 Hnd Hfree; [eauto |].
  apply NoDup_cons in Hnd as [Hnin Hnd]. simpl in *.
  destruct (proj2 (route_succeeds r0 _ e Hn) (Hfree n (list_elem_of_here _ _))) as [r1 H1].
  destruct (IH r1 Hnd) as [r Hr].
  - intros n' Hin. rewrite (route_lookup _ _ _ _ _ Hn H1), decide_False; [apply Hfree; by right |].
    intros [= E1]. apply (f_equal bytes_string) in E1. rewrite !bytes_string_bytes in E1. by subst.
  - exists r. unfold add_method. simpl. rewrite He. simpl. rewrite H1. exact Hr.
Qed.

(** The router of a service. *)
Definition service_routes (s : GrpcService) (inner : Router E) : Prop :=
  forall q e, lookup_path inner q = Some e
    <-> exists n m, methods s !! n = Some m /\ q = SLASH :: string_bytes n /\ endpoint m = Done e.

Lemma service_routes_spec s inner : plain_service s ->
  try_fold (add_method endpoint) Router_default (map_entries (methods s)) = Done inner -> service_routes s inner.
Proof.
  intros [_ Hs] Hr q e.
  assert (Hin : forall n m, (n, m) ∈ map_entries (methods s) <-> methods s !! n = Some m).
  { intros n m. by rewrite (map_entries_perm (methods s)), elem_of_map_to_list. }
  rewrite (add_methods_serve _ _ _ ltac:(apply Forall_forall; intros [n m] H%Hin; by eapply Hs) Hr).
  rewrite lookup_default. setoid_rewrite Hin. naive_solver.
Qed.

Lemma service_routes_root s inner : plain_service s -> service_routes s inner -> lookup_path inner [SLASH] = None.
Proof.
  intros [_ Hs] Hi. destruct (lookup_path inner [SLASH]) as [e|] eqn:El; [|done].
  apply Hi in El as (n & m & Hm & [= Eq] & _). destruct (Hs n m Hm) as [Hne _]. by destruct Hne.
Qed.

Lemma service_routes_exist s : plain_service s -> (forall n m, methods s !! n = Some m -> exists e, endpoint m = Done e) ->
  exists inner, try_fold (add_method endpoint) Router_default (map_entries (methods s)) = Done inner.
Proof.
  intros [_ Hs] He. apply add_methods_succeed.
  - apply Forall_forall. intros [n m] Hin. rewrite (map_entries_perm (methods s)), elem_of_map_to_list in Hin. eauto.
  - rewrite (map_entries_perm (methods s)). apply NoDup_fst_map_to_list.
  - intros n _. apply lookup_default.
Qed.

Lemma nest_serves s r0 r inner : plain_service s -> service_routes s inner ->
  nest r0 (SLASH :: string_bytes (name s)) inner = Some r ->
  forall q e, lookup_path r q = Some e
    <-> lookup_path r0 q = Some e
        \/ exists n m, methods s !! n = Some m /\ q = method_path (name s) n /\ endpoint m = Done e.
Proof.
  intros Hs Hi Hnest q e. pose proof (service_routes_root _ _ Hs Hi) as Hroot. pose proof (proj1 Hs) as Hname.
  pose proof (proj1 (nest_succeeds r0 inner _ Hname Hroot) (mk_is_Some _ _ Hnest)) as Hfree.
  assert (Hm : (exists n m, methods s !! n = Some m /\ q = method_path (name s) n /\ endpoint m = Done e)
    <-> exists p, q = SLASH :: string_bytes (name s) ++ p /\ lookup_path inner p = Some e).
  { split.
    - intros (n & m & Hm & -> & He). exists (SLASH :: string_bytes n). split; [done |]. apply Hi. eauto.
    - intros (p & -> & (n & m & Hm & -> & He)%Hi). exists n, m. done. }
  rewrite Hm. clear Hm.
  destruct (decide ((SLASH :: string_bytes (name s)) `prefix_of` q)) as [[p ->]|Hno].
  - cbn [app]. rewrite (nest_lookup _ _ _ _ p Hname Hroot Hnest). split.
    + destruct (lookup_path inner p) as [e'|] eqn:Ep; [intros [= ->]; eauto | by left].
    + intros [H|(p' & [= Eq%app_inv_head] & Hp)].
      * destruct (lookup_path inner p) as [e'|] eqn:Ep; [|done]. by rewrite (Hfree p (mk_is_Some _ _ Ep)) in H.
      * subst p'. by rewrite Hp.
  - rewrite (nest_elsewhere _ _ _ _ q Hname Hroot Hnest); [|intros p ->; by destruct Hno; exists p].
    split; [by left |]. intros [H|(p & -> & _)]; [done |]. by destruct Hno; exists p.
Qed.

Lemma add_services_serve l r0 r : Forall plain_service l -> try_fold (add_service endpoint) r0 l = Done r ->
  forall q e, lookup_path r q = Some e
    <-> lookup_path r0 q = Some e
        \/ exists s n m, s ∈ l /\ methods s !! n = Some m /\ q = method_path (name s) n /\ endpoint m = Done e.
Proof.
  intros Hl. revert r0. induction Hl as [|s l Hs _ IH]; simpl; intros r0 Hr q e.
  - injection Hr as <-. split; [by left |]. intros [?|(? & ? & ? & []%not_elem_of_nil & _)]. done.
  - apply obind_done in Hr as (r1 & H1 & Hr). apply obind_done in H1 as (inner & Hi & H1%or_panic_done).
    apply (service_routes_spec _ _ Hs) in Hi. rewrite (IH _ Hr), (nest_serves _ _ _ _ Hs Hi H1).
    setoid_rewrite elem_of_cons. naive_solver.
Qed.

Lemma method_path_service s s' n n' : plain (string_bytes s) -> plain (string_bytes s') ->
  method_path s n = method_path s' n' -> s = s'.
Proof.
  intros [_ Hs] [_ Hs'] [= E1].
  assert (Hno : forall t : str, Forall (fun b => b ∉ [SLASH; x3a; x2a; x7b; x7d]) t -> SLASH ∉ t).
  { intros t Ht Hin. rewrite Forall_forall in Ht. apply (Ht _ Hin). by left. }
  apply (f_equal (split SLASH)) in E1. rewrite !split_app in E1 by auto. injection E1 as E1 _.
  apply (f_equal bytes_string) in E1. by rewrite !bytes_string_bytes in E1.
Qed.

Lemma add_services_succeed l r0 : Forall plain_service l -> NoDup (name <$> l) ->
  (forall s n m, s ∈ l -> methods s !! n = Some m -> exists e, endpoint m = Done e) ->
  (forall s n, s ∈ l -> lookup_path r0 (method_path (name s) n) = None) ->
  exists r, try_fold (add_service endpoint) r0 l = Done r.
Proof.
  intros Hl. revert r0. induction Hl as [|s l Hs Hl IH]; simpl; intros r0 Hnd He Hfree; [eauto |].
  apply NoDup_cons in Hnd as [Hnin Hnd].
  destruct (service_routes_exist s Hs) as [inner Hinner]; [intros n m; apply He; by left |].
  pose proof (service_routes_spec _ _ Hs Hinner) as Hi. pose proof (service_routes_root _ _ Hs Hi) as Hroot.
  destruct (proj2 (nest_succeeds r0 inner _ (proj1 Hs) Hroot)) as [r1 H1].
  { intros q [e (n & m & Hm & -> & _)%Hi]. apply (Hfree s n). by left. }
  destruct (IH r1 Hnd) as [r Hr].
  - intros s' n m Hin. apply He. by right.
  - intros s' n Hin. destruct (lookup_path r1 _) as [e|] eqn:El; [|done].
    apply (nest_serves _ _ _ _ Hs Hi H1) in El as [El|(n' & m & _ & Eq & _)].
    + by rewrite (Hfree s' n) in El by (by right).
    + rewrite Forall_forall in Hl. apply method_path_service in Eq; [|apply (Hl s' Hin) | apply Hs].
      destruct Hnin. rewrite <- Eq. by apply list_elem_of_fmap_2.
  - exists r. unfold add_service. rewrite Hinner. simpl. rewrite H1. exact Hr.
Qed.
End Routes.

(** ** Pulling and initialising *)
Section Serving.
Context {W : WireOps} {Component : Type} {X : Wasmtime Component} {A : Axum} {AL : AxumLaws} {T : Tonic}.
Context {O : HashOrder} {OL : HashOrderLaws}.
Context {CC : ContainerCodec Component Metadata} {CL : ContainerCodecLaws Component Metadata}.
Context (insecure_registries : list str) (overflow_checks : bool) (network : str -> Containers.HttpResponse).

(** C18. An image that is pulled makes a pod: when the registry serves a component that links, and
    metadata whose services have different names (without captures) and whose methods compile and name a
    function of the component, then after the pull the pod's initialisation succeeds, and its
    routes are exactly the methods of the metadata, each at [/service/method] with the
    endpoint made from it. *)
Theorem pulled_pod_serves registry component_name image_spec d u container bs linker pre
    (Hwf : domain_wf (s_domain (c_server component_name))) (Hd : sound_but file_names [] (tree d))
    (Hserved : served insecure_registries network registry component_name = Done container)
    (Hser : serialize (component container) = Some bs) (Hlen : Z.of_nat (length bs) <= ISIZE_MAX)
    (Hbytes : bytes u + 8 + Z.of_nat (length bs) + Z.of_nat (length (encode_metadata (metadata container)))
              + Z.of_nat (length (encode_image_spec image_spec)) < 2 ^ 64)
    (Hinodes : inodes u + 5 < 2 ^ 64)
    (Hlinker : grpc_linker = Some linker) (Hpre : instantiate_pre linker (component container) = Some pre)
    (Hplain : Forall plain_service (service (metadata container)))
    (Hnames : NoDup (name <$> service (metadata container)))
    (Hmethods : forall s n m, s ∈ service (metadata container) -> methods s !! n = Some m ->
       exists e, method_endpoint component_name (component container) pre m = Done e) :
  exists w' routes,
    run_with (calm network) (pull insecure_registries overflow_checks registry component_name image_spec) (mkStore d u Unlocked)
      = Some (Done tt, w')
    /\ run_with (calm network) (grpc component_name) w' = Some (Done routes, w')
    /\ forall path e, lookup_path routes path = Some e
         <-> exists s n m, s ∈ service (metadata container) /\ methods s !! n = Some m /\ path = method_path (name s) n
               /\ method_endpoint component_name (component container) pre m = Done e.
Proof.
  destruct (pulled_readable insecure_registries overflow_checks network registry component_name image_spec d u container bs)
    as (w' & Hpull & Hget & _); [done..|].
  destruct (add_services_succeed (method_endpoint component_name (component container) pre)
    (service (metadata container)) Router_default Hplain Hnames Hmethods) as [routes Hr]; [intros; apply lookup_default |].
  exists w', routes. split; [exact Hpull |]. split.
  - unfold grpc, initialize_grpc. rewrite !run_with_pbind, Hget. simpl. unfold build_routes. rewrite Hlinker. simpl.
    rewrite Hpre. simpl. by rewrite Hr.
  - intros path e. rewrite (add_services_serve _ _ _ _ Hplain Hr), lookup_default. naive_solver.
Qed.
End Serving.

(** ** Answering a request *)
Section Answering.
Context `{WL : WireLaws} {Component : Type} {X : Wasmtime Component} {T : Tonic} {TL : TonicLaws}.

(** What a call asks of wasmtime, and its result. *)
Definition call_events (m : Method) (metadata : list KeyAndValue) (v : Val) (a : WasmAnswer) : list WasmEvent :=
  if wa_instantiates a then
    Instantiated (instantiator m) true ::
    (if wa_selects a then
       let parameters := [call_context metadata; v] in
       [Selected (method_function m) true; Called (method_function m) parameters (wa_call a parameters)]
     else [Selected (method_function m) false])
  else [Instantiated (instantiator m) false].

Definition call_result (metadata : list KeyAndValue) (v : Val) (a : WasmAnswer) : outcome Status Val :=
  if wa_instantiates a then
    if wa_selects a then
      match wa_call a [call_context metadata; v] with
      | Some r => Done r
      | None => Failed (Internal "Function invocation error")
      end
    else Failed (Internal "Function selection error")
  else Failed (Internal "Module instantiation error").

Lemma run_call m metadata v a log :
  run_with a (call m (metadata, v)) log = Some (call_result metadata v a, log ++ call_events m metadata v a).
Proof.
  unfold call, call_result, call_events, and_then, consult, atomic. simpl.
  destruct (wa_instantiates a); simpl; [|done]. destruct (wa_selects a); simpl; [|by rewrite <- app_assoc].
  destruct (wa_call a _); simpl; by rewrite <- !app_assoc.
Qed.

Lemma run_with_same {S A R} (p q : prog S A R) (a : A) w : same_steps p q -> run_with a p w = run_with a q w.
Proof.
  revert q w. induction p as [r|B f k IH]; intros q w H; simpl in H; [by subst |].
  destruct H as (k' & -> & H). simpl. destruct (f a w) as [[b w']|]; simpl; auto.
Qed.

Lemma run_post e req metadata bs a log :
  framed req = Some (metadata, bs) -> within MAX_DECODING_MESSAGE_SIZE bs = true ->
  run_with a (post e req) log =
    match decode (decoder (codec e)) bs with
    | Done v => Some (respond grpc_config (encode_response (encoder (codec e))) (call_result metadata v a),
                      log ++ call_events (method e) metadata v a)
    | Failed s => Some (Done (status_response s), log)
    | Crash c => Some (Crash c, log)
    end.
Proof.
  intros Hf Hl. unfold post. rewrite (run_with_same _ _ _ _ (unary_message grpc_config _ _ _ _ _ _ Hf Hl)), run_with_pbind.
  unfold and_then. rewrite run_with_pbind. cbn [run_with mbind option_bind].
  destruct (decode _ bs) as [v|s|c]; [|done..]. by rewrite run_call.
Qed.

(** A header that is passed on. *)
Definition ascii_header (h : KeyAndValue) : option (str * str) :=
  match h with
  | AsciiHeader key value => value ← to_str value; Some (key, value)
  | BinaryHeader _ _ => None
  end.

End Answering.
