(* ===== verification/PodsRuns.v ===== *)
(** * A pod that adds

    Concrete instances of the classes of [Pods]: a router that is a list, a [tonic] that frames
    nothing, and an engine that links everything; and the pod of the tests' adder
    ([src/runtime/tests/components/adder.txtpb]), from its image to its response. *)

From S2P Require Import Prelude Prost Wire Typing Regexp Names NamesSpec Concurrent Ordering.
From S2P Require Import DecodeLib DecodeScalar DecodeCompound DecodeSpec EncodeLib EncodeScalar EncodeCompound Roundtrip.
From S2P Require Import Files FilesSpec State Containers ContainersSpec ContainersRuns Pods PodsSpec.

#[local] Open Scope Z_scope.

(** ** A router *)
Definition ListRouter (E : Type) : Type := list (str * E).
Fixpoint find_route {E} (r : ListRouter E) (p : str) : option E :=
  match r with
  | [] => None
  | (q, e) :: r' => if decide (p = q) then Some e else find_route r' p
  end.

Definition list_axum : Axum := {|
  Router := ListRouter;
  Router_default E := [];
  route E r p e := match find_route r p with Some _ => None | None => Some ((p, e) :: r) end;
  nest E r p inner :=
    if forallb (fun '(q, _) => match find_route r (p ++ q) with Some _ => false | None => true end) inner
    then Some (((fun '(q, e) => (p ++ q, e)) <$> inner) ++ r) else None;
  lookup_path E := find_route;
|}.

Lemma find_route_app {E} (r r' : ListRouter E) p :
  find_route (r ++ r') p = match find_route r p with Some e => Some e | None => find_route r' p end.
Proof. induction r as [|[q e] r IH]; simpl; [done |]. by case_decide. Qed.

Lemma find_route_nested {E} (r : ListRouter E) p q :
  find_route ((fun '(q, e) => (p ++ q, e)) <$> r) (p ++ q) = find_route r q.
Proof.
  induction r as [|[q' e] r IH]; simpl; [done |]. destruct (decide (q = q')) as [->|Hne].
  - by rewrite decide_True.
  - by rewrite decide_False by (intros ?%app_inv_head; congruence).
Qed.

Lemma find_route_elsewhere {E} (r : ListRouter E) p s :
  (forall q, s = p ++ q -> find_route r q = None) -> find_route ((fun '(q, e) => (p ++ q, e)) <$> r) s = None.
Proof.
  induction r as [|[q e] r IH]; simpl; intros H; [done |].
  assert (Hne : s <> p ++ q).
  { intros ->. specialize (H q eq_refl). by rewrite decide_True in H. }
  rewrite decide_False by done. apply IH. intros q' Hq'. specialize (H q' Hq').
  by rewrite decide_False in H by (intros ->; congruence).
Qed.

Lemma find_route_in {E} (r : ListRouter E) q : is_Some (find_route r q) <-> q ∈ r.*1.
Proof.
  induction r as [|[q' e] r IH]; simpl.
  - split; [by intros [? [=]] | by intros ?%not_elem_of_nil].
  - rewrite elem_of_cons. case_decide; [naive_solver |]. rewrite IH. naive_solver.
Qed.

Lemma list_axum_laws : @AxumLaws list_axum.
Proof.
  split; cbn [Router Router_default route nest lookup_path list_axum]; intros.
  - done.
  - destruct (find_route r _); [done |]. by injection H0 as <-.
  - destruct (find_route r _); split; intros; [by destruct H0 as [? [=]] | done..|eauto].
  - destruct (forallb _ inner); [|done]. apply (inj Some) in H1 as <-. change (SLASH :: s ++ q) with ((SLASH :: s) ++ q).
    by rewrite find_route_app, find_route_nested.
  - destruct (forallb _ inner); [|done]. apply (inj Some) in H1 as <-.
    by rewrite find_route_app, find_route_elsewhere.
  - destruct (forallb _ inner) eqn:Ef; split; intros Hs; [|eauto|by destruct Hs as [? [=]]|].
    + intros q Hq%find_route_in. apply list_elem_of_fmap in Hq as ([q' e] & -> & Hin).
      rewrite forallb_iff in Ef. specialize (Ef _ Hin). simpl in *. by destruct (find_route r _).
    + exfalso. apply not_true_iff_false in Ef. apply Ef, forallb_iff. intros [q e] Hin.
      assert (Hq : is_Some (find_route inner q)) by (apply find_route_in, list_elem_of_fmap; by exists (q, e)).
      specialize (Hs q Hq). cbn [app] in *. by rewrite Hs.
Qed.

(** ** A server and an engine *)
(** Printable ASCII. *)
Definition visible (b : byte) : bool := (32 <=? Z_of_byte b) && (Z_of_byte b <? 127).

Definition plain_tonic : Tonic := {|
  HttpRequest := list KeyAndValue * list byte;
  HttpResponse := list byte * bool + Status;
  to_str v := if forallb visible v then Some v else None;
  unary W A config decode encode service req :=
    if within (max_decoding_message_size config) req.2 then
      (do! r <- (ok! v <- Ret (decode req.2); service (req.1, v));
       Ret (match (let? v := r in encode v) with
            | Done bs => Done (inl (bs, within (max_encoding_message_size config) bs))
            | Failed s => Done (inr s)
            | Crash c => Crash c
            end))%prog
    else Ret (Done (inl ([], false)));
  framed := Some;
  message_response bs := inl (bs, true);
  oversized_response bs := inl (bs, false);
  status_response := inr;
|}.

Lemma plain_tonic_laws : @TonicLaws plain_tonic.
Proof.
  split.
  - intros v s. cbn [to_str plain_tonic]. destruct (forallb visible v); [by intros [= ->] | done].
  - intros W A config decode encode service req metadata bs [= ->] Hl. cbn [unary plain_tonic fst snd]. rewrite Hl.
    apply pbind_proper; [reflexivity |]. intros r. unfold respond.
    destruct (let? v := r in encode v) as [bs'| |]; [|reflexivity..].
    cbn [message_response oversized_response plain_tonic]. destruct (within _ bs'); reflexivity.
Qed.

Definition any_wasmtime : Wasmtime (list byte) := {|
  Linker := list (string * string);
  InstancePre := list (string * string) * list byte;
  ComponentExportIndex := string;
  Linker_new := [];
  define l i n _ := Some ((i, n) :: l);
  instantiate_pre l c := Some (l, c);
  get_export_index _ f := Some f;
|}.

(** ** Images with metadata *)
#[local] Instance Coding_eq_dec : EqDecision Coding.
Proof. solve_decision. Defined.
#[local] Instance Coding_countable : Countable Coding.
Proof.
  apply (inj_countable' (fun c => match c with ScalarCodingOf n => inl n | CompoundCodingOf n => inr n end)
           (fun s => match s with inl n => ScalarCodingOf n | inr n => CompoundCodingOf n end)). by intros [].
Defined.

Fixpoint tree_of (f : Field) : gen_tree (Z * string * option Coding) :=
  match f with
  | mkField n name subs c => GenNode 0 (GenLeaf (n, name, c) :: map tree_of subs)
  end.
Fixpoint field_of (t : gen_tree (Z * string * option Coding)) : Field :=
  match t with
  | GenNode _ (GenLeaf (n, name, c) :: subs) => mkField n name (map field_of subs) c
  | _ => mkField 0 "" [] None
  end.
Fixpoint field_of_tree (f : Field) : field_of (tree_of f) = f.
Proof.
  destruct f as [n name subs c]. simpl. f_equal. induction subs as [|g subs IH]; simpl; [done |]. by rewrite field_of_tree, IH.
Qed.
#[local] Instance Field_eq_dec : EqDecision Field.
Proof. intros f g. refine (cast_if (decide (tree_of f = tree_of g))); [|congruence].
  rewrite <- (field_of_tree f), <- (field_of_tree g). congruence. Defined.
#[local] Instance Field_countable : Countable Field := inj_countable' tree_of field_of field_of_tree.

#[local] Instance GrpcMethod_eq_dec : EqDecision GrpcMethod.
Proof. solve_decision. Defined.
#[local] Instance GrpcMethod_countable : Countable GrpcMethod.
Proof.
  apply (inj_countable' (fun m => (function m, arity m, request m, response m))
           (fun '(f, a, q, r) => mkGrpcMethod f a q r)). by intros [].
Defined.
#[local] Instance GrpcService_eq_dec : EqDecision GrpcService.
Proof. solve_decision. Defined.
#[local] Instance GrpcService_countable : Countable GrpcService.
Proof. apply (inj_countable' (fun s => (name s, methods s)) (fun '(n, m) => mkGrpcService n m)). by intros []. Defined.
#[local] Instance Metadata_eq_dec : EqDecision Metadata.
Proof. solve_decision. Defined.
#[local] Instance Metadata_countable : Countable Metadata.
Proof. apply (inj_countable' service mkMetadata). by intros []. Defined.

(** ** The adder *)
Definition float_field (n : Z) (name : string) : Field := mkField n name [] (Some (ScalarCodingOf (scalar_coding_number FloatImplicit))).
Definition add_request : Field := mkField 0 "" [float_field 1 "x"; float_field 2 "y"] None.
Definition add_response : Field := mkField 0 "" [float_field 1 "result"] None.
Definition add_floats : GrpcMethod := mkGrpcMethod "add-floats" 0 (Some add_request) (Some add_response).
Definition adder_metadata : Metadata :=
  mkMetadata [mkGrpcService "foo.bar.AdderService" (<["AddFloats"%string := add_floats]> ∅)].

(** The adder's metadata has a short encoding. *)
Definition adder_codec : ContainerCodec (list byte) Metadata := {|
  compile := Some;
  serialize c := Some (c ++ [x00]);
  deserialize := example_deserialize;
  encode_metadata m := if decide (m = adder_metadata) then [x02] else bits_of (countable.encode m);
  decode_metadata bs := if decide (bs = [x02]) then Some adder_metadata else countable.decode (of_bits bs);
  encode_image_spec i := bits_of (countable.encode (spec_fields i));
  decode_image_spec bs := (fun '(a, b, c, d) => mkImageSpec a b c d) <$> countable.decode (of_bits bs);
  decode_manifest bs := Some ((fun b => [b]) <$> bs);
|}.

Lemma bits_of_not_short p : bits_of p <> [x02].
Proof. by destruct p. Qed.

Lemma adder_codec_laws : @ContainerCodecLaws _ _ adder_codec.
Proof.
  constructor; cbn [serialize deserialize encode_metadata decode_metadata encode_image_spec decode_image_spec adder_codec].
  - intros c bs [= <-]. unfold example_deserialize. by rewrite rev_unit, rev_involutive.
  - intros m. destruct (decide (m = adder_metadata)) as [->|]; [done |].
    by rewrite decide_False, of_bits_of, decode_encode by apply bits_of_not_short.
  - intros i. rewrite of_bits_of, decode_encode. by destruct i.
Qed.

Lemma adder_methods n m :
  methods (mkGrpcService "foo.bar.AdderService" (<["AddFloats"%string := add_floats]> ∅)) !! n = Some m ->
  n = "AddFloats"%string /\ m = add_floats.
Proof. simpl. intros [[-> ->]|[_ H]]%lookup_insert_Some; [done | by rewrite lookup_empty in H]. Qed.

Lemma adder_plain : plain_service (mkGrpcService "foo.bar.AdderService" (<["AddFloats"%string := add_floats]> ∅)).
Proof.
  split; [|intros n m [-> _]%adder_methods]; (split; [discriminate|]); apply (bool_decide_unpack _); vm_compute; exact I.
Qed.

Section Adder.
#[local] Existing Instance list_axum.
#[local] Existing Instance list_axum_laws.
#[local] Existing Instance plain_tonic.
#[local] Existing Instance plain_tonic_laws.
#[local] Existing Instance any_wasmtime.
#[local] Existing Instance adder_codec.
#[local] Existing Instance adder_codec_laws.

Definition adder_registry : str -> Containers.HttpResponse := registry_of (lit "code") [x02].
Definition adder_linker : Linker := default [] grpc_linker.

Lemma pulled_pod_serves_witness :
  exists w routes e,
    run_with (calm adder_registry) (grpc an_image) w = Some (Done routes, w)
    /\ lookup_path routes (lit "/foo.bar.AdderService/AddFloats") = Some e
    /\ method_function (method e) = "add-floats"%string
    /\ lookup_path routes (lit "/foo.bar.AdderService/SubtractFloats") = None.
Proof.
  destruct (pulled_pod_serves [] true adder_registry (lit "registry") an_image a_spec empty_disk none_used
    (mkContainer (lit "code") adder_metadata) (lit "code" ++ [x00]) adder_linker (adder_linker, lit "code"))
    as (w & routes & _ & Hrun & Hserve).
  - exact demo_domain_wf.
  - apply sound_empty.
  - vm_compute; reflexivity.
  - reflexivity.
  - vm_compute; discriminate.
  - vm_compute; reflexivity.
  - vm_compute; reflexivity.
  - reflexivity.
  - reflexivity.
  - constructor; [|constructor]. exact adder_plain.
  - apply NoDup_singleton.
  - intros s n m [->|[]%not_elem_of_nil]%elem_of_cons Hm. apply adder_methods in Hm as [-> ->]. eexists. reflexivity.
  - assert (Hadd : exists e, lookup_path routes (lit "/foo.bar.AdderService/AddFloats") = Some e
                          /\ method_function (method e) = "add-floats"%string).
    { eexists. split; [|shelve]. apply Hserve. eexists _, "AddFloats"%string, add_floats.
      split_and!; [left | apply lookup_insert_eq | reflexivity | reflexivity]. Unshelve. reflexivity. }
    destruct Hadd as (e & He & Hf). exists w, routes, e. split_and!; [exact Hrun | exact He | exact Hf |].
    destruct (lookup_path routes (lit "/foo.bar.AdderService/SubtractFloats")) as [e'|] eqn:El; [|reflexivity].
    apply Hserve in El as (s & n & m & [->|[]%not_elem_of_nil]%elem_of_cons & Hm & Hp & _).
    apply adder_methods in Hm as [-> _]. discriminate Hp.
Defined.

(** 1.5 and 2, and their sum. *)
Definition two_floats : list byte := [x0d; x00; x00; xc0; x3f; x15; x00; x00; x00; x40].
Definition their_sum : list byte := [x0d; x00; x00; x60; x40].
Definition adder_headers : list KeyAndValue :=
  [AsciiHeader (lit "te") (lit "trailers"); BinaryHeader (lit "trace-bin") [xff]; AsciiHeader (lit "odd") [xc3; xa9]].

(** The component, for this request. *)
Definition adder_component (parameters : list Val) : option Val :=
  match parameters with
  | [VRecord [(_, VList [VTuple [VString _; VString _]])]; VRecord [(_, VFloat32 0x3fc00000); (_, VFloat32 0x40000000)]] =>
      Some (VRecord [("result"%string, VFloat32 0x40600000)])
  | _ => None
  end.

Definition float_decoder (f : Field) : Merger :=
  match message_inner f with Done d => d | _ => (Merger_scalar BytesImplicit).1 end.
Definition float_encoder (f : Field) : Encoder :=
  match Encoder_message_inner f with Done e => e | _ => message_inner_encoder f ∅ end.
Definition adder_endpoint : Endpoint :=
  mkEndpoint (mkCodec (float_decoder add_request) (float_encoder add_response))
    (mkMethod "add-floats" (adder_linker, lit "code") an_image).

Lemma adder_endpoint_made : method_endpoint an_image (lit "code") (adder_linker, lit "code") add_floats = Done adder_endpoint.
Proof. reflexivity. Qed.

End Adder.
