(* ===== verification/PodsWit.v ===== *)
(** * Compiled services and their pods

    The compiler declares a function with one parameter for a method; the pod calls it with
    two, the context and the request. *)

From S2P Require Import Prelude Prost Wire Names Concurrent Ordering Descriptors Wit.
From S2P Require Import DecodeLib DecodeScalar DecodeCompound EncodeLib EncodeScalar EncodeCompound Containers Pods PodsSpec.

Section Arity.
Context `{Heck} {E : WitEncoder} (unicode : str -> bool).
Context {Component : Type} {X : Wasmtime Component} {T : Tonic}.

(** No call of a function that was compiled for a method succeeds, since wasmtime fails a call
    whose arguments are not as many as the parameters of the function. *)
Lemma compiled_methods_uncallable wf m declared types (method : Method) metadata v a log :
  compile_method unicode wf m = Done (declared, types) ->
  (forall parameters, length parameters <> length [fn_params declared] -> wa_call a parameters = None) ->
  exists message, fst <$> run_with a (call method (metadata, v)) log = Some (Failed (Internal message)).
Proof.
  intros _ Ha. rewrite run_call. unfold call_result. rewrite Ha by done.
  destruct (wa_instantiates a), (wa_selects a); simpl; eauto.
Qed.
End Arity.
