(* ===== verification/Daemon.v ===== *)
(** * The daemon

    Models [src/runtime/main.rs]: the options, and how the parts of the daemon are put together,
    started and stopped.  Each fallible thing that [main] does on the node is a step that the
    environment answers; the world is the set of paths that sockets are bound to.  Setting up
    logging is left out.

    A failure between binding the CRI socket and serving it leaves the socket behind, and the
    daemon cannot be started again: [socket_left_behind]. *)

From S2P Require Import Prelude Regexp Names Concurrent Files State Cri Containers Ipam.

#[local] Open Scope Z_scope.

(** ** Options *)
Definition DEFAULT_INCOMING : str := lit "/run/vimana/vimanad.sock".
Definition DEFAULT_DOWNSTREAM : str := lit "/run/containerd/containerd.sock".
Definition DEFAULT_IMAGE_STORE : str := lit "/var/lib/vimana/images".
Definition DEFAULT_IPAM_PLUGIN : str := lit "/opt/cni/bin/host-local".
Definition DEFAULT_NETWORK_INTERFACE : str := lit "eth0".
Definition DEFAULT_POD_IPS : str := lit "10.1.0.0/16".

Record VimanadConfig := mkVimanadConfig {
  config_path : option str;
  incoming : option str;
  downstream : option str;
  image_store : option str;
  insecure_registries : list str;
  ipam_plugin : option str;
  network_interface : option str;
  pod_ips : option str;
}.
Definition VimanadConfig_default : VimanadConfig := mkVimanadConfig None None None None [] None None None.

(** [serde_json::from_reader], on the contents of a file. *)
Class ConfigFormat := { from_reader : list byte -> option VimanadConfig }.

(** Options from the command line first, the configuration file second, the default third. *)
Definition select (args config : option str) (default : str) : str :=
  match args with
  | Some v => v
  | None => match config with Some v => v | None => default end
  end.

(** ** The steps *)
Inductive DaemonError :=
| ConnectingDownstream
| MainIpam (e : IpamError)
| EngineFailed
| ImageRootFailed
| IncomingDirectoryFailed
| ServiceFailed (e : Cri.Status)
| ServingFailed
| UnlinkingFailed.

Record MainAnswer := mkMainAnswer {
  m_file : option (list byte);          (** the contents of the configuration file, if it opens *)
  m_ok : bool;
  m_pods : Cri.Status + list PodSandbox;
  m_containers : Cri.Status + list Cri.Container;
}.

Section Daemon.
Context {M : Type -> Type} {P : PapayaMap M} {S : Type} {PS : PapayaSet S} {L : IpamLibs} {F : ConfigFormat}.

(** The parts of a daemon that serves. *)
Record Daemon := mkDaemon {
  d_service : ProxyingRuntimeService (M := M) (S := S);
  d_ipam : Ipam;
  d_downstream : str;
  d_image_root : str;
  d_registries : list str;
}.

(** The paths of bound sockets, and the daemon once it is put together. *)
Record Node := mkNode { sockets : gset str; daemon : option Daemon }.
Abbreviation mop B := (prog Node MainAnswer (outcome DaemonError B)) (only parsing).

Definition set_sockets (s : gset str) (w : Node) : Node := mkNode s (daemon w).

(** A step that succeeds or fails. *)
Definition attempt (otherwise : outcome DaemonError unit) : mop unit :=
  atomic (fun a w => Some (if m_ok a then Done tt else otherwise, w)).

(** [map_or(VimanadConfig::default(), ...)] *)
Definition read_config (path : option str) : mop VimanadConfig :=
  match path with
  | None => Ret (Done VimanadConfig_default)
  | Some _ =>
      atomic (fun a w => Some (match m_file a ≫= from_reader with Some c => Done c | None => Crash Panicked end, w))
  end.

Definition listen_for_signal : mop unit := attempt (Crash Panicked).

(** [Path::parent] is [None] for a root and for the empty path. *)
Definition has_parent (path : str) : bool := existsb (fun b => negb (bool_decide (b = x2f))) path.

(** [UnixListener::bind] fails if the path exists. *)
Definition bind_socket (path : str) : mop unit :=
  atomic (fun a w =>
    Some (if m_ok a && negb (bool_decide (path ∈ sockets w)) then (Done tt, set_sockets ({[path]} ∪ sockets w) w) else (Crash Panicked, w))).

(** [remove_file] of the socket. *)
Definition unlink_socket (path : str) : prog Node MainAnswer bool :=
  atomic (fun a w => Some (if m_ok a then (true, set_sockets (sockets w ∖ {[path]}) w) else (false, w))).

(** [ProxyingRuntimeService::new], and the other parts of the daemon. *)
Definition new_service (ipam : Ipam) (downstream image_root : str) (registries : list str) : mop unit :=
  atomic (fun a w =>
    Some (match ProxyingRuntimeService_new WorkRuntime_new (m_pods a) (m_containers a) with
          | Done service => (Done tt, mkNode (sockets w) (Some (mkDaemon service ipam downstream image_root registries)))
          | Failed e => (Failed (ServiceFailed e), w)
          | Crash c => (Crash c, w)
          end)).

(** Everything up to serving. *)
Definition start_daemon (args config : VimanadConfig) : mop unit :=
  let incoming := select (incoming args) (incoming config) DEFAULT_INCOMING in
  let downstream := select (downstream args) (downstream config) DEFAULT_DOWNSTREAM in
  let registries := insecure_registries args ++ insecure_registries config in
  let image_store := select (image_store args) (image_store config) DEFAULT_IMAGE_STORE in
  (ok! _ <- attempt (Failed ConnectingDownstream);
   ok! ipam <- atomic (fun a w =>
     Some (map_err MainIpam (host_local (m_ok a)
             (select (ipam_plugin args) (ipam_plugin config) DEFAULT_IPAM_PLUGIN)
             (select (pod_ips args) (pod_ips config) DEFAULT_POD_IPS)
             (select (network_interface args) (network_interface config) DEFAULT_NETWORK_INTERFACE)), w));
   ok! _ <- listen_for_signal;
   ok! _ <- listen_for_signal;
   ok! _ <- attempt (Failed EngineFailed);
   ok! _ <- attempt (Failed ImageRootFailed);
   ok! _ <- Ret (if has_parent incoming then Done tt else Crash Panicked);
   ok! _ <- attempt (Failed IncomingDirectoryFailed);
   ok! _ <- bind_socket incoming;
   new_service ipam downstream image_store registries)%prog.

(** Serving ends when a signal to shut down comes, or with an error of the transport. *)
Definition serve_daemon : prog Node MainAnswer bool := atomic (fun a w => Some (m_ok a, w)).

Definition main (args : VimanadConfig) : mop unit :=
  (ok! config <- read_config (config_path args);
   ok! _ <- start_daemon args config;
   do! result <- serve_daemon;
   do! unlink_socket_result <- unlink_socket (select (incoming args) (incoming config) DEFAULT_INCOMING);
   Ret (if result then if unlink_socket_result then Done tt else Failed UnlinkingFailed
        else Failed ServingFailed))%prog.

(** ** What is left behind *)
(** The options that a run uses besides its arguments. *)
Definition read_options (args config : VimanadConfig) : Prop := config_path args = None -> config = VimanadConfig_default.
Definition socket_of (args config : VimanadConfig) : str := select (incoming args) (incoming config) DEFAULT_INCOMING.

Lemma ensures_attempt otherwise w Q : Q (Done tt) w -> Q otherwise w -> ensures (attempt otherwise) w Q.
Proof. intros H1 H2. apply ensures_atomic. intros a b w' [= <- <-]. by destruct (m_ok a). Qed.

Lemma ensures_read_config args w Q :
  (forall config, read_options args config -> Q (Done config) w) -> Q (Crash Panicked) w ->
  ensures (read_config (config_path args)) w Q.
Proof.
  unfold read_config, read_options. intros H Hc. destruct (config_path args) as [path|]; [|by apply H].
  apply ensures_atomic. intros a b w' [= <- <-]. destruct (m_file a ≫= from_reader); [by apply H | done].
Qed.

(** A daemon with the options of a run, that knows what the downstream runtime listed. *)
Definition assembled (args config : VimanadConfig) (d : Daemon) : Prop :=
  d_downstream d = select (downstream args) (downstream config) DEFAULT_DOWNSTREAM
  /\ d_image_root d = select (image_store args) (image_store config) DEFAULT_IMAGE_STORE
  /\ d_registries d = insecure_registries args ++ insecure_registries config
  /\ exists pods containers, ProxyingRuntimeService_new WorkRuntime_new (inr pods) (inr containers) = Done (d_service d).

(** Starting: nothing is bound, or the socket is, and then only creating the service can fail. *)
Lemma ensures_start args config w Q :
  (forall r, match r with
             | Done _ | Failed (ServiceFailed _ | ServingFailed | UnlinkingFailed) => False
             | Crash c => c = Panicked | _ => True end -> Q r w) ->
  (socket_of args config ∉ sockets w -> forall e, Q (Failed (ServiceFailed e)) (set_sockets ({[socket_of args config]} ∪ sockets w) w)) ->
  (socket_of args config ∉ sockets w -> forall d, assembled args config d ->
     Q (Done tt) (mkNode ({[socket_of args config]} ∪ sockets w) (Some d))) ->
  ensures (start_daemon args config) w Q.
Proof.
  intros Hno Hservice Hyes. unfold start_daemon.
  apply ensures_and_then, ensures_attempt; [|by apply Hno].
  apply ensures_and_then, ensures_atomic. intros a b w' [= <- <-].
  unfold host_local. destruct (m_ok a); [cbn [map_err] | by apply Hno]. clear a.
  do 2 (apply ensures_and_then, ensures_attempt; [|by apply Hno]).
  do 2 (apply ensures_and_then, ensures_attempt; [|by apply Hno]).
  apply ensures_and_then. cbn [ensures]. destruct (has_parent _); [|by apply Hno].
  apply ensures_and_then, ensures_attempt; [|by apply Hno].
  apply ensures_and_then, ensures_atomic. intros a b w' Hb. fold (socket_of args config) in Hb.
  destruct (m_ok a); cbn [andb] in Hb; [|injection Hb as <- <-; by apply Hno].
  destruct (bool_decide_reflect (socket_of args config ∈ sockets w)) as [Hin|Hout]; injection Hb as <- <-; [by apply Hno|].
  apply ensures_atomic. intros a' b w' Hb. clear a.
  unfold ProxyingRuntimeService_new in Hb.
  destruct (m_pods a') as [e|pods]; [injection Hb as <- <-; by apply Hservice|].
  destruct (m_containers a') as [e|cs]; injection Hb as <- <-; [by apply Hservice|].
  apply Hyes; [done |]. split_and!; [done.. | by eexists pods, cs].
Qed.

(** What is left, by the result; and what results there are when the socket exists at the start. *)
Definition main_leaves (args config : VimanadConfig) (w : Node) (r : outcome DaemonError unit) (w' : Node) : Prop :=
  let s := socket_of args config in
  match r with
  | Done _ => sockets w' = sockets w /\ exists d, daemon w' = Some d /\ assembled args config d
  | Failed (ServiceFailed _ | UnlinkingFailed) => s ∉ sockets w /\ sockets w' = {[s]} ∪ sockets w
  | Failed ServingFailed => sockets w' = sockets w \/ sockets w' = {[s]} ∪ sockets w
  | Failed _ => w' = w
  | Crash c => c = Panicked /\ w' = w
  end
  /\ (s ∈ sockets w -> match r with Done _ | Failed (ServiceFailed _ | ServingFailed | UnlinkingFailed) => False | _ => True end).

Lemma ensures_main args w :
  ensures (main args) w (fun r w' => exists config, read_options args config /\ main_leaves args config w r w').
Proof.
  apply ensures_and_then, ensures_read_config; [|exists VimanadConfig_default; by split_and!].
  intros config Ho. apply ensures_and_then, ensures_start.
  - intros [d|e|c] Hr; [done | |]; exists config; (split; [done|]); unfold main_leaves; [by destruct e | by split_and!].
  - intros Hout e. exists config. by split_and!.
  - intros Hout d Hd.
    apply ensures_pbind, ensures_atomic. intros a b w1 [= <- <-].
    apply ensures_pbind, ensures_atomic. intros a' b w2 Hb. fold (socket_of args config) in Hb.
    assert (Hback : ({[socket_of args config]} ∪ sockets w) ∖ {[socket_of args config]} = sockets w) by set_solver.
    exists config. split; [done |]. unfold main_leaves.
    destruct (m_ok a'); injection Hb as <- <-; destruct (m_ok a); simpl; rewrite ?Hback; eauto.
Qed.

End Daemon.

(** ** Witness *)
(** No options, and a downstream runtime that does not list its pods. *)
Definition unlisted : MainAnswer := mkMainAnswer None true (inl Cri.InternalTodo) (inr []).
Definition no_libs : IpamLibs := {| sha256 := id; to_vec _ := []; from_slice _ := None |}.
Definition no_format : ConfigFormat := {| from_reader _ := None |}.
Abbreviation example_main :=
  (main (M := gmap Z) (S := gset str) (L := no_libs) (F := no_format) VimanadConfig_default).

Lemma default_incoming_parent : has_parent DEFAULT_INCOMING = true.
Proof. vm_compute. reflexivity. Qed.

Lemma run_unlisted w :
  run_alone example_main (replicate 12 unlisted) w =
    if bool_decide (DEFAULT_INCOMING ∈ sockets w) then Some (Crash Panicked, w)
    else Some (Failed (ServiceFailed Cri.InternalTodo), set_sockets ({[DEFAULT_INCOMING]} ∪ sockets w) w).
Proof.
  cbn -[has_parent bool_decide DEFAULT_INCOMING]. rewrite default_incoming_parent.
  cbn -[bool_decide DEFAULT_INCOMING]. by destruct (bool_decide (DEFAULT_INCOMING ∈ sockets w)).
Qed.

